(* ===== verification/_CoqProject ===== *)
-Q . S2P
Prelude.v
Digest.v
ContractBase.v
PttFraming.v
PyFloat.v
PttGuard.v
DuplexTable.v
DuplexEdge.v
DuplexCore.v
DuplexLink.v
AuditChain.v
EdgeAudio.v
Media.v
SecureTime.v
Turns.v
Sessions.v
BudgetPricing.v
BudgetLedger.v
BudgetGuard.v
ProviderCalls.v
BudgetReconciler.v
BudgetSafety.v
BudgetTheorems.v
TurnBudget.v
Tasks.v
Outbox.v
Revocation.v
RevocationSafety.v
Attempts.v
AttemptSafety.v
SpeechStream.v
EdgeRuntime.v
Identity.v
Consent.v
Routes.v
Profiles.v
Enrollment.v
IdentityRuns.v
IdentitySafety.v
RouteSafety.v
ConsentPointers.v
ConsentCheck.v
Household.v
