(* ===== verification/Prelude.v ===== *)
(** * TunTun: a verification development

    TunTun is a household voice assistant: a core process on a Mac and an edge
    process on a Reachy robot, joined by authenticated links, with a budget
    that bounds what cloud providers may cost.  This library models the parts of
    it that decide what is accepted, what is remembered and what is spent, and
    proves what makes them correct.

    ** Parts and files

    - [ContractBase]: [packages/contracts/.../base.py], the bounded JSON ingress
      every contract goes through: CPython's scanner, the UTF-8 decoder and
      [Decimal] written out as far as the parser uses them, pydantic's model
      validation and canonical form as the interface [ContractCodec].
    - [PttFraming]: the push-to-talk wire format of
      [packages/contracts/.../poc/framing.py]: frames, both encoders and the
      incremental decoder [FrameDecoder] ([feed], [finish], [abort]).
    - [PyFloat], [PttGuard]: [PttDuplexGuard] of the same file, the per-turn
      state machine over both directions (legal scripts, sequence numbers, byte,
      sample and pacing limits, cleanup).  Clock readings are exact rationals of
      the float values.
    - [DuplexTable]: the correlation table both sequence stores share.
      [DuplexEdge]: [apps/edge/.../transport/duplex_state.py].  [DuplexCore]:
      [apps/core/.../adapters/reachy/duplex_state.py].  [DuplexLink]: the classes
      [DuplexEndpoint] and [DuplexLaws] that say what a store promises its link,
      the two instances, the link over a lossy network as a step relation, and the
      robot's link, made of the two stores.
    - [BudgetPricing]: [services/budget/catalog.py], [pricing.py] and
      [contracts/budget.py]: records, catalogue validation, tiers, checked
      integer arithmetic, quotes.
    - [BudgetLedger]: the tables the budget services share, with the statements
      they run and the constraints that bear on them
      ([adapters/sqlcipher/foundation_0001.py]).
    - [BudgetGuard]: [services/budget/guard.py], every operation.
      [ProviderCalls]: [services/providers/call_repository.py],
      [response_receipts.py] where it writes provider calls,
      [route_verifier.py] and the closing of a revoked subject's calls in
      [adapters/sqlcipher/identity_repositories.py].  [BudgetReconciler]:
      [services/budget/reconciler.py].
    - [BudgetSafety]: the invariant and the preservation proofs of all budget
      operations.  [BudgetTheorems]: the claims about runs of them.
    - [Digest]: SHA-256, HMAC, hexadecimal and base64.  [AuditChain]:
      [services/audit/ledger.py] and [verifier.py], the chained receipts, their sealed
      segments and the verifier, over tables of SQLite values.
    - [EdgeAudio]: [apps/edge/.../audio/buffer.py], the ring of audio around the wake
      word, and [vad.py], the voice activity detector.
    - [Media]: private commitments ([contracts/.../commitments.py]), the media prefix and
      the camera window ([reachy_media.py]), and the audio quota of a turn
      ([apps/edge/.../transport/media.py]).
    - [SecureTime]: [apps/edge/.../transport/secure_time.py], the gate that gives the robot
      a trustworthy clock before strict TLS, its state repository and the boot life cycle,
      over a machine whose calls fail, whose process is killed and whose power is cut.
    - [Turns]: [services/sessions/turn_coordinator.py], which owns the household's one turn and
      releases it only through a safety barrier, as steps of the event loop.  [Sessions]:
      [services/sessions/manager.py], which admits turns, leases their context and ends context
      sessions, with the table of [domain/conversation.py]; the class [TurnOwner] with
      [TurnOwnerLaws] says what the manager needs of the coordinator.  [TurnBudget]: the
      coordinator beside the budget it reconciles, with that reconciliation cut at its units of
      work.
    - [Tasks]: asyncio code as programs whose suspension points are calls of an interface
      ([Calls], [Calling]), the event loop that interleaves them, a rely-guarantee logic for
      them, and histories of runs.
    - [Outbox]: [adapters/sqlcipher/subject_revocation_outbox_repository.py] and
      [subject_revocation_effect_repository.py], the leased queue of revocation events and of
      their effects.  [Revocation]: [workers/subject_revocation_worker.py],
      [services/identity/subject_revocation_processor.py] and
      [subject_revocation_handlers.py] as such programs, the heartbeat that keeps a lease
      included.  [RevocationSafety]: the claims about processes of them.
    - [Attempts]: [services/providers/gateway.py], which takes an authorized request through its
      durable claim to the network and its call to a durable end, and
      [services/providers/attempts.py], which reserves, runs, closes and retries attempts, as
      such programs over the budget and the coordinator.  [AttemptSafety]: the claims about
      processes of them.  [SpeechStream]: what the consumer of a speech stream gets.
    - [EdgeRuntime]: [apps/edge/.../safety/controller_guard.py], which makes the robot safe unless
      the expected process controls it alone, and [apps/edge/.../runtime.py], which opens the link
      to the core behind its gates and cleans up.
    - [Identity]: the household's subjects, owners, consents, sessions, enrollments and templates
      as rows ([domain/profile.py], migrations 0002 and 0003,
      [adapters/sqlcipher/identity_repositories.py]) and the binding of an authenticated action to
      its parameters ([services/actions/parameter_binding.py]).  [Consent]:
      [services/identity/consent.py] and [services/providers/consent_guard.py].  [Routes]:
      [services/providers/route_authorization.py], the single-use authorizations of cloud
      requests.  [Profiles]: [services/identity/profiles.py], [current_owner.py] and the cascades
      of [subject_revocation.py] and [revocation_handlers.py].  [Enrollment]:
      [services/identity/enrollment.py].
    - [IdentityRuns]: runs of all their operations, interleaved with other writers of the tables,
      and what no operation ever undoes.  [IdentitySafety], [RouteSafety], [ConsentPointers]: the
      claims about such runs.  [ConsentCheck]: the receipts a request gets are those its route is
      checked against.  [Household]: one concrete run, on which the claims are applied.
    - This file: results and the state and error monad [M] with its weakest
      preconditions and tactics, and what is generic about lists, integers and
      bytes.

    ** Conventions

    A method is a function of type [M S E A]: it takes the object or the rows and
    returns a value or a raised exception together with the state it leaves, so
    that a theorem can speak of what an exception leaves behind.  A unit of work
    ([in_uow], [_transaction], [_commit_sync]) commits or rolls back as a whole.
    Tables are [gmap]s by primary key; ids are integers; times are microseconds,
    except in [PttGuard] where they are rationals; machine-width fields keep their
    bounds.  What the code asks of the clock, of uuid4 and of the file system is
    an argument; what it takes from code that is not modelled is a class
    ([ContractCodec], [BudgetServices], [CallServices], [AuditText], [GrantBody],
    [TimeCrypto], [RevocationServices], [ParameterServices], [ConsentServices], [RouteServices] with
    [RouteLaws], [ProfileServices]), whose instances are arbitrary in the theorems and concrete in the witnesses.

    ** What the theorems show

    - Ingress ([ContractBase]): an accepted document is within every limit and
      free of duplicate keys and unsafe numbers; which exceptions can leave the
      parser; a canonical parse returns the model whose bytes were read.
    - Framing ([PttFraming]): encoding, cutting into chunks and decoding is the
      identity; accepted bytes are encodings; the batch loop equals a bytewise
      reference; errors poison the decoder; its buffer is bounded.
    - Guard ([PttGuard]): a completed turn followed a legal script with a complete
      safety receipt and sound both ways; streams are numbered and bounded; a
      refused frame closes the guard for good.
    - Sequence stores ([DuplexEdge], [DuplexCore], [DuplexLink]): bounded and well
      formed in every reachable state, atomic under failure, isolated by device;
      over any network the robot and the core each accept a subsequence of what the
      other signed, and a prefix while no sync fails after its commit.
    - Pricing ([BudgetPricing]): amounts round up, never overflow, grow with usage,
      settle as quoted; a valid catalogue prices all covered usage.
    - Budget ([BudgetTheorems]): the monthly hard cap or a freeze in every
      reachable state; freezes, terminal rows and ledger rows are final, but for the
      response a finished call is bound to, which is written once; what
      reserve decides and what settle leaves; failures of evidence freeze; one soft
      warning a month; the drain ends and leaves nothing due at its last reading.
    - Audit ([AuditChain]): what the ledgers write verifies up to the first body that is
      over the verifier's limit, and entirely if there is none; two verified tables with
      one terminal hash are equal up to a collision among their own receipts.
    - Edge audio ([EdgeAudio]): the ring refines two flat buffers; the detector's counters
      decide a property of the whole score history.
    - Media ([Media]): what a camera window admits stays within its committed grant.
    - Secure time ([SecureTime]): across crashes and power cuts committed time never goes
      back and is restored at most once; a ready boot had a qualified RTC by the report's own
      fields or shows a signed and committed time.
    - Turns ([Turns]): a turn is released only when the robot answered for it that all has stopped
      and its work is joined and reconciled, a safety block stays until the owner's
      recovery, every barrier ends.
    - Sessions ([Sessions]): one admitted turn at a time, which owns the household and all the
      leases; a context session ends once; a wait for that end can be lost.
    - Turn and budget ([TurnBudget]): a released turn leaves no reservation of its attempts open.
    - Revocation ([Outbox], [RevocationSafety]): an old lease holder can change nothing; a
      completed event has its four families' effects applied and vouched for, whatever fails and
      however workers interleave; a startup drain that returns has completed the backlog,
      also of earlier processes.
    - Attempts ([AttemptSafety], [SpeechStream]): no request leaves that the budget does not
      count; what returns has paid for one attempt and given the earlier ones back; a speech
      stream is numbered, gapless and ended once.
    - Edge runtime ([EdgeRuntime]): the link opens only behind its gates, one controller and a
      confirmed stop, and every run cleans up; the guard says yes only to the expected controller
      alone and otherwise makes the robot safe, but for one exception it lets through.
    - Consent and identity ([IdentitySafety], [ConsentPointers]): a revoked consent carries no
      request again, a revoked profile has no authority left and its biometrics stay ended,
      whatever the services do next; profiles are well formed and point to exactly the newest
      granted receipts.
    - Routes ([RouteSafety]): a route is used once, by the request it was authorized for and under
      a consent in force; revoking in pages is one pass of its loop, and deletes what revoking at
      once deletes from every store the services wrote.

    Ten results state behaviour the code does not seem to intend:
    [invalid_operation_escapes], [invalid_operation_leaves_decoder_open],
    [edge_response_behind_request], [revoked_claim_stranded], the second case of
    [audit_ledger_verifies], [session_end_skipped], [end_wait_lost], [late_error_leaves_reservation],
    [cancelled_run_raises_stale_turn] and [late_inventory_escapes].

    ** Bounds and fuel

    The JSON scanner and the decoder loops recurse on fuel taken from the length
    of their input, and the proofs show it is never used up.  The reconciler's
    drain takes fuel; [drain_closes_all_due] shows that one round more than there
    are open reservations is enough.  The worker's loops take their number of rounds and a
    heartbeat its number of ticks, a speech stream its number of chunks; a program that uses them
    up halts, and the claims about runs hold for every number.  The paged revocation of routes takes
    one page more than there are rows, which [invalidate_paged_at_once] shows to be enough.
    Everything else is structural.

    ** Not modelled

    Sockets, TLS, files, keys and ceremonies; audio devices and model inference;
    pydantic; redaction and other text processing; composition and command line.  Of the identity
    services: the coordinators that consume an authentication before each operation, encrypted
    templates, audit drafts, the authorities of an installed search capability.
    Next in the plan: budget evidence as an instance of [BudgetServices] over the HMAC of
    [Digest], at most one request for a reservation, the wire envelopes of the robot link. *)

From Stdlib Require Export ZArith Lia.
From Stdlib Require Strings.Byte.
From Stdlib Require Export Init.Byte.
From stdpp Require Export base list numbers option strings gmap.

Declare Scope py_scope.
Delimit Scope py_scope with py.
#[global] Open Scope Z_scope.

(** ** Python exceptions the modelled code raises or lets through *)

Inductive exn :=
| TypeError (msg : string)
| ValueError (msg : string)
| PermissionError (msg : string)
| PermissionSubclass (name msg : string)
| RuntimeError (msg : string)
| TaskFactoryUnavailable (msg : string)
| LeaseFenceLost (msg : string)
| ConsentDenied (msg : string)
| KeyError
| OverflowError (msg : string)
| ContractParseError (msg : string)
| HostileJSONError (msg : string)
| JSONDecodeError
| UnicodeDecodeError
| ValidationError
| InvalidOperation
| UnicodeEncodeError
| IntegrityError
| IndexError
| TimeoutError (msg : string)
| OSError
| CancelledError
| SafetyBlockedError (msg : string)
| SessionRejected (reason : string) (retry_after_ms : option Z).

#[export] Instance exn_eq_dec : EqDecision exn.
Proof. solve_decision. Defined.

(** [type(error).__name__]. *)
Definition exn_name (e : exn) : string :=
  match e with
  | TypeError _ => "TypeError" | ValueError _ => "ValueError" | PermissionError _ => "PermissionError"
  | PermissionSubclass name _ => name
  | RuntimeError _ => "RuntimeError" | TaskFactoryUnavailable _ => "_TaskFactoryUnavailable" | LeaseFenceLost _ => "LeaseFenceLost"
  | ConsentDenied _ => "ConsentDenied" | KeyError => "KeyError" | OverflowError _ => "OverflowError"
  | ContractParseError _ => "ContractParseError" | HostileJSONError _ => "_HostileJSONError"
  | JSONDecodeError => "JSONDecodeError" | UnicodeDecodeError => "UnicodeDecodeError"
  | ValidationError => "ValidationError" | InvalidOperation => "InvalidOperation"
  | UnicodeEncodeError => "UnicodeEncodeError" | IntegrityError => "IntegrityError"
  | IndexError => "IndexError" | TimeoutError _ => "TimeoutError" | OSError => "OSError"
  | CancelledError => "CancelledError" | SafetyBlockedError _ => "SafetyBlockedError"
  | SessionRejected _ _ => "SessionRejected"
  end%string.

(** [except Exception] catches it. *)
Definition is_exception (e : exn) : bool := match e with CancelledError => false | _ => true end.

(** ** Results: a returned value or a raised exception *)

Inductive result (E A : Type) :=
| Ok (a : A)
| Raise (e : E).
Arguments Ok {E A} a.
Arguments Raise {E A} e.

#[export] Instance result_eq_dec {E A} `{EqDecision E, EqDecision A} :
  EqDecision (result E A).
Proof. solve_decision. Defined.

#[export] Instance result_ret {E} : MRet (result E) := λ A, Ok.
#[export] Instance result_bind {E} : MBind (result E) := λ A B k m,
  match m with Ok a => k a | Raise e => Raise e end.

Definition is_ok {E A} (r : result E A) : bool :=
  match r with Ok _ => true | Raise _ => false end.

(** [if c: raise e] as a statement. *)
Definition reject_if {E} (c : bool) (e : E) : result E unit :=
  if c then Raise e else Ok tt.

Lemma rbind_Ok {E A B} (m : result E A) (k : A → result E B) b :
  (m ≫= k) = Ok b → ∃ a, m = Ok a ∧ k a = Ok b.
Proof. destruct m; simpl; naive_solver. Qed.

Lemma reject_if_Ok {E} c (e : E) u : reject_if c e = Ok u → c = false.
Proof. by destruct c. Qed.

Lemma reject_if_Raise {E} c (e e' : E) : reject_if c e = Raise e' → e' = e.
Proof. by destruct c; simpl; intros [=]. Qed.

(** ** Stateful methods: the object survives a raised exception *)

Definition M (S E A : Type) : Type := S → result E A * S.

#[export] Instance M_ret {S E} : MRet (M S E) := λ A a s, (Ok a, s).
#[export] Instance M_bind {S E} : MBind (M S E) := λ A B k m s,
  match m s with
  | (Ok a, s') => k a s'
  | (Raise e, s') => (Raise e, s')
  end.

Definition raise {S E A} (e : E) : M S E A := λ s, (Raise e, s).
Definition gets {S E A} (f : S → A) : M S E A := λ s, (Ok (f s), s).
Definition modify {S E} (f : S → S) : M S E unit := λ s, (Ok tt, f s).
Definition lift {S E A} (r : result E A) : M S E A := λ s, (r, s).
Definition raise_if {S E} (c : bool) (e : E) : M S E unit :=
  if c then raise e else mret tt.

(** Weakest precondition of a method: [Q] on return, [R] on a raise. *)
Definition wp {S E A} (m : M S E A) (Q : A → S → Prop) (R : E → S → Prop)
    (s : S) : Prop :=
  match m s with
  | (Ok a, s') => Q a s'
  | (Raise e, s') => R e s'
  end.

Section WpRules.
Context {S E : Type}.
Implicit Types (s : S) (e : E).

Lemma wp_ret {A} (a : A) Q (R : E → S → Prop) s :
  Q a s → wp (mret a : M S E A) Q R s.
Proof. done. Qed.

Lemma wp_bind {A B} (m : M S E A) (k : A → M S E B) Q R s :
  wp m (λ a s', wp (k a) Q R s') R s → wp (m ≫= k) Q R s.
Proof.
  unfold wp, mbind, M_bind. by destruct (m s) as [[?|?] ?].
Qed.

Lemma wp_assoc {A B C} (m : M S E A) (k : A → M S E B) (k' : B → M S E C) Q R s :
  wp ((m ≫= k) ≫= k') Q R s → wp (m ≫= λ a, k a ≫= k') Q R s.
Proof. unfold wp, mbind, M_bind. by destruct (m s) as [[?|?] ?]. Qed.

Lemma wp_raise {A} e (Q : A → S → Prop) R s :
  R e s → wp (raise e) Q R s.
Proof. done. Qed.

Lemma wp_gets {A} (f : S → A) Q (R : E → S → Prop) s :
  Q (f s) s → wp (gets f) Q R s.
Proof. done. Qed.

Lemma wp_modify f (Q : unit → S → Prop) (R : E → S → Prop) s :
  Q tt (f s) → wp (modify f) Q R s.
Proof. done. Qed.

Lemma wp_lift {A} (r : result E A) Q R s :
  (∀ a, r = Ok a → Q a s) → (∀ e, r = Raise e → R e s) → wp (lift r) Q R s.
Proof. unfold wp, lift. destruct r; auto. Qed.

Lemma wp_raise_if c e (Q : unit → S → Prop) R s :
  (c = false → Q tt s) → (c = true → R e s) → wp (raise_if c e) Q R s.
Proof. destruct c; unfold wp; simpl; auto. Qed.

Lemma wp_mono {A} (m : M S E A) (Q Q' : A → S → Prop) (R R' : E → S → Prop) s :
  wp m Q R s →
  (∀ a s', Q a s' → Q' a s') →
  (∀ e s', R e s' → R' e s') →
  wp m Q' R' s.
Proof. unfold wp. destruct (m s) as [[?|?] ?]; auto. Qed.

Lemma wp_and {A} (m : M S E A) (Q Q' : A → S → Prop) (R R' : E → S → Prop) s :
  wp m Q R s → wp m Q' R' s → wp m (λ a s', Q a s' ∧ Q' a s') (λ e s', R e s' ∧ R' e s') s.
Proof. unfold wp. by destruct (m s) as [[?|?] ?]. Qed.

Lemma wp_run {A} (m : M S E A) Q R s r s' :
  wp m Q R s → m s = (r, s') →
  match r with Ok a => Q a s' | Raise e => R e s' end.
Proof. unfold wp. intros H Hm. rewrite Hm in H. by destruct r. Qed.
End WpRules.

Create HintDb wp discriminated.

(** One step of a method under [wp]; branches are split, equations kept. *)
Ltac wp_step :=
  lazymatch goal with
  | |- wp (_ ≫= _) _ _ _ => apply wp_bind
  | |- wp (mret _) _ _ _ => apply wp_ret
  | |- wp (raise _) _ _ _ => apply wp_raise
  | |- wp (gets _) _ _ _ => apply wp_gets
  | |- wp (modify _) _ _ _ => apply wp_modify
  | |- wp (lift _) _ _ _ => apply wp_lift; intros
  | |- wp (raise_if _ _) _ _ _ => apply wp_raise_if; intros
  | |- wp (match ?x with _ => _ end) _ _ _ => destruct x eqn:?
  | |- wp _ _ _ _ => solve [eauto with wp]
  end.
Ltac wp_steps := repeat (cbn beta iota; wp_step).

(** Turn boolean tests in the context into propositions. *)
Ltac bool_props :=
  repeat match goal with
  | H : negb _ = true |- _ => apply negb_true_iff in H
  | H : negb _ = false |- _ => apply negb_false_iff in H
  | H : _ && _ = true |- _ => apply andb_true_iff in H as [??]
  | H : _ || _ = false |- _ => apply orb_false_iff in H as [??]
  | H : bool_decide _ = true |- _ => apply bool_decide_eq_true in H
  | H : bool_decide _ = false |- _ => apply bool_decide_eq_false in H
  | H : (_ <? _) = true |- _ => apply Z.ltb_lt in H
  | H : (_ <? _) = false |- _ => apply Z.ltb_ge in H
  | H : (_ <=? _) = true |- _ => apply Z.leb_le in H
  | H : (_ <=? _) = false |- _ => apply Z.leb_gt in H
  | H : (_ =? _) = true |- _ => apply Z.eqb_eq in H
  | H : (_ =? _) = false |- _ => apply Z.eqb_neq in H
  end.

(** [lo <= x <= hi] as Python evaluates it. *)
Definition between (lo x hi : Z) : bool := (lo <=? x) && (x <=? hi).

Lemma between_spec lo x hi : between lo x hi = true ↔ lo ≤ x ≤ hi.
Proof. unfold between. rewrite andb_true_iff, !Z.leb_le. done. Qed.

Lemma between_false lo x hi : between lo x hi = false ↔ ¬ (lo ≤ x ≤ hi).
Proof. rewrite <- between_spec. by destruct (between lo x hi). Qed.

(** Python's [len]. *)
Definition len {A} (l : list A) : Z := Z.of_nat (length l).

Lemma len_nil {A} : len (@nil A) = 0.
Proof. done. Qed.

Lemma len_cons {A} (x : A) l : len (x :: l) = len l + 1.
Proof. unfold len. simpl length. lia. Qed.

Lemma len_app {A} (l k : list A) : len (l ++ k) = len l + len k.
Proof. unfold len. rewrite length_app. lia. Qed.

Lemma len_nonneg {A} (l : list A) : 0 ≤ len l.
Proof. unfold len. lia. Qed.

Lemma len_take {A} n (l : list A) : len (take n l) = Z.min (Z.of_nat n) (len l).
Proof. unfold len. rewrite length_take. lia. Qed.

Lemma len_drop {A} n (l : list A) : len (drop n l) = Z.max 0 (len l - Z.of_nat n).
Proof. unfold len. rewrite length_drop. lia. Qed.

(** ** Bytes and big-endian integers ([struct] formats B, H, I, Ns) *)

Definition Z_of_byte (b : byte) : Z := Z.of_N (Byte.to_N b).
Definition byte_of_Z (z : Z) : byte :=
  match Byte.of_N (Z.to_N (z mod 256)) with Some b => b | None => x00 end.

#[export] Instance byte_eq_dec : EqDecision byte := Byte.byte_eq_dec.

Lemma Z_of_byte_range b : 0 ≤ Z_of_byte b < 256.
Proof. unfold Z_of_byte. pose proof (Byte.to_N_bounded b). lia. Qed.

Lemma byte_of_Z_of_byte b : byte_of_Z (Z_of_byte b) = b.
Proof.
  unfold byte_of_Z. rewrite Z.mod_small by apply Z_of_byte_range.
  unfold Z_of_byte. rewrite N2Z.id. by rewrite Byte.of_to_N.
Qed.

Lemma Z_of_byte_of_Z z : Z_of_byte (byte_of_Z z) = z mod 256.
Proof.
  unfold byte_of_Z, Z_of_byte.
  assert (0 ≤ z mod 256 < 256) by (apply Z.mod_pos_bound; lia).
  destruct (Byte.of_N _) as [b|] eqn:Hb.
  - apply Byte.to_of_N in Hb. rewrite Hb. lia.
  - apply Byte.of_N_None_iff in Hb. lia.
Qed.

Lemma byte_of_Z_carry k z : byte_of_Z (k * 256 + z) = byte_of_Z z.
Proof. unfold byte_of_Z. by rewrite Z.add_comm, Z.mod_add by lia. Qed.

(** The [n] low-order bytes of [z], most significant first. *)
Fixpoint be_encode (n : nat) (z : Z) : list byte :=
  match n with
  | O => []
  | S n' => be_encode n' (z / 256) ++ [byte_of_Z z]
  end.

Definition be_decode (bs : list byte) : Z :=
  fold_left (λ acc b, acc * 256 + Z_of_byte b) bs 0.

Lemma length_be_encode n z : length (be_encode n z) = n.
Proof.
  revert z. induction n as [|n IH]; intros z; simpl; [done|].
  rewrite length_app, IH. simpl. lia.
Qed.

Lemma be_decode_snoc bs b : be_decode (bs ++ [b]) = be_decode bs * 256 + Z_of_byte b.
Proof. unfold be_decode. by rewrite fold_left_app. Qed.

Lemma be_decode_encode n z : be_decode (be_encode n z) = z mod 256 ^ Z.of_nat n.
Proof.
  revert z. induction n as [|n IH]; intros z.
  - simpl. by rewrite Z.mod_1_r.
  - simpl be_encode. rewrite be_decode_snoc, IH, Z_of_byte_of_Z.
    rewrite Nat2Z.inj_succ, Z.pow_succ_r by lia.
    rewrite (Z.rem_mul_r z 256) by lia. lia.
Qed.

Lemma be_decode_range bs : 0 ≤ be_decode bs < 256 ^ len bs.
Proof.
  induction bs as [|b bs IH] using rev_ind; [done|].
  pose proof (Z_of_byte_range b). pose proof (len_nonneg bs).
  rewrite be_decode_snoc, len_app. change (len [b]) with 1.
  rewrite Z.pow_add_r by lia. lia.
Qed.

Lemma be_encode_decode bs : be_encode (length bs) (be_decode bs) = bs.
Proof.
  induction bs as [|b bs IH] using rev_ind; [done|].
  rewrite length_app, Nat.add_comm. simpl be_encode.
  rewrite be_decode_snoc. pose proof (Z_of_byte_range b).
  rewrite Z.div_add_l by lia. rewrite (Z.div_small (Z_of_byte b)) by lia.
  rewrite Z.add_0_r, IH.
  by rewrite byte_of_Z_carry, byte_of_Z_of_byte.
Qed.

Lemma be_decode_encode_small n z :
  0 ≤ z < 256 ^ Z.of_nat n → be_decode (be_encode n z) = z.
Proof. intros. by rewrite be_decode_encode, Z.mod_small. Qed.

Lemma be_encode_decode_len n bs : length bs = n → be_encode n (be_decode bs) = bs.
Proof. intros <-. apply be_encode_decode. Qed.

Lemma size_list_to_set_le `{Countable A} (l : list A) :
  (size (list_to_set l : gset A) ≤ length l)%nat.
Proof.
  induction l as [|x l IH]; [done|].
  rewrite list_to_set_cons. cbn [length]. destruct (decide (x ∈ (list_to_set l : gset A))).
  - rewrite (subseteq_union_1_L {[x]}) by set_solver. lia.
  - rewrite size_union by set_solver. rewrite size_singleton. lia.
Qed.

Lemma list_split_at {A} n (l : list A) (k : nat) :
  length l = (n + k)%nat → ∃ a b, l = a ++ b ∧ length a = n ∧ length b = k.
Proof.
  intros H. exists (take n l), (drop n l). split_and!; [by rewrite take_drop| |].
  - rewrite length_take. lia.
  - rewrite length_drop. lia.
Qed.

Lemma filter_none {A} (P : A → Prop) `{∀ x, Decision (P x)} (l : list A) :
  Forall (λ x, ¬ P x) l → filter P l = [].
Proof. induction 1; [done|]. by rewrite filter_cons, decide_False. Qed.

Lemma filter_all {A} (P : A → Prop) `{∀ x, Decision (P x)} (l : list A) : Forall P l → filter P l = l.
Proof. induction 1 as [|x l Hx Hl IH]; [done|]. rewrite filter_cons, decide_True by done. by rewrite IH. Qed.

Lemma NoDup_omap_strong {A B} (f : A → option B) (l : list A) :
  (∀ x y z, x ∈ l → y ∈ l → f x = Some z → f y = Some z → x = y) → NoDup l → NoDup (omap f l).
Proof.
  intros Hf. induction 1 as [|x l Hx Hl IH]; cbn; [constructor|].
  assert (NoDup (omap f l)) as Hrest by (apply IH; intros a b z Ha Hb; apply Hf; by right).
  destruct (f x) as [z|] eqn:Hz; [|done]. constructor; [|done].
  intros (y & Hy & Hfy)%list_elem_of_omap. apply Hx. by rewrite (Hf x y z) by (first [left|by right|done]).
Qed.

Lemma filter_unique {A} (P : A → Prop) `{∀ x, Decision (P x)} (l : list A) x :
  NoDup l → x ∈ l → P x → (∀ y, y ∈ l → P y → y = x) → filter P l = [x].
Proof.
  induction 1 as [|y l Hy Hnd IH]; intros Hin Hx Hu; [by apply elem_of_nil in Hin|].
  rewrite filter_cons. apply elem_of_cons in Hin as [<-|Hin].
  - rewrite decide_True by done. f_equal. apply filter_none, Forall_forall.
    intros z Hz Hp. assert (z = x) as -> by (apply Hu; [by right|done]). done.
  - rewrite decide_False.
    + apply IH; try done. intros z Hz. apply Hu. by right.
    + intros Hp. assert (y = x) as -> by (apply Hu; [by left|done]). done.
Qed.

Lemma filter_ext_in {A} (P Q : A → Prop) `{∀ x, Decision (P x), ∀ x, Decision (Q x)} (l : list A) :
  (∀ x, x ∈ l → (P x ↔ Q x)) → filter P l = filter Q l.
Proof.
  induction l as [|x l IH]; intros Hl; [done|]. rewrite !filter_cons.
  rewrite IH by (intros y Hy; apply Hl; by right).
  assert (P x ↔ Q x) as Hx by (apply Hl; left). repeat case_decide; naive_solver.
Qed.

Lemma forallb_spec {A} (f : A → bool) l : forallb f l = true ↔ ∀ x, x ∈ l → f x = true.
Proof. rewrite forallb_forall. setoid_rewrite list_elem_of_In. done. Qed.
