(* ===== verification/Digest.v ===== *)
(** * Digests and text encodings of the Python standard library

    [hashlib.sha256], [hmac.new(..., sha256)], [bytes.hex]/[bytes.fromhex] and
    [base64.b64encode]/[b64decode(validate=True)] on the inputs the audit chain
    gives them. *)

From S2P Require Import Prelude.

(** ** SHA-256 (FIPS 180-4) *)

Definition w32 (x : Z) : Z := Z.land x 0xffffffff.
Definition rotr (n x : Z) : Z := Z.lor (Z.shiftr x n) (w32 (Z.shiftl x (32 - n))).

(** The constants are fractional bits of roots of the first primes. *)
Definition is_prime (p : Z) : bool :=
  forallb (λ d, negb (p mod d =? 0)) (seqZ 2 (p - 2)).
Definition first_primes (n : nat) : list Z := take n (filter (λ p, is_prime p = true) (seqZ 2 311)).
(** The largest [x] below [2 ^ bits] with [x ^ 3 <= n]. *)
Fixpoint cube_root (bits : nat) (n acc : Z) : Z :=
  match bits with
  | O => acc
  | S bits =>
    let x := acc + 2 ^ Z.of_nat bits in cube_root bits n (if x ^ 3 <=? n then x else acc)
  end.
Definition sha_k : list Z :=
  Eval vm_compute in map (λ p, w32 (cube_root 36 (p * 2 ^ 96) 0)) (first_primes 64).

Record sha_state := mkSha { sa : Z; sb : Z; sc : Z; sd : Z; se : Z; sf : Z; sg : Z; sh : Z }.
Definition sha_init : sha_state :=
  Eval vm_compute in
  let h i := w32 (Z.sqrt (nth i (first_primes 8) 0 * 2 ^ 64)) in
  mkSha (h 0%nat) (h 1%nat) (h 2%nat) (h 3%nat) (h 4%nat) (h 5%nat) (h 6%nat) (h 7%nat).

(** The message schedule, latest word first. *)
Fixpoint sha_extend (n : nat) (ws : list Z) : list Z :=
  match n with
  | O => ws
  | S n =>
    let w i := nth i ws 0 in
    let s0 := Z.lxor (Z.lxor (rotr 7 (w 14%nat)) (rotr 18 (w 14%nat))) (Z.shiftr (w 14%nat) 3) in
    let s1 := Z.lxor (Z.lxor (rotr 17 (w 1%nat)) (rotr 19 (w 1%nat))) (Z.shiftr (w 1%nat) 10) in
    sha_extend n (w32 (w 15%nat + s0 + w 6%nat + s1) :: ws)
  end.

Definition sha_round (s : sha_state) (kw : Z * Z) : sha_state :=
  let '(k, w) := kw in
  let s1 := Z.lxor (Z.lxor (rotr 6 (se s)) (rotr 11 (se s))) (rotr 25 (se s)) in
  let ch := Z.lxor (Z.land (se s) (sf s)) (Z.land (Z.lxor (se s) 0xffffffff) (sg s)) in
  let temp1 := sh s + s1 + ch + k + w in
  let s0 := Z.lxor (Z.lxor (rotr 2 (sa s)) (rotr 13 (sa s))) (rotr 22 (sa s)) in
  let maj := Z.lxor (Z.lxor (Z.land (sa s) (sb s)) (Z.land (sa s) (sc s))) (Z.land (sb s) (sc s)) in
  mkSha (w32 (temp1 + s0 + maj)) (sa s) (sb s) (sc s) (w32 (sd s + temp1)) (se s) (sf s) (sg s).

Fixpoint words (bs : list byte) : list Z :=
  match bs with
  | a :: b :: c :: d :: rest => be_decode [a; b; c; d] :: words rest
  | _ => []
  end.

Definition sha_block (s : sha_state) (block : list byte) : sha_state :=
  let ws := rev (sha_extend 48 (rev (words block))) in
  let t := fold_left sha_round (zip sha_k ws) s in
  mkSha (w32 (sa s + sa t)) (w32 (sb s + sb t)) (w32 (sc s + sc t)) (w32 (sd s + sd t))
        (w32 (se s + se t)) (w32 (sf s + sf t)) (w32 (sg s + sg t)) (w32 (sh s + sh t)).

Definition sha_pad (bs : list byte) : list byte :=
  bs ++ x80 :: replicate (Z.to_nat ((55 - len bs) mod 64)) x00 ++ be_encode 8 (8 * len bs).

Fixpoint sha_blocks (fuel : nat) (s : sha_state) (bs : list byte) : sha_state :=
  match fuel, bs with
  | O, _ | _, [] => s
  | S fuel, _ => sha_blocks fuel (sha_block s (take 64 bs)) (drop 64 bs)
  end.

Definition sha_digest (s : sha_state) : list byte :=
  be_encode 4 (sa s) ++ be_encode 4 (sb s) ++ be_encode 4 (sc s) ++ be_encode 4 (sd s) ++
  be_encode 4 (se s) ++ be_encode 4 (sf s) ++ be_encode 4 (sg s) ++ be_encode 4 (sh s).

Definition sha256 (bs : list byte) : list byte :=
  let padded := sha_pad bs in
  sha_digest (sha_blocks (length padded) sha_init padded).

Lemma length_sha256 bs : length (sha256 bs) = 32%nat.
Proof. unfold sha256, sha_digest. rewrite !length_app, !length_be_encode. done. Qed.

(** ** HMAC (RFC 2104) *)

Definition xor_byte (k : Z) (b : byte) : byte := byte_of_Z (Z.lxor (Z_of_byte b) k).

Definition hmac_sha256 (key message : list byte) : list byte :=
  let short := if 64 <? len key then sha256 key else key in
  let block := short ++ replicate (64 - length short) x00 in
  sha256 (map (xor_byte 0x5c) block ++ sha256 (map (xor_byte 0x36) block ++ message)).

Lemma length_hmac_sha256 key message : length (hmac_sha256 key message) = 32%nat.
Proof. apply length_sha256. Qed.

(** ** Hexadecimal *)

Definition hex_digit (z : Z) : byte := byte_of_Z (if z <? 10 then 48 + z else 87 + z).
Definition hex_value (b : byte) : option Z :=
  let z := Z_of_byte b in
  if between 48 z 57 then Some (z - 48) else if between 97 z 102 then Some (z - 87) else None.

Definition hex (bs : list byte) : list byte :=
  flat_map (λ b, [hex_digit (Z_of_byte b / 16); hex_digit (Z_of_byte b mod 16)]) bs.

(** [bytes.fromhex] on lowercase digits. *)
Fixpoint fromhex (text : list byte) : option (list byte) :=
  match text with
  | [] => Some []
  | a :: b :: rest =>
    x ← hex_value a; y ← hex_value b; bs ← fromhex rest; Some (byte_of_Z (16 * x + y) :: bs)
  | [_] => None
  end.

Lemma hex_value_digit z : 0 ≤ z < 16 → hex_value (hex_digit z) = Some z.
Proof.
  intros Hz. unfold hex_value, hex_digit. rewrite Z_of_byte_of_Z.
  destruct (z <? 10) eqn:Hs; bool_props; rewrite Z.mod_small by lia.
  - rewrite (proj2 (between_spec 48 _ 57)) by lia. f_equal. lia.
  - rewrite (proj2 (between_false 48 _ 57)) by lia. rewrite (proj2 (between_spec 97 _ 102)) by lia.
    f_equal. lia.
Qed.

Lemma fromhex_hex bs : fromhex (hex bs) = Some bs.
Proof.
  induction bs as [|b bs IH]; [done|]. cbn [hex flat_map app fromhex].
  pose proof (Z_of_byte_range b). pose proof (Z.div_mod (Z_of_byte b) 16).
  pose proof (Z.mod_pos_bound (Z_of_byte b) 16).
  assert (0 ≤ Z_of_byte b / 16 < 16).
  { split; [apply Z.div_pos; lia|apply Z.div_lt_upper_bound; lia]. }
  rewrite !hex_value_digit by lia. simpl. fold (hex bs). rewrite IH. simpl. do 2 f_equal.
  rewrite <- byte_of_Z_of_byte. f_equal. lia.
Qed.

Lemma length_hex bs : length (hex bs) = (2 * length bs)%nat.
Proof. induction bs as [|b bs IH]; [done|]. cbn [hex flat_map app length]. fold (hex bs). lia. Qed.

Lemma hex_chars bs : forallb (λ b, bool_decide (is_Some (hex_value b))) (hex bs) = true.
Proof.
  apply forallb_spec. intros x Hx. unfold hex in Hx. apply list_elem_of_In, in_flat_map in Hx as (b & _ & Hx).
  pose proof (Z_of_byte_range b). pose proof (Z.mod_pos_bound (Z_of_byte b) 16).
  assert (0 ≤ Z_of_byte b / 16 < 16).
  { split; [apply Z.div_pos; lia|apply Z.div_lt_upper_bound; lia]. }
  apply bool_decide_eq_true. destruct Hx as [<-|[<-|[]]]; rewrite hex_value_digit by lia; eauto.
Qed.

(** ** Base64 *)

Definition b64_char (z : Z) : byte :=
  byte_of_Z (if z <? 26 then 65 + z else if z <? 52 then 71 + z else if z <? 62 then z - 4
             else if z =? 62 then 43 else 47).
Definition b64_value (b : byte) : option Z :=
  let z := Z_of_byte b in
  if between 65 z 90 then Some (z - 65) else if between 97 z 122 then Some (z - 71)
  else if between 48 z 57 then Some (z + 4) else if z =? 43 then Some 62
  else if z =? 47 then Some 63 else None.

Definition pad : byte := x3d.

Fixpoint b64encode (bs : list byte) : list byte :=
  match bs with
  | a :: b :: c :: rest =>
    let n := Z_of_byte a * 65536 + Z_of_byte b * 256 + Z_of_byte c in
    b64_char (n / 262144) :: b64_char (n / 4096 mod 64) :: b64_char (n / 64 mod 64) ::
    b64_char (n mod 64) :: b64encode rest
  | [a; b] =>
    let n := Z_of_byte a * 1024 + Z_of_byte b * 4 in
    [b64_char (n / 4096); b64_char (n / 64 mod 64); b64_char (n mod 64); pad]
  | [a] =>
    let n := Z_of_byte a * 16 in [b64_char (n / 64); b64_char (n mod 64); pad; pad]
  | [] => []
  end.

(** [b64decode(validate=True)] of text in groups of four; a text that only a laxer
    reading accepts does not encode back to itself. *)
Fixpoint b64decode (text : list byte) : option (list byte) :=
  match text with
  | [] => Some []
  | [p; q; r; s] =>
    if bool_decide (s = pad) then
      x ← b64_value p; y ← b64_value q;
      if bool_decide (r = pad) then Some [byte_of_Z ((x * 64 + y) / 16)]
      else z ← b64_value r;
           let n := (x * 4096 + y * 64 + z) / 4 in Some [byte_of_Z (n / 256); byte_of_Z n]
    else
      x ← b64_value p; y ← b64_value q; z ← b64_value r; w ← b64_value s;
      let n := x * 262144 + y * 4096 + z * 64 + w in
      Some [byte_of_Z (n / 65536); byte_of_Z (n / 256); byte_of_Z n]
  | p :: q :: r :: s :: rest =>
    x ← b64_value p; y ← b64_value q; z ← b64_value r; w ← b64_value s;
    bs ← b64decode rest;
    let n := x * 262144 + y * 4096 + z * 64 + w in
    Some (byte_of_Z (n / 65536) :: byte_of_Z (n / 256) :: byte_of_Z n :: bs)
  | _ => None
  end.

Lemma b64_char_spec z : 0 ≤ z < 64 → b64_value (b64_char z) = Some z ∧ b64_char z ≠ pad.
Proof.
  intros Hz. assert (z ∈ seqZ 0 64) as Hin by (apply elem_of_seqZ; lia).
  assert (Forall (λ z, b64_value (b64_char z) = Some z ∧ b64_char z ≠ pad) (seqZ 0 64)) as Hall.
  { apply (bool_decide_unpack _). vm_compute. done. }
  rewrite Forall_forall in Hall. by apply Hall.
Qed.

Lemma b64_value_char z : 0 ≤ z < 64 → b64_value (b64_char z) = Some z.
Proof. apply b64_char_spec. Qed.
Lemma b64_char_pad z : 0 ≤ z < 64 → b64_char z ≠ pad.
Proof. apply b64_char_spec. Qed.

(** Digits base 64 of a group, and the bytes back. *)
Lemma group_digits a b c :
  let n := Z_of_byte a * 65536 + Z_of_byte b * 256 + Z_of_byte c in
  0 ≤ n / 262144 < 64 ∧ 0 ≤ n / 4096 mod 64 < 64 ∧ 0 ≤ n / 64 mod 64 < 64 ∧ 0 ≤ n mod 64 < 64 ∧
  n / 262144 * 262144 + (n / 4096 mod 64) * 4096 + (n / 64 mod 64) * 64 + n mod 64 = n ∧
  byte_of_Z (n / 65536) = a ∧ byte_of_Z (n / 256) = b ∧ byte_of_Z n = c.
Proof.
  pose proof (Z_of_byte_range a). pose proof (Z_of_byte_range b). pose proof (Z_of_byte_range c).
  cbn zeta. set (n := _ + _ + _). assert (0 ≤ n < 16777216) by lia.
  split_and!; try (apply Z.mod_pos_bound; lia); try (Z.div_mod_to_equations; lia).
  - rewrite <- (byte_of_Z_of_byte a). f_equal. subst n. Z.div_mod_to_equations; lia.
  - assert (n / 256 = Z_of_byte a * 256 + Z_of_byte b) as ->
      by (subst n; Z.div_mod_to_equations; lia).
    by rewrite byte_of_Z_carry, byte_of_Z_of_byte.
  - assert (n = (Z_of_byte a * 256 + Z_of_byte b) * 256 + Z_of_byte c) as -> by lia.
    by rewrite byte_of_Z_carry, byte_of_Z_of_byte.
Qed.

Lemma b64decode_group p q r s rest x y z w :
  b64_value p = Some x → b64_value q = Some y → b64_value r = Some z → b64_value s = Some w →
  s ≠ pad →
  b64decode (p :: q :: r :: s :: rest) =
    (bs ← b64decode rest;
     let n := x * 262144 + y * 4096 + z * 64 + w in
     Some (byte_of_Z (n / 65536) :: byte_of_Z (n / 256) :: byte_of_Z n :: bs)).
Proof.
  intros Hp Hq Hr Hs Hne. destruct rest as [|t rest]; cbn [b64decode].
  - rewrite bool_decide_eq_false_2 by done. by rewrite Hp, Hq, Hr, Hs.
  - by rewrite Hp, Hq, Hr, Hs.
Qed.

Lemma b64decode_pair a b : b64decode (b64encode [a; b]) = Some [a; b].
Proof.
  pose proof (Z_of_byte_range a). pose proof (Z_of_byte_range b). cbn [b64encode].
  set (n := Z_of_byte a * 1024 + Z_of_byte b * 4). assert (0 ≤ n < 262144) by lia.
  assert (0 ≤ n / 4096 < 64 ∧ 0 ≤ n / 64 mod 64 < 64 ∧ 0 ≤ n mod 64 < 64 ∧
    n / 4096 * 4096 + (n / 64 mod 64) * 64 + n mod 64 = n) as (Hd1 & Hd2 & Hd3 & Hn).
  { split_and!; try (apply Z.mod_pos_bound; lia); Z.div_mod_to_equations; lia. }
  cbn [b64decode]. rewrite bool_decide_eq_true_2 by done.
  rewrite !b64_value_char by done. cbn.
  rewrite bool_decide_eq_false_2 by (by apply b64_char_pad). cbn. rewrite Hn.
  assert (n / 4 = Z_of_byte a * 256 + Z_of_byte b) as -> by (subst n; Z.div_mod_to_equations; lia).
  rewrite byte_of_Z_carry, byte_of_Z_of_byte.
  rewrite Z.div_add_l, (Z.div_small (Z_of_byte b)), Z.add_0_r by lia. by rewrite byte_of_Z_of_byte.
Qed.

Lemma b64decode_one a : b64decode (b64encode [a]) = Some [a].
Proof.
  pose proof (Z_of_byte_range a). cbn [b64encode]. set (n := Z_of_byte a * 16).
  assert (0 ≤ n / 64 < 64 ∧ 0 ≤ n mod 64 < 64 ∧ n / 64 * 64 + n mod 64 = n) as (Hd1 & Hd2 & Hn).
  { split_and!; try (apply Z.mod_pos_bound; lia); subst n; Z.div_mod_to_equations; lia. }
  cbn [b64decode]. rewrite bool_decide_eq_true_2 by done.
  rewrite !b64_value_char by done. cbn. rewrite Hn. subst n. rewrite Z.div_mul by done. by rewrite byte_of_Z_of_byte.
Qed.

Lemma b64decode_encode bs : b64decode (b64encode bs) = Some bs.
Proof.
  remember (length bs) as k eqn:Hk. revert bs Hk.
  induction k as [k IH] using lt_wf_ind. intros [|a [|b [|c rest]]] ->.
  - done.
  - apply b64decode_one.
  - apply b64decode_pair.
  - destruct (group_digits a b c) as (H1 & H2 & H3 & H4 & Hn & Ha & Hb & Hc).
    cbn [b64encode]. cbn zeta. erewrite b64decode_group by (by apply b64_value_char || by apply b64_char_pad).
    rewrite (IH (length rest)) by (cbn [length]; lia || done). cbn [mbind option_bind].
    cbn zeta. rewrite Hn, Ha, Hb, Hc. done.
Qed.

(** Published test vectors. *)
Definition ascii_bytes (s : string) : list byte :=
  map (λ c, byte_of_Z (Z.of_nat (Ascii.nat_of_ascii c))) (String.list_ascii_of_string s).

Example sha256_abc :
  hex (sha256 (ascii_bytes "abc"))
  = ascii_bytes "ba7816bf8f01cfea414140de5dae2223b00361a396177a9cb410ff61f20015ad".
Proof. vm_compute. reflexivity. Qed.

Example sha256_two_blocks :
  hex (sha256 (ascii_bytes "abcdbcdecdefdefgefghfghighijhijkijkljklmklmnlmnomnopnopq"))
  = ascii_bytes "248d6a61d20638b8e5c026930c3e6039a33ce45964ff2167f6ecedd419db06c1".
Proof. vm_compute. reflexivity. Qed.

Example hmac_sha256_rfc4231 :
  hex (hmac_sha256 (ascii_bytes "Jefe") (ascii_bytes "what do ya want for nothing?"))
  = ascii_bytes "5bdcc146bf60754e6a042426089575c75a003f089d2739839dec58b964ec3843".
Proof. vm_compute. reflexivity. Qed.
