(* ===== verification/ContractBase.v ===== *)
(** * Contract JSON ingress: [packages/contracts/.../base.py]

    The bounded parser every contract message passes before its schema is
    applied: strict UTF-8 decoding, the single-pass shape guard
    [_require_bounded_json_shape], [json.loads] with the hooks of the module
    (duplicate keys, safe integers, bounded decimals, no constants), the limits
    and the exception translation of [parse_bounded_json_value], and
    [parse_contract_json] with its canonical-bytes comparison.  The schema
    validation (pydantic) and the canonical printer (rfc8785) are the operations
    of the class [ContractCodec]. *)

From S2P Require Import Prelude.

(** A Python [str]: its code points. *)
Abbreviation pystr := (list Z).

(** ** [bytes.decode("utf-8", errors="strict")] *)

Definition is_cont (b : byte) : bool := between 0x80 (Z_of_byte b) 0xBF.
Definition cont_bits (b : byte) : Z := Z.land (Z_of_byte b) 0x3F.

Fixpoint utf8_decode (bs : list byte) : option pystr :=
  match bs with
  | [] => Some []
  | b0 :: r0 =>
    let c0 := Z_of_byte b0 in
    if c0 <? 0x80 then cons c0 <$> utf8_decode r0
    else if between 0xC2 c0 0xDF then
      match r0 with
      | b1 :: r1 =>
        if is_cont b1 then
          cons (Z.lor (Z.shiftl (Z.land c0 0x1F) 6) (cont_bits b1)) <$> utf8_decode r1
        else None
      | _ => None
      end
    else if between 0xE0 c0 0xEF then
      match r0 with
      | b1 :: b2 :: r2 =>
        let cp := Z.lor (Z.shiftl (Z.land c0 0x0F) 12)
                        (Z.lor (Z.shiftl (cont_bits b1) 6) (cont_bits b2)) in
        if is_cont b1 && is_cont b2 && (0x800 <=? cp) && negb (between 0xD800 cp 0xDFFF)
        then cons cp <$> utf8_decode r2 else None
      | _ => None
      end
    else if between 0xF0 c0 0xF4 then
      match r0 with
      | b1 :: b2 :: b3 :: r3 =>
        let cp := Z.lor (Z.shiftl (Z.land c0 0x07) 18)
                        (Z.lor (Z.shiftl (cont_bits b1) 12)
                               (Z.lor (Z.shiftl (cont_bits b2) 6) (cont_bits b3))) in
        if is_cont b1 && is_cont b2 && is_cont b3 && between 0x10000 cp 0x10FFFF
        then cons cp <$> utf8_decode r3 else None
      | _ => None
      end
    else None
  end.

(** ** Values *)

(** [decimal.Decimal]: sign, coefficient digits without leading zeros (at least
    one digit) and exponent, as [as_tuple()] returns them. *)
Record Decimal := mkDecimal {
  dec_sign : bool;
  dec_digits : list Z;
  dec_exponent : Z;
}.

Inductive JSONValue :=
| JNull
| JBool (b : bool)
| JInt (n : Z)
| JDecimal (d : Decimal)
| JStr (s : pystr)
| JList (l : list JSONValue)
| JObject (kvs : list (pystr * JSONValue)).

Definition JCS_MAX_SAFE_INTEGER : Z := 2 ^ 53 - 1.
Definition JCS_MIN_SAFE_INTEGER : Z := - JCS_MAX_SAFE_INTEGER.

Definition _is_jcs_safe_integer (value : Z) : bool :=
  between JCS_MIN_SAFE_INTEGER value JCS_MAX_SAFE_INTEGER.

(** ** The hooks given to [json.loads] *)

Definition digits_value (ds : list Z) : Z := fold_left (λ acc d, acc * 10 + d) ds 0.

(** A number token as [json.scanner] matches it: sign, integer digits, and the
    fraction and exponent parts when they are there. *)
Record NumberToken := mkNumberToken {
  nt_minus : bool;
  nt_int : list Z;
  nt_frac : option (list Z);
  nt_exp : option (option bool * list Z);   (* sign character, digits *)
}.

Definition nt_len (t : NumberToken) : Z :=
  (if nt_minus t then 1 else 0) + len (nt_int t)
  + match nt_frac t with None => 0 | Some ds => 1 + len ds end
  + match nt_exp t with
    | None => 0
    | Some (sgn, ds) => 1 + (match sgn with Some _ => 1 | None => 0 end) + len ds
    end.

Definition _bounded_json_int (t : NumberToken) : result exn Z :=
  _ ← reject_if (16 <? len (nt_int t))
        (HostileJSONError "JSON integer outside JCS safe domain");
  let parsed := (if nt_minus t then -1 else 1) * digits_value (nt_int t) in
  _ ← reject_if (negb (_is_jcs_safe_integer parsed))
        (HostileJSONError "JSON integer outside JCS safe domain");
  Ok parsed.

Fixpoint strip_zeros (ds : list Z) : list Z :=
  match ds with
  | d :: r => if d =? 0 then strip_zeros r else ds
  | [] => []
  end.

Definition dec_adjusted (d : Decimal) : Z :=
  dec_exponent d + len (dec_digits d) - 1.

(** Limits of an exact [Decimal(str)] conversion (64-bit libmpdec). *)
Definition DEC_MAX_EMAX : Z := 999999999999999999.
Definition DEC_MIN_ETINY : Z := -1999999999999999997.

(** [Decimal(value)]: exact, or [InvalidOperation] outside the limits. *)
Definition decimal_of_token (t : NumberToken) : result exn Decimal :=
  let frac := default [] (nt_frac t) in
  let coefficient := strip_zeros (nt_int t ++ frac) in
  let exponent :=
    match nt_exp t with
    | None => 0
    | Some (sgn, ds) =>
      (if bool_decide (sgn = Some true) then -1 else 1) * digits_value ds
    end - len frac in
  let d := mkDecimal (nt_minus t)
             (match coefficient with [] => [0] | _ => coefficient end) exponent in
  _ ← reject_if ((DEC_MAX_EMAX <? dec_adjusted d) || (dec_exponent d <? DEC_MIN_ETINY))
        InvalidOperation;
  Ok d.

Definition _bounded_json_decimal (t : NumberToken) : result exn Decimal :=
  _ ← reject_if (64 <? nt_len t) (HostileJSONError "JSON decimal too large");
  d ← decimal_of_token t;
  _ ← reject_if ((64 <? len (dec_digits d)) || negb (between (-308) (dec_adjusted d) 308))
        (HostileJSONError "JSON decimal range exceeded");
  Ok d.

Definition _reject_json_constant {A} : result exn A :=
  Raise (HostileJSONError "non-finite JSON number").

(** [_unique_json_object]: the dict built pair by pair, in order. *)
Fixpoint unique_json_object (seen pairs : list (pystr * JSONValue)) :
    result exn (list (pystr * JSONValue)) :=
  match pairs with
  | [] => Ok seen
  | (key, value) :: rest =>
    if bool_decide (key ∈ seen.*1) then Raise (HostileJSONError "duplicate JSON key")
    else unique_json_object (seen ++ [(key, value)]) rest
  end.

Definition _unique_json_object (pairs : list (pystr * JSONValue)) :
    result exn (list (pystr * JSONValue)) := unique_json_object [] pairs.

(** ** [_require_bounded_json_shape] *)

Section Shape.
Context (max_depth max_containers max_structure_tokens : Z).

Fixpoint shape_loop (text : pystr) (depth containers structure_tokens : Z)
    (in_string escaped : bool) : result exn unit :=
  match text with
  | [] =>
    if in_string || negb (depth =? 0)
    then Raise (HostileJSONError "contract JSON shape invalid") else Ok tt
  | character :: rest =>
    if in_string then
      if escaped then shape_loop rest depth containers structure_tokens true false
      else if character =? 92 then shape_loop rest depth containers structure_tokens true true
      else if character =? 34 then shape_loop rest depth containers structure_tokens false false
      else shape_loop rest depth containers structure_tokens true false
    else if character =? 34 then shape_loop rest depth containers structure_tokens true escaped
    else if (character =? 91) || (character =? 123) then
      if (max_depth <? depth + 1) || (max_containers <? containers + 1)
      then Raise (HostileJSONError "contract JSON shape limit exceeded")
      else shape_loop rest (depth + 1) (containers + 1) structure_tokens false escaped
    else if (character =? 93) || (character =? 125) then
      if depth - 1 <? 0 then Raise (HostileJSONError "contract JSON shape invalid")
      else shape_loop rest (depth - 1) containers structure_tokens false escaped
    else if (character =? 44) || (character =? 58) then
      if max_structure_tokens <? structure_tokens + 1
      then Raise (HostileJSONError "contract JSON shape limit exceeded")
      else shape_loop rest depth containers (structure_tokens + 1) false escaped
    else shape_loop rest depth containers structure_tokens false escaped
  end.

Definition _require_bounded_json_shape (text : pystr) : result exn unit :=
  shape_loop text 0 0 1 false false.
End Shape.

(** ** [json.loads]: the standard library's scanner, driven by the hooks *)

Definition is_ws (c : Z) : bool := (c =? 32) || (c =? 9) || (c =? 10) || (c =? 13).

Fixpoint skip_ws (cs : pystr) : pystr :=
  match cs with
  | c :: r => if is_ws c then skip_ws r else cs
  | [] => []
  end.

Definition hex_digit (c : Z) : option Z :=
  if between 48 c 57 then Some (c - 48)
  else if between 97 c 102 then Some (c - 87)
  else if between 65 c 70 then Some (c - 55)
  else None.

Definition hex4 (a b c d : Z) : option Z :=
  x ← hex_digit a; y ← hex_digit b; z ← hex_digit c; w ← hex_digit d;
  Some (((x * 16 + y) * 16 + z) * 16 + w).

Definition simple_escape (c : Z) : option Z :=
  if c =? 34 then Some 34 else if c =? 92 then Some 92 else if c =? 47 then Some 47
  else if c =? 98 then Some 8 else if c =? 102 then Some 12 else if c =? 110 then Some 10
  else if c =? 114 then Some 13 else if c =? 116 then Some 9 else None.

Definition push (c : Z) (r : result exn (pystr * pystr)) : result exn (pystr * pystr) :=
  '(s, rest) ← r; Ok (c :: s, rest).

(** The string after its opening quote, and the text after its closing one. *)
Fixpoint scan_string (cs : pystr) : result exn (pystr * pystr) :=
  match cs with
  | [] => Raise JSONDecodeError
  | c :: r =>
    if c =? 34 then Ok ([], r)
    else if c =? 92 then
      match r with
      | [] => Raise JSONDecodeError
      | e :: r1 =>
        if e =? 117 then
          match r1 with
          | h1 :: h2 :: h3 :: h4 :: r5 =>
            match hex4 h1 h2 h3 h4 with
            | None => Raise JSONDecodeError
            | Some u =>
              if between 0xD800 u 0xDBFF then
                match r5 with
                | b :: x :: k1 :: k2 :: k3 :: k4 :: r11 =>
                  if (b =? 92) && (x =? 117) then
                    match hex4 k1 k2 k3 k4 with
                    | None => Raise JSONDecodeError
                    | Some v =>
                      if between 0xDC00 v 0xDFFF
                      then push (0x10000 + (u - 0xD800) * 0x400 + (v - 0xDC00))
                                (scan_string r11)
                      else push u (scan_string r5)
                    end
                  else push u (scan_string r5)
                | _ => push u (scan_string r5)
                end
              else push u (scan_string r5)
            end
          | _ => Raise JSONDecodeError
          end
        else match simple_escape e with
             | Some v => push v (scan_string r1)
             | None => Raise JSONDecodeError
             end
      end
    else if c <? 32 then Raise JSONDecodeError
    else push c (scan_string r)
  end.

Definition is_digit (c : Z) : bool := between 48 c 57.

(** The longest run of digits, as digit values, and what follows it. *)
Fixpoint take_digits (cs : pystr) : list Z * pystr :=
  match cs with
  | c :: r => if is_digit c then let '(ds, r') := take_digits r in (c - 48 :: ds, r') else ([], cs)
  | [] => ([], [])
  end.

Definition scan_int_part (cs : pystr) : option (list Z * pystr) :=
  match cs with
  | c :: r => if c =? 48 then Some ([0], r)
              else if is_digit c then Some (take_digits cs) else None
  | [] => None
  end.

Definition scan_frac_part (cs : pystr) : option (list Z) * pystr :=
  match cs with
  | c :: r => if c =? 46 then
                match take_digits r with
                | ([], _) => (None, cs)
                | (ds, r') => (Some ds, r')
                end
              else (None, cs)
  | [] => (None, [])
  end.

Definition scan_exp_part (cs : pystr) : option (option bool * list Z) * pystr :=
  match cs with
  | c :: r =>
    if (c =? 101) || (c =? 69) then
      let '(sgn, r1) := match r with
                        | s :: r' => if s =? 45 then (Some true, r')
                                     else if s =? 43 then (Some false, r') else (None, r)
                        | [] => (None, [])
                        end in
      match take_digits r1 with
      | ([], _) => (None, cs)
      | (ds, r') => (Some (sgn, ds), r')
      end
    else (None, cs)
  | [] => (None, [])
  end.

Definition scan_number (cs : pystr) : option (NumberToken * pystr) :=
  let '(minus, cs1) := match cs with
                       | c :: r => if c =? 45 then (true, r) else (false, cs)
                       | [] => (false, [])
                       end in
  '(ip, cs2) ← scan_int_part cs1;
  let '(fp, cs3) := scan_frac_part cs2 in
  let '(ep, cs4) := scan_exp_part cs3 in
  Some (mkNumberToken minus ip fp ep, cs4).

Definition number_value (t : NumberToken) : result exn JSONValue :=
  match nt_frac t, nt_exp t with
  | None, None => n ← _bounded_json_int t; Ok (JInt n)
  | _, _ => d ← _bounded_json_decimal t; Ok (JDecimal d)
  end.

(** The text after [c], when the text starts with [c]. *)
Definition expect (c : Z) (cs : pystr) : option pystr :=
  match cs with x :: r => if x =? c then Some r else None | [] => None end.

Fixpoint expect_all (lit cs : pystr) : option pystr :=
  match lit with [] => Some cs | c :: lit' => r ← expect c cs; expect_all lit' r end.

Definition lit_null : pystr := [110; 117; 108; 108].
Definition lit_true : pystr := [116; 114; 117; 101].
Definition lit_false : pystr := [102; 97; 108; 115; 101].
Definition lit_NaN : pystr := [78; 97; 78].
Definition lit_Infinity : pystr := [73; 110; 102; 105; 110; 105; 116; 121].

(** A value that opens no container. *)
Definition scan_scalar (cs : pystr) : result exn (JSONValue * pystr) :=
  match expect 34 cs with
  | Some r => '(s, rest) ← scan_string r; Ok (JStr s, rest)
  | None =>
  match expect_all lit_null cs with
  | Some rest => Ok (JNull, rest)
  | None =>
  match expect_all lit_true cs with
  | Some rest => Ok (JBool true, rest)
  | None =>
  match expect_all lit_false cs with
  | Some rest => Ok (JBool false, rest)
  | None =>
    if bool_decide (is_Some (expect_all lit_NaN cs) ∨ is_Some (expect_all lit_Infinity cs)
                    ∨ is_Some (expect_all (45 :: lit_Infinity) cs))
    then _reject_json_constant
    else match scan_number cs with
         | Some (t, rest) => v ← number_value t; Ok (v, rest)
         | None => Raise JSONDecodeError
         end
  end end end end.

(** Out of fuel is [None]; [scan_once_fuel] below shows it never happens. *)
Definition andthen {A B} (m : option (result exn A))
    (k : A → option (result exn B)) : option (result exn B) :=
  match m with
  | None => None
  | Some (Raise e) => Some (Raise e)
  | Some (Ok a) => k a
  end.

#[global] Arguments andthen : simpl never.

Fixpoint scan_once (fuel : nat) (cs : pystr) : option (result exn (JSONValue * pystr)) :=
  match fuel with
  | O => None
  | S f =>
    match expect 123 cs with
    | Some r =>
      match expect 125 (skip_ws r) with
      | Some rest => Some (kvs ← _unique_json_object []; Ok (JObject kvs, rest))
      | None =>
        andthen (scan_members f (skip_ws r)) (λ '(pairs, rest),
          Some (kvs ← _unique_json_object pairs; Ok (JObject kvs, rest)))
      end
    | None =>
      match expect 91 cs with
      | Some r =>
        match expect 93 (skip_ws r) with
        | Some rest => Some (Ok (JList [], rest))
        | None =>
          andthen (scan_elements f (skip_ws r)) (λ '(l, rest), Some (Ok (JList l, rest)))
        end
      | None => Some (scan_scalar cs)
      end
    end
  end
with scan_members (fuel : nat) (cs : pystr) :
    option (result exn (list (pystr * JSONValue) * pystr)) :=
  match fuel with
  | O => None
  | S f =>
    match expect 34 cs with
    | None => Some (Raise JSONDecodeError)
    | Some r =>
      andthen (Some (scan_string r)) (λ '(key, r1),
      match expect 58 (skip_ws r1) with
      | None => Some (Raise JSONDecodeError)
      | Some r2 =>
        andthen (scan_once f (skip_ws r2)) (λ '(value, r3),
        match expect 125 (skip_ws r3) with
        | Some rest => Some (Ok ([(key, value)], rest))
        | None =>
          match expect 44 (skip_ws r3) with
          | None => Some (Raise JSONDecodeError)
          | Some r4 =>
            andthen (scan_members f (skip_ws r4)) (λ '(pairs, rest),
              Some (Ok ((key, value) :: pairs, rest)))
          end
        end)
      end)
    end
  end
with scan_elements (fuel : nat) (cs : pystr) :
    option (result exn (list JSONValue * pystr)) :=
  match fuel with
  | O => None
  | S f =>
    andthen (scan_once f cs) (λ '(value, r1),
    match expect 93 (skip_ws r1) with
    | Some rest => Some (Ok ([value], rest))
    | None =>
      match expect 44 (skip_ws r1) with
      | None => Some (Raise JSONDecodeError)
      | Some r2 =>
        andthen (scan_elements f (skip_ws r2)) (λ '(l, rest), Some (Ok (value :: l, rest)))
      end
    end)
  end.

(** Every recursive call but the one from a container to its first member
    consumes a character, so twice the text is enough fuel. *)
Definition json_fuel (cs : pystr) : nat := 2 * length cs + 2.

Definition json_scan (text : pystr) : option (result exn JSONValue) :=
  match expect 0xFEFF text with
  | Some _ => Some (Raise JSONDecodeError)
  | None =>
    andthen (scan_once (json_fuel text) (skip_ws text)) (λ '(value, rest),
      match skip_ws rest with
      | [] => Some (Ok value)
      | _ => Some (Raise JSONDecodeError)
      end)
  end.

(** [json_scan_fuel] below: the second branch is never taken. *)
Definition json_loads (text : pystr) : result exn JSONValue :=
  match json_scan text with
  | Some r => r
  | None => Raise (RuntimeError "out of fuel")
  end.

(** ** [parse_bounded_json_value] and [parse_contract_json] *)

(** The exceptions the parser's [except] clause translates. *)
Definition translated (e : exn) : bool :=
  match e with
  | UnicodeDecodeError | JSONDecodeError | HostileJSONError _ => true
  | _ => false
  end.

Definition parse_bounded_json_value (raw : list byte)
    (max_bytes max_depth max_containers max_structure_tokens : Z) :
    result exn JSONValue :=
  if negb (between 1 max_bytes 8388608 && between 1 max_depth 32
           && between 1 max_containers 4096 && between 1 max_structure_tokens 16384)
  then Raise (ValueError "invalid contract JSON parser configuration")
  else if negb (between 1 (len raw) max_bytes)
  then Raise (ContractParseError "contract JSON size invalid")
  else
    let body :=
      match utf8_decode raw with
      | None => Raise UnicodeDecodeError
      | Some text =>
        _ ← _require_bounded_json_shape max_depth max_containers max_structure_tokens text;
        json_loads text
      end in
    match body with
    | Raise e =>
      Raise (if translated e
             then ContractParseError "contract JSON ingress rejected" else e)
    | Ok value => Ok value
    end.

(** The schema of one contract model: pydantic's strict validation of raw JSON
    ([ValidationError] stands for its rejection) and the JCS bytes of a model. *)
Class ContractCodec (T : Type) := {
  model_validate_json : list byte → result exn T;
  canonical_bytes : T → result exn (list byte);
}.

Definition parse_contract_json `{ContractCodec T} (raw : list byte) (max_bytes : Z)
    (require_canonical : bool) : result exn T :=
  _ ← parse_bounded_json_value raw max_bytes 32 4096 16384;
  model ← match model_validate_json raw with
          | Raise ValidationError =>
            Raise (ContractParseError "contract JSON schema rejected")
          | r => r
          end;
  if require_canonical then
    bytes ← canonical_bytes model;
    if bool_decide (bytes = raw) then Ok model
    else Raise (ContractParseError "contract JSON is not canonical JCS")
  else Ok model.

(** ** Successful scans as a relation *)

Inductive scans : pystr → JSONValue → pystr → Prop :=
| scans_scalar cs v rest :
    scan_scalar cs = Ok (v, rest) → scans cs v rest
| scans_object_nil cs r rest :
    expect 123 cs = Some r → expect 125 (skip_ws r) = Some rest →
    scans cs (JObject []) rest
| scans_object cs r pairs kvs rest :
    expect 123 cs = Some r → scans_pairs (skip_ws r) pairs rest →
    _unique_json_object pairs = Ok kvs → scans cs (JObject kvs) rest
| scans_list_nil cs r rest :
    expect 91 cs = Some r → expect 93 (skip_ws r) = Some rest →
    scans cs (JList []) rest
| scans_list cs r l rest :
    expect 91 cs = Some r → scans_items (skip_ws r) l rest →
    scans cs (JList l) rest
with scans_pairs : pystr → list (pystr * JSONValue) → pystr → Prop :=
| pairs_step cs r key r1 r2 value r3 pairs rest :
    expect 34 cs = Some r → scan_string r = Ok (key, r1) →
    expect 58 (skip_ws r1) = Some r2 → scans (skip_ws r2) value r3 →
    pairs_tail (skip_ws r3) pairs rest →
    scans_pairs cs ((key, value) :: pairs) rest
with pairs_tail : pystr → list (pystr * JSONValue) → pystr → Prop :=
| pairs_end cs rest : expect 125 cs = Some rest → pairs_tail cs [] rest
| pairs_more cs r pairs rest :
    expect 44 cs = Some r → scans_pairs (skip_ws r) pairs rest →
    pairs_tail cs pairs rest
with scans_items : pystr → list JSONValue → pystr → Prop :=
| items_step cs value r1 l rest :
    scans cs value r1 → items_tail (skip_ws r1) l rest →
    scans_items cs (value :: l) rest
with items_tail : pystr → list JSONValue → pystr → Prop :=
| items_end cs rest : expect 93 cs = Some rest → items_tail cs [] rest
| items_more cs r l rest :
    expect 44 cs = Some r → scans_items (skip_ws r) l rest → items_tail cs l rest.

Scheme scans_mind := Minimality for scans Sort Prop
with scans_pairs_mind := Minimality for scans_pairs Sort Prop
with pairs_tail_mind := Minimality for pairs_tail Sort Prop
with scans_items_mind := Minimality for scans_items Sort Prop
with items_tail_mind := Minimality for items_tail Sort Prop.
Combined Scheme scans_mutind from scans_mind, scans_pairs_mind, pairs_tail_mind,
  scans_items_mind, items_tail_mind.

Create HintDb json discriminated.
#[export] Hint Constructors scans scans_pairs pairs_tail scans_items items_tail : json.

(** Inversion of the two sequencing operators. *)
Lemma andthen_Ok {A B} (m : option (result exn A)) (k : A → option (result exn B)) b :
  andthen m k = Some (Ok b) → ∃ a, m = Some (Ok a) ∧ k a = Some (Ok b).
Proof. destruct m as [[a|e]|]; simpl; intros; naive_solver. Qed.

Lemma rbind_Raise {E A B} (m : result E A) (k : A → result E B) e :
  (m ≫= k) = Raise e → m = Raise e ∨ ∃ a, m = Ok a ∧ k a = Raise e.
Proof. destruct m; simpl; naive_solver. Qed.

Ltac scan_inv :=
  repeat match goal with
  | H : andthen _ _ = Some (Ok _) |- _ =>
    apply andthen_Ok in H as ([? ?] & ? & H); cbn beta iota in H
  | H : Some _ = Some _ |- _ => injection H as H
  | H : (_ ≫= _) = Ok _ |- _ => apply rbind_Ok in H as (? & ? & H); cbn beta iota in H
  | H : Ok _ = Ok _ |- _ => injection H as H
  | H : (_, _) = (_, _) |- _ => injection H as H
  | H : Raise _ = Ok _ |- _ => discriminate H
  | H : None = Some _ |- _ => discriminate H
  | H : context [match expect ?c ?cs with _ => _ end] |- _ => destruct (expect c cs) eqn:?
  end; subst.

Lemma scan_sound f :
  (∀ cs v rest, scan_once f cs = Some (Ok (v, rest)) → scans cs v rest) ∧
  (∀ cs l rest, scan_members f cs = Some (Ok (l, rest)) → scans_pairs cs l rest) ∧
  (∀ cs l rest, scan_elements f cs = Some (Ok (l, rest)) → scans_items cs l rest).
Proof.
  induction f as [|f (IHv & IHm & IHe)]; [split_and!; done|].
  split_and!; intros cs v rest H; simpl in H; scan_inv; eauto 10 with json.
Qed.

(** ** Every successful scan consumes text *)

Lemma expect_Some c cs r : expect c cs = Some r ↔ cs = c :: r.
Proof.
  destruct cs as [|x cs]; simpl; [naive_solver|].
  destruct (Z.eqb_spec x c); naive_solver.
Qed.

Lemma expect_all_Some lit cs r : expect_all lit cs = Some r ↔ cs = lit ++ r.
Proof.
  revert cs. induction lit as [|c lit IH]; intros cs; simpl; [split; congruence|].
  destruct (expect c cs) as [r'|] eqn:He; simpl.
  - apply expect_Some in He as ->. rewrite IH. naive_solver.
  - split; [done|]. intros ->. simpl in He. by rewrite Z.eqb_refl in He.
Qed.

Lemma length_skip_ws cs : (length (skip_ws cs) ≤ length cs)%nat.
Proof. induction cs as [|c cs IH]; simpl; [lia|]. destruct (is_ws c); simpl; lia. Qed.

(** The pieces a JSON string is made of. *)
Inductive string_chunk : pystr → Prop :=
| chunk_plain c : c ≠ 34 → c ≠ 92 → string_chunk [c]
| chunk_escape e : e ≠ 117 → is_Some (simple_escape e) → string_chunk [92; e]
| chunk_u a b c d : is_Some (hex4 a b c d) → string_chunk [92; 117; a; b; c; d]
| chunk_pair a b c d a' b' c' d' :
    is_Some (hex4 a b c d) → is_Some (hex4 a' b' c' d') →
    string_chunk [92; 117; a; b; c; d; 92; 117; a'; b'; c'; d'].

Lemma push_Ok c r s rest : push c r = Ok (s, rest) → ∃ s', r = Ok (s', rest).
Proof. unfold push. destruct r as [[??]|]; simpl; naive_solver. Qed.

Lemma scan_string_inv cs s rest :
  scan_string cs = Ok (s, rest) →
  cs = 34 :: rest ∨
  ∃ chunk r s', string_chunk chunk ∧ cs = chunk ++ r ∧ scan_string r = Ok (s', rest).
Proof.
  destruct cs as [|c r]; [done|]. cbn [scan_string].
  destruct (Z.eqb_spec c 34) as [->|Hq]; [naive_solver|].
  destruct (Z.eqb_spec c 92) as [->|Hb].
  2: { destruct (c <? 32); [done|]. intros [s' H]%push_Ok. right.
       exists [c], r, s'. split_and!; auto using chunk_plain. }
  destruct r as [|e r1]; [done|].
  destruct (Z.eqb_spec e 117) as [->|Hu].
  2: { destruct (simple_escape e) eqn:He; [|done]. intros [s' H]%push_Ok. right.
       exists [92; e], r1, s'. split_and!; auto using chunk_escape. }
  destruct r1 as [|h1 [|h2 [|h3 [|h4 r5]]]]; try done.
  destruct (hex4 h1 h2 h3 h4) as [u|] eqn:Hh; [|done].
  assert (string_chunk [92; 117; h1; h2; h3; h4]) by (constructor; eauto).
  assert (∀ s'', push u (scan_string r5) = Ok (s'', rest) →
    ∃ chunk r s', string_chunk chunk ∧
      92 :: 117 :: h1 :: h2 :: h3 :: h4 :: r5 = chunk ++ r ∧ scan_string r = Ok (s', rest))
    as Hone by (intros ? [s' ?]%push_Ok; by exists [92; 117; h1; h2; h3; h4], r5, s').
  destruct (between 0xD800 u 0xDBFF); [|eauto].
  destruct r5 as [|b [|x [|k1 [|k2 [|k3 [|k4 r11]]]]]]; eauto.
  destruct (Z.eqb_spec b 92) as [->|]; cbn [andb]; [|eauto].
  destruct (Z.eqb_spec x 117) as [->|]; cbn [andb]; [|eauto].
  destruct (hex4 k1 k2 k3 k4) as [v|] eqn:Hk; [|done].
  destruct (between 0xDC00 v 0xDFFF); [|eauto].
  intros [s' H']%push_Ok. right.
  exists [92; 117; h1; h2; h3; h4; 92; 117; k1; k2; k3; k4], r11, s'.
  split_and!; auto. by constructor; eexists.
Qed.

(** Induction on the chunks of a string. *)
Lemma scan_string_rect (P : pystr → pystr → Prop) :
  (∀ rest, P (34 :: rest) rest) →
  (∀ chunk r rest, string_chunk chunk → P r rest → P (chunk ++ r) rest) →
  ∀ cs s rest, scan_string cs = Ok (s, rest) → P cs rest.
Proof.
  intros Hend Hstep cs. induction cs as [cs IH] using (well_founded_induction
    (Wf_nat.well_founded_ltof _ length)). intros s rest H.
  apply scan_string_inv in H as [->|(chunk & r & s' & Hc & -> & Hr)]; [apply Hend|].
  apply Hstep; [done|]. eapply IH; [|done].
  unfold Wf_nat.ltof. rewrite length_app. destruct Hc; simpl; lia.
Qed.

Lemma length_scan_string cs s rest :
  scan_string cs = Ok (s, rest) → (length rest < length cs)%nat.
Proof.
  revert cs s rest. apply scan_string_rect; simpl; [lia|].
  intros chunk r rest Hc IH. rewrite length_app. lia.
Qed.

(** ** What the hooks guarantee of an accepted value *)

Definition decimal_ok (d : Decimal) : Prop :=
  len (dec_digits d) ≤ 64 ∧ -308 ≤ dec_adjusted d ≤ 308.

Inductive json_ok : JSONValue → Prop :=
| ok_null : json_ok JNull
| ok_bool b : json_ok (JBool b)
| ok_int n : JCS_MIN_SAFE_INTEGER ≤ n ≤ JCS_MAX_SAFE_INTEGER → json_ok (JInt n)
| ok_decimal d : decimal_ok d → json_ok (JDecimal d)
| ok_str s : json_ok (JStr s)
| ok_list l : Forall json_ok l → json_ok (JList l)
| ok_object kvs : NoDup kvs.*1 → Forall json_ok kvs.*2 → json_ok (JObject kvs).

#[export] Hint Constructors json_ok : json.

Lemma number_value_ok t v : number_value t = Ok v → json_ok v.
Proof.
  assert (∀ d, _bounded_json_decimal t = Ok d → json_ok (JDecimal d)) as Hd.
  { unfold _bounded_json_decimal. intros d H. scan_inv.
    match goal with H : reject_if (_ || _) _ = Ok _ |- _ => apply reject_if_Ok in H end.
    bool_props. rewrite between_spec in *. by constructor. }
  unfold number_value. intros H.
  destruct (nt_frac t), (nt_exp t); scan_inv; auto.
  unfold _bounded_json_int in *. scan_inv.
  match goal with H : reject_if (negb _) _ = Ok _ |- _ => apply reject_if_Ok in H end.
  bool_props. by apply ok_int, between_spec.
Qed.

Lemma unique_json_object_ok seen pairs kvs :
  unique_json_object seen pairs = Ok kvs → NoDup seen.*1 →
  NoDup kvs.*1 ∧ kvs = seen ++ pairs.
Proof.
  revert seen. induction pairs as [|[k v] pairs IH]; intros seen H Hn; simpl in H.
  - simplify_eq. by rewrite app_nil_r.
  - case_bool_decide as Hk; [done|]. apply IH in H as [? ->].
    + split; [done|]. by rewrite <- app_assoc.
    + rewrite fmap_app. apply NoDup_app. split_and!; [done| |apply NoDup_singleton].
      intros x Hx ->%list_elem_of_singleton. done.
Qed.

(** ** The text a scalar is made of *)

(** Characters [_require_bounded_json_shape] ignores outside strings. *)
Definition plain (c : Z) : Prop := c ∉ [34; 91; 93; 123; 125; 44; 58].

#[export] Instance plain_dec c : Decision (plain c).
Proof. apply _. Defined.

Lemma digit_plain c : is_digit c = true → plain c.
Proof. unfold is_digit. rewrite between_spec. intros H. unfold plain. set_solver by lia. Qed.

Lemma take_digits_plain cs ds r :
  take_digits cs = (ds, r) →
  ∃ p, cs = p ++ r ∧ Forall plain p ∧ length p = length ds.
Proof.
  revert ds r. induction cs as [|c cs IH]; simpl; intros ds r H.
  - simplify_eq. by exists [].
  - destruct (is_digit c) eqn:Hc; [|simplify_eq; by exists []].
    destruct (take_digits cs) as [ds' r'] eqn:Ht. simplify_eq.
    destruct (IH _ _ eq_refl) as (p & -> & Hp & Hl).
    exists (c :: p). simpl. split_and!; auto using digit_plain.
Qed.

Lemma scan_int_part_plain cs ip r :
  scan_int_part cs = Some (ip, r) → ∃ p, cs = p ++ r ∧ Forall plain p ∧ p ≠ [].
Proof.
  destruct cs as [|c cs]; [done|]. cbn [scan_int_part].
  destruct (Z.eqb_spec c 48) as [->|].
  - intros [= <- <-]. exists [48]. split_and!; [done| |done]. compute_done.
  - destruct (is_digit c) eqn:Hc; [|done]. intros H.
    assert (take_digits (c :: cs) = (ip, r)) as Ht by congruence. clear H.
    destruct (take_digits_plain _ _ _ Ht) as (p & Hcs & Hp & Hl).
    exists p. split_and!; [done..|]. intros ->. simpl in *. rewrite Hc in Ht.
    destruct (take_digits cs). by simplify_eq.
Qed.

Lemma scan_frac_part_plain cs fp r :
  scan_frac_part cs = (fp, r) → ∃ p, cs = p ++ r ∧ Forall plain p.
Proof.
  destruct cs as [|c cs]; simpl; [intros; simplify_eq; by exists []|].
  destruct (Z.eqb_spec c 46) as [->|]; [|intros; simplify_eq; by exists []].
  destruct (take_digits cs) as [[|d ds] r'] eqn:Ht; intros; simplify_eq; [by exists []|].
  apply take_digits_plain in Ht as (p & -> & Hp & _). exists (46 :: p).
  split; [done|]. constructor; [compute_done|done].
Qed.

Lemma scan_exp_part_plain cs ep r :
  scan_exp_part cs = (ep, r) → ∃ p, cs = p ++ r ∧ Forall plain p.
Proof.
  assert (∀ q : pystr, ∃ p, q = p ++ q ∧ Forall plain p) as Hnil by (intros; by exists []).
  destruct cs as [|c cs]; cbn [scan_exp_part]; [intros [= <- <-]; apply Hnil|].
  destruct ((c =? 101) || (c =? 69)) eqn:Hc; [|intros [= <- <-]; apply Hnil].
  assert (plain c) as Hpc.
  { apply orb_true_iff in Hc as [->%Z.eqb_eq| ->%Z.eqb_eq]; compute_done. }
  set (sr := match cs with [] => _ | s :: r' => _ end).
  assert (∃ p, cs = p ++ sr.2 ∧ Forall plain p) as (p & Hp & Hpp).
  { subst sr. destruct cs as [|s cs]; [by exists []|].
    destruct (Z.eqb_spec s 45) as [->|]; [exists [45]; split; [done|]; compute_done|].
    destruct (Z.eqb_spec s 43) as [->|]; [exists [43]; split; [done|]; compute_done|].
    by exists []. }
  destruct sr as [sgn r1]; simpl in Hp. subst cs.
  destruct (take_digits r1) as [[|d ds] r'] eqn:Ht; intros [= <- <-]; [apply Hnil|].
  apply take_digits_plain in Ht as (q & -> & Hq & _). exists (c :: p ++ q).
  split; [simpl; by rewrite <- app_assoc|]. constructor; [done|]. by apply Forall_app.
Qed.

Lemma scan_number_plain cs t r :
  scan_number cs = Some (t, r) → ∃ p, cs = p ++ r ∧ Forall plain p ∧ p ≠ [].
Proof.
  unfold scan_number. set (mc := match cs with [] => _ | c :: r' => _ end).
  assert (∃ p, cs = p ++ mc.2 ∧ Forall plain p) as (p0 & Hp0 & Hf0).
  { subst mc. destruct cs as [|c cs]; [by exists []|].
    destruct (Z.eqb_spec c 45) as [->|]; [exists [45]; split; [done|]; compute_done|].
    by exists []. }
  destruct mc as [minus cs1]; simpl in Hp0. subst cs.
  destruct (scan_int_part cs1) as [[ip cs2]|] eqn:Hi; [|done]. cbn.
  apply scan_int_part_plain in Hi as (p1 & -> & Hf1 & Hne).
  destruct (scan_frac_part cs2) as [fp cs3] eqn:Hf.
  apply scan_frac_part_plain in Hf as (p2 & -> & Hf2).
  destruct (scan_exp_part cs3) as [ep cs4] eqn:He.
  apply scan_exp_part_plain in He as (p3 & -> & Hf3).
  intros [= <- <-]. exists (p0 ++ p1 ++ p2 ++ p3). split_and!.
  - by rewrite <- !app_assoc.
  - by rewrite !Forall_app.
  - destruct p0; [|done]. by destruct p1.
Qed.

Lemma scan_scalar_inv cs v rest :
  scan_scalar cs = Ok (v, rest) →
  (∃ r s, cs = 34 :: r ∧ scan_string r = Ok (s, rest) ∧ v = JStr s) ∨
  (∃ p, cs = p ++ rest ∧ Forall plain p ∧ p ≠ []) ∧ json_ok v ∧ (∀ l, v ≠ JList l) ∧
    (∀ l, v ≠ JObject l).
Proof.
  unfold scan_scalar. destruct (expect 34 cs) as [r|] eqn:Hq.
  { apply expect_Some in Hq as ->. intros ([s r'] & Hs & [= <- <-])%rbind_Ok. left. eauto. }
  intros H; right; revert H.
  assert (∀ lit r, expect_all lit cs = Some r → Forall plain lit → lit ≠ [] →
    ∃ p, cs = p ++ r ∧ Forall plain p ∧ p ≠ []) as Hlit.
  { intros lit r ->%expect_all_Some ??. eauto. }
  destruct (expect_all lit_null cs) as [r|] eqn:Hl.
  { intros [= <- <-]. split_and!; [|by constructor|done..].
    apply (Hlit _ _ Hl); compute_done. }
  clear Hl. destruct (expect_all lit_true cs) as [r|] eqn:Hl.
  { intros [= <- <-]. split_and!; [|by constructor|done..].
    apply (Hlit _ _ Hl); compute_done. }
  clear Hl. destruct (expect_all lit_false cs) as [r|] eqn:Hl.
  { intros [= <- <-]. split_and!; [|by constructor|done..].
    apply (Hlit _ _ Hl); compute_done. }
  case_bool_decide; [done|].
  destruct (scan_number cs) as [[t r]|] eqn:Hn; [|done].
  intros (w & Hw & [= <- <-])%rbind_Ok. split_and!.
  - by eapply scan_number_plain.
  - by eapply number_value_ok.
  - intros l ->. unfold number_value in Hw.
    destruct (nt_frac t), (nt_exp t); by scan_inv.
  - intros l ->. unfold number_value in Hw.
    destruct (nt_frac t), (nt_exp t); by scan_inv.
Qed.

Lemma length_scans :
  (∀ cs v rest, scans cs v rest → (length rest < length cs)%nat) ∧
  (∀ cs l rest, scans_pairs cs l rest → (length rest < length cs)%nat) ∧
  (∀ cs l rest, pairs_tail cs l rest → (length rest < length cs)%nat) ∧
  (∀ cs l rest, scans_items cs l rest → (length rest < length cs)%nat) ∧
  (∀ cs l rest, items_tail cs l rest → (length rest < length cs)%nat).
Proof.
  apply scans_mutind; intros;
    repeat match goal with
    | H : expect _ _ = Some _ |- _ => apply expect_Some in H
    | H : scan_string _ = Ok _ |- _ => apply length_scan_string in H
    | H : scan_scalar _ = Ok _ |- _ =>
      apply scan_scalar_inv in H as
        [(? & ? & -> & H%length_scan_string & _)|[(p & -> & _ & Hp) _]]
    | H : context [skip_ws ?r] |- _ =>
      lazymatch goal with
      | _ : (length (skip_ws r) ≤ length r)%nat |- _ => fail
      | _ => pose proof (length_skip_ws r)
      end
    | H : skip_ws _ = _ :: _ |- _ => apply (f_equal length) in H; simpl in H
    end; subst; simpl in *; try lia.
  rewrite length_app. destruct p; [done|simpl; lia].
Qed.

(** ** Fuel: [json_scan] always answers *)

Lemma scan_fuel f :
  (∀ cs, (2 * length cs + 1 ≤ f)%nat → is_Some (scan_once f cs)) ∧
  (∀ cs, (2 * length cs + 2 ≤ f)%nat → is_Some (scan_members f cs)) ∧
  (∀ cs, (2 * length cs + 2 ≤ f)%nat → is_Some (scan_elements f cs)).
Proof.
  assert (∀ {A B} (m : option (result exn A)) (k : A → option (result exn B)),
    is_Some m → (∀ a, m = Some (Ok a) → is_Some (k a)) → is_Some (andthen m k)) as Hthen.
  { intros A B m k [[a|e] ->] Hk; unfold andthen; eauto. }
  assert (∀ r, (length (skip_ws r) ≤ length r)%nat) as Hws by apply length_skip_ws.
  assert (∀ c cs r, expect c cs = Some r → length cs = S (length r)) as Hex.
  { by intros c cs r ->%expect_Some. }
  destruct length_scans as (Hlv & Hlm & _ & Hle & _).
  induction f as [|f (IHv & IHm & IHe)]; [split_and!; intros; lia|].
  destruct (scan_sound f) as (Hsv & Hsm & Hse).
  split_and!; intros cs Hcs; simpl.
  - destruct (expect 123 cs) as [r|] eqn:Ho; [apply Hex in Ho; specialize (Hws r)|].
    { destruct (expect 125 _); [eauto|].
      apply Hthen; [apply IHm; lia|]. intros [? ?] _. eauto. }
    destruct (expect 91 cs) as [r|] eqn:Ha; [apply Hex in Ha; specialize (Hws r)|eauto].
    destruct (expect 93 _); [eauto|].
    apply Hthen; [apply IHe; lia|]. intros [? ?] _. eauto.
  - destruct (expect 34 cs) as [r|] eqn:Hq; [apply Hex in Hq|eauto].
    apply Hthen; [eauto|]. intros [key r1] [= Hs%length_scan_string].
    destruct (expect 58 (skip_ws r1)) as [r2|] eqn:Hc; [apply Hex in Hc|eauto].
    pose proof (Hws r1). pose proof (Hws r2).
    apply Hthen; [apply IHv; lia|]. intros [value r3] Hv%Hsv%Hlv.
    destruct (expect 125 _); [eauto|]. pose proof (Hws r3).
    destruct (expect 44 (skip_ws r3)) as [r4|] eqn:Hk; [apply Hex in Hk|eauto].
    pose proof (Hws r4). apply Hthen; [apply IHm; lia|]. intros [? ?] _. eauto.
  - apply Hthen; [apply IHv; lia|]. intros [value r1] Hv%Hsv%Hlv.
    destruct (expect 93 _); [eauto|]. pose proof (Hws r1).
    destruct (expect 44 (skip_ws r1)) as [r2|] eqn:Hk; [apply Hex in Hk|eauto].
    pose proof (Hws r2). apply Hthen; [apply IHe; lia|]. intros [? ?] _. eauto.
Qed.

(** The scanner's fuel is always enough. *)
Lemma json_scan_total text : is_Some (json_scan text).
Proof.
  unfold json_scan. destruct (expect 0xFEFF text); [eauto|].
  destruct (proj1 (scan_fuel (json_fuel text)) (skip_ws text)) as [r Hr].
  { unfold json_fuel. pose proof (length_skip_ws text). lia. }
  rewrite Hr. destruct r as [[v rest]|e]; unfold andthen; [|eauto].
  destruct (skip_ws rest); eauto.
Qed.

(** ** Accepted values are safe *)

Lemma scans_ok :
  (∀ cs v rest, scans cs v rest → json_ok v) ∧
  (∀ cs l rest, scans_pairs cs l rest → Forall json_ok l.*2) ∧
  (∀ cs l rest, pairs_tail cs l rest → Forall json_ok l.*2) ∧
  (∀ cs l rest, scans_items cs l rest → Forall json_ok l) ∧
  (∀ cs l rest, items_tail cs l rest → Forall json_ok l).
Proof.
  apply scans_mutind; intros; simpl; auto with json.
  - match goal with H : scan_scalar _ = _ |- _ => apply scan_scalar_inv in H end.
    destruct_or!; [naive_solver eauto with json|naive_solver].
  - repeat constructor.
  - unfold _unique_json_object in *.
    match goal with H : unique_json_object _ _ = _ |- _ =>
      apply unique_json_object_ok in H as [? ->]; [|apply NoDup_nil_2] end.
    by constructor.
Qed.

(** ** Nesting of accepted values *)

Fixpoint json_depth (v : JSONValue) : Z :=
  match v with
  | JList l => 1 + foldr Z.max 0 (map json_depth l)
  | JObject kvs => 1 + foldr Z.max 0 (map (λ kv, json_depth kv.2) kvs)
  | _ => 0
  end.

Fixpoint json_containers (v : JSONValue) : Z :=
  match v with
  | JList l => 1 + foldr Z.add 0 (map json_containers l)
  | JObject kvs => 1 + foldr Z.add 0 (map (λ kv, json_containers kv.2) kvs)
  | _ => 0
  end.

Section ShapeBounds.
Context (D C T : Z).

(** The shape guard, outside any string, accepts the rest of the text. *)
Definition shaped (cs : pystr) (d c t : Z) : Prop :=
  shape_loop D C T cs d c t false false = Ok tt.

Lemma shaped_plain p cs d c t : Forall plain p → shaped (p ++ cs) d c t → shaped cs d c t.
Proof.
  intros Hp. induction Hp as [|x p Hx _ IH]; [done|].
  unfold shaped in *. simpl. intros H. apply IH. revert H.
  unfold plain in Hx. rewrite !not_elem_of_cons in Hx.
  destruct Hx as (?&?&?&?&?&?&?&_).
  by repeat (rewrite (proj2 (Z.eqb_neq x _)) by done).
Qed.

Lemma ws_plain x : is_ws x = true → plain x.
Proof.
  unfold is_ws. rewrite !orb_true_iff, !Z.eqb_eq.
  intros [[[-> | ->]| ->]| ->]; compute_done.
Qed.

Lemma shaped_ws cs d c t : shaped cs d c t → shaped (skip_ws cs) d c t.
Proof.
  induction cs as [|x cs IH]; [done|]. simpl. destruct (is_ws x) eqn:Hx; [|done].
  intros H. apply IH. apply (shaped_plain [x]); [|done]. auto using ws_plain.
Qed.

Lemma hex4_not_special a b c d :
  is_Some (hex4 a b c d) → Forall (λ x, x ≠ 34 ∧ x ≠ 92) [a; b; c; d].
Proof.
  assert (∀ x, is_Some (hex_digit x) → x ≠ 34 ∧ x ≠ 92) as Hd.
  { unfold hex_digit, between. intros x [v Hx]. split; intros ->; by vm_compute in Hx. }
  unfold hex4. intros [v Hv].
  destruct (hex_digit a) eqn:Ha, (hex_digit b) eqn:Hb, (hex_digit c) eqn:Hc,
    (hex_digit d) eqn:He; try done.
  repeat constructor; (apply Hd; eauto).
Qed.

(** Inside a string the guard and the scanner stop at the same quote. *)
Lemma shaped_string d c t cs s rest :
  scan_string cs = Ok (s, rest) →
  shape_loop D C T cs d c t true false = Ok tt → shaped rest d c t.
Proof.
  revert cs s rest.
  assert (∀ l cs, Forall (λ x, x ≠ 34 ∧ x ≠ 92) l →
    shape_loop D C T (l ++ cs) d c t true false = shape_loop D C T cs d c t true false) as Hl.
  { intros l cs Hf. induction Hf as [|x l [Hx1 Hx2] _ IH]; [done|]. simpl.
    by rewrite (proj2 (Z.eqb_neq x 92)), (proj2 (Z.eqb_neq x 34)). }
  assert (∀ a b c' d' cs, is_Some (hex4 a b c' d') →
    shape_loop D C T (92 :: 117 :: a :: b :: c' :: d' :: cs) d c t true false
    = shape_loop D C T cs d c t true false) as Hu.
  { intros a b c' d' cs ?. apply (Hl [a; b; c'; d']). by apply hex4_not_special. }
  apply (scan_string_rect (λ cs rest,
    shape_loop D C T cs d c t true false = Ok tt → shaped rest d c t)); [done|].
  intros chunk r rest Hc IH. destruct Hc as [x ?? | e ?? | h1 h2 h3 h4 Hh | h1 h2 h3 h4 k1 k2 k3 k4 Hh Hk].
  - rewrite (Hl [x]); auto.
  - simpl. auto.
  - cbn [app]. by rewrite Hu.
  - cbn [app]. by rewrite !Hu.
Qed.

Lemma shaped_open x cs d c t :
  x = 123 ∨ x = 91 → shaped (x :: cs) d c t →
  shaped cs (d + 1) (c + 1) t ∧ d + 1 ≤ D ∧ c + 1 ≤ C.
Proof.
  unfold shaped. intros [-> | ->]; simpl;
    destruct (_ || _) eqn:Hb; try done; bool_props; auto.
Qed.

Lemma shaped_close x cs d c t :
  x = 125 ∨ x = 93 → shaped (x :: cs) d c t → shaped cs (d - 1) c t.
Proof. unfold shaped. intros [-> | ->]; simpl; by destruct (_ <? 0). Qed.

Lemma shaped_sep x cs d c t :
  x = 44 ∨ x = 58 → shaped (x :: cs) d c t → shaped cs d c (t + 1).
Proof. unfold shaped. intros [-> | ->]; simpl; by destruct (T <? _). Qed.

Lemma shaped_scalar cs v rest d c t :
  scan_scalar cs = Ok (v, rest) → shaped cs d c t →
  shaped rest d c t ∧ json_depth v = 0 ∧ json_containers v = 0.
Proof.
  intros [(r & s & -> & Hs & ->)|[(p & -> & Hp & _) (_ & Hl & Ho)]]%scan_scalar_inv Hsh.
  - split; [|done]. by eapply shaped_string.
  - split; [by eapply shaped_plain|]. destruct v; naive_solver.
Qed.

(** What a scanned value does to the guard: [n] containers more, none deeper
    than [m] below the current depth, [lvl] levels closed. *)
Definition within (rest : pystr) (lvl d c m n : Z) : Prop :=
  ∃ t', shaped rest (d - lvl) (c + n) t' ∧ d + m ≤ D ∧ c + n ≤ C.

Lemma within_end x rest d c t :
  x = 125 ∨ x = 93 → d ≤ D → c ≤ C → shaped (x :: rest) d c t → within rest 1 d c 0 0.
Proof. intros Hx ?? Hs%shaped_close; [|done]. exists t. by rewrite !Z.add_0_r. Qed.

Lemma within_container x r rest d c t m n :
  x = 123 ∨ x = 91 → shaped (x :: r) d c t →
  (shaped (skip_ws r) (d + 1) (c + 1) t → d + 1 ≤ D → c + 1 ≤ C →
   within rest 1 (d + 1) (c + 1) m n) →
  within rest 0 d c (1 + m) (1 + n).
Proof.
  intros Hx (Hr%shaped_ws & ? & ?)%shaped_open K; [|done].
  destruct (K Hr) as (t' & Ht & ? & ?); [done..|]. exists t'.
  replace (d - 0) with (d + 1 - 1) by lia. rewrite Z.add_assoc. split; [done|lia].
Qed.

Lemma within_cons r1 rest d c m n m' n' :
  within r1 0 d c m n →
  (∀ t', shaped (skip_ws r1) d (c + n) t' → c + n ≤ C → within rest 1 d (c + n) m' n') →
  within rest 1 d c (Z.max m m') (n + n').
Proof.
  intros (t' & Ht%shaped_ws & ? & ?) K. rewrite Z.sub_0_r in Ht.
  destruct (K _ Ht) as (t'' & ? & ? & ?); [done|].
  exists t''. rewrite Z.add_assoc. split; [done|lia].
Qed.

Lemma scans_shaped :
  (∀ cs v rest, scans cs v rest → ∀ d c t, d ≤ D → c ≤ C → shaped cs d c t →
     within rest 0 d c (json_depth v) (json_containers v)) ∧
  (∀ cs l rest, scans_pairs cs l rest → ∀ d c t, d ≤ D → c ≤ C → shaped cs d c t →
     within rest 1 d c (foldr Z.max 0 (map (λ kv, json_depth kv.2) l))
       (foldr Z.add 0 (map (λ kv, json_containers kv.2) l))) ∧
  (∀ cs l rest, pairs_tail cs l rest → ∀ d c t, d ≤ D → c ≤ C → shaped cs d c t →
     within rest 1 d c (foldr Z.max 0 (map (λ kv, json_depth kv.2) l))
       (foldr Z.add 0 (map (λ kv, json_containers kv.2) l))) ∧
  (∀ cs l rest, scans_items cs l rest → ∀ d c t, d ≤ D → c ≤ C → shaped cs d c t →
     within rest 1 d c (foldr Z.max 0 (map json_depth l))
       (foldr Z.add 0 (map json_containers l))) ∧
  (∀ cs l rest, items_tail cs l rest → ∀ d c t, d ≤ D → c ≤ C → shaped cs d c t →
     within rest 1 d c (foldr Z.max 0 (map json_depth l))
       (foldr Z.add 0 (map json_containers l))).
Proof.
  assert (∀ cs x r d c t, expect x (skip_ws cs) = Some r → shaped cs d c t →
    shaped (x :: r) d c t) as Hws.
  { intros cs x r d c t Hx%expect_Some Hs%shaped_ws. by rewrite Hx in Hs. }
  apply scans_mutind; simpl.
  - intros cs v rest Hs d c t ?? Hsh. destruct (shaped_scalar _ _ _ _ _ _ Hs Hsh) as (?&->&->).
    exists t. rewrite Z.sub_0_r, !Z.add_0_r. auto.
  - intros cs r rest ->%expect_Some Hc%expect_Some d c t ?? Hsh.
    eapply within_container; [by left|done|]. rewrite Hc. intros. eapply within_end; eauto.
  - intros cs r pairs kvs rest ->%expect_Some _ IH Hu d c t ?? Hsh.
    apply unique_json_object_ok in Hu as [_ ->]; [|apply NoDup_nil_2].
    eapply within_container; eauto.
  - intros cs r rest ->%expect_Some Hc%expect_Some d c t ?? Hsh.
    eapply within_container; [by right|done|]. rewrite Hc. intros. eapply within_end; eauto.
  - intros cs r l rest ->%expect_Some _ IH d c t ?? Hsh. eapply within_container; eauto.
  - intros cs r key r1 r2 value r3 pairs rest ->%expect_Some Hk Hc _ IHv _ IHt d c t ?? Hsh.
    apply (shaped_string _ _ _ _ _ _ Hk), (Hws _ _ _ _ _ _ Hc), shaped_sep in Hsh; [|auto].
    eapply within_cons; eauto using shaped_ws.
  - intros cs rest ->%expect_Some d c t ?? Hsh. eapply within_end; eauto.
  - intros cs r pairs rest ->%expect_Some _ IH d c t ?? Hsh%shaped_sep; [|auto].
    eauto using shaped_ws.
  - intros. eapply within_cons; eauto.
  - intros cs rest ->%expect_Some d c t ?? Hsh. eapply within_end; eauto.
  - intros cs r l rest ->%expect_Some _ IH d c t ?? Hsh%shaped_sep; [|auto].
    eauto using shaped_ws.
Qed.
End ShapeBounds.

(** ** Errors of the scanner *)

(** What an ingress failure can be before translation. *)
Definition ingress_error (e : exn) : Prop := translated e = true ∨ e = InvalidOperation.

Lemma scan_string_error cs e : scan_string cs = Raise e → ingress_error e.
Proof.
  induction cs as [cs IH] using (well_founded_induction (Wf_nat.well_founded_ltof _ length)).
  unfold Wf_nat.ltof in IH.
  assert (ingress_error JSONDecodeError) as Hj by by left.
  assert (∀ c r, (length r < length cs)%nat → push c (scan_string r) = Raise e →
    ingress_error e) as Hp.
  { intros c r Hr. unfold push. intros [H|([??] & _ & [=])]%rbind_Raise. eauto. }
  destruct cs as [|c cs]; [by intros [= <-]|]. cbn [scan_string].
  repeat first
    [ apply Hp; simpl; lia
    | match goal with
      | |- Raise _ = Raise _ → _ => intros [= <-]; exact Hj
      | |- Ok _ = Raise _ → _ => done
      | |- (if ?b then _ else _) = _ → _ => destruct b
      | |- match ?l with [] => _ | _ => _ end = _ → _ => destruct l
      | |- match ?o with None => _ | _ => _ end = _ → _ => destruct o
      end ].
Qed.

Lemma number_value_error t e : number_value t = Raise e → ingress_error e.
Proof.
  assert (∀ c e', reject_if c e' = Raise e → ingress_error e' → ingress_error e) as Hr.
  { by intros c e' ->%reject_if_Raise. }
  assert (∀ msg, ingress_error (HostileJSONError msg)) as Hh by by left.
  assert (_bounded_json_decimal t = Raise e → ingress_error e) as Hd.
  { unfold _bounded_json_decimal, decimal_of_token.
    intros [H|(? & _ & [[H|(? & _ & [=])]%rbind_Raise|(? & _ &
      [H|(? & _ & [=])]%rbind_Raise)]%rbind_Raise)]%rbind_Raise; eauto.
    eapply Hr; [done|by right]. }
  unfold number_value, _bounded_json_int.
  destruct (nt_frac t), (nt_exp t); intros [H|(? & _ & [=])]%rbind_Raise; eauto.
  apply rbind_Raise in H as [H|(? & _ & [H|(? & _ & [=])]%rbind_Raise)]; eauto.
Qed.

Lemma scan_scalar_error cs e : scan_scalar cs = Raise e → ingress_error e.
Proof.
  unfold scan_scalar. destruct (expect 34 cs).
  { intros [H%scan_string_error|([??] & _ & [=])]%rbind_Raise. done. }
  destruct (expect_all lit_null cs); [done|]. destruct (expect_all lit_true cs); [done|].
  destruct (expect_all lit_false cs); [done|].
  case_bool_decide; [intros [= <-]; by left|].
  destruct (scan_number cs) as [[t r]|]; [|intros [= <-]; by left].
  intros [Hn%number_value_error|(? & _ & [=])]%rbind_Raise. done.
Qed.

Lemma unique_json_object_error seen pairs e :
  unique_json_object seen pairs = Raise e → ingress_error e.
Proof.
  revert seen. induction pairs as [|[k v] pairs IH]; intros seen; simpl; [done|].
  case_bool_decide; [intros [= <-]; by left|]. apply IH.
Qed.

Lemma scan_error f :
  (∀ cs e, scan_once f cs = Some (Raise e) → ingress_error e) ∧
  (∀ cs e, scan_members f cs = Some (Raise e) → ingress_error e) ∧
  (∀ cs e, scan_elements f cs = Some (Raise e) → ingress_error e).
Proof.
  assert (∀ {A B} (m : option (result exn A)) (k : A → option (result exn B)) e,
    andthen m k = Some (Raise e) → (m = Some (Raise e) → ingress_error e) →
    (∀ a, k a = Some (Raise e) → ingress_error e) → ingress_error e) as Hthen.
  { intros A B [[a|e']|] k e; unfold andthen; naive_solver. }
  assert (∀ e, Some (Raise JSONDecodeError : result exn (JSONValue * pystr)) = Some (Raise e) →
    ingress_error e) as Hj by (intros e [= <-]; by left).
  induction f as [|f (IHv & IHm & IHe)]; [by split_and!|].
  split_and!; intros cs e; simpl;
    repeat match goal with
    | |- andthen _ _ = Some (Raise _) → _ =>
      let H := fresh in intros H; eapply Hthen; [exact H|clear H; intros H|clear H; intros [??] H];
      revert H
    | |- match expect ?c ?r with _ => _ end = _ → _ => destruct (expect c r)
    | |- Some _ = Some (Raise _) → _ => intros [= ?]; subst
    end; eauto using scan_scalar_error, scan_string_error; try (by left).
  all: match goal with H : (_ ≫= _) = Raise _ |- _ =>
    apply rbind_Raise in H as [?|(? & _ & [=])]; eauto using unique_json_object_error end.
Qed.

Lemma json_loads_Raise text e : json_loads text = Raise e → ingress_error e.
Proof.
  unfold json_loads. destruct (json_scan_total text) as [r Hr]. rewrite Hr. intros ->.
  unfold json_scan in Hr. destruct (expect 0xFEFF text); [injection Hr as <-; by left|].
  destruct (scan_once _ _) as [[[v rest]|e']|] eqn:Hs; unfold andthen in Hr; [| |done].
  - destruct (skip_ws rest); [done|]. injection Hr as <-. by left.
  - injection Hr as <-. destruct (scan_error (json_fuel text)) as [He _]. by eapply He.
Qed.

Lemma json_loads_Ok text v : json_loads text = Ok v → ∃ rest, scans (skip_ws text) v rest.
Proof.
  unfold json_loads. destruct (json_scan_total text) as [r Hr]. rewrite Hr. intros ->.
  unfold json_scan in Hr. destruct (expect 0xFEFF text); [done|].
  apply andthen_Ok in Hr as ([v' rest] & Hs & Hr).
  destruct (skip_ws rest); simplify_eq. exists rest.
  destruct (scan_sound (json_fuel text)) as [Hv _]. by apply Hv.
Qed.

Lemma shape_loop_Raise D C T cs d c t i x e :
  shape_loop D C T cs d c t i x = Raise e → ingress_error e.
Proof.
  revert d c t i x. induction cs as [|y cs IH]; intros d c t i x; simpl;
    repeat case_match; try done; eauto; intros [= <-]; by left.
Qed.

Lemma parse_bounded_Ok raw mb D C T v :
  parse_bounded_json_value raw mb D C T = Ok v →
  1 ≤ len raw ≤ mb ∧ 1 ≤ D ∧ 1 ≤ C ∧
  ∃ text, utf8_decode raw = Some text ∧
    _require_bounded_json_shape D C T text = Ok tt ∧ json_loads text = Ok v.
Proof.
  unfold parse_bounded_json_value.
  destruct (negb _) eqn:Hcfg; [done|]. destruct (negb (between 1 (len raw) mb)) eqn:Hlen; [done|].
  bool_props. rewrite !between_spec in *.
  destruct (utf8_decode raw) as [text|]; simpl; [|done].
  destruct (_require_bounded_json_shape D C T text) as [[]|] eqn:Hs; simpl; [|done].
  destruct (json_loads text) eqn:Hj; intros [= <-]. split_and!; try lia. eauto.
Qed.

(** ** Claims *)

(** C15: every value [parse_bounded_json_value] returns is safe for the code
    behind it: its document has between 1 and [max_bytes] bytes, all its integers are in the RFC 8785 safe domain, its decimals
    have at most 64 digits and an adjusted exponent within 308, no object at any
    level holds a key twice, and it nests at most [max_depth] containers deep and
    holds at most [max_containers] of them. *)
Theorem parse_bounded_json_value_safe raw max_bytes max_depth max_containers
    max_structure_tokens v :
  parse_bounded_json_value raw max_bytes max_depth max_containers max_structure_tokens
    = Ok v →
  1 ≤ len raw ≤ max_bytes ∧
  json_ok v ∧ json_depth v ≤ max_depth ∧ json_containers v ≤ max_containers.
Proof.
  intros (Hlen & ? & ? & text & _ & Hs & (rest & Hv)%json_loads_Ok)%parse_bounded_Ok.
  split; [exact Hlen|]. split; [by eapply (proj1 scans_ok)|].
  destruct (proj1 (scans_shaped max_depth max_containers max_structure_tokens)
    _ _ _ Hv 0 0 1) as (t' & _ & ? & ?); [lia..| |lia].
  by apply shaped_ws.
Qed.

(** For a valid configuration, the bounded parser always answers: it returns
    a value or raises [ContractParseError], or lets [decimal.InvalidOperation] out;
    in particular its scanner never runs out of fuel. *)
Theorem parse_bounded_json_value_errors raw max_bytes max_depth max_containers
    max_structure_tokens e :
  1 ≤ max_bytes ≤ 8388608 → 1 ≤ max_depth ≤ 32 → 1 ≤ max_containers ≤ 4096 →
  1 ≤ max_structure_tokens ≤ 16384 →
  parse_bounded_json_value raw max_bytes max_depth max_containers max_structure_tokens
    = Raise e →
  (∃ msg, e = ContractParseError msg) ∨ e = InvalidOperation.
Proof.
  rewrite <- !between_spec. intros H1 H2 H3 H4.
  unfold parse_bounded_json_value. rewrite H1, H2, H3, H4. simpl.
  destruct (negb _); [intros [= <-]; eauto|].
  set (body := match utf8_decode raw with None => _ | Some text => _ end).
  assert (∀ e', body = Raise e' → ingress_error e') as Hb.
  { subst body. intros e'. destruct (utf8_decode raw); [|intros [= <-]; by left].
    intros [H|([] & _ & H)]%rbind_Raise; eauto using json_loads_Raise, shape_loop_Raise. }
  destruct body as [?|e']; [done|]. intros [= <-].
  destruct (Hb e' eq_refl) as [-> | ->]; eauto.
Qed.

(** The document [{"a":[1]}]. *)
Definition sample_document : list byte := [x7b; x22; x61; x22; x3a; x5b; x31; x5d; x7d].

Lemma parse_bounded_json_value_safe_witness :
  1 ≤ len sample_document ≤ 64 ∧
  json_ok (JObject [([97], JList [JInt 1])]) ∧
  json_depth (JObject [([97], JList [JInt 1])]) ≤ 32 ∧
  json_containers (JObject [([97], JList [JInt 1])]) ≤ 4096.
Proof.
  apply (parse_bounded_json_value_safe sample_document 64 32 4096 16384).
  vm_compute. reflexivity.
Defined.

Lemma parse_bounded_json_value_errors_witness :
  (∃ msg, ContractParseError "contract JSON ingress rejected" = ContractParseError msg)
  ∨ ContractParseError "contract JSON ingress rejected" = InvalidOperation.
Proof.
  apply (parse_bounded_json_value_errors [x7b] 64 32 4096 16384); [lia..|].
  vm_compute. reflexivity.
Defined.

(** The boundary is not closed: a number whose exponent [Decimal] cannot
    represent makes the parser raise [decimal.InvalidOperation], which is neither
    [ContractParseError] nor a [ValueError]. *)
Theorem invalid_operation_escapes :
  let raw := [x31; x65; x31; x30; x30; x30; x30; x30; x30; x30; x30; x30; x30;
              x30; x30; x30; x30; x30; x30; x30; x30] in
  parse_bounded_json_value raw 4096 32 4096 16384 = Raise InvalidOperation.
Proof. vm_compute. reflexivity. Qed.

(** A toy schema: any document, kept as its raw bytes. *)
Definition RawCodec : ContractCodec (list byte) :=
  {| model_validate_json := Ok; canonical_bytes := Ok |}.

(** Canonical ingress is not malleable: when [parse_contract_json] accepts two
    byte strings as the same model with [require_canonical], the byte strings are
    equal, and are the model's canonical bytes. *)
Theorem parse_contract_json_canonical `{Codec : ContractCodec T} raw raw' max_bytes max_bytes' (m : T) :
  parse_contract_json raw max_bytes true = Ok m →
  parse_contract_json raw' max_bytes' true = Ok m →
  raw = raw' ∧ canonical_bytes m = Ok raw ∧ 1 ≤ len raw ≤ max_bytes.
Proof.
  assert (∀ raw mb, parse_contract_json raw mb true = Ok m →
    canonical_bytes m = Ok raw ∧ 1 ≤ len raw ≤ mb) as Hone.
  { intros r mb. unfold parse_contract_json.
    intros (v & (Hl & _)%parse_bounded_Ok & (m' & Hm & (bs & Hb & Hr)%rbind_Ok)%rbind_Ok)%rbind_Ok.
    case_bool_decide; [|done]. by simplify_eq. }
  intros (Hc & Hl)%Hone (Hc' & _)%Hone. rewrite Hc in Hc'. by simplify_eq.
Qed.

Lemma parse_contract_json_canonical_witness :
  sample_document = sample_document ∧ @canonical_bytes _ RawCodec sample_document = Ok sample_document ∧
  1 ≤ len sample_document ≤ 64.
Proof.
  apply (parse_contract_json_canonical (Codec := RawCodec) sample_document
    sample_document 64 64 sample_document); vm_compute; reflexivity.
Defined.
