(* ===== verification/PttFraming.v ===== *)
(** * PTT framing: [packages/contracts/.../poc/framing.py], the wire side

    The control messages and their payload rule, the frame encoders, and the
    incremental [FrameDecoder] with the buffer, header and closed flag the class
    keeps.  [Reference] is the decoder that reads one byte at a time;
    [feed_loop_reference] shows the chunked loop of [feed] equal to it, and the
    round trips and the fail-closed claims are proved on it. *)

From S2P Require Import Prelude ContractBase.

(** ** Constants *)

Definition MAGIC : list byte := [x54; x54; x50; x54].
Definition PROTOCOL_VERSION : Z := 1.
Definition PREFIX_BYTES : Z := 32.
Definition MAX_CONTROL_BYTES : Z := 4096.
Definition MAX_PCM_BYTES : Z := 65536.
Definition MAX_FEED_BYTES : Z := 65536.
Definition MAX_FRAMES_PER_FEED : Z := 64.
Definition UINT32_MAX : Z := 2 ^ 32 - 1.

(** A [uuid.UUID]: its 128-bit integer value. *)
Definition UUID : Type := Z.
Definition uuid_ok (u : UUID) : Prop := 0 ≤ u < 2 ^ 128.
Definition uuid_bytes (u : UUID) : list byte := be_encode 16 u.

(** ** Enumerations and payloads *)

Inductive FrameKind := FK_CONTROL | FK_PCM.
Definition FrameKind_value (k : FrameKind) : Z :=
  match k with FK_CONTROL => 1 | FK_PCM => 2 end.
(** [FrameKind(raw)], with [ValueError] as [None]. *)
Definition FrameKind_of_value (raw : Z) : option FrameKind :=
  if raw =? 1 then Some FK_CONTROL else if raw =? 2 then Some FK_PCM else None.

Inductive ControlKind :=
| SESSION_OPEN | SESSION_READY | PTT_START | PTT_SUBMIT | HEARTBEAT
| CAPTURE_START | CAPTURE_END | PLAYBACK_START | PLAYBACK_END
| STOP | CANCEL | ABORT | SAFETY_RECEIPT | SAFETY_ACK | ERROR.

Inductive PttInputMode := REACHY_LOCAL | CORE_TERMINAL_TOGGLE.

Inductive PttErrorReason :=
| R_PROTOCOL_REJECTED | R_TURN_CANCELLED | R_CAPTURE_FAILED | R_PROVIDER_FAILED
| R_PLAYBACK_FAILED | R_CLEANUP_INCOMPLETE | R_PEER_CLOSED | R_SESSION_TIMEOUT.

Inductive FrameErrorCode :=
| CLOSED | FEED_TOO_LARGE | TOO_MANY_FRAMES | INVALID_PREFIX | INVALID_LENGTH
| INVALID_CONTROL | TURN_MISMATCH | TRUNCATED | INVALID_SEQUENCE
| INVALID_DIRECTION | INVALID_ORDER | PCM_LIMIT | DURATION_LIMIT | RATE_LIMIT
| INVALID_CLOCK.

Inductive SampleFormat := Float32Le | S16Le.
Inductive ChannelLayout := Mono | Stereo | ReachyNative.
Record AudioFormat := mkAudioFormat {
  sample_format : SampleFormat;
  sample_rate_hz : Z;
  channels : Z;
  interleaved : bool;
  channel_layout : ChannelLayout;
}.

Record PttSafetyReceipt := mkReceipt {
  r_turn_id : UUID;
  new_capture_rejected : bool;
  recording_stopped : bool;
  playback_stopped : bool;
  motion_stopped : bool;
  audio_reactive_disabled : bool;
  owned_buffers_cleared : bool;
}.

Definition is_complete (r : PttSafetyReceipt) : bool :=
  new_capture_rejected r && recording_stopped r && playback_stopped r
  && motion_stopped r && audio_reactive_disabled r && owned_buffers_cleared r.

Inductive PttPayload :=
| EmptyPayload
| SessionPayload (input_mode : PttInputMode)
| StartPayload (audio_format : AudioFormat)
| SafetyPayload (receipt : PttSafetyReceipt)
| AckPayload (accepted : bool)
| ErrorPayload (reason_code : PttErrorReason).

Record PttControl := mkControl {
  c_kind : ControlKind;
  c_turn_id : UUID;
  c_payload : PttPayload;
}.

#[export] Instance FrameKind_eq_dec : EqDecision FrameKind.
Proof. solve_decision. Defined.
#[export] Instance ControlKind_eq_dec : EqDecision ControlKind.
Proof. solve_decision. Defined.
#[export] Instance PttInputMode_eq_dec : EqDecision PttInputMode.
Proof. solve_decision. Defined.
#[export] Instance PttErrorReason_eq_dec : EqDecision PttErrorReason.
Proof. solve_decision. Defined.
#[export] Instance FrameErrorCode_eq_dec : EqDecision FrameErrorCode.
Proof. solve_decision. Defined.
#[export] Instance SampleFormat_eq_dec : EqDecision SampleFormat.
Proof. solve_decision. Defined.
#[export] Instance ChannelLayout_eq_dec : EqDecision ChannelLayout.
Proof. solve_decision. Defined.
#[export] Instance AudioFormat_eq_dec : EqDecision AudioFormat.
Proof. solve_decision. Defined.
#[export] Instance PttSafetyReceipt_eq_dec : EqDecision PttSafetyReceipt.
Proof. unfold EqDecision. solve_decision. Defined.
#[export] Instance PttPayload_eq_dec : EqDecision PttPayload.
Proof. solve_decision. Defined.
#[export] Instance PttControl_eq_dec : EqDecision PttControl.
Proof. solve_decision. Defined.

(** [_PAYLOAD_TYPES] and [exact_payload_for_kind]. *)
Inductive PayloadType := TEmpty | TSession | TStart | TSafety | TAck | TError.
#[export] Instance PayloadType_eq_dec : EqDecision PayloadType.
Proof. solve_decision. Defined.

Definition payload_type (p : PttPayload) : PayloadType :=
  match p with
  | EmptyPayload => TEmpty
  | SessionPayload _ => TSession
  | StartPayload _ => TStart
  | SafetyPayload _ => TSafety
  | AckPayload _ => TAck
  | ErrorPayload _ => TError
  end.

Definition _PAYLOAD_TYPES (k : ControlKind) : PayloadType :=
  match k with
  | SESSION_OPEN | SESSION_READY => TSession
  | CAPTURE_START | PLAYBACK_START => TStart
  | SAFETY_RECEIPT => TSafety
  | SAFETY_ACK => TAck
  | ABORT | ERROR => TError
  | PTT_START | PTT_SUBMIT | HEARTBEAT | CAPTURE_END | PLAYBACK_END | STOP | CANCEL => TEmpty
  end.

Definition exact_payload_for_kind (c : PttControl) : result exn PttControl :=
  _ ← reject_if (negb (bool_decide (payload_type (c_payload c) = _PAYLOAD_TYPES (c_kind c))))
        (ValueError "control payload does not match kind");
  _ ← match c_payload c with
      | SafetyPayload r =>
        reject_if (negb (r_turn_id r =? c_turn_id c)) (ValueError "safety receipt turn mismatch")
      | _ => Ok tt
      end;
  Ok c.

(** The class methods that build controls. *)
Definition session_open (t : UUID) (m : PttInputMode) :=
  exact_payload_for_kind (mkControl SESSION_OPEN t (SessionPayload m)).
Definition session_ready (t : UUID) (m : PttInputMode) :=
  exact_payload_for_kind (mkControl SESSION_READY t (SessionPayload m)).
Definition ptt_start (t : UUID) := exact_payload_for_kind (mkControl PTT_START t EmptyPayload).
Definition ptt_submit (t : UUID) := exact_payload_for_kind (mkControl PTT_SUBMIT t EmptyPayload).
Definition heartbeat (t : UUID) := exact_payload_for_kind (mkControl HEARTBEAT t EmptyPayload).
Definition capture_start (t : UUID) (f : AudioFormat) :=
  exact_payload_for_kind (mkControl CAPTURE_START t (StartPayload f)).
Definition capture_end (t : UUID) := exact_payload_for_kind (mkControl CAPTURE_END t EmptyPayload).
Definition playback_start (t : UUID) (f : AudioFormat) :=
  exact_payload_for_kind (mkControl PLAYBACK_START t (StartPayload f)).
Definition playback_end (t : UUID) := exact_payload_for_kind (mkControl PLAYBACK_END t EmptyPayload).
Definition stop (t : UUID) := exact_payload_for_kind (mkControl STOP t EmptyPayload).
Definition cancel (t : UUID) := exact_payload_for_kind (mkControl CANCEL t EmptyPayload).
Definition abort_control (t : UUID) (r : PttErrorReason) :=
  exact_payload_for_kind (mkControl ABORT t (ErrorPayload r)).
Definition safety_receipt (t : UUID) (r : PttSafetyReceipt) :=
  exact_payload_for_kind (mkControl SAFETY_RECEIPT t (SafetyPayload r)).
Definition safety_ack (t : UUID) (accepted : bool) :=
  exact_payload_for_kind (mkControl SAFETY_ACK t (AckPayload accepted)).
Definition error_control (t : UUID) (r : PttErrorReason) :=
  exact_payload_for_kind (mkControl ERROR t (ErrorPayload r)).

(** ** Frames *)

(** [FrameProtocolError(code)], or any other exception that comes through. *)
Inductive frame_exn :=
| FrameProtocolError (code : FrameErrorCode)
| OtherExn (e : exn).

Record FrameHeader := mkFrameHeader {
  h_turn_id : UUID;
  h_sequence : Z;
  h_kind : FrameKind;
  h_payload_length : Z;
}.

Inductive WireFrame :=
| ControlFrame (turn_id : UUID) (sequence : Z) (control : PttControl)
| PcmFrame (turn_id : UUID) (sequence : Z) (pcm : list byte).

Definition f_turn_id (f : WireFrame) : UUID :=
  match f with ControlFrame t _ _ | PcmFrame t _ _ => t end.
Definition f_sequence (f : WireFrame) : Z :=
  match f with ControlFrame _ s _ | PcmFrame _ s _ => s end.

Definition _require_sequence (sequence : Z) : result frame_exn unit :=
  reject_if (negb (between 0 sequence UINT32_MAX)) (FrameProtocolError INVALID_SEQUENCE).

(** The length rule of a payload, as [_parse_prefix] and [FrameHeader] state it. *)
Definition payload_length_ok (kind : FrameKind) (n : Z) : bool :=
  match kind with
  | FK_CONTROL => between 1 n MAX_CONTROL_BYTES
  | FK_PCM => between 1 n MAX_PCM_BYTES && (n mod 2 =? 0)
  end.

(** [FrameHeader.__post_init__]. *)
Definition make_header (turn_id : UUID) (sequence : Z) (kind : FrameKind) (n : Z) :
    result frame_exn FrameHeader :=
  _ ← _require_sequence sequence;
  _ ← reject_if (negb (payload_length_ok kind n)) (FrameProtocolError INVALID_LENGTH);
  Ok (mkFrameHeader turn_id sequence kind n).

(** [ControlFrame.__post_init__] and [PcmFrame.__post_init__]. *)
Definition make_control_frame (turn_id : UUID) (sequence : Z) (control : PttControl) :
    result frame_exn WireFrame :=
  _ ← _require_sequence sequence;
  _ ← reject_if (negb (c_turn_id control =? turn_id)) (FrameProtocolError TURN_MISMATCH);
  Ok (ControlFrame turn_id sequence control).

Definition make_pcm_frame (turn_id : UUID) (sequence : Z) (pcm : list byte) :
    result frame_exn WireFrame :=
  _ ← _require_sequence sequence;
  _ ← reject_if (negb (between 1 (len pcm) MAX_PCM_BYTES)) (FrameProtocolError INVALID_LENGTH);
  _ ← reject_if (negb (len pcm mod 2 =? 0)) (FrameProtocolError INVALID_LENGTH);
  Ok (PcmFrame turn_id sequence pcm).

(** [PREFIX.pack] of [Struct(">4sBBHII16s")]. *)
Definition pack (kind : FrameKind) (sequence payload_length : Z) (turn_id : UUID) : list byte :=
  MAGIC ++ be_encode 1 PROTOCOL_VERSION ++ be_encode 1 (FrameKind_value kind)
  ++ be_encode 2 0 ++ be_encode 4 sequence ++ be_encode 4 payload_length
  ++ uuid_bytes turn_id.

#[global] Arguments pack : simpl never.

Definition _pack_prefix (kind : FrameKind) (sequence payload_length : Z) (turn_id : UUID) :
    result frame_exn (list byte) :=
  _ ← _require_sequence sequence;
  Ok (pack kind sequence payload_length turn_id).

Section Codec.
Context {PttCodec : ContractCodec PttControl}.

Definition encode_control_frame (sequence : Z) (control : PttControl) :
    result frame_exn (list byte) :=
  match canonical_bytes control with
  | Raise e => Raise (OtherExn e)
  | Ok payload =>
    _ ← reject_if (negb (between 1 (len payload) MAX_CONTROL_BYTES))
          (FrameProtocolError INVALID_LENGTH);
    prefix ← _pack_prefix FK_CONTROL sequence (len payload) (c_turn_id control);
    Ok (prefix ++ payload)
  end.

Definition encode_pcm_frame (turn_id : UUID) (sequence : Z) (pcm : list byte) :
    result frame_exn (list byte) :=
  _ ← reject_if (negb (between 1 (len pcm) MAX_PCM_BYTES && (len pcm mod 2 =? 0)))
        (FrameProtocolError INVALID_LENGTH);
  prefix ← _pack_prefix FK_PCM sequence (len pcm) turn_id;
  Ok (prefix ++ pcm).

(** ** [FrameDecoder] *)

Record FrameDecoder := mkDecoder {
  d_buffer : list byte;
  d_header : option FrameHeader;
  d_closed : bool;
}.

Definition new_decoder : FrameDecoder := mkDecoder [] None false.

(** The state [_poison] and [abort] leave. *)
Definition poisoned : FrameDecoder := mkDecoder [] None true.

(** [PREFIX.unpack] of a 32-byte buffer: magic, version, kind, flags, sequence,
    payload length and turn id. *)
Definition unpack (b : list byte) : option (list byte * Z * Z * Z * Z * Z * Z) :=
  if len b =? PREFIX_BYTES then
    Some (take 4 b, be_decode (take 1 (drop 4 b)), be_decode (take 1 (drop 5 b)),
          be_decode (take 2 (drop 6 b)), be_decode (take 4 (drop 8 b)),
          be_decode (take 4 (drop 12 b)), be_decode (take 16 (drop 16 b)))
  else None.

Definition _parse_prefix (buffer : list byte) : result frame_exn FrameHeader :=
  match unpack buffer with
  | None => Raise (FrameProtocolError INVALID_PREFIX)
  | Some (magic, version, raw_kind, flags, sequence, payload_length, raw_turn) =>
    if negb (bool_decide (magic = MAGIC)) || negb (version =? PROTOCOL_VERSION)
       || negb (flags =? 0)
    then Raise (FrameProtocolError INVALID_PREFIX)
    else
      match FrameKind_of_value raw_kind with
      | None => Raise (FrameProtocolError INVALID_PREFIX)
      | Some kind =>
        _ ← reject_if (negb (payload_length_ok kind payload_length))
              (FrameProtocolError INVALID_LENGTH);
        make_header raw_turn sequence kind payload_length
      end
  end.

(** The exceptions [_complete] turns into [INVALID_CONTROL]: [ContractParseError],
    [ValueError] (with its subclasses) and [TypeError]. *)
Definition caught_by_complete (e : exn) : bool :=
  match e with
  | ContractParseError _ | ValueError _ | TypeError _ | JSONDecodeError
  | UnicodeDecodeError | ValidationError => true
  | _ => false
  end.

Definition _complete (header : FrameHeader) (payload : list byte) : result frame_exn WireFrame :=
  match h_kind header with
  | FK_PCM => make_pcm_frame (h_turn_id header) (h_sequence header) payload
  | FK_CONTROL =>
    match parse_contract_json payload MAX_CONTROL_BYTES true with
    | Raise e =>
      Raise (if caught_by_complete e then FrameProtocolError INVALID_CONTROL else OtherExn e)
    | Ok control =>
      _ ← reject_if (negb (c_turn_id control =? h_turn_id header))
            (FrameProtocolError TURN_MISMATCH);
      make_control_frame (h_turn_id header) (h_sequence header) control
    end
  end.

(** The second half of an iteration of [feed]'s loop, once the header is known;
    [continue] is the loop itself. *)
Definition feed_payload
    (continue : list byte → list WireFrame → FrameDecoder →
                result frame_exn (list WireFrame) * FrameDecoder)
    (header : FrameHeader) (pending : list byte) (staged : list WireFrame)
    (buffer : list byte) : result frame_exn (list WireFrame) * FrameDecoder :=
  let needed := h_payload_length header - len buffer in
  let consumed := Z.to_nat (Z.min needed (len pending)) in
  let buffer' := buffer ++ take consumed pending in
  let pending' := drop consumed pending in
  if len buffer' <? h_payload_length header
  then continue pending' staged (mkDecoder buffer' (Some header) false)
  else
    match _complete header buffer' with
    | Raise e => (Raise e, mkDecoder buffer' (Some header) false)
    | Ok completed =>
      let staged' := staged ++ [completed] in
      let d' := mkDecoder [] None false in
      if MAX_FRAMES_PER_FEED <? len staged'
      then (Raise (FrameProtocolError TOO_MANY_FRAMES), d')
      else continue pending' staged' d'
    end.

(** The [while pending] loop of [feed]; the decoder is what the loop leaves, also
    when it raises.  [feed_loop_reference] shows that the fuel of [feed] is enough. *)
Fixpoint feed_loop (fuel : nat) (pending : list byte) (staged : list WireFrame)
    (d : FrameDecoder) : result frame_exn (list WireFrame) * FrameDecoder :=
  match pending with
  | [] => (Ok staged, d)
  | _ =>
    match fuel with
    | O => (Raise (OtherExn (RuntimeError "out of fuel")), d)
    | S fuel' =>
      match d_header d with
      | Some header => feed_payload (feed_loop fuel') header pending staged (d_buffer d)
      | None =>
        let needed := PREFIX_BYTES - len (d_buffer d) in
        let consumed := Z.to_nat (Z.min needed (len pending)) in
        let buffer' := d_buffer d ++ take consumed pending in
        let pending' := drop consumed pending in
        if len buffer' <? PREFIX_BYTES
        then feed_loop fuel' pending' staged (mkDecoder buffer' None false)
        else
          match _parse_prefix buffer' with
          | Raise e => (Raise e, mkDecoder buffer' None false)
          | Ok header => feed_payload (feed_loop fuel') header pending' staged []
          end
      end
    end
  end.

Definition feed (data : list byte) : M FrameDecoder frame_exn (list WireFrame) := λ d,
  if d_closed d then (Raise (FrameProtocolError CLOSED), d)
  else if MAX_FEED_BYTES <? len data
  then (Raise (FrameProtocolError FEED_TOO_LARGE), poisoned)
  else if bool_decide (data = []) then (Ok [], d)
  else
    match feed_loop (length data) data [] d with
    | (Raise (FrameProtocolError code), _) => (Raise (FrameProtocolError code), poisoned)
    | other => other
    end.

Definition finish : M FrameDecoder frame_exn unit := λ d,
  if d_closed d then (Raise (FrameProtocolError CLOSED), d)
  else if bool_decide (is_Some (d_header d)) || negb (bool_decide (d_buffer d = []))
  then (Raise (FrameProtocolError TRUNCATED), poisoned)
  else (Ok tt, mkDecoder (d_buffer d) (d_header d) true).

Definition abort : M FrameDecoder frame_exn unit := λ _, (Ok tt, poisoned).

(** ** The byte-at-a-time reference decoder *)

(** One byte into an open decoder: the frame it completes, if any. *)
Definition step1 (d : FrameDecoder) (b : byte) :
    result frame_exn (option WireFrame) * FrameDecoder :=
  let buffer := d_buffer d ++ [b] in
  match d_header d with
  | None =>
    if len buffer <? PREFIX_BYTES then (Ok None, mkDecoder buffer None false)
    else match _parse_prefix buffer with
         | Raise e => (Raise e, mkDecoder buffer None false)
         | Ok header => (Ok None, mkDecoder [] (Some header) false)
         end
  | Some header =>
    if len buffer <? h_payload_length header
    then (Ok None, mkDecoder buffer (Some header) false)
    else match _complete header buffer with
         | Raise e => (Raise e, mkDecoder buffer (Some header) false)
         | Ok completed => (Ok (Some completed), mkDecoder [] None false)
         end
  end.

Fixpoint ref_loop (pending : list byte) (staged : list WireFrame) (d : FrameDecoder) :
    result frame_exn (list WireFrame) * FrameDecoder :=
  match pending with
  | [] => (Ok staged, d)
  | b :: pending' =>
    match step1 d b with
    | (Raise e, d') => (Raise e, d')
    | (Ok None, d') => ref_loop pending' staged d'
    | (Ok (Some completed), d') =>
      if MAX_FRAMES_PER_FEED <? len (staged ++ [completed])
      then (Raise (FrameProtocolError TOO_MANY_FRAMES), d')
      else ref_loop pending' (staged ++ [completed]) d'
    end
  end.

(** An open decoder between two bytes: the buffer is short of what it waits for. *)
Definition target (d : FrameDecoder) : Z :=
  match d_header d with None => PREFIX_BYTES | Some h => h_payload_length h end.

Definition header_ok (h : FrameHeader) : Prop :=
  payload_length_ok (h_kind h) (h_payload_length h) = true.

Record decoder_ok (d : FrameDecoder) : Prop := {
  ok_short : d_closed d = false → len (d_buffer d) < target d;
  ok_header : ∀ h, d_header d = Some h → header_ok h;
  ok_clear : d_closed d = true → d_buffer d = [] ∧ d_header d = None;
}.

Lemma payload_length_ok_bounds k n : payload_length_ok k n = true → 1 ≤ n ≤ MAX_PCM_BYTES.
Proof.
  destruct k; simpl; intros H; bool_props; rewrite between_spec in *;
    unfold MAX_CONTROL_BYTES, MAX_PCM_BYTES in *; lia.
Qed.

Lemma _parse_prefix_ok b h : _parse_prefix b = Ok h → header_ok h.
Proof.
  unfold _parse_prefix, make_header, header_ok. intros H.
  destruct (unpack b) as [[[[[[[m v] k] f] s] n] t]|]; [|done].
  destruct (_ || _); [done|]. destruct (FrameKind_of_value k); [|done].
  scan_inv. repeat match goal with H : reject_if _ _ = Ok _ |- _ => apply reject_if_Ok in H end.
  by bool_props.
Qed.

(** Bytes that complete nothing only grow the buffer. *)
Lemma ref_loop_fill chunk rest staged d :
  d_closed d = false → len (d_buffer d) + len chunk < target d →
  ref_loop (chunk ++ rest) staged d =
  ref_loop rest staged (mkDecoder (d_buffer d ++ chunk) (d_header d) false).
Proof.
  revert d. induction chunk as [|b chunk IH]; intros [buf hd cl] Hcl Hlt; simpl in Hcl; subst.
  - by rewrite app_nil_r.
  - rewrite len_cons in Hlt. pose proof (len_nonneg chunk). simpl in Hlt.
    assert (step1 (mkDecoder buf hd false) b = (Ok None, mkDecoder (buf ++ [b]) hd false)) as Hs.
    { unfold step1, target in *. simpl in *. rewrite len_app. change (len [b]) with 1.
      destruct hd; by rewrite (proj2 (Z.ltb_lt _ _)) by lia. }
    cbn [app ref_loop]. rewrite Hs, IH; simpl; [|done|].
    + by rewrite <- app_assoc.
    + rewrite len_app. change (len [b]) with 1. unfold target in *. simpl in *. lia.
Qed.

(** The byte that fills the buffer. *)
Lemma ref_loop_last chunk rest staged d :
  d_closed d = false → chunk ≠ [] → len (d_buffer d) + len chunk = target d →
  ref_loop (chunk ++ rest) staged d =
  match d_header d with
  | None =>
    match _parse_prefix (d_buffer d ++ chunk) with
    | Raise e => (Raise e, mkDecoder (d_buffer d ++ chunk) None false)
    | Ok header => ref_loop rest staged (mkDecoder [] (Some header) false)
    end
  | Some header =>
    match _complete header (d_buffer d ++ chunk) with
    | Raise e => (Raise e, mkDecoder (d_buffer d ++ chunk) (Some header) false)
    | Ok completed =>
      if MAX_FRAMES_PER_FEED <? len (staged ++ [completed])
      then (Raise (FrameProtocolError TOO_MANY_FRAMES), mkDecoder [] None false)
      else ref_loop rest (staged ++ [completed]) (mkDecoder [] None false)
    end
  end.
Proof.
  intros Hcl Hne Hlen. destruct (exists_last Hne) as (c & b & ->).
  assert (len [b] = 1) as Hb by done. rewrite len_app, Hb in Hlen.
  rewrite <- app_assoc, ref_loop_fill by (done || lia).
  cbn [app ref_loop]. unfold step1. cbn [d_buffer d_header].
  rewrite <- app_assoc. cbn [app]. unfold target in Hlen.
  rewrite (len_app (d_buffer d)), len_app, Hb.
  destruct (d_header d) as [h|]; rewrite (proj2 (Z.ltb_ge _ _)) by lia.
  - by destruct (_complete h _).
  - by destruct (_parse_prefix _).
Qed.

(** How a chunk divides at the byte the decoder waits for. *)
Lemma take_needed buffer (pending : list byte) goal :
  len buffer < goal →
  let consumed := Z.to_nat (Z.min (goal - len buffer) (len pending)) in
  let chunk := take consumed pending in
  (len (buffer ++ chunk) < goal ∧ len buffer + len chunk < goal ∧ drop consumed pending = []) ∨
  (goal ≤ len (buffer ++ chunk) ∧ len buffer + len chunk = goal ∧ chunk ≠ [] ∧
   len (drop consumed pending) = len pending - (goal - len buffer)).
Proof.
  intros Hlt consumed chunk. rewrite len_app. subst chunk.
  pose proof (len_nonneg pending). rewrite len_take, len_drop.
  destruct (Z_lt_le_dec (len pending) (goal - len buffer)).
  - left. split_and!; [subst consumed; lia..|].
    apply drop_ge. subst consumed. unfold len in *. lia.
  - right. split_and!; [subst consumed; lia..| |subst consumed; lia].
    intros Hnil%(f_equal len). rewrite len_take, len_nil in Hnil. subst consumed. lia.
Qed.

Lemma feed_payload_reference continue header pending staged buffer :
  header_ok header → len buffer < h_payload_length header →
  (∀ staged d, continue [] staged d = (Ok staged, d)) →
  (∀ rest staged d, len rest < len pending → decoder_ok d → d_closed d = false →
     continue rest staged d = ref_loop rest staged d) →
  feed_payload continue header pending staged buffer =
  ref_loop pending staged (mkDecoder buffer (Some header) false).
Proof.
  intros Hh Hlt Hnil Hrec. unfold feed_payload.
  set (consumed := Z.to_nat (Z.min (h_payload_length header - len buffer) (len pending))).
  transitivity (ref_loop (take consumed pending ++ drop consumed pending) staged
    (mkDecoder buffer (Some header) false)); [|by rewrite take_drop].
  destruct (take_needed buffer pending _ Hlt) as [(H1 & H2 & H3)|(H1 & H2 & H3 & H4)];
    fold consumed in H1, H2, H3; try fold consumed in H4.
  - rewrite (proj2 (Z.ltb_lt _ _)) by done.
    rewrite ref_loop_fill by done. cbn [d_buffer d_header]. by rewrite H3, Hnil.
  - rewrite (proj2 (Z.ltb_ge _ _)) by done.
    rewrite ref_loop_last by done. cbn [d_buffer d_header].
    destruct (_complete header _); [|done]. destruct (_ <? _); [done|].
    apply Hrec; [lia| |done]. by constructor.
Qed.

Lemma feed_loop_reference fuel pending staged d :
  decoder_ok d → d_closed d = false → (length pending ≤ fuel)%nat →
  feed_loop fuel pending staged d = ref_loop pending staged d.
Proof.
  revert pending staged d. induction fuel as [|fuel IH]; intros pending staged d Hd Hcl Hf.
  { destruct pending; [done|simpl in Hf; lia]. }
  assert (∀ staged d, feed_loop fuel [] staged d = (Ok staged, d)) as Hnil.
  { intros. by destruct fuel. }
  assert (∀ rest staged d, len rest < len pending → decoder_ok d → d_closed d = false →
    feed_loop fuel rest staged d = ref_loop rest staged d) as Hrec.
  { intros rest st d' Hr ??. apply IH; [done..|]. unfold len in Hr. lia. }
  destruct pending as [|b pending]; [done|]. pose proof (ok_short _ Hd Hcl) as Hlt.
  set (p := b :: pending) in *. cbn [feed_loop]. fold p.
  destruct d as [buf [h|] cl]; simpl in Hcl, Hlt; subst cl; cbn [d_header d_buffer].
  - apply feed_payload_reference; auto. by apply (ok_header _ Hd).
  - set (consumed := Z.to_nat (Z.min (PREFIX_BYTES - len buf) (len p))).
    transitivity (ref_loop (take consumed p ++ drop consumed p) staged (mkDecoder buf None false));
      [|by rewrite take_drop].
    unfold target in Hlt; simpl in Hlt.
    destruct (take_needed buf p _ Hlt) as [(H1 & H2 & H3)|(H1 & H2 & H3 & H4)];
      fold consumed in H1, H2, H3; try fold consumed in H4.
    + rewrite (proj2 (Z.ltb_lt _ _)) by done.
      rewrite ref_loop_fill by done. cbn [d_buffer d_header]. by rewrite H3, Hnil.
    + rewrite (proj2 (Z.ltb_ge _ _)) by done.
      rewrite ref_loop_last by done. cbn [d_buffer d_header].
      destruct (_parse_prefix _) as [h|] eqn:Hp; [|done].
      apply _parse_prefix_ok in Hp. pose proof (payload_length_ok_bounds _ _ Hp).
      apply feed_payload_reference; [done|rewrite len_nil; lia|done|].
      intros rest st d' Hr ??. apply Hrec; [|done..]. lia.
Qed.

(** ** The prefix round trips *)

Lemma FrameKind_of_value_value k : FrameKind_of_value (FrameKind_value k) = Some k.
Proof. by destruct k. Qed.

Lemma FrameKind_of_value_Some v k : FrameKind_of_value v = Some k → v = FrameKind_value k.
Proof.
  unfold FrameKind_of_value. destruct (Z.eqb_spec v 1); [naive_solver|].
  destruct (Z.eqb_spec v 2); naive_solver.
Qed.

(** The seven fields of a 32-byte prefix. *)
Lemma unpack_fields m v k f s n t :
  length m = 4%nat → length v = 1%nat → length k = 1%nat → length f = 2%nat →
  length s = 4%nat → length n = 4%nat → length t = 16%nat →
  unpack (m ++ v ++ k ++ f ++ s ++ n ++ t) =
  Some (m, be_decode v, be_decode k, be_decode f, be_decode s, be_decode n, be_decode t).
Proof.
  intros Hm Hv Hk Hf Hs Hn Ht. unfold unpack.
  rewrite (proj2 (Z.eqb_eq _ _)).
  2: { unfold len. rewrite !length_app, Hm, Hv, Hk, Hf, Hs, Hn, Ht. done. }
  do 5 (destruct m as [|? m]; try (simpl in Hm; lia)).
  do 2 (destruct v as [|? v]; try (simpl in Hv; lia)).
  do 2 (destruct k as [|? k]; try (simpl in Hk; lia)).
  do 3 (destruct f as [|? f]; try (simpl in Hf; lia)).
  do 5 (destruct s as [|? s]; try (simpl in Hs; lia)).
  do 5 (destruct n as [|? n]; try (simpl in Hn; lia)).
  do 17 (destruct t as [|? t]; try (simpl in Ht; lia)). reflexivity.
Qed.

Lemma unpack_inv b p :
  unpack b = Some p →
  ∃ m v k f s n t, b = m ++ v ++ k ++ f ++ s ++ n ++ t ∧
  length m = 4%nat ∧ length v = 1%nat ∧ length k = 1%nat ∧ length f = 2%nat ∧
  length s = 4%nat ∧ length n = 4%nat ∧ length t = 16%nat ∧
  p = (m, be_decode v, be_decode k, be_decode f, be_decode s, be_decode n, be_decode t).
Proof.
  intros H. assert (length b = 32%nat) as Hl.
  { unfold unpack in H. destruct (Z.eqb_spec (len b) PREFIX_BYTES); [|done].
    unfold len, PREFIX_BYTES in *. lia. }
  destruct (list_split_at 4 b 28 Hl) as (m & b1 & -> & Hm & Hb1).
  destruct (list_split_at 1 b1 27 Hb1) as (v & b2 & -> & Hv & Hb2).
  destruct (list_split_at 1 b2 26 Hb2) as (k & b3 & -> & Hk & Hb3).
  destruct (list_split_at 2 b3 24 Hb3) as (f & b4 & -> & Hf & Hb4).
  destruct (list_split_at 4 b4 20 Hb4) as (s & b5 & -> & Hs & Hb5).
  destruct (list_split_at 4 b5 16 Hb5) as (n & t & -> & Hn & Ht).
  rewrite unpack_fields in H by done. exists m, v, k, f, s, n, t. by simplify_eq.
Qed.

Lemma payload_length_uint32 k n : payload_length_ok k n = true → 0 ≤ n < 256 ^ 4.
Proof. intros H%payload_length_ok_bounds. unfold MAX_PCM_BYTES in H. lia. Qed.

(** Decoding a packed prefix gives the header back. *)
Lemma _parse_prefix_pack k s n t :
  0 ≤ s ≤ UINT32_MAX → payload_length_ok k n = true → uuid_ok t →
  _parse_prefix (pack k s n t) = Ok (mkFrameHeader t s k n).
Proof.
  intros Hs Hn Ht. unfold _parse_prefix, pack.
  rewrite unpack_fields by (done || apply length_be_encode).
  pose proof (payload_length_uint32 _ _ Hn).
  unfold uuid_bytes, uuid_ok, UINT32_MAX in *.
  rewrite (be_decode_encode_small 1 PROTOCOL_VERSION) by done.
  rewrite (be_decode_encode_small 1 (FrameKind_value k)) by (destruct k; done).
  rewrite (be_decode_encode_small 2 0) by done.
  rewrite (be_decode_encode_small 4 s), (be_decode_encode_small 4 n),
    (be_decode_encode_small 16 t) by lia.
  rewrite bool_decide_eq_true_2 by done. cbn [negb orb].
  rewrite !Z.eqb_refl. cbn [negb orb]. rewrite FrameKind_of_value_value, Hn.
  unfold make_header, _require_sequence, UINT32_MAX.
  rewrite (proj2 (between_spec 0 s _)) by done. by simpl; rewrite Hn.
Qed.

(** A buffer that decodes is the packed header. *)
Lemma _parse_prefix_inv b h :
  _parse_prefix b = Ok h →
  b = pack (h_kind h) (h_sequence h) (h_payload_length h) (h_turn_id h) ∧
  0 ≤ h_sequence h ≤ UINT32_MAX ∧ uuid_ok (h_turn_id h) ∧ header_ok h.
Proof.
  intros H. pose proof (_parse_prefix_ok _ _ H) as Hok. revert H. unfold _parse_prefix.
  destruct (unpack b) as [p|] eqn:Hu; [|done].
  apply unpack_inv in Hu as (m & v & k & f & s & n & t & -> & Hm & Hv & Hk & Hf & Hs & Hn & Ht & ->).
  destruct (_ || _) eqn:Hb; [done|]. bool_props. subst m.
  destruct (FrameKind_of_value (be_decode k)) as [kind|] eqn:Hkind; [|done].
  apply FrameKind_of_value_Some in Hkind.
  unfold make_header, _require_sequence. intros H'. scan_inv.
  repeat match goal with H : reject_if _ _ = Ok _ |- _ => apply reject_if_Ok in H end.
  bool_props. rewrite between_spec in *. cbn [h_kind h_sequence h_payload_length h_turn_id].
  split_and!; [|lia|lia| |done].
  - unfold pack, uuid_bytes. rewrite <- Hkind.
    replace PROTOCOL_VERSION with (be_decode v) by done.
    replace (be_encode 2 0) with (be_encode 2 (be_decode f)) by (f_equal; done).
    by rewrite !be_encode_decode_len.
  - unfold uuid_ok. pose proof (be_decode_range t) as Hr. unfold len in Hr. rewrite Ht in Hr. lia.
Qed.

(** ** Whole frames *)

Definition encode_frame (f : WireFrame) : result frame_exn (list byte) :=
  match f with
  | ControlFrame _ s c => encode_control_frame s c
  | PcmFrame t s pcm => encode_pcm_frame t s pcm
  end.

(** The bytes a decoder has taken and not yet given back as frames. *)
Definition held (d : FrameDecoder) : list byte :=
  match d_header d with
  | None => d_buffer d
  | Some h => pack (h_kind h) (h_sequence h) (h_payload_length h) (h_turn_id h) ++ d_buffer d
  end.

Lemma length_pack k s n t : len (pack k s n t) = PREFIX_BYTES.
Proof.
  unfold pack, uuid_bytes, len. rewrite !length_app, !length_be_encode. done.
Qed.

Lemma _require_sequence_Ok s u : _require_sequence s = Ok u → between 0 s UINT32_MAX = true.
Proof. intros H%reject_if_Ok. by bool_props. Qed.

(** A completed frame encodes to the header and payload it was read from. *)
Lemma _complete_encode h payload f :
  _complete h payload = Ok f → len payload = h_payload_length h →
  encode_frame f =
    Ok (pack (h_kind h) (h_sequence h) (h_payload_length h) (h_turn_id h) ++ payload).
Proof.
  unfold _complete, make_pcm_frame, make_control_frame. intros H Hl.
  destruct (h_kind h).
  - destruct (parse_contract_json payload _ true) as [c|e] eqn:Hc; [|done].
    unfold parse_contract_json in Hc. scan_inv. case_bool_decide; [|done]. scan_inv.
    repeat match goal with H : reject_if _ _ = Ok _ |- _ => apply reject_if_Ok in H end.
    bool_props.
    match goal with H : parse_bounded_json_value _ _ _ _ _ = Ok _ |- _ =>
      apply parse_bounded_Ok in H as (Hb & _) end.
    match goal with H : _require_sequence _ = Ok _ |- _ => apply _require_sequence_Ok in H end.
    simpl. unfold encode_control_frame, _pack_prefix, _require_sequence.
    repeat match goal with H : canonical_bytes _ = Ok _ |- _ => rewrite H end.
    rewrite (proj2 (between_spec 1 (len payload) _)) by done. cbn [negb reject_if mbind result_bind].
    repeat match goal with H : between 0 _ _ = true |- _ => rewrite H end.
    cbn. by rewrite <- Hl; repeat match goal with H : c_turn_id _ = _ |- _ => rewrite H end.
  - scan_inv.
    repeat match goal with H : reject_if _ _ = Ok _ |- _ => apply reject_if_Ok in H end.
    match goal with H : _require_sequence _ = Ok _ |- _ => apply _require_sequence_Ok in H end.
    bool_props. simpl. unfold encode_pcm_frame, _pack_prefix, _require_sequence.
    repeat match goal with H : between _ _ _ = true |- _ => rewrite H end.
    rewrite (proj2 (Z.eqb_eq (len payload mod 2) 0)) by done. cbn. by rewrite Hl.
Qed.

Lemma step1_held d b r d' :
  decoder_ok d → d_closed d = false → step1 d b = (Ok r, d') →
  decoder_ok d' ∧ d_closed d' = false ∧
  match r with
  | None => held d' = held d ++ [b]
  | Some f => encode_frame f = Ok (held d ++ [b]) ∧ d' = new_decoder
  end.
Proof.
  intros Hd Hcl. pose proof (ok_short _ Hd Hcl) as Hlt. unfold target in Hlt.
  unfold step1, held. destruct (d_header d) as [h|] eqn:Hh.
  - pose proof (ok_header _ Hd _ Hh).
    destruct (len _ <? _) eqn:Hb; bool_props.
    + intros [= <- <-]. split_and!; [|done|cbn [d_header d_buffer]; by rewrite app_assoc].
      constructor; simpl; [done| |done]. by intros ? [= <-].
    + destruct (_complete h _) as [f|] eqn:Hc; intros [= <- <-].
      assert (len (d_buffer d ++ [b]) = h_payload_length h) as Hl.
      { rewrite len_app in *. change (len [b]) with 1 in *. lia. }
      split_and!; [by constructor|done| |done].
      by rewrite (_complete_encode _ _ _ Hc Hl), <- app_assoc.
  - destruct (len _ <? _) eqn:Hb; bool_props.
    + intros [= <- <-]. split_and!; [by constructor|done|done].
    + destruct (_parse_prefix _) as [h|] eqn:Hp; intros [= <- <-]. cbn [d_header d_buffer].
      apply _parse_prefix_inv in Hp as (Hp & _ & _ & Hok). split_and!; [|done|].
      * constructor; simpl; [|by intros ? [= <-]|done].
        intros _. rewrite len_nil. pose proof (payload_length_ok_bounds _ _ Hok).
        unfold target. simpl. lia.
      * by rewrite app_nil_r, <- Hp.
Qed.

(** The reference decoder without the per-feed frame limit. *)
Fixpoint ref_run (p : list byte) (d : FrameDecoder) :
    result frame_exn (list WireFrame) * FrameDecoder :=
  match p with
  | [] => (Ok [], d)
  | b :: p' =>
    match step1 d b with
    | (Raise e, d') => (Raise e, d')
    | (Ok None, d') => ref_run p' d'
    | (Ok (Some f), d') =>
      match ref_run p' d' with
      | (Ok fs, d'') => (Ok (f :: fs), d'')
      | other => other
      end
    end
  end.

Lemma ref_loop_run p staged d fs d' :
  ref_run p d = (Ok fs, d') → len staged + len fs ≤ MAX_FRAMES_PER_FEED →
  ref_loop p staged d = (Ok (staged ++ fs), d').
Proof.
  revert staged d fs. induction p as [|b p IH]; intros staged d fs H Hn; simpl in *.
  { simplify_eq. by rewrite app_nil_r. }
  destruct (step1 d b) as [[[f|]|e] d1]; [| |done]; [|by apply IH].
  destruct (ref_run p d1) as [[fs'|e] d2] eqn:Hr; [|done]. simplify_eq.
  rewrite len_cons in Hn. pose proof (len_nonneg fs').
  rewrite (proj2 (Z.ltb_ge _ _)) by (rewrite len_app; change (len [f]) with 1; lia).
  rewrite (IH _ _ _ Hr); [by rewrite <- app_assoc|].
  rewrite len_app. change (len [f]) with 1. lia.
Qed.

Lemma ref_loop_Ok_run p staged d fs d' :
  ref_loop p staged d = (Ok fs, d') →
  ∃ new, fs = staged ++ new ∧ ref_run p d = (Ok new, d').
Proof.
  revert staged d. induction p as [|b p IH]; intros staged d H; simpl in *.
  { simplify_eq. exists []. by rewrite app_nil_r. }
  destruct (step1 d b) as [[[f|]|e] d1]; [| |done]; [|by apply IH].
  destruct (_ <? _); [done|]. apply IH in H as (new & -> & Hr).
  exists (f :: new). rewrite Hr. by rewrite <- app_assoc.
Qed.

Lemma ref_run_app a b d fs d' :
  ref_run (a ++ b) d = (Ok fs, d') →
  ∃ f1 f2 dm, ref_run a d = (Ok f1, dm) ∧ ref_run b dm = (Ok f2, d') ∧ fs = f1 ++ f2.
Proof.
  revert d fs. induction a as [|x a IH]; intros d fs H; simpl in *; [by eexists [], fs, d|].
  destruct (step1 d x) as [[[f|]|e] d1]; [| |done].
  - destruct (ref_run (a ++ b) d1) as [[fs'|e] d2] eqn:Hr; [|done]. simplify_eq.
    apply IH in Hr as (f1 & f2 & dm & -> & Hb & ->). by eexists _, f2, dm.
  - by apply IH.
Qed.

(** What a run consumed is what the frames encode to, plus what is still held. *)
Lemma ref_run_held p d fs d' :
  decoder_ok d → d_closed d = false → ref_run p d = (Ok fs, d') →
  decoder_ok d' ∧ d_closed d' = false ∧
  ∃ bss, Forall2 (λ f bs, encode_frame f = Ok bs) fs bss ∧ held d ++ p = concat bss ++ held d'.
Proof.
  revert d fs. induction p as [|b p IH]; intros d fs Hd Hcl H; cbn [ref_run] in H.
  { simplify_eq. split_and!; [done..|]. exists []. by rewrite app_nil_r. }
  destruct (step1 d b) as [[r|e] d1] eqn:Hs; [|done].
  apply step1_held in Hs as (Hd1 & Hcl1 & Hr); [|done..].
  destruct r as [f|].
  - destruct Hr as [Hf ->]. destruct (ref_run p new_decoder) as [[fs'|e] d2] eqn:Hp; [|done].
    simplify_eq. apply IH in Hp as (? & ? & bss & Hbss & Heq); [|done..].
    split_and!; [done..|]. exists ((held d ++ [b]) :: bss). split; [by constructor|].
    simpl in *. rewrite <- !app_assoc, <- Heq. done.
  - apply IH in H as (? & ? & bss & Hbss & Heq); [|done..]. split_and!; [done..|].
    exists bss. split; [done|]. by rewrite <- Heq, Hr, <- app_assoc.
Qed.

(** ** Encoding, then decoding *)

(** What is relied on of pydantic and rfc8785: the canonical bytes of a control
    are JSON within the limits of the bounded parser, and validating them gives
    the control back. *)
Class PttCodecLaws : Prop := {
  canonical_is_bounded_json c bs :
    canonical_bytes c = Ok bs → len bs ≤ MAX_CONTROL_BYTES →
    is_ok (parse_bounded_json_value bs MAX_CONTROL_BYTES 32 4096 16384) = true;
  canonical_validates c bs :
    canonical_bytes c = Ok bs → model_validate_json bs = Ok c;
}.

(** Frames as [ControlFrame] and [PcmFrame] admit them: a control carries its own
    turn id. *)
Definition frame_ok (f : WireFrame) : Prop :=
  uuid_ok (f_turn_id f) ∧
  match f with ControlFrame t _ c => c_turn_id c = t | PcmFrame _ _ _ => True end.

Context {Laws : PttCodecLaws}.

Lemma encode_frame_inv f bs :
  frame_ok f → encode_frame f = Ok bs →
  ∃ h payload,
    bs = pack (h_kind h) (h_sequence h) (h_payload_length h) (h_turn_id h) ++ payload ∧
    len payload = h_payload_length h ∧ header_ok h ∧ 0 ≤ h_sequence h ≤ UINT32_MAX ∧
    uuid_ok (h_turn_id h) ∧ _complete h payload = Ok f.
Proof.
  intros [Hu Ht]. destruct f as [t s c|t s pcm]; cbn [encode_frame f_turn_id] in *.
  - unfold encode_control_frame, _pack_prefix.
    destruct (canonical_bytes c) as [payload|] eqn:Hc; [|done]. intros Henc. scan_inv.
    match goal with H : reject_if _ _ = Ok _ |- _ => apply reject_if_Ok in H end.
    match goal with H : _require_sequence _ = Ok _ |- _ => apply _require_sequence_Ok in H end.
    bool_props.
    exists (mkFrameHeader (c_turn_id c) s FK_CONTROL (len payload)), payload.
    do 3 (split; [done|]). split; [by apply between_spec|]. split; [done|].
    unfold _complete, parse_contract_json, make_control_frame, _require_sequence. simpl.
    pose proof (canonical_is_bounded_json c payload Hc) as Hb.
    rewrite between_spec in *.
    destruct (parse_bounded_json_value _ _ _ _ _) as [v|]; simpl in *; [|discriminate Hb; lia].
    rewrite (canonical_validates c payload Hc). simpl. rewrite Hc. simpl.
    rewrite bool_decide_eq_true_2 by done. simpl. rewrite Z.eqb_refl. simpl.
    by rewrite (proj2 (between_spec 0 s _)).
  - unfold encode_pcm_frame, _pack_prefix. intros Henc. scan_inv.
    match goal with H : reject_if _ _ = Ok _ |- _ => apply reject_if_Ok in H end.
    match goal with H : _require_sequence _ = Ok _ |- _ => apply _require_sequence_Ok in H end.
    bool_props.
    exists (mkFrameHeader t s FK_PCM (len pcm)), pcm.
    do 2 (split; [done|]). split; [|split; [by apply between_spec|split; [done|]]].
    + unfold header_ok. simpl. apply andb_true_intro. split; [done|]. by apply Z.eqb_eq.
    + unfold _complete, make_pcm_frame, _require_sequence. simpl.
      repeat match goal with H : between _ _ _ = true |- _ => rewrite H end. simpl.
      by rewrite (proj2 (Z.eqb_eq (len pcm mod 2) 0)).
Qed.

Lemma ref_run_frame f bs :
  frame_ok f → encode_frame f = Ok bs → ref_run bs new_decoder = (Ok [f], new_decoder).
Proof.
  intros Hf (h & payload & -> & Hl & Hok & Hs & Hu & Hc)%encode_frame_inv; [|done].
  pose proof (payload_length_ok_bounds _ _ Hok).
  assert (ref_loop (pack (h_kind h) (h_sequence h) (h_payload_length h) (h_turn_id h) ++ payload)
            [] new_decoder = (Ok [f], new_decoder)) as Hr.
  { rewrite ref_loop_last; [|done| |by rewrite length_pack].
    2: { intros Hn%(f_equal len). by rewrite length_pack in Hn. }
    cbn [new_decoder d_header d_buffer app]. rewrite _parse_prefix_pack by done.
    destruct h as [t s k n]; cbn [h_turn_id h_sequence h_kind h_payload_length] in *.
    rewrite <- (app_nil_r payload), ref_loop_last; [|done| |done].
    2: { intros ->. rewrite len_nil in Hl. lia. }
    cbn [d_header d_buffer app]. by rewrite Hc. }
  apply ref_loop_Ok_run in Hr as (new & [= <-] & Hr). done.
Qed.

Lemma ref_run_cat a b d f1 dm f2 d' :
  ref_run a d = (Ok f1, dm) → ref_run b dm = (Ok f2, d') →
  ref_run (a ++ b) d = (Ok (f1 ++ f2), d').
Proof.
  revert d f1. induction a as [|x a IH]; intros d f1 Ha Hb; simpl in *; [by simplify_eq|].
  destruct (step1 d x) as [[[f|]|e] d1]; [| |done].
  - destruct (ref_run a d1) as [[fs'|e] d2] eqn:Hr; [|done]. simplify_eq.
    by rewrite (IH _ _ Hr Hb).
  - by apply IH.
Qed.

Lemma ref_run_frames fs bss :
  Forall frame_ok fs → Forall2 (λ f bs, encode_frame f = Ok bs) fs bss →
  ref_run (concat bss) new_decoder = (Ok fs, new_decoder).
Proof.
  intros Hok Henc. induction Henc as [|f bs fs bss Hf _ IH]; [done|].
  apply Forall_cons in Hok as [Hf1 Hok]. simpl.
  apply (ref_run_cat _ _ _ [f] new_decoder); [by apply ref_run_frame|by apply IH].
Qed.

(** ** Feeding a stream in chunks *)

Fixpoint feed_all (chunks : list (list byte)) : M FrameDecoder frame_exn (list WireFrame) :=
  match chunks with
  | [] => mret []
  | chunk :: rest => fs ← feed chunk; fs' ← feed_all rest; mret (fs ++ fs')
  end.

Lemma encode_frame_long f bs : encode_frame f = Ok bs → PREFIX_BYTES + 1 ≤ len bs.
Proof.
  destruct f as [t s c|t s pcm]; cbn [encode_frame].
  - unfold encode_control_frame, _pack_prefix.
    destruct (canonical_bytes c) as [payload|]; [|done]. intros Henc. scan_inv.
    match goal with H : reject_if _ _ = Ok _ |- _ => apply reject_if_Ok in H end.
    bool_props. rewrite between_spec in *. rewrite len_app, length_pack. lia.
  - unfold encode_pcm_frame, _pack_prefix. intros Henc. scan_inv.
    match goal with H : reject_if _ _ = Ok _ |- _ => apply reject_if_Ok in H end.
    bool_props. rewrite between_spec in *. rewrite len_app, length_pack. lia.
Qed.

Lemma encode_frames_long fs bss :
  Forall2 (λ f bs, encode_frame f = Ok bs) fs bss →
  (PREFIX_BYTES + 1) * len fs ≤ len (concat bss).
Proof.
  induction 1 as [|f bs fs bss Hf%encode_frame_long _ IH]; [done|].
  simpl. rewrite len_app, len_cons. lia.
Qed.

Lemma feed_run data d fs d' :
  decoder_ok d → d_closed d = false → len data ≤ MAX_FEED_BYTES →
  ref_run data d = (Ok fs, d') → len fs ≤ MAX_FRAMES_PER_FEED →
  feed data d = (Ok fs, d').
Proof.
  intros Hd Hcl Hl Hr Hn. unfold feed. rewrite Hcl.
  rewrite (proj2 (Z.ltb_ge _ _)) by done. case_bool_decide as He.
  { subst. simpl in Hr. by simplify_eq. }
  rewrite feed_loop_reference by done.
  by rewrite (ref_loop_run _ _ _ _ _ Hr) by (rewrite len_nil; lia).
Qed.

(** Frames completed by one run: all but the first need their 33 bytes inside it. *)
Lemma ref_run_count p d fs d' :
  decoder_ok d → d_closed d = false → ref_run p d = (Ok fs, d') →
  (PREFIX_BYTES + 1) * (len fs - 1) < len p ∨ fs = [].
Proof.
  revert d fs. induction p as [|b p IH]; intros d fs Hd Hcl H; cbn [ref_run] in H.
  { right. by simplify_eq. }
  destruct (step1 d b) as [[r|e] d1] eqn:Hs; [|done].
  apply step1_held in Hs as (Hd1 & Hcl1 & Hr); [|done..]. rewrite len_cons.
  destruct r as [f|]; [|destruct (IH _ _ Hd1 Hcl1 H); [left; lia|by right]].
  destruct Hr as [_ ->]. destruct (ref_run p new_decoder) as [[fs'|e] d2] eqn:Hp; [|done].
  simplify_eq. apply ref_run_held in Hp as (_ & _ & bss & Hbss & Heq); [|done..].
  left. apply encode_frames_long in Hbss. pose proof (len_nonneg (held d')).
  simpl in Heq. rewrite Heq, len_app, len_cons. lia.
Qed.

Lemma feed_all_run chunks d fs d' :
  decoder_ok d → d_closed d = false →
  Forall (λ c, len c ≤ (PREFIX_BYTES + 1) * MAX_FRAMES_PER_FEED) chunks →
  ref_run (concat chunks) d = (Ok fs, d') → feed_all chunks d = (Ok fs, d').
Proof.
  intros Hd Hcl Hc. revert d fs Hd Hcl.
  induction Hc as [|c chunks Hlen _ IH]; intros d fs Hd Hcl H; simpl in *; [by simplify_eq|].
  apply ref_run_app in H as (f1 & f2 & dm & H1 & H2 & ->).
  pose proof (ref_run_held _ _ _ _ Hd Hcl H1) as (Hdm & Hclm & _).
  unfold PREFIX_BYTES, MAX_FRAMES_PER_FEED in *.
  unfold mbind, M_bind. rewrite (feed_run c d f1 dm); [|done|done| |done|].
  - by rewrite (IH _ _ Hdm Hclm H2).
  - unfold MAX_FEED_BYTES. lia.
  - unfold MAX_FRAMES_PER_FEED.
    destruct (ref_run_count _ _ _ _ Hd Hcl H1) as [Hn| ->]; [|done].
    unfold PREFIX_BYTES in Hn. lia.
Qed.

(** ** Reachable decoders *)

(** The state an exception other than [FrameProtocolError] leaves behind: a full
    payload that was neither accepted nor dropped. *)
Definition stuck (d : FrameDecoder) : Prop :=
  ∃ h e, d_header d = Some h ∧ header_ok h ∧ d_closed d = false ∧
    len (d_buffer d) = h_payload_length h ∧
    _complete h (d_buffer d) = Raise (OtherExn e).

Definition decoder_inv (d : FrameDecoder) : Prop := decoder_ok d ∨ stuck d.

Lemma _parse_prefix_Raise b e : _parse_prefix b = Raise e → ∃ code, e = FrameProtocolError code.
Proof.
  unfold _parse_prefix, make_header, _require_sequence.
  destruct (unpack b) as [[[[[[[m v] k] f] s] n] t]|]; [|naive_solver].
  destruct (_ || _); [naive_solver|]. destruct (FrameKind_of_value k); [|naive_solver].
  intros [H|(? & _ & [H|(? & _ & [H|(? & _ & H)]%rbind_Raise)]%rbind_Raise)]%rbind_Raise;
    try (apply reject_if_Raise in H); naive_solver.
Qed.

Lemma step1_Raise d b e d' :
  decoder_ok d → d_closed d = false → step1 d b = (Raise (OtherExn e), d') → stuck d'.
Proof.
  intros Hd Hcl. pose proof (ok_short _ Hd Hcl) as Hlt. unfold target in Hlt. unfold step1.
  destruct (d_header d) as [h|] eqn:Hh.
  - destruct (len _ <? _) eqn:Hb; [done|]. bool_props.
    destruct (_complete h _) as [|e'] eqn:Hc; [done|]. intros [= -> <-].
    exists h, e. split_and!; [done|by apply (ok_header _ Hd)|done| |done].
    cbn [d_buffer]. rewrite len_app in *. change (len [b]) with 1 in *. lia.
  - destruct (len _ <? _); [done|].
    destruct (_parse_prefix _) as [|e'] eqn:Hp; [done|].
    apply _parse_prefix_Raise in Hp as [code ->]. done.
Qed.

Lemma ref_loop_Raise p staged d e d' :
  decoder_ok d → d_closed d = false → ref_loop p staged d = (Raise (OtherExn e), d') → stuck d'.
Proof.
  revert staged d. induction p as [|b p IH]; intros staged d Hd Hcl H; cbn [ref_loop] in H; [done|].
  destruct (step1 d b) as [[r|e1] d1] eqn:Hs.
  - apply step1_held in Hs as (Hd1 & Hcl1 & Hr); [|done..].
    destruct r as [f|]; [destruct (_ <? _); [done|]|]; by eapply IH.
  - simplify_eq. by eapply step1_Raise.
Qed.

Lemma feed_stuck data d h e :
  d_header d = Some h → d_closed d = false → len (d_buffer d) = h_payload_length h →
  _complete h (d_buffer d) = Raise (OtherExn e) → data ≠ [] → len data ≤ MAX_FEED_BYTES →
  feed data d = (Raise (OtherExn e), d).
Proof.
  intros Hh Hcl Hl Hc Hne Hle. unfold feed. rewrite Hcl.
  rewrite (proj2 (Z.ltb_ge _ _)) by done. rewrite bool_decide_eq_false_2 by done.
  destruct data as [|b data]; [done|]. cbn [length feed_loop]. rewrite Hh.
  unfold feed_payload. rewrite Hl, Z.sub_diag, Z.min_l by apply len_nonneg. cbn [Z.to_nat take].
  rewrite app_nil_r, Hl, Z.ltb_irrefl, Hc.
  destruct d as [buf hd cl]. simpl in *. by subst.
Qed.

Lemma poisoned_ok : decoder_ok poisoned.
Proof. by constructor. Qed.

Lemma feed_inv data d : decoder_inv d → decoder_inv (feed data d).2.
Proof.
  intros [Hd|Hs].
  - unfold feed. destruct (d_closed d) eqn:Hcl; [by left|].
    destruct (MAX_FEED_BYTES <? len data); [left; apply poisoned_ok|].
    case_bool_decide; [by left|]. rewrite feed_loop_reference by done.
    destruct (ref_loop data [] d) as [[fs|[code|e]] d'] eqn:Hr.
    + apply ref_loop_Ok_run in Hr as (new & _ & Hr).
      left. by apply (ref_run_held _ _ _ _ Hd Hcl Hr).
    + left. apply poisoned_ok.
    + right. by eapply ref_loop_Raise.
  - pose proof Hs as (h & e & Hh & Hok & Hcl & Hl & Hc).
    destruct (Z_lt_le_dec MAX_FEED_BYTES (len data)).
    + unfold feed. rewrite Hcl, (proj2 (Z.ltb_lt _ _)) by done. left. apply poisoned_ok.
    + destruct (decide (data = [])) as [->|Hne].
      * unfold feed. rewrite Hcl. simpl. by right.
      * rewrite (feed_stuck _ _ h e) by done. by right.
Qed.

Inductive decoder_op := OpFeed (data : list byte) | OpFinish | OpAbort.

Definition run_op (op : decoder_op) (d : FrameDecoder) : FrameDecoder :=
  match op with
  | OpFeed data => (feed data d).2
  | OpFinish => (finish d).2
  | OpAbort => (abort d).2
  end.

Inductive decoder_reachable : FrameDecoder → Prop :=
| dr_new : decoder_reachable new_decoder
| dr_op op d : decoder_reachable d → decoder_reachable (run_op op d).

Lemma decoder_reachable_inv d : decoder_reachable d → decoder_inv d.
Proof.
  induction 1 as [|op d _ IH]; [left; by constructor|]. destruct op; simpl.
  - by apply feed_inv.
  - unfold finish. destruct (d_closed d) eqn:Hcl; [done|].
    destruct (_ || _) eqn:Hb; [left; apply poisoned_ok|]. bool_props.
    left. constructor; simpl; [done| |].
    + intros h Hh. exfalso. naive_solver.
    + intros _. split; [done|]. destruct (d_header d); naive_solver.
  - left. apply poisoned_ok.
Qed.

Lemma decoder_inv_bounded d : decoder_inv d → len (d_buffer d) ≤ MAX_PCM_BYTES.
Proof.
  intros [Hd|(h & e & _ & Hok & _ & Hl & _)].
  - destruct (d_closed d) eqn:Hcl.
    { destruct (ok_clear _ Hd Hcl) as [-> _]. done. }
    pose proof (ok_short _ Hd Hcl) as Hlt. unfold target in Hlt.
    destruct (d_header d) as [h|] eqn:Hh.
    + pose proof (payload_length_ok_bounds _ _ (ok_header _ Hd _ Hh)). lia.
    + unfold PREFIX_BYTES, MAX_PCM_BYTES in *. lia.
  - pose proof (payload_length_ok_bounds _ _ Hok). lia.
Qed.

(** ** Claims *)

(** C14: encoding then decoding is the identity on streams, however the bytes are
    cut: any sequence of frames, encoded, concatenated and fed to a fresh decoder
    in chunks of at most 2112 bytes, comes back frame for frame in order, and
    [finish] then accepts the end of the stream. *)
Theorem stream_roundtrip fs bss chunks :
  Forall frame_ok fs → Forall2 (λ f bs, encode_frame f = Ok bs) fs bss →
  concat chunks = concat bss → Forall (λ c, len c ≤ 2112) chunks →
  (got ← feed_all chunks; _ ← finish; mret got) new_decoder = (Ok fs, poisoned).
Proof.
  intros Hok Henc Hcat Hlen. unfold mbind, M_bind.
  rewrite (feed_all_run chunks new_decoder fs new_decoder); [done|by constructor|done|done|].
  rewrite Hcat. by apply ref_run_frames.
Qed.

End Codec.

Section Ingress.
Context {PttCodec : ContractCodec PttControl}.

(** The decoder is not malleable: whenever [feed] accepts data, the bytes it
    had taken and the data are exactly the encodings of the frames it returns,
    followed by the bytes it still holds; no other byte string decodes to them. *)
Theorem accepted_bytes_are_encodings data d fs d' :
  decoder_ok d → d_closed d = false → feed data d = (Ok fs, d') →
  decoder_ok d' ∧
  ∃ bss, Forall2 (λ f bs, encode_frame f = Ok bs) fs bss ∧
    held d ++ data = concat bss ++ held d'.
Proof.
  intros Hd Hcl. unfold feed. rewrite Hcl. destruct (_ <? len data); [done|].
  case_bool_decide as He.
  { intros [= <- <-]. subst. split; [done|]. exists []. by rewrite app_nil_r. }
  rewrite feed_loop_reference by done.
  destruct (ref_loop data [] d) as [[fs1|[code|e]] d1] eqn:Hr; intros [= <- <-].
  apply ref_loop_Ok_run in Hr as (new & -> & Hr).
  by destruct (ref_run_held _ _ _ _ Hd Hcl Hr) as (? & ? & ?).
Qed.

(** The buffered loop of [feed] computes what a decoder that reads one byte at
    a time computes, for every open well-formed decoder and every chunk: same
    frames or same error, and the same state left behind. *)
Theorem feed_equals_bytewise data d :
  decoder_ok d → d_closed d = false → len data ≤ MAX_FEED_BYTES →
  feed data d =
  match ref_loop data [] d with
  | (Raise (FrameProtocolError code), _) => (Raise (FrameProtocolError code), poisoned)
  | other => other
  end.
Proof.
  intros Hd Hcl Hl. unfold feed. rewrite Hcl, (proj2 (Z.ltb_ge _ _)) by done.
  case_bool_decide as He; [by subst|]. by rewrite feed_loop_reference by done.
Qed.

(** A protocol error closes the decoder for good: after any [FrameProtocolError]
    of [feed] on a reachable decoder, its buffer and header are gone and every later
    [feed] or [finish] raises [CLOSED]. *)
Theorem feed_error_closes data d code d' :
  decoder_reachable d → feed data d = (Raise (FrameProtocolError code), d') →
  d' = poisoned ∧
  (∀ data', feed data' d' = (Raise (FrameProtocolError CLOSED), d')) ∧
  finish d' = (Raise (FrameProtocolError CLOSED), d').
Proof.
  intros Hr Hf. assert (d' = poisoned) as ->; [|done]. revert Hf. unfold feed.
  destruct (d_closed d) eqn:Hcl.
  { intros [= _ <-]. destruct (decoder_reachable_inv _ Hr) as [Hd|(h & e & _ & _ & Hc & _)].
    - destruct d as [buf hd cl]. destruct (ok_clear _ Hd Hcl). simpl in *. by subst.
    - congruence. }
  destruct (_ <? len data); [by intros [= _ <-]|]. case_bool_decide; [done|].
  destruct (feed_loop _ _ _ _) as [[fs|[c|e]] d1]; naive_solver.
Qed.

(** Memory is bounded: whatever is fed, finished or aborted and in whatever
    order, a decoder never buffers more than [MAX_PCM_BYTES] bytes. *)
Theorem decoder_buffer_bounded d :
  decoder_reachable d → len (d_buffer d) ≤ MAX_PCM_BYTES.
Proof. intros H%decoder_reachable_inv. by apply decoder_inv_bounded. Qed.

(** A control payload the JSON parser answers with [decimal.InvalidOperation]
    escapes the decoder's error handling: the exception leaves [feed] as it is, the
    decoder stays open with the payload in its buffer, and every later chunk raises
    the same exception again. *)
Theorem invalid_operation_leaves_decoder_open :
  let payload := [x31; x65; x31; x30; x30; x30; x30; x30; x30; x30; x30; x30; x30;
                  x30; x30; x30; x30; x30; x30; x30; x30] in
  let d' := mkDecoder payload (Some (mkFrameHeader 0 0 FK_CONTROL 21)) false in
  feed (pack FK_CONTROL 0 21 0 ++ payload) new_decoder = (Raise (OtherExn InvalidOperation), d') ∧
  (∀ data, data ≠ [] → len data ≤ MAX_FEED_BYTES →
     feed data d' = (Raise (OtherExn InvalidOperation), d')).
Proof.
  split; [vm_compute; reflexivity|].
  intros data. by apply (feed_stuck data _ (mkFrameHeader 0 0 FK_CONTROL 21)).
Qed.
End Ingress.

(** ** Witnesses *)

(** A codec for two controls, printed as the JSON numbers 1 and 2. *)
Definition sample_turn : UUID := 0x1234.
Definition sample_stop : PttControl := mkControl STOP sample_turn EmptyPayload.
Definition sample_ready : PttControl :=
  mkControl SESSION_READY sample_turn (SessionPayload REACHY_LOCAL).

Definition SampleCodec : ContractCodec PttControl :=
  {| model_validate_json bs :=
       if bool_decide (bs = [x31]) then Ok sample_stop
       else if bool_decide (bs = [x32]) then Ok sample_ready else Raise ValidationError;
     canonical_bytes c :=
       if bool_decide (c = sample_stop) then Ok [x31]
       else if bool_decide (c = sample_ready) then Ok [x32] else Raise (TypeError "no model") |}.

Lemma SampleCodecLaws : PttCodecLaws (PttCodec := SampleCodec).
Proof.
  constructor; intros c bs; simpl; repeat case_bool_decide; intros [= <-]; subst; done.
Defined.

Definition sample_frames : list WireFrame :=
  [ControlFrame sample_turn 0 sample_ready; PcmFrame sample_turn 1 [x01; x02];
   ControlFrame sample_turn 2 sample_stop].

Definition sample_encodings : list (list byte) :=
  [pack FK_CONTROL 0 1 sample_turn ++ [x32]; pack FK_PCM 1 2 sample_turn ++ [x01; x02];
   pack FK_CONTROL 2 1 sample_turn ++ [x31]].

Definition sample_chunks : list (list byte) :=
  [take 5 (concat sample_encodings); drop 5 (concat sample_encodings)].

Lemma stream_roundtrip_witness :
  (got ← feed_all (PttCodec := SampleCodec) sample_chunks; _ ← finish; mret got) new_decoder
  = (Ok sample_frames, poisoned).
Proof.
  apply (stream_roundtrip (PttCodec := SampleCodec) (Laws := SampleCodecLaws)
    sample_frames sample_encodings).
  - repeat constructor; vm_compute; congruence.
  - repeat constructor.
  - vm_compute. reflexivity.
  - repeat constructor; vm_compute; discriminate.
Defined.

Lemma accepted_bytes_are_encodings_witness :
  decoder_ok new_decoder ∧
  ∃ bss, Forall2 (λ f bs, encode_frame (PttCodec := SampleCodec) f = Ok bs) sample_frames bss ∧
    held new_decoder ++ concat sample_encodings = concat bss ++ held new_decoder.
Proof.
  apply (accepted_bytes_are_encodings (PttCodec := SampleCodec) (concat sample_encodings)
    new_decoder sample_frames new_decoder).
  - by constructor.
  - reflexivity.
  - vm_compute. reflexivity.
Defined.

Lemma feed_equals_bytewise_witness :
  feed (PttCodec := SampleCodec) [x54; x54] new_decoder =
  match ref_loop (PttCodec := SampleCodec) [x54; x54] [] new_decoder with
  | (Raise (FrameProtocolError code), _) => (Raise (FrameProtocolError code), poisoned)
  | other => other
  end.
Proof.
  apply (feed_equals_bytewise (PttCodec := SampleCodec) [x54; x54] new_decoder).
  - by constructor.
  - reflexivity.
  - vm_compute. discriminate.
Defined.

Lemma feed_error_closes_witness :
  poisoned = poisoned ∧
  (∀ data', feed (PttCodec := SampleCodec) data' poisoned
            = (Raise (FrameProtocolError CLOSED), poisoned)) ∧
  finish poisoned = (Raise (FrameProtocolError CLOSED), poisoned).
Proof.
  apply (feed_error_closes (PttCodec := SampleCodec) (replicate 32 x00) new_decoder INVALID_PREFIX).
  - constructor.
  - vm_compute. reflexivity.
Defined.

Lemma decoder_buffer_bounded_witness :
  len (d_buffer (run_op (PttCodec := SampleCodec) (OpFeed [x54]) new_decoder)) ≤ MAX_PCM_BYTES.
Proof.
  apply (decoder_buffer_bounded (PttCodec := SampleCodec)). apply dr_op. constructor.
Defined.
