(* ===== verification/PyFloat.v ===== *)
(** * Python floats: IEEE 754 binary64, through the Standard Library's [SpecFloat]

    Clock readings reach the code as [int] or [float]; comparisons and the two
    subtractions the code makes are the binary64 operations with
    round-to-nearest-even. *)

From S2P Require Import Prelude.
From Stdlib Require Import SpecFloat.

Abbreviation float := spec_float.

Definition float_sub (x y : float) : float := SFsub 53 1024 x y.
Definition float_lt (x y : float) : bool := SFltb x y.
Definition float_le (x y : float) : bool := SFleb x y.

(** [float(n)] for an [int]; an overflow shows as an infinity here. *)
Definition float_of_int (n : Z) : float := binary_normalize 53 1024 n 0 false.

Definition isfinite (x : float) : bool :=
  match x with S754_zero _ | S754_finite _ _ _ => true | _ => false end.

(** [x == n] for a float and an [int]: Python compares the exact values. *)
Definition float_eq_int (x : float) (n : Z) : bool :=
  match x with
  | S754_zero _ => n =? 0
  | S754_finite s m e =>
    let v := if s then Z.neg m else Z.pos m in
    if 0 <=? e then v * 2 ^ e =? n else v =? n * 2 ^ (- e)
  | _ => false
  end.

(** A clock argument: an [int], a [float], or a value of another type. *)
Inductive clock_value :=
| NowInt (n : Z)
| NowFloat (x : float)
| NowOther.

#[export] Instance float_eq_dec : EqDecision float.
Proof. solve_decision. Defined.

Example float_of_int_1 : float_of_int 90 = S754_finite false 6333186975989760 (-46).
Proof. reflexivity. Qed.

Example float_sub_ex : float_sub (float_of_int 91) (float_of_int 1) = float_of_int 90.
Proof. reflexivity. Qed.

Example float_inexact_int : float_eq_int (float_of_int (2 ^ 53 + 1)) (2 ^ 53 + 1) = false.
Proof. reflexivity. Qed.

Lemma float_lt_irrefl x : float_lt x x = false.
Proof.
  unfold float_lt, SFltb, SFcompare.
  destruct x as [s|s| |s m e]; [done|by destruct s|done|].
  destruct s; rewrite Z.compare_refl; by rewrite ?Pos.compare_cont_refl.
Qed.
