(* ===== verification/PttGuard.v ===== *)
(** * PTT duplex guard: [packages/contracts/.../poc/framing.py], the session side

    [PttDuplexGuard], the fail-closed supervisor of one push-to-talk turn, with
    every field of the class: the state and the state late frames are judged in,
    one sequence counter and one [_MediaStats] per direction, the last clock
    reading, the outcome and its latch.  [accept], [finish] and [abort] are the
    methods of the class; a failed check goes through [_fail]. *)

From S2P Require Import Prelude ContractBase PttFraming PyFloat.

Definition MAX_TRANSPORT_PCM_FRAME_BYTES : Z := 6400.
Definition MAX_DIRECTION_BYTES : Z := 8388608.
Definition MAX_MEDIA_SAMPLES : Z := 16000 * 90.
Definition MAX_MEDIA_WALL_SECONDS : float := float_of_int 90.
Definition MAX_PCM_FRAMES_PER_SECOND : Z := 50.

Definition TRANSPORT_AUDIO_FORMAT : AudioFormat := mkAudioFormat S16Le 16000 1 false Mono.

Inductive StreamDirection := EDGE_TO_CORE | CORE_TO_EDGE.
Inductive GuardDisposition := ACCEPTED | LATE_DISCARDED.
Inductive PttSessionOutcome :=
| COMPLETED | CANCELLED | PEER_CLOSED | PROTOCOL_REJECTED | CAPTURE_FAILED
| PROVIDER_FAILED | PLAYBACK_FAILED | CLEANUP_INCOMPLETE | SESSION_TIMEOUT.

Inductive DuplexState :=
| WAIT_SESSION_OPEN | WAIT_SESSION_READY | READY | ARMING | ARMING_SUBMIT_PENDING
| CAPTURING | CAPTURE_SUBMIT_PENDING | CAPTURE_CLOSED | PLAYING | PLAYBACK_CLOSED
| CLEANUP_REQUIRED | RECEIPT_RECEIVED | ACKNOWLEDGED | ABORTED.

#[export] Instance StreamDirection_eq_dec : EqDecision StreamDirection.
Proof. solve_decision. Defined.
#[export] Instance PttSessionOutcome_eq_dec : EqDecision PttSessionOutcome.
Proof. solve_decision. Defined.
#[export] Instance DuplexState_eq_dec : EqDecision DuplexState.
Proof. solve_decision. Defined.

Record MediaStats := mkMedia {
  byte_count : Z;
  sample_count : Z;
  wall_started_at : option float;
  frame_times : list float;
  ended : bool;
}.
Definition new_media : MediaStats := mkMedia 0 0 None [] false.

Record Guard := mkGuard {
  g_turn_id : UUID;
  g_input_mode : PttInputMode;
  g_state : DuplexState;
  g_late_state : DuplexState;
  g_next_sequence : StreamDirection → Z;
  g_media : StreamDirection → MediaStats;
  g_last_now : option float;
  g_closed : bool;
  g_outcome : PttSessionOutcome;
  g_cleanup_latched : bool;
  g_receipt_complete : option bool;
  g_ptt_started : bool;
  g_ptt_submitted : bool;
}.

Definition new_guard (turn_id : UUID) (input_mode : PttInputMode) : Guard :=
  mkGuard turn_id input_mode WAIT_SESSION_OPEN WAIT_SESSION_OPEN (λ _, 0) (λ _, new_media)
    None false COMPLETED false None false false.

(** Field assignments. *)
Definition fupd {A} (f : StreamDirection → A) (d : StreamDirection) (v : A) :
    StreamDirection → A := λ d', if decide (d' = d) then v else f d'.

Definition set_state x g := mkGuard (g_turn_id g) (g_input_mode g) x (g_late_state g)
  (g_next_sequence g) (g_media g) (g_last_now g) (g_closed g) (g_outcome g)
  (g_cleanup_latched g) (g_receipt_complete g) (g_ptt_started g) (g_ptt_submitted g).
Definition set_late_state x g := mkGuard (g_turn_id g) (g_input_mode g) (g_state g) x
  (g_next_sequence g) (g_media g) (g_last_now g) (g_closed g) (g_outcome g)
  (g_cleanup_latched g) (g_receipt_complete g) (g_ptt_started g) (g_ptt_submitted g).
Definition set_next_sequence d x g := mkGuard (g_turn_id g) (g_input_mode g) (g_state g)
  (g_late_state g) (fupd (g_next_sequence g) d x) (g_media g) (g_last_now g) (g_closed g)
  (g_outcome g) (g_cleanup_latched g) (g_receipt_complete g) (g_ptt_started g)
  (g_ptt_submitted g).
Definition set_media d x g := mkGuard (g_turn_id g) (g_input_mode g) (g_state g)
  (g_late_state g) (g_next_sequence g) (fupd (g_media g) d x) (g_last_now g) (g_closed g)
  (g_outcome g) (g_cleanup_latched g) (g_receipt_complete g) (g_ptt_started g)
  (g_ptt_submitted g).
Definition set_last_now x g := mkGuard (g_turn_id g) (g_input_mode g) (g_state g)
  (g_late_state g) (g_next_sequence g) (g_media g) (Some x) (g_closed g) (g_outcome g)
  (g_cleanup_latched g) (g_receipt_complete g) (g_ptt_started g) (g_ptt_submitted g).
Definition set_closed x g := mkGuard (g_turn_id g) (g_input_mode g) (g_state g)
  (g_late_state g) (g_next_sequence g) (g_media g) (g_last_now g) x (g_outcome g)
  (g_cleanup_latched g) (g_receipt_complete g) (g_ptt_started g) (g_ptt_submitted g).
Definition set_outcome x g := mkGuard (g_turn_id g) (g_input_mode g) (g_state g)
  (g_late_state g) (g_next_sequence g) (g_media g) (g_last_now g) (g_closed g) x
  (g_cleanup_latched g) (g_receipt_complete g) (g_ptt_started g) (g_ptt_submitted g).
Definition set_cleanup_latched x g := mkGuard (g_turn_id g) (g_input_mode g) (g_state g)
  (g_late_state g) (g_next_sequence g) (g_media g) (g_last_now g) (g_closed g) (g_outcome g)
  x (g_receipt_complete g) (g_ptt_started g) (g_ptt_submitted g).
Definition set_receipt_complete x g := mkGuard (g_turn_id g) (g_input_mode g) (g_state g)
  (g_late_state g) (g_next_sequence g) (g_media g) (g_last_now g) (g_closed g) (g_outcome g)
  (g_cleanup_latched g) (Some x) (g_ptt_started g) (g_ptt_submitted g).
Definition set_ptt_started x g := mkGuard (g_turn_id g) (g_input_mode g) (g_state g)
  (g_late_state g) (g_next_sequence g) (g_media g) (g_last_now g) (g_closed g) (g_outcome g)
  (g_cleanup_latched g) (g_receipt_complete g) x (g_ptt_submitted g).
Definition set_ptt_submitted x g := mkGuard (g_turn_id g) (g_input_mode g) (g_state g)
  (g_late_state g) (g_next_sequence g) (g_media g) (g_last_now g) (g_closed g) (g_outcome g)
  (g_cleanup_latched g) (g_receipt_complete g) (g_ptt_started g) x.

(** ** Kind sets *)

Definition in_kinds (ks : list ControlKind) (k : ControlKind) : bool := bool_decide (k ∈ ks).

Definition _CORE_CONTROL_KINDS : list ControlKind :=
  [SESSION_OPEN; PTT_START; PTT_SUBMIT; HEARTBEAT; PLAYBACK_START; PLAYBACK_END; ABORT;
   SAFETY_ACK; ERROR].
Definition _EDGE_CONTROL_KINDS : list ControlKind :=
  [SESSION_READY; CAPTURE_START; CAPTURE_END; STOP; CANCEL; SAFETY_RECEIPT; ERROR].
Definition _CLEANUP_KINDS : list ControlKind := [STOP; CANCEL; ABORT; ERROR].
Definition _LATE_CONTROL_KINDS : list ControlKind :=
  [SESSION_READY; PTT_START; PTT_SUBMIT; HEARTBEAT; CAPTURE_START; CAPTURE_END;
   PLAYBACK_START; PLAYBACK_END].

Definition _REASON_OUTCOMES (r : PttErrorReason) : PttSessionOutcome :=
  match r with
  | R_PROTOCOL_REJECTED => PROTOCOL_REJECTED
  | R_TURN_CANCELLED => CANCELLED
  | R_CAPTURE_FAILED => CAPTURE_FAILED
  | R_PROVIDER_FAILED => PROVIDER_FAILED
  | R_PLAYBACK_FAILED => PLAYBACK_FAILED
  | R_CLEANUP_INCOMPLETE => CLEANUP_INCOMPLETE
  | R_PEER_CLOSED => PEER_CLOSED
  | R_SESSION_TIMEOUT => SESSION_TIMEOUT
  end.

(** ** Methods *)

Abbreviation G := (M Guard FrameErrorCode).

Definition _fail {A} (code : FrameErrorCode) : G A :=
  _ ← modify (set_state ABORTED); _ ← modify (set_closed true); raise code.

Definition fail_if (c : bool) (code : FrameErrorCode) : G unit :=
  if c then _fail code else mret tt.

Definition _require_open : G unit := closed ← gets g_closed; raise_if closed CLOSED.

Definition _validate_clock (now : clock_value) : G float :=
  normalized ← match now with
               | NowInt n =>
                 let x := float_of_int n in
                 _ ← fail_if (negb (isfinite x) || negb (float_eq_int x n)) INVALID_CLOCK;
                 mret x
               | NowFloat x => _ ← fail_if (negb (isfinite x)) INVALID_CLOCK; mret x
               | NowOther => _fail INVALID_CLOCK
               end;
  last ← gets g_last_now;
  _ ← fail_if (match last with Some l => float_lt normalized l | None => false end)
        INVALID_CLOCK;
  _ ← modify (set_last_now normalized);
  mret normalized.

Definition _validate_frame (direction : StreamDirection) (frame : WireFrame) : G unit :=
  turn_id ← gets g_turn_id;
  _ ← fail_if (negb (f_turn_id frame =? turn_id)) TURN_MISMATCH;
  expected ← gets (λ g, g_next_sequence g direction);
  _ ← fail_if (negb (f_sequence frame =? expected) || (UINT32_MAX <? expected)) INVALID_SEQUENCE;
  match frame with
  | ControlFrame _ _ control =>
    let allowed := match direction with
                   | CORE_TO_EDGE => _CORE_CONTROL_KINDS
                   | EDGE_TO_CORE => _EDGE_CONTROL_KINDS
                   end in
    fail_if (negb (in_kinds allowed (c_kind control))) INVALID_DIRECTION
  | PcmFrame _ _ _ => mret tt
  end.

Definition _advance_sequence (direction : StreamDirection) : G unit :=
  n ← gets (λ g, g_next_sequence g direction);
  modify (set_next_sequence direction (n + 1)).

Definition _start_media (direction : StreamDirection) (now : float) : G unit :=
  stats ← gets (λ g, g_media g direction);
  _ ← fail_if (bool_decide (is_Some (wall_started_at stats)) || ended stats) INVALID_ORDER;
  modify (set_media direction
    (mkMedia (byte_count stats) (sample_count stats) (Some now) (frame_times stats)
       (ended stats))).

Definition _require_wall (direction : StreamDirection) (now : float) : G MediaStats :=
  stats ← gets (λ g, g_media g direction);
  match wall_started_at stats with
  | None => _fail INVALID_ORDER
  | Some started =>
    _ ← fail_if (ended stats) INVALID_ORDER;
    _ ← fail_if (float_lt MAX_MEDIA_WALL_SECONDS (float_sub now started)) DURATION_LIMIT;
    mret stats
  end.

(** [while frame_times and frame_times[0] < cutoff: popleft()]. *)
Fixpoint drop_before (cutoff : float) (times : list float) : list float :=
  match times with
  | t :: rest => if float_lt t cutoff then drop_before cutoff rest else times
  | [] => []
  end.

Definition _admit_pcm (direction : StreamDirection) (pcm : list byte) (now : float) : G unit :=
  stats ← _require_wall direction now;
  let pcm_bytes := len pcm in
  _ ← fail_if (MAX_TRANSPORT_PCM_FRAME_BYTES <? pcm_bytes) PCM_LIMIT;
  _ ← fail_if (MAX_DIRECTION_BYTES <? byte_count stats + pcm_bytes) PCM_LIMIT;
  let samples := pcm_bytes / 2 in
  _ ← fail_if (MAX_MEDIA_SAMPLES <? sample_count stats + samples) DURATION_LIMIT;
  let cutoff := float_sub now (float_of_int 1) in
  let times := drop_before cutoff (frame_times stats) in
  _ ← modify (set_media direction
        (mkMedia (byte_count stats) (sample_count stats) (wall_started_at stats) times
           (ended stats)));
  _ ← fail_if (MAX_PCM_FRAMES_PER_SECOND <=? len times) RATE_LIMIT;
  modify (set_media direction
    (mkMedia (byte_count stats + pcm_bytes) (sample_count stats + samples)
       (wall_started_at stats) (times ++ [now]) (ended stats))).

Definition _end_media (direction : StreamDirection) (now : float) : G unit :=
  stats ← _require_wall direction now;
  _ ← fail_if (sample_count stats =? 0) INVALID_ORDER;
  modify (set_media direction
    (mkMedia (byte_count stats) (sample_count stats) (wall_started_at stats)
       (frame_times stats) true)).

(** [_require_transport_start], its exception passed on to [_fail]. *)
Definition _require_transport_start (control : PttControl) : G unit :=
  match c_payload control with
  | StartPayload f => fail_if (negb (bool_decide (f = TRANSPORT_AUDIO_FORMAT))) INVALID_CONTROL
  | _ => _fail INVALID_CONTROL
  end.

Definition _latch_cleanup (control : PttControl) : G unit :=
  state ← gets g_state;
  _ ← match state with
      | CLEANUP_REQUIRED | RECEIPT_RECEIVED => mret tt
      | _ => modify (set_late_state state)
      end;
  latched ← gets g_cleanup_latched;
  _ ← (if (latched : bool) then mret tt
       else
         _ ← match c_kind control, c_payload control with
             | STOP, _ | CANCEL, _ => modify (set_outcome CANCELLED)
             | _, ErrorPayload reason => modify (set_outcome (_REASON_OUTCOMES reason))
             | _, _ => mret tt
             end;
         modify (set_cleanup_latched true));
  match state with
  | RECEIPT_RECEIVED => mret tt
  | _ => modify (set_state CLEANUP_REQUIRED)
  end.

Definition is_heartbeat_state (s : DuplexState) : bool :=
  match s with
  | WAIT_SESSION_READY | READY | ARMING | ARMING_SUBMIT_PENDING | CAPTURING
  | CAPTURE_SUBMIT_PENDING | CAPTURE_CLOSED | PLAYING | PLAYBACK_CLOSED => true
  | _ => false
  end.

Definition require_session_payload (control : PttControl) : G unit :=
  input_mode ← gets g_input_mode;
  match c_payload control with
  | SessionPayload m => fail_if (negb (bool_decide (m = input_mode))) INVALID_ORDER
  | _ => _fail INVALID_CONTROL
  end.

Definition accept_receipt (control : PttControl) : G unit :=
  match c_payload control with
  | SafetyPayload receipt =>
    _ ← modify (set_receipt_complete (is_complete receipt));
    modify (set_state RECEIPT_RECEIVED)
  | _ => _fail INVALID_CONTROL
  end.

Definition _accept_normal_control (direction : StreamDirection) (control : PttControl)
    (now : float) : G GuardDisposition :=
  let kind := c_kind control in
  if in_kinds _CLEANUP_KINDS kind then _ ← _latch_cleanup control; mret ACCEPTED
  else
  state ← gets g_state;
  input_mode ← gets g_input_mode;
  match kind with
  | HEARTBEAT => _ ← fail_if (negb (is_heartbeat_state state)) INVALID_ORDER; mret ACCEPTED
  | _ =>
  match state with
  | WAIT_SESSION_OPEN =>
    _ ← fail_if (negb (bool_decide (kind = SESSION_OPEN ∧ direction = CORE_TO_EDGE)))
          INVALID_ORDER;
    _ ← require_session_payload control;
    _ ← modify (set_state WAIT_SESSION_READY); mret ACCEPTED
  | WAIT_SESSION_READY =>
    _ ← fail_if (negb (bool_decide (kind = SESSION_READY ∧ direction = EDGE_TO_CORE)))
          INVALID_ORDER;
    _ ← require_session_payload control;
    _ ← modify (set_state READY); mret ACCEPTED
  | READY =>
    match input_mode, kind with
    | CORE_TERMINAL_TOGGLE, PTT_START =>
      _ ← modify (set_ptt_started true); _ ← modify (set_state ARMING); mret ACCEPTED
    | REACHY_LOCAL, CAPTURE_START =>
      _ ← _require_transport_start control;
      _ ← _start_media EDGE_TO_CORE now;
      _ ← modify (set_state CAPTURING); mret ACCEPTED
    | _, _ => _fail INVALID_ORDER
    end
  | ARMING =>
    match kind with
    | PTT_SUBMIT =>
      _ ← modify (set_ptt_submitted true);
      _ ← modify (set_state ARMING_SUBMIT_PENDING); mret ACCEPTED
    | CAPTURE_START =>
      _ ← _require_transport_start control;
      _ ← _start_media EDGE_TO_CORE now;
      _ ← modify (set_state CAPTURING); mret ACCEPTED
    | _ => _fail INVALID_ORDER
    end
  | ARMING_SUBMIT_PENDING =>
    match kind with
    | CAPTURE_START =>
      _ ← _require_transport_start control;
      _ ← _start_media EDGE_TO_CORE now;
      _ ← modify (set_state CAPTURE_SUBMIT_PENDING); mret ACCEPTED
    | _ => _fail INVALID_ORDER
    end
  | CAPTURING =>
    match kind, input_mode with
    | PTT_SUBMIT, CORE_TERMINAL_TOGGLE =>
      _ ← modify (set_ptt_submitted true);
      _ ← modify (set_state CAPTURE_SUBMIT_PENDING); mret ACCEPTED
    | CAPTURE_END, REACHY_LOCAL =>
      _ ← _end_media EDGE_TO_CORE now;
      _ ← modify (set_state CAPTURE_CLOSED); mret ACCEPTED
    | _, _ => _fail INVALID_ORDER
    end
  | CAPTURE_SUBMIT_PENDING =>
    match kind with
    | CAPTURE_END =>
      _ ← _end_media EDGE_TO_CORE now;
      _ ← modify (set_state CAPTURE_CLOSED); mret ACCEPTED
    | _ => _fail INVALID_ORDER
    end
  | CAPTURE_CLOSED =>
    match kind with
    | PLAYBACK_START =>
      _ ← _require_transport_start control;
      _ ← _start_media CORE_TO_EDGE now;
      _ ← modify (set_state PLAYING); mret ACCEPTED
    | _ => _fail INVALID_ORDER
    end
  | PLAYING =>
    match kind with
    | PLAYBACK_END =>
      _ ← _end_media CORE_TO_EDGE now;
      _ ← modify (set_state PLAYBACK_CLOSED); mret ACCEPTED
    | _ => _fail INVALID_ORDER
    end
  | PLAYBACK_CLOSED =>
    match kind with
    | SAFETY_RECEIPT => _ ← accept_receipt control; mret ACCEPTED
    | _ => _fail INVALID_ORDER
    end
  | _ => _fail INVALID_ORDER
  end
  end.

(** The state checks of a PCM frame, in the state the frame is judged in. *)
Definition pcm_state_ok (direction : StreamDirection) (s : DuplexState) : bool :=
  match direction, s with
  | EDGE_TO_CORE, CAPTURING | CORE_TO_EDGE, PLAYING => true
  | EDGE_TO_CORE, CAPTURE_SUBMIT_PENDING => true
  | _, _ => false
  end.

Definition is_cleanup_or_final (s : DuplexState) : bool :=
  match s with
  | CLEANUP_REQUIRED | RECEIPT_RECEIVED | ACKNOWLEDGED | ABORTED => true
  | _ => false
  end.

Definition _accept_late_progress (direction : StreamDirection) (frame : WireFrame)
    (now : float) : G GuardDisposition :=
  match frame with
  | PcmFrame _ _ pcm =>
    late ← gets g_late_state;
    _ ← fail_if (negb (pcm_state_ok direction late)) INVALID_ORDER;
    _ ← _admit_pcm direction pcm now;
    mret LATE_DISCARDED
  | ControlFrame _ _ control =>
    _ ← fail_if (negb (in_kinds _LATE_CONTROL_KINDS (c_kind control))) INVALID_ORDER;
    cleanup_state ← gets g_state;
    late ← gets g_late_state;
    _ ← modify (set_state late);
    _ ← _accept_normal_control direction control now;
    state ← gets g_state;
    _ ← fail_if (is_cleanup_or_final state) INVALID_ORDER;
    _ ← modify (set_late_state state);
    _ ← modify (set_state cleanup_state);
    mret LATE_DISCARDED
  end.

Definition _accept_cleanup_phase (direction : StreamDirection) (frame : WireFrame)
    (now : float) : G GuardDisposition :=
  match frame with
  | PcmFrame _ _ _ => _accept_late_progress direction frame now
  | ControlFrame _ _ control =>
    state ← gets g_state;
    if in_kinds _CLEANUP_KINDS (c_kind control)
    then _ ← _latch_cleanup control; mret ACCEPTED
    else
    match c_kind control, state with
    | SAFETY_RECEIPT, CLEANUP_REQUIRED => _ ← accept_receipt control; mret ACCEPTED
    | SAFETY_ACK, RECEIPT_RECEIVED =>
      receipt ← gets g_receipt_complete;
      match c_payload control, receipt with
      | AckPayload accepted, Some complete =>
        _ ← fail_if (accepted && negb complete) INVALID_ORDER;
        _ ← (if accepted then mret tt else modify (set_outcome CLEANUP_INCOMPLETE));
        _ ← modify (set_state ACKNOWLEDGED);
        mret ACCEPTED
      | _, _ => _fail INVALID_CONTROL
      end
    | _, _ => _accept_late_progress direction frame now
    end
  end.

Record GuardedFrame := mkGuarded {
  gf_direction : StreamDirection;
  gf_frame : WireFrame;
  gf_disposition : GuardDisposition;
}.

Definition dispatch (direction : StreamDirection) (frame : WireFrame) (now : float) :
    G GuardDisposition :=
  state ← gets g_state;
  match state, frame with
  | CLEANUP_REQUIRED, _ | RECEIPT_RECEIVED, _ => _accept_cleanup_phase direction frame now
  | _, PcmFrame _ _ pcm =>
    _ ← fail_if (negb (pcm_state_ok direction state)) INVALID_ORDER;
    _ ← _admit_pcm direction pcm now;
    mret ACCEPTED
  | _, ControlFrame _ _ control => _accept_normal_control direction control now
  end.

Definition accept (direction : StreamDirection) (frame : WireFrame) (now : clock_value) :
    G GuardedFrame :=
  _ ← _require_open;
  normalized_now ← _validate_clock now;
  _ ← _validate_frame direction frame;
  state ← gets g_state;
  _ ← fail_if (bool_decide (state = ACKNOWLEDGED)) INVALID_ORDER;
  disposition ← dispatch direction frame normalized_now;
  state' ← gets g_state;
  _ ← (if is_cleanup_or_final state' then mret tt else modify (set_late_state state'));
  _ ← _advance_sequence direction;
  mret (mkGuarded direction frame disposition).

Definition guard_finish : G PttSessionOutcome :=
  _ ← _require_open;
  state ← gets g_state;
  _ ← fail_if (negb (bool_decide (state = ACKNOWLEDGED))) INVALID_ORDER;
  _ ← modify (set_closed true);
  gets g_outcome.

Definition guard_abort : G unit :=
  _ ← modify (set_state ABORTED); modify (set_closed true).

(** ** Reasoning about the methods *)

Definition failed (g : Guard) : Guard := set_closed true (set_state ABORTED g).

Lemma wp_fail {A} code (Q : A → Guard → Prop) R g : R code (failed g) → wp (_fail code) Q R g.
Proof. done. Qed.

Lemma wp_fail_if c code (Q : unit → Guard → Prop) R g :
  (c = false → Q tt g) → (c = true → R code (failed g)) → wp (fail_if c code) Q R g.
Proof. destruct c; unfold wp; simpl; auto. Qed.

Ltac gstep :=
  lazymatch goal with
  | |- wp (_fail _) _ _ _ => apply wp_fail
  | |- wp (fail_if _ _) _ _ _ => apply wp_fail_if; intros
  | |- _ => wp_step
  end.
Ltac gsteps := repeat (cbn beta iota; gstep).

(** Bounds a direction's counters keep. *)
Definition media_ok (m : MediaStats) : Prop :=
  0 ≤ byte_count m ≤ MAX_DIRECTION_BYTES ∧ 0 ≤ sample_count m ≤ MAX_MEDIA_SAMPLES ∧
  len (frame_times m) ≤ MAX_PCM_FRAMES_PER_SECOND.

Definition media_idle (m : MediaStats) : Prop :=
  wall_started_at m = None ∧ ended m = false ∧ sample_count m = 0.
Definition media_running (m : MediaStats) : Prop :=
  is_Some (wall_started_at m) ∧ ended m = false.
Definition media_finished (m : MediaStats) : Prop := ended m = true ∧ 0 < sample_count m.

(** What each state of the turn says about the two streams: playback starts only
    after capture ended with sound, and so on. *)
Definition media_phase (s : DuplexState) (media : StreamDirection → MediaStats) : Prop :=
  match s with
  | WAIT_SESSION_OPEN | WAIT_SESSION_READY | READY | ARMING | ARMING_SUBMIT_PENDING =>
    media_idle (media EDGE_TO_CORE) ∧ media_idle (media CORE_TO_EDGE)
  | CAPTURING | CAPTURE_SUBMIT_PENDING =>
    media_running (media EDGE_TO_CORE) ∧ media_idle (media CORE_TO_EDGE)
  | CAPTURE_CLOSED => media_finished (media EDGE_TO_CORE) ∧ media_idle (media CORE_TO_EDGE)
  | PLAYING => media_finished (media EDGE_TO_CORE) ∧ media_running (media CORE_TO_EDGE)
  | PLAYBACK_CLOSED => media_finished (media EDGE_TO_CORE) ∧ media_finished (media CORE_TO_EDGE)
  | _ => False
  end.

(** The state the media are in: the late one once cleanup began. *)
Definition effective (g : Guard) : DuplexState :=
  match g_state g with
  | CLEANUP_REQUIRED | RECEIPT_RECEIVED | ACKNOWLEDGED => g_late_state g
  | s => s
  end.

(** What holds of a guard at all times, failed or not. *)
Record guard_core (g : Guard) : Prop := {
  gc_media : ∀ d, media_ok (g_media g d);
  gc_sequence : ∀ d, 0 ≤ g_next_sequence g d ≤ UINT32_MAX + 1;
}.

(** What holds of a guard that has not failed, between two calls. *)
Record guard_inv (g : Guard) : Prop := {
  gi_core : guard_core g;
  gi_phase : media_phase (effective g) (g_media g);
  gi_late : is_cleanup_or_final (g_state g) = false →
    g_late_state g = g_state g ∧ g_outcome g = COMPLETED ∧ g_cleanup_latched g = false;
  gi_cleanup : g_state g = CLEANUP_REQUIRED → g_cleanup_latched g = true;
  gi_unlatched : is_cleanup_or_final (g_state g) = true → g_cleanup_latched g = false →
    g_late_state g = PLAYBACK_CLOSED;
  gi_outcome : g_state g ≠ ACKNOWLEDGED → g_cleanup_latched g = false →
    g_outcome g = COMPLETED;
  gi_latched : g_cleanup_latched g = true → g_outcome g ≠ COMPLETED;
  gi_receipt : g_state g = ACKNOWLEDGED → g_outcome g = COMPLETED →
    g_receipt_complete g = Some true;
}.

(** Every failure ends here. *)
Definition aborted (code : FrameErrorCode) (g : Guard) : Prop :=
  g_state g = ABORTED ∧ g_closed g = true ∧ guard_core g.

Lemma failed_aborted code g : guard_core g → aborted code (failed g).
Proof. by intros [??]. Qed.
#[local] Hint Resolve failed_aborted : core.

(** Setters other than the media's and the sequence's keep [guard_core]. *)
Lemma core_same g g' :
  g_media g' = g_media g → g_next_sequence g' = g_next_sequence g →
  guard_core g → guard_core g'.
Proof. intros Hm Hs [H1 H2]. constructor; rewrite ?Hm, ?Hs; auto. Qed.

Lemma fupd_eq {A} (f : StreamDirection → A) d v : fupd f d v d = v.
Proof. unfold fupd. by rewrite decide_True. Qed.
Lemma fupd_ne {A} (f : StreamDirection → A) d d' v : d' ≠ d → fupd f d v d' = f d'.
Proof. intros. unfold fupd. by rewrite decide_False. Qed.

Lemma core_set_media d m g : media_ok m → guard_core g → guard_core (set_media d m g).
Proof.
  intros Hm [H1 H2]. constructor; simpl; [|done].
  intros d'. unfold fupd. case_decide; auto.
Qed.

Lemma core_state_media s d m g :
  media_ok m → guard_core g → guard_core (set_state s (set_media d m g)).
Proof. intros Hm Hc. destruct (core_set_media d m g Hm Hc). by constructor. Qed.

Lemma length_drop_before cutoff times : len (drop_before cutoff times) ≤ len times.
Proof.
  induction times as [|t times IH]; simpl; [done|].
  destruct (float_lt t cutoff); rewrite !len_cons in *; lia.
Qed.

(** ** Skeletons of a turn: the control kinds that led to a state *)

Definition paths (m : PttInputMode) (s : DuplexState) : list (list ControlKind) :=
  let ready := [SESSION_OPEN; SESSION_READY] in
  let closed := match m with
    | REACHY_LOCAL => [ready ++ [CAPTURE_START; CAPTURE_END]]
    | CORE_TERMINAL_TOGGLE =>
      [ready ++ [PTT_START; PTT_SUBMIT; CAPTURE_START; CAPTURE_END];
       ready ++ [PTT_START; CAPTURE_START; PTT_SUBMIT; CAPTURE_END]]
    end in
  let after ks := map (λ p, p ++ ks) closed in
  match s, m with
  | WAIT_SESSION_OPEN, _ => [[]]
  | WAIT_SESSION_READY, _ => [[SESSION_OPEN]]
  | READY, _ => [ready]
  | ARMING, CORE_TERMINAL_TOGGLE => [ready ++ [PTT_START]]
  | ARMING_SUBMIT_PENDING, CORE_TERMINAL_TOGGLE => [ready ++ [PTT_START; PTT_SUBMIT]]
  | CAPTURING, REACHY_LOCAL => [ready ++ [CAPTURE_START]]
  | CAPTURING, CORE_TERMINAL_TOGGLE => [ready ++ [PTT_START; CAPTURE_START]]
  | CAPTURE_SUBMIT_PENDING, CORE_TERMINAL_TOGGLE =>
    [ready ++ [PTT_START; PTT_SUBMIT; CAPTURE_START];
     ready ++ [PTT_START; CAPTURE_START; PTT_SUBMIT]]
  | CAPTURE_CLOSED, _ => closed
  | PLAYING, _ => after [PLAYBACK_START]
  | PLAYBACK_CLOSED, _ => after [PLAYBACK_START; PLAYBACK_END]
  | RECEIPT_RECEIVED, _ => after [PLAYBACK_START; PLAYBACK_END; SAFETY_RECEIPT]
  | ACKNOWLEDGED, _ => after [PLAYBACK_START; PLAYBACK_END; SAFETY_RECEIPT; SAFETY_ACK]
  | _, _ => []
  end.

Definition path_step (m : PttInputMode) (s : DuplexState) (k : ControlKind) (s' : DuplexState) :
    bool :=
  if decide (k = HEARTBEAT) then bool_decide (s' = s)
  else forallb (λ p, bool_decide (p ++ [k] ∈ paths m s')) (paths m s).

(** ** The methods keep the invariant *)

Definition same_counts (g g' : Guard) : Prop := ∀ d,
  byte_count (g_media g' d) = byte_count (g_media g d) ∧
  sample_count (g_media g' d) = sample_count (g_media g d).

Definition same_session (g g' : Guard) : Prop :=
  g_turn_id g' = g_turn_id g ∧ g_input_mode g' = g_input_mode g ∧
  g_next_sequence g' = g_next_sequence g ∧ g_closed g' = g_closed g.

Definition receipt_after (k : ControlKind) (p : PttPayload) (before : option bool) :
    option bool :=
  match k, p with
  | SAFETY_RECEIPT, SafetyPayload r => Some (is_complete r)
  | _, _ => before
  end.

(** A normal control other than a cleanup one. *)
Record normal_step (c : PttControl) (g g' : Guard) : Prop := {
  ns_core : guard_core g';
  ns_session : same_session g g';
  ns_counts : same_counts g g';
  ns_late : g_late_state g' = g_late_state g;
  ns_outcome : g_outcome g' = g_outcome g;
  ns_latched : g_cleanup_latched g' = g_cleanup_latched g;
  ns_receipt : g_receipt_complete g' =
    receipt_after (c_kind c) (c_payload c) (g_receipt_complete g);
  ns_path : path_step (g_input_mode g) (g_state g) (c_kind c) (g_state g') = true;
  ns_phase : media_phase (g_state g') (g_media g') ∨
    (g_state g' = RECEIPT_RECEIVED ∧ g_state g = PLAYBACK_CLOSED ∧ g_media g' = g_media g);
  ns_closed : g_state g = PLAYBACK_CLOSED → c_kind c = HEARTBEAT ∨ c_kind c = SAFETY_RECEIPT;
  ns_kind : c_kind c ≠ SAFETY_ACK;
}.

Lemma media_ok_running m now : media_ok m →
  media_ok (mkMedia (byte_count m) (sample_count m) (Some now) (frame_times m) (ended m)).
Proof. done. Qed.
Lemma media_ok_ended m : media_ok m →
  media_ok (mkMedia (byte_count m) (sample_count m) (wall_started_at m) (frame_times m) true).
Proof. done. Qed.
#[local] Hint Resolve core_set_media media_ok_running media_ok_ended gc_media : core.

Ltac normal_case Hc :=
  split; [done|]; constructor; simpl;
  repeat match goal with
  | H : g_state _ = _ |- _ => rewrite H in *; revert H
  | H : c_kind _ = _ |- _ => rewrite H in *; revert H
  | H : c_payload _ = _ |- _ => rewrite H in *; revert H
  end; intros;
  [ first [ exact Hc
          | eapply core_same; [| |exact Hc]; done
          | apply core_state_media; [|exact Hc]; auto ]
  | done
  | intros []; done
  | done | done | done | done
  | destruct (g_input_mode _); done
  | first [done | left; unfold fupd; simpl; unfold media_running, media_finished in *;
                  simpl; naive_solver eauto with lia | right; done]
  | first [done | by left | by right]
  | done ].

Lemma wp_normal_control d c now g :
  guard_core g → media_phase (g_state g) (g_media g) →
  in_kinds _CLEANUP_KINDS (c_kind c) = false →
  wp (_accept_normal_control d c now) (λ r g', r = ACCEPTED ∧ normal_step c g g') aborted g.
Proof.
  intros Hc Hp Hk.
  assert (∀ d', 0 ≤ sample_count (g_media g d')) as Hnn by (intros d'; apply (gc_media g Hc d')).
  pose proof (Hnn EDGE_TO_CORE). pose proof (Hnn CORE_TO_EDGE). clear Hnn.
  unfold _accept_normal_control, require_session_payload, _require_transport_start,
    _start_media, _end_media, _require_wall, accept_receipt.
  rewrite Hk. apply wp_bind, wp_gets, wp_bind, wp_gets.
  destruct (g_state g) eqn:Hs; simpl in Hp; try done.
  all: destruct (c_kind c) eqn:Hkind; try done.
  all: gsteps; eauto 3; bool_props; try naive_solver; normal_case Hc.
Qed.

(** A frame's contribution to the totals, the receipt, the outcome. *)
Definition frame_bytes (f : WireFrame) : Z :=
  match f with PcmFrame _ _ pcm => len pcm | ControlFrame _ _ _ => 0 end.
Definition frame_samples (f : WireFrame) : Z := frame_bytes f / 2.
Definition is_cleanup (f : WireFrame) : bool :=
  match f with ControlFrame _ _ c => in_kinds _CLEANUP_KINDS (c_kind c) | _ => false end.
Definition is_refusal (f : WireFrame) : bool :=
  match f with
  | ControlFrame _ _ c =>
    match c_kind c, c_payload c with SAFETY_ACK, AckPayload false => true | _, _ => false end
  | _ => false
  end.
Definition frame_receipt (f : WireFrame) (before : option bool) : option bool :=
  match f with
  | ControlFrame _ _ c => receipt_after (c_kind c) (c_payload c) before
  | _ => before
  end.
Definition frame_path (m : PttInputMode) (s : DuplexState) (f : WireFrame) (s' : DuplexState) :
    bool :=
  match f with
  | ControlFrame _ _ c => path_step m s (c_kind c) s'
  | PcmFrame _ _ _ => bool_decide (s' = s)
  end.

(** [PttControl] validates its payload on construction. *)
Definition frame_wf (f : WireFrame) : Prop :=
  match f with ControlFrame _ _ c => exact_payload_for_kind c = Ok c | _ => True end.

Definition counts_add (d : StreamDirection) (f : WireFrame) (g g' : Guard) : Prop := ∀ d',
  byte_count (g_media g' d') =
    byte_count (g_media g d') + (if decide (d' = d) then frame_bytes f else 0) ∧
  sample_count (g_media g' d') =
    sample_count (g_media g d') + (if decide (d' = d) then frame_samples f else 0).

(** The late state [accept] records after a dispatch. *)
Definition settle (g : Guard) : Guard :=
  if is_cleanup_or_final (g_state g) then g else set_late_state (g_state g) g.

Record dispatch_step (d : StreamDirection) (f : WireFrame) (g g' : Guard) : Prop := {
  ds_inv : guard_inv (settle g');
  ds_session : same_session g g';
  ds_counts : counts_add d f g g';
  ds_latched : g_cleanup_latched g' = g_cleanup_latched g || is_cleanup f;
  ds_outcome : g_outcome g' = COMPLETED ↔
    g_outcome g = COMPLETED ∧ is_cleanup f = false ∧ is_refusal f = false;
  ds_receipt : g_receipt_complete g' = frame_receipt f (g_receipt_complete g);
  ds_path : g_cleanup_latched g' = false →
    frame_path (g_input_mode g) (g_state g) f (g_state g') = true;
}.

Lemma counts_add_control d t n c g g' :
  same_counts g g' → counts_add d (ControlFrame t n c) g g'.
Proof.
  intros H d'. destruct (H d') as [-> ->]. unfold frame_samples. simpl.
  case_decide; change (0 / 2) with 0; lia.
Qed.

Lemma core_settle g : guard_core g → guard_core (settle g).
Proof. intros H. unfold settle. destruct (is_cleanup_or_final _); [done|]. by apply (core_same g). Qed.

Lemma phase_not_final s media : media_phase s media → is_cleanup_or_final s = false.
Proof. by destruct s. Qed.

(** A guard in an ordinary state of the turn. *)
Lemma inv_ordinary g :
  guard_core g → media_phase (g_state g) (g_media g) → g_late_state g = g_state g →
  g_outcome g = COMPLETED → g_cleanup_latched g = false → guard_inv g.
Proof.
  intros Hc Hp Hl Ho Hu. pose proof (phase_not_final _ _ Hp) as Hf.
  constructor; rewrite ?Hf, ?Hu; try done.
  - unfold effective. by destruct (g_state g).
  - intros Hs. by rewrite Hs in Hf.
  - intros Hs. by rewrite Hs in Hf.
Qed.

Lemma inv_phase_ordinary g :
  guard_inv g → is_cleanup_or_final (g_state g) = false → media_phase (g_state g) (g_media g).
Proof. intros H Hf. pose proof (gi_phase g H) as Hp. unfold effective in Hp. by destruct (g_state g). Qed.

Lemma settle_ordinary g :
  guard_core g → media_phase (g_state g) (g_media g) →
  g_outcome g = COMPLETED → g_cleanup_latched g = false → guard_inv (settle g).
Proof.
  intros Hc Hp Ho Hu. unfold settle. rewrite (phase_not_final _ _ Hp).
  apply inv_ordinary; try done. by apply (core_same g).
Qed.

Lemma refusal_not_ack t n c : c_kind c ≠ SAFETY_ACK → is_refusal (ControlFrame t n c) = false.
Proof. intros H. simpl. by destruct (c_kind c). Qed.

Lemma normal_dispatch d t n c g g' :
  guard_inv g → is_cleanup_or_final (g_state g) = false →
  in_kinds _CLEANUP_KINDS (c_kind c) = false → normal_step c g g' →
  dispatch_step d (ControlFrame t n c) g g'.
Proof.
  intros Hi Hf Hk Hn. destruct (gi_late g Hi Hf) as (Hl & Ho & Hu).
  split; try apply Hn.
  - destruct (ns_phase c g g' Hn) as [Hp|(Hs & Hs' & Hm)].
    + apply settle_ordinary; [apply Hn|done|by rewrite (ns_outcome c g g' Hn)|].
      by rewrite (ns_latched c g g' Hn).
    + unfold settle. rewrite Hs. simpl.
      pose proof (ns_late c g g' Hn) as Hl'. rewrite Hl, Hs' in Hl'.
      pose proof (ns_outcome c g g' Hn). pose proof (ns_latched c g g' Hn).
      constructor; try apply Hn; rewrite ?Hs; try done; try congruence.
      unfold effective. rewrite Hs, Hl', Hm.
      pose proof (inv_phase_ordinary g Hi Hf) as Hp. by rewrite Hs' in Hp.
  - apply counts_add_control, Hn.
  - simpl. rewrite Hk, orb_false_r. apply Hn.
  - simpl. rewrite Hk, (ns_outcome c g g' Hn).
    pose proof (refusal_not_ack t n c (ns_kind c g g' Hn)) as Hr. simpl in Hr. rewrite Hr. naive_solver.
  - intros _. apply Hn.
Qed.

(** Cleanup controls. *)
Lemma latch_outcome c :
  exact_payload_for_kind c = Ok c → in_kinds _CLEANUP_KINDS (c_kind c) = true →
  (c_kind c = STOP ∨ c_kind c = CANCEL) ∨
  ((c_kind c = ABORT ∨ c_kind c = ERROR) ∧ ∃ r, c_payload c = ErrorPayload r).
Proof.
  unfold exact_payload_for_kind, in_kinds, _CLEANUP_KINDS. intros He Hk. bool_props.
  rewrite !elem_of_cons, elem_of_nil in Hk. destruct Hk as [Hk|[Hk|[Hk|[Hk|[]]]]]; auto.
  all: right; rewrite Hk in *; split; [auto|]; destruct (c_payload c); naive_solver.
Qed.

Lemma reason_not_completed r : _REASON_OUTCOMES r ≠ COMPLETED.
Proof. by destruct r. Qed.
#[local] Hint Resolve reason_not_completed : core.

Definition is_cleanup_phase (s : DuplexState) : bool :=
  match s with CLEANUP_REQUIRED | RECEIPT_RECEIVED => true | _ => false end.

(** What the cleanup latch does to a guard that has not failed. *)
Record latch_step (g g' : Guard) : Prop := {
  ls_state : g_state g' = (if decide (g_state g = RECEIPT_RECEIVED) then RECEIPT_RECEIVED
                           else CLEANUP_REQUIRED);
  ls_late : g_late_state g' = (if is_cleanup_phase (g_state g) then g_late_state g
                               else g_state g);
  ls_latched : g_cleanup_latched g' = true;
  ls_outcome : g_outcome g' ≠ COMPLETED;
  ls_media : g_media g' = g_media g;
  ls_receipt : g_receipt_complete g' = g_receipt_complete g;
  ls_session : same_session g g';
}.

Lemma wp_latch_cleanup c g :
  guard_inv g → exact_payload_for_kind c = Ok c → in_kinds _CLEANUP_KINDS (c_kind c) = true →
  wp (_latch_cleanup c) (λ _ g', latch_step g g') aborted g.
Proof.
  intros Hi He Hk. pose proof (gi_latched g Hi) as Hl.
  destruct c as [k t p]; simpl in *.
  destruct g as [? ? state ? ? ? ? ? ? latched ? ? ?]; simpl in *.
  destruct (latch_outcome _ He Hk) as [[Hc|Hc]|[[Hc|Hc] [r Hr]]]; simpl in Hc; subst k;
    try (simpl in Hr; subst p); unfold wp; destruct state, latched; simpl;
    constructor; simpl; auto; done.
Qed.

Lemma latch_dispatch d t n c g g' :
  guard_inv g → g_state g ≠ ACKNOWLEDGED → g_state g ≠ ABORTED →
  in_kinds _CLEANUP_KINDS (c_kind c) = true → latch_step g g' →
  dispatch_step d (ControlFrame t n c) g g'.
Proof.
  intros Hi Hna Hnb Hk Hl. destruct (ls_session g g' Hl) as (_ & _ & Hseq & _).
  assert (is_cleanup_or_final (g_state g') = true ∧ g_state g' ≠ ACKNOWLEDGED) as [Hf Hna'].
  { rewrite (ls_state g g' Hl). by case_decide. }
  split; try apply Hl.
  - unfold settle. rewrite Hf. constructor; try apply Hl; try done.
    + eapply core_same; [apply Hl|done|apply Hi].
    + rewrite (ls_media g g' Hl). pose proof (gi_phase g Hi) as Hp.
      unfold effective in *. rewrite (ls_state g g' Hl), (ls_late g g' Hl).
      by destruct (g_state g).
    + by rewrite Hf.
    + by rewrite (ls_latched g g' Hl).
    + by rewrite (ls_latched g g' Hl).
    + by rewrite (ls_latched g g' Hl).
    + intros _. apply Hl.
  - apply counts_add_control. intros d'. by rewrite (ls_media g g' Hl).
  - simpl. by rewrite Hk, orb_true_r, (ls_latched g g' Hl).
  - simpl. rewrite Hk. pose proof (ls_outcome g g' Hl). naive_solver.
  - simpl. rewrite (ls_receipt g g' Hl). by destruct (c_kind c).
  - by rewrite (ls_latched g g' Hl).
Qed.

(** PCM. *)
Record pcm_step (d : StreamDirection) (f : WireFrame) (g g' : Guard) : Prop := {
  ps_core : guard_core g';
  ps_counts : counts_add d f g g';
  ps_running : media_running (g_media g' d);
  ps_other : ∀ d', d' ≠ d → g_media g' d' = g_media g d';
  ps_session : same_session g g';
  ps_state : g_state g' = g_state g ∧ g_late_state g' = g_late_state g;
  ps_verdict : g_outcome g' = g_outcome g ∧ g_cleanup_latched g' = g_cleanup_latched g ∧
    g_receipt_complete g' = g_receipt_complete g;
}.

Lemma wp_admit_pcm d t n pcm now g :
  guard_core g →
  wp (_admit_pcm d pcm now) (λ _ g', pcm_step d (PcmFrame t n pcm) g g') aborted g.
Proof.
  intros Hc. destruct (gc_media g Hc d) as (Hb & Hsm & Hft).
  pose proof (len_nonneg pcm) as Hl. pose proof (Z.div_pos (len pcm) 2 Hl) as Hd.
  pose proof (length_drop_before (float_sub now (float_of_int 1)) (frame_times (g_media g d))).
  unfold _admit_pcm, _require_wall. gsteps; eauto 3; bool_props.
  all: set (times := drop_before _ _) in *; clearbody times.
  2: { apply failed_aborted, core_set_media; [|done].
       split_and!; cbn [byte_count sample_count frame_times]; lia. }
  constructor; simpl; try done.
  - apply core_set_media; [|apply core_set_media; [|done]]; split_and!;
      cbn [byte_count sample_count frame_times]; try lia.
    rewrite len_app, len_cons, len_nil. lia.
  - intros d'. simpl. unfold fupd, frame_samples. case_decide; subst; simpl; lia.
  - rewrite fupd_eq. split; simpl; [by eexists|done].
  - intros d' Hne. by rewrite !fupd_ne.
Qed.

(** A step that leaves the verdict alone and keeps the streams in phase. *)
Lemma inv_settle g g' :
  guard_inv g → guard_core g' → g_state g' = g_state g → g_outcome g' = g_outcome g →
  g_cleanup_latched g' = g_cleanup_latched g →
  g_receipt_complete g' = g_receipt_complete g →
  (is_cleanup_or_final (g_state g) = true → g_cleanup_latched g = false →
    g_late_state g' = g_late_state g) →
  media_phase (effective g') (g_media g') → guard_inv (settle g').
Proof.
  intros Hi Hc Hs Ho Hu Hr Hl Hp. destruct (is_cleanup_or_final (g_state g)) eqn:Hf.
  - unfold settle. rewrite Hs, Hf.
    constructor; rewrite ?Hs, ?Ho, ?Hu, ?Hr; try apply Hi; try done.
    + by rewrite Hf.
    + intros _ Hu'. rewrite Hl by done. by apply (gi_unlatched g Hi).
  - destruct (gi_late g Hi Hf) as (_ & Ho' & Hu'). apply settle_ordinary; [done| |congruence..].
    unfold effective in Hp. rewrite Hs in *. by destruct (g_state g).
Qed.

Lemma pcm_dispatch d t n pcm g g' :
  guard_inv g → pcm_state_ok d (effective g) = true → pcm_step d (PcmFrame t n pcm) g g' →
  dispatch_step d (PcmFrame t n pcm) g g'.
Proof.
  intros Hi Hok Hp. destruct (ps_state _ _ _ _ Hp) as [Hs Hl].
  destruct (ps_verdict _ _ _ _ Hp) as (Ho & Hu & Hr).
  assert (effective g' = effective g) as He by (unfold effective; by rewrite Hs, Hl).
  split; try apply Hp; simpl; try done.
  - apply (inv_settle g); try done; [apply Hp|]. rewrite He.
    pose proof (gi_phase g Hi) as Hph. pose proof (ps_running _ _ _ _ Hp) as Hrun.
    pose proof (ps_other _ _ _ _ Hp) as Hoth.
    destruct d, (effective g); try done; simpl in *;
      first [rewrite (Hoth CORE_TO_EDGE) by done | rewrite (Hoth EDGE_TO_CORE) by done];
      naive_solver.
  - by rewrite Hu, orb_false_r.
  - rewrite Ho. naive_solver.
  - intros _. by apply bool_decide_eq_true.
Qed.

Lemma late_dispatch d t n c g g1 :
  guard_inv g → is_cleanup_phase (g_state g) = true →
  in_kinds _LATE_CONTROL_KINDS (c_kind c) = true →
  normal_step c (set_state (g_late_state g) g) g1 → is_cleanup_or_final (g_state g1) = false →
  dispatch_step d (ControlFrame t n c) g (set_state (g_state g) (set_late_state (g_state g1) g1)).
Proof.
  intros Hi Hph Hk Hn Hf.
  assert (is_cleanup_or_final (g_state g) = true) as Hfg by by destruct (g_state g).
  pose proof (ns_outcome _ _ _ Hn) as Ho. pose proof (ns_latched _ _ _ Hn) as Hu.
  pose proof (ns_receipt _ _ _ Hn) as Hr. simpl in Ho, Hu, Hr.
  assert (in_kinds _CLEANUP_KINDS (c_kind c) = false ∧ c_kind c ≠ SAFETY_RECEIPT) as [Hnc Hnr]
    by by destruct (c_kind c).
  assert (g_cleanup_latched g = false → c_kind c = HEARTBEAT ∧ g_state g1 = g_late_state g) as Hlate.
  { intros Hu'. pose proof (gi_unlatched g Hi Hfg Hu') as Hl.
    destruct (ns_closed _ _ _ Hn Hl) as [He|He]; [|done].
    pose proof (ns_path _ _ _ Hn) as Hp. unfold path_step in Hp. simpl in Hp.
    rewrite He in Hp. simpl in Hp. by bool_props. }
  split; simpl.
  - apply (inv_settle g); simpl; try done.
    + apply (core_same g1); [done..|apply Hn].
    + rewrite Hr. by destruct (c_kind c).
    + intros _ Hu'. by apply Hlate.
    + destruct (ns_phase _ _ _ Hn) as [Hp|(Hs & _)]; [|by rewrite Hs in Hf].
      unfold effective. simpl. by destruct (g_state g).
  - apply Hn.
  - apply counts_add_control. apply Hn.
  - by rewrite Hnc, orb_false_r.
  - pose proof (refusal_not_ack t n c (ns_kind _ _ _ Hn)) as Hr'. simpl in Hr'.
    rewrite Ho, Hnc, Hr'. naive_solver.
  - done.
  - intros Hu'. destruct Hlate as [-> _]; [congruence|]. unfold path_step.
    by rewrite decide_True, bool_decide_true.
Qed.

Lemma aborted_core code code' g : aborted code g → aborted code' g.
Proof. done. Qed.

Lemma wp_late_progress d f now g :
  guard_inv g → is_cleanup_phase (g_state g) = true →
  wp (_accept_late_progress d f now) (λ _ g', dispatch_step d f g g') aborted g.
Proof.
  intros Hi Hph. pose proof (gi_core g Hi) as Hc.
  assert (effective g = g_late_state g) as He by (unfold effective; by destruct (g_state g)).
  pose proof (gi_phase g Hi) as Hp. rewrite He in Hp.
  destruct f as [t n c|t n pcm]; simpl; gsteps; eauto 3; bool_props.
  - assert (in_kinds _CLEANUP_KINDS (c_kind c) = false) by by destruct (c_kind c).
    eapply wp_mono; [apply wp_normal_control; [by apply (core_same g)|done|done]| |done].
    intros r g1 [-> Hn]. gsteps.
    + by apply late_dispatch.
    + apply failed_aborted, Hn.
  - eapply wp_mono; [by apply (wp_admit_pcm d t n)| |done].
    intros ? g' Hs. gsteps. apply pcm_dispatch; [done|by rewrite He|done].
Qed.

(** The receipt and the acknowledgement of the cleanup phase. *)
Lemma receipt_dispatch d t n c r g :
  guard_inv g → g_state g = CLEANUP_REQUIRED → c_kind c = SAFETY_RECEIPT →
  c_payload c = SafetyPayload r →
  dispatch_step d (ControlFrame t n c) g
    (set_state RECEIPT_RECEIVED (set_receipt_complete (is_complete r) g)).
Proof.
  intros Hi Hs Hk Hp. pose proof (gi_cleanup g Hi Hs) as Hu.
  split; simpl; rewrite ?Hk, ?Hp; simpl; try done.
  - unfold settle. simpl. constructor; simpl; try apply Hi; try done.
    + apply (core_same g); [done..|apply Hi].
    + pose proof (gi_phase g Hi) as Hph. unfold effective in *. by rewrite Hs in Hph.
    + by rewrite Hu.
    + by rewrite Hu.
  - apply counts_add_control. by intros [].
  - by rewrite orb_false_r.
  - naive_solver.
  - by rewrite Hu.
Qed.

Lemma ack_dispatch d t n c (accepted complete : bool) g :
  guard_inv g → g_state g = RECEIPT_RECEIVED → c_kind c = SAFETY_ACK →
  c_payload c = AckPayload accepted → g_receipt_complete g = Some complete →
  accepted && negb complete = false →
  dispatch_step d (ControlFrame t n c) g
    (set_state ACKNOWLEDGED (if accepted then g else set_outcome CLEANUP_INCOMPLETE g)).
Proof.
  intros Hi Hs Hk Hp Hr Hac.
  assert (media_phase (g_late_state g) (g_media g)) as Hph.
  { pose proof (gi_phase g Hi) as Hph. unfold effective in Hph. by rewrite Hs in Hph. }
  split; simpl; rewrite ?Hk, ?Hp, ?Hs; simpl.
  - unfold settle. simpl. constructor; simpl; try done.
    + apply (core_same g); [by destruct accepted..|apply Hi].
    + unfold effective. simpl. by destruct accepted.
    + pose proof (gi_unlatched g Hi) as Hl. rewrite Hs in Hl. destruct accepted; auto.
    + pose proof (gi_latched g Hi). by destruct accepted.
    + destruct accepted, complete; naive_solver.
  - by destruct accepted.
  - apply counts_add_control. destruct accepted; by intros [].
  - destruct accepted; simpl; by rewrite orb_false_r.
  - destruct accepted; naive_solver.
  - by destruct accepted.
  - intros _. unfold path_step. simpl. by destruct (g_input_mode g).
Qed.

Lemma wp_cleanup_phase d f now g :
  guard_inv g → frame_wf f → is_cleanup_phase (g_state g) = true →
  wp (_accept_cleanup_phase d f now) (λ _ g', dispatch_step d f g g') aborted g.
Proof.
  intros Hi Hwf Hph. pose proof (gi_core g Hi) as Hc.
  destruct f as [t n c|t n pcm]; [|by apply (wp_late_progress d (PcmFrame t n pcm))].
  unfold _accept_cleanup_phase.
  apply wp_bind, wp_gets. destruct (in_kinds _CLEANUP_KINDS (c_kind c)) eqn:Hk.
  { gsteps. eapply wp_mono; [by apply wp_latch_cleanup| |done]. intros ? g' Hl. gsteps.
    by apply latch_dispatch; try (intros Hs; rewrite Hs in Hph). }
  destruct (c_kind c) eqn:Hkc, (g_state g) eqn:Hs; try done;
    try (by apply (wp_late_progress d (ControlFrame t n c)); [done|rewrite Hs]).
  - unfold accept_receipt. gsteps; eauto 3. by apply receipt_dispatch.
  - gsteps; eauto 3; bool_props.
    + by eapply (ack_dispatch d t n c true).
    + by eapply (ack_dispatch d t n c false).
Qed.

Lemma wp_dispatch d f now g :
  guard_inv g → frame_wf f → g_state g ≠ ACKNOWLEDGED →
  wp (dispatch d f now) (λ _ g', dispatch_step d f g g') aborted g.
Proof.
  intros Hi Hwf Hna. pose proof (gi_core g Hi) as Hc. pose proof (gi_phase g Hi) as Hp.
  unfold dispatch. apply wp_bind, wp_gets.
  destruct (is_cleanup_phase (g_state g)) eqn:Hph.
  { pose proof (wp_cleanup_phase d f now g Hi Hwf Hph). by destruct (g_state g). }
  assert (effective g = g_state g) as He by (unfold effective; by destruct (g_state g)).
  rewrite He in Hp. pose proof (phase_not_final _ _ Hp) as Hf.
  assert (wp match f with
    | PcmFrame _ _ pcm => _ ← fail_if (negb (pcm_state_ok d (g_state g))) INVALID_ORDER;
                          _ ← _admit_pcm d pcm now; mret ACCEPTED
    | ControlFrame _ _ control => _accept_normal_control d control now
    end (λ _ g', dispatch_step d f g g') aborted g) as Hw.
  2: { by destruct (g_state g). }
  destruct f as [t n c|t n pcm].
  - destruct (in_kinds _CLEANUP_KINDS (c_kind c)) eqn:Hk.
    + unfold _accept_normal_control. rewrite Hk. gsteps.
      eapply wp_mono; [by apply wp_latch_cleanup| |done]. intros ? g' Hl. gsteps.
      by apply latch_dispatch; try (intros Hs; rewrite Hs in Hf).
    + eapply wp_mono; [by apply wp_normal_control| |done]. intros ? g' [_ Hn].
      by apply normal_dispatch.
  - gsteps; eauto 3; bool_props. eapply wp_mono; [by apply (wp_admit_pcm d t n)| |done].
    intros ? g' Hs. gsteps. apply pcm_dispatch; [done|by rewrite He|done].
Qed.

(** [accept]: what a returned call did. *)
Record accept_step (d : StreamDirection) (f : WireFrame) (g g' : Guard) : Prop := {
  as_inv : guard_inv g';
  as_turn : f_turn_id f = g_turn_id g ∧ g_turn_id g' = g_turn_id g;
  as_mode : g_input_mode g' = g_input_mode g;
  as_open : g_closed g' = false;
  as_sequence : f_sequence f = g_next_sequence g d;
  as_next : ∀ d', g_next_sequence g' d' =
    g_next_sequence g d' + (if decide (d' = d) then 1 else 0);
  as_counts : counts_add d f g g';
  as_latched : g_cleanup_latched g' = g_cleanup_latched g || is_cleanup f;
  as_outcome : g_outcome g' = COMPLETED ↔
    g_outcome g = COMPLETED ∧ is_cleanup f = false ∧ is_refusal f = false;
  as_receipt : g_receipt_complete g' = frame_receipt f (g_receipt_complete g);
  as_path : g_cleanup_latched g' = false →
    frame_path (g_input_mode g) (g_state g) f (g_state g') = true;
}.

Lemma inv_set_last_now x g : guard_inv g → guard_inv (set_last_now x g).
Proof.
  intros Hi. constructor; try apply Hi. apply (core_same g); [done..|apply Hi].
Qed.

Lemma inv_advance d g :
  guard_inv g → g_next_sequence g d ≤ UINT32_MAX →
  guard_inv (set_next_sequence d (g_next_sequence g d + 1) g).
Proof.
  intros Hi Hle. pose proof (gc_sequence g (gi_core g Hi) d).
  constructor; try apply Hi. constructor; [apply Hi|]. intros d'. simpl. unfold fupd.
  case_decide; [subst; lia|]. apply (gc_sequence g (gi_core g Hi) d').
Qed.

(** The settled guard differs in its late state only. *)
Lemma accept_settled d f g g' :
  dispatch_step d f g g' → f_turn_id f = g_turn_id g → g_closed g = false →
  f_sequence f = g_next_sequence g d → g_next_sequence g d ≤ UINT32_MAX →
  accept_step d f g
    (set_next_sequence d (g_next_sequence (settle g') d + 1) (settle g')).
Proof.
  intros Hd Ht Ho Hs Hle. destruct (ds_session _ _ _ _ Hd) as (Hs1 & Hs2 & Hs3 & Hs4).
  pose proof (ds_inv _ _ _ _ Hd) as Hi.
  assert (g_next_sequence (settle g') = g_next_sequence g) as Hn
    by (unfold settle; by destruct (is_cleanup_or_final _)).
  split.
  - apply inv_advance; [done|]. by rewrite Hn.
  - unfold settle. by destruct (is_cleanup_or_final _).
  - unfold settle. by destruct (is_cleanup_or_final _).
  - unfold settle. destruct (is_cleanup_or_final _); simpl; congruence.
  - done.
  - intros d'. simpl. unfold fupd. rewrite Hn. case_decide; [by subst|lia].
  - unfold settle. destruct (is_cleanup_or_final _); apply Hd.
  - unfold settle. destruct (is_cleanup_or_final _); apply Hd.
  - unfold settle. destruct (is_cleanup_or_final _); apply Hd.
  - unfold settle. destruct (is_cleanup_or_final _); apply Hd.
  - unfold settle. destruct (is_cleanup_or_final _); apply Hd.
Qed.

Lemma wp_accept d f now g :
  guard_inv g → frame_wf f → g_closed g = false →
  wp (accept d f now) (λ r g', gf_frame r = f ∧ gf_direction r = d ∧ accept_step d f g g')
     aborted g.
Proof.
  intros Hi Hwf Ho. pose proof (gi_core g Hi) as Hc.
  unfold accept, _require_open. gsteps; [|by congruence].
  apply (wp_mono _ (λ x g', g' = set_last_now x g) _ aborted); [|intros x g1 ->|done].
  { unfold _validate_clock. gsteps; auto; by destruct (g_last_now g). }
  set (g1 := set_last_now x g).
  assert (guard_inv g1) as Hi1 by by apply inv_set_last_now.
  pose proof (gi_core g1 Hi1) as Hc1.
  apply wp_bind, (wp_mono _ (λ _ g', g' = g1 ∧ f_turn_id f = g_turn_id g ∧
    f_sequence f = g_next_sequence g d ∧ g_next_sequence g d ≤ UINT32_MAX) _ aborted);
    [|intros ? ? (-> & Ht & Hs & Hle)|done].
  { unfold _validate_frame. gsteps; eauto 3; bool_props; done. }
  gsteps; eauto 3. bool_props.
  eapply wp_mono; [by apply (wp_dispatch d f x g1)| |done]. intros r g' Hd.
  assert (accept_step d f g1 (set_next_sequence d (g_next_sequence (settle g') d + 1) (settle g')))
    as Ha by by apply accept_settled.
  assert (wp (_ ← _advance_sequence d; mret (mkGuarded d f r))
    (λ r g', gf_frame r = f ∧ gf_direction r = d ∧ accept_step d f g g') aborted (settle g')) as Hw.
  { unfold _advance_sequence. gsteps. split_and!; try done. by destruct Ha. }
  apply wp_bind, wp_gets, wp_bind. unfold settle in Hw.
  by destruct (is_cleanup_or_final (g_state g')).
Qed.

(** ** Whole turns *)

(** A supervisor's calls: each frame with its direction and the clock. *)
Definition event : Type := StreamDirection * WireFrame * clock_value.

Fixpoint guard_run (es : list event) : G (list GuardedFrame) :=
  match es with
  | [] => mret []
  | (d, f, now) :: es =>
    r ← accept d f now; rs ← guard_run es; mret (r :: rs)
  end.

Definition ev_direction (e : event) : StreamDirection := e.1.1.
Definition ev_frame (e : event) : WireFrame := e.1.2.

(** The frames one direction carried. *)
Definition stream (d : StreamDirection) (es : list event) : list WireFrame :=
  map ev_frame (filter (λ e, ev_direction e = d) es).

Definition total (measure : WireFrame → Z) (fs : list WireFrame) : Z :=
  foldr (λ f acc, measure f + acc) 0 fs.

(** The controls of a turn, heartbeats apart. *)
Definition frame_kinds (f : WireFrame) : list ControlKind :=
  match f with
  | ControlFrame _ _ c => if decide (c_kind c = HEARTBEAT) then [] else [c_kind c]
  | PcmFrame _ _ _ => []
  end.
Definition skeleton (es : list event) : list ControlKind := es ≫= (λ e, frame_kinds (ev_frame e)).

Definition last_receipt (es : list event) (before : option bool) : option bool :=
  fold_left (λ acc e, frame_receipt (ev_frame e) acc) es before.

(** What [guard_run] establishes from [g] to [g']. *)
Record run_step (es : list event) (g g' : Guard) : Prop := {
  rs_inv : guard_inv g';
  rs_session : g_turn_id g' = g_turn_id g ∧ g_input_mode g' = g_input_mode g;
  rs_open : g_closed g' = false;
  rs_turn : Forall (λ e, f_turn_id (ev_frame e) = g_turn_id g) es;
  rs_sequence : ∀ d, map f_sequence (stream d es) =
    seqZ (g_next_sequence g d) (g_next_sequence g' d - g_next_sequence g d);
  rs_next : ∀ d, g_next_sequence g' d = g_next_sequence g d + len (stream d es);
  rs_bytes : ∀ d, byte_count (g_media g' d) =
    byte_count (g_media g d) + total frame_bytes (stream d es);
  rs_samples : ∀ d, sample_count (g_media g' d) =
    sample_count (g_media g d) + total frame_samples (stream d es);
  rs_latched : g_cleanup_latched g' =
    g_cleanup_latched g || existsb (λ e, is_cleanup (ev_frame e)) es;
  rs_outcome : g_outcome g' = COMPLETED ↔ g_outcome g = COMPLETED ∧
    Forall (λ e, is_cleanup (ev_frame e) = false ∧ is_refusal (ev_frame e) = false) es;
  rs_receipt : g_receipt_complete g' = last_receipt es (g_receipt_complete g);
  rs_path : g_cleanup_latched g' = false → ∀ p, p ∈ paths (g_input_mode g) (g_state g) →
    p ++ skeleton es ∈ paths (g_input_mode g) (g_state g');
}.

Lemma frame_path_spec m s f s' p :
  frame_path m s f s' = true → p ∈ paths m s → p ++ frame_kinds f ∈ paths m s'.
Proof.
  destruct f as [t n c|t n pcm]; simpl; unfold path_step; intros Hp Hin.
  - case_decide as Hk; bool_props; [subst; by rewrite app_nil_r|].
    rewrite forallb_forall in Hp. apply list_elem_of_In, Hp in Hin. by bool_props.
  - bool_props. subst. by rewrite app_nil_r.
Qed.

Lemma run_nil g : guard_inv g → g_closed g = false → run_step [] g g.
Proof.
  intros Hi Ho. constructor; try done.
  - intros d. by rewrite Z.sub_diag.
  - intros d. unfold stream. simpl. rewrite len_nil. lia.
  - intros d. simpl. lia.
  - intros d. simpl. lia.
  - by rewrite orb_false_r.
  - naive_solver.
  - intros _ p Hp. unfold skeleton. simpl. by rewrite app_nil_r.
Qed.

Lemma stream_cons e es d :
  stream d (e :: es) = (if decide (ev_direction e = d) then [ev_frame e] else []) ++ stream d es.
Proof. unfold stream. rewrite filter_cons. by case_decide. Qed.

Lemma run_cons d f now es g g1 g' :
  accept_step d f g g1 → run_step es g1 g' → run_step ((d, f, now) :: es) g g'.
Proof.
  intros Ha Hr. destruct (rs_session _ _ _ Hr) as [Ht1 Hm1].
  destruct (as_turn _ _ _ _ Ha) as [Htf Ht]. pose proof (as_mode _ _ _ _ Ha) as Hm.
  constructor; try apply Hr.
  - split; congruence.
  - constructor; [done|]. eapply Forall_impl; [apply Hr|]. simpl. congruence.
  - intros d'. rewrite stream_cons, map_app, (rs_sequence _ _ _ Hr).
    rewrite !(rs_next _ _ _ Hr), !(as_next _ _ _ _ Ha). cbn [ev_direction ev_frame fst snd].
    pose proof (len_nonneg (stream d' es)).
    destruct (decide (d = d')) as [->|Hne]; [|rewrite (decide_False (P:=d'=d)) by done].
    + rewrite decide_True by done. cbn [map app]. rewrite (as_sequence _ _ _ _ Ha).
      rewrite (seqZ_cons (g_next_sequence g d')) by lia.
      f_equal. f_equal; lia.
    + cbn [map app]. f_equal; lia.
  - intros d'. rewrite stream_cons, len_app, (rs_next _ _ _ Hr), (as_next _ _ _ _ Ha).
    cbn [ev_direction fst]. repeat case_decide; try congruence; unfold len; simpl; lia.
  - intros d'. rewrite stream_cons, (rs_bytes _ _ _ Hr). destruct (as_counts _ _ _ _ Ha d') as [-> _].
    cbn [ev_direction ev_frame fst snd]. repeat case_decide; try congruence; simpl; lia.
  - intros d'. rewrite stream_cons, (rs_samples _ _ _ Hr). destruct (as_counts _ _ _ _ Ha d') as [_ ->].
    cbn [ev_direction ev_frame fst snd]. repeat case_decide; try congruence; simpl; lia.
  - rewrite (rs_latched _ _ _ Hr), (as_latched _ _ _ _ Ha). simpl. by rewrite orb_assoc.
  - rewrite (rs_outcome _ _ _ Hr), (as_outcome _ _ _ _ Ha), Forall_cons. naive_solver.
  - rewrite (rs_receipt _ _ _ Hr), (as_receipt _ _ _ _ Ha). done.
  - intros Hu p Hp. pose proof Hu as Hu1. rewrite (rs_latched _ _ _ Hr) in Hu1. bool_props.
    rewrite <- Hm. unfold skeleton. simpl. rewrite app_assoc. apply (rs_path _ _ _ Hr); [done|].
    rewrite Hm. apply (frame_path_spec _ (g_state g)); [|done]. by apply (as_path _ _ _ _ Ha).
Qed.

Lemma wp_guard_run es g :
  guard_inv g → g_closed g = false → Forall (λ e, frame_wf (ev_frame e)) es →
  wp (guard_run es) (λ rs g', map gf_frame rs = map ev_frame es ∧ run_step es g g') aborted g.
Proof.
  revert g. induction es as [|[[d f] now] es IH]; intros g Hi Ho Hwf; simpl.
  { gsteps. split; [done|]. by apply run_nil. }
  apply Forall_cons in Hwf as [Hf Hwf]. apply wp_bind.
  eapply wp_mono; [by apply wp_accept| |done]. intros r g1 (Hr & _ & Ha).
  apply wp_bind. eapply wp_mono; [apply IH; [apply Ha|apply Ha|done]| |done].
  intros rs g' [Hrs Hrun]. gsteps. simpl. rewrite Hr, Hrs. split; [done|]. by eapply run_cons.
Qed.

Lemma inv_new_guard t m : guard_inv (new_guard t m).
Proof. by apply inv_ordinary. Qed.

Lemma guard_run_new t m es r g :
  Forall (λ e, frame_wf (ev_frame e)) es → guard_run es (new_guard t m) = (r, g) →
  match r with
  | Ok rs => map gf_frame rs = map ev_frame es ∧ run_step es (new_guard t m) g
  | Raise e => aborted e g
  end.
Proof.
  intros Hwf. pose proof (wp_guard_run es _ (inv_new_guard t m) eq_refl Hwf) as Hw.
  by apply (wp_run _ _ _ _ _ _ Hw).
Qed.

(** A refused call closes the guard for good.  After any run from a fresh guard,
    an [accept] that raises leaves the guard closed and, unless it was closed already,
    ABORTED; from then on [accept] and [finish] only raise CLOSED and change nothing. *)
Theorem guard_fails_closed t m es rs g d f now code g' :
  Forall (λ e, frame_wf (ev_frame e)) es → frame_wf f →
  guard_run es (new_guard t m) = (Ok rs, g) →
  accept d f now g = (Raise code, g') →
  g_state g' = ABORTED ∧ g_closed g' = true ∧ guard_core g' ∧
  (∀ d2 f2 now2, accept d2 f2 now2 g' = (Raise CLOSED, g')) ∧
  guard_finish g' = (Raise CLOSED, g').
Proof.
  intros Hwf Hf Hrun Hacc. apply guard_run_new in Hrun as [_ Hrun]; [|done].
  pose proof (wp_accept d f now g (rs_inv _ _ _ Hrun) Hf (rs_open _ _ _ Hrun)) as Hw.
  unfold wp in Hw. rewrite Hacc in Hw. destruct Hw as (Hs & Hc & Hcore).
  split_and!; try done.
  - intros d2 f2 now2. unfold accept, _require_open, mbind, M_bind, gets. by rewrite Hc.
  - unfold guard_finish, _require_open, mbind, M_bind, gets. by rewrite Hc.
Qed.

(** Replay, reordering and volume.  In every run the guard accepts, each direction
    carries the frames numbered 0, 1, 2, ... in this order, all of the guard's turn, at
    most 2^32 of them, and no more than 8 MiB and 1,440,000 samples of PCM. *)
Theorem guard_stream_bounds t m es rs g d :
  Forall (λ e, frame_wf (ev_frame e)) es → guard_run es (new_guard t m) = (Ok rs, g) →
  map gf_frame rs = map ev_frame es ∧
  Forall (λ e, f_turn_id (ev_frame e) = t) es ∧
  map f_sequence (stream d es) = seqZ 0 (len (stream d es)) ∧
  len (stream d es) ≤ UINT32_MAX + 1 ∧
  total frame_bytes (stream d es) ≤ MAX_DIRECTION_BYTES ∧
  total frame_samples (stream d es) ≤ MAX_MEDIA_SAMPLES.
Proof.
  intros Hwf Hrun. apply guard_run_new in Hrun as [Hmap Hrun]; [|done].
  pose proof (gi_core g (rs_inv _ _ _ Hrun)) as Hc.
  pose proof (rs_next _ _ _ Hrun d) as Hn. cbn [new_guard g_next_sequence] in Hn.
  pose proof (rs_bytes _ _ _ Hrun d) as Hb. pose proof (rs_samples _ _ _ Hrun d) as Hs.
  cbn [new_guard g_media new_media byte_count sample_count] in Hb, Hs.
  pose proof (gc_sequence g Hc d). destruct (gc_media g Hc d) as (? & ? & _).
  split_and!; try lia; [done|apply Hrun|].
  rewrite (rs_sequence _ _ _ Hrun). cbn [new_guard g_next_sequence]. f_equal; lia.
Qed.

(** C2: what a completed turn is.  When a run is followed by [finish] returning
    COMPLETED, the controls other than heartbeats are exactly one of the legal scripts of
    the input mode (open, ready, arming for the terminal toggle, capture, playback,
    receipt, acknowledgement), nobody stopped, cancelled, aborted or reported an error,
    the acknowledgement accepts a complete safety receipt, and both directions ended
    with sound. *)
Theorem guard_completed_turn t m es rs g g' :
  Forall (λ e, frame_wf (ev_frame e)) es → guard_run es (new_guard t m) = (Ok rs, g) →
  guard_finish g = (Ok COMPLETED, g') →
  skeleton es ∈ paths m ACKNOWLEDGED ∧
  Forall (λ e, is_cleanup (ev_frame e) = false ∧ is_refusal (ev_frame e) = false) es ∧
  last_receipt es None = Some true ∧
  (∀ d, 0 < total frame_samples (stream d es)) ∧
  g_closed g' = true.
Proof.
  intros Hwf Hrun Hfin. apply guard_run_new in Hrun as [_ Hrun]; [|done].
  pose proof (rs_inv _ _ _ Hrun) as Hi. pose proof (rs_session _ _ _ Hrun) as [_ Hm].
  unfold guard_finish, _require_open, mbind, M_bind, gets, raise_if, mret, M_ret in Hfin.
  rewrite (rs_open _ _ _ Hrun) in Hfin. simpl in Hfin. unfold fail_if in Hfin.
  case_bool_decide as Hst; simpl in Hfin; [|by unfold _fail in Hfin].
  injection Hfin as Ho <-.
  destruct (proj1 (rs_outcome _ _ _ Hrun) Ho) as [_ Hnone].
  assert (g_cleanup_latched g = false) as Hu.
  { destruct (g_cleanup_latched g) eqn:Hl; [|done]. by destruct (gi_latched g Hi Hl). }
  assert (media_phase PLAYBACK_CLOSED (g_media g)) as [Hp1 Hp2].
  { pose proof (gi_phase g Hi) as Hp. unfold effective in Hp. rewrite Hst in Hp.
    rewrite (gi_unlatched g Hi) in Hp; [done|by rewrite Hst|done]. }
  split_and!; try done.
  - rewrite <- Hst. apply (rs_path _ _ _ Hrun Hu []). by apply list_elem_of_singleton.
  - pose proof (rs_receipt _ _ _ Hrun) as Hr. simpl in Hr. rewrite <- Hr.
    by apply (gi_receipt g Hi).
  - intros d. pose proof (rs_samples _ _ _ Hrun d) as Hs. simpl in Hs.
    destruct d; [destruct Hp1|destruct Hp2]; lia.
Qed.

(** ** Witnesses: a complete terminal-toggle turn *)

Definition sample_events : list event :=
  let ctl d n k p := (d, ControlFrame sample_turn n (mkControl k sample_turn p), NowInt 7) in
  let pcm d n := (d, PcmFrame sample_turn n [x01; x02; x03; x04], NowInt 7) in
  let core := CORE_TO_EDGE in let edge := EDGE_TO_CORE in
  [ctl core 0 SESSION_OPEN (SessionPayload CORE_TERMINAL_TOGGLE);
   ctl edge 0 SESSION_READY (SessionPayload CORE_TERMINAL_TOGGLE);
   ctl core 1 HEARTBEAT EmptyPayload;
   ctl core 2 PTT_START EmptyPayload;
   ctl edge 1 CAPTURE_START (StartPayload TRANSPORT_AUDIO_FORMAT);
   pcm edge 2;
   ctl core 3 PTT_SUBMIT EmptyPayload;
   pcm edge 3;
   ctl edge 4 CAPTURE_END EmptyPayload;
   ctl core 4 PLAYBACK_START (StartPayload TRANSPORT_AUDIO_FORMAT);
   pcm core 5;
   ctl core 6 PLAYBACK_END EmptyPayload;
   ctl edge 5 SAFETY_RECEIPT (SafetyPayload (mkReceipt sample_turn true true true true true true));
   ctl core 7 SAFETY_ACK (AckPayload true)].

Definition sample_run : result FrameErrorCode (list GuardedFrame) * Guard :=
  guard_run sample_events (new_guard sample_turn CORE_TERMINAL_TOGGLE).

Definition sample_accepted : list GuardedFrame :=
  map (λ e : event, mkGuarded (ev_direction e) (ev_frame e) ACCEPTED) sample_events.

Lemma sample_events_wf : Forall (λ e, frame_wf (ev_frame e)) sample_events.
Proof. repeat constructor. Qed.

Lemma guard_fails_closed_witness :
  let g := snd sample_run in
  let again := ControlFrame sample_turn 8 (mkControl HEARTBEAT sample_turn EmptyPayload) in
  g_state (accept CORE_TO_EDGE again (NowInt 8) g).2 = ABORTED.
Proof.
  intros g again.
  apply (guard_fails_closed sample_turn CORE_TERMINAL_TOGGLE sample_events sample_accepted g
    CORE_TO_EDGE again (NowInt 8) INVALID_ORDER).
  - apply sample_events_wf.
  - reflexivity.
  - vm_compute. reflexivity.
  - vm_compute. reflexivity.
Defined.

Lemma guard_stream_bounds_witness :
  map f_sequence (stream CORE_TO_EDGE sample_events) = seqZ 0 8.
Proof.
  apply (guard_stream_bounds sample_turn CORE_TERMINAL_TOGGLE sample_events sample_accepted
    (snd sample_run)).
  - apply sample_events_wf.
  - vm_compute. reflexivity.
Defined.

Lemma guard_completed_turn_witness :
  skeleton sample_events ∈ paths CORE_TERMINAL_TOGGLE ACKNOWLEDGED.
Proof.
  apply (guard_completed_turn sample_turn CORE_TERMINAL_TOGGLE sample_events sample_accepted
    (snd sample_run) (set_closed true (snd sample_run))).
  - apply sample_events_wf.
  - vm_compute. reflexivity.
  - vm_compute. reflexivity.
Defined.
