(* ===== verification/DuplexTable.v ===== *)
(** * Correlation table of the duplex control channel

    The part the two durable stores of the Reachy control channel share: the
    validators at the top of every operation, and the SQL of the correlation
    table (insert, update, prune) with its CHECK constraints.  The edge keys its
    rows by correlation id, the core by device and correlation id: the table is
    generic in the key.  [DuplexEdge] and [DuplexCore] are the two stores.

    [str(UUID)] is fixed-width lower-case hexadecimal, so the text order of
    correlation ids is the order of the 128-bit numbers. *)

From stdpp Require Import sorting.
From S2P Require Import Prelude ContractBase PttFraming.

Inductive Direction := edge_to_core | core_to_edge.
Inductive CorrelationState := pending | completed | abandoned.

#[export] Instance Direction_eq_dec : EqDecision Direction.
Proof. solve_decision. Defined.
#[export] Instance CorrelationState_eq_dec : EqDecision CorrelationState.
Proof. solve_decision. Defined.
#[export] Instance Direction_countable : Countable Direction.
Proof.
  refine (inj_countable' (λ d, match d with edge_to_core => true | core_to_edge => false end)
    (λ b : bool, if b then edge_to_core else core_to_edge) _).
  by intros [].
Defined.

(** ** Validators *)

Definition _PURPOSES : list string :=
  ["reachy.command.v1"; "reachy.health.v1"; "reachy.stop_all.v1"; "reachy.camera_grant.v1";
   "reachy.event.v1"; "reachy.media_control.v1"]%string.
Definition _KINDS : list string := ["request"; "response"; "event"]%string.
Definition _PENDING_CORRELATION_LIMIT : Z := 256.
Definition _TERMINAL_CORRELATION_RETENTION_LIMIT : nat := Z.to_nat 4096.

Definition _require_purpose (value : string) : result exn unit :=
  reject_if (negb (bool_decide (value ∈ _PURPOSES)))
    (ValueError "unsupported control frame purpose").

Definition _require_kind (value : string) : result exn unit :=
  reject_if (negb (bool_decide (value ∈ _KINDS))) (ValueError "unsupported control frame kind").

Definition _require_sequence_bounds (value : Z) : result exn unit :=
  reject_if (negb (between 0 value JCS_MAX_SAFE_INTEGER))
    (ValueError "sequence outside JCS safe integer domain").

Definition _require_sequence (value : Z) : result exn unit :=
  _ ← _require_sequence_bounds value;
  reject_if (value <? 1) (ValueError "sequence must be positive").

Definition _bounded_sequence (value : Z) : result exn Z :=
  _ ← _require_sequence_bounds value; Ok value.

(** [len(value.encode("utf-8"))], over code points. *)
Fixpoint utf8_length (value : list Z) : result exn Z :=
  match value with
  | [] => Ok 0
  | c :: rest =>
    if between 0xD800 c 0xDFFF then Raise UnicodeEncodeError
    else
      n ← utf8_length rest;
      Ok (n + (if c <? 0x80 then 1 else if c <? 0x800 then 2 else if c <? 0x10000 then 3 else 4))
  end.

Definition _require_reason (value : list Z) : result exn unit :=
  n ← utf8_length value;
  reject_if (negb (between 1 n 128)) (ValueError "duplex terminal reason invalid").

Definition _opposite_direction (direction : Direction) : Direction :=
  match direction with edge_to_core => core_to_edge | core_to_edge => edge_to_core end.

(** ** Rows *)

Lemma string_compare_gt_trans (a b c : string) :
  String.compare a b = Gt → String.compare b c = Gt → String.compare a c = Gt.
Proof.
  revert b c. induction a as [|x a IH]; intros [|y b] [|z c]; simpl; try done.
  unfold Ascii.compare.
  destruct (N.compare_spec (Ascii.N_of_ascii x) (Ascii.N_of_ascii y)) as [Hxy|Hxy|Hxy]; try done;
  destruct (N.compare_spec (Ascii.N_of_ascii y) (Ascii.N_of_ascii z)) as [Hyz|Hyz|Hyz]; try done;
  intros; destruct (N.compare_spec (Ascii.N_of_ascii x) (Ascii.N_of_ascii z)); eauto; try lia.
Qed.

Lemma string_compare_refl (a : string) : String.compare a a = Eq.
Proof.
  induction a as [|x a IH]; simpl; [done|]. unfold Ascii.compare. by rewrite N.compare_refl.
Qed.

Record Correlation := mkCorrelation {
  co_purpose : string;
  co_request_direction : Direction;
  co_state : CorrelationState;
  co_first_sequence : Z;
  co_last_sequence : Z;
  co_created_at : string;
  co_updated_at : string;
}.

#[export] Instance Correlation_eq_dec : EqDecision Correlation.
Proof. solve_decision. Defined.

Definition is_pending (r : Correlation) : bool := bool_decide (co_state r = pending).

Definition set_row_sequence (sequence : Z) (now : string) (r : Correlation) : Correlation :=
  mkCorrelation (co_purpose r) (co_request_direction r) (co_state r) (co_first_sequence r)
    sequence (co_created_at r) now.
Definition set_row_state (state : CorrelationState) (now : string) (r : Correlation) :
    Correlation :=
  mkCorrelation (co_purpose r) (co_request_direction r) state (co_first_sequence r)
    (co_last_sequence r) (co_created_at r) now.

Section Table.
Context `{Countable K}.
(** The rows the statement's device filter selects, and the largest sequence the
    table's CHECK admits. *)
Context (owned : K → bool) (check_max : Z).

Abbreviation table := (gmap K Correlation).
Abbreviation T := (M table exn).

Definition row_check (r : Correlation) : bool :=
  between 1 (co_first_sequence r) check_max &&
  between (co_first_sequence r) (co_last_sequence r) check_max.

(** [INSERT INTO ... VALUES(...)]. *)
Definition insert_row (k : K) (r : Correlation) : T unit :=
  tbl ← gets id;
  _ ← raise_if (bool_decide (is_Some ((tbl : table) !! k))) IntegrityError;
  _ ← raise_if (negb (row_check r)) IntegrityError;
  modify <[k := r]>.

(** [UPDATE ... WHERE key AND state='pending'], with the row count. *)
Definition update_pending (k : K) (f : Correlation → Correlation) : T Z :=
  tbl ← gets id;
  match (tbl : table) !! k with
  | Some r =>
    if is_pending r
    then
      _ ← raise_if (negb (row_check (f r))) IntegrityError;
      _ ← modify <[k := f r]>;
      mret 1
    else mret 0
  | None => mret 0
  end.

(** [SELECT COUNT( * ) ... WHERE state='pending']. *)
Definition pending_count (tbl : table) : Z :=
  Z.of_nat (size (filter (λ p : K * Correlation, owned p.1 && is_pending p.2 = true) tbl)).

Definition _advance_correlation (k : K) (purpose kind : string) (direction : Direction)
    (sequence : Z) (now : string) : T unit :=
  tbl ← gets id;
  let row := (tbl : table) !! k in
  if bool_decide (kind ∈ ["request"; "event"]%string)
  then
    _ ← raise_if (bool_decide (is_Some row)) (PermissionError "replayed_sequence_or_correlation");
    _ ← raise_if (_PENDING_CORRELATION_LIMIT <=? pending_count tbl)
          (PermissionError "pending_correlation_limit");
    insert_row k (mkCorrelation purpose direction pending sequence sequence now now)
  else
    _ ← raise_if (negb (bool_decide (kind = "response"%string)))
          (ValueError "unsupported control frame kind");
    let opposite := _opposite_direction direction in
    _ ← raise_if (match row with
                  | None => true
                  | Some r => negb (bool_decide ((co_purpose r, co_request_direction r, co_state r)
                                                 = (purpose, opposite, pending)))
                  end) (PermissionError "correlation_not_pending");
    changed ← update_pending k (set_row_sequence sequence now);
    raise_if (negb (changed =? 1)) (PermissionError "correlation_not_pending").

(** [accept_response]'s SELECT. *)
Definition require_pending_request (k : K) (purpose : string) (direction : Direction) : T unit :=
  tbl ← gets id;
  raise_if (match (tbl : table) !! k with
            | None => true
            | Some r => negb (bool_decide ((co_purpose r, co_request_direction r, co_state r)
                                           = (purpose, direction, pending)))
            end) (PermissionError "correlation_not_pending").

Definition finish_correlation (k : K) (state : CorrelationState) (now : string) : T unit :=
  changed ← update_pending k (set_row_state state now);
  raise_if (negb (changed =? 1)) (PermissionError "correlation_not_pending").

Definition abandon_pending (now : string) : T unit :=
  modify (map_imap (λ k r, Some (if owned k && is_pending r
                                 then set_row_state abandoned now r else r))).

(** ** Invariants *)

Record table_ok (tbl : table) : Prop := {
  to_check : map_Forall (λ _ r, row_check r = true) tbl;
  to_pending : pending_count tbl ≤ _PENDING_CORRELATION_LIMIT;
}.

Definition terminal_count (tbl : table) : Z :=
  Z.of_nat (size (filter (λ p : K * Correlation, owned p.1 && negb (is_pending p.2) = true) tbl)).

Lemma pending_count_mono (tbl tbl' : table) :
  (∀ k r, tbl' !! k = Some r → owned k && is_pending r = true →
     ∃ r0, tbl !! k = Some r0 ∧ is_pending r0 = true) →
  pending_count tbl' ≤ pending_count tbl.
Proof.
  intros Hsub. unfold pending_count. apply inj_le. rewrite <- !size_dom.
  apply subseteq_size. intros k [r Hr]%elem_of_dom.
  apply map_lookup_filter_Some in Hr as [Hr Hp]. simpl in Hp.
  destruct (Hsub k r Hr Hp) as (r0 & Hr0 & Hp0). apply elem_of_dom. exists r0.
  apply map_lookup_filter_Some. split; [done|]. simpl. bool_props. by rewrite Hp0, andb_true_r.
Qed.

Lemma pending_count_insert tbl k r :
  tbl !! k = None → pending_count (<[k:=r]> tbl) ≤ pending_count tbl + 1.
Proof.
  intros Hk. unfold pending_count.
  destruct (decide (owned k && is_pending r = true)).
  - rewrite map_filter_insert_True by done. rewrite map_size_insert_None; [lia|].
    apply map_lookup_filter_None. by left.
  - rewrite map_filter_insert_False by done. rewrite delete_id by done. lia.
Qed.

(** Updating a pending row to a row of the same key. *)
Lemma table_ok_update tbl k r r' :
  table_ok tbl → tbl !! k = Some r → is_pending r = true → row_check r' = true →
  table_ok (<[k:=r']> tbl).
Proof.
  intros [Hc Hp] Hk Hr Hr'. split.
  - by apply map_Forall_insert_2.
  - etrans; [|exact Hp]. apply pending_count_mono. intros j x Hj Hx. bool_props.
    destruct (decide (j = k)) as [->|Hne]; [by exists r|].
    rewrite lookup_insert_ne in Hj by done. eauto.
Qed.

Lemma wp_update_pending k f tbl (Q : Z → table → Prop) (R : exn → table → Prop) :
  (∀ r, tbl !! k = Some r → is_pending r = true → row_check (f r) = true →
     Q 1 (<[k:=f r]> tbl)) →
  ((∀ r, tbl !! k = Some r → is_pending r = false) → Q 0 tbl) →
  (∀ r, tbl !! k = Some r → is_pending r = true → row_check (f r) = false →
     R IntegrityError tbl) →
  wp (update_pending k f) Q R tbl.
Proof using Type.
  clear owned.
  intros HQ1 HQ0 HR. unfold update_pending. wp_steps; unfold id in *; bool_props; eauto.
  - apply HQ0. naive_solver.
  - apply HQ0. naive_solver.
Qed.

Lemma wp_advance k purpose kind direction sequence now tbl :
  table_ok tbl →
  wp (_advance_correlation k purpose kind direction sequence now)
    (λ _ tbl', table_ok tbl' ∧ is_Some (tbl' !! k) ∧ (∀ j, j ≠ k → tbl' !! j = tbl !! j))
    (λ _ _, True) tbl.
Proof.
  intros Hok. unfold _advance_correlation, insert_row. wp_steps; unfold id in *; bool_props; try done.
  - apply eq_None_not_Some in H0. split_and!.
    + split; [apply map_Forall_insert_2; [done|apply Hok]|].
      pose proof (pending_count_insert tbl k
        (mkCorrelation purpose direction pending sequence sequence now now) H0).
      change _PENDING_CORRELATION_LIMIT with 256 in *. lia.
    + rewrite lookup_insert_eq. eauto.
    + intros j Hj. by rewrite lookup_insert_ne.
  - apply wp_update_pending; [|intros; wp_steps; done|done].
    intros r Hr Hp Hc. wp_steps; [|done]. split_and!.
    + by eapply table_ok_update.
    + rewrite lookup_insert_eq. eauto.
    + intros j Hj. by rewrite lookup_insert_ne.
Qed.

Lemma row_check_state r state now : row_check (set_row_state state now r) = row_check r.
Proof. done. Qed.

Lemma wp_finish_correlation k state now tbl :
  table_ok tbl → state ≠ pending →
  wp (finish_correlation k state now)
    (λ _ tbl', table_ok tbl' ∧
       ∃ r, tbl !! k = Some r ∧ is_pending r = true ∧ tbl' = <[k := set_row_state state now r]> tbl)
    (λ e tbl', e = PermissionError "correlation_not_pending" ∧ tbl' = tbl ∧
       ∀ r, tbl !! k = Some r → is_pending r = false) tbl.
Proof.
  intros Hok Hst. unfold finish_correlation. apply wp_bind, wp_update_pending.
  - intros r Hr Hp Hc. wp_steps; [|done]. split; [by eapply table_ok_update|eauto].
  - intros Hn. wp_steps; done.
  - intros r Hr Hp Hc. pose proof (to_check tbl Hok k r Hr) as Hr'.
    rewrite row_check_state in Hc. cbn beta in Hr'. congruence.
Qed.

Lemma lookup_abandon now (tbl : table) k :
  (abandon_pending now tbl).2 !! k =
  (λ r, if owned k && is_pending r then set_row_state abandoned now r else r) <$> tbl !! k.
Proof. simpl. rewrite map_lookup_imap. by destruct (tbl !! k). Qed.

Lemma abandon_pending_ok now tbl :
  table_ok tbl →
  table_ok (abandon_pending now tbl).2 ∧ pending_count (abandon_pending now tbl).2 = 0.
Proof.
  intros Hok.
  assert (pending_count (abandon_pending now tbl).2 = 0) as H0.
  { unfold pending_count. replace (filter _ _) with (∅ : table); [by rewrite map_size_empty|].
    symmetry. apply map_empty_filter_2. intros k r. rewrite lookup_abandon.
    destruct (tbl !! k) as [r0|]; [|done]. simpl. intros [= <-].
    destruct (owned k) eqn:Ho, (is_pending r0) eqn:Hp; simpl; rewrite ?Hp; done. }
  split; [|done]. split; [|by rewrite H0].
  intros k r. rewrite lookup_abandon. destruct (tbl !! k) as [r0|] eqn:Hr; [|done].
  simpl. intros [= <-]. pose proof (to_check tbl Hok k r0 Hr) as Hc. simpl in Hc.
  by destruct (owned k && is_pending r0).
Qed.

End Table.

(** ** Pruning *)

Section Prune.
Context `{Countable K}.
(** The id column of a key. *)
Context (key_id : K → UUID) (owned : K → bool).
Abbreviation table := (gmap K Correlation).

(** [ORDER BY updated_at DESC, last_sequence DESC, correlation_id DESC]: [p] comes
    no later than [q]. *)
Definition prune_order (p q : K * Correlation) : bool :=
  match String.compare (co_updated_at p.2) (co_updated_at q.2) with
  | Gt => true
  | Lt => false
  | Eq =>
    match Z.compare (co_last_sequence p.2) (co_last_sequence q.2) with
    | Gt => true
    | Lt => false
    | Eq => key_id q.1 <=? key_id p.1
    end
  end.

Definition prune_le (p q : K * Correlation) : Prop := prune_order p q = true.
#[local] Instance prune_le_dec : RelDecision prune_le := λ p q, decide (prune_order p q = true).

Definition terminal_rows (tbl : table) : list (K * Correlation) :=
  merge_sort prune_le
    (filter (λ p : K * Correlation, owned p.1 && negb (is_pending p.2) = true) (map_to_list tbl)).

(** [DELETE ... WHERE rowid IN (SELECT ... LIMIT -1 OFFSET 4096)]. *)
Definition _prune_terminal_correlations (tbl : table) : table :=
  let doomed := (drop _TERMINAL_CORRELATION_RETENTION_LIMIT (terminal_rows tbl)).*1 in
  filter (λ p : K * Correlation, p.1 ∉ doomed) tbl.

Lemma prune_le_spec p q :
  prune_le p q ↔
  String.compare (co_updated_at p.2) (co_updated_at q.2) = Gt ∨
  (co_updated_at p.2 = co_updated_at q.2 ∧
   (co_last_sequence q.2 < co_last_sequence p.2 ∨
    (co_last_sequence p.2 = co_last_sequence q.2 ∧ key_id q.1 ≤ key_id p.1))).
Proof.
  unfold prune_le, prune_order.
  destruct (String.compare _ _) eqn:Hu.
  - apply String.compare_eq_iff in Hu.
    destruct (Z.compare_spec (co_last_sequence p.2) (co_last_sequence q.2));
      rewrite ?Z.leb_le; naive_solver lia.
  - split; [done|]. intros [?|[He _]]; [done|]. by rewrite He, string_compare_refl in Hu.
  - naive_solver.
Qed.

#[local] Instance prune_le_total : Total prune_le.
Proof.
  intros p q. rewrite !prune_le_spec, (String.compare_antisym (co_updated_at q.2)).
  destruct (String.compare _ _) eqn:Hu; simpl; [|by auto..].
  apply String.compare_eq_iff in Hu. rewrite Hu.
  destruct (Z.lt_total (co_last_sequence p.2) (co_last_sequence q.2)) as [?|[?|?]]; [naive_solver| |naive_solver].
  destruct (Z.le_ge_cases (key_id p.1) (key_id q.1)); naive_solver lia.
Qed.

#[local] Instance prune_le_trans : Transitive prune_le.
Proof.
  intros p q r. rewrite !prune_le_spec.
  intros [H1|[H1 H1']] [H2|[H2 H2']].
  - left. by eapply string_compare_gt_trans.
  - left. by rewrite <- H2.
  - left. by rewrite H1.
  - right. rewrite H1. split; [done|]. lia.
Qed.

Lemma elem_of_terminal_rows tbl k r :
  (k, r) ∈ terminal_rows tbl ↔ tbl !! k = Some r ∧ owned k && negb (is_pending r) = true.
Proof.
  unfold terminal_rows. rewrite merge_sort_Permutation, list_elem_of_filter, elem_of_map_to_list.
  simpl. naive_solver.
Qed.

Lemma lookup_prune tbl k r :
  _prune_terminal_correlations tbl !! k = Some r ↔
  tbl !! k = Some r ∧
  (owned k && negb (is_pending r) = true →
   (k, r) ∈ take _TERMINAL_CORRELATION_RETENTION_LIMIT (terminal_rows tbl)).
Proof.
  unfold _prune_terminal_correlations. rewrite map_lookup_filter_Some. cbn [fst].
  pose proof (elem_of_terminal_rows tbl k r) as Ht.
  rewrite <- (take_drop _TERMINAL_CORRELATION_RETENTION_LIMIT (terminal_rows tbl)), elem_of_app in Ht.
  split; intros [Hk Hd]; split; try done.
  - intros Ho. destruct (proj2 Ht (conj Hk Ho)) as [?|Hdoom]; [done|].
    destruct Hd. apply list_elem_of_fmap. by exists (k, r).
  - intros ([k' r'] & [= <-] & Hdoom)%list_elem_of_fmap.
    assert ((k, r') ∈ terminal_rows tbl) as Hin.
    { rewrite <- (take_drop _TERMINAL_CORRELATION_RETENTION_LIMIT (terminal_rows tbl)).
      apply elem_of_app. by right. }
    apply elem_of_terminal_rows in Hin as [Hk' Ho]. assert (r' = r) as -> by congruence.
    specialize (Hd Ho).
    assert (NoDup (terminal_rows tbl)) as Hnd.
    { unfold terminal_rows. rewrite merge_sort_Permutation. apply NoDup_filter, NoDup_map_to_list. }
    rewrite <- (take_drop _TERMINAL_CORRELATION_RETENTION_LIMIT (terminal_rows tbl)) in Hnd.
    apply NoDup_app in Hnd as (_ & Hdis & _). by apply (Hdis (k, r)).
Qed.

Lemma prune_ok check_max tbl :
  table_ok owned check_max tbl →
  table_ok owned check_max (_prune_terminal_correlations tbl) ∧
  terminal_count owned (_prune_terminal_correlations tbl)
    ≤ Z.of_nat _TERMINAL_CORRELATION_RETENTION_LIMIT.
Proof.
  intros Hok. split; [split|].
  - intros k r [Hk _]%lookup_prune. by apply (to_check owned check_max tbl Hok k).
  - etrans; [|apply Hok]. apply pending_count_mono. intros k r [Hk _]%lookup_prune Hp.
    bool_props. eauto.
  - unfold terminal_count. apply inj_le. rewrite <- size_dom.
    transitivity (size (list_to_set (C := gset K)
      (take _TERMINAL_CORRELATION_RETENTION_LIMIT (terminal_rows tbl)).*1)).
    + apply subseteq_size. intros k [r Hr]%elem_of_dom.
      apply map_lookup_filter_Some in Hr as [[Hr Hp]%lookup_prune Ht].
      apply elem_of_list_to_set, list_elem_of_fmap. exists (k, r). auto.
    + rewrite size_list_to_set_le. rewrite length_fmap, length_take. lia.
Qed.

(** A row pruned is older than every terminal row kept. *)
Lemma prune_keeps_newest tbl k r k' r' :
  tbl !! k = Some r → _prune_terminal_correlations tbl !! k = None →
  _prune_terminal_correlations tbl !! k' = Some r' →
  owned k' && negb (is_pending r') = true → prune_le (k', r') (k, r).
Proof.
  intros Hk Hgone Hkept Ho. apply lookup_prune in Hkept as [Hk' Htake].
  specialize (Htake Ho).
  assert ((k, r) ∈ drop _TERMINAL_CORRELATION_RETENTION_LIMIT (terminal_rows tbl)) as Hdrop.
  { destruct (decide (owned k && negb (is_pending r) = true)) as [Ho'|Ho'].
    - pose proof (proj2 (elem_of_terminal_rows tbl k r) (conj Hk Ho')) as Hin.
      rewrite <- (take_drop _TERMINAL_CORRELATION_RETENTION_LIMIT (terminal_rows tbl)) in Hin.
      apply elem_of_app in Hin as [Hin|Hin]; [|done].
      assert (_prune_terminal_correlations tbl !! k = Some r) by by apply lookup_prune.
      congruence.
    - assert (_prune_terminal_correlations tbl !! k = Some r) by by apply lookup_prune.
      congruence. }
  assert (StronglySorted prune_le (terminal_rows tbl)) as Hs.
  { apply StronglySorted_merge_sort; apply _. }
  rewrite <- (take_drop _TERMINAL_CORRELATION_RETENTION_LIMIT (terminal_rows tbl)) in Hs.
  apply StronglySorted_app in Hs as (Hs & _). auto.
Qed.
End Prune.
