(* ===== verification/DuplexEdge.v ===== *)
(** * The edge's durable duplex store: [apps/edge/.../transport/duplex_state.py]

    [EdgeDuplexState] over its SQLite tables.  One call is one transaction: the
    operation runs on the connection's view, terminal rows are pruned, every
    256th write checks the database's integrity, then the view is committed and
    the file is synced.  What the operating system and SQLite answer (the clock,
    opening the trusted file and taking the write lock, [PRAGMA integrity_check],
    the commit, the sync) is the [EdgeEnv] of the call.  A failure before the
    commit rolls back; a failed sync comes after it. *)

From S2P Require Import Prelude ContractBase PttFraming DuplexTable.

Definition _EDGE_INTEGRITY_CHECK_WRITE_INTERVAL : Z := 256.

Record EdgeEnv := mkEdgeEnv {
  ee_now : result exn string;
  ee_open : result exn unit;
  ee_integrity : bool;
  ee_commit : result exn unit;
  ee_fsync : result exn unit;
}.

Record EdgeDB := mkEdgeDB {
  edge_duplex_sequences : gmap Direction Z;
  edge_duplex_correlations : gmap UUID Correlation;
}.

Record EdgeDuplexState := mkEdgeState {
  es_db : EdgeDB;
  writes_since_integrity_check : Z;
}.

(** A database [_initialize] has just created. *)
Definition new_edge_state : EdgeDuplexState := mkEdgeState (mkEdgeDB ∅ ∅) 0.

Definition edge_owned (_ : UUID) : bool := true.

(** A statement of the correlation table. *)
Definition on_table {A} (m : M (gmap UUID Correlation) exn A) : M EdgeDB exn A := λ db,
  let '(r, tbl) := m (edge_duplex_correlations db) in
  (r, mkEdgeDB (edge_duplex_sequences db) tbl).

Definition _last_sequence (direction : Direction) : M EdgeDB exn Z :=
  seqs ← gets edge_duplex_sequences;
  match (seqs : gmap Direction Z) !! direction with
  | None => mret 0
  | Some value => lift (_bounded_sequence value)
  end.

(** [INSERT ... ON CONFLICT(direction) DO UPDATE ... WHERE last_sequence=previous], with
    its row count and the column's CHECK. *)
Definition upsert_sequence (direction : Direction) (sequence previous : Z) : M EdgeDB exn Z :=
  seqs ← gets edge_duplex_sequences;
  _ ← raise_if (negb (between 0 sequence JCS_MAX_SAFE_INTEGER)) IntegrityError;
  if match (seqs : gmap Direction Z) !! direction with
     | None => true | Some value => value =? previous end
  then
    _ ← modify (λ db, mkEdgeDB (<[direction := sequence]> (edge_duplex_sequences db))
                         (edge_duplex_correlations db));
    mret 1
  else mret 0.

Definition edge_prune (db : EdgeDB) : EdgeDB :=
  mkEdgeDB (edge_duplex_sequences db)
    (_prune_terminal_correlations id edge_owned (edge_duplex_correlations db)).

Definition _transaction {A} (env : EdgeEnv) (operation : M EdgeDB exn A) :
    M EdgeDuplexState exn A := λ s,
  match ee_open env with
  | Raise e => (Raise e, s)
  | Ok _ =>
    match operation (es_db s) with
    | (Raise e, _) => (Raise e, s)
    | (Ok value, db) =>
      let next_writes := writes_since_integrity_check s + 1 in
      let run_integrity_check := _EDGE_INTEGRITY_CHECK_WRITE_INTERVAL <=? next_writes in
      if run_integrity_check && negb (ee_integrity env)
      then (Raise (PermissionError "edge_duplex_store_corrupt"), s)
      else
        match ee_commit env with
        | Raise e => (Raise e, s)
        | Ok _ =>
          let s' := mkEdgeState (edge_prune db) (if run_integrity_check then 0 else next_writes) in
          match ee_fsync env with Raise e => (Raise e, s') | Ok _ => (Ok value, s') end
        end
    end
  end.

Definition reserve_outbound (env : EdgeEnv) (correlation_id : UUID) (purpose kind : string) :
    M EdgeDuplexState exn Z :=
  _ ← lift (_require_purpose purpose);
  _ ← lift (_require_kind kind);
  now ← lift (ee_now env);
  _transaction env (
    previous ← _last_sequence edge_to_core;
    let sequence := previous + 1 in
    _ ← lift (_require_sequence_bounds sequence);
    changed ← upsert_sequence edge_to_core sequence previous;
    _ ← raise_if (negb (changed =? 1)) (PermissionError "sequence_allocation_conflict");
    _ ← on_table (_advance_correlation edge_owned JCS_MAX_SAFE_INTEGER correlation_id purpose kind
                    edge_to_core sequence now);
    mret sequence).

Definition reserve_event_envelope_sequence (env : EdgeEnv) (correlation_id : UUID)
    (purpose : string) : M EdgeDuplexState exn Z :=
  reserve_outbound env correlation_id purpose "event".

Definition accept_inbound (env : EdgeEnv) (sequence : Z) (correlation_id : UUID)
    (purpose kind : string) : M EdgeDuplexState exn unit :=
  _ ← lift (_require_sequence sequence);
  _ ← lift (_require_purpose purpose);
  _ ← lift (_require_kind kind);
  now ← lift (ee_now env);
  _transaction env (
    previous ← _last_sequence core_to_edge;
    _ ← raise_if (sequence <=? previous) (PermissionError "replayed_sequence_or_correlation");
    _ ← raise_if (negb (sequence =? previous + 1)) (PermissionError "sequence_gap");
    changed ← upsert_sequence core_to_edge sequence previous;
    _ ← raise_if (negb (changed =? 1)) (PermissionError "replayed_sequence_or_correlation");
    on_table (_advance_correlation edge_owned JCS_MAX_SAFE_INTEGER correlation_id purpose kind
                core_to_edge sequence now)).

Definition accept_response (env : EdgeEnv) (correlation_id : UUID) (purpose : string)
    (payload : list byte) : M EdgeDuplexState exn unit :=
  _ ← lift (_require_purpose purpose);
  _transaction env (on_table (require_pending_request correlation_id purpose edge_to_core)).

Definition _terminal (env : EdgeEnv) (correlation_id : UUID) (state : CorrelationState) :
    M EdgeDuplexState exn unit :=
  now ← lift (ee_now env);
  _transaction env (on_table (finish_correlation JCS_MAX_SAFE_INTEGER correlation_id state now)).

Definition complete (env : EdgeEnv) (correlation_id : UUID) : M EdgeDuplexState exn unit :=
  _terminal env correlation_id completed.

Definition abandon_correlation (env : EdgeEnv) (correlation_id : UUID) (reason : list Z) :
    M EdgeDuplexState exn unit :=
  _ ← lift (_require_reason reason); _terminal env correlation_id abandoned.

Definition abandon_connection (env : EdgeEnv) (reason : list Z) : M EdgeDuplexState exn unit :=
  _ ← lift (_require_reason reason);
  now ← lift (ee_now env);
  _transaction env (on_table (abandon_pending edge_owned now)).

(** ** What the store keeps *)

(** The two counters. *)
Definition last_of (direction : Direction) (db : EdgeDB) : Z :=
  default 0 (edge_duplex_sequences db !! direction).

Record edge_db_ok (db : EdgeDB) : Prop := {
  ed_sequences : map_Forall (λ _ v, 0 ≤ v ≤ JCS_MAX_SAFE_INTEGER) (edge_duplex_sequences db);
  ed_table : table_ok edge_owned JCS_MAX_SAFE_INTEGER (edge_duplex_correlations db);
}.

Record edge_ok (s : EdgeDuplexState) : Prop := {
  eo_db : edge_db_ok (es_db s);
  eo_writes : 0 ≤ writes_since_integrity_check s < _EDGE_INTEGRITY_CHECK_WRITE_INTERVAL;
  eo_terminal : terminal_count edge_owned (edge_duplex_correlations (es_db s))
    ≤ Z.of_nat _TERMINAL_CORRELATION_RETENTION_LIMIT;
}.

Lemma edge_ok_new : edge_ok new_edge_state.
Proof. by repeat constructor. Qed.

Lemma wp_on_table {A} (m : M (gmap UUID Correlation) exn A) Q R db :
  wp m (λ a tbl, Q a (mkEdgeDB (edge_duplex_sequences db) tbl))
       (λ e tbl, R e (mkEdgeDB (edge_duplex_sequences db) tbl)) (edge_duplex_correlations db) →
  wp (on_table m) Q R db.
Proof. unfold wp, on_table. by destruct (m _) as [[] ?]. Qed.

Lemma wp_last_sequence direction db (Q : Z → EdgeDB → Prop) (R : exn → EdgeDB → Prop) :
  edge_db_ok db → (0 ≤ last_of direction db ≤ JCS_MAX_SAFE_INTEGER → Q (last_of direction db) db) →
  wp (_last_sequence direction) Q R db.
Proof.
  intros Hok HQ. unfold _last_sequence, last_of in *. wp_steps.
  - rename H into Hv. pose proof (ed_sequences db Hok direction _ Heqo) as Hb. cbn beta in Hb.
    unfold _bounded_sequence, _require_sequence_bounds in Hv. simpl in HQ.
    apply between_spec in Hb as Hb'. rewrite Hb' in Hv. simpl in Hv. injection Hv as <-. auto.
  - rename H into Hv. pose proof (ed_sequences db Hok direction _ Heqo) as Hb. cbn beta in Hb.
    unfold _bounded_sequence, _require_sequence_bounds in Hv.
    apply between_spec in Hb as Hb'. by rewrite Hb' in Hv.
  - by apply HQ.
Qed.

(** The upsert of the counter the code has just read. *)
Lemma wp_upsert direction sequence db (Q : Z → EdgeDB → Prop) (R : exn → EdgeDB → Prop) :
  0 ≤ sequence ≤ JCS_MAX_SAFE_INTEGER →
  Q 1 (mkEdgeDB (<[direction := sequence]> (edge_duplex_sequences db))
         (edge_duplex_correlations db)) →
  wp (upsert_sequence direction sequence (last_of direction db)) Q R db.
Proof.
  intros Hb HQ. unfold upsert_sequence, last_of. wp_steps; try done.
  - destruct (edge_duplex_sequences db !! direction); simpl in *; [|done]. by bool_props.
  - bool_props. by apply between_false in H.
Qed.

Lemma edge_db_ok_prune db : edge_db_ok db → edge_db_ok (edge_prune db).
Proof. intros [Hs Ht]. split; [done|]. by apply prune_ok. Qed.

(** A failed sync is the only failure that leaves the transaction's effect behind. *)
Definition synced (env : EdgeEnv) : bool := is_ok (ee_fsync env).

Lemma wp_transaction {A} env (operation : M EdgeDB exn A) (P : A → EdgeDB → Prop) s :
  edge_ok s →
  wp operation (λ a db, edge_db_ok db ∧ P a db) (λ _ _, True) (es_db s) →
  wp (_transaction env operation)
    (λ a s', edge_ok s' ∧ ∃ db, P a db ∧ es_db s' = edge_prune db)
    (λ e s', edge_ok s' ∧
       (s' = s ∨ synced env = false ∧ ∃ a db, P a db ∧ es_db s' = edge_prune db)) s.
Proof.
  intros Hok Hop. unfold wp in *. unfold _transaction. destruct (ee_open env); [|by auto].
  destruct (operation (es_db s)) as [[value|e] db]; [|by auto].
  destruct Hop as [Hdb HP]. pose proof (eo_writes s Hok) as Hw.
  destruct (_ && _) eqn:Hi; [by auto|]. destruct (ee_commit env); [|by auto].
  assert (edge_ok (mkEdgeState (edge_prune db)
    (if _EDGE_INTEGRITY_CHECK_WRITE_INTERVAL <=? writes_since_integrity_check s + 1 then 0
     else writes_since_integrity_check s + 1))) as Hok'.
  { split; [by apply edge_db_ok_prune| |apply (prune_ok id edge_owned JCS_MAX_SAFE_INTEGER), Hdb].
    simpl. destruct (_ <=? _) eqn:Hle; bool_props; [done|lia]. }
  unfold synced. destruct (ee_fsync env); simpl; eauto 10.
Qed.

(** What a counted frame does to the database. *)
Definition counted (direction : Direction) (correlation_id : UUID) (db : EdgeDB) (n : Z)
    (db' : EdgeDB) : Prop :=
  n = last_of direction db + 1 ∧
  edge_duplex_sequences db' = <[direction := n]> (edge_duplex_sequences db) ∧
  is_Some (edge_duplex_correlations db' !! correlation_id) ∧
  (∀ k, k ≠ correlation_id →
     edge_duplex_correlations db' !! k = edge_duplex_correlations db !! k).

Lemma edge_db_ok_counted direction n db tbl :
  edge_db_ok db → 0 ≤ n ≤ JCS_MAX_SAFE_INTEGER →
  table_ok edge_owned JCS_MAX_SAFE_INTEGER tbl →
  edge_db_ok (mkEdgeDB (<[direction := n]> (edge_duplex_sequences db)) tbl).
Proof. intros Hok Hn Ht. split; [|done]. apply map_Forall_insert_2; [done|apply Hok]. Qed.

Lemma wp_counted_advance direction correlation_id purpose kind now db n :
  edge_db_ok db → n = last_of direction db + 1 → 0 ≤ n ≤ JCS_MAX_SAFE_INTEGER →
  wp (on_table (_advance_correlation edge_owned JCS_MAX_SAFE_INTEGER correlation_id purpose kind
        direction n now))
    (λ _ db', edge_db_ok db' ∧ counted direction correlation_id db n db') (λ _ _, True)
    (mkEdgeDB (<[direction := n]> (edge_duplex_sequences db)) (edge_duplex_correlations db)).
Proof.
  intros Hok Hn Hb. apply wp_on_table. cbn [edge_duplex_correlations edge_duplex_sequences].
  eapply wp_mono; [apply wp_advance, Hok| |done]. intros [] tbl (Ht & Hk & Hother).
  split; [by apply edge_db_ok_counted|]. done.
Qed.

Lemma wp_reserve_outbound env correlation_id purpose kind s :
  edge_ok s →
  wp (reserve_outbound env correlation_id purpose kind)
    (λ n s', edge_ok s' ∧ ∃ db, counted edge_to_core correlation_id (es_db s) n db ∧
       es_db s' = edge_prune db)
    (λ e s', edge_ok s' ∧ (s' = s ∨ synced env = false ∧ ∃ n db,
       counted edge_to_core correlation_id (es_db s) n db ∧ es_db s' = edge_prune db)) s.
Proof.
  intros Hok. pose proof (eo_db s Hok) as Hdb. unfold reserve_outbound. wp_steps; eauto.
  apply (wp_transaction env _ (counted edge_to_core correlation_id (es_db s))); [done|].
  apply wp_bind, wp_last_sequence; [done|]. intros Hl. wp_steps; [|done].
  unfold _require_sequence_bounds, reject_if in *.
  destruct (between 0 (last_of edge_to_core (es_db s) + 1) JCS_MAX_SAFE_INTEGER) eqn:Hb; [|done].
  apply between_spec in Hb. apply wp_upsert; [done|]. wp_steps; [|done].
  eapply wp_mono; [by apply wp_counted_advance| |done]. intros [] db Hc. by wp_steps.
Qed.

Lemma wp_accept_inbound env sequence correlation_id purpose kind s :
  edge_ok s →
  wp (accept_inbound env sequence correlation_id purpose kind)
    (λ _ s', edge_ok s' ∧ ∃ db, counted core_to_edge correlation_id (es_db s) sequence db ∧
       es_db s' = edge_prune db)
    (λ e s', edge_ok s' ∧ (s' = s ∨ synced env = false ∧ ∃ db,
       counted core_to_edge correlation_id (es_db s) sequence db ∧ es_db s' = edge_prune db)) s.
Proof.
  intros Hok. pose proof (eo_db s Hok) as Hdb. unfold accept_inbound. wp_steps; eauto.
  eapply wp_mono; [apply (wp_transaction env _
    (λ _ : unit, counted core_to_edge correlation_id (es_db s) sequence)); [done|]| |];
    [|done|naive_solver].
  apply wp_bind, wp_last_sequence; [done|]. intros Hl.
  assert (0 ≤ sequence ≤ JCS_MAX_SAFE_INTEGER) as Hb.
  { unfold _require_sequence, _require_sequence_bounds, reject_if in *.
    destruct (between 0 sequence JCS_MAX_SAFE_INTEGER) eqn:Hb; [|done]. by apply between_spec. }
  wp_steps; try done. bool_props. apply wp_upsert; [done|]. wp_steps; [|done].
  by apply wp_counted_advance.
Qed.

(** An operation that touches rows only. *)
Lemma wp_rows env (m : M (gmap UUID Correlation) exn unit) s :
  edge_ok s →
  (∀ tbl, table_ok edge_owned JCS_MAX_SAFE_INTEGER tbl →
     wp m (λ _ tbl', table_ok edge_owned JCS_MAX_SAFE_INTEGER tbl') (λ _ _, True) tbl) →
  wp (_transaction env (on_table m))
    (λ _ s', edge_ok s' ∧ ∀ d, last_of d (es_db s') = last_of d (es_db s))
    (λ _ s', edge_ok s' ∧ ∀ d, last_of d (es_db s') = last_of d (es_db s)) s.
Proof.
  intros Hok Hm.
  eapply wp_mono; [apply (wp_transaction env _
    (λ _ db, edge_duplex_sequences db = edge_duplex_sequences (es_db s))); [done|]| |].
  - apply wp_on_table. eapply wp_mono; [apply Hm, Hok| |done].
    intros [] tbl Ht. split; [|done]. split; [apply Hok|done].
  - intros _ s' (Hok' & db & Hs & ->). split; [done|]. intros d. unfold last_of. simpl. by rewrite Hs.
  - intros e s' (Hok' & [->|(_ & _ & db & Hs & ->)]); split; try done.
    intros d. unfold last_of. simpl. by rewrite Hs.
Qed.

Lemma wp_terminal env correlation_id state s :
  edge_ok s → state ≠ pending →
  wp (_terminal env correlation_id state)
    (λ _ s', edge_ok s' ∧ ∀ d, last_of d (es_db s') = last_of d (es_db s))
    (λ _ s', edge_ok s' ∧ ∀ d, last_of d (es_db s') = last_of d (es_db s)) s.
Proof.
  intros Hok Hst. unfold _terminal. wp_steps; [|done]. apply wp_rows; [done|].
  intros tbl Ht. eapply wp_mono; [by apply wp_finish_correlation|naive_solver|done].
Qed.

(** The store's calls, for whole histories. *)
Inductive edge_op :=
| OpReserve (correlation_id : UUID) (purpose kind : string)
| OpAccept (sequence : Z) (correlation_id : UUID) (purpose kind : string)
| OpAcceptResponse (correlation_id : UUID) (purpose : string) (payload : list byte)
| OpComplete (correlation_id : UUID)
| OpAbandon (correlation_id : UUID) (reason : list Z)
| OpAbandonConnection (reason : list Z).

Definition run_edge_op (env : EdgeEnv) (op : edge_op) : M EdgeDuplexState exn unit :=
  match op with
  | OpReserve c p k => _ ← reserve_outbound env c p k; mret tt
  | OpAccept n c p k => accept_inbound env n c p k
  | OpAcceptResponse c p b => accept_response env c p b
  | OpComplete c => complete env c
  | OpAbandon c r => abandon_correlation env c r
  | OpAbandonConnection r => abandon_connection env r
  end.

Lemma wp_row_ops env op s :
  edge_ok s → match op with OpReserve _ _ _ | OpAccept _ _ _ _ => False | _ => True end →
  wp (run_edge_op env op)
    (λ _ s', edge_ok s' ∧ ∀ d, last_of d (es_db s') = last_of d (es_db s))
    (λ _ s', edge_ok s' ∧ ∀ d, last_of d (es_db s') = last_of d (es_db s)) s.
Proof.
  intros Hok Hop. destruct op; try done; simpl.
  - unfold accept_response. wp_steps; [|done]. apply wp_rows; [done|].
    intros tbl Ht. unfold require_pending_request. by wp_steps.
  - by apply wp_terminal.
  - unfold abandon_correlation. wp_steps; [|done]. by apply wp_terminal.
  - unfold abandon_connection. wp_steps; [|done..]. apply wp_rows; [done|].
    intros tbl Ht. pose proof (abandon_pending_ok edge_owned JCS_MAX_SAFE_INTEGER a0 tbl Ht) as [? _].
    unfold abandon_pending in *. by wp_steps.
Qed.

Inductive edge_reachable : EdgeDuplexState → Prop :=
| er_new : edge_reachable new_edge_state
| er_op s env op r s' :
  edge_reachable s → run_edge_op env op s = (r, s') → edge_reachable s'.

Lemma edge_reachable_ok s : edge_reachable s → edge_ok s.
Proof.
  induction 1 as [|s env op r s' _ IH Hrun]; [apply edge_ok_new|].
  assert (wp (run_edge_op env op) (λ _ s', edge_ok s') (λ _ s', edge_ok s') s) as Hw.
  { destruct op as [c p k|n c p k|c p b|c|c y|y]; simpl.
    - apply wp_bind. eapply wp_mono; [by apply wp_reserve_outbound| |]; [|naive_solver].
      intros n s1 [Hok1 _]. by wp_steps.
    - eapply wp_mono; [by apply wp_accept_inbound| |]; naive_solver.
    - eapply wp_mono; [apply (wp_row_ops env (OpAcceptResponse c p b)); done| |]; naive_solver.
    - eapply wp_mono; [apply (wp_row_ops env (OpComplete c)); done| |]; naive_solver.
    - eapply wp_mono; [apply (wp_row_ops env (OpAbandon c y)); done| |]; naive_solver.
    - eapply wp_mono; [apply (wp_row_ops env (OpAbandonConnection y)); done| |]; naive_solver. }
  unfold wp in Hw. rewrite Hrun in Hw. by destruct r.
Qed.

(** The durable store stays bounded and well formed.  Whatever calls and
    failures led to it, a store's counters are JCS-safe, at most 256 correlations are
    pending and at most 4,096 terminal rows are retained, and every row satisfies the
    table's CHECK. *)
Theorem edge_store_bounded s :
  edge_reachable s →
  (∀ d, 0 ≤ last_of d (es_db s) ≤ JCS_MAX_SAFE_INTEGER) ∧
  pending_count edge_owned (edge_duplex_correlations (es_db s)) ≤ 256 ∧
  terminal_count edge_owned (edge_duplex_correlations (es_db s)) ≤ 4096 ∧
  map_Forall (λ _ r, 1 ≤ co_first_sequence r ≤ co_last_sequence r ∧
                     co_last_sequence r ≤ JCS_MAX_SAFE_INTEGER)
    (edge_duplex_correlations (es_db s)).
Proof.
  intros Hs%edge_reachable_ok. destruct Hs as [[Hseq [Hcheck Hpend]] _ Hterm]. split_and!.
  - intros d. unfold last_of. destruct (_ !! d) eqn:Hd; simpl; [by apply (Hseq d)|done].
  - exact Hpend.
  - exact Hterm.
  - intros k r Hr. pose proof (Hcheck k r Hr) as Hc. cbn beta in Hc. unfold row_check in Hc.
    bool_props. rewrite !between_spec in *. lia.
Qed.

(** A call either happens or it does not.  When a call raises and the file was
    synced, the store is what it was, counters and rows. *)
Theorem edge_call_atomic s env op e s' :
  synced env = true → run_edge_op env op s = (Raise e, s') → s' = s.
Proof.
  intros Hsync. unfold synced in Hsync.
  assert (∀ A (operation : M EdgeDB exn A), wp (_transaction env operation)
    (λ _ _, True) (λ _ s', s' = s) s) as Htx.
  { intros A operation. unfold wp, _transaction. destruct (ee_open env); [|done].
    destruct (operation _) as [[v|] db]; [|done]. destruct (_ && _); [done|].
    destruct (ee_commit env); [|done]. by destruct (ee_fsync env). }
  assert (wp (run_edge_op env op) (λ _ _, True) (λ _ s', s' = s) s) as Hw.
  { destruct op; simpl; unfold reserve_outbound, accept_inbound, accept_response, complete,
      abandon_correlation, abandon_connection, _terminal; wp_steps; try done; try apply Htx. }
  intros Hrun. unfold wp in Hw. by rewrite Hrun in Hw.
Qed.

(** A reply numbered behind its request is refused.  The two directions count
    independently, but the row of a correlation must keep its last sequence at or after
    its first one: when the edge's next outbound number is smaller than the number the
    core's pending request carried, reserving the response raises IntegrityError (not a
    PermissionError) and leaves the store as it was. *)
Theorem edge_response_behind_request env correlation_id purpose now r s :
  edge_reachable s → ee_open env = Ok tt → ee_now env = Ok now →
  edge_duplex_correlations (es_db s) !! correlation_id = Some r →
  co_purpose r = purpose → purpose ∈ _PURPOSES → co_request_direction r = core_to_edge →
  co_state r = pending → last_of edge_to_core (es_db s) + 1 < co_first_sequence r →
  reserve_outbound env correlation_id purpose "response" s = (Raise IntegrityError, s).
Proof.
  intros Hs%edge_reachable_ok Hopen Hnow Hr <- Hp Hd Hst Hlt.
  pose proof (eo_db s Hs) as Hdb. pose proof (to_check _ _ _ (ed_table _ Hdb) _ _ Hr) as Hc.
  cbn beta in Hc. unfold row_check in Hc. bool_props. rewrite !between_spec in *.
  assert (wp (reserve_outbound env correlation_id (co_purpose r) "response")
    (λ _ _, False) (λ e s', e = IntegrityError ∧ s' = s) s) as Hw.
  2: { unfold wp in Hw. destruct (reserve_outbound _ _ _ _ _) as [[] ?]; naive_solver. }
  unfold reserve_outbound, _require_purpose, _require_kind. rewrite Hnow.
  rewrite (bool_decide_true (co_purpose r ∈ _PURPOSES)) by done. do 3 (apply wp_bind, wp_lift; [intros ? [= <-]|done]).
  set (operation := mbind _ (_last_sequence edge_to_core)).
  assert (wp operation (λ _ _, False) (λ e _, e = IntegrityError) (es_db s)) as Hop.
  { apply wp_bind, wp_last_sequence; [done|]. intros Hl.
    apply wp_bind, wp_lift; unfold _require_sequence_bounds, reject_if;
      rewrite (proj2 (between_spec _ _ _)) by lia; [intros ? [= <-]|done].
    apply wp_bind, wp_upsert; [lia|]. apply wp_bind. cbn [negb raise_if Z.eqb Pos.eqb].
    apply wp_ret, wp_bind, wp_on_table. cbn [edge_duplex_correlations].
    unfold _advance_correlation. apply wp_bind, wp_gets. rewrite bool_decide_false by set_solver.
    rewrite bool_decide_true by done. apply wp_bind, wp_ret, wp_bind. unfold id. rewrite Hr, Hd, Hst.
    rewrite bool_decide_true by done. apply wp_ret, wp_bind, wp_update_pending.
    - intros r' Hr' _ Hck. rewrite Hr in Hr'. injection Hr' as <-. unfold row_check in Hck.
      bool_props. rewrite !between_spec in *. simpl in *. lia.
    - intros Hn. apply Hn in Hr. unfold is_pending in Hr. by bool_props.
    - done. }
  unfold wp in *. unfold _transaction. rewrite Hopen. by destruct (operation _) as [[] ?].
Qed.

(** ** Witnesses *)

Definition quiet_env : EdgeEnv := mkEdgeEnv (Ok "2026-01-01T00:00:00.000000Z"%string) (Ok tt) true (Ok tt) (Ok tt).

(** The core's first request is lost with its connection; the second one arrives. *)
Definition sample_edge1 : EdgeDuplexState :=
  (run_edge_op quiet_env (OpAccept 1 10 "reachy.command.v1" "request") new_edge_state).2.
Definition sample_edge2 : EdgeDuplexState :=
  (run_edge_op quiet_env (OpAbandonConnection [100]) sample_edge1).2.
Definition sample_edge : EdgeDuplexState :=
  (run_edge_op quiet_env (OpAccept 2 11 "reachy.command.v1" "request") sample_edge2).2.

Lemma sample_edge_reachable : edge_reachable sample_edge.
Proof.
  apply (er_op sample_edge2 quiet_env (OpAccept 2 11 "reachy.command.v1" "request") (Ok tt));
    [|vm_compute; reflexivity].
  apply (er_op sample_edge1 quiet_env (OpAbandonConnection [100]) (Ok tt));
    [|vm_compute; reflexivity].
  apply (er_op new_edge_state quiet_env (OpAccept 1 10 "reachy.command.v1" "request") (Ok tt));
    [apply er_new|vm_compute; reflexivity].
Qed.

Lemma edge_store_bounded_witness :
  last_of core_to_edge (es_db sample_edge) = 2 ∧
  0 ≤ last_of core_to_edge (es_db sample_edge) ≤ JCS_MAX_SAFE_INTEGER.
Proof.
  split; [vm_compute; reflexivity|].
  apply (edge_store_bounded sample_edge sample_edge_reachable).
Defined.

Lemma edge_call_atomic_witness :
  (run_edge_op quiet_env (OpAccept 2 12 "reachy.command.v1" "request") sample_edge).2 = sample_edge.
Proof.
  apply (edge_call_atomic sample_edge quiet_env (OpAccept 2 12 "reachy.command.v1" "request")
    (PermissionError "replayed_sequence_or_correlation")).
  - reflexivity.
  - vm_compute. reflexivity.
Defined.

Lemma edge_response_behind_request_witness :
  reserve_outbound quiet_env 11 "reachy.command.v1" "response" sample_edge
  = (Raise IntegrityError, sample_edge).
Proof.
  apply (edge_response_behind_request quiet_env 11 "reachy.command.v1"
    "2026-01-01T00:00:00.000000Z"
    (mkCorrelation "reachy.command.v1" core_to_edge pending 2 2
       "2026-01-01T00:00:00.000000Z" "2026-01-01T00:00:00.000000Z")); try reflexivity.
  - apply sample_edge_reachable.
  - vm_compute. left.
Defined.
