(* ===== verification/DuplexCore.v ===== *)
(** * The core's durable duplex store: [apps/core/.../adapters/reachy/duplex_state.py]

    [CoreDuplexState] over the household database: the device row carries the
    receive counter, [reachy_core_tx_sequences] the transmit counter, and the
    correlation rows are keyed by device.  [_commit_sync] runs an operation and
    the pruning in one unit of work and turns [IntegrityError] into
    [PermissionError]; what the clock, the unit of work's opening and its commit
    answer is the [CoreEnv] of the call. *)

From S2P Require Import Prelude ContractBase PttFraming DuplexTable.

Module CoreDuplex.

Definition MAX_BOUNDED_COUNT : Z := 9000000000000000.

Record CoreEnv := mkCoreEnv {
  ce_now : result exn string;
  ce_begin : result exn unit;
  ce_commit : result exn unit;
}.

Record Device := mkDevice {
  dv_kind : string;
  dv_revoked_at : option string;
  dv_last_sequence : Z;
}.

Record CoreDB := mkCoreDB {
  devices : gmap UUID Device;
  reachy_core_tx_sequences : gmap UUID Z;
  reachy_duplex_correlations : gmap (UUID * UUID) Correlation;
}.

Definition core_key_id (k : UUID * UUID) : UUID := k.2.
Definition core_owned (device_id : UUID) (k : UUID * UUID) : bool := bool_decide (k.1 = device_id).

Definition on_rows {A} (m : M (gmap (UUID * UUID) Correlation) exn A) : M CoreDB exn A := λ db,
  let '(r, tbl) := m (reachy_duplex_correlations db) in
  (r, mkCoreDB (devices db) (reachy_core_tx_sequences db) tbl).

(** The device row of the [WHERE] clauses: a Reachy that is not revoked. *)
Definition current_device (device_id : UUID) (db : CoreDB) : option Device :=
  match devices db !! device_id with
  | Some d =>
    if bool_decide (dv_kind d = "reachy"%string) && bool_decide (dv_revoked_at d = None)
    then Some d else None
  | None => None
  end.

Definition _require_current_device (device_id : UUID) : M CoreDB exn unit :=
  row ← gets (current_device device_id);
  raise_if (bool_decide (row = None)) (PermissionError "reachy_device_not_current").

Definition _device_last_sequence (device_id : UUID) : M CoreDB exn Z :=
  row ← gets (current_device device_id);
  match row with
  | None => raise (PermissionError "reachy_device_not_current")
  | Some d => lift (_bounded_sequence (dv_last_sequence d))
  end.

Definition sequence_check (sequence : Z) : bool := between 0 sequence MAX_BOUNDED_COUNT.

Definition set_tx (device_id : UUID) (sequence : Z) (db : CoreDB) : CoreDB :=
  mkCoreDB (devices db) (<[device_id := sequence]> (reachy_core_tx_sequences db))
    (reachy_duplex_correlations db).

(** The transmit counter: [INSERT] when there is no row, else [UPDATE ... WHERE
    last_sequence=previous]; the row count. *)
Definition write_tx (device_id : UUID) (sequence previous : Z) : M CoreDB exn Z :=
  row ← gets (λ db, reachy_core_tx_sequences db !! device_id);
  match (row : option Z) with
  | None =>
    _ ← raise_if (negb (sequence_check sequence)) IntegrityError;
    _ ← modify (set_tx device_id sequence); mret 1
  | Some value =>
    if value =? previous then
      _ ← raise_if (negb (sequence_check sequence)) IntegrityError;
      _ ← modify (set_tx device_id sequence); mret 1
    else mret 0
  end.

(** [UPDATE devices SET last_sequence=? WHERE id=? AND revoked_at IS NULL AND
    last_sequence=?]. *)
Definition write_rx (device_id : UUID) (sequence previous : Z) : M CoreDB exn Z :=
  row ← gets (λ db, devices db !! device_id);
  match (row : option Device) with
  | Some d =>
    if bool_decide (dv_revoked_at d = None) && (dv_last_sequence d =? previous) then
      _ ← raise_if (negb (sequence_check sequence)) IntegrityError;
      _ ← modify (λ db, mkCoreDB
            (<[device_id := mkDevice (dv_kind d) (dv_revoked_at d) sequence]> (devices db))
            (reachy_core_tx_sequences db) (reachy_duplex_correlations db));
      mret 1
    else mret 0
  | None => mret 0
  end.

Definition core_prune (device_id : UUID) (db : CoreDB) : CoreDB :=
  mkCoreDB (devices db) (reachy_core_tx_sequences db)
    (_prune_terminal_correlations core_key_id (core_owned device_id)
       (reachy_duplex_correlations db)).

Definition translate_integrity (e : exn) : exn :=
  match e with
  | IntegrityError => PermissionError "replayed_sequence_or_correlation"
  | _ => e
  end.

Definition _commit_sync {A} (env : CoreEnv) (device_id : UUID) (operation : M CoreDB exn A) :
    M CoreDB exn A := λ db,
  match ce_begin env with
  | Raise e => (Raise (translate_integrity e), db)
  | Ok _ =>
    match operation db with
    | (Raise e, _) => (Raise (translate_integrity e), db)
    | (Ok value, db') =>
      match ce_commit env with
      | Raise e => (Raise (translate_integrity e), db)
      | Ok _ => (Ok value, core_prune device_id db')
      end
    end
  end.

Section Operations.
Context (device_id : UUID).

Definition advance (correlation_id : UUID) (purpose kind : string) (direction : Direction)
    (sequence : Z) (now : string) : M CoreDB exn unit :=
  on_rows (_advance_correlation (core_owned device_id) MAX_BOUNDED_COUNT
             (device_id, correlation_id) purpose kind direction sequence now).

Definition reserve_outbound (env : CoreEnv) (correlation_id : UUID) (purpose kind : string) :
    M CoreDB exn Z :=
  _ ← lift (_require_purpose purpose);
  _ ← lift (_require_kind kind);
  now ← lift (ce_now env);
  _commit_sync env device_id (
    _ ← _require_current_device device_id;
    row ← gets (λ db, reachy_core_tx_sequences db !! device_id);
    previous ← lift (match (row : option Z) with
                     | None => Ok 0 | Some value => _bounded_sequence value end);
    let sequence := previous + 1 in
    _ ← lift (_require_sequence_bounds sequence);
    changed ← write_tx device_id sequence previous;
    _ ← raise_if (negb (changed =? 1)) (PermissionError "sequence_allocation_conflict");
    _ ← advance correlation_id purpose kind core_to_edge sequence now;
    mret sequence).

Definition accept_inbound (env : CoreEnv) (sequence : Z) (correlation_id : UUID)
    (purpose kind : string) : M CoreDB exn unit :=
  _ ← lift (_require_sequence sequence);
  _ ← lift (_require_purpose purpose);
  _ ← lift (_require_kind kind);
  now ← lift (ce_now env);
  _commit_sync env device_id (
    previous ← _device_last_sequence device_id;
    _ ← raise_if (sequence <=? previous) (PermissionError "replayed_sequence_or_correlation");
    _ ← raise_if (negb (sequence =? previous + 1)) (PermissionError "sequence_gap");
    changed ← write_rx device_id sequence previous;
    _ ← raise_if (negb (changed =? 1)) (PermissionError "replayed_sequence_or_correlation");
    advance correlation_id purpose kind edge_to_core sequence now).

Definition accept_response (env : CoreEnv) (correlation_id : UUID) (purpose : string)
    (payload : list byte) : M CoreDB exn unit :=
  _ ← lift (_require_purpose purpose);
  _commit_sync env device_id
    (on_rows (require_pending_request (device_id, correlation_id) purpose core_to_edge)).

Definition _terminal (env : CoreEnv) (correlation_id : UUID) (state : CorrelationState) :
    M CoreDB exn unit :=
  now ← lift (ce_now env);
  _commit_sync env device_id
    (on_rows (finish_correlation MAX_BOUNDED_COUNT (device_id, correlation_id) state now)).

Definition complete (env : CoreEnv) (correlation_id : UUID) : M CoreDB exn unit :=
  _terminal env correlation_id completed.

Definition abandon_correlation (env : CoreEnv) (correlation_id : UUID) (reason : list Z) :
    M CoreDB exn unit :=
  _ ← lift (_require_reason reason); _terminal env correlation_id abandoned.

Definition abandon_connection (env : CoreEnv) (reason : list Z) : M CoreDB exn unit :=
  _ ← lift (_require_reason reason);
  now ← lift (ce_now env);
  _commit_sync env device_id (on_rows (abandon_pending (core_owned device_id) now)).

(** ** What the store keeps *)

Definition sent (db : CoreDB) : Z := default 0 (reachy_core_tx_sequences db !! device_id).
Definition received (db : CoreDB) : Z := from_option dv_last_sequence 0 (devices db !! device_id).

Record core_ok (db : CoreDB) : Prop := {
  ck_sent : 0 ≤ sent db ≤ MAX_BOUNDED_COUNT;
  ck_received : 0 ≤ received db ≤ MAX_BOUNDED_COUNT;
  ck_table : table_ok (core_owned device_id) MAX_BOUNDED_COUNT (reachy_duplex_correlations db);
}.

(** Nothing of another device changes, and no device is added, revoked or renamed. *)
Record same_elsewhere (db db' : CoreDB) : Prop := {
  se_devices : ∀ d, d ≠ device_id → devices db' !! d = devices db !! d;
  se_device : (λ v, (dv_kind v, dv_revoked_at v)) <$> devices db' !! device_id
            = (λ v, (dv_kind v, dv_revoked_at v)) <$> devices db !! device_id;
  se_tx : ∀ d, d ≠ device_id →
    reachy_core_tx_sequences db' !! d = reachy_core_tx_sequences db !! d;
  se_rows : ∀ k, k.1 ≠ device_id →
    reachy_duplex_correlations db' !! k = reachy_duplex_correlations db !! k;
}.

Lemma same_elsewhere_refl db : same_elsewhere db db.
Proof. done. Qed.

Lemma wp_on_rows {A} (m : M (gmap (UUID * UUID) Correlation) exn A) Q R db :
  wp m (λ a tbl, Q a (mkCoreDB (devices db) (reachy_core_tx_sequences db) tbl))
       (λ e tbl, R e (mkCoreDB (devices db) (reachy_core_tx_sequences db) tbl))
     (reachy_duplex_correlations db) →
  wp (on_rows m) Q R db.
Proof. unfold wp, on_rows. by destruct (m _) as [[] ?]. Qed.

Lemma prune_elsewhere db : same_elsewhere db (core_prune device_id db).
Proof.
  split; try done. intros k Hk. simpl. apply option_eq. intros r. rewrite lookup_prune.
  unfold core_owned. rewrite bool_decide_false by done. naive_solver.
Qed.

Lemma same_elsewhere_trans db1 db2 db3 :
  same_elsewhere db1 db2 → same_elsewhere db2 db3 → same_elsewhere db1 db3.
Proof.
  intros H12 H23. split; intros.
  - by rewrite (se_devices _ _ H23), (se_devices _ _ H12).
  - by rewrite (se_device _ _ H23), (se_device _ _ H12).
  - by rewrite (se_tx _ _ H23), (se_tx _ _ H12).
  - by rewrite (se_rows _ _ H23), (se_rows _ _ H12).
Qed.

Lemma core_ok_prune db : core_ok db → core_ok (core_prune device_id db).
Proof. intros []. split; try done. by apply prune_ok. Qed.

(** A unit of work commits the whole operation or nothing. *)
Lemma wp_commit_sync {A} env (operation : M CoreDB exn A) (P : A → CoreDB → Prop) db :
  wp operation (λ a db', core_ok db' ∧ same_elsewhere db db' ∧ P a db') (λ _ _, True) db →
  wp (_commit_sync env device_id operation)
    (λ a db', core_ok db' ∧ same_elsewhere db db' ∧
       terminal_count (core_owned device_id) (reachy_duplex_correlations db') ≤ 4096 ∧
       ∃ db1, P a db1 ∧ db' = core_prune device_id db1)
    (λ _ db', db' = db) db.
Proof.
  intros Hop. unfold wp in *. unfold _commit_sync. destruct (ce_begin env); [|done].
  destruct (operation db) as [[value|e] db1]; [|done]. destruct Hop as (Hok & He & HP).
  destruct (ce_commit env); [|done]. split_and!; eauto.
  - by apply core_ok_prune.
  - eapply same_elsewhere_trans; [done|apply prune_elsewhere].
  - apply (prune_ok core_key_id (core_owned device_id) MAX_BOUNDED_COUNT), Hok.
Qed.

Lemma wp_core_advance correlation_id purpose kind direction sequence now db (P : CoreDB → Prop) :
  core_ok db →
  (∀ tbl, table_ok (core_owned device_id) MAX_BOUNDED_COUNT tbl →
     (∀ k, k.1 ≠ device_id → tbl !! k = reachy_duplex_correlations db !! k) →
     P (mkCoreDB (devices db) (reachy_core_tx_sequences db) tbl)) →
  wp (advance correlation_id purpose kind direction sequence now) (λ _, P) (λ _ _, True) db.
Proof.
  intros Hok HP. apply wp_on_rows. eapply wp_mono; [apply wp_advance, Hok| |done].
  intros [] tbl (Ht & _ & Hother). apply HP; [done|]. intros k Hk. apply Hother. naive_solver.
Qed.

Lemma wp_write_tx sequence previous db (Q : Z → CoreDB → Prop) :
  (0 ≤ sequence ≤ MAX_BOUNDED_COUNT → Q 1 (set_tx device_id sequence db)) → Q 0 db →
  wp (write_tx device_id sequence previous) Q (λ _ _, True) db.
Proof.
  intros HQ1 HQ0. unfold write_tx. wp_steps; try done; bool_props; apply between_spec in H; auto.
Qed.

Lemma core_ok_set_tx n db :
  core_ok db → 0 ≤ n ≤ MAX_BOUNDED_COUNT →
  core_ok (set_tx device_id n db) ∧ sent (set_tx device_id n db) = n ∧
  same_elsewhere db (set_tx device_id n db).
Proof.
  intros Hok Hn.
  assert (sent (set_tx device_id n db) = n) as Hs
    by (unfold sent; simpl; by rewrite lookup_insert_eq).
  split_and!; [|done|].
  - split; [by rewrite Hs|apply Hok..].
  - split; try done. intros d Hd. simpl. by rewrite lookup_insert_ne.
Qed.

Lemma wp_write_rx sequence previous db (Q : Z → CoreDB → Prop) :
  (∀ d, devices db !! device_id = Some d → 0 ≤ sequence ≤ MAX_BOUNDED_COUNT →
     Q 1 (mkCoreDB (<[device_id := mkDevice (dv_kind d) (dv_revoked_at d) sequence]> (devices db))
            (reachy_core_tx_sequences db) (reachy_duplex_correlations db))) → Q 0 db →
  wp (write_rx device_id sequence previous) Q (λ _ _, True) db.
Proof.
  intros HQ1 HQ0. unfold write_rx. wp_steps; try done; bool_props; apply between_spec in H; auto.
Qed.

Lemma core_ok_set_rx n d db :
  core_ok db → 0 ≤ n ≤ MAX_BOUNDED_COUNT → devices db !! device_id = Some d →
  let db' := mkCoreDB (<[device_id := mkDevice (dv_kind d) (dv_revoked_at d) n]> (devices db))
               (reachy_core_tx_sequences db) (reachy_duplex_correlations db) in
  core_ok db' ∧ received db' = n ∧ same_elsewhere db db'.
Proof.
  intros Hok Hn Hd db'.
  assert (received db' = n) as Hr by (unfold received, db'; simpl; by rewrite lookup_insert_eq).
  split_and!; [|done|].
  - split; [apply Hok|by rewrite Hr|apply Hok].
  - split; try done; unfold db'; simpl.
    + intros d' Hd'. by rewrite lookup_insert_ne.
    + by rewrite lookup_insert_eq, Hd.
Qed.

(** Replacing the rows of the device. *)
Lemma core_ok_rows db tbl :
  core_ok db → table_ok (core_owned device_id) MAX_BOUNDED_COUNT tbl →
  (∀ k, k.1 ≠ device_id → tbl !! k = reachy_duplex_correlations db !! k) →
  let db' := mkCoreDB (devices db) (reachy_core_tx_sequences db) tbl in
  core_ok db' ∧ same_elsewhere db db'.
Proof. intros [] Ht Hk db'. by split; split. Qed.

Lemma wp_core_reserve_outbound env correlation_id purpose kind db :
  core_ok db →
  wp (reserve_outbound env correlation_id purpose kind)
    (λ n db', core_ok db' ∧ same_elsewhere db db' ∧
       terminal_count (core_owned device_id) (reachy_duplex_correlations db') ≤ 4096 ∧
       n = sent db + 1 ∧ sent db' = n ∧ received db' = received db)
    (λ _ db', db' = db) db.
Proof.
  intros Hok. unfold reserve_outbound. wp_steps; try done.
  eapply wp_mono; [apply (wp_commit_sync env _ (λ n db1, n = sent db + 1 ∧ sent db1 = n ∧
    received db1 = received db))| |done].
  2: { intros n db' (? & ? & ? & db1 & (? & ? & ?) & ->). done. }
  pose proof (ck_sent db Hok) as Hs.
  unfold _require_current_device. wp_steps; try done.
  assert (a2 = sent db) as ->.
  { unfold sent in *. unfold _bounded_sequence, _require_sequence_bounds, reject_if in *.
    destruct (reachy_core_tx_sequences db !! device_id); simpl in *; [|congruence].
    destruct (between _ _ _); simpl in *; congruence. }
  apply wp_write_tx; [|by wp_steps]. intros Hb.
  destruct (core_ok_set_tx _ db Hok Hb) as (Hok1 & Hs1 & He1). wp_steps; [|done].
  apply wp_core_advance; [done|]. intros tbl Ht Hk. wp_steps.
  destruct (core_ok_rows _ tbl Hok1 Ht Hk) as [Hok2 He2].
  split_and!; try done. by eapply same_elsewhere_trans.
Qed.

Lemma wp_core_accept_inbound env sequence correlation_id purpose kind db :
  core_ok db →
  wp (accept_inbound env sequence correlation_id purpose kind)
    (λ _ db', core_ok db' ∧ same_elsewhere db db' ∧
       terminal_count (core_owned device_id) (reachy_duplex_correlations db') ≤ 4096 ∧
       is_Some (current_device device_id db) ∧
       sequence = received db + 1 ∧ received db' = sequence ∧ sent db' = sent db)
    (λ _ db', db' = db) db.
Proof.
  intros Hok. unfold accept_inbound. wp_steps; try done.
  eapply wp_mono; [apply (wp_commit_sync env _ (λ _ db1, is_Some (current_device device_id db) ∧
    sequence = received db + 1 ∧ received db1 = sequence ∧ sent db1 = sent db))| |done].
  2: { intros n db' (? & ? & ? & db1 & ? & ->). done. }
  unfold _device_last_sequence. wp_steps; try done. bool_props. rename a3 into previous.
  assert (previous = received db) as ->.
  { unfold received, current_device in *. destruct (devices db !! device_id); [|done].
    destruct (_ && _); [|done]. simplify_eq/=.
    unfold _bounded_sequence, _require_sequence_bounds, reject_if in *.
    destruct (between _ _ _); simpl in *; congruence. }
  apply wp_write_rx; [|by wp_steps]. intros d' Hd Hb.
  destruct (core_ok_set_rx _ d' db Hok Hb Hd) as (Hok1 & Hs1 & He1). wp_steps; [|done].
  apply wp_core_advance; [done|]. intros tbl Ht Hk.
  destruct (core_ok_rows _ tbl Hok1 Ht Hk) as [Hok2 He2].
  split_and!; try done. by eapply same_elsewhere_trans.
Qed.

(** The operations on the device's rows alone. *)
Lemma wp_core_rows (env : CoreEnv) (m : M (gmap (UUID * UUID) Correlation) exn unit) db :
  core_ok db →
  (∀ tbl, table_ok (core_owned device_id) MAX_BOUNDED_COUNT tbl →
     wp m (λ _ tbl', table_ok (core_owned device_id) MAX_BOUNDED_COUNT tbl' ∧
                     ∀ k, k.1 ≠ device_id → tbl' !! k = tbl !! k) (λ _ _, True) tbl) →
  wp (_commit_sync env device_id (on_rows m))
    (λ _ db', core_ok db' ∧ same_elsewhere db db' ∧
       terminal_count (core_owned device_id) (reachy_duplex_correlations db') ≤ 4096 ∧
       sent db' = sent db ∧ received db' = received db)
    (λ _ db', db' = db) db.
Proof.
  intros Hok Hm. eapply wp_mono; [apply (wp_commit_sync env _
    (λ _ db1, sent db1 = sent db ∧ received db1 = received db))| |done].
  - apply wp_on_rows. eapply wp_mono; [apply Hm, Hok| |done]. intros [] tbl [Ht Hk].
    by destruct (core_ok_rows db tbl Hok Ht Hk).
  - intros _ db' (? & ? & ? & db1 & ? & ->). done.
Qed.

Inductive core_op :=
| CoreReserve (correlation_id : UUID) (purpose kind : string)
| CoreAccept (sequence : Z) (correlation_id : UUID) (purpose kind : string)
| CoreAcceptResponse (correlation_id : UUID) (purpose : string) (payload : list byte)
| CoreComplete (correlation_id : UUID)
| CoreAbandon (correlation_id : UUID) (reason : list Z)
| CoreAbandonConnection (reason : list Z).

Definition run_core_op (env : CoreEnv) (op : core_op) : M CoreDB exn unit :=
  match op with
  | CoreReserve c p k => _ ← reserve_outbound env c p k; mret tt
  | CoreAccept n c p k => accept_inbound env n c p k
  | CoreAcceptResponse c p b => accept_response env c p b
  | CoreComplete c => complete env c
  | CoreAbandon c r => abandon_correlation env c r
  | CoreAbandonConnection r => abandon_connection env r
  end.

Lemma wp_core_terminal env correlation_id state db :
  core_ok db → state ≠ pending →
  wp (_terminal env correlation_id state)
    (λ _ db', core_ok db' ∧ same_elsewhere db db' ∧
       terminal_count (core_owned device_id) (reachy_duplex_correlations db') ≤ 4096 ∧
       sent db' = sent db ∧ received db' = received db)
    (λ _ db', db' = db) db.
Proof.
  intros Hok Hst. unfold _terminal. wp_steps; [|done]. apply wp_core_rows; [done|].
  intros tbl Ht. eapply wp_mono; [by apply wp_finish_correlation| |done].
  intros _ tbl' (Ht' & r & Hr & Hp & ->). split; [done|]. intros k Hk.
  rewrite lookup_insert_ne; naive_solver.
Qed.

Lemma wp_core_row_ops env op db :
  core_ok db → match op with CoreReserve _ _ _ | CoreAccept _ _ _ _ => False | _ => True end →
  wp (run_core_op env op)
    (λ _ db', core_ok db' ∧ same_elsewhere db db' ∧
       terminal_count (core_owned device_id) (reachy_duplex_correlations db') ≤ 4096 ∧
       sent db' = sent db ∧ received db' = received db)
    (λ _ db', db' = db) db.
Proof.
  intros Hok Hop. destruct op; try done; simpl.
  - unfold accept_response. wp_steps; [|done]. apply wp_core_rows; [done|].
    intros tbl Ht. unfold require_pending_request. by wp_steps.
  - by apply wp_core_terminal.
  - unfold abandon_correlation. wp_steps; [|done]. by apply wp_core_terminal.
  - unfold abandon_connection. wp_steps; [|done..]. apply wp_core_rows; [done|].
    intros tbl Ht. rename a0 into now.
    pose proof (abandon_pending_ok (core_owned device_id) MAX_BOUNDED_COUNT now tbl Ht) as [Ht' _].
    pose proof (lookup_abandon (core_owned device_id) now tbl) as Hl.
    unfold abandon_pending in *. wp_steps. split; [done|]. intros k Hk. simpl in Hl. rewrite Hl.
    unfold core_owned. rewrite bool_decide_false by done. by destruct (tbl !! k).
Qed.

(** One device's control traffic never reaches another's.  Every call on a device's
    store, returning or raising, leaves every other device's row, transmit counter and
    correlations as they were, and neither revokes nor changes the device itself; the
    device keeps at most 256 pending and, after a call that returns, at most 4,096
    terminal correlations. *)
Theorem core_device_isolation env op db r db' :
  core_ok db → run_core_op env op db = (r, db') →
  core_ok db' ∧ same_elsewhere db db' ∧
  pending_count (core_owned device_id) (reachy_duplex_correlations db') ≤ 256 ∧
  (is_ok r = true →
     terminal_count (core_owned device_id) (reachy_duplex_correlations db') ≤ 4096).
Proof.
  intros Hok Hrun.
  assert (wp (run_core_op env op) (λ _ db', core_ok db' ∧ same_elsewhere db db' ∧
    terminal_count (core_owned device_id) (reachy_duplex_correlations db') ≤ 4096)
    (λ _ db', db' = db) db) as Hw.
  { destruct op as [c p k|n c p k|c p b|c|c y|y].
    - apply wp_bind. eapply wp_mono; [by apply wp_core_reserve_outbound| |done].
      intros n db1 (? & ? & ? & _). by wp_steps.
    - eapply wp_mono; [by apply wp_core_accept_inbound|naive_solver|done].
    - eapply wp_mono; [by apply (wp_core_row_ops env (CoreAcceptResponse c p b))|naive_solver|done].
    - eapply wp_mono; [by apply (wp_core_row_ops env (CoreComplete c))|naive_solver|done].
    - eapply wp_mono; [by apply (wp_core_row_ops env (CoreAbandon c y))|naive_solver|done].
    - eapply wp_mono; [by apply (wp_core_row_ops env (CoreAbandonConnection y))|naive_solver|done]. }
  unfold wp in Hw. rewrite Hrun in Hw. destruct r as [[]|e].
  - destruct Hw as (Hok' & He & Ht). split_and!; try done. apply Hok'.
  - subst db'. split_and!; try done. apply Hok.
Qed.
End Operations.

(** ** Witness *)

Definition sample_device : UUID := 5.
Definition sample_core_env : CoreEnv := mkCoreEnv (Ok "2026-01-01T00:00:00.000000Z"%string) (Ok tt) (Ok tt).
Definition sample_core_db : CoreDB :=
  mkCoreDB {[ 5 := mkDevice "reachy" None 0; 6 := mkDevice "reachy" None 41 ]} {[ 6 := 17 ]} ∅.

Lemma sample_core_ok : core_ok sample_device sample_core_db.
Proof. by repeat constructor. Qed.

Lemma core_device_isolation_witness :
  let db' := (run_core_op sample_device sample_core_env
                (CoreReserve 9 "reachy.health.v1" "request") sample_core_db).2 in
  sent sample_device db' = 1 ∧ same_elsewhere sample_device sample_core_db db'.
Proof.
  intros db'. split; [vm_compute; reflexivity|].
  apply (core_device_isolation sample_device sample_core_env
    (CoreReserve 9 "reachy.health.v1" "request") sample_core_db (Ok tt) db').
  - apply sample_core_ok.
  - vm_compute. reflexivity.
Defined.
End CoreDuplex.
