(* ===== verification/DuplexLink.v ===== *)
(** * The control channel between core and edge

    [DuplexEndpoint] is what the connection code of either side
    ([transport/websocket.py], [adapters/reachy/session.py]) asks of its durable
    state: reserve an outbound number, accept an inbound frame, and the row
    operations.  [DuplexLaws] is what it relies on.  The stores of [DuplexEdge]
    and [DuplexCore] satisfy the laws.  What a link promises is proved from the laws
    alone, in [link_ordered] and [link_complete], and then stated of the robot's link,
    the edge's store on one end and the core's on the other.

    A link is two endpoints and the frames each has signed so far.  Frames are
    authenticated, so the network can lose, repeat, delay and reorder frames but
    not make them up. *)

From stdpp Require Import sorting.
From S2P Require Import Prelude ContractBase PttFraming DuplexTable DuplexEdge DuplexCore.

Class DuplexEndpoint (S Env Other : Type) := {
  ep_reserve : Env → UUID → string → string → M S exn Z;
  ep_accept : Env → Z → UUID → string → string → M S exn unit;
  ep_other : Env → Other → M S exn unit;
  ep_sent : S → Z;
  ep_received : S → Z;
  ep_ok : S → Prop;
  ep_quiet : Env → bool;
}.

Class DuplexLaws (S Env Other : Type) `{DuplexEndpoint S Env Other} : Prop := {
  reserve_law env c p k s : ep_ok s →
    wp (ep_reserve env c p k)
      (λ n s', ep_ok s' ∧ n = ep_sent s + 1 ∧ ep_sent s' = n ∧ ep_received s' = ep_received s)
      (λ _ s', ep_ok s' ∧ ep_received s' = ep_received s ∧
         (ep_sent s' = ep_sent s ∨ ep_quiet env = false ∧ ep_sent s' = ep_sent s + 1)) s;
  accept_law env n c p k s : ep_ok s →
    wp (ep_accept env n c p k)
      (λ _ s', ep_ok s' ∧ n = ep_received s + 1 ∧ ep_received s' = n ∧ ep_sent s' = ep_sent s)
      (λ _ s', ep_ok s' ∧ ep_sent s' = ep_sent s ∧
         (ep_received s' = ep_received s ∨
          ep_quiet env = false ∧ n = ep_received s + 1 ∧ ep_received s' = n)) s;
  other_law env o s : ep_ok s →
    wp (ep_other env o)
      (λ _ s', ep_ok s' ∧ ep_sent s' = ep_sent s ∧ ep_received s' = ep_received s)
      (λ _ s', ep_ok s' ∧ ep_sent s' = ep_sent s ∧ ep_received s' = ep_received s) s;
}.

(** ** The two stores are endpoints *)

(** The row operations of the edge. *)
Inductive edge_row_op :=
| EdgeAcceptResponse (correlation_id : UUID) (purpose : string) (payload : list byte)
| EdgeComplete (correlation_id : UUID)
| EdgeAbandon (correlation_id : UUID) (reason : list Z)
| EdgeAbandonConnection (reason : list Z).

Definition edge_row (o : edge_row_op) : edge_op :=
  match o with
  | EdgeAcceptResponse c p b => OpAcceptResponse c p b
  | EdgeComplete c => OpComplete c
  | EdgeAbandon c r => OpAbandon c r
  | EdgeAbandonConnection r => OpAbandonConnection r
  end.

#[export] Instance edge_endpoint : DuplexEndpoint EdgeDuplexState EdgeEnv edge_row_op := {
  ep_reserve := DuplexEdge.reserve_outbound;
  ep_accept := DuplexEdge.accept_inbound;
  ep_other env o := run_edge_op env (edge_row o);
  ep_sent s := last_of edge_to_core (es_db s);
  ep_received s := last_of core_to_edge (es_db s);
  ep_ok := edge_ok;
  ep_quiet := synced;
}.

Lemma last_of_counted d d' c db n db' s' :
  counted d c db n db' → es_db s' = edge_prune db' →
  last_of d' (es_db s') = if decide (d' = d) then n else last_of d' db.
Proof.
  intros (_ & Hs & _) ->. unfold last_of. simpl. rewrite Hs. case_decide as Hd.
  - subst. by rewrite lookup_insert_eq.
  - by rewrite lookup_insert_ne.
Qed.

#[export] Instance edge_laws : DuplexLaws EdgeDuplexState EdgeEnv edge_row_op.
Proof.
  split; intros; simpl in *.
  - eapply wp_mono; [by apply DuplexEdge.wp_reserve_outbound| |]; simpl.
    + intros n s' (Hok & db & Hc & Hdb). destruct (Hc) as [Hn _].
      by rewrite !(last_of_counted _ _ _ _ _ _ s' Hc Hdb).
    + intros e s' (Hok & [->|(Hq & n & db & Hc & Hdb)]); [by auto|]. destruct (Hc) as [Hn _].
      rewrite !(last_of_counted _ _ _ _ _ _ s' Hc Hdb). simpl. naive_solver.
  - eapply wp_mono; [by apply DuplexEdge.wp_accept_inbound| |]; simpl.
    + intros [] s' (Hok & db & Hc & Hdb). destruct (Hc) as [Hn _].
      by rewrite !(last_of_counted _ _ _ _ _ _ s' Hc Hdb).
    + intros e s' (Hok & [->|(Hq & db & Hc & Hdb)]); [by auto|]. destruct (Hc) as [Hn _].
      rewrite !(last_of_counted _ _ _ _ _ _ s' Hc Hdb). simpl. naive_solver.
  - eapply wp_mono; [apply wp_row_ops; [done|by destruct o]| |]; naive_solver.
Qed.

(** The row operations of the core. *)
Inductive core_row_op :=
| RowAcceptResponse (correlation_id : UUID) (purpose : string) (payload : list byte)
| RowComplete (correlation_id : UUID)
| RowAbandon (correlation_id : UUID) (reason : list Z)
| RowAbandonConnection (reason : list Z).

Definition core_row (o : core_row_op) : CoreDuplex.core_op :=
  match o with
  | RowAcceptResponse c p b => CoreDuplex.CoreAcceptResponse c p b
  | RowComplete c => CoreDuplex.CoreComplete c
  | RowAbandon c r => CoreDuplex.CoreAbandon c r
  | RowAbandonConnection r => CoreDuplex.CoreAbandonConnection r
  end.

Section CoreEndpoint.
Context (device_id : UUID).

#[export] Instance core_endpoint :
    DuplexEndpoint CoreDuplex.CoreDB CoreDuplex.CoreEnv core_row_op := {
  ep_reserve := CoreDuplex.reserve_outbound device_id;
  ep_accept := CoreDuplex.accept_inbound device_id;
  ep_other env o := CoreDuplex.run_core_op device_id env (core_row o);
  ep_sent := CoreDuplex.sent device_id;
  ep_received := CoreDuplex.received device_id;
  ep_ok := CoreDuplex.core_ok device_id;
  ep_quiet _ := true;
}.

#[export] Instance core_laws : DuplexLaws CoreDuplex.CoreDB CoreDuplex.CoreEnv core_row_op.
Proof.
  split; intros; simpl in *.
  - eapply wp_mono; [by apply CoreDuplex.wp_core_reserve_outbound| |]; naive_solver.
  - eapply wp_mono; [by apply CoreDuplex.wp_core_accept_inbound| |]; naive_solver.
  - eapply wp_mono; [apply CoreDuplex.wp_core_row_ops; [done|by destruct o]| |]; naive_solver.
Qed.
End CoreEndpoint.

(** ** A link *)

Record Frame := mkFrame {
  fr_sequence : Z;
  fr_correlation_id : UUID;
  fr_purpose : string;
  fr_kind : string;
}.

Section Link.
Context {SA EA OA SB EB OB : Type}.
Context `{!DuplexEndpoint SA EA OA} `{!DuplexEndpoint SB EB OB}.

(** [l_ab]: the frames A has signed for B, oldest first; [l_got_b]: the frames B
    has accepted, in the order it did.  [l_ba] and [l_got_a] go the other way. *)
Record Link := mkLink {
  l_a : SA; l_b : SB;
  l_ab : list Frame; l_ba : list Frame;
  l_got_b : list Frame; l_got_a : list Frame;
}.

(** The environment of a step: any, or one without a failure after the commit. *)
Definition admissible {S E O} `{DuplexEndpoint S E O} (quiet : bool) (env : E) : Prop :=
  quiet = true → ep_quiet env = true.

Inductive link_step (quiet : bool) : Link → Link → Prop :=
| step_a_sends env c p k a b ab ba gb ga n a' :
  admissible quiet env → ep_reserve env c p k a = (Ok n, a') →
  link_step quiet (mkLink a b ab ba gb ga) (mkLink a' b (ab ++ [mkFrame n c p k]) ba gb ga)
| step_a_fails env c p k a b ab ba gb ga e a' :
  admissible quiet env → ep_reserve env c p k a = (Raise e, a') →
  link_step quiet (mkLink a b ab ba gb ga) (mkLink a' b ab ba gb ga)
| step_b_sends env c p k a b ab ba gb ga n b' :
  admissible quiet env → ep_reserve env c p k b = (Ok n, b') →
  link_step quiet (mkLink a b ab ba gb ga) (mkLink a b' ab (ba ++ [mkFrame n c p k]) gb ga)
| step_b_fails env c p k a b ab ba gb ga e b' :
  admissible quiet env → ep_reserve env c p k b = (Raise e, b') →
  link_step quiet (mkLink a b ab ba gb ga) (mkLink a b' ab ba gb ga)
| step_b_accepts env f a b ab ba gb ga b' :
  admissible quiet env → f ∈ ab →
  ep_accept env (fr_sequence f) (fr_correlation_id f) (fr_purpose f) (fr_kind f) b = (Ok tt, b') →
  link_step quiet (mkLink a b ab ba gb ga) (mkLink a b' ab ba (gb ++ [f]) ga)
| step_b_refuses env f a b ab ba gb ga e b' :
  admissible quiet env → f ∈ ab →
  ep_accept env (fr_sequence f) (fr_correlation_id f) (fr_purpose f) (fr_kind f) b = (Raise e, b') →
  link_step quiet (mkLink a b ab ba gb ga) (mkLink a b' ab ba gb ga)
| step_a_accepts env f a b ab ba gb ga a' :
  admissible quiet env → f ∈ ba →
  ep_accept env (fr_sequence f) (fr_correlation_id f) (fr_purpose f) (fr_kind f) a = (Ok tt, a') →
  link_step quiet (mkLink a b ab ba gb ga) (mkLink a' b ab ba gb (ga ++ [f]))
| step_a_refuses env f a b ab ba gb ga e a' :
  admissible quiet env → f ∈ ba →
  ep_accept env (fr_sequence f) (fr_correlation_id f) (fr_purpose f) (fr_kind f) a = (Raise e, a') →
  link_step quiet (mkLink a b ab ba gb ga) (mkLink a' b ab ba gb ga)
| step_a_other env o a b ab ba gb ga r a' :
  ep_other env o a = (r, a') →
  link_step quiet (mkLink a b ab ba gb ga) (mkLink a' b ab ba gb ga)
| step_b_other env o a b ab ba gb ga r b' :
  ep_other env o b = (r, b') →
  link_step quiet (mkLink a b ab ba gb ga) (mkLink a b' ab ba gb ga).

(** Two paired endpoints before any frame of this history. *)
Definition fresh_link (a : SA) (b : SB) : Link := mkLink a b [] [] [] [].

Inductive link_reachable (quiet : bool) : Link → Prop :=
| lr_fresh a b : ep_ok a → ep_ok b → ep_received b ≤ ep_sent a → ep_received a ≤ ep_sent b →
  link_reachable quiet (fresh_link a b)
| lr_step l l' : link_reachable quiet l → link_step quiet l l' → link_reachable quiet l'.

(** One direction: the sender's counter, the receiver's, the frames signed and the
    frames accepted. *)
Record way (quiet : bool) (sent received : Z) (w got : list Frame) : Prop := {
  w_counters : received ≤ sent;
  w_bound : Forall (λ f, fr_sequence f ≤ sent) w;
  w_sorted : StronglySorted (λ f g, fr_sequence f < fr_sequence g) w;
  w_got : got `sublist_of` filter (λ f, fr_sequence f ≤ received) w;
  w_quiet : quiet = true → got = filter (λ f, fr_sequence f ≤ received) w;
}.

Lemma filter_le_app_one n w :
  StronglySorted (λ f g, fr_sequence f < fr_sequence g) w →
  filter (λ f, fr_sequence f ≤ n + 1) w =
  filter (λ f, fr_sequence f ≤ n) w ++ filter (λ f, fr_sequence f = n + 1) w.
Proof.
  induction 1 as [|f w Hs IH Hf]; [done|]. rewrite !filter_cons.
  destruct (decide (fr_sequence f ≤ n)); [|destruct (decide (fr_sequence f = n + 1))].
  - rewrite decide_True by lia. rewrite decide_False by lia. by rewrite IH.
  - rewrite decide_True by lia. rewrite IH.
    replace (filter (λ f, fr_sequence f ≤ n) w) with (@nil Frame); [done|].
    symmetry. apply filter_none. eapply Forall_impl; [done|]. simpl. lia.
  - rewrite !decide_False by lia. by rewrite IH.
Qed.

(** The frame that carries a number is the only one. *)
Lemma filter_eq_singleton n w f :
  StronglySorted (λ f g, fr_sequence f < fr_sequence g) w → f ∈ w → fr_sequence f = n →
  filter (λ g, fr_sequence g = n) w = [f].
Proof.
  induction 1 as [|g w Hs IH Hg]; intros Hin Hn; [by apply elem_of_nil in Hin|].
  rewrite filter_cons. apply elem_of_cons in Hin as [<-|Hin].
  - rewrite decide_True by done. f_equal. apply filter_none.
    eapply Forall_impl; [done|]. simpl. lia.
  - rewrite Forall_forall in Hg. specialize (Hg f Hin). rewrite decide_False by lia. auto.
Qed.

Lemma way_send quiet sent received w got c p k :
  way quiet sent received w got → way quiet (sent + 1) received (w ++ [mkFrame (sent + 1) c p k]) got.
Proof.
  intros [Hc Hb Hs Hg Hq].
  assert (filter (λ f, fr_sequence f ≤ received) (w ++ [mkFrame (sent + 1) c p k]) =
          filter (λ f, fr_sequence f ≤ received) w) as He.
  { rewrite filter_app, filter_cons. simpl. rewrite decide_False by lia. by rewrite app_nil_r. }
  split; [lia| | |by rewrite He|by rewrite He].
  - apply Forall_app. split; [eapply Forall_impl; [done|]; simpl; lia|]. by repeat constructor.
  - apply StronglySorted_app. split_and!; [|done|by repeat constructor].
    intros f g Hf ->%list_elem_of_singleton. rewrite Forall_forall in Hb.
    specialize (Hb f Hf). simpl. lia.
Qed.

Lemma way_burn quiet sent received w got :
  way quiet sent received w got → way quiet (sent + 1) received w got.
Proof. intros [Hc Hb Hs Hg Hq]. split; try done; [lia|]. eapply Forall_impl; [done|]. simpl. lia. Qed.

Lemma way_accept quiet sent received w got f :
  way quiet sent received w got → f ∈ w → fr_sequence f = received + 1 →
  way quiet sent (received + 1) w (got ++ [f]).
Proof.
  intros [Hc Hb Hs Hg Hq] Hf Hn. rewrite Forall_forall in Hb. pose proof (Hb f Hf).
  assert (filter (λ f, fr_sequence f ≤ received + 1) w =
          filter (λ f, fr_sequence f ≤ received) w ++ [f]) as He.
  { rewrite filter_le_app_one by done. f_equal. by apply filter_eq_singleton. }
  split; [lia|by apply Forall_forall|done| |]; rewrite He.
  - by apply sublist_app.
  - intros Hquiet. by rewrite Hq.
Qed.

(** A frame counted but refused. *)
Lemma way_lose quiet sent received w got f :
  way quiet sent received w got → quiet = false → f ∈ w → fr_sequence f = received + 1 →
  way quiet sent (received + 1) w got.
Proof.
  intros [Hc Hb Hs Hg Hq] -> Hf Hn. rewrite Forall_forall in Hb. pose proof (Hb f Hf).
  split; [lia|by apply Forall_forall|done| |done].
  rewrite filter_le_app_one by done. by apply sublist_inserts_r.
Qed.

Record link_inv (quiet : bool) (l : Link) : Prop := {
  li_a : ep_ok (l_a l);
  li_b : ep_ok (l_b l);
  li_ab : way quiet (ep_sent (l_a l)) (ep_received (l_b l)) (l_ab l) (l_got_b l);
  li_ba : way quiet (ep_sent (l_b l)) (ep_received (l_a l)) (l_ba l) (l_got_a l);
}.

Context `{!DuplexLaws SA EA OA} `{!DuplexLaws SB EB OB}.

Lemma way_same quiet sent sent' received received' w got :
  sent' = sent → received' = received →
  way quiet sent received w got → way quiet sent' received' w got.
Proof. by intros -> ->. Qed.

(** A sender's reservation that raised, and a receiver's refusal. *)
Lemma way_reserve_raise quiet (sent sent' received : Z) (q : bool) w got :
  (sent' = sent ∨ q = false ∧ sent' = sent + 1) →
  way quiet sent received w got → way quiet sent' received w got.
Proof. intros [->|[_ ->]]; [done|apply way_burn]. Qed.

Lemma way_accept_raise quiet (sent received received' : Z) (q : bool) f w got :
  (quiet = true → q = true) → f ∈ w →
  (received' = received ∨ q = false ∧ fr_sequence f = received + 1 ∧ received' = fr_sequence f) →
  way quiet sent received w got → way quiet sent received' w got.
Proof.
  intros Hadm Hf [->|(Hq & Hn & ->)]; [done|]. rewrite Hn. intros Hw.
  apply (way_lose _ _ _ _ _ f); try done. destruct quiet; [|done]. by rewrite Hadm in Hq.
Qed.

Lemma link_step_inv quiet l l' : link_inv quiet l → link_step quiet l l' → link_inv quiet l'.
Proof.
  intros [Ha Hb Hab Hba] Hstep.
  destruct Hstep as [env c p k a b ab ba gb ga n a' Hq Hr|env c p k a b ab ba gb ga e a' Hq Hr
    |env c p k a b ab ba gb ga n b' Hq Hr|env c p k a b ab ba gb ga e b' Hq Hr
    |env f a b ab ba gb ga b' Hq Hf Hr|env f a b ab ba gb ga e b' Hq Hf Hr
    |env f a b ab ba gb ga a' Hq Hf Hr|env f a b ab ba gb ga e a' Hq Hf Hr
    |env o a b ab ba gb ga r a' Hr|env o a b ab ba gb ga r b' Hr]; simpl in *.
  - destruct (wp_run _ _ _ _ _ _ (reserve_law env c p k a Ha) Hr) as (Hok & -> & Hs & Hv).
    split; simpl; [done|done| |by eapply way_same]. rewrite Hs. by apply way_send.
  - destruct (wp_run _ _ _ _ _ _ (reserve_law env c p k a Ha) Hr) as (Hok & Hv & Hs).
    split; simpl; [done|done|by eapply way_reserve_raise|by eapply way_same].
  - destruct (wp_run _ _ _ _ _ _ (reserve_law env c p k b Hb) Hr) as (Hok & -> & Hs & Hv).
    split; simpl; [done|done|by eapply way_same|]. rewrite Hs. by apply way_send.
  - destruct (wp_run _ _ _ _ _ _ (reserve_law env c p k b Hb) Hr) as (Hok & Hv & Hs).
    split; simpl; [done|done|by eapply way_same|by eapply way_reserve_raise].
  - destruct (wp_run _ _ _ _ _ _ (accept_law env _ _ _ _ b Hb) Hr) as (Hok & Hn & Hs & Hv).
    split; simpl; [done|done| |by eapply way_same]. rewrite Hs, Hn. by apply way_accept.
  - destruct (wp_run _ _ _ _ _ _ (accept_law env _ _ _ _ b Hb) Hr) as (Hok & Hv & Hs).
    split; simpl; [done|done|by eapply way_accept_raise|by eapply way_same].
  - destruct (wp_run _ _ _ _ _ _ (accept_law env _ _ _ _ a Ha) Hr) as (Hok & Hn & Hs & Hv).
    split; simpl; [done|done|by eapply way_same|]. rewrite Hs, Hn. by apply way_accept.
  - destruct (wp_run _ _ _ _ _ _ (accept_law env _ _ _ _ a Ha) Hr) as (Hok & Hv & Hs).
    split; simpl; [done|done|by eapply way_same|by eapply way_accept_raise].
  - assert (ep_ok a' ∧ ep_sent a' = ep_sent a ∧ ep_received a' = ep_received a) as (Hok & Hs & Hv).
    { pose proof (wp_run _ _ _ _ _ _ (other_law env o a Ha) Hr). by destruct r. }
    split; simpl; [done|done|by eapply way_same..].
  - assert (ep_ok b' ∧ ep_sent b' = ep_sent b ∧ ep_received b' = ep_received b) as (Hok & Hs & Hv).
    { pose proof (wp_run _ _ _ _ _ _ (other_law env o b Hb) Hr). by destruct r. }
    split; simpl; [done|done|by eapply way_same..].
Qed.

Lemma link_reachable_inv quiet l : link_reachable quiet l → link_inv quiet l.
Proof.
  induction 1 as [a b Ha Hb Hab Hba|l l' _ IH Hstep].
  - by split; [| |split; try constructor..].
  - by eapply link_step_inv.
Qed.

Lemma way_sublist quiet sent received w got : way quiet sent received w got → got `sublist_of` w.
Proof. intros Hw. etrans; [apply Hw|]. apply sublist_filter. Qed.

Lemma filter_le_prefix n w :
  StronglySorted (λ f g, fr_sequence f < fr_sequence g) w →
  filter (λ f, fr_sequence f ≤ n) w `prefix_of` w.
Proof.
  induction 1 as [|f w Hs IH Hf]; [done|]. rewrite filter_cons. case_decide.
  - by apply prefix_cons.
  - replace (filter (λ f, fr_sequence f ≤ n) w) with (@nil Frame); [apply prefix_nil|].
    symmetry. apply filter_none. eapply Forall_impl; [done|]. simpl. lia.
Qed.

Lemma way_prefix sent received w got : way true sent received w got → got `prefix_of` w.
Proof. intros Hw. rewrite (w_quiet _ _ _ _ _ Hw eq_refl). apply filter_le_prefix, Hw. Qed.

Lemma way_no_replay quiet sent received w got :
  way quiet sent received w got → NoDup (map fr_sequence w).
Proof.
  intros Hw. pose proof (w_sorted _ _ _ _ _ Hw) as Hs. clear Hw.
  induction Hs as [|f w Hs IH Hf]; simpl; constructor; [|done].
  intros (g & Hg & Hin)%list_elem_of_fmap. rewrite Forall_forall in Hf. specialize (Hf g Hin). lia.
Qed.

(** Order.  The numbers one side signs are distinct and the frames the other side
    accepts form a subsequence of the frames signed. *)
Lemma link_ordered quiet l :
  link_reachable quiet l →
  NoDup (map fr_sequence (l_ab l)) ∧ l_got_b l `sublist_of` l_ab l ∧
  NoDup (map fr_sequence (l_ba l)) ∧ l_got_a l `sublist_of` l_ba l.
Proof.
  intros [_ _ Hab Hba]%link_reachable_inv. split_and!.
  - by eapply way_no_replay.
  - by eapply way_sublist.
  - by eapply way_no_replay.
  - by eapply way_sublist.
Qed.

(** No gap.  While no sync fails after its commit, the frames a side has accepted are
    a prefix of the frames its peer signed: nothing is skipped. *)
Lemma link_complete l :
  link_reachable true l → l_got_b l `prefix_of` l_ab l ∧ l_got_a l `prefix_of` l_ba l.
Proof.
  intros [_ _ Hab Hba]%link_reachable_inv. split; by eapply way_prefix.
Qed.
End Link.

(** ** The link between the robot and its core *)

#[export] Instance Frame_eq_dec : EqDecision Frame.
Proof. solve_decision. Defined.

(** What happens at the two stores, in the order it does.  A side signs a frame
    ([EdgeSigns], [CoreSigns]), reads a frame the network hands it ([EdgeReads],
    [CoreReads]), or works on its own rows. *)
Inductive robot_event :=
| EdgeSigns (env : EdgeEnv) (correlation_id : UUID) (purpose kind : string)
| CoreSigns (env : CoreDuplex.CoreEnv) (correlation_id : UUID) (purpose kind : string)
| EdgeReads (env : EdgeEnv) (f : Frame)
| CoreReads (env : CoreDuplex.CoreEnv) (f : Frame)
| EdgeRow (env : EdgeEnv) (o : edge_row_op)
| CoreRow (env : CoreDuplex.CoreEnv) (o : core_row_op).

(** The edge is side A and the core side B. *)
#[local] Abbreviation RobotLink := (Link (SA := EdgeDuplexState) (SB := CoreDuplex.CoreDB)).

(** A frame joins the signed ones when its number was reserved, and the accepted ones
    when the store let it in. *)
Definition noted {A E} (r : result E A) (fs : list Frame) (f : A → Frame) : list Frame :=
  match r with Ok x => fs ++ [f x] | Raise _ => fs end.

(** A frame nobody signed does not pass the signature check and never reaches a store. *)
Definition robot_step (device_id : UUID) (l : RobotLink) (ev : robot_event) : RobotLink :=
  let '(mkLink a b ab ba gb ga) := l in
  match ev with
  | EdgeSigns env c p k =>
      let '(r, a') := DuplexEdge.reserve_outbound env c p k a in
      mkLink a' b (noted r ab (λ n, mkFrame n c p k)) ba gb ga
  | CoreSigns env c p k =>
      let '(r, b') := CoreDuplex.reserve_outbound device_id env c p k b in
      mkLink a b' ab (noted r ba (λ n, mkFrame n c p k)) gb ga
  | EdgeReads env f =>
      if decide (f ∈ ba) then
        let '(r, a') := DuplexEdge.accept_inbound env (fr_sequence f) (fr_correlation_id f)
                          (fr_purpose f) (fr_kind f) a in
        mkLink a' b ab ba gb (noted r ga (λ _, f))
      else l
  | CoreReads env f =>
      if decide (f ∈ ab) then
        let '(r, b') := CoreDuplex.accept_inbound device_id env (fr_sequence f)
                          (fr_correlation_id f) (fr_purpose f) (fr_kind f) b in
        mkLink a b' ab ba (noted r gb (λ _, f)) ga
      else l
  | EdgeRow env o => mkLink (run_edge_op env (edge_row o) a).2 b ab ba gb ga
  | CoreRow env o => mkLink a (CoreDuplex.run_core_op device_id env (core_row o) b).2 ab ba gb ga
  end.

Definition robot_run (device_id : UUID) (a : EdgeDuplexState) (b : CoreDuplex.CoreDB) :
    list robot_event → RobotLink :=
  foldl (robot_step device_id) (mkLink a b [] [] [] []).

(** The edge's sync after a commit does not fail.  (The core has no such sync.) *)
Definition event_synced (ev : robot_event) : bool :=
  match ev with
  | EdgeSigns env _ _ _ | EdgeReads env _ | EdgeRow env _ => synced env
  | _ => true
  end.

Section RobotLink.
Context (device_id : UUID).
#[local] Existing Instance core_endpoint.
#[local] Existing Instance core_laws.
#[local] Instance robot_core_endpoint :
  DuplexEndpoint CoreDuplex.CoreDB CoreDuplex.CoreEnv core_row_op := core_endpoint device_id.
#[local] Instance robot_core_laws :
  DuplexLaws CoreDuplex.CoreDB CoreDuplex.CoreEnv core_row_op := core_laws device_id.

(** Every event is a step of the link. *)
Lemma robot_step_link quiet l ev :
  (quiet = true → event_synced ev = true) →
  robot_step device_id l ev = l ∨ link_step quiet l (robot_step device_id l ev).
Proof.
  intros Hq. destruct l as [a b ab ba gb ga], ev as [env c p k|env c p k|env f|env f|env o|env o];
    simpl in *.
  - right. destruct (DuplexEdge.reserve_outbound env c p k a) as [[n|e] a'] eqn:Hr; simpl.
    + by eapply step_a_sends.
    + by eapply step_a_fails.
  - right. destruct (CoreDuplex.reserve_outbound device_id env c p k b) as [[n|e] b'] eqn:Hr; simpl.
    + by eapply step_b_sends.
    + by eapply step_b_fails.
  - case_decide as Hf; [right|by left].
    destruct (DuplexEdge.accept_inbound _ _ _ _ _ a) as [[[]|e] a'] eqn:Hr; simpl.
    + by eapply step_a_accepts.
    + by eapply step_a_refuses.
  - case_decide as Hf; [right|by left].
    destruct (CoreDuplex.accept_inbound device_id _ _ _ _ _ b) as [[[]|e] b'] eqn:Hr; simpl.
    + by eapply step_b_accepts.
    + by eapply step_b_refuses.
  - right. eapply step_a_other. apply surjective_pairing.
  - right. eapply step_b_other. apply surjective_pairing.
Qed.

Lemma robot_run_reachable quiet a b evs :
  edge_ok a → CoreDuplex.core_ok device_id b →
  CoreDuplex.received device_id b ≤ last_of edge_to_core (es_db a) →
  last_of core_to_edge (es_db a) ≤ CoreDuplex.sent device_id b →
  (quiet = true → forallb event_synced evs = true) →
  link_reachable quiet (robot_run device_id a b evs).
Proof.
  intros Ha Hb Hab Hba. unfold robot_run. induction evs as [|ev evs IH] using rev_ind; intros Hq.
  - by apply lr_fresh.
  - rewrite foldl_app. simpl. rewrite forallb_app, andb_true_iff in Hq. simpl in Hq.
    rewrite andb_true_r in Hq.
    assert (quiet = true → event_synced ev = true) as Hev by naive_solver.
    destruct (robot_step_link quiet (foldl (robot_step device_id) (mkLink a b [] [] [] []) evs) ev Hev)
      as [->|Hstep]; [naive_solver|]. eapply lr_step; [|done]. naive_solver.
Qed.

Lemma robot_run_ordered a b evs :
  link_reachable false (robot_run device_id a b evs) →
  let l := robot_run device_id a b evs in
  NoDup (map fr_sequence (l_ab l)) ∧ l_got_b l `sublist_of` l_ab l ∧
  NoDup (map fr_sequence (l_ba l)) ∧ l_got_a l `sublist_of` l_ba l.
Proof. apply link_ordered. Qed.

Lemma robot_run_complete a b evs :
  link_reachable true (robot_run device_id a b evs) →
  let l := robot_run device_id a b evs in
  l_got_b l `prefix_of` l_ab l ∧ l_got_a l `prefix_of` l_ba l.
Proof. apply link_complete. Qed.
End RobotLink.


(** ** Witness: the edge signs an event, the core reads it, and reads it again *)

Definition sample_frame : Frame := mkFrame 1 77 "reachy.event.v1" "event".

Definition sample_events : list robot_event :=
  [EdgeSigns quiet_env 77 "reachy.event.v1" "event";
   CoreReads CoreDuplex.sample_core_env sample_frame;
   CoreReads CoreDuplex.sample_core_env sample_frame].

Definition sample_link : RobotLink :=
  robot_run CoreDuplex.sample_device new_edge_state CoreDuplex.sample_core_db sample_events.

