(* ===== verification/AuditChain.v ===== *)
(** * The audit chain: [services/audit/ledger.py] and [services/audit/verifier.py]

    Receipts chained by SHA-256 and authenticated by HMAC, the segments sealed over
    them, and the verifier.  Columns are SQLite values, so that the verifier runs on
    tables the ledger did not write.  [receipts] and [segments] are the tables in the
    order of their queries ([ORDER BY ordinal], [ORDER BY first_ordinal]); text
    columns are their UTF-8 bytes, and there are no REAL values (the integer columns
    have a CHECK on their storage).  The CHECK constraints that [append] and [seal] can
    fail are tested before the row is inserted; the ids of the rows, from [uuid4], are
    taken to be fresh.  The draft's codec is [ContractCodec]; the texts of UUIDs and time
    stamps and SQLite's [json_valid] are the interface [AuditText]. *)

From S2P Require Import Prelude Digest ContractBase PttFraming.

Abbreviation text := (list byte).

Inductive cell := CInt (z : Z) | CText (t : text) | CBlob (b : list byte) | CNull.
#[export] Instance cell_eq_dec : EqDecision cell.
Proof. solve_decision. Defined.

Record AuditDraft := mkDraft {
  ad_event_id : UUID;
  ad_occurred_at : Z;
  ad_actor_pseudonym : text;
  ad_action_code : text;
  ad_outcome : text;
  ad_reason_code : text;
  ad_correlation_id : UUID;
  ad_payload_key_id : text;
  ad_payload_value_b64 : text;
}.

#[export] Instance AuditDraft_eq_dec : EqDecision AuditDraft.
Proof. solve_decision. Defined.

Record AuditReceipt := mkReceipt {
  ap_receipt_id : UUID;
  ap_ordinal : Z;
  ap_public_hash_hex : text;
  ap_hmac_key_id : text;
  ap_hmac_b64 : text;
  ap_occurred_at : Z;
}.

Record ReceiptRow := mkReceiptRow {
  rr_ordinal : cell;
  rr_previous : cell;
  rr_public : cell;
  rr_key_id : cell;
  rr_mac : cell;
  rr_body : cell;
  rr_occurred : cell;
}.

Record SegmentRow := mkSegmentRow {
  sg_id : cell;
  sg_first : cell;
  sg_last : cell;
  sg_count : cell;
  sg_public : cell;
  sg_mac : cell;
  sg_key_id : cell;
  sg_sealed : cell;
}.

Record AuditDB := mkAuditDB { receipts : list ReceiptRow; segments : list SegmentRow }.

Class AuditText := {
  utc_text : Z → text;
  uuid_text : UUID → text;
  utc_text_ok : text → bool;
  uuid_text_ok : text → bool;
  json_valid : text → bool;
}.

(** The GLOB of [_utc_constraint]; [d] stands for [[0-9]]. *)
Definition utc_pattern : list byte := ascii_bytes "dddd-dd-ddTdd:dd:dd.ddddddZ".
Definition glob_char (p b : byte) : bool :=
  if Z_of_byte p =? 100 then between 48 (Z_of_byte b) 57 else bool_decide (p = b).
Fixpoint glob (pattern t : list byte) : bool :=
  match pattern, t with
  | [], [] => true
  | p :: pattern, b :: t => glob_char p b && glob pattern t
  | _, _ => false
  end.
Definition _utc_constraint (t : text) : bool := (len t =? 27) && glob utc_pattern t.

(** What [str(uuid4())] and [strftime] promise the verifier: a canonical UUID text, and,
    when the year has its four digits, a text [strptime] reads back. *)
Class AuditTextLaws `{AuditText} := {
  utc_text_valid t : _utc_constraint (utc_text t) = true → utc_text_ok (utc_text t) = true;
  uuid_text_valid u : uuid_text_ok (uuid_text u) = true;
}.

Definition PURPOSE : list byte := ascii_bytes "tuntun:audit:v1" ++ [x00].
Definition MAX_AUDIT_ORDINAL : Z := 9000000000000000.
Definition _MAX_CANONICAL_BODY_BYTES : Z := 65536.

(** ** Validators *)

Definition key_id_char (b : byte) : bool :=
  let z := Z_of_byte b in
  between 97 z 122 || between 65 z 90 || between 48 z 58 || (z =? 95) || (z =? 46) || (z =? 45).

Definition _validate_hmac_key_id (key_id : text) : result exn text :=
  if between 8 (len key_id) 128 && forallb key_id_char key_id then Ok key_id
  else Raise (ValueError "audit HMAC key ID is required").

Definition _validate_hmac_key (key : list byte) : result exn (list byte) :=
  if 32 <=? len key then Ok key
  else Raise (ValueError "audit HMAC key must be at least 32 bytes").

Definition _validate_public_hash_hex (value : text) : result exn text :=
  if (len value =? 64) && forallb (λ b, bool_decide (is_Some (hex_value b))) value then Ok value
  else Raise (ValueError "audit public hash must be lowercase SHA-256 hex").

Definition _storage_int (c : cell) : result exn Z :=
  match c with
  | CInt z => Ok z
  | _ => Raise (ValueError "audit integer storage value is invalid")
  end.
Definition _storage_text (c : cell) : result exn text :=
  match c with
  | CText t => Ok t
  | _ => Raise (ValueError "audit text storage value is invalid")
  end.

Definition _validate_hmac_b64 (c : cell) : result exn text :=
  match c with
  | CText value =>
    match b64decode value with
    | None => Raise (ValueError "audit HMAC must be canonical base64")
    | Some decoded =>
      if (len decoded =? 32) && bool_decide (b64encode decoded = value) then Ok value
      else Raise (ValueError "audit HMAC must encode exactly 32 bytes")
    end
  | _ => Raise (ValueError "audit HMAC must be canonical base64")
  end.

(** ** The chain *)

Section Audit.
Context `{Texts : AuditText} `{Codec : ContractCodec AuditDraft}.

Record ChainValues := mkValues {
  cv_public_hash_hex : text;
  cv_hmac_b64 : text;
  cv_canonical_body : text;
}.

Definition compute_chain_values (previous_public_hash_hex : option text) (draft : AuditDraft)
    (key_id key : list byte) : result exn ChainValues :=
  _ ← _validate_hmac_key_id key_id;
  _ ← _validate_hmac_key key;
  body ← canonical_bytes draft;
  previous ← match previous_public_hash_hex with
             | None => Ok []
             | Some h =>
               h ← _validate_public_hash_hex h;
               match fromhex h with
               | Some bs => Ok bs
               | None => Raise (ValueError "non-hexadecimal number found in fromhex() arg")
               end
             end;
  let public_hash := sha256 (previous ++ body) in
  let mac := hmac_sha256 key (PURPOSE ++ public_hash ++ body) in
  Ok (mkValues (hex public_hash) (b64encode mac) body).

Record AuditLedger := mkLedger { lg_key_id : text; lg_key : list byte }.

(** [AuditLedger.__init__]. *)
Definition make_ledger (key_id key : list byte) : result exn AuditLedger :=
  _ ← _validate_hmac_key_id key_id;
  _ ← _validate_hmac_key key;
  Ok (mkLedger key_id key).

Definition append (ledger : AuditLedger) (draft : AuditDraft) (receipt_id : UUID) :
    M AuditDB exn AuditReceipt :=
  rows ← gets receipts;
  position ← lift (
    match last (rows : list ReceiptRow) with
    | None => Ok (1, None)
    | Some row =>
      previous_ordinal ← _storage_int (rr_ordinal row);
      _ ← reject_if (negb ((1 <=? previous_ordinal) && (previous_ordinal <? MAX_AUDIT_ORDINAL)))
            (ValueError "audit ordinal storage value is invalid");
      h ← _storage_text (rr_public row);
      h ← _validate_public_hash_hex h;
      Ok (previous_ordinal + 1, Some h)
    end);
  let '(ordinal, previous) := (position : Z * option text) in
  values ← lift (compute_chain_values previous draft (lg_key_id ledger) (lg_key ledger));
  _ ← raise_if (negb (json_valid (cv_canonical_body values) &&
                      _utc_constraint (utc_text (ad_occurred_at draft)))) IntegrityError;
  let row := mkReceiptRow (CInt ordinal)
               (match previous with Some h => CText h | None => CNull end)
               (CText (cv_public_hash_hex values)) (CText (lg_key_id ledger))
               (CText (cv_hmac_b64 values)) (CText (cv_canonical_body values))
               (CText (utc_text (ad_occurred_at draft))) in
  _ ← modify (λ db, mkAuditDB (receipts db ++ [row]) (segments db));
  mret (mkReceipt receipt_id ordinal (cv_public_hash_hex values) (lg_key_id ledger)
          (cv_hmac_b64 values) (ad_occurred_at draft)).

(** ** Segments *)

Definition not_contiguous : exn := ValueError "segment range is not contiguous".

(** [ordinal BETWEEN first AND last]. *)
Definition in_range (first last : Z) (r : ReceiptRow) : bool :=
  match rr_ordinal r with CInt z => between first z last | _ => false end.

(** The loop of [seal]: rows in sequence from [expected]; the last one and their number. *)
Fixpoint contiguous (expected : Z) (rows : list ReceiptRow) : bool :=
  match rows with
  | [] => true
  | r :: rest =>
    match rr_ordinal r with CInt z => (z =? expected) && contiguous (expected + 1) rest | _ => false end
  end.

(** The new segment takes its place in the order of [first_ordinal]. *)
Fixpoint insert_segment (first : Z) (s : SegmentRow) (l : list SegmentRow) : list SegmentRow :=
  match l with
  | [] => [s]
  | t :: rest =>
    if match sg_first t with CInt z => z <=? first | CNull => true | _ => false end
    then t :: insert_segment first s rest else s :: l
  end.

Definition seal (first_ordinal last_ordinal : Z) (segment_id : UUID) (sealed_at : Z) :
    M AuditDB exn SegmentRow :=
  _ ← raise_if ((first_ordinal <? 1) || (last_ordinal <? first_ordinal) ||
                (MAX_AUDIT_ORDINAL <? last_ordinal)) not_contiguous;
  all ← gets receipts;
  let rows := filter (λ r, in_range first_ordinal last_ordinal r = true) (all : list ReceiptRow) in
  _ ← raise_if (negb (contiguous first_ordinal rows)) not_contiguous;
  match last rows with
  | None => raise not_contiguous
  | Some terminal =>
    _ ← raise_if (negb (len rows =? last_ordinal - first_ordinal + 1)) not_contiguous;
    public ← lift (t ← _storage_text (rr_public terminal); _validate_public_hash_hex t);
    mac ← lift (_validate_hmac_b64 (rr_mac terminal));
    key_id ← lift (t ← _storage_text (rr_key_id terminal); _validate_hmac_key_id t);
    _ ← raise_if (negb (_utc_constraint (utc_text sealed_at))) IntegrityError;
    let row := mkSegmentRow (CText (uuid_text segment_id)) (CInt first_ordinal) (CInt last_ordinal)
                 (CInt (len rows)) (CText public) (CText mac) (CText key_id)
                 (CText (utc_text sealed_at)) in
    _ ← modify (λ db, mkAuditDB (receipts db) (insert_segment first_ordinal row (segments db)));
    mret row
  end.

(** ** The verifier *)

Record AuditVerification := mkVerification {
  av_valid : bool;
  av_count : Z;
  av_terminal : option text;
  av_reason : string;
}.

(** [AuditVerifier.__init__]: the keys that are valid, and the ids of those that are not. *)
Definition key_ok (p : text * list byte) : bool :=
  is_ok (_validate_hmac_key_id p.1) && is_ok (_validate_hmac_key p.2).
Definition find_key (keys : list (text * list byte)) (key_id : text) : option (list byte) :=
  match filter (λ p : text * list byte, p.1 = key_id ∧ key_ok p = true) keys with
  | p :: _ => Some p.2
  | [] => None
  end.
Definition invalid_key_id (keys : list (text * list byte)) (key_id : text) : bool :=
  existsb (λ p : text * list byte, bool_decide (p.1 = key_id) && negb (key_ok p)) keys.

(** [except (TypeError, UnicodeError, ValueError)]. *)
Definition caught_by_verify (e : exn) : bool :=
  match e with
  | TypeError _ | ValueError _ | UnicodeDecodeError | UnicodeEncodeError | ContractParseError _
  | JSONDecodeError | ValidationError => true
  | _ => false
  end.

(** [try: m except ...: return reason]; other exceptions leave the verifier. *)
Definition or_reason {A} (reason : string) (m : result exn A) : result exn (string + A) :=
  match m with
  | Ok a => Ok (inr a)
  | Raise e => if caught_by_verify e then Ok (inl reason) else Raise e
  end.
Definition andalso {A C} (m : result exn (string + A)) (k : A → result exn (string + C)) :
    result exn (string + C) :=
  match m with
  | Ok (inr a) => k a
  | Ok (inl reason) => Ok (inl reason)
  | Raise e => Raise e
  end.
Definition unless {C} (bad : bool) (reason : string) (k : result exn (string + C)) :
    result exn (string + C) := if bad then Ok (inl reason) else k.

Definition previous_cell (c : cell) : result exn (option text) :=
  match c with
  | CNull => Ok None
  | c => t ← _storage_text c; t ← _validate_public_hash_hex t; Ok (Some t)
  end.

(** The body of the first loop: the reason for refusing the row, or its hash. *)
Definition check_receipt (keys : list (text * list byte)) (count : Z) (previous : option text)
    (row : ReceiptRow) : result exn (string + text) :=
  andalso (or_reason "invalid-receipt-row" (
    ordinal ← _storage_int (rr_ordinal row);
    public ← (t ← _storage_text (rr_public row); _validate_public_hash_hex t);
    linked ← previous_cell (rr_previous row);
    Ok (ordinal, public, linked))) (λ '(ordinal, public, linked),
  unless (negb (ordinal =? count) || negb (bool_decide (linked = previous)))
    "ordinal-or-link-mismatch" (
  andalso (or_reason "invalid-hmac-key" (t ← _storage_text (rr_key_id row); _validate_hmac_key_id t))
    (λ key_id,
  unless (invalid_key_id keys key_id) "invalid-hmac-key" (
  match find_key keys key_id with
  | None => Ok (inl "missing-hmac-key"%string)
  | Some key =>
    andalso (or_reason "invalid-hmac" (_validate_hmac_b64 (rr_mac row))) (λ mac,
    match rr_body row with
    | CText body =>
      unless (negb (between 1 (len body) _MAX_CANONICAL_BODY_BYTES)) "invalid-canonical-body" (
      andalso (or_reason "invalid-canonical-body"
                 (parse_contract_json body _MAX_CANONICAL_BODY_BYTES true)) (λ draft,
      andalso (or_reason "invalid-receipt-row" (_storage_text (rr_occurred row))) (λ occurred,
      unless (negb (bool_decide (occurred = utc_text (ad_occurred_at draft))))
        "occurred-at-mismatch" (
      andalso (or_reason "invalid-receipt-row" (compute_chain_values previous draft key_id key))
        (λ values,
      unless (negb (bool_decide (cv_public_hash_hex values = public)) ||
              negb (bool_decide (cv_hmac_b64 values = mac))) "hash-or-hmac-mismatch"
        (Ok (inr (cv_public_hash_hex values))))))))
    | _ => Ok (inl "invalid-canonical-body"%string)
    end)
  end)))).

Fixpoint check_receipts (keys : list (text * list byte)) (count : Z) (previous : option text)
    (rows : list ReceiptRow) : result exn (AuditVerification + Z * option text) :=
  match rows with
  | [] => Ok (inr (count, previous))
  | row :: rest =>
    match check_receipt keys (count + 1) previous row with
    | Raise e => Raise e
    | Ok (inl reason) => Ok (inl (mkVerification false count previous reason))
    | Ok (inr h) => check_receipts keys (count + 1) (Some h) rest
    end
  end.

(** The body of the second loop. *)
Definition check_segment (keys : list (text * list byte)) (rows : list ReceiptRow) (count : Z)
    (s : SegmentRow) : result exn (string + unit) :=
  andalso (or_reason "invalid-segment-row" (
    id ← _storage_text (sg_id s);
    _ ← reject_if (negb (uuid_text_ok id)) (ValueError "audit segment ID is invalid");
    sealed ← _storage_text (sg_sealed s);
    reject_if (negb (utc_text_ok sealed))
      (ValueError "audit timestamp must be canonical UTC text"))) (λ _,
  andalso (or_reason "invalid-segment-range" (
    first ← _storage_int (sg_first s);
    last_ ← _storage_int (sg_last s);
    number ← _storage_int (sg_count s);
    Ok (first, last_, number))) (λ '(first, last_, number),
  unless ((first <? 1) || (last_ <? first) || (MAX_AUDIT_ORDINAL <? last_) || (count <? last_) ||
          negb (number =? last_ - first + 1)) "invalid-segment-range" (
  let covered := filter (λ r, in_range first last_ r = true) rows in
  unless (negb (contiguous first covered) || negb (len covered =? number))
    "invalid-segment-range" (
  match (t ← _storage_text (sg_key_id s); _validate_hmac_key_id t) with
  | Raise e =>
    Ok (inl (if bool_decide (e = ValueError "audit HMAC key ID is required")
             then "invalid-hmac-key" else "invalid-segment-row")%string)
  | Ok key_id =>
    andalso (or_reason "invalid-segment-row" (
      public ← (t ← _storage_text (sg_public s); _validate_public_hash_hex t);
      mac ← _validate_hmac_b64 (sg_mac s);
      Ok (public, mac))) (λ '(public, mac),
    unless (invalid_key_id keys key_id) "invalid-hmac-key" (
    unless (bool_decide (find_key keys key_id = None)) "missing-hmac-key" (
    match filter (λ r, rr_ordinal r = CInt last_) rows with
    | [] => Ok (inl "invalid-segment-range"%string)
    | terminal :: _ =>
      andalso (or_reason "invalid-receipt-row" (
        p ← (t ← _storage_text (rr_public terminal); _validate_public_hash_hex t);
        m ← _validate_hmac_b64 (rr_mac terminal);
        k ← (t ← _storage_text (rr_key_id terminal); _validate_hmac_key_id t);
        Ok (p, m, k))) (λ '(p, m, k),
      unless (negb (bool_decide (p = public)) || negb (bool_decide (m = mac)) ||
              negb (bool_decide (k = key_id))) "segment-terminal-mismatch" (Ok (inr tt)))
    end)))
  end)))).

Fixpoint check_segments (keys : list (text * list byte)) (rows : list ReceiptRow) (count : Z)
    (previous : option text) (l : list SegmentRow) : result exn AuditVerification :=
  match l with
  | [] => Ok (mkVerification true count previous "ok")
  | s :: rest =>
    match check_segment keys rows count s with
    | Raise e => Raise e
    | Ok (inl reason) => Ok (mkVerification false count previous reason)
    | Ok (inr _) => check_segments keys rows count previous rest
    end
  end.

Definition verify (keys : list (text * list byte)) (db : AuditDB) : result exn AuditVerification :=
  match check_receipts keys 0 None (receipts db) with
  | Raise e => Raise e
  | Ok (inl verdict) => Ok verdict
  | Ok (inr (count, previous)) => check_segments keys (receipts db) count previous (segments db)
  end.

(** ** What an accepted receipt is *)

#[local] Opaque sha256 hmac_sha256 hex b64encode.

Implicit Types (keys : list (text * list byte)) (rows : list ReceiptRow).

Lemma andalso_inr {A C} (m : result exn (string + A)) (k : A → result exn (string + C)) c :
  andalso m k = Ok (inr c) → ∃ a, m = Ok (inr a) ∧ k a = Ok (inr c).
Proof. destruct m as [[?|?]|?]; simpl; naive_solver. Qed.

Lemma or_reason_inr {A} reason (m : result exn A) a : or_reason reason m = Ok (inr a) → m = Ok a.
Proof. unfold or_reason. destruct m; [naive_solver|]. by destruct (caught_by_verify e). Qed.

Lemma unless_inr {C} bad reason (k : result exn (string + C)) c :
  unless bad reason k = Ok (inr c) → bad = false ∧ k = Ok (inr c).
Proof. by destruct bad. Qed.

Lemma hash_hex_ok value t : _validate_public_hash_hex value = Ok t → t = value.
Proof. unfold _validate_public_hash_hex. destruct (_ && _); [by intros [= ->]|done]. Qed.
Lemma key_id_ok value t : _validate_hmac_key_id value = Ok t → t = value.
Proof. unfold _validate_hmac_key_id. destruct (_ && _); [by intros [= ->]|done]. Qed.
Lemma hmac_b64_ok c t : _validate_hmac_b64 c = Ok t → c = CText t.
Proof.
  unfold _validate_hmac_b64. destruct c as [|v| |]; try done. destruct (b64decode v); [|done].
  destruct (_ && _); [by intros [= ->]|done].
Qed.
Lemma storage_text_ok c t : _storage_text c = Ok t → c = CText t.
Proof. destruct c; try done. by intros [= ->]. Qed.
Lemma storage_int_ok c z : _storage_int c = Ok z → c = CInt z.
Proof. destruct c; try done. by intros [= ->]. Qed.

Lemma hash_text_ok c t : (u ← _storage_text c; _validate_public_hash_hex u) = Ok t → c = CText t.
Proof. intros (u & Hu%storage_text_ok & ->%hash_hex_ok)%rbind_Ok. done. Qed.
Lemma key_text_ok c t : (u ← _storage_text c; _validate_hmac_key_id u) = Ok t → c = CText t.
Proof. intros (u & Hu%storage_text_ok & ->%key_id_ok)%rbind_Ok. done. Qed.

Definition link_cell (previous : option text) : cell :=
  match previous with Some h => CText h | None => CNull end.

Lemma previous_cell_ok c linked : previous_cell c = Ok linked → c = link_cell linked.
Proof.
  unfold previous_cell. destruct c; try done; [|by intros [= <-]].
  intros (t' & Ht & (u & ->%hash_hex_ok & [= <-])%rbind_Ok)%rbind_Ok. by injection Ht as ->.
Qed.

(** The bytes a link stands for. *)
Definition link_bytes (previous : option text) (bs : list byte) : Prop :=
  match previous with None => bs = [] | Some h => fromhex h = Some bs end.

Lemma compute_chain_values_ok previous draft key_id key values :
  compute_chain_values previous draft key_id key = Ok values →
  ∃ body bs, canonical_bytes draft = Ok body ∧ link_bytes previous bs ∧
    previous_cell (link_cell previous) = Ok previous ∧
    _validate_hmac_key_id key_id = Ok key_id ∧
    values = mkValues (hex (sha256 (bs ++ body)))
      (b64encode (hmac_sha256 key (PURPOSE ++ sha256 (bs ++ body) ++ body))) body.
Proof.
  unfold compute_chain_values.
  intros (k & Hk & (? & _ & (body & Hb & (bs & Hp & [= <-])%rbind_Ok)%rbind_Ok)%rbind_Ok)%rbind_Ok.
  pose proof (key_id_ok _ _ Hk) as ->. exists body, bs.
  assert (link_bytes previous bs ∧ previous_cell (link_cell previous) = Ok previous) as [? ?].
  { destruct previous as [h|]; [|by injection Hp]. apply rbind_Ok in Hp as (h' & Hh & Hp).
    pose proof (hash_hex_ok _ _ Hh) as ->. destruct (fromhex h) eqn:Hx; [|done]. injection Hp as <-.
    cbn [link_bytes link_cell previous_cell _storage_text mbind result_bind]. by rewrite Hh. }
  by split_and!.
Qed.

Lemma canonical_draft body (draft : AuditDraft) max :
  parse_contract_json body max true = Ok draft → canonical_bytes draft = Ok body.
Proof.
  unfold parse_contract_json. intros (v & _ & (m' & _ & (bs & Hb & Hr)%rbind_Ok)%rbind_Ok)%rbind_Ok.
  case_bool_decide; [|done]. by simplify_eq.
Qed.

(** An accepted row: its draft, its key, and the values the chain asks for. *)
Record accepted keys (ordinal : Z) (previous : option text) (row : ReceiptRow) (h : text)
    (draft : AuditDraft) (body bs key_id key : list byte) : Prop := {
  ac_row : row = mkReceiptRow (CInt ordinal) (link_cell previous) (CText h) (CText key_id)
    (CText (b64encode (hmac_sha256 key (PURPOSE ++ sha256 (bs ++ body) ++ body)))) (CText body)
    (CText (utc_text (ad_occurred_at draft)));
  ac_hash : h = hex (sha256 (bs ++ body));
  ac_link : link_bytes previous bs;
  ac_parse : parse_contract_json body _MAX_CANONICAL_BODY_BYTES true = Ok draft;
  ac_key : find_key keys key_id = Some key ∧ invalid_key_id keys key_id = false;
}.

Lemma check_receipt_inv keys ordinal previous row h :
  check_receipt keys ordinal previous row = Ok (inr h) →
  ∃ draft body bs key_id key, accepted keys ordinal previous row h draft body bs key_id key.
Proof.
  unfold check_receipt. intros ([[z public] linked] & Hrow%or_reason_inr & H)%andalso_inr.
  apply rbind_Ok in Hrow as (z' & Hz%storage_int_ok & Hrow).
  apply rbind_Ok in Hrow as (p' & Hp%hash_text_ok & (l' & Hl%previous_cell_ok & [= -> -> ->])%rbind_Ok).
  apply unless_inr in H as [Hlink H]. bool_props. subst z linked.
  apply andalso_inr in H as (key_id & Hk%or_reason_inr%key_text_ok & H).
  apply unless_inr in H as [Hinv H]. destruct (find_key keys key_id) as [key|] eqn:Hkey; [|done].
  apply andalso_inr in H as (mac & Hm%or_reason_inr%hmac_b64_ok & H).
  destruct (rr_body row) as [|body| |] eqn:Hbody; try done. apply unless_inr in H as [_ H].
  apply andalso_inr in H as (draft & Hd%or_reason_inr & H).
  apply andalso_inr in H as (occurred & Ho%or_reason_inr%storage_text_ok & H).
  apply unless_inr in H as [Hocc H].
  apply andalso_inr in H as (values & Hv%or_reason_inr & H). apply unless_inr in H as [Hsame H].
  bool_props. injection H as <-.
  apply compute_chain_values_ok in Hv as (body' & bs & Hb & Hbs & _ & _ & ->).
  rewrite (canonical_draft _ _ _ Hd) in Hb. injection Hb as <-.
  exists draft, body, bs, key_id, key. cbn [cv_public_hash_hex cv_hmac_b64] in *.
  split; try done. destruct row.
  cbn [rr_ordinal rr_previous rr_public rr_key_id rr_mac rr_body rr_occurred] in *. by subst.
Qed.

(** ** The chain of accepted rows *)

Inductive chain keys : Z → option text → list ReceiptRow → option text → Prop :=
| chain_nil n previous : chain keys n previous [] previous
| chain_cons n previous row h rows terminal :
    check_receipt keys (n + 1) previous row = Ok (inr h) →
    chain keys (n + 1) (Some h) rows terminal →
    chain keys n previous (row :: rows) terminal.

Lemma check_receipts_chain keys n previous rows count terminal :
  check_receipts keys n previous rows = Ok (inr (count, terminal)) ↔
  chain keys n previous rows terminal ∧ count = n + len rows.
Proof.
  revert n previous. induction rows as [|row rows IH]; intros n previous; cbn [check_receipts].
  - rewrite len_nil, Z.add_0_r. split; [intros [= -> ->]; by split; [constructor|]|].
    intros [Hc ->]. by inversion Hc.
  - rewrite len_cons. destruct (check_receipt _ _ _ _) as [[reason|h]|e] eqn:Hr.
    + split; [done|]. intros [Hc _]. inversion Hc; congruence.
    + rewrite IH. split.
      * intros [Hc ->]. split; [by econstructor|lia].
      * intros [Hc ->]. inversion Hc; subst. split; [congruence|lia].
    + split; [done|]. intros [Hc _]. inversion Hc; congruence.
Qed.

(** The columns an accepted chain determines. *)
Definition same_content (r r' : ReceiptRow) : Prop :=
  rr_ordinal r = rr_ordinal r' ∧ rr_previous r = rr_previous r' ∧ rr_public r = rr_public r' ∧
  rr_body r = rr_body r' ∧ rr_occurred r = rr_occurred r'.

(** What the chain hashes for a row: the digest it links to and its body. *)
Definition hashed (r : ReceiptRow) : list byte :=
  match rr_previous r with CText h => default [] (fromhex h) | _ => [] end ++
  match rr_body r with CText body => body | _ => [] end.

(** Two of the rows hash different bytes to one digest. *)
Definition collision rows rows' : Prop :=
  ∃ r r', r ∈ rows ∧ r' ∈ rows' ∧ hashed r ≠ hashed r' ∧ sha256 (hashed r) = sha256 (hashed r').

Lemma collision_cons r r' rows rows' : collision rows rows' → collision (r :: rows) (r' :: rows').
Proof. intros (x & y & Hx & Hy & Hne). exists x, y.
  split_and!; [by apply list_elem_of_further..|apply Hne|apply Hne].
Qed.

(** Links to the same depth: none, or two digests. *)
Definition comparable (p p' : option text) : Prop :=
  match p, p' with
  | None, None => True
  | Some h, Some h' => ∃ x x', h = hex (sha256 x) ∧ h' = hex (sha256 x')
  | _, _ => False
  end.

Lemma hex_inj x y : hex x = hex y → x = y.
Proof. intros H%(f_equal fromhex). rewrite !fromhex_hex in H. by injection H. Qed.

Lemma linked_equal p p' bs bs' body body' :
  comparable p p' → link_bytes p bs → link_bytes p' bs' →
  bs ++ body = bs' ++ body' → p = p' ∧ body = body'.
Proof.
  intros Hc Hb Hb' He. destruct p as [h|], p' as [h'|]; try done; cbn in Hb, Hb'.
  - destruct Hc as (x & x' & -> & ->). rewrite fromhex_hex in Hb, Hb'.
    injection Hb as <-. injection Hb' as <-.
    destruct (app_inj_1 _ _ _ _ (eq_trans (length_sha256 x) (eq_sym (length_sha256 x'))) He)
      as [Hx ->]. rewrite Hx. by split.
  - by subst.
Qed.

Lemma accepted_hashed keys n p row h draft body bs key_id key :
  accepted keys n p row h draft body bs key_id key → hashed row = bs ++ body.
Proof.
  intros [-> _ Hl _ _]. unfold hashed. cbn [rr_previous rr_body].
  destruct p as [t|]; cbn [link_cell link_bytes] in *; [by rewrite Hl|by subst].
Qed.

Lemma chains_agree keys keys' n p p' rows rows' terminal :
  chain keys n p rows terminal → chain keys' n p' rows' terminal →
  length rows = length rows' → comparable p p' →
  collision rows rows' ∨ (p = p' ∧ Forall2 same_content rows rows').
Proof.
  intros Hc. revert p' rows'. induction Hc as [n p|n p row h rows terminal Hr Hc IH].
  - intros p' [|] Hc' Hlen _; [|done]. inversion Hc'; subst. right. by split.
  - intros p' [|row' rows'] Hc' Hlen Hcmp; [done|]. inversion Hc' as [|? ? ? h' ? ? Hr' Hrest]; subst.
    apply check_receipt_inv in Hr as (d & b & bs & ki & k & Ha).
    apply check_receipt_inv in Hr' as (d' & b' & bs' & ki' & k' & Ha').
    pose proof (accepted_hashed _ _ _ _ _ _ _ _ _ _ Ha) as Hx.
    pose proof (accepted_hashed _ _ _ _ _ _ _ _ _ _ Ha') as Hx'.
    destruct Ha as [Hrow Hh Hl Hp _], Ha' as [Hrow' Hh' Hl' Hp' _].
    destruct (IH (Some h') rows' Hrest) as [?|[[= Heq] Hall]];
      [by injection Hlen| |left; by apply collision_cons|].
    { subst h h'. by exists (bs ++ b), (bs' ++ b'). }
    rewrite Hh, Hh' in Heq. apply hex_inj in Heq as Hsha.
    destruct (decide (bs ++ b = bs' ++ b')) as [He|He].
    + destruct (linked_equal _ _ _ _ _ _ Hcmp Hl Hl' He) as [-> ->].
      right. split; [done|]. constructor; [|done]. rewrite Hp in Hp'. injection Hp' as ->.
      rewrite Hrow, Hrow', Hh, Hh', Heq. done.
    + left. exists row, row'. rewrite Hx, Hx'. split_and!; [apply list_elem_of_here..|done|done].
Qed.

(** ** What the ledger appends is accepted *)

Lemma hash_valid x : _validate_public_hash_hex (hex (sha256 x)) = Ok (hex (sha256 x)).
Proof.
  unfold _validate_public_hash_hex. rewrite hex_chars.
  assert ((len (hex (sha256 x)) =? 64) = true) as ->; [|done].
  apply Z.eqb_eq. unfold len. by rewrite length_hex, length_sha256.
Qed.

Lemma mac_valid key x :
  _validate_hmac_b64 (CText (b64encode (hmac_sha256 key x))) = Ok (b64encode (hmac_sha256 key x)).
Proof.
  unfold _validate_hmac_b64. rewrite b64decode_encode, (bool_decide_eq_true_2 _ eq_refl).
  assert ((len (hmac_sha256 key x) =? 32) = true) as ->; [|done].
  apply Z.eqb_eq. unfold len. by rewrite length_hmac_sha256.
Qed.

Definition receipt_row (ordinal : Z) (previous : option text) (values : ChainValues)
    (key_id : text) (draft : AuditDraft) : ReceiptRow :=
  mkReceiptRow (CInt ordinal) (link_cell previous) (CText (cv_public_hash_hex values))
    (CText key_id) (CText (cv_hmac_b64 values)) (CText (cv_canonical_body values))
    (CText (utc_text (ad_occurred_at draft))).

Lemma parse_size body (draft : AuditDraft) :
  parse_contract_json body _MAX_CANONICAL_BODY_BYTES true = Ok draft →
  between 1 (len body) _MAX_CANONICAL_BODY_BYTES = true.
Proof.
  unfold parse_contract_json. intros (v & (Hl & _)%parse_bounded_Ok & _)%rbind_Ok.
  by apply between_spec.
Qed.

(** The checks before the body, on a row of the ledger. *)
Lemma check_receipt_new keys ordinal previous values key_id key draft :
  compute_chain_values previous draft key_id key = Ok values →
  find_key keys key_id = Some key → invalid_key_id keys key_id = false →
  check_receipt keys ordinal previous (receipt_row ordinal previous values key_id draft) =
  unless (negb (between 1 (len (cv_canonical_body values)) _MAX_CANONICAL_BODY_BYTES))
    "invalid-canonical-body" (
  andalso (or_reason "invalid-canonical-body"
    (parse_contract_json (cv_canonical_body values) _MAX_CANONICAL_BODY_BYTES true)) (λ d,
  unless (negb (bool_decide (utc_text (ad_occurred_at draft) = utc_text (ad_occurred_at d))))
    "occurred-at-mismatch" (
  andalso (or_reason "invalid-receipt-row" (compute_chain_values previous d key_id key)) (λ v,
  unless (negb (bool_decide (cv_public_hash_hex v = cv_public_hash_hex values)) ||
          negb (bool_decide (cv_hmac_b64 v = cv_hmac_b64 values))) "hash-or-hmac-mismatch"
    (Ok (inr (cv_public_hash_hex v))))))).
Proof.
  intros Hv Hkey Hinv.
  apply compute_chain_values_ok in Hv as (body & bs & Hb & Hbs & Hprev & Hid & ->).
  unfold check_receipt, receipt_row.
  cbn [rr_ordinal rr_previous rr_public rr_key_id rr_mac rr_body rr_occurred cv_public_hash_hex
    cv_hmac_b64 cv_canonical_body _storage_int _storage_text mbind result_bind].
  rewrite hash_valid, Hprev, Hid, mac_valid.
  cbn [mbind result_bind or_reason andalso]. rewrite Z.eqb_refl, (bool_decide_eq_true_2 _ eq_refl).
  cbn [negb orb unless]. rewrite Hinv. cbn [unless]. rewrite Hkey. done.
Qed.

Lemma check_receipt_append keys ordinal previous values key_id key draft :
  compute_chain_values previous draft key_id key = Ok values →
  find_key keys key_id = Some key → invalid_key_id keys key_id = false →
  parse_contract_json (cv_canonical_body values) _MAX_CANONICAL_BODY_BYTES true = Ok draft →
  check_receipt keys ordinal previous (receipt_row ordinal previous values key_id draft)
  = Ok (inr (cv_public_hash_hex values)).
Proof.
  intros Hv Hkey Hinv Hp. rewrite (check_receipt_new _ _ _ _ _ key) by done.
  rewrite (parse_size _ _ Hp), Hp. cbn [negb unless or_reason andalso].
  rewrite (bool_decide_eq_true_2 _ eq_refl). cbn [negb unless]. rewrite Hv.
  cbn [or_reason andalso]. by rewrite !(bool_decide_eq_true_2 _ eq_refl).
Qed.

Lemma chain_snoc keys n p rows terminal row h :
  chain keys n p rows terminal →
  check_receipt keys (n + len rows + 1) terminal row = Ok (inr h) →
  chain keys n p (rows ++ [row]) (Some h).
Proof.
  induction 1 as [n p|n p row' h' rows terminal Hr Hc IH]; intros Hrow.
  - rewrite len_nil, Z.add_0_r in Hrow. econstructor; [exact Hrow|constructor].
  - cbn [app]. econstructor; [exact Hr|]. apply IH. rewrite len_cons in Hrow.
    by replace (n + 1 + len rows + 1) with (n + (len rows + 1) + 1) by lia.
Qed.

Lemma chain_ordinal keys n p rows terminal i r :
  chain keys n p rows terminal → rows !! i = Some r →
  rr_ordinal r = CInt (n + Z.of_nat i + 1) ∧
  ∃ key_id, rr_key_id r = CText key_id ∧ is_Some (find_key keys key_id) ∧
            invalid_key_id keys key_id = false.
Proof.
  intros Hc. revert i. induction Hc as [|n p row h rows terminal Hr Hc IH]; intros i Hi; [done|].
  destruct i as [|i].
  - injection Hi as <-. apply check_receipt_inv in Hr as (d & b & bs & ki & k & [-> _ _ _ [Hk Hv]]).
    cbn [rr_ordinal rr_key_id]. split; [f_equal; lia|]. eauto.
  - apply IH in Hi as [-> ?]. split; [f_equal; lia|done].
Qed.

Lemma chain_last keys n p rows terminal :
  chain keys n p rows terminal →
  match last rows with
  | None => terminal = p
  | Some row => ∃ h, rr_ordinal row = CInt (n + len rows) ∧ rr_public row = CText h ∧ terminal = Some h
  end.
Proof.
  induction 1 as [|n p row h rows terminal Hr Hc IH]; [done|].
  destruct rows as [|row' rows].
  - inversion Hc; subst. cbn [last]. apply check_receipt_inv in Hr as (d & b & bs & ki & k & [-> _ _ _ _]).
    exists h. cbn [rr_ordinal rr_public]. by rewrite len_cons, len_nil.
  - change (last (row :: row' :: rows)) with (last (row' :: rows)).
    destruct (last (row' :: rows)) as [t|] eqn:Hl; [|by rewrite last_None in Hl].
    destruct IH as (h' & -> & ? & ?). exists h'. split_and!; try done. rewrite (len_cons row). f_equal. lia.
Qed.

(** Ordinals are distinct. *)
Lemma chain_unique keys p rows terminal z r :
  chain keys 0 p rows terminal → r ∈ rows → rr_ordinal r = CInt z →
  filter (λ x, rr_ordinal x = CInt z) rows = [r] ∧ 1 ≤ z ≤ len rows.
Proof.
  intros Hc Hr Hz. assert (∀ i j x y, rows !! i = Some x → rows !! j = Some y →
    rr_ordinal x = rr_ordinal y → i = j) as Hinj.
  { intros i j x y Hi Hj. destruct (chain_ordinal _ _ _ _ _ _ _ Hc Hi) as [-> _].
    destruct (chain_ordinal _ _ _ _ _ _ _ Hc Hj) as [-> _]. intros [= He]. lia. }
  split.
  - apply filter_unique; try done.
    + apply NoDup_alt. intros i j x Hi Hj. by eapply Hinj.
    + intros y Hy Hyz. apply list_elem_of_lookup in Hy as [i Hi], Hr as [j Hj].
      assert (i = j) as -> by (eapply Hinj; [done..|congruence]). congruence.
  - apply list_elem_of_lookup in Hr as [i Hi]. apply lookup_lt_Some in Hi as Hlt.
    destruct (chain_ordinal _ _ _ _ _ _ _ Hc Hi) as [Ho _]. rewrite Hz in Ho. injection Ho as ->.
    unfold len. lia.
Qed.

Lemma contiguous_last expected rows t :
  contiguous expected rows = true → last rows = Some t → rr_ordinal t = CInt (expected + len rows - 1).
Proof.
  revert expected. induction rows as [|r rows IH]; intros expected Hc Hl; [done|].
  cbn [contiguous] in Hc. destruct (rr_ordinal r) as [z| | |] eqn:Hz; try done. bool_props. subst z.
  rewrite len_cons. destruct rows as [|r' rows].
  - injection Hl as <-. rewrite Hz, len_nil. f_equal. lia.
  - rewrite (IH (expected + 1)); [f_equal; lia|done|done].
Qed.

(** Rows after a segment do not matter to it. *)
Lemma check_segment_grow keys rows row count s :
  check_segment keys rows count s = Ok (inr tt) → rr_ordinal row = CInt (count + 1) →
  check_segment keys (rows ++ [row]) (count + 1) s = Ok (inr tt).
Proof.
  intros Hs Hrow. unfold check_segment in *.
  apply andalso_inr in Hs as (u & -> & Hs). cbn [andalso].
  apply andalso_inr in Hs as ([[first last_] number] & -> & Hs). cbn [andalso].
  apply unless_inr in Hs as [Hrange Hs]. bool_props.
  rewrite (proj2 (Z.ltb_ge first 1)), (proj2 (Z.ltb_ge last_ first)),
    (proj2 (Z.ltb_ge MAX_AUDIT_ORDINAL last_)), (proj2 (Z.ltb_ge (count + 1) last_)),
    (proj2 (Z.eqb_eq number _)) by lia. cbn [negb orb unless].
  assert (filter (λ r, in_range first last_ r = true) (rows ++ [row])
    = filter (λ r, in_range first last_ r = true) rows) as ->.
  { rewrite filter_app, (filter_none _ [row]), app_nil_r; [done|]. constructor; [|constructor].
    unfold in_range. rewrite Hrow. intros Hb%between_spec. lia. }
  assert (filter (λ r, rr_ordinal r = CInt last_) (rows ++ [row])
    = filter (λ r, rr_ordinal r = CInt last_) rows) as ->.
  { rewrite filter_app, (filter_none _ [row]), app_nil_r; [done|]. constructor; [|constructor].
    rewrite Hrow. intros [= He]. lia. }
  done.
Qed.

(** ** Runs of the ledger *)

Inductive audit_op :=
| OpAppend (ledger : AuditLedger) (draft : AuditDraft) (receipt_id : UUID)
| OpSeal (first_ordinal last_ordinal : Z) (segment_id : UUID) (sealed_at : Z).

Definition audit_perform (db : AuditDB) (o : audit_op) : AuditDB :=
  match o with
  | OpAppend ledger draft receipt_id => (append ledger draft receipt_id db).2
  | OpSeal first last id at_ => (seal first last id at_ db).2
  end.
Definition audit_run (ops : list audit_op) : AuditDB := foldl audit_perform (mkAuditDB [] []) ops.

(** The verifier holds the key of the ledger that appends. *)
Definition signed_with keys (o : audit_op) : Prop :=
  match o with
  | OpAppend ledger draft _ =>
    find_key keys (lg_key_id ledger) = Some (lg_key ledger) ∧
    invalid_key_id keys (lg_key_id ledger) = false
  | OpSeal _ _ _ _ => True
  end.

(** Pydantic and JCS: the canonical form of a draft, if it is not too long, reads back. *)
Class DraftLaws : Prop := {
  draft_readable (draft : AuditDraft) body :
    canonical_bytes draft = Ok body → len body ≤ _MAX_CANONICAL_BODY_BYTES →
    parse_contract_json body _MAX_CANONICAL_BODY_BYTES true = Ok draft;
}.

(** A receipt whose body is not too long, and the receipts before the first one that is. *)
Definition fits (row : ReceiptRow) : bool :=
  match rr_body row with CText body => len body <=? _MAX_CANONICAL_BODY_BYTES | _ => false end.
Fixpoint before_oversized rows : list ReceiptRow :=
  match rows with
  | [] => []
  | row :: rest => if fits row then row :: before_oversized rest else []
  end.

Record verified keys (db : AuditDB) : Prop := {
  vf_chain : ∃ terminal, chain keys 0 None (receipts db) terminal;
  vf_segments : Forall (λ s, check_segment keys (receipts db) (len (receipts db)) s = Ok (inr tt))
                  (segments db);
}.

(** A successful append: the row and what it continues. *)
Lemma append_spec keys ledger draft receipt_id db terminal :
  chain keys 0 None (receipts db) terminal →
  wp (append ledger draft receipt_id)
    (λ _ db', ∃ values,
       compute_chain_values terminal draft (lg_key_id ledger) (lg_key ledger) = Ok values ∧
       db' = mkAuditDB (receipts db ++ [receipt_row (len (receipts db) + 1) terminal values
                                          (lg_key_id ledger) draft]) (segments db))
    (λ _ db', db' = db) db.
Proof.
  intros Hc. unfold append. apply wp_bind, wp_gets. apply wp_bind.
  apply wp_lift; [|done]. intros [ordinal previous] Hpos.
  assert (ordinal = len (receipts db) + 1 ∧ previous = terminal) as [-> ->].
  { apply chain_last in Hc. destruct (last (receipts db)) as [row|] eqn:Hl.
    - destruct Hc as (h & Ho & Hp & ->). rewrite Ho, Hp in Hpos.
      cbn [_storage_int _storage_text mbind result_bind] in Hpos. unfold reject_if in Hpos.
      destruct (negb _); [done|]. cbn [mbind result_bind] in Hpos.
      apply rbind_Ok in Hpos as (t & ->%hash_hex_ok & [= <- <-]). split; [lia|done].
    - injection Hpos as <- <-. apply last_None in Hl. by rewrite Hl, len_nil. }
  apply wp_bind. apply wp_lift; [|done]. intros values Hv.
  apply wp_bind, wp_raise_if; [intros _|done]. apply wp_bind, wp_modify, wp_ret. eauto.
Qed.

Lemma append_verified keys ledger draft db terminal values :
  signed_with keys (OpAppend ledger draft 0) → verified keys db →
  chain keys 0 None (receipts db) terminal →
  compute_chain_values terminal draft (lg_key_id ledger) (lg_key ledger) = Ok values →
  parse_contract_json (cv_canonical_body values) _MAX_CANONICAL_BODY_BYTES true = Ok draft →
  verified keys (mkAuditDB (receipts db ++ [receipt_row (len (receipts db) + 1) terminal values
                                             (lg_key_id ledger) draft]) (segments db)).
Proof.
  intros (Hkey & Hinv) [_ Hsegs] Hc Hv Hp. split; cbn [receipts segments].
  - eexists. eapply chain_snoc; [done|]. rewrite Z.add_0_l. by eapply check_receipt_append.
  - rewrite len_app. change (len [_]) with 1. eapply Forall_impl; [exact Hsegs|].
    intros s Hs. by apply check_segment_grow.
Qed.

Lemma Forall_insert_segment (P : SegmentRow → Prop) first s l :
  P s → Forall P l → Forall P (insert_segment first s l).
Proof.
  intros Hs. induction 1 as [|t l Ht Hl IH]; cbn [insert_segment]; [by constructor|].
  destruct (match sg_first t with CInt z => z <=? first | CNull => true | _ => false end);
    by repeat constructor.
Qed.

(** A segment just sealed is accepted. *)
Lemma check_segment_new `{!AuditTextLaws} keys rows p terminal first_ last_ id at_ t public mac key_id :
  chain keys 0 p rows terminal →
  1 ≤ first_ ≤ last_ → last_ ≤ MAX_AUDIT_ORDINAL →
  let covered := filter (λ r, in_range first_ last_ r = true) rows in
  contiguous first_ covered = true → last covered = Some t → len covered = last_ - first_ + 1 →
  (u ← _storage_text (rr_public t); _validate_public_hash_hex u) = Ok public →
  _validate_hmac_b64 (rr_mac t) = Ok mac →
  (u ← _storage_text (rr_key_id t); _validate_hmac_key_id u) = Ok key_id →
  _utc_constraint (utc_text at_) = true →
  check_segment keys rows (len rows)
    (mkSegmentRow (CText (uuid_text id)) (CInt first_) (CInt last_) (CInt (len covered))
       (CText public) (CText mac) (CText key_id) (CText (utc_text at_))) = Ok (inr tt).
Proof.
  intros Hc Hrange Hmax covered Hcont Hlast Hlen Hpub Hmac Hkey Hutc.
  assert (t ∈ rows) as Ht.
  { apply last_Some_elem_of in Hlast. subst covered. by apply list_elem_of_filter in Hlast as [_ ?]. }
  assert (rr_ordinal t = CInt last_) as Hord.
  { rewrite (contiguous_last _ _ _ Hcont Hlast), Hlen. f_equal. lia. }
  destruct (chain_unique _ _ _ _ _ _ Hc Ht Hord) as [Hfilter Hle].
  apply list_elem_of_lookup in Ht as [i Hi].
  destruct (chain_ordinal _ _ _ _ _ _ _ Hc Hi) as [_ (ki & Hki & Hfind & Hinv)].
  pose proof (key_text_ok _ _ Hkey) as Hki'. assert (ki = key_id) as -> by congruence.
  pose proof (hash_text_ok _ _ Hpub) as Hpub'. pose proof (hmac_b64_ok _ _ Hmac) as Hmac'.
  unfold check_segment. cbn [sg_id sg_sealed sg_first sg_last sg_count sg_key_id sg_public sg_mac].
  rewrite Hki', Hpub', Hmac' in *.
  cbn [_storage_text _storage_int mbind result_bind] in *. unfold reject_if.
  rewrite uuid_text_valid, utc_text_valid by done. cbn [negb mbind result_bind or_reason andalso].
  rewrite (proj2 (Z.ltb_ge first_ 1)), (proj2 (Z.ltb_ge last_ first_)),
    (proj2 (Z.ltb_ge MAX_AUDIT_ORDINAL last_)), (proj2 (Z.ltb_ge (len rows) last_)),
    (proj2 (Z.eqb_eq (len covered) _)) by lia. cbn [negb orb unless]. cbn zeta.
  fold covered. rewrite Hcont, Z.eqb_refl. cbn [negb orb unless].
  rewrite Hkey, Hpub, Hmac. cbn [mbind result_bind or_reason andalso].
  rewrite Hinv. cbn [unless]. rewrite bool_decide_eq_false_2 by (by intros Hn; rewrite Hn in Hfind; destruct Hfind).
  cbn [unless]. rewrite Hfilter, Hki', Hpub', Hmac'. cbn [_storage_text mbind result_bind].
  rewrite Hkey, Hpub, Hmac. cbn [mbind result_bind or_reason andalso].
  by rewrite !(bool_decide_eq_true_2 _ eq_refl).
Qed.

Lemma seal_verified `{!AuditTextLaws} keys first_ last_ id at_ db :
  verified keys db → verified keys (seal first_ last_ id at_ db).2.
Proof.
  intros Hv. assert (wp (seal first_ last_ id at_) (λ _ db', verified keys db') (λ _ db', db' = db) db) as Hw.
  { destruct Hv as [[terminal Hc] Hsegs]. unfold seal.
    apply wp_bind, wp_raise_if; [intros Hr|done]. apply wp_bind, wp_gets. cbn zeta.
    apply wp_bind, wp_raise_if; [intros Hcont|done]. bool_props.
    destruct (last _) as [t|] eqn:Hlast; [|done].
    apply wp_bind, wp_raise_if; [intros Hlen|done]. bool_props.
    apply wp_bind, wp_lift; [intros public Hpub|done].
    apply wp_bind, wp_lift; [intros mac Hmac|done].
    apply wp_bind, wp_lift; [intros key_id Hkey|done].
    apply wp_bind, wp_raise_if; [intros Hutc|done]. bool_props.
    apply wp_bind, wp_modify, wp_ret. split; cbn [receipts segments]; [eauto|].
    apply Forall_insert_segment; [|done]. by eapply check_segment_new. }
  unfold wp in Hw. destruct (seal _ _ _ _ _) as [[?|?] db']; [done|]. cbn [snd]. by subst.
Qed.

Lemma verified_verify keys db :
  verified keys db →
  ∃ terminal, verify keys db = Ok (mkVerification true (len (receipts db)) terminal "ok").
Proof.
  intros [[terminal Hc] Hs]. exists terminal. unfold verify.
  rewrite (proj2 (check_receipts_chain keys 0 None (receipts db) (len (receipts db)) terminal)) by (split; [done|lia]).
  revert Hs. generalize (segments db) as l. induction l as [|s l IH]; intros Hs; [done|].
  inversion Hs as [|? ? Hh Ht]; subst. cbn [check_segments]. rewrite Hh. by apply IH.
Qed.

Lemma check_receipts_invalid keys n p rows v :
  check_receipts keys n p rows = Ok (inl v) → av_valid v = false.
Proof.
  revert n p. induction rows as [|row rows IH]; intros n p; cbn [check_receipts]; [done|].
  destruct (check_receipt _ _ _ _) as [[?|?]|?]; [by intros [= <-]|apply IH|done].
Qed.

Lemma check_segments_verdict keys rows count p l v :
  check_segments keys rows count p l = Ok v → av_count v = count ∧ av_terminal v = p.
Proof.
  induction l as [|s l IH]; cbn [check_segments]; [by intros [= <-]|].
  destruct (check_segment _ _ _ _) as [[?|?]|?]; [by intros [= <-]|apply IH|done].
Qed.

Lemma verify_valid keys db v :
  verify keys db = Ok v → av_valid v = true →
  chain keys 0 None (receipts db) (av_terminal v) ∧ av_count v = len (receipts db).
Proof.
  unfold verify. destruct (check_receipts _ _ _ _) as [[w|[count terminal]]|] eqn:Hc; [| |done].
  - intros [= <-]. by rewrite (check_receipts_invalid _ _ _ _ _ Hc).
  - apply check_receipts_chain in Hc as [Hc ->]. intros [-> ->]%check_segments_verdict _. by rewrite Z.add_0_l.
Qed.

(** C32: receipts are tamper evident: two tables the verifier accepts with the same number of
    receipts and the same terminal hash hold the same ordinals, links, hashes, bodies
    and times, row by row, unless two of their own receipts are a collision of SHA-256. *)
Theorem audit_tamper_evident keys keys' db db' v v' :
  verify keys db = Ok v → verify keys' db' = Ok v' →
  av_valid v = true → av_valid v' = true →
  av_count v = av_count v' → av_terminal v = av_terminal v' →
  collision (receipts db) (receipts db') ∨ Forall2 same_content (receipts db) (receipts db').
Proof.
  intros Hv Hv' Hok Hok' Hcount Hterm.
  destruct (verify_valid _ _ _ Hv Hok) as [Hc Hn]. destruct (verify_valid _ _ _ Hv' Hok') as [Hc' Hn'].
  rewrite <- Hterm in Hc'.
  destruct (chains_agree _ _ _ _ _ _ _ _ Hc Hc') as [?|[_ ?]]; [|done|by left|by right].
  unfold len in *. lia.
Qed.

(** ** A body the verifier does not read *)

(** The rows so far, and one the verifier stops at. *)
Lemma check_receipts_stop keys n p rows terminal row reason rest :
  chain keys n p rows terminal →
  check_receipt keys (n + len rows + 1) terminal row = Ok (inl reason) →
  check_receipts keys n p (rows ++ row :: rest)
  = Ok (inl (mkVerification false (n + len rows) terminal reason)).
Proof.
  induction 1 as [n p|n p row' h' rows terminal Hr Hc IH]; intros Hrow; cbn [app check_receipts].
  - rewrite len_nil, Z.add_0_r in *. by rewrite Hrow.
  - rewrite Hr, len_cons in *. rewrite IH; [do 3 f_equal; lia|].
    by replace (n + 1 + len rows + 1) with (n + (len rows + 1) + 1) by lia.
Qed.

(** Later operations only add rows at the end. *)
Lemma append_extends ledger draft id db :
  ∃ more, receipts (append ledger draft id db).2 = receipts db ++ more.
Proof.
  assert (wp (append ledger draft id) (λ _ db', ∃ more, receipts db' = receipts db ++ more)
    (λ _ db', ∃ more, receipts db' = receipts db ++ more) db) as Hw.
  { assert (∃ more, receipts db = receipts db ++ more) by (exists []; by rewrite app_nil_r).
    unfold append. apply wp_bind, wp_gets. apply wp_bind, wp_lift; [|done]. intros [ordinal previous] _.
    apply wp_bind, wp_lift; [|done]. intros values _. apply wp_bind, wp_raise_if; [intros _|done].
    apply wp_bind, wp_modify, wp_ret. eauto. }
  unfold wp in Hw. by destruct (append _ _ _ _) as [[?|?] ?].
Qed.

Lemma seal_receipts first_ last_ id at_ db : receipts (seal first_ last_ id at_ db).2 = receipts db.
Proof.
  assert (wp (seal first_ last_ id at_) (λ _ db', receipts db' = receipts db) (λ _ db', db' = db) db) as Hw.
  { unfold seal. apply wp_bind, wp_raise_if; [intros _|done]. apply wp_bind, wp_gets. cbn zeta.
    apply wp_bind, wp_raise_if; [intros _|done]. destruct (last _); [|done].
    apply wp_bind, wp_raise_if; [intros _|done]. do 3 (apply wp_bind, wp_lift; [intros ? _|done]).
    apply wp_bind, wp_raise_if; [intros _|done]. by apply wp_bind, wp_modify, wp_ret. }
  unfold wp in Hw. destruct (seal _ _ _ _ _) as [[?|?] ?]; cbn [snd]; [done|by subst].
Qed.

Lemma run_extends ops db : ∃ more, receipts (foldl audit_perform db ops) = receipts db ++ more.
Proof.
  revert db. induction ops as [|o ops IH]; intros db; [exists []; by rewrite app_nil_r|].
  destruct (IH (audit_perform db o)) as [more Hm]. cbn [foldl]. rewrite Hm.
  assert (∃ m, receipts (audit_perform db o) = receipts db ++ m) as [m ->].
  { destruct o; [apply append_extends|exists []; cbn [audit_perform]; by rewrite seal_receipts, app_nil_r]. }
  exists (m ++ more). by rewrite app_assoc.
Qed.

(** The tables a ledger leaves: accepted, or accepted up to a receipt that is too long. *)
Definition stops_at_oversized keys (db : AuditDB) : Prop :=
  ∃ rows row rest terminal, receipts db = rows ++ row :: rest ∧ Forall (λ r, fits r = true) rows ∧
    fits row = false ∧ chain keys 0 None rows terminal ∧
    check_receipt keys (len rows + 1) terminal row = Ok (inl "invalid-canonical-body"%string).
Definition accounted keys (db : AuditDB) : Prop :=
  verified keys db ∧ Forall (λ r, fits r = true) (receipts db) ∨ stops_at_oversized keys db.

Lemma append_accounted `{!DraftLaws} keys ledger draft id db :
  signed_with keys (OpAppend ledger draft id) → verified keys db → Forall (λ r, fits r = true) (receipts db) →
  accounted keys (append ledger draft id db).2.
Proof.
  intros Hsig Hv Hfit. pose proof (vf_chain _ _ Hv) as [terminal Hc].
  pose proof (append_spec keys ledger draft id db terminal Hc) as Hw. unfold wp in Hw.
  destruct (append _ _ _ _) as [[rc|e] db']; cbn [snd]; [|subst db'; by left].
  destruct Hw as (values & Hvals & ->). pose proof Hvals as Hb.
  apply compute_chain_values_ok in Hb as (body & bs & Hbody & _ & _ & _ & Hval).
  assert (cv_canonical_body values = body) as Hcv by by rewrite Hval.
  set (row := receipt_row _ _ _ _ _). assert (fits row = (len body <=? _MAX_CANONICAL_BODY_BYTES)) as Hrow.
  { unfold fits, row, receipt_row. cbn [rr_body]. by rewrite Hcv. }
  destruct (len body <=? _MAX_CANONICAL_BODY_BYTES) eqn:Hlen; bool_props.
  - left. split; [|cbn [receipts]; apply Forall_app; by repeat constructor].
    apply append_verified; try done. rewrite Hcv. by apply draft_readable.
  - right. exists (receipts db), row, [], terminal. split_and!; try done. subst row. destruct Hsig as [Hkey Hinv].
    rewrite (check_receipt_new _ _ _ _ _ (lg_key ledger)) by done. rewrite Hcv.
    by rewrite (proj2 (between_false _ _ _)) by lia.
Qed.

Lemma run_accounted `{!AuditTextLaws, !DraftLaws} keys ops :
  Forall (signed_with keys) ops → accounted keys (audit_run ops).
Proof.
  unfold audit_run. induction ops as [|o ops IH] using rev_ind; intros Hops.
  { left. split; [|constructor]. split; [exists None; constructor|constructor]. }
  apply Forall_app in Hops as [Hops Ho]. apply Forall_inv in Ho. rewrite foldl_app. cbn [foldl].
  destruct (IH Hops) as [[Hv Hfit]|(rows & row & rest & terminal & Hr & Hs)].
  - destruct o; cbn [audit_perform]; [by apply append_accounted|]. left. split; [by apply seal_verified|].
    by rewrite seal_receipts.
  - right. destruct (run_extends [o] (foldl audit_perform (mkAuditDB [] []) ops)) as [more Hm]. cbn [foldl] in Hm.
    exists rows, row, (rest ++ more), terminal. split; [|done]. by rewrite Hm, Hr, <- app_assoc.
Qed.

Lemma before_oversized_all rows : Forall (λ r, fits r = true) rows → forallb fits rows = true.
Proof. induction 1 as [|r rows Hr _ IH]; [done|]. cbn. by rewrite Hr. Qed.
Lemma before_oversized_stop rows row rest :
  Forall (λ r, fits r = true) rows → fits row = false →
  before_oversized (rows ++ row :: rest) = rows ∧ forallb fits (rows ++ row :: rest) = false.
Proof.
  intros Hrows Hrow. induction Hrows as [|r rows Hr _ [IH1 IH2]]; cbn; [by rewrite Hrow|].
  by rewrite Hr, IH1, IH2.
Qed.

(** C31: what the verifier says of the tables a ledger wrote.  The verifier holds the keys of the
    ledgers that append.  Then, whatever they append and seal: if no appended body is over the
    verifier's 65,536 bytes it reports the tables valid and counts every receipt; and otherwise
    it reports them invalid at the first such receipt, counting those before it. *)
Theorem audit_ledger_verifies `{!AuditTextLaws, !DraftLaws} keys ops :
  Forall (signed_with keys) ops →
  let rows := receipts (audit_run ops) in
  ∃ terminal, verify keys (audit_run ops) = Ok (
    if forallb fits rows then mkVerification true (len rows) terminal "ok"
    else mkVerification false (len (before_oversized rows)) terminal "invalid-canonical-body").
Proof.
  intros Hops rows. subst rows.
  destruct (run_accounted keys ops Hops) as [[Hv Hfit]|(rows & row & rest & terminal & Hr & Hfit & Hno & Hc & Hrow)].
  - rewrite before_oversized_all by done. by apply verified_verify.
  - exists terminal. rewrite Hr. destruct (before_oversized_stop rows row rest Hfit Hno) as [-> ->].
    unfold verify. rewrite Hr. erewrite check_receipts_stop; [by rewrite Z.add_0_l|done|]. by rewrite Z.add_0_l.
Qed.
End Audit.

(** ** Witnesses: two receipts and a segment *)

(** Microseconds of one second of 2026. *)
Definition sample_digit (z : Z) : byte := byte_of_Z (48 + z mod 10).
#[local] Instance sample_texts : AuditText := {|
  utc_text t := ascii_bytes "2026-01-01T00:00:00." ++
    map (λ k, sample_digit (t / 10 ^ k)) [5; 4; 3; 2; 1; 0] ++ ascii_bytes "Z";
  uuid_text := be_encode 16;
  utc_text_ok := _utc_constraint;
  uuid_text_ok := λ t, len t =? 16;
  json_valid t := bool_decide (t ≠ []);
|}.
#[local] Instance sample_text_laws : AuditTextLaws.
Proof.
  split; [intros t Ht; exact Ht|intros u; apply Z.eqb_eq; unfold len].
  cbn [uuid_text sample_texts]. by rewrite length_be_encode.
Qed.

(** Drafts that differ in the actor only, written as the JSON string of it. *)
Definition sample_draft (actor : text) : AuditDraft := mkDraft 1 1000 actor [] [] [] 2 [] [].
Definition sample_long : AuditDraft := sample_draft (replicate 65536 x61).
#[local] Instance sample_draft_codec : ContractCodec AuditDraft := {|
  model_validate_json raw := Ok (sample_draft (take (length raw - 2) (drop 1 raw)));
  canonical_bytes d :=
    if bool_decide (d ∈ [sample_draft (ascii_bytes "alice"); sample_draft (ascii_bytes "bob"); sample_long])
    then Ok (x22 :: ad_actor_pseudonym d ++ [x22]) else Raise (ValueError "not a sample");
|}.
Lemma sample_body d body :
  canonical_bytes d = Ok body →
  body = x22 :: ad_actor_pseudonym d ++ [x22] ∧
  (d = sample_draft (ascii_bytes "alice") ∨ d = sample_draft (ascii_bytes "bob") ∨ d = sample_long).
Proof.
  unfold canonical_bytes, sample_draft_codec. generalize sample_long as long. intros long.
  case_bool_decide as Hin; [|by intros [=]]. intros [= <-]. split; [done|].
  apply elem_of_cons in Hin as [?|Hin]; [by left|]. apply elem_of_cons in Hin as [?|Hin]; [by right; left|].
  apply list_elem_of_singleton in Hin. by right; right.
Qed.
Lemma sample_long_oversized : _MAX_CANONICAL_BODY_BYTES < len (x22 :: ad_actor_pseudonym sample_long ++ [x22]).
Proof. vm_compute. reflexivity. Qed.
#[local] Instance sample_draft_laws : DraftLaws.
Proof.
  split. intros draft body [-> Hd]%sample_body Hlen. destruct Hd as [->|[->|Hd]].
  - vm_compute. reflexivity.
  - vm_compute. reflexivity.
  - rewrite Hd in Hlen. pose proof sample_long_oversized. lia.
Qed.

Definition sample_ledger : AuditLedger := mkLedger (ascii_bytes "audit-key-1") (replicate 32 x01).
Definition sample_keys : list (text * list byte) := [(lg_key_id sample_ledger, lg_key sample_ledger)].
Definition sample_audit : list audit_op :=
  [OpAppend sample_ledger (sample_draft (ascii_bytes "alice")) 7;
   OpAppend sample_ledger (sample_draft (ascii_bytes "bob")) 8; OpSeal 1 2 9 2000].

(** The same with a draft that is too long between the two. *)
Definition sample_oversized : list audit_op :=
  [OpAppend sample_ledger (sample_draft (ascii_bytes "alice")) 7; OpAppend sample_ledger sample_long 10;
   OpAppend sample_ledger (sample_draft (ascii_bytes "bob")) 8; OpSeal 1 2 9 2000].

Lemma sample_signed : Forall (signed_with sample_keys) (sample_audit ++ sample_oversized).
Proof. repeat (apply List.Forall_cons; [try exact I; split; vm_compute; reflexivity|]). apply List.Forall_nil. Qed.

Lemma audit_ledger_verifies_witness :
  (∃ terminal, verify sample_keys (audit_run sample_audit) = Ok (mkVerification true 2 terminal "ok")) ∧
  ∃ terminal, verify sample_keys (audit_run sample_oversized)
    = Ok (mkVerification false 1 terminal "invalid-canonical-body").
Proof.
  destruct (proj1 (Forall_app _ _ _) sample_signed) as [H1 H2]. split.
  - destruct (audit_ledger_verifies sample_keys sample_audit H1) as [terminal Hv]. exists terminal. rewrite Hv.
    assert (forallb fits (receipts (audit_run sample_audit)) = true) as -> by (vm_compute; reflexivity).
    assert (len (receipts (audit_run sample_audit)) = 2) as -> by (vm_compute; reflexivity). reflexivity.
  - destruct (audit_ledger_verifies sample_keys sample_oversized H2) as [terminal Hv]. exists terminal. rewrite Hv.
    assert (forallb fits (receipts (audit_run sample_oversized)) = false) as -> by (vm_compute; reflexivity).
    assert (len (before_oversized (receipts (audit_run sample_oversized))) = 1) as -> by (vm_compute; reflexivity).
    reflexivity.
Defined.

Definition sample_verdict : AuditVerification :=
  match verify sample_keys (audit_run sample_audit) with
  | Ok v => v | Raise _ => mkVerification false 0 None "" end.

Lemma audit_tamper_evident_witness :
  collision (receipts (audit_run sample_audit)) (receipts (audit_run sample_audit)) ∨
  Forall2 same_content (receipts (audit_run sample_audit)) (receipts (audit_run sample_audit)).
Proof.
  apply (audit_tamper_evident sample_keys sample_keys (audit_run sample_audit) (audit_run sample_audit)
    sample_verdict sample_verdict); vm_compute; reflexivity.
Defined.

