(* ===== verification/EdgeAudio.v ===== *)
(** * Edge audio: [apps/edge/.../audio/buffer.py] and [audio/vad.py]

    [AudioRing] keeps the newest audio before the wake word in a deque of chunks and
    the audio of the turn in one buffer; it refines a flat pair of byte strings.
    [VoiceActivityDetector] counts voiced and silent frames; it decides a property of
    the frames seen so far.  The running event loop is an argument of every method
    ([asyncio.get_running_loop()], [None] outside a loop), the outcome of inference an
    argument of [process].  Wiped bytes are no longer reachable, so that [_wipe] is
    the empty buffer. *)

From S2P Require Import Prelude.

Definition MAX_TURN_BYTES : Z := 8388608.

(** The newest [n] bytes. *)
Definition newest (n : Z) (l : list byte) : list byte := drop (length l - Z.to_nat n) l.

Lemma newest_all n l : len l ≤ n → newest n l = l.
Proof. unfold newest, len. intros H. by replace (length l - Z.to_nat n)%nat with O by lia. Qed.

Lemma newest_0 n l : n ≤ 0 → newest n l = [].
Proof. unfold newest. intros H. replace (Z.to_nat n) with O by lia. by rewrite Nat.sub_0_r, drop_all. Qed.

Lemma len_newest n l : 0 ≤ n → len (newest n l) = Z.min n (len l).
Proof. intros H. unfold newest. rewrite len_drop. unfold len. lia. Qed.

Lemma newest_app n k l : n ≤ len l → newest n (k ++ l) = newest n l.
Proof.
  unfold newest, len. intros H. rewrite length_app, drop_app_ge by lia. f_equal. lia.
Qed.

(** Forgetting twice. *)
Lemma newest_newest n m l : newest n (newest m l) = newest (Z.min n m) l.
Proof.
  unfold newest. rewrite drop_drop, length_drop. f_equal. lia.
Qed.

Lemma newest_suffix n l : newest n l `suffix_of` l.
Proof. unfold newest. exists (take (length l - Z.to_nat n) l). by rewrite take_drop. Qed.

(** ** The ring *)

Module AudioRing.
Abbreviation loop := Z.

Record ring := mkRing {
  _owner_loop : option loop;
  _pre_roll_bytes : Z;
  _turn_limit_bytes : Z;
  _pre_wake : list (list byte);
  _pre_wake_size : Z;
  _post_wake : list byte;
  _active_turn : bool;
}.

Definition set_owner l r :=
  mkRing (Some l) (_pre_roll_bytes r) (_turn_limit_bytes r) (_pre_wake r) (_pre_wake_size r)
    (_post_wake r) (_active_turn r).
Definition set_pre_wake chunks size r :=
  mkRing (_owner_loop r) (_pre_roll_bytes r) (_turn_limit_bytes r) chunks size (_post_wake r)
    (_active_turn r).
Definition set_post_wake post r :=
  mkRing (_owner_loop r) (_pre_roll_bytes r) (_turn_limit_bytes r) (_pre_wake r)
    (_pre_wake_size r) post (_active_turn r).
Definition set_active b r :=
  mkRing (_owner_loop r) (_pre_roll_bytes r) (_turn_limit_bytes r) (_pre_wake r)
    (_pre_wake_size r) (_post_wake r) b.

Definition make_ring (running : option loop) (bytes_per_second pre_roll_seconds turn_limit_bytes : Z) :
    result exn ring :=
  _ ← reject_if ((bytes_per_second <=? 0) || (MAX_TURN_BYTES <? bytes_per_second))
        (ValueError "audio-ring-byte-rate");
  _ ← reject_if (negb (between 3 pre_roll_seconds 5)) (ValueError "audio-ring-pre-roll");
  _ ← reject_if (negb (between 1 turn_limit_bytes MAX_TURN_BYTES)) (ValueError "audio-ring-turn-limit");
  let pre_roll := bytes_per_second * pre_roll_seconds in
  _ ← reject_if (MAX_TURN_BYTES <? pre_roll) (ValueError "audio-ring-pre-roll");
  Ok (mkRing running pre_roll turn_limit_bytes [] 0 [] false).

Definition owner_error : exn := RuntimeError "audio-ring-event-loop-owner".

Definition _check_owner (current : option loop) : M ring exn unit :=
  owner ← gets _owner_loop;
  match current, (owner : option loop) with
  | None, Some _ => raise owner_error
  | None, None => mret tt
  | Some l, None => modify (set_owner l)
  | Some l, Some o => raise_if (negb (o =? l)) owner_error
  end.

Definition _require_audio_bytes (label : string) (chunk : list byte) : result exn (list byte) :=
  match chunk with
  | [] => Raise (ValueError (label +:+ " must not be empty"))
  | _ => Ok chunk
  end.

Definition _pre_wake_limit (r : ring) : Z :=
  let remaining_turn_budget := _turn_limit_bytes r - len (_post_wake r) in
  if remaining_turn_budget <=? 0 then 0 else Z.min (_pre_roll_bytes r) remaining_turn_budget.

(** The loop of [_trim_pre_wake]: the deque and the size it leaves, and whether indexing
    an empty deque ended it. *)
Fixpoint trim_loop (excess : Z) (chunks : list (list byte)) (size : Z) :
    result exn unit * (list (list byte) * Z) :=
  if excess <=? 0 then (Ok tt, (chunks, size))
  else match chunks with
       | [] => (Raise IndexError, (chunks, size))
       | oldest :: rest =>
         if len oldest <=? excess then trim_loop (excess - len oldest) rest (size - len oldest)
         else (Ok tt, (drop (Z.to_nat excess) oldest :: rest, size - excess))
       end.

Definition _trim_pre_wake : M ring exn unit :=
  λ r, let '(out, (chunks, size)) :=
         trim_loop (_pre_wake_size r - _pre_wake_limit r) (_pre_wake r) (_pre_wake_size r) in
       (out, set_pre_wake chunks size r).

Definition _clear_pre_wake : M ring exn unit := modify (set_pre_wake [] 0).

Definition append_pre_wake (current : option loop) (chunk : list byte) : M ring exn unit :=
  _ ← _check_owner current;
  checked_chunk ← lift (_require_audio_bytes "pre_wake" chunk);
  limit ← gets _pre_wake_limit;
  if limit =? 0 then _clear_pre_wake
  else if limit <=? len (checked_chunk : list byte) then
    _ ← _clear_pre_wake;
    modify (set_pre_wake [drop (length (checked_chunk : list byte) - Z.to_nat limit) checked_chunk] limit)
  else
    _ ← modify (λ r, set_pre_wake (_pre_wake r ++ [checked_chunk : list byte])
                       (_pre_wake_size r + len (checked_chunk : list byte)) r);
    _trim_pre_wake.

Definition begin_turn (current : option loop) : M ring exn unit :=
  _ ← _check_owner current;
  _ ← modify (set_post_wake []);
  _ ← modify (set_active true);
  _trim_pre_wake.

Definition append_post_wake (current : option loop) (chunk : list byte) : M ring exn unit :=
  _ ← _check_owner current;
  checked_chunk ← lift (_require_audio_bytes "post_wake" chunk);
  active ← gets _active_turn;
  _ ← raise_if (negb active) (RuntimeError "audio-ring-turn-not-started");
  room ← gets (λ r, _turn_limit_bytes r - len (_post_wake r));
  _ ← raise_if (room <? len (checked_chunk : list byte)) (ValueError "audio-ring-turn-limit");
  _ ← modify (λ r, set_post_wake (_post_wake r ++ (checked_chunk : list byte)) r);
  _trim_pre_wake.

Definition pre_wake_size (current : option loop) : M ring exn Z :=
  _ ← _check_owner current; gets _pre_wake_size.
Definition post_wake_size (current : option loop) : M ring exn Z :=
  _ ← _check_owner current; gets (λ r, len (_post_wake r)).
Definition snapshot_pre_wake (current : option loop) : M ring exn (list byte) :=
  _ ← _check_owner current; gets (λ r, concat (_pre_wake r)).
Definition snapshot_post_wake (current : option loop) : M ring exn (list byte) :=
  _ ← _check_owner current; gets _post_wake.
Definition snapshot_turn (current : option loop) : M ring exn (list byte) :=
  _ ← _check_owner current;
  _ ← _trim_pre_wake;
  pre ← snapshot_pre_wake current;
  post ← snapshot_post_wake current;
  mret ((pre : list byte) ++ (post : list byte)).

Definition clear (current : option loop) : M ring exn unit :=
  _ ← _check_owner current;
  _ ← _clear_pre_wake;
  _ ← modify (set_post_wake []);
  modify (set_active false).

(** ** Calls *)

Inductive call :=
| AppendPre (chunk : list byte)
| BeginTurn
| AppendPost (chunk : list byte)
| SnapshotTurn
| SnapshotPre
| SnapshotPost
| PreSize
| PostSize
| Clear.

(** What a call gives back: nothing, audio or a size. *)
Inductive answer := Nothing | Audio (bytes : list byte) | Size (n : Z).

Definition perform (current : option loop) (c : call) : M ring exn answer :=
  match c with
  | AppendPre chunk => _ ← append_pre_wake current chunk; mret Nothing
  | BeginTurn => _ ← begin_turn current; mret Nothing
  | AppendPost chunk => _ ← append_post_wake current chunk; mret Nothing
  | SnapshotTurn => b ← snapshot_turn current; mret (Audio b)
  | SnapshotPre => b ← snapshot_pre_wake current; mret (Audio b)
  | SnapshotPost => b ← snapshot_post_wake current; mret (Audio b)
  | PreSize => n ← pre_wake_size current; mret (Size n)
  | PostSize => n ← post_wake_size current; mret (Size n)
  | Clear => _ ← clear current; mret Nothing
  end.

(** Every call with the loop it runs in; the results in order. *)
Fixpoint perform_all (calls : list (option loop * call)) (r : ring) : list (result exn answer) * ring :=
  match calls with
  | [] => ([], r)
  | (current, c) :: rest =>
    let '(out, r') := perform current c r in
    let '(outs, r'') := perform_all rest r' in (out :: outs, r'')
  end.

(** ** The specification: two byte strings and one bound *)

Record flat := mkFlat {
  f_owner : option loop;
  f_pre_roll : Z;
  f_limit : Z;
  f_pre : list byte;
  f_post : list byte;
  f_active : bool;
}.

(** The newest audio that fits beside the turn. *)
Definition refit (f : flat) (pre post : list byte) (active : bool) : flat :=
  mkFlat (f_owner f) (f_pre_roll f) (f_limit f)
    (newest (Z.min (f_pre_roll f) (f_limit f - len post)) pre) post active.

Definition flat_owner (current : option loop) (f : flat) : option flat :=
  match current, f_owner f with
  | None, None => Some f
  | Some l, None => Some (mkFlat (Some l) (f_pre_roll f) (f_limit f) (f_pre f) (f_post f) (f_active f))
  | Some l, Some o => if o =? l then Some f else None
  | None, Some _ => None
  end.

Definition flat_call (c : call) (f : flat) : result exn answer * flat :=
  match c with
  | AppendPre [] => (Raise (ValueError "pre_wake must not be empty"), f)
  | AppendPre chunk => (Ok Nothing, refit f (f_pre f ++ chunk) (f_post f) (f_active f))
  | BeginTurn => (Ok Nothing, refit f (f_pre f) [] true)
  | AppendPost [] => (Raise (ValueError "post_wake must not be empty"), f)
  | AppendPost chunk =>
    if negb (f_active f) then (Raise (RuntimeError "audio-ring-turn-not-started"), f)
    else if f_limit f <? len (f_post f ++ chunk) then (Raise (ValueError "audio-ring-turn-limit"), f)
    else (Ok Nothing, refit f (f_pre f) (f_post f ++ chunk) true)
  | SnapshotTurn => (Ok (Audio (f_pre f ++ f_post f)), f)
  | SnapshotPre => (Ok (Audio (f_pre f)), f)
  | SnapshotPost => (Ok (Audio (f_post f)), f)
  | PreSize => (Ok (Size (len (f_pre f))), f)
  | PostSize => (Ok (Size (len (f_post f))), f)
  | Clear => (Ok Nothing, mkFlat (f_owner f) (f_pre_roll f) (f_limit f) [] [] false)
  end.

Definition flat_perform (current : option loop) (c : call) (f : flat) : result exn answer * flat :=
  match flat_owner current f with
  | None => (Raise owner_error, f)
  | Some f' => flat_call c f'
  end.

Fixpoint flat_perform_all (calls : list (option loop * call)) (f : flat) :
    list (result exn answer) * flat :=
  match calls with
  | [] => ([], f)
  | (current, c) :: rest =>
    let '(out, f') := flat_perform current c f in
    let '(outs, f'') := flat_perform_all rest f' in (out :: outs, f'')
  end.

Definition view (r : ring) : flat :=
  mkFlat (_owner_loop r) (_pre_roll_bytes r) (_turn_limit_bytes r) (concat (_pre_wake r))
    (_post_wake r) (_active_turn r).

(** ** The invariant *)

Record ring_ok (r : ring) : Prop := {
  ok_pre_roll : 1 ≤ _pre_roll_bytes r ≤ MAX_TURN_BYTES;
  ok_limit : 1 ≤ _turn_limit_bytes r ≤ MAX_TURN_BYTES;
  ok_size : _pre_wake_size r = len (concat (_pre_wake r));
  ok_post : len (_post_wake r) ≤ _turn_limit_bytes r;
  ok_fits : _pre_wake_size r ≤ _pre_wake_limit r;
}.

Lemma trim_loop_spec excess chunks :
  excess ≤ len (concat chunks) →
  ∃ chunks', trim_loop excess chunks (len (concat chunks)) = (Ok tt, (chunks', len (concat chunks')))
    ∧ concat chunks' = drop (Z.to_nat excess) (concat chunks).
Proof.
  revert excess. induction chunks as [|oldest rest IH]; intros excess; cbn [trim_loop concat].
  - rewrite len_nil. intros He. rewrite (proj2 (Z.leb_le _ _)) by lia. exists []. split; [done|].
    by rewrite drop_nil.
  - rewrite len_app. intros He. destruct (excess <=? 0) eqn:H0; bool_props.
    { exists (oldest :: rest). cbn [concat]. rewrite len_app.
      by replace (Z.to_nat excess) with O by lia. }
    destruct (len oldest <=? excess) eqn:Hle; bool_props.
    + destruct (IH (excess - len oldest)) as (chunks' & Ht & Hc); [lia|].
      exists chunks'. replace (len oldest + len (concat rest) - len oldest) with (len (concat rest)) by lia.
      split; [done|]. rewrite Hc, drop_app_ge by (unfold len in *; lia). f_equal. unfold len. lia.
    + exists (drop (Z.to_nat excess) oldest :: rest). cbn [concat]. rewrite len_app, len_drop.
      split; [do 2 f_equal; lia|]. by rewrite drop_app_le by (unfold len in *; lia).
Qed.

Lemma limit_eq r :
  1 ≤ _pre_roll_bytes r → len (_post_wake r) ≤ _turn_limit_bytes r →
  _pre_wake_limit r = Z.min (_pre_roll_bytes r) (_turn_limit_bytes r - len (_post_wake r)).
Proof. intros. unfold _pre_wake_limit. destruct (_ <=? _) eqn:Hle; bool_props; lia. Qed.

(** What every operation re-establishes: bounds that hold before trimming. *)
Record ring_sized (r : ring) : Prop := {
  sz_pre_roll : 1 ≤ _pre_roll_bytes r ≤ MAX_TURN_BYTES;
  sz_limit : 1 ≤ _turn_limit_bytes r ≤ MAX_TURN_BYTES;
  sz_size : _pre_wake_size r = len (concat (_pre_wake r));
  sz_post : len (_post_wake r) ≤ _turn_limit_bytes r;
}.

Lemma ok_sized r : ring_ok r → ring_sized r.
Proof. intros []. by split. Qed.

Lemma trim_view r :
  ring_sized r →
  wp _trim_pre_wake (λ _ r', ring_ok r' ∧
    view r' = refit (view r) (concat (_pre_wake r)) (_post_wake r) (_active_turn r)) (λ _ _, False) r.
Proof.
  intros [Hroll Hlim Hsize Hpost]. pose proof (limit_eq r ltac:(lia) Hpost) as Hmin.
  pose proof (len_nonneg (_post_wake r)).
  unfold wp, _trim_pre_wake. rewrite Hsize.
  destruct (trim_loop_spec (len (concat (_pre_wake r)) - _pre_wake_limit r) (_pre_wake r))
    as (chunks' & Ht & Hc); [lia|].
  rewrite Ht. assert (concat chunks' = newest (_pre_wake_limit r) (concat (_pre_wake r))) as Hn.
  { rewrite Hc. unfold newest. f_equal. unfold len. lia. }
  split.
  - split; try done. cbn [_pre_wake_size set_pre_wake]. rewrite Hn, len_newest by lia.
    unfold _pre_wake_limit at 2. cbn [_turn_limit_bytes _post_wake _pre_roll_bytes set_pre_wake].
    fold (_pre_wake_limit r). lia.
  - unfold view, refit. cbn. by rewrite Hn, Hmin.
Qed.

(** One call simulates the flat one. *)
Definition simulates {A} (m : M ring exn A) (r : ring) (spec : result exn A * flat) : Prop :=
  let '(out, r') := m r in ring_ok r' ∧ (out, view r') = spec.

Lemma check_owner_spec current r :
  ring_ok r →
  match flat_owner current (view r) with
  | None => _check_owner current r = (Raise owner_error, r)
  | Some f => ∃ r', _check_owner current r = (Ok tt, r') ∧ ring_ok r' ∧ view r' = f ∧
      _check_owner current r' = (Ok tt, r')
  end.
Proof.
  intros Hok. unfold flat_owner, _check_owner, mbind, M_bind, gets, raise_if. cbn [view f_owner].
  destruct current as [l|], (_owner_loop r) as [o|] eqn:Ho; try done.
  - destruct (o =? l) eqn:Heq; cbn [negb]; [|done]. exists r. by rewrite Ho, Heq.
  - exists (set_owner l r). cbn [set_owner _owner_loop modify]. rewrite Z.eqb_refl. by destruct Hok.
  - exists r. by rewrite Ho.
Qed.

Lemma check_owner_same current r r' :
  _owner_loop r' = _owner_loop r → _check_owner current r = (Ok tt, r) →
  _check_owner current r' = (Ok tt, r').
Proof.
  unfold _check_owner, mbind, M_bind, gets. intros ->.
  destruct current as [l|], (_owner_loop r) as [o|] eqn:Ho; try done.
  - unfold raise_if. by destruct (negb _).
  - intros [= Hr]. rewrite <- Hr in Ho. done.
Qed.

Lemma simulates_unit (m : M ring exn unit) r out f :
  wp m (λ _ r', ring_ok r' ∧ out = Ok Nothing ∧ view r' = f)
    (λ e r', ring_ok r' ∧ out = Raise e ∧ view r' = f) r →
  simulates (_ ← m; mret Nothing) r (out, f).
Proof.
  unfold wp, simulates, mbind, M_bind. destruct (m r) as [[[]|e] r']; intros (Hok & -> & <-); by split.
Qed.

Lemma refit_same r :
  ring_ok r → refit (view r) (concat (_pre_wake r)) (_post_wake r) (_active_turn r) = view r.
Proof.
  intros [? ? Hsize ? Hfits]. rewrite limit_eq, Hsize in Hfits by lia.
  unfold refit, view. cbn. by rewrite newest_all by lia.
Qed.

Lemma append_pre_wake_spec current chunk r :
  ring_ok r → _check_owner current r = (Ok tt, r) →
  simulates (_ ← append_pre_wake current chunk; mret Nothing) r (flat_call (AppendPre chunk) (view r)).
Proof.
  intros Hok Hc. destruct (flat_call _ _) as [out f] eqn:Hf. apply simulates_unit.
  unfold append_pre_wake. apply wp_bind. unfold wp at 1. rewrite Hc.
  apply wp_bind. destruct chunk as [|b bs]; cbn [_require_audio_bytes lift]; unfold wp at 1; cbn [lift].
  { by injection Hf as <- <-. }
  remember (b :: bs) as chunk eqn:Hchunk.
  assert (out = Ok Nothing ∧ f = refit (view r) (concat (_pre_wake r) ++ chunk) (_post_wake r) (_active_turn r))
    as [-> ->] by (subst chunk; by injection Hf as <- <-). clear Hf b bs Hchunk.
  destruct (ok_sized r Hok) as [Hroll Hlim Hsize Hpost]. pose proof (limit_eq r ltac:(lia) Hpost) as Hmin.
  apply wp_bind, wp_gets. destruct (_pre_wake_limit r =? 0) eqn:H0; bool_props.
  { apply wp_modify. split_and!; [split; try done; cbn [_pre_wake_size set_pre_wake]| done |].
    - unfold _pre_wake_limit in *. cbn [_turn_limit_bytes _post_wake _pre_roll_bytes set_pre_wake]. lia.
    - unfold view, refit. cbn. rewrite newest_0 by lia. done. }
  destruct (_pre_wake_limit r <=? len chunk) eqn:Hle; bool_props.
  - assert (0 ≤ _pre_wake_limit r) by (unfold _pre_wake_limit in *; destruct (_ <=? _) eqn:?; bool_props; lia).
    apply wp_bind, wp_modify, wp_modify. change (drop _ chunk) with (newest (_pre_wake_limit r) chunk).
    split_and!; [|done|].
    + split; try done; cbn [_pre_wake_size _pre_wake set_pre_wake concat].
      rewrite app_nil_r, len_newest by lia. lia.
    + unfold view, refit. cbn. rewrite app_nil_r, newest_app by lia. by rewrite Hmin.
  - apply wp_bind, wp_modify. eapply wp_mono; [apply trim_view|..]; [|intros [] r' [Hok' Hv]|done].
    + split; try done. cbn [_pre_wake_size _pre_wake set_pre_wake]. rewrite concat_app, len_app, Hsize. cbn.
      by rewrite app_nil_r.
    + split_and!; [done..|]. rewrite Hv. unfold refit, view. cbn. rewrite concat_app. cbn. by rewrite app_nil_r.
Qed.

Lemma begin_turn_spec current r :
  ring_ok r → _check_owner current r = (Ok tt, r) →
  simulates (_ ← begin_turn current; mret Nothing) r (flat_call BeginTurn (view r)).
Proof.
  intros Hok Hc. apply simulates_unit. unfold begin_turn. apply wp_bind. unfold wp at 1. rewrite Hc.
  apply wp_bind, wp_modify, wp_bind, wp_modify.
  destruct (ok_sized r Hok). eapply wp_mono; [apply trim_view|..]; [|intros [] r' [Hok' Hv]|done].
  - split; try done. unfold set_active, set_post_wake. cbn [_post_wake _turn_limit_bytes]. rewrite len_nil. lia.
  - split_and!; [done..|]. by rewrite Hv.
Qed.

Lemma append_post_wake_spec current chunk r :
  ring_ok r → _check_owner current r = (Ok tt, r) →
  simulates (_ ← append_post_wake current chunk; mret Nothing) r (flat_call (AppendPost chunk) (view r)).
Proof.
  intros Hok Hc. destruct (flat_call _ _) as [out f] eqn:Hf. apply simulates_unit.
  unfold append_post_wake. apply wp_bind. unfold wp at 1. rewrite Hc.
  apply wp_bind. destruct chunk as [|b bs]; cbn [_require_audio_bytes lift]; unfold wp at 1; cbn [lift].
  { by injection Hf as <- <-. }
  cbn [flat_call view f_active f_limit f_post f_pre] in Hf. remember (b :: bs) as chunk eqn:Hchunk.
  apply wp_bind, wp_gets, wp_bind, wp_raise_if; intros Ha; rewrite Ha in Hf; [|by injection Hf as <- <-].
  apply wp_bind, wp_gets, wp_bind, wp_raise_if; intros Hroom; bool_props; rewrite len_app in Hf.
  2: { rewrite (proj2 (Z.ltb_lt _ _)) in Hf by lia. by injection Hf as <- <-. }
  rewrite (proj2 (Z.ltb_ge _ _)) in Hf by lia. injection Hf as <- <-.
  apply wp_bind, wp_modify. destruct (ok_sized r Hok).
  eapply wp_mono; [apply trim_view|..]; [|intros [] r' [Hok' Hv]|done].
  - split; try done. cbn. rewrite len_app. lia.
  - split_and!; [done..|]. rewrite Hv. unfold view, refit. cbn. by rewrite Ha.
Qed.

Lemma clear_spec current r :
  ring_ok r → _check_owner current r = (Ok tt, r) →
  simulates (_ ← clear current; mret Nothing) r (flat_call Clear (view r)).
Proof.
  intros [? ? ? ? ?] Hc. apply simulates_unit. unfold clear. apply wp_bind. unfold wp at 1. rewrite Hc.
  apply wp_bind, wp_modify, wp_bind, wp_modify, wp_modify. split_and!; [|done..].
  pose proof (@len_nil byte). split; try done; cbn; [lia|]. unfold _pre_wake_limit. cbn.
  destruct (_ <=? 0) eqn:Hle; bool_props; lia.
Qed.

Lemma snapshot_turn_spec current r :
  ring_ok r → _check_owner current r = (Ok tt, r) →
  simulates (b ← snapshot_turn current; mret (Audio b)) r (flat_call SnapshotTurn (view r)).
Proof.
  intros Hok Hc. unfold simulates, snapshot_turn, snapshot_pre_wake, snapshot_post_wake, mbind, M_bind.
  rewrite Hc. pose proof (trim_view r (ok_sized r Hok)) as Ht. unfold wp in Ht.
  destruct (_trim_pre_wake r) as [[[]|] r'] eqn:Htrim; [|done]. destruct Ht as [Hok' Hv].
  rewrite refit_same in Hv by done.
  assert (_check_owner current r' = (Ok tt, r')) as Hc'.
  { apply (check_owner_same current r); [by injection Hv|done]. }
  rewrite Hc'. cbn [gets]. rewrite Hc'. cbn [gets mret M_ret].
  split; [done|]. rewrite Hv. injection Hv as _ _ _ Hpre Hpost _. cbn [flat_call view f_pre f_post].
  by rewrite Hpre, Hpost.
Qed.

(** What only reads, once the owner is checked. *)
Lemma reader_spec {A} current (f : ring → A) (g : A → answer) c r :
  ring_ok r → _check_owner current r = (Ok tt, r) → flat_call c (view r) = (Ok (g (f r)), view r) →
  simulates (a ← (_ ← _check_owner current; gets f); mret (g a)) r (flat_call c (view r)).
Proof. intros Hok Hc ->. unfold simulates, mbind, M_bind, gets, mret, M_ret. by rewrite Hc. Qed.

Lemma perform_spec current c r :
  ring_ok r → simulates (perform current c) r (flat_perform current c (view r)).
Proof.
  intros Hok. unfold flat_perform.
  pose proof (check_owner_spec current r Hok) as Hc.
  assert (∀ (m : M ring exn answer),
    (∀ r', _check_owner current r = (Ok tt, r') → _check_owner current r' = (Ok tt, r') → m r = m r') →
    (∀ r', _check_owner current r = (Raise owner_error, r') → m r = (Raise owner_error, r')) →
    (∀ r', ring_ok r' → _check_owner current r' = (Ok tt, r') → simulates m r' (flat_call c (view r'))) →
    simulates m r (match flat_owner current (view r) with
                   | Some f' => flat_call c f' | None => (Raise owner_error, view r) end)) as Hlift.
  { intros m Hsame Hraise Hm. destruct (flat_owner current (view r)) as [f|].
    - destruct Hc as (r' & Hr & Hok' & <- & Hr'). unfold simulates. rewrite (Hsame r') by done. by apply Hm.
    - unfold simulates. by rewrite (Hraise r Hc). }
  destruct c; cbn [perform]; apply Hlift.
  all: try (intros r' Hr Hr'; unfold append_pre_wake, begin_turn, append_post_wake, snapshot_turn, snapshot_pre_wake,
    snapshot_post_wake, pre_wake_size, post_wake_size, clear, mbind, M_bind;
    by rewrite Hr, ?Hr').
  all: try (intros r' Hr; unfold append_pre_wake, begin_turn, append_post_wake, snapshot_turn, snapshot_pre_wake,
    snapshot_post_wake, pre_wake_size, post_wake_size, clear, mbind, M_bind;
    by rewrite Hr).
  all: intros r' Hok' Hr'.
  - by apply append_pre_wake_spec.
  - by apply begin_turn_spec.
  - by apply append_post_wake_spec.
  - by apply snapshot_turn_spec.
  - by apply reader_spec.
  - by apply reader_spec.
  - apply reader_spec; [done..|]. cbn. by rewrite (ok_size _ Hok').
  - by apply (reader_spec current (λ r, len (_post_wake r))).
  - by apply clear_spec.
Qed.

Lemma perform_all_spec calls r :
  ring_ok r →
  ring_ok (perform_all calls r).2 ∧
  flat_perform_all calls (view r) = ((perform_all calls r).1, view (perform_all calls r).2).
Proof.
  revert r. induction calls as [|[current c] calls IH]; intros r Hok; [done|].
  cbn [perform_all flat_perform_all]. pose proof (perform_spec current c r Hok) as Hs. unfold simulates in Hs.
  destruct (perform current c r) as [out r']. destruct Hs as [Hok' <-].
  destruct (IH r' Hok') as [Hok'' Heq]. rewrite Heq. by destruct (perform_all calls r') as [outs r''].
Qed.

Lemma make_ring_ok running bps seconds limit r :
  make_ring running bps seconds limit = Ok r →
  ring_ok r ∧ view r = mkFlat running (bps * seconds) limit [] [] false.
Proof.
  unfold make_ring.
  intros (? & H1%reject_if_Ok & (? & H2%reject_if_Ok & (? & H3%reject_if_Ok & H)%rbind_Ok)%rbind_Ok)%rbind_Ok.
  apply rbind_Ok in H as (? & H4%reject_if_Ok & [= <-]). bool_props.
  apply between_spec in H2, H3. split; [|done].
  pose proof (@len_nil byte). split; cbn; try done; [lia|lia|]. unfold _pre_wake_limit. cbn.
  destruct (_ <=? 0) eqn:?; bool_props; lia.
Qed.

(** ** The newest audio *)

(** The audio before the wake word since the last [clear], as far as calls were accepted. *)
Definition heard (outs : list (result exn answer)) (calls : list (option loop * call)) : list byte :=
  fold_left (λ acc '(out, (_, c)),
    match out, c with
    | Ok _, AppendPre chunk => acc ++ chunk
    | Ok _, Clear => []
    | _, _ => acc
    end) (zip outs calls) [].

(** The limits do not change. *)
Lemma flat_fixed calls f :
  f_pre_roll (flat_perform_all calls f).2 = f_pre_roll f ∧ f_limit (flat_perform_all calls f).2 = f_limit f.
Proof.
  revert f. induction calls as [|[current c] calls IH]; intros f; [done|].
  cbn [flat_perform_all]. destruct (flat_perform current c f) as [out f'] eqn:Hp.
  assert (f_pre_roll f' = f_pre_roll f ∧ f_limit f' = f_limit f) as [<- <-].
  { revert Hp. unfold flat_perform, flat_owner, flat_call, refit.
    repeat case_match; intros; simplify_eq; done. }
  specialize (IH f'). by destruct (flat_perform_all calls f').
Qed.

Lemma flat_pre_suffix calls f acc :
  f_pre f `suffix_of` acc →
  f_pre (flat_perform_all calls f).2 `suffix_of`
    fold_left (λ acc '(out, (_, c)),
      match out, c with
      | Ok _, AppendPre chunk => acc ++ chunk
      | Ok _, Clear => []
      | _, _ => acc
      end) (zip (flat_perform_all calls f).1 calls) acc.
Proof.
  revert f acc. induction calls as [|[current c] calls IH]; intros f acc Hs; [done|].
  cbn [flat_perform_all]. destruct (flat_perform current c f) as [out f'] eqn:Hp.
  specialize (IH f'). destruct (flat_perform_all calls f') as [outs f'']. cbn [fst snd zip fold_left].
  apply IH. clear IH. revert Hp. unfold flat_perform.
  destruct (flat_owner current f) as [f1|] eqn:Ho; [|by intros [= <- <-]].
  assert (f_pre f1 = f_pre f) as Hpre.
  { unfold flat_owner in Ho. destruct current, (f_owner f); try done; [|by injection Ho as <-..].
    destruct (_ =? _); [by injection Ho as <-|done]. }
  rewrite <- Hpre in Hs. destruct c as [[|b chunk]| |[|b chunk]| | | | | |]; cbn [flat_call].
  - by intros [= <- <-].
  - intros [= <- <-]. cbn [refit f_pre]. etrans; [apply newest_suffix|].
    destruct Hs as [k ->]. exists k. by rewrite app_assoc.
  - intros [= <- <-]. cbn [refit f_pre]. by etrans; [apply newest_suffix|].
  - by intros [= <- <-].
  - destruct (negb _); [by intros [= <- <-]|]. destruct (_ <? _); intros [= <- <-]; [done|].
    cbn [refit f_pre]. by etrans; [apply newest_suffix|].
  - by intros [= <- <-].
  - by intros [= <- <-].
  - by intros [= <- <-].
  - by intros [= <- <-].
  - by intros [= <- <-].
  - by intros [= <- <-].
Qed.

(** C36: the deque of chunks behaves as one flat buffer: whatever is called, in whatever event
    loop, every result and the contents agree with the specification that keeps the newest
    audio that fits.  The audio before the wake word is a suffix of what was heard since the
    last clear, at most the pre-roll, and together with the turn at most the turn limit. *)
Theorem audio_ring_refines running bytes_per_second seconds limit r calls :
  make_ring running bytes_per_second seconds limit = Ok r →
  let '(outs, r') := perform_all calls r in
  flat_perform_all calls (mkFlat running (bytes_per_second * seconds) limit [] [] false) = (outs, view r') ∧
  concat (_pre_wake r') `suffix_of` heard outs calls ∧
  len (concat (_pre_wake r')) ≤ bytes_per_second * seconds ∧
  len (concat (_pre_wake r')) + len (_post_wake r') ≤ limit ∧ limit ≤ MAX_TURN_BYTES.
Proof.
  intros [Hok Hview]%make_ring_ok. pose proof (perform_all_spec calls r Hok) as [Hok' Hf].
  rewrite Hview in Hf. pose proof (flat_pre_suffix calls (mkFlat running (bytes_per_second * seconds) limit [] [] false)
    [] (reflexivity _)) as Hs. rewrite Hf in Hs. cbn [fst snd] in Hs.
  destruct (perform_all calls r) as [outs r']. cbn [fst snd] in *.
  destruct Hok' as [Hroll Hlim Hsize Hpost Hfits].
  rewrite limit_eq, Hsize in Hfits by lia.
  assert (_pre_roll_bytes r' = bytes_per_second * seconds ∧ _turn_limit_bytes r' = limit) as [Hr Hl].
  { pose proof (flat_fixed calls (mkFlat running (bytes_per_second * seconds) limit [] [] false)) as [H1 H2].
    by rewrite Hf in H1, H2. }
  split_and!; [done|exact Hs|lia..].
Qed.

Definition sample_calls : list (option loop * call) :=
  [(None, AppendPre (replicate 3 x61)); (Some 1, AppendPre [x62; x63]); (Some 1, BeginTurn);
   (Some 2, AppendPost [x64]); (Some 1, AppendPost [x64; x65]); (Some 1, SnapshotTurn); (Some 1, PostSize)].

Lemma audio_ring_refines_witness :
  let '(outs, r') := perform_all sample_calls (mkRing None 4 5 [] 0 [] false) in
  outs = [Ok Nothing; Ok Nothing; Ok Nothing; Raise owner_error; Ok Nothing; Ok (Audio [x61; x62; x63; x64; x65]);
          Ok (Size 2)] ∧
  concat (_pre_wake r') `suffix_of` heard outs sample_calls.
Proof.
  pose proof (audio_ring_refines None 1 4 5 (mkRing None 4 5 [] 0 [] false) sample_calls eq_refl) as H.
  split; [vm_compute; reflexivity|exact (proj1 (proj2 H))].
Defined.
End AudioRing.

(** ** Voice activity detection *)

Module Vad.
Definition VAD_FRAME_BYTES : Z := 16000 * 20 / 1000 * 2.
Definition SCORE_FLOOR : Z := 0.
Definition SCORE_CEILING : Z := 1000000.

Definition VadDetectionError : exn := RuntimeError "vad-inference-rejected".

(** What reading the handle's attributes shows. *)
Record governed_handle := mkHandle {
  gh_readable : bool;
  gh_method_callable : bool;
  gh_model_id : option string;
  gh_activated : bool;
  gh_no_runtime_download : bool;
  gh_download_callable : bool;
  gh_download_model_callable : bool;
  gh_no_cloud_endpoint : bool;
}.

Definition _validate_governed_handle (h : governed_handle) : result exn unit :=
  _ ← reject_if (negb (gh_readable h)) VadDetectionError;
  _ ← reject_if (negb (gh_method_callable h)) (TypeError "governed-local-inference-handle");
  reject_if (negb (gh_activated h) || negb (gh_no_runtime_download h) ||
             match gh_model_id h with Some id => bool_decide (id = ""%string) | None => true end ||
             gh_download_callable h || gh_download_model_callable h || negb (gh_no_cloud_endpoint h))
    (ValueError "governed-local-inference-handle").

(** The outcome of [infer_voice_score]. *)
Inductive inference :=
| Score (z : Z)
| NotAnInt
| InferenceFailed
| ControlFlow (e : exn).

Definition _require_score (label : string) (value : inference) : result exn Z :=
  match value with
  | Score z => if between SCORE_FLOOR z SCORE_CEILING then Ok z else Raise (ValueError label)
  | _ => Raise (TypeError label)
  end.
Definition _require_bounded_count (label : string) (minimum maximum value : Z) : result exn Z :=
  if between minimum value maximum then Ok value else Raise (ValueError label).

Record detector := mkDetector {
  _threshold : Z;
  _start_frames : Z;
  _hangover_frames : Z;
  _end_frames : Z;
  _speech_run : Z;
  _silence_run : Z;
  _active : bool;
}.

Definition set_runs speech silence active d :=
  mkDetector (_threshold d) (_start_frames d) (_hangover_frames d) (_end_frames d) speech silence active.

Definition make_detector (h : governed_handle) (threshold start_frames hangover_frames end_frames : Z) :
    result exn detector :=
  _ ← _validate_governed_handle h;
  threshold ← _require_score "vad-threshold-contract" (Score threshold);
  start_frames ← _require_bounded_count "vad-start-frames-contract" 1 10 start_frames;
  hangover_frames ← _require_bounded_count "vad-hangover-frames-contract" 0 50 hangover_frames;
  end_frames ← _require_bounded_count "vad-end-frames-contract" 1 10 end_frames;
  Ok (mkDetector threshold start_frames hangover_frames end_frames 0 0 false).

Record VadResult := mkVad { is_voice : bool; started : bool; ended : bool }.

Definition process (frame : list byte) (outcome : inference) : M detector exn VadResult :=
  _ ← raise_if (negb (len frame =? VAD_FRAME_BYTES)) (ValueError "vad-frame-contract");
  raw_score ← lift (match outcome with
                    | ControlFlow e => Raise e
                    | InferenceFailed => Raise VadDetectionError
                    | o => Ok o
                    end);
  score ← lift (_require_score "vad-score-contract" raw_score);
  d ← gets id;
  if _threshold d <=? score then
    _ ← modify (set_runs (_speech_run d + 1) 0 (_active d));
    if negb (_active d) && (_start_frames d <=? _speech_run d + 1) then
      _ ← modify (set_runs (_speech_run d + 1) 0 true);
      mret (mkVad true true false)
    else mret (mkVad (_active d) false false)
  else
    _ ← modify (set_runs 0 (_silence_run d) (_active d));
    if _active d then
      let silence := _silence_run d + 1 in
      _ ← modify (set_runs 0 silence true);
      if (_hangover_frames d <? silence) && (_end_frames d <=? silence - _hangover_frames d) then
        _ ← modify (set_runs 0 0 false);
        mret (mkVad false false true)
      else mret (mkVad true false false)
    else mret (mkVad false false false).

(** A call per frame; the frames that were scored, and what was reported of them. *)
Fixpoint process_all (frames : list (list byte * inference)) (d : detector) :
    list Z * list VadResult * detector :=
  match frames with
  | [] => ([], [], d)
  | (frame, outcome) :: rest =>
    match process frame outcome d, outcome with
    | (Ok v, d'), Score z =>
      let '(scores, outs, d'') := process_all rest d' in (z :: scores, v :: outs, d'')
    | (_, d'), _ => process_all rest d'
    end
  end.

(** ** What is detected *)

Section Spec.
Variables (start_frames end_run : nat).

(** Voiced flags of the frames so far, newest first.  Speech is on when some frame closed
    [start_frames] voiced ones and no [end_run] silent ones followed each other since. *)
Definition speech_on (h : list bool) : Prop :=
  ∃ recent older, h = recent ++ older ∧
    (∃ rest, older = replicate start_frames true ++ rest) ∧
    ¬ ∃ before after, recent = before ++ replicate end_run false ++ after.

Lemma speech_on_nil : (0 < start_frames)%nat → ¬ speech_on [].
Proof.
  intros Hs (recent & older & [-> ->]%eq_sym%app_nil & (rest & He) & _).
  by destruct start_frames; [lia|].
Qed.

Lemma no_run_cons f recent :
  (¬ ∃ before after, f :: recent = before ++ replicate end_run false ++ after) ↔
  (¬ ∃ before after, recent = before ++ replicate end_run false ++ after) ∧
  (¬ ∃ after, f :: recent = replicate end_run false ++ after).
Proof.
  split.
  - intros Hn. split.
    + intros (b & a & ->). apply Hn. by exists (f :: b), a.
    + intros (a & He). apply Hn. by exists [], a.
  - intros [Hn Hp] ([|f' b] & a & He); [by apply Hp; exists a|].
    injection He as -> He. apply Hn. by exists b, a.
Qed.

Lemma speech_on_voiced h :
  (0 < end_run)%nat →
  speech_on (true :: h) ↔
  speech_on h ∨ ∃ rest, true :: h = replicate start_frames true ++ rest.
Proof.
  intros He. split.
  - intros ([|f recent] & older & Hh & Hold & Hn); cbn in Hh; [right; by rewrite Hh|].
    injection Hh as <- ->. left. exists recent, older. split_and!; [done..|].
    by apply no_run_cons in Hn as [? _].
  - intros [(recent & older & -> & Hold & Hn)|Hold].
    + exists (true :: recent), older. split_and!; [done..|]. apply no_run_cons. split; [done|].
      intros (a & Ha). by destruct end_run; [lia|].
    + exists [], (true :: h). split_and!; [done..|]. intros (b & a & Hb).
      symmetry in Hb. apply app_nil in Hb as [_ Hb]. apply app_nil in Hb as [Hb _].
      by destruct end_run; [lia|].
Qed.

Lemma speech_on_silent h :
  (0 < start_frames)%nat →
  speech_on (false :: h) ↔
  speech_on h ∧ ¬ ∃ rest, false :: h = replicate end_run false ++ rest.
Proof.
  intros Hs. split.
  - intros ([|f recent] & older & Hh & (rest & Hold) & Hn); cbn in Hh.
    { rewrite Hold in Hh. by destruct start_frames; [lia|]. }
    injection Hh as <- ->. apply no_run_cons in Hn as [Hn Hp]. split.
    { exists recent, older. split_and!; eauto. }
    intros (after & Ha). destruct (decide (end_run ≤ S (length recent))%nat) as [Hle|Hgt].
    + apply Hp. exists (drop end_run (false :: recent)).
      apply (f_equal (take end_run)) in Ha.
      rewrite take_app_length' in Ha by (by rewrite length_replicate).
      rewrite app_comm_cons, take_app_le in Ha by (cbn; lia).
      by rewrite <- Ha, take_drop.
    + apply (f_equal (lookup (S (length recent)))) in Ha.
      rewrite lookup_app_l in Ha by (rewrite length_replicate; lia).
      rewrite lookup_replicate_2, app_comm_cons, lookup_app_r in Ha by (cbn; lia).
      rewrite Nat.sub_diag, Hold in Ha. by destruct start_frames; [lia|].
  - intros [(recent & older & -> & Hold & Hn) Hp]. exists (false :: recent), older.
    split_and!; [done..|]. apply no_run_cons. split; [done|]. intros (a & Ha). apply Hp.
    exists (a ++ older). rewrite app_assoc, <- Ha. done.
Qed.
End Spec.

(** ** The counters *)

(** The length of the newest run of [b]. *)
Fixpoint trailing (b : bool) (h : list bool) : nat :=
  match h with
  | f :: h => if Bool.eqb f b then S (trailing b h) else O
  | [] => O
  end.

Lemma trailing_prefix b n h : (∃ rest, h = replicate n b ++ rest) ↔ (n ≤ trailing b h)%nat.
Proof.
  revert n. induction h as [|f h IH]; intros [|n]; cbn [trailing].
  - split; [lia|by eexists].
  - split; [by intros [? ?]|lia].
  - split; [lia|by eexists].
  - destruct (Bool.eqb f b) eqn:Hf.
    + apply Bool.eqb_prop in Hf as ->. rewrite <- Nat.succ_le_mono, <- IH. cbn. naive_solver.
    + split; [|lia]. intros [rest [= -> _]]. by rewrite Bool.eqb_reflx in Hf.
Qed.

(** The counters after the frames [h], newest first. *)
Record tracks (d : detector) (h : list bool) : Prop := {
  tk_limits : 1 ≤ _start_frames d ∧ 0 ≤ _hangover_frames d ∧ 1 ≤ _end_frames d;
  tk_speech : _speech_run d = Z.of_nat (trailing true h);
  tk_silence : _active d = true → _silence_run d = Z.of_nat (trailing false h);
  tk_active : _active d = true ↔
    speech_on (Z.to_nat (_start_frames d)) (Z.to_nat (_hangover_frames d + _end_frames d)) h;
}.

Definition same_limits (d d' : detector) : Prop :=
  _threshold d' = _threshold d ∧ _start_frames d' = _start_frames d ∧
  _hangover_frames d' = _hangover_frames d ∧ _end_frames d' = _end_frames d.

Lemma process_voiced d h z frame :
  tracks d h → len frame = VAD_FRAME_BYTES → between SCORE_FLOOR z SCORE_CEILING = true →
  _threshold d ≤ z →
  ∃ d', process frame (Score z) d
        = (Ok (mkVad (_active d') (negb (_active d) && _active d') (_active d && negb (_active d'))), d') ∧
    tracks d' (true :: h) ∧ same_limits d d'.
Proof.
  intros [Hlim Hsp Hsi Hac] Hf Hz Ht. unfold process, mbind, M_bind, lift, raise_if, gets, modify, mret, M_ret.
  rewrite Hf, Z.eqb_refl. cbn [negb]. unfold _require_score. rewrite Hz.
  unfold id. rewrite (proj2 (Z.leb_le _ _) Ht).
  pose proof (speech_on_voiced (Z.to_nat (_start_frames d)) (Z.to_nat (_hangover_frames d + _end_frames d)) h
    ltac:(lia)) as Hon. rewrite trailing_prefix in Hon. cbn [trailing Bool.eqb] in Hon.
  destruct (_active d) eqn:Ha; cbn [negb andb].
  - exists (set_runs (_speech_run d + 1) 0 true d). split_and!; [done| |done].
    split; cbn [set_runs _speech_run _silence_run _active _start_frames _hangover_frames _end_frames trailing Bool.eqb];
      [done|lia|done|]. rewrite Hon. naive_solver.
  - destruct (_start_frames d <=? _speech_run d + 1) eqn:Hs; bool_props.
    + exists (set_runs (_speech_run d + 1) 0 true d). split_and!; [done| |done].
      split; cbn [set_runs _speech_run _silence_run _active _start_frames _hangover_frames _end_frames trailing Bool.eqb];
        [done|lia|done|]. rewrite Hon. split; [|done]. intros _. right. lia.
    + exists (set_runs (_speech_run d + 1) 0 false d). split_and!; [done| |done].
      split; cbn [set_runs _speech_run _silence_run _active _start_frames _hangover_frames _end_frames trailing Bool.eqb];
        [done|lia|done|]. rewrite Hon. split; [done|]. intros [?|?]; [naive_solver|lia].
Qed.

Lemma process_silent d h z frame :
  tracks d h → len frame = VAD_FRAME_BYTES → between SCORE_FLOOR z SCORE_CEILING = true →
  z < _threshold d →
  ∃ d', process frame (Score z) d
        = (Ok (mkVad (_active d') (negb (_active d) && _active d') (_active d && negb (_active d'))), d') ∧
    tracks d' (false :: h) ∧ same_limits d d'.
Proof.
  intros [Hlim Hsp Hsi Hac] Hf Hz Ht. unfold process, mbind, M_bind, lift, raise_if, gets, modify, mret, M_ret.
  rewrite Hf, Z.eqb_refl. cbn [negb]. unfold _require_score. rewrite Hz.
  unfold id. rewrite (proj2 (Z.leb_gt _ _) Ht).
  pose proof (speech_on_silent (Z.to_nat (_start_frames d)) (Z.to_nat (_hangover_frames d + _end_frames d)) h
    ltac:(lia)) as Hon. rewrite trailing_prefix in Hon. cbn [trailing Bool.eqb] in Hon.
  destruct (_active d) eqn:Ha; cbn [negb andb].
  - rewrite (Hsi eq_refl) in *.
    destruct (_ && _) eqn:Hend.
    + exists (set_runs 0 0 false d). bool_props. split_and!; [done| |done].
      split; cbn [set_runs _speech_run _silence_run _active _start_frames _hangover_frames _end_frames trailing Bool.eqb];
        [done..|]. rewrite Hon. split; [done|]. intros [_ Hn]. lia.
    + exists (set_runs 0 (Z.of_nat (trailing false h) + 1) true d). split_and!; [done| |done].
      apply andb_false_iff in Hend.
      split; cbn [set_runs _speech_run _silence_run _active _start_frames _hangover_frames _end_frames trailing Bool.eqb];
        [done|done|lia|]. rewrite Hon. split; [|done]. intros _. split; [naive_solver|].
      destruct Hend; bool_props; lia.
  - exists (set_runs 0 (_silence_run d) false d). split_and!; [done| |done].
    split; cbn [set_runs _speech_run _silence_run _active _start_frames _hangover_frames _end_frames trailing Bool.eqb];
      [done..|]. rewrite Hon. naive_solver.
Qed.

(** The score of a frame [process] accepts. *)
Definition scored (p : list byte * inference) : option Z :=
  match p with
  | (frame, Score z) =>
    if (len frame =? VAD_FRAME_BYTES) && between SCORE_FLOOR z SCORE_CEILING then Some z else None
  | _ => None
  end.

Lemma process_scored d h frame outcome :
  tracks d h →
  match scored (frame, outcome) with
  | Some z =>
    outcome = Score z ∧
    ∃ d', process frame outcome d
          = (Ok (mkVad (_active d') (negb (_active d) && _active d') (_active d && negb (_active d'))), d') ∧
      tracks d' ((_threshold d <=? z) :: h) ∧ same_limits d d'
  | None => ∃ e, process frame outcome d = (Raise e, d)
  end.
Proof.
  intros Hd. unfold scored. destruct outcome as [z| | |e].
  - destruct (len frame =? VAD_FRAME_BYTES) eqn:Hf; cbn [andb];
      [|unfold process, mbind, M_bind, raise_if; rewrite Hf; by eexists].
    destruct (between _ z _) eqn:Hz.
    + split; [done|]. bool_props. destruct (_threshold d <=? z) eqn:Ht; bool_props.
      * by apply process_voiced.
      * by apply process_silent.
    + unfold process, mbind, M_bind, raise_if, lift, _require_score. rewrite Hf, Hz. by eexists.
  - unfold process, mbind, M_bind, raise_if. destruct (negb _); by eexists.
  - unfold process, mbind, M_bind, raise_if. destruct (negb _); by eexists.
  - unfold process, mbind, M_bind, raise_if. destruct (negb _); by eexists.
Qed.

(** The flags of scores, newest first. *)
Definition flags (threshold : Z) (scores : list Z) : list bool := rev (map (λ z, threshold <=? z) scores).

Lemma process_all_spec frames d h :
  tracks d h →
  let '(scores, outs, d') := process_all frames d in
  let on n := speech_on (Z.to_nat (_start_frames d)) (Z.to_nat (_hangover_frames d + _end_frames d))
                (flags (_threshold d) (take n scores) ++ h) in
  scores = omap scored frames ∧ length outs = length scores ∧
  ∀ i v, outs !! i = Some v →
    (is_voice v = true ↔ on (S i)) ∧ (started v = true ↔ on (S i) ∧ ¬ on i) ∧
    (ended v = true ↔ on i ∧ ¬ on (S i)).
Proof.
  revert d h. induction frames as [|[frame outcome] frames IH]; intros d h Hd; [done|].
  cbn [process_all omap list_omap]. pose proof (process_scored d h frame outcome Hd) as Hp.
  destruct (scored (frame, outcome)) as [z|].
  - destruct Hp as (-> & d' & -> & Hd' & Hlim & Hs & Hh & He).
    specialize (IH d' _ Hd'). destruct (process_all frames d') as [[scores outs] d''].
    rewrite Hlim, Hs, Hh, He in IH. destruct IH as (-> & Hlen & Hall). split_and!; [done|cbn; lia|].
    assert (∀ n, flags (_threshold d) (take (S n) (z :: omap scored frames)) ++ h
      = flags (_threshold d) (take n (omap scored frames)) ++ (_threshold d <=? z) :: h) as Hflags.
    { intros n. unfold flags. cbn. by rewrite <- app_assoc. }
    intros [|i] v Hv; rewrite ?Hflags; [|by apply Hall].
    injection Hv as <-. cbn [is_voice started ended take]. unfold flags at 1 3 5. cbn [rev map app].
    pose proof (tk_active _ _ Hd) as Ha. pose proof (tk_active _ _ Hd') as Ha'. rewrite Hs, Hh, He in Ha'.
    change (flags (_threshold d) [] ++ h) with h. rewrite <- Ha, <- Ha'.
    destruct (_active d), (_active d'); naive_solver.
  - destruct Hp as [e ->]. specialize (IH d h Hd). by destruct outcome.
Qed.

Lemma make_detector_tracks handle threshold start hangover end_ d :
  make_detector handle threshold start hangover end_ = Ok d →
  tracks d [] ∧ _threshold d = threshold ∧ _start_frames d = start ∧ _hangover_frames d = hangover ∧
  _end_frames d = end_.
Proof.
  unfold make_detector, _require_bounded_count, _require_score.
  intros (? & _ & H)%rbind_Ok. destruct (between SCORE_FLOOR _ _); [|done].
  apply rbind_Ok in H as (? & [= <-] & H).
  apply rbind_Ok in H as (? & H1 & H). destruct (between 1 start 10) eqn:B1; [|done]. injection H1 as <-.
  apply rbind_Ok in H as (? & H2 & H). destruct (between 0 hangover 50) eqn:B2; [|done]. injection H2 as <-.
  apply rbind_Ok in H as (? & H3 & H). destruct (between 1 end_ 10) eqn:B3; [|done]. injection H3 as <-.
  injection H as <-. apply between_spec in B1, B2, B3. split; [|done].
  split; cbn [_start_frames _hangover_frames _end_frames _speech_run _silence_run _active]; [lia|done..|].
  split; [done|]. intros Hn. exfalso. revert Hn. apply speech_on_nil. lia.
Qed.

(** C37: the detector's counters decide a property of the frames it scored.  A frame is
    reported as voice exactly when some earlier or present frame closed [start_frames] voiced
    frames in a row and no [hangover_frames + end_frames] silent ones followed each other
    since; started and ended are reported exactly when that begins and stops to hold.
    Frames that are refused change nothing. *)
Theorem vad_detects handle threshold start_frames hangover_frames end_frames d frames :
  make_detector handle threshold start_frames hangover_frames end_frames = Ok d →
  let '(scores, outs, _) := process_all frames d in
  let on n := speech_on (Z.to_nat start_frames) (Z.to_nat (hangover_frames + end_frames))
                (flags threshold (take n scores)) in
  scores = omap scored frames ∧ length outs = length scores ∧
  ∀ i v, outs !! i = Some v →
    (is_voice v = true ↔ on (S i)) ∧ (started v = true ↔ on (S i) ∧ ¬ on i) ∧
    (ended v = true ↔ on i ∧ ¬ on (S i)).
Proof.
  intros (Hd & <- & <- & <- & <-)%make_detector_tracks. pose proof (process_all_spec frames d [] Hd) as H.
  destruct (process_all frames d) as [[scores outs] d']. cbn zeta in *.
  setoid_rewrite app_nil_r in H. exact H.
Qed.

Definition sample_handle : governed_handle :=
  mkHandle true true (Some "vad-1"%string) true true false false true.
Definition sample_frames : list (list byte * inference) :=
  map (λ z, (replicate 640 x00, Score z)) [9; 9; 1; 9; 1; 1; 1] ++ [([], Score 9); (replicate 640 x00, InferenceFailed)].

Lemma vad_detects_witness :
  let '(scores, outs, _) := process_all sample_frames (mkDetector 5 2 1 2 0 0 false) in
  map is_voice outs = [false; true; true; true; true; true; false] ∧
  map started outs = [false; true; false; false; false; false; false] ∧
  map ended outs = [false; false; false; false; false; false; true] ∧ scores = omap scored sample_frames.
Proof.
  pose proof (vad_detects sample_handle 5 2 1 2 (mkDetector 5 2 1 2 0 0 false) sample_frames eq_refl) as H.
  split; [vm_compute; reflexivity|]. split; [vm_compute; reflexivity|]. split; [vm_compute; reflexivity|].
  exact (proj1 H).
Defined.
End Vad.
