(* ===== verification/Media.v ===== *)
(** * Media admission: [contracts/commitments.py], [reachy_media.py], [edge/transport/media.py]

    Keyed commitments, the binary media prefix, the camera window a grant opens and the
    audio quota of a turn.  Instants are microseconds since an epoch; a [stamp] is the
    instant of a datetime, or [None] when it is naive or its time zone is not a trusted
    fixed offset.  Locks make the methods atomic.  The canonical JSON of a grant
    without its commitment (pydantic's dump, [canonical_mapping_bytes]) is the interface
    [GrantBody]. *)

From S2P Require Import Prelude Digest PyFloat.
From Stdlib Require Import SpecFloat.

(** ** Commitments *)

Module Commitments.
Record Commitment := mkCommitment { cm_algorithm : string; cm_key_id : string; cm_value_b64 : list byte }.

Definition is_ascii (bs : list byte) : bool := forallb (λ b, Z_of_byte b <? 128) bs.

Definition derive_purpose_key (root_key purpose : list byte) : result exn (list byte) :=
  _ ← reject_if (negb (len root_key =? 32)) (ValueError "commitment root must be 32 bytes");
  _ ← reject_if (negb (is_ascii purpose)) (ValueError "commitment purpose must be ASCII");
  _ ← reject_if (negb (between 1 (len purpose) 128)) (ValueError "commitment purpose length outside bounds");
  let prk := hmac_sha256 (ascii_bytes "TUNTUN-HMAC-KDF-V1") root_key in
  let info := ascii_bytes "purpose" ++ x00 :: be_encode 2 (len purpose) ++ purpose in
  Ok (hmac_sha256 prk (info ++ [x01])).

(** What is authenticated: the purpose and the body, each after its length. *)
Definition framed (purpose body : list byte) : list byte :=
  ascii_bytes "TUNTUN-HMAC-V1" ++ [x00] ++ be_encode 2 (len purpose) ++ purpose ++
  be_encode 8 (len body) ++ body.

Definition commit_private (root_key : list byte) (key_id : string) (purpose canonical_body : list byte) :
    result exn Commitment :=
  purpose_key ← derive_purpose_key root_key purpose;
  let digest := hmac_sha256 purpose_key (framed purpose canonical_body) in
  Ok (mkCommitment "HMAC-SHA-256" key_id (b64encode digest)).

Lemma be_encode_inj n x y : 0 ≤ x < 256 ^ Z.of_nat n → 0 ≤ y < 256 ^ Z.of_nat n →
  be_encode n x = be_encode n y → x = y.
Proof.
  intros Hx Hy He%(f_equal be_decode). by rewrite !be_decode_encode_small in He.
Qed.

(** Purpose and body can be read back from the framing: two purposes never share bytes. *)
Lemma framed_inj p p' b b' :
  len p ≤ 128 → len p' ≤ 128 → framed p b = framed p' b' → p = p' ∧ b = b'.
Proof.
  intros Hp Hp' He. unfold framed in He. apply app_inv_head, app_inv_head in He.
  pose proof (len_nonneg p). pose proof (len_nonneg p').
  apply app_inj_1 in He as [Hl He]; [|by rewrite !length_be_encode].
  apply be_encode_inj in Hl; [|cbn; lia..].
  apply app_inj_1 in He as [-> He]; [|unfold len in Hl; lia].
  by apply app_inj_1 in He as [_ ->]; [|by rewrite !length_be_encode].
Qed.
End Commitments.

(** ** The media prefix: [struct.Struct(">4sBBHI")] *)

Module MediaPrefix.
Definition PREFIX_SIZE : Z := 12.
Definition MEDIA_MAGIC : list byte := ascii_bytes "TTN1".
Definition MEDIA_TYPE_AUDIO : Z := 1.
Definition MEDIA_TYPE_CAMERA : Z := 2.
Definition MAX_HEADER : Z := 4096.
Definition MAX_AUDIO_PAYLOAD : Z := 65536.
Definition MAX_CAMERA_PAYLOAD : Z := 1048576.

(** The tests on the unpacked fields. *)
Definition accept_prefix (magic : list byte) (media_type flags header_len payload_len : Z) :
    result exn (Z * Z * Z * Z) :=
  _ ← reject_if (negb (bool_decide (magic = MEDIA_MAGIC))) (ValueError "invalid media magic");
  _ ← reject_if (negb ((media_type =? MEDIA_TYPE_AUDIO) || (media_type =? MEDIA_TYPE_CAMERA)))
        (ValueError "unsupported media type");
  _ ← reject_if (negb (flags =? 0)) (ValueError "media flags must be zero");
  _ ← reject_if (MAX_HEADER <? header_len) (ValueError "media header too large");
  let maximum_payload :=
    if media_type =? MEDIA_TYPE_CAMERA then MAX_CAMERA_PAYLOAD else MAX_AUDIO_PAYLOAD in
  _ ← reject_if (maximum_payload <? payload_len) (ValueError "media payload too large");
  Ok (media_type, flags, header_len, payload_len).

Definition parse_prefix (data : list byte) : result exn (Z * Z * Z * Z) :=
  _ ← reject_if (negb (len data =? PREFIX_SIZE)) (ValueError "invalid media prefix length");
  accept_prefix (take 4 data) (be_decode (take 1 (drop 4 data))) (be_decode (take 1 (drop 5 data)))
    (be_decode (take 2 (drop 6 data))) (be_decode (drop 8 data)).

(** [PREFIX.pack]. *)
Definition pack (media_type flags header_len payload_len : Z) : list byte :=
  MEDIA_MAGIC ++ be_encode 1 media_type ++ be_encode 1 flags ++ be_encode 2 header_len ++
  be_encode 4 payload_len.

Definition prefix_ok (media_type flags header_len payload_len : Z) : Prop :=
  (media_type = MEDIA_TYPE_AUDIO ∧ payload_len ≤ MAX_AUDIO_PAYLOAD ∨
   media_type = MEDIA_TYPE_CAMERA ∧ payload_len ≤ MAX_CAMERA_PAYLOAD) ∧
  flags = 0 ∧ 0 ≤ header_len ≤ MAX_HEADER ∧ 0 ≤ payload_len.

Lemma accept_prefix_ok m t f h n r :
  0 ≤ h → 0 ≤ n → accept_prefix m t f h n = Ok r ↔ r = (t, f, h, n) ∧ m = MEDIA_MAGIC ∧ prefix_ok t f h n.
Proof.
  intros Hh Hn. split.
  - unfold accept_prefix.
    intros (? & H1%reject_if_Ok & (? & H2%reject_if_Ok & (? & H3%reject_if_Ok & H)%rbind_Ok)%rbind_Ok)%rbind_Ok.
    apply rbind_Ok in H as (? & H4%reject_if_Ok & (? & H5%reject_if_Ok & [= <-])%rbind_Ok). bool_props.
    split_and!; [done..|]. unfold prefix_ok. destruct (t =? MEDIA_TYPE_CAMERA) eqn:Ht; bool_props.
    + split_and!; [right; lia|lia..].
    + apply orb_true_iff in H2 as [?|?]; [|done]. bool_props. split_and!; [left; lia|lia..].
  - intros (-> & -> & Ht & -> & [_ Hh'] & _). unfold accept_prefix.
    rewrite bool_decide_eq_true_2 by done.
    assert (((t =? MEDIA_TYPE_AUDIO) || (t =? MEDIA_TYPE_CAMERA)) = true) as ->
      by (destruct Ht as [[-> _]|[-> _]]; done).
    cbn [negb reject_if mbind result_bind Z.eqb]. rewrite (proj2 (Z.ltb_ge MAX_HEADER h)) by lia.
    assert (((if t =? MEDIA_TYPE_CAMERA then MAX_CAMERA_PAYLOAD else MAX_AUDIO_PAYLOAD) <? n) = false) as ->; [|done].
    apply Z.ltb_ge. by destruct Ht as [[-> ?]|[-> ?]].
Qed.

Lemma parse_prefix_fields m t f h n :
  length m = 4%nat → length t = 1%nat → length f = 1%nat → length h = 2%nat → length n = 4%nat →
  parse_prefix (m ++ t ++ f ++ h ++ n) = accept_prefix m (be_decode t) (be_decode f) (be_decode h) (be_decode n).
Proof.
  intros Hm Ht Hf Hh Hn. unfold parse_prefix. rewrite !len_app. unfold len at 1 2 3 4 5. rewrite Hm, Ht, Hf, Hh, Hn.
  do 5 (destruct m as [|? m]; try (simpl in Hm; lia)).
  do 2 (destruct t as [|? t]; try (simpl in Ht; lia)).
  do 2 (destruct f as [|? f]; try (simpl in Hf; lia)).
  do 3 (destruct h as [|? h]; try (simpl in Hh; lia)). reflexivity.
Qed.

(** The prefixes that are accepted are the packed ones within the limits. *)
Lemma parse_prefix_iff data t f h n :
  parse_prefix data = Ok (t, f, h, n) ↔ data = pack t f h n ∧ prefix_ok t f h n.
Proof.
  split.
  - intros Hp. assert (length data = 12%nat) as Hl.
    { unfold parse_prefix in Hp. apply rbind_Ok in Hp as (? & H%reject_if_Ok & _). bool_props.
      unfold len, PREFIX_SIZE in H. lia. }
    destruct (list_split_at 4 data 8 Hl) as (bm & b1 & -> & Hm & Hb1).
    destruct (list_split_at 1 b1 7 Hb1) as (bt & b2 & -> & Ht & Hb2).
    destruct (list_split_at 1 b2 6 Hb2) as (bf & b3 & -> & Hf & Hb3).
    destruct (list_split_at 2 b3 4 Hb3) as (bh & bn & -> & Hh & Hn).
    rewrite parse_prefix_fields in Hp by done.
    pose proof (be_decode_range bh). pose proof (be_decode_range bn).
    apply accept_prefix_ok in Hp as ([= -> -> -> ->] & -> & Hok); [|lia..]. split; [|done].
    unfold pack. by rewrite !be_encode_decode_len.
  - intros [-> Hok]. pose proof Hok as (Ht & -> & [Hh0 Hh] & Hn). unfold pack.
    assert (0 ≤ t < 256 ∧ 0 ≤ n < 256 ^ 4 ∧ 0 ≤ h < 256 ^ 2) as (Hbt & Hbn & Hbh)
      by (unfold MEDIA_TYPE_AUDIO, MEDIA_TYPE_CAMERA, MAX_HEADER, MAX_AUDIO_PAYLOAD, MAX_CAMERA_PAYLOAD in *; lia).
    rewrite parse_prefix_fields by (by rewrite ?length_be_encode).
    rewrite !be_decode_encode_small by (cbn; lia). by apply accept_prefix_ok.
Qed.
End MediaPrefix.

(** ** The camera window *)

Module CameraWindow.
Import Commitments MediaPrefix.

Definition stamp := option Z.
Definition SECOND : Z := 1000000.

Definition MAX_CAMERA_GRANT_TOTAL_BYTES : Z := 10485760.
Definition MAX_CAMERA_GRANT_SECONDS : Z := 10.
Definition MAX_CAMERA_GRANT_FRAMES : Z := 20.
Definition MAX_CAMERA_GRANT_FPS : Z := 2.
Definition CAMERA_GRANT_PURPOSE : list byte := ascii_bytes "reachy.camera.grant".
Definition JCS_MAX_SAFE_INTEGER : Z := 2 ^ 53 - 1.
Definition _CLOSURE_REASONS : list string :=
  ["privacy"; "cancel"; "identity_completion"; "expiry"; "disconnect"]%string.

Record CameraWindowGrant := mkGrant {
  cg_grant_id : Z;
  cg_household_id : Z;
  cg_device_id : Z;
  cg_session_id : Z;
  cg_turn_id : Z;
  cg_subject_id : option Z;
  cg_action_name : string;
  cg_purpose : string;
  cg_max_frames : Z;
  cg_max_frame_bytes : Z;
  cg_max_total_bytes : Z;
  cg_max_frames_per_second : Z;
  cg_issued_at : stamp;
  cg_expires_at : stamp;
  cg_grant_commitment : Commitment;
}.

Class GrantBody := { grant_body : CameraWindowGrant → result exn (list byte) }.

Section Window.
Context {Body : GrantBody}.

Definition _normalize_aware_utc (label : string) (value : stamp) : result exn Z :=
  match value with
  | Some t => Ok t
  | None => Raise (ValueError label)
  end.

Definition commitment_invalid : exn := PermissionError "camera_grant_commitment_invalid".

Definition _verify_grant_commitment (grant : CameraWindowGrant) (hmac_root : list byte) : result exn unit :=
  let given := cg_grant_commitment grant in
  match (body ← grant_body grant; commit_private hmac_root (cm_key_id given) CAMERA_GRANT_PURPOSE body) with
  | Raise (TypeError _ | ValueError _ | OverflowError _ | ContractParseError _ | UnicodeEncodeError) =>
    Raise commitment_invalid
  | Raise e => Raise e
  | Ok expected =>
    reject_if (negb (bool_decide (cm_algorithm given = cm_algorithm expected)) ||
               negb (bool_decide (cm_key_id given = cm_key_id expected)) ||
               negb (bool_decide (cm_value_b64 given = cm_value_b64 expected))) commitment_invalid
  end.

Definition _validate_grant_caps (grant : CameraWindowGrant) (issued_at expires_at : Z) : result exn unit :=
  let lifetime := expires_at - issued_at in
  reject_if ((lifetime <=? 0) || (MAX_CAMERA_GRANT_SECONDS * SECOND <? lifetime) ||
             negb (between 1 (cg_max_frames grant) MAX_CAMERA_GRANT_FRAMES) ||
             negb (between 1 (cg_max_frame_bytes grant) MAX_CAMERA_PAYLOAD) ||
             negb (between 1 (cg_max_total_bytes grant) MAX_CAMERA_GRANT_TOTAL_BYTES) ||
             negb (between 1 (cg_max_frames_per_second grant) MAX_CAMERA_GRANT_FPS) ||
             (cg_max_frames grant * cg_max_frame_bytes grant <? cg_max_total_bytes grant))
    (PermissionError "camera_grant_exceeds_phase1_cap").

(** [_CameraGrantSnapshot.binding]. *)
Definition binding (grant : CameraWindowGrant) : Z * Z * Z * Z * Z * option Z * string * string :=
  (cg_grant_id grant, cg_household_id grant, cg_device_id grant, cg_session_id grant,
   cg_turn_id grant, cg_subject_id grant, cg_action_name grant, cg_purpose grant).

Record window := mkWindow {
  _grant : CameraWindowGrant;
  _frames_remaining : Z;
  _bytes_remaining : Z;
  _expires_at_utc : Z;
  _next_sequence : Z;
  _last_frame_at : option Z;
  _closed : bool;
}.

Definition open (grant : CameraWindowGrant) (hmac_root : list byte) (now : stamp) : result exn window :=
  _ ← reject_if (negb (len hmac_root =? 32)) (ValueError "camera_hmac_root_invalid");
  issued_at ← _normalize_aware_utc "camera issued_at" (cg_issued_at grant);
  expires_at ← _normalize_aware_utc "camera expires_at" (cg_expires_at grant);
  now_utc ← _normalize_aware_utc "camera now" now;
  _ ← _validate_grant_caps grant issued_at expires_at;
  _ ← _verify_grant_commitment grant hmac_root;
  _ ← reject_if (now_utc <? issued_at) (PermissionError "camera_window_not_yet_valid");
  _ ← reject_if (expires_at <? now_utc) (PermissionError "camera_window_expired");
  Ok (mkWindow grant (cg_max_frames grant) (cg_max_total_bytes grant) expires_at 0 None false).

(** The rate test.  The interval is a whole number of microseconds and the minimum is 1.0 or
    0.5 seconds, so that the float comparison is exact and the tolerance of [isclose], 1e-12,
    decides nothing. *)
Definition too_soon (interval fps : Z) : bool := interval * fps <? SECOND.

Definition closed_error : exn := PermissionError "camera_window_closed".

Definition consume (supplied : Z * Z * Z * Z * Z * option Z * string * string)
    (sequence payload_size : Z) (now : stamp) : M window exn unit :=
  w ← gets id;
  _ ← raise_if (_closed w) closed_error;
  _ ← raise_if (negb (bool_decide (supplied = binding (_grant w)))) (PermissionError "camera_grant_binding_mismatch");
  now_utc ← lift (_normalize_aware_utc "camera now" now);
  _ ← raise_if (_expires_at_utc w <? now_utc) (PermissionError "camera_window_expired");
  _ ← raise_if ((sequence <? 0) || (JCS_MAX_SAFE_INTEGER <? sequence)) (ValueError "camera sequence outside bounds");
  _ ← raise_if (negb (sequence =? _next_sequence w)) (ValueError "camera_sequence_mismatch");
  _ ← raise_if ((payload_size <? 0) || (MAX_CAMERA_PAYLOAD <? payload_size))
        (ValueError "camera payload size outside bounds");
  _ ← raise_if (cg_max_frame_bytes (_grant w) <? payload_size)
        (ValueError "camera payload size outside grant frame cap");
  _ ← raise_if (_frames_remaining w <=? 0) (ValueError "camera frame quota exhausted");
  _ ← match _last_frame_at w with
      | None => mret tt
      | Some last =>
        let interval := now_utc - last in
        _ ← raise_if (interval <? 0) (ValueError "camera monotonic time rollback");
        raise_if (too_soon interval (cg_max_frames_per_second (_grant w))) (ValueError "camera frame rate exceeded")
      end;
  _ ← raise_if (_bytes_remaining w <? payload_size) (ValueError "camera byte quota exhausted");
  modify (λ w, mkWindow (_grant w) (_frames_remaining w - 1) (_bytes_remaining w - payload_size)
                 (_expires_at_utc w) (_next_sequence w + 1) (Some now_utc) (_closed w)).

Definition close (reason : string) : M window exn unit :=
  w ← gets id;
  _ ← raise_if (_closed w) closed_error;
  _ ← raise_if (negb (bool_decide (reason ∈ _CLOSURE_REASONS))) (ValueError "invalid camera closure reason");
  modify (λ w, mkWindow (_grant w) (_frames_remaining w) (_bytes_remaining w) (_expires_at_utc w)
                 (_next_sequence w) (_last_frame_at w) true).

(** ** Calls on a window *)

Inductive camera_call :=
| Consume (supplied : Z * Z * Z * Z * Z * option Z * string * string) (sequence payload_size : Z) (now : stamp)
| Close (reason : string).

Definition camera_perform (c : camera_call) : M window exn unit :=
  match c with
  | Consume supplied sequence payload_size now => consume supplied sequence payload_size now
  | Close reason => close reason
  end.

(** An accepted frame: its number, size and instant. *)
Record frame := mkFrame { fr_sequence : Z; fr_size : Z; fr_at : Z }.

Definition accepted_frame (c : camera_call) (out : result exn unit) : list frame :=
  match c, out with
  | Consume _ sequence size (Some t), Ok _ => [mkFrame sequence size t]
  | _, _ => []
  end.

(** The frames a sequence of calls gets accepted, oldest first. *)
Fixpoint camera_run (calls : list camera_call) (w : window) : list frame * window :=
  match calls with
  | [] => ([], w)
  | c :: rest =>
    let '(out, w') := camera_perform c w in
    let '(frames, w'') := camera_run rest w' in (accepted_frame c out ++ frames, w'')
  end.

Definition total_size (frames : list frame) : Z := fold_right (λ f n, fr_size f + n) 0 frames.

(** Consecutive frames are at least a frame interval apart. *)
Fixpoint paced (fps : Z) (last : option Z) (frames : list frame) : Prop :=
  match frames with
  | [] => True
  | f :: rest =>
    match last with Some t => t ≤ fr_at f ∧ SECOND ≤ (fr_at f - t) * fps | None => True end ∧
    paced fps (Some (fr_at f)) rest
  end.

Lemma consume_spec supplied sequence size now w :
  wp (consume supplied sequence size now)
    (λ _ w', ∃ t, now = Some t ∧ _closed w = false ∧ supplied = binding (_grant w) ∧
       sequence = _next_sequence w ∧ 0 ≤ size ≤ cg_max_frame_bytes (_grant w) ∧
       0 < _frames_remaining w ∧ size ≤ _bytes_remaining w ∧ t ≤ _expires_at_utc w ∧
       match _last_frame_at w with
       | Some last => last ≤ t ∧ SECOND ≤ (t - last) * cg_max_frames_per_second (_grant w)
       | None => True
       end ∧
       w' = mkWindow (_grant w) (_frames_remaining w - 1) (_bytes_remaining w - size)
              (_expires_at_utc w) (_next_sequence w + 1) (Some t) (_closed w))
    (λ e w', w' = w ∧ (_closed w = true → e = closed_error)) w.
Proof.
  unfold consume. apply wp_bind, wp_gets. unfold id.
  apply wp_bind, wp_raise_if; intros Hcl; [|done].
  assert (∀ e, w = w ∧ (_closed w = true → e = closed_error)) as Hr by (intros e; by rewrite Hcl).
  apply wp_bind, wp_raise_if; intros Hb; [|done]. apply wp_bind, wp_lift; intros t Ht; [|done].
  destruct now as [t'|]; [injection Ht as ->|done].
  apply wp_bind, wp_raise_if; intros Hexp; [|done]. apply wp_bind, wp_raise_if; intros Hseq; [|done].
  apply wp_bind, wp_raise_if; intros Hnext; [|done]. apply wp_bind, wp_raise_if; intros Hsize; [|done].
  apply wp_bind, wp_raise_if; intros Hcap; [|done]. apply wp_bind, wp_raise_if; intros Hfr; [|done].
  bool_props. apply wp_bind.
  destruct (_last_frame_at w) as [last|] eqn:Hlast.
  - apply wp_bind, wp_raise_if; intros Hroll; [|done]. apply wp_raise_if; intros Hrate; [|done].
    apply wp_bind, wp_raise_if; intros Hbytes; [|done]. bool_props. apply wp_modify.
    exists t. unfold too_soon in Hrate. bool_props. split_and!; try done; lia.
  - apply wp_ret, wp_bind, wp_raise_if; intros Hbytes; [|done]. bool_props. apply wp_modify.
    exists t. split_and!; try done; lia.
Qed.

Lemma close_spec reason w :
  wp (close reason)
    (λ _ w', _closed w = false ∧ reason ∈ _CLOSURE_REASONS ∧
       w' = mkWindow (_grant w) (_frames_remaining w) (_bytes_remaining w) (_expires_at_utc w)
              (_next_sequence w) (_last_frame_at w) true)
    (λ e w', w' = w ∧ (_closed w = true → e = closed_error)) w.
Proof.
  unfold close. apply wp_bind, wp_gets. unfold id. apply wp_bind, wp_raise_if; intros Hcl; [|done].
  apply wp_bind, wp_raise_if; intros Hr; [|by rewrite Hcl]. bool_props. by apply wp_modify.
Qed.

(** What a run from [w] takes. *)
Lemma camera_run_spec calls w :
  0 ≤ _frames_remaining w → 0 ≤ _bytes_remaining w →
  let '(frames, w') := camera_run calls w in
  _grant w' = _grant w ∧ _expires_at_utc w' = _expires_at_utc w ∧
  map fr_sequence frames = seqZ (_next_sequence w) (len frames) ∧
  _frames_remaining w' = _frames_remaining w - len frames ∧ 0 ≤ _frames_remaining w' ∧
  _bytes_remaining w' = _bytes_remaining w - total_size frames ∧ 0 ≤ _bytes_remaining w' ∧
  Forall (λ f, 0 ≤ fr_size f ≤ cg_max_frame_bytes (_grant w) ∧ fr_at f ≤ _expires_at_utc w) frames ∧
  paced (cg_max_frames_per_second (_grant w)) (_last_frame_at w) frames ∧
  (_closed w = true → frames = []).
Proof.
  revert w. induction calls as [|c calls IH]; intros w Hf Hb.
  { cbn [camera_run]. rewrite len_nil. cbn. split_and!; try done; lia. }
  cbn [camera_run]. destruct c as [supplied sequence size now|reason]; cbn [camera_perform].
  - pose proof (consume_spec supplied sequence size now w) as Hw. unfold wp in Hw.
    destruct (consume supplied sequence size now w) as [[[]|e] w'].
    + destruct Hw as (t & -> & Hcl & _ & Hseq & Hsz & Hfr & Hby & Hex & Hpace & ->).
      specialize (IH (mkWindow (_grant w) (_frames_remaining w - 1) (_bytes_remaining w - size)
        (_expires_at_utc w) (_next_sequence w + 1) (Some t) (_closed w))).
      destruct (camera_run calls _) as [frames w''].
      cbn [_grant _frames_remaining _bytes_remaining _expires_at_utc _next_sequence _last_frame_at _closed] in IH.
      destruct IH as (H1 & H2 & H3 & H4 & H5 & H6 & H7 & H8 & H9 & H10); [lia..|].
      cbn [accepted_frame app map total_size fold_right paced fr_sequence fr_size fr_at].
      pose proof (len_nonneg frames). rewrite len_cons, seqZ_cons, H3 by lia.
      fold (total_size frames). split_and!; try done; try lia.
      * rewrite Hseq. do 2 f_equal; lia.
      * constructor; [done|]. exact H8.
      * by rewrite Hcl.
    + destruct Hw as [-> _]. specialize (IH w Hf Hb). destruct (camera_run calls w) as [frames w''].
      assert (accepted_frame (Consume supplied sequence size now) (Raise e) = []) as -> by (by destruct now). done.
  - pose proof (close_spec reason w) as Hw. unfold wp in Hw.
    destruct (close reason w) as [[[]|e] w'].
    + destruct Hw as (Hcl & _ & ->).
      specialize (IH (mkWindow (_grant w) (_frames_remaining w) (_bytes_remaining w) (_expires_at_utc w)
              (_next_sequence w) (_last_frame_at w) true) Hf Hb).
      destruct (camera_run calls _) as [frames w''].
      cbn [accepted_frame app _grant _frames_remaining _bytes_remaining _expires_at_utc _next_sequence _last_frame_at _closed] in *.
      destruct IH as (H1 & H2 & H3 & H4 & H5 & H6 & H7 & H8 & H9 & H10). split_and!; try done. intros _. by apply H10.
    + destruct Hw as [-> _]. specialize (IH w Hf Hb). by destruct (camera_run calls w) as [frames w''].
Qed.

Lemma verify_commitment_ok grant root :
  _verify_grant_commitment grant root = Ok tt →
  ∃ body, grant_body grant = Ok body ∧
    commit_private root (cm_key_id (cg_grant_commitment grant)) CAMERA_GRANT_PURPOSE body
    = Ok (cg_grant_commitment grant).
Proof.
  unfold _verify_grant_commitment. destruct (grant_body grant) as [body|e]; [|by destruct e].
  cbn [mbind result_bind]. destruct (commit_private _ _ _ _) as [c|e] eqn:Hc; [|by destruct e].
  intros Hr%reject_if_Ok. bool_props. exists body. split; [done|]. rewrite Hc.
  destruct c, (cg_grant_commitment grant). cbn in *. by subst.
Qed.

(** C35: a window that opens carries a commitment made with the household's root key over the
    grant, and whatever is called on it afterwards, the frames it admits are numbered from
    zero without gaps, at most 20 and 10 MiB in all, each within its own cap, at least a
    frame interval apart, none after the expiry, which is at most ten seconds after the
    issue; none is admitted once the window is closed. *)
Theorem camera_window_quota grant hmac_root now w calls later :
  open grant hmac_root now = Ok w →
  let '(frames, w') := camera_run calls w in
  (∃ body, grant_body grant = Ok body ∧
     commit_private hmac_root (cm_key_id (cg_grant_commitment grant)) CAMERA_GRANT_PURPOSE body
     = Ok (cg_grant_commitment grant)) ∧
  map fr_sequence frames = seqZ 0 (len frames) ∧
  len frames ≤ cg_max_frames grant ≤ MAX_CAMERA_GRANT_FRAMES ∧
  total_size frames ≤ cg_max_total_bytes grant ≤ MAX_CAMERA_GRANT_TOTAL_BYTES ∧
  Forall (λ f, 0 ≤ fr_size f ≤ cg_max_frame_bytes grant ∧ ∃ issued expires,
    cg_issued_at grant = Some issued ∧ cg_expires_at grant = Some expires ∧
    fr_at f ≤ expires ≤ issued + MAX_CAMERA_GRANT_SECONDS * SECOND) frames ∧
  paced (cg_max_frames_per_second grant) None frames ∧
  (_closed w' = true → (camera_run later w').1 = []).
Proof.
  unfold open. intros (? & _ & (issued & Hi & (expires & He & (t & _ & H)%rbind_Ok)%rbind_Ok)%rbind_Ok)%rbind_Ok.
  apply rbind_Ok in H as (? & Hcaps%reject_if_Ok & ([] & Hv & H)%rbind_Ok).
  apply rbind_Ok in H as (? & _ & (? & _ & [= <-])%rbind_Ok).
  assert (cg_issued_at grant = Some issued ∧ cg_expires_at grant = Some expires) as [Hiss Hexp].
  { unfold _normalize_aware_utc in *. destruct (cg_issued_at grant), (cg_expires_at grant); by simplify_eq. }
  bool_props.
  repeat match goal with Hc : between _ _ _ = true |- _ => apply between_spec in Hc end.
  match goal with |- context [camera_run calls ?w0] =>
    pose proof (camera_run_spec calls w0 ltac:(cbn; lia) ltac:(cbn; lia)) as Hrun;
    destruct (camera_run calls w0) as [frames w'] end.
  cbn [_grant _frames_remaining _bytes_remaining _expires_at_utc _next_sequence _last_frame_at _closed] in Hrun.
  destruct Hrun as (Hg & Hx & Hseq & Hfr & Hfr0 & Hby & Hby0 & Hall & Hpace & _).
  split_and!; try done; try lia.
  - by apply verify_commitment_ok.
  - eapply Forall_impl; [exact Hall|]. intros f [Hsz Hat]. split; [done|].
    exists issued, expires. split_and!; [done..|lia].
  - intros Hcl. pose proof (camera_run_spec later w' Hfr0 Hby0) as Hl.
    destruct (camera_run later w') as [fs w'']. by apply Hl.
Qed.
End Window.

#[local] Instance sample_body : GrantBody := {| grant_body g := Ok (be_encode 8 (cg_grant_id g)) |}.
Definition sample_root : list byte := replicate 32 x07.
Definition sample_commitment : Commitment :=
  match commit_private sample_root "key-1" CAMERA_GRANT_PURPOSE (be_encode 8 1) with
  | Ok c => c | Raise _ => mkCommitment "" "" [] end.
Definition sample_grant : CameraWindowGrant :=
  mkGrant 1 2 3 4 5 None "identity.observe" "active_conversation_identity" 3 100 250 2 (Some 0)
    (Some (5 * SECOND)) sample_commitment.
Definition sample_window : window := mkWindow sample_grant 3 250 (5 * SECOND) 0 None false.
Definition sample_camera : list camera_call :=
  let b := binding sample_grant in
  [Consume b 0 100 (Some 10); Consume b 1 100 (Some (SECOND / 4)); Consume b 1 100 (Some SECOND);
   Consume b 2 60 (Some (2 * SECOND)); Consume b 2 50 (Some (2 * SECOND)); Close "privacy"].

Definition sample_accepted : list frame := [mkFrame 0 100 10; mkFrame 1 100 SECOND; mkFrame 2 50 (2 * SECOND)].

Lemma camera_window_quota_witness :
  camera_run sample_camera sample_window
    = (sample_accepted, mkWindow sample_grant 0 0 (5 * SECOND) 3 (Some (2 * SECOND)) true) ∧
  paced 2 None sample_accepted.
Proof.
  assert (open sample_grant sample_root (Some 1) = Ok sample_window) as Ho by (vm_compute; reflexivity).
  assert (camera_run sample_camera sample_window
    = (sample_accepted, mkWindow sample_grant 0 0 (5 * SECOND) 3 (Some (2 * SECOND)) true)) as Hc
    by (vm_compute; reflexivity).
  pose proof (camera_window_quota sample_grant sample_root (Some 1) sample_window sample_camera sample_camera Ho) as H.
  rewrite Hc in H. split; [exact Hc|]. destruct H as (_ & _ & _ & _ & _ & H & _). exact H.
Defined.
End CameraWindow.

(** ** The audio quota of a turn *)

Module MediaQuota.
Import MediaPrefix.

Definition AUDIO_TURN_MAX_SECONDS : float := float_of_int 90.
Definition AUDIO_TURN_MAX_BYTES : Z := 8388608.
(** The binary64 values of 0.02 and 1e-12. *)
Definition AUDIO_MIN_FRAME_INTERVAL_SECONDS : float := S754_finite false 5764607523034235 (-58).
Definition ABS_TOL : float := S754_finite false 4951760157141521 (-92).

Definition float_abs (x : float) : float := SFabs x.
(** [math.isclose(a, b, rel_tol=0, abs_tol=1e-12)] of finite values. *)
Definition isclose (a b : float) : bool := SFeqb a b || float_le (float_abs (float_sub b a)) ABS_TOL.

Definition _require_mono_time (label : string) (value : clock_value) : result exn float :=
  match value with
  | NowInt n =>
    let x := float_of_int n in
    if isfinite x then Ok x else Raise (OverflowError "int too large to convert to float")
  | NowFloat x => if isfinite x then Ok x else Raise (ValueError "audio monotonic time invalid")
  | NowOther => Raise (TypeError label)
  end.

Record quota := mkQuota { _started_mono : float; _last_frame_mono : option float; _bytes_received : Z }.

Definition rollback : exn := ValueError "audio monotonic time rollback".
Definition duration_cap : exn := ValueError "audio turn duration cap exceeded".
Definition byte_cap : exn := ValueError "audio turn byte cap exceeded".

Definition make_quota (started_mono : clock_value) (last_frame_mono : option clock_value) (bytes_received : Z) :
    result exn quota :=
  started ← _require_mono_time "audio started monotonic time must be a number" started_mono;
  last_ ← match last_frame_mono with
          | None => Ok None
          | Some v =>
            l ← _require_mono_time "audio last frame monotonic time must be a number" v;
            _ ← reject_if (float_lt l started) rollback;
            _ ← reject_if (float_lt AUDIO_TURN_MAX_SECONDS (float_sub l started)) duration_cap;
            Ok (Some l)
          end;
  _ ← reject_if (negb (between 0 bytes_received AUDIO_TURN_MAX_BYTES)) byte_cap;
  Ok (mkQuota started last_ bytes_received).

Definition _validate_current_state (q : quota) : result exn unit :=
  _ ← reject_if (negb (isfinite (_started_mono q))) (ValueError "audio monotonic time invalid");
  _ ← match _last_frame_mono q with
      | None => Ok tt
      | Some l =>
        _ ← reject_if (negb (isfinite l)) (ValueError "audio monotonic time invalid");
        _ ← reject_if (float_lt l (_started_mono q)) rollback;
        reject_if (float_lt AUDIO_TURN_MAX_SECONDS (float_sub l (_started_mono q))) duration_cap
      end;
  _ ← reject_if (_bytes_received q <? 0) byte_cap;
  reject_if (AUDIO_TURN_MAX_BYTES <? _bytes_received q) byte_cap.

Definition accept_audio (payload_size duration_ms : Z) (now_mono : clock_value) : M quota exn unit :=
  now ← lift (_require_mono_time "audio monotonic time must be a number" now_mono);
  q ← gets id;
  _ ← lift (_validate_current_state q);
  _ ← raise_if (negb (between 0 payload_size MAX_AUDIO_PAYLOAD)) (ValueError "audio frame byte cap exceeded");
  _ ← raise_if (negb (between 1 duration_ms 200)) (ValueError "audio frame duration cap exceeded");
  _ ← raise_if (float_lt now (_started_mono q)) rollback;
  _ ← raise_if (float_lt AUDIO_TURN_MAX_SECONDS (float_sub now (_started_mono q))) duration_cap;
  _ ← match _last_frame_mono q with
      | None => mret tt
      | Some l =>
        let interval := float_sub now l in
        _ ← raise_if (float_lt interval (S754_zero false)) rollback;
        raise_if (float_lt interval AUDIO_MIN_FRAME_INTERVAL_SECONDS &&
                  negb (isclose interval AUDIO_MIN_FRAME_INTERVAL_SECONDS)) (ValueError "audio frame rate exceeded")
      end;
  _ ← raise_if (AUDIO_TURN_MAX_BYTES <? _bytes_received q + payload_size) byte_cap;
  modify (λ q, mkQuota (_started_mono q) (Some now) (_bytes_received q + payload_size)).

(** The state [accept_audio] leaves always passes its own validation again. *)
Definition quota_ok (q : quota) : Prop := _validate_current_state q = Ok tt.

Lemma mono_time_finite label v x : _require_mono_time label v = Ok x → isfinite x = true.
Proof.
  unfold _require_mono_time. destruct v as [n|y|]; [| |done].
  - destruct (isfinite (float_of_int n)) eqn:Hn; [by intros [= <-]|done].
  - destruct (isfinite y) eqn:Hy; [by intros [= <-]|done].
Qed.

Lemma make_quota_ok started last_ bytes q : make_quota started last_ bytes = Ok q → quota_ok q.
Proof.
  unfold make_quota. intros (s & Hs%mono_time_finite & (l & Hl & (? & Hb%reject_if_Ok & [= <-])%rbind_Ok)%rbind_Ok)%rbind_Ok.
  bool_props. apply between_spec in Hb. unfold quota_ok, _validate_current_state.
  cbn [_started_mono _last_frame_mono _bytes_received]. rewrite Hs. cbn [negb reject_if mbind result_bind].
  rewrite (proj2 (Z.ltb_ge bytes 0)), (proj2 (Z.ltb_ge AUDIO_TURN_MAX_BYTES bytes)) by lia.
  destruct last_ as [v|]; [|by injection Hl as <-].
  apply rbind_Ok in Hl as (y & Hx%mono_time_finite & (? & H1%reject_if_Ok & (? & H2%reject_if_Ok & [= <-])%rbind_Ok)%rbind_Ok).
  rewrite Hx, H1, H2. done.
Qed.

Lemma accept_audio_ok payload duration now q :
  quota_ok q →
  wp (accept_audio payload duration now)
    (λ _ q', quota_ok q' ∧ _bytes_received q' = _bytes_received q + payload ∧ 0 ≤ payload ≤ MAX_AUDIO_PAYLOAD ∧
       _bytes_received q' ≤ AUDIO_TURN_MAX_BYTES ∧ _started_mono q' = _started_mono q)
    (λ _ q', q' = q) q.
Proof.
  intros Hok. unfold accept_audio. apply wp_bind, wp_lift; [intros t Ht%mono_time_finite|done].
  apply wp_bind, wp_gets. unfold id. apply wp_bind, wp_lift; [intros [] _|done].
  apply wp_bind, wp_raise_if; intros Hp; [|done]. apply wp_bind, wp_raise_if; intros Hd; [|done].
  apply wp_bind, wp_raise_if; intros Hroll; [|done]. apply wp_bind, wp_raise_if; intros Hdur; [|done].
  apply wp_bind.
  assert (wp (match _last_frame_mono q with
      | None => mret tt
      | Some l =>
        let interval := float_sub t l in
        _ ← raise_if (float_lt interval (S754_zero false)) rollback;
        raise_if (float_lt interval AUDIO_MIN_FRAME_INTERVAL_SECONDS &&
                  negb (isclose interval AUDIO_MIN_FRAME_INTERVAL_SECONDS)) (ValueError "audio frame rate exceeded")
      end) (λ _ q', q' = q) (λ _ q', q' = q) q) as Hw.
  { destruct (_last_frame_mono q); [|done]. apply wp_bind, wp_raise_if; intros _; [|done]. by apply wp_raise_if. }
  eapply wp_mono; [exact Hw| |done]. intros [] q' ->.
  apply wp_bind, wp_raise_if; intros Hb; [|done]. apply wp_modify. bool_props. apply between_spec in Hp.
  cbn [_bytes_received _started_mono]. split_and!; try lia; [|done].
  unfold quota_ok, _validate_current_state in *. cbn [_started_mono _last_frame_mono _bytes_received].
  apply rbind_Ok in Hok as (u1 & Hf & Hok). apply rbind_Ok in Hok as (u2 & _ & Hok).
  apply rbind_Ok in Hok as (u3 & H0%reject_if_Ok & _). destruct u1. bool_props.
  rewrite Hf, Ht, Hroll, Hdur. cbn [negb reject_if mbind result_bind].
  by rewrite (proj2 (Z.ltb_ge (_bytes_received q + payload) 0)),
    (proj2 (Z.ltb_ge AUDIO_TURN_MAX_BYTES (_bytes_received q + payload))) by lia.
Qed.
End MediaQuota.
