(* ===== verification/SecureTime.v ===== *)
(** * Secure time at boot: [apps/edge/.../transport/secure_time.py]

    Before the robot opens its strict TLS link it must have a clock it can trust: a
    qualified RTC, a time proof signed by the core, or, once, the proof it committed
    before the last power cut.  The file is kept as its bytes: [w_file] is what a read
    returns, [w_durable] what a power cut leaves.  Every call that leaves the process
    (clock, files, locks, sockets, verifiers, observers) is an [act]: it takes the next
    fault, which lets it succeed, makes it raise, or kills the process, after which
    nothing has an effect any more.  Signatures, certificates and the canonical JSON of
    the models are the interfaces [TimeCrypto] and [ContractCodec]. *)

From S2P Require Import Prelude Digest ContractBase.

Abbreviation text := (list byte).

Definition MAX_SECURE_TIME_STATE_BYTES : Z := 16384.
Definition MAX_CORE_TIME_PROOF_BYTES : Z := 8192.
(** 31 days in microseconds. *)
Definition _MAX_SIGNED_FORWARD_STEP : Z := 31 * 86400 * 1000000.
Definition _MAX_AUTHORITY_GENERATION_FORWARD_STEP : Z := 1.

(** ** Data *)

Record SecureTimeEndpoint := mkEndpoint {
  ep_generation : Z;
  ep_trust_digest_generation : Z;
  ep_core_ipv4 : text;
  ep_server_leaf_sha256 : text;
  ep_server_key_id : text;
  ep_server_public_key_sha256 : text;
}.

Record CapabilityReport := mkReport {
  rp_hardware : bool;
  rp_rtc_available : bool;
  rp_rtc_cold_boot_retains_utc : bool;
  rp_rtc_qualified : bool;
  rp_drift_within_5s : option bool;
}.

Definition _report_has_hardware_qualified_rtc (r : CapabilityReport) : bool :=
  rp_hardware r && rp_rtc_available r && rp_rtc_cold_boot_retains_utc r && rp_rtc_qualified r &&
  match rp_drift_within_5s r with Some b => b | None => false end.

Record CoreTimeProofV1 := mkProof {
  pf_endpoint_generation : Z;
  pf_time_sequence : Z;
  pf_request_nonce_b64 : text;
  pf_core_utc : Z;
  pf_authority_health_generation : Z;
  pf_signing_key_id : text;
  pf_signature_b64 : text;
}.

Inductive SecureTimeRestoreStatus :=
  legacy_clean | pending_strict_mtls | restore_consumed | strict_mtls_ready | strict_mtls_failed.
#[export] Instance status_eq_dec : EqDecision SecureTimeRestoreStatus.
Proof. solve_decision. Defined.

Record SecureTimeStateV1 := mkState {
  st_restore_status : SecureTimeRestoreStatus;
  st_boot_attempt_id : option text;
  st_restore_attempt_id : option text;
  st_endpoint_generation : Z;
  st_authority_health_generation : Z;
  st_time_sequence : Z;
  st_core_utc : Z;
  st_proof_sha256 : text;
  st_canonical_proof_sha256 : text;
  st_canonical_proof_b64 : text;
}.
#[export] Instance state_eq_dec : EqDecision SecureTimeStateV1.
Proof. solve_decision. Defined.

Record LegacySecureTimeStateV1 := mkLegacy {
  lg_endpoint_generation : Z;
  lg_authority_health_generation : Z;
  lg_time_sequence : Z;
  lg_core_utc : Z;
  lg_proof_sha256 : text;
  lg_canonical_proof_sha256 : text;
  lg_canonical_proof_b64 : text;
}.

Class TimeCrypto := {
  signing_payload : CoreTimeProofV1 → result exn (list byte);
  ed25519_verify : list byte → list byte → list byte → bool;
  leaf_public_key : list byte → result exn (list byte);
  leaf_time_ok : list byte → Z → result exn unit;
}.

(** ** Field checks *)

Definition char_in (lo hi : Z) (b : byte) : bool := between lo (Z_of_byte b) hi.
Definition is_digit : byte → bool := char_in 48 57.
Definition is_lower_hex (b : byte) : bool := is_digit b || char_in 97 102 b.

Definition is_sha256_hex (t : text) : bool := (len t =? 64) && forallb is_lower_hex t.

(** [SECURE_TIME_BOOT_ID_PATTERN]; [h] stands for a hexadecimal digit. *)
Fixpoint match_shape (shape t : list byte) : bool :=
  match shape, t with
  | [], [] => true
  | s :: shape, b :: t =>
    (if bool_decide (s = x68) then is_lower_hex b else bool_decide (s = b)) && match_shape shape t
  | _, _ => false
  end.
Definition boot_id_ok (t : text) : bool :=
  match_shape (ascii_bytes "hhhhhhhh-hhhh-hhhh-hhhh-hhhhhhhhhhhh") t.

(** [_SIGNING_KEY_ID_PATTERN]. *)
Fixpoint span (p : byte → bool) (t : text) : text * text :=
  match t with
  | b :: rest => if p b then let '(x, y) := span p rest in (b :: x, y) else ([], t)
  | [] => ([], [])
  end.
Definition key_name_char (b : byte) : bool :=
  char_in 97 122 b || is_digit b || bool_decide (b ∈ [x2e; x5f; x2d]).
Definition signing_key_id_ok (t : text) : bool :=
  let prefix := ascii_bytes "ed25519:" in
  bool_decide (take 8 t = prefix) &&
  let '(name, rest) := span key_name_char (drop 8 t) in
  match name with
  | first :: more => (char_in 97 122 first || is_digit first) && (len more <=? 63)
  | [] => false
  end &&
  match rest with
  | colon :: v :: d :: more =>
    bool_decide (colon = x3a) && bool_decide (v = x76) && char_in 49 57 d && (len more <=? 8) &&
    forallb is_digit more
  | _ => false
  end.

(** [_CANONICAL_RFC1918_IPV4_PATTERN]. *)
Fixpoint split_dots (t : text) : list text :=
  match t with
  | [] => [[]]
  | b :: rest =>
    if bool_decide (b = x2e) then [] :: split_dots rest
    else match split_dots rest with
         | part :: parts => (b :: part) :: parts
         | [] => [[b]]
         end
  end.
Definition octet (t : text) : option Z :=
  let v := fold_left (λ acc b, acc * 10 + (Z_of_byte b - 48)) t 0 in
  if between 1 (len t) 3 && forallb is_digit t && (v <=? 255) &&
     ((len t =? 1) || negb (bool_decide (head t = Some x30)))
  then Some v else None.
Definition rfc1918_ok (t : text) : bool :=
  match map octet (split_dots t) with
  | [Some a; Some b; Some _; Some _] =>
    (a =? 10) || ((a =? 172) && between 16 b 31) || ((a =? 192) && (b =? 168))
  | _ => false
  end.

Definition _require_canonical_rfc1918_ipv4 (value : text) : result exn unit :=
  reject_if (negb (rfc1918_ok value)) (PermissionError "secure_time_numeric_rfc1918_ipv4_required").

Definition _decode_base64_canonical_bounded (value : text) (max_bytes : Z) : result exn (list byte) :=
  match b64decode value with
  | None => Raise (ValueError "secure time canonical_proof must be canonical base64")
  | Some decoded =>
    if between 1 (len decoded) max_bytes && bool_decide (b64encode decoded = value) then Ok decoded
    else Raise (ValueError "secure time canonical_proof must be bounded canonical base64")
  end.

Definition _decode_base64_exact (value : text) (expected_bytes : Z) (label : string) : result exn (list byte) :=
  match b64decode value with
  | None => Raise (ValueError (label +:+ " must be canonical base64"))
  | Some decoded =>
    if (len decoded =? expected_bytes) && bool_decide (b64encode decoded = value) then Ok decoded
    else Raise (ValueError (label +:+ " must encode exactly"))
  end.

Definition _require_exact_digest (expected_hex : text) (value : list byte) (message : string) : result exn unit :=
  _ ← reject_if (negb (is_sha256_hex expected_hex)) (PermissionError message);
  reject_if (negb (bool_decide (expected_hex = hex (sha256 value)))) (PermissionError message).

(** [_validate_restore_status] and the field constraints of [SecureTimeStateV1]. *)
Definition restore_status_ok (s : SecureTimeStateV1) : bool :=
  match st_restore_status s, st_boot_attempt_id s, st_restore_attempt_id s with
  | legacy_clean, None, None => true
  | legacy_clean, _, _ => false
  | _, None, _ => false
  | restore_consumed, _, r => bool_decide (is_Some r)
  | _, _, r => bool_decide (r = None)
  end.
Definition id_field_ok (o : option text) : bool :=
  match o with Some t => boot_id_ok t | None => true end.
Definition make_state (s : SecureTimeStateV1) : result exn SecureTimeStateV1 :=
  if id_field_ok (st_boot_attempt_id s) && id_field_ok (st_restore_attempt_id s) &&
     (1 <=? st_endpoint_generation s) && (1 <=? st_authority_health_generation s) &&
     (1 <=? st_time_sequence s) && is_sha256_hex (st_proof_sha256 s) &&
     is_sha256_hex (st_canonical_proof_sha256 s) &&
     is_ok (_decode_base64_canonical_bounded (st_canonical_proof_b64 s) MAX_CORE_TIME_PROOF_BYTES) &&
     restore_status_ok s
  then Ok s else Raise ValidationError.

(** [_state_with_updates(state, restore_status=..., ...)]. *)
Definition _state_with_updates (s : SecureTimeStateV1) (status : SecureTimeRestoreStatus)
    (boot restore : option text) : result exn SecureTimeStateV1 :=
  make_state (mkState status boot restore (st_endpoint_generation s) (st_authority_health_generation s)
    (st_time_sequence s) (st_core_utc s) (st_proof_sha256 s) (st_canonical_proof_sha256 s)
    (st_canonical_proof_b64 s)).

Definition upgrade (l : LegacySecureTimeStateV1) : SecureTimeStateV1 :=
  mkState legacy_clean None None (lg_endpoint_generation l) (lg_authority_health_generation l)
    (lg_time_sequence l) (lg_core_utc l) (lg_proof_sha256 l) (lg_canonical_proof_sha256 l)
    (lg_canonical_proof_b64 l).

(** ** The machine *)

Inductive fault := Throw (e : exn) | Kill.

Inductive mode := qualified_rtc | signed_core_bootstrap.

Inductive entry :=
| Observed (event : string)
| ClockRestored (time_sequence core_utc : Z)
| ClockSigned (time_sequence core_utc : Z)
| StrictTlsVerified.

Record world := mkWorld {
  w_file : option (list byte);
  w_durable : option (list byte);
  w_clock : Z;
  w_faults : list (option fault);
  w_dead : bool;
  w_journal : list entry;
  w_ready : bool;
  w_mode : option mode;
  w_firewall : bool;
}.

Definition set_file f w := mkWorld f (w_durable w) (w_clock w) (w_faults w) (w_dead w) (w_journal w) (w_ready w) (w_mode w) (w_firewall w).
Definition sync_file w := mkWorld (w_file w) (w_file w) (w_clock w) (w_faults w) (w_dead w) (w_journal w) (w_ready w) (w_mode w) (w_firewall w).
Definition set_clock t w := mkWorld (w_file w) (w_durable w) t (w_faults w) (w_dead w) (w_journal w) (w_ready w) (w_mode w) (w_firewall w).
Definition set_faults fs w := mkWorld (w_file w) (w_durable w) (w_clock w) fs (w_dead w) (w_journal w) (w_ready w) (w_mode w) (w_firewall w).
Definition kill w := mkWorld (w_file w) (w_durable w) (w_clock w) (w_faults w) true (w_journal w) (w_ready w) (w_mode w) (w_firewall w).
Definition record e w := mkWorld (w_file w) (w_durable w) (w_clock w) (w_faults w) (w_dead w) (e :: w_journal w) (w_ready w) (w_mode w) (w_firewall w).
Definition set_ready b m w := mkWorld (w_file w) (w_durable w) (w_clock w) (w_faults w) (w_dead w) (w_journal w) b m (w_firewall w).
Definition emergency w := mkWorld (w_file w) (w_durable w) (w_clock w) (w_faults w) (w_dead w) (w_journal w) (w_ready w) (w_mode w) true.

(** A call that leaves the process, with its effect when it succeeds. *)
Definition act {A} (late : exn → exn) (r : world → result exn A) (f : world → world) : M world exn A := λ w,
  if w_dead w then (Raise CancelledError, w)
  else
    let proceed w := match r w with Ok a => (Ok a, f w) | Raise e => (Raise e, w) end in
    match w_faults w with
    | [] => proceed w
    | None :: fs => proceed (set_faults fs w)
    | Some (Throw e) :: fs => (Raise (late e), set_faults fs w)
    | Some Kill :: _ => (Raise CancelledError, kill w)
    end.

Definition external {A} (r : result exn A) : M world exn A := act id (λ _, r) id.
Definition effect (f : world → world) : M world exn unit := act id (λ _, Ok tt) f.
Definition _require_deadline (label : string) : M world exn unit :=
  act (λ _, TimeoutError label) (λ _, Ok tt) id.
Definition _observe (event : string) : M world exn unit := effect (record (Observed event)).

(** [try: m except BaseException as e: h(e)]. *)
Definition catch {A} (m : M world exn A) (h : exn → M world exn A) : M world exn A := λ w,
  match m w with
  | (Raise e, w') => h e w'
  | ok => ok
  end.
(** [with contextlib.suppress(BaseException): m]. *)
Definition suppress {A} (m : M world exn A) : M world exn unit :=
  catch (_ ← m; mret tt) (λ _, mret tt).

Section SecureTime.
Context {Crypto : TimeCrypto} {StateCodec : ContractCodec SecureTimeStateV1}
  {LegacyCodec : ContractCodec LegacySecureTimeStateV1} {ProofCodec : ContractCodec CoreTimeProofV1}.

(** ** Proofs *)

Definition _parse_canonical_proof (raw : list byte) : result exn CoreTimeProofV1 :=
  _ ← reject_if (negb (between 1 (len raw) MAX_CORE_TIME_PROOF_BYTES)) (ValueError "secure time proof size invalid");
  parse_contract_json raw MAX_CORE_TIME_PROOF_BYTES true.

Definition _proof_digest_for_legacy_compatibility (proof : CoreTimeProofV1) : result exn text :=
  payload ← signing_payload proof; Ok (hex (sha256 payload)).

Definition _canonical_proof_bytes_from_state (s : SecureTimeStateV1) : result exn (list byte) :=
  canonical_proof ← _decode_base64_canonical_bounded (st_canonical_proof_b64 s) MAX_CORE_TIME_PROOF_BYTES;
  _ ← reject_if (negb (bool_decide (hex (sha256 canonical_proof) = st_canonical_proof_sha256 s)))
        (PermissionError "secure_time_canonical_proof_commitment_mismatch");
  Ok canonical_proof.

Definition _require_state_matches_proof (s : SecureTimeStateV1) (proof : CoreTimeProofV1)
    (canonical_proof : list byte) : result exn unit :=
  bytes ← canonical_bytes proof;
  _ ← reject_if (negb (bool_decide (bytes = canonical_proof))) (PermissionError "secure_time_canonical_proof_mismatch");
  digest ← _proof_digest_for_legacy_compatibility proof;
  _ ← reject_if (negb (bool_decide (st_proof_sha256 s = digest))) (PermissionError "secure_time_proof_commitment_mismatch");
  reject_if (negb (st_endpoint_generation s =? pf_endpoint_generation proof) ||
             negb (st_authority_health_generation s =? pf_authority_health_generation proof) ||
             negb (st_time_sequence s =? pf_time_sequence proof) ||
             negb (st_core_utc s =? pf_core_utc proof))
    (PermissionError "secure_time_committed_proof_state_mismatch").

Definition _require_endpoint_binding (proof : CoreTimeProofV1) (endpoint : SecureTimeEndpoint) : result exn unit :=
  _ ← reject_if (negb (pf_endpoint_generation proof =? ep_generation endpoint))
        (PermissionError "secure_time_endpoint_generation_mismatch");
  _ ← reject_if (negb (pf_authority_health_generation proof =? ep_trust_digest_generation endpoint))
        (PermissionError "secure_time_authority_generation_mismatch");
  _ ← reject_if (negb (bool_decide (pf_signing_key_id proof = ep_server_key_id endpoint)))
        (PermissionError "secure_time_signing_key_mismatch");
  reject_if (negb (signing_key_id_ok (pf_signing_key_id proof))) (PermissionError "secure_time_signing_key_id_invalid").

Definition _require_proof_freshness (proof : CoreTimeProofV1) (previous : option SecureTimeStateV1) : result exn unit :=
  match previous with
  | None => Ok tt
  | Some p =>
    _ ← reject_if (pf_endpoint_generation proof <? st_endpoint_generation p)
          (PermissionError "secure_time_endpoint_generation_rollback");
    _ ← reject_if (pf_authority_health_generation proof <? st_authority_health_generation p)
          (PermissionError "secure_time_authority_rollback");
    _ ← reject_if (st_authority_health_generation p + _MAX_AUTHORITY_GENERATION_FORWARD_STEP
                     <? pf_authority_health_generation proof)
          (PermissionError "secure_time_authority_excessive_forward_step");
    _ ← reject_if (pf_time_sequence proof <=? st_time_sequence p)
          (PermissionError "secure_time_replayed_time_sequence");
    _ ← reject_if (pf_core_utc proof <? st_core_utc p) (PermissionError "secure_time_rollback");
    reject_if (st_core_utc p + _MAX_SIGNED_FORWARD_STEP <? pf_core_utc proof)
      (PermissionError "secure_time_excessive_forward_step")
  end.

(** ** The state repository *)

(** What the bytes of the file mean. *)
Definition decode_state (raw : list byte) : result exn SecureTimeStateV1 :=
  match parse_contract_json raw MAX_SECURE_TIME_STATE_BYTES true with
  | Ok s => Ok s
  | Raise (ContractParseError m) =>
    match parse_contract_json raw MAX_SECURE_TIME_STATE_BYTES true with
    | Ok legacy => make_state (upgrade legacy)
    | Raise (ContractParseError _) => Raise (ContractParseError m)
    | Raise e => Raise e
    end
  | Raise e => Raise e
  end.

Definition read_state (file : option (list byte)) : result exn (option SecureTimeStateV1) :=
  match file with
  | None => Ok None
  | Some raw =>
    _ ← reject_if (negb (between 1 (len raw) MAX_SECURE_TIME_STATE_BYTES))
          (ValueError "secure time owner file size invalid");
    s ← decode_state raw; Ok (Some s)
  end.

Definition require_previous : M world exn (option SecureTimeStateV1) :=
  file ← act id (λ w, Ok (w_file w)) id;
  lift (read_state file).

Definition require_rtc_not_rolled_back (current_utc : Z) : M world exn unit :=
  previous ← require_previous;
  raise_if (match (previous : option SecureTimeStateV1) with Some p => current_utc <? st_core_utc p | None => false end)
    (PermissionError "secure_time_rtc_rollback").

Definition os_step : M world exn unit := external (Ok tt).

Definition _atomic_write (payload : list byte) : M world exn unit :=
  _ ← raise_if (negb (between 1 (len payload) MAX_SECURE_TIME_STATE_BYTES)) (ValueError "secure time state size invalid");
  _ ← _require_deadline "secure_time_publish";
  _ ← os_step; (* open the temporary file *)
  _ ← os_step; (* write it *)
  _ ← os_step; (* fsync it *)
  _ ← _require_deadline "secure_time_file_fsync";
  _ ← os_step; (* its identity is unchanged *)
  _ ← os_step; (* fsync the directory *)
  _ ← _require_deadline "secure_time_parent_fsync";
  _ ← effect (set_file (Some payload)); (* os.replace *)
  _ ← effect sync_file; (* fsync the directory *)
  _ ← os_step; (* the published identity *)
  published ← act id (λ w, Ok (w_file w)) id;
  _ ← raise_if (negb (bool_decide (published = Some payload)))
        (PermissionError "secure time final byte verification failed");
  _require_deadline "secure_time_final_verify".

Definition _write_current_canonical_atomic (state : SecureTimeStateV1) (expected_previous : option SecureTimeStateV1) :
    M world exn unit :=
  payload ← lift (canonical_bytes state);
  _ ← raise_if (negb (between 1 (len (payload : list byte)) MAX_SECURE_TIME_STATE_BYTES))
        (ValueError "secure time state size invalid");
  _ ← os_step; (* [_exclusive_lock] *)
  _ ← _require_deadline "secure_time_state_lock";
  current ← require_previous;
  _ ← raise_if (negb (bool_decide (current = expected_previous))) (PermissionError "secure_time_state_cas_failed");
  _atomic_write payload.

Definition replace_atomic (proof : CoreTimeProofV1) (proof_sha256 : text)
    (expected_previous : option SecureTimeStateV1) (boot_attempt_id : text) : M world exn SecureTimeStateV1 :=
  digest ← lift (_proof_digest_for_legacy_compatibility proof);
  _ ← raise_if (negb (bool_decide (proof_sha256 = digest))) (ValueError "secure_time_proof_commitment_mismatch");
  bytes ← lift (canonical_bytes proof);
  state ← lift (make_state (mkState pending_strict_mtls (Some boot_attempt_id) None (pf_endpoint_generation proof)
    (pf_authority_health_generation proof) (pf_time_sequence proof) (pf_core_utc proof) proof_sha256
    (hex (sha256 bytes)) (b64encode bytes)));
  _ ← _write_current_canonical_atomic state expected_previous;
  mret state.

Definition mark_restore_consumed (expected_current : SecureTimeStateV1) (restore_attempt_id : text) :
    M world exn SecureTimeStateV1 :=
  _ ← raise_if (negb (bool_decide (st_restore_status expected_current = pending_strict_mtls)))
        (RuntimeError "secure_time_restore_window_not_pending");
  state ← lift (_state_with_updates expected_current restore_consumed (st_boot_attempt_id expected_current)
                  (Some restore_attempt_id));
  _ ← _write_current_canonical_atomic state (Some expected_current);
  mret state.

(** [mark_strict_mtls_ready] and [mark_strict_mtls_failed]. *)
Definition mark_strict_mtls (status : SecureTimeRestoreStatus) (expected_current : SecureTimeStateV1)
    (boot_attempt_id : text) : M world exn SecureTimeStateV1 :=
  _ ← raise_if (negb (bool_decide (st_restore_status expected_current ∈ [pending_strict_mtls; restore_consumed])))
        (RuntimeError "secure_time_not_pending_transport_readiness");
  state ← lift (_state_with_updates expected_current status (Some boot_attempt_id) None);
  _ ← _write_current_canonical_atomic state (Some expected_current);
  mret state.
Definition mark_strict_mtls_ready := mark_strict_mtls strict_mtls_ready.
Definition mark_strict_mtls_failed := mark_strict_mtls strict_mtls_failed.

(** ** The gate *)

(** What one boot is given. *)
Record boot := mkBoot {
  bt_report : CapabilityReport;
  bt_endpoint : SecureTimeEndpoint;
  bt_server_leaf_der : list byte;
  bt_attempt_id : text;
  bt_nonce : list byte;
  bt_proof_raw : list byte;
}.

Definition _require_bound_leaf_public_key (b : boot) : M world exn (list byte) :=
  let endpoint := bt_endpoint b in
  _ ← raise_if (bool_decide (bt_server_leaf_der b = [])) (ValueError "secure_time_server_leaf_der_invalid");
  _ ← lift (_require_exact_digest (ep_server_leaf_sha256 endpoint) (bt_server_leaf_der b)
              "secure_time_server_leaf_digest_mismatch");
  _ ← raise_if (negb (signing_key_id_ok (ep_server_key_id endpoint))) (PermissionError "secure_time_signing_key_id_invalid");
  public_key ← external (leaf_public_key (bt_server_leaf_der b));
  _ ← raise_if (negb (len (public_key : list byte) =? 32)) (PermissionError "secure_time_server_public_key_invalid");
  _ ← lift (_require_exact_digest (ep_server_public_key_sha256 endpoint) public_key
              "secure_time_server_public_key_mismatch");
  mret public_key.

Definition _verify_signed_proof (b : boot) (proof : CoreTimeProofV1) (public_key : list byte)
    (expected_nonce : option (list byte)) : M world exn unit :=
  _ ← lift (_require_endpoint_binding proof (bt_endpoint b));
  proof_nonce ← lift (_decode_base64_exact (pf_request_nonce_b64 proof) 32 "nonce");
  _ ← raise_if (match expected_nonce with Some n => negb (bool_decide (proof_nonce = n)) | None => false end)
        (PermissionError "secure_time_nonce_mismatch");
  signature ← lift (_decode_base64_exact (pf_signature_b64 proof) 64 "signature");
  _ ← _require_deadline "secure_time_before_signature";
  payload ← lift (signing_payload proof);
  _ ← raise_if (negb (ed25519_verify public_key signature payload)) (PermissionError "secure_time_invalid_signature");
  _ ← external (leaf_time_ok (bt_server_leaf_der b) (pf_core_utc proof));
  _require_deadline "secure_time_after_signature".

Definition _accept_qualified_rtc (b : boot) : M world exn mode :=
  public_key ← _require_bound_leaf_public_key b;
  _ ← lift (_require_exact_digest (ep_server_public_key_sha256 (bt_endpoint b)) public_key
              "secure_time_server_public_key_mismatch");
  current_utc ← act id (λ w, Ok (w_clock w)) id;
  _ ← require_rtc_not_rolled_back current_utc;
  _ ← external (leaf_time_ok (bt_server_leaf_der b) current_utc);
  _ ← _require_deadline "secure_time_qualified_rtc";
  mret qualified_rtc.

Definition _restore_committed_signed_time (b : boot) (state : SecureTimeStateV1) : M world exn unit :=
  canonical_proof ← lift (_canonical_proof_bytes_from_state state);
  proof ← lift (_parse_canonical_proof canonical_proof);
  _ ← lift (_require_state_matches_proof state proof canonical_proof);
  public_key ← _require_bound_leaf_public_key b;
  _ ← _verify_signed_proof b proof public_key None;
  _ ← _require_deadline "secure_time_restore";
  _ ← _observe "restored_committed_proof";
  _ ← effect (λ w, record (ClockRestored (pf_time_sequence proof) (pf_core_utc proof)) (set_clock (pf_core_utc proof) w));
  _require_deadline "secure_time_restore_clock".

Definition _bootstrap_signed_core_time (b : boot) (previous : option SecureTimeStateV1) : M world exn SecureTimeStateV1 :=
  _ ← os_step; (* [require_current_route_neighbor] *)
  public_key ← _require_bound_leaf_public_key b;
  _ ← raise_if (negb (len (bt_nonce b) =? 32)) (ValueError "secure time nonce must be exactly 32 bytes");
  _ ← _require_deadline "secure_time_nonce";
  _ ← os_step; (* [open_exact_pinned_time_channel] *)
  catch (
    _ ← _require_deadline "secure_time_channel_open";
    proof_raw ← external (Ok (bt_proof_raw b));
    _ ← _require_deadline "secure_time_request";
    proof ← lift (_parse_canonical_proof proof_raw);
    _ ← _verify_signed_proof b proof public_key (Some (bt_nonce b));
    _ ← lift (_require_proof_freshness proof previous);
    _ ← external (leaf_time_ok (bt_server_leaf_der b) (pf_core_utc proof));
    _ ← _require_deadline "secure_time_proof";
    _ ← _observe "signed_time_verified";
    _ ← effect (λ w, record (ClockSigned (pf_time_sequence proof) (pf_core_utc proof)) (set_clock (pf_core_utc proof) w));
    _ ← _require_deadline "secure_time_clock";
    proof_sha256 ← lift (_proof_digest_for_legacy_compatibility proof);
    pending_state ← replace_atomic proof proof_sha256 previous (bt_attempt_id b);
    _ ← _observe "time_state_fsynced";
    _ ← _require_deadline "secure_time_state";
    _ ← os_step; (* [channel.close] *)
    _ ← _require_deadline "secure_time_channel_close";
    mret pending_state)
  (λ e, _ ← suppress os_step; raise e).

Definition is_pending (s : SecureTimeStateV1) : bool := bool_decide (st_restore_status s = pending_strict_mtls).

Definition establish_before_strict_tls (b : boot) : M world exn (mode * option SecureTimeStateV1) :=
  _ ← _require_deadline "secure_time_boot";
  _ ← lift (_require_canonical_rfc1918_ipv4 (ep_core_ipv4 (bt_endpoint b)));
  previous ← require_previous;
  if _report_has_hardware_qualified_rtc (bt_report b) then
    m ← _accept_qualified_rtc b;
    mret (m, match (previous : option SecureTimeStateV1) with
             | Some p => if is_pending p then Some p else None
             | None => None
             end)
  else match (previous : option SecureTimeStateV1) with
  | Some p =>
    if is_pending p then
      consumed ← mark_restore_consumed p (bt_attempt_id b);
      _ ← _observe "restore_consumed";
      _ ← os_step; (* [require_current_route_neighbor] *)
      _ ← _restore_committed_signed_time b consumed;
      mret (signed_core_bootstrap, Some consumed)
    else
      pending ← _bootstrap_signed_core_time b previous;
      mret (signed_core_bootstrap, Some pending)
  | None =>
    pending ← _bootstrap_signed_core_time b previous;
    mret (signed_core_bootstrap, Some pending)
  end.

(** ** The boot lifecycle *)

Definition start_before_reachy_transport (b : boot) : M world exn unit :=
  _ ← modify (set_ready false None);
  _ ← effect emergency;
  result ← catch (
    _ ← _require_deadline "secure_time_start";
    _ ← os_step; (* [require_server_leaf_der] *)
    result ← establish_before_strict_tls b;
    _ ← catch (
      _ ← _require_deadline "secure_time_before_mtls";
      _ ← effect (record StrictTlsVerified); (* [verify_fresh_connection_and_close] *)
      _require_deadline "secure_time_strict_mtls")
    (λ e,
      _ ← match (result : mode * option SecureTimeStateV1).2 with
          | Some s => suppress (s ← mark_strict_mtls_failed s (bt_attempt_id b); _observe "strict_mtls_failed")
          | None => mret tt
          end;
      raise e);
    _ ← match (result : mode * option SecureTimeStateV1).2 with
        | Some s => _ ← mark_strict_mtls_ready s (bt_attempt_id b); _observe "strict_mtls_ready"
        | None => mret tt
        end;
    mret result)
  (λ e,
    _ ← modify (set_ready false None);
    _ ← suppress (effect emergency);
    raise e);
  _ ← modify (set_ready true (Some (result : mode * option SecureTimeStateV1).1));
  _observe "edge_ready".

Definition require_ready : M world exn unit :=
  ready ← gets w_ready;
  raise_if (negb ready) (PermissionError "secure_time_not_ready").

(** ** Histories of a machine *)

Inductive outage := ProcessRestart | PowerCut (lost : bool).

(** Before a boot: what the outage leaves, the clock it comes up with and its faults. *)
Definition come_up (o : outage) (clock : Z) (faults : list (option fault)) (w : world) : world :=
  let '(file, durable) := match o with
    | ProcessRestart => (w_file w, w_durable w)
    | PowerCut true => (w_durable w, w_durable w)
    | PowerCut false => (w_file w, w_file w)
    end in
  mkWorld file durable clock faults false (w_journal w) false None (w_firewall w).

Record history_step := mkStep {
  hs_outage : outage;
  hs_clock : Z;
  hs_faults : list (option fault);
  hs_boot : boot;
}.

Definition live (w : world) (h : history_step) : world :=
  (start_before_reachy_transport (hs_boot h) (come_up (hs_outage h) (hs_clock h) (hs_faults h) w)).2.
Definition live_all (history : list history_step) (w : world) : world := foldl live w history.

(** ** Quiet calls: nothing but faults and observations *)

Definition restored (journal : list entry) : list Z :=
  omap (λ e, match e with ClockRestored n _ => Some n | _ => None end) journal.

Record frame (w w' : world) : Prop := {
  fr_file : w_file w' = w_file w;
  fr_durable : w_durable w' = w_durable w;
  fr_clock : w_clock w' = w_clock w;
  fr_restored : restored (w_journal w') = restored (w_journal w);
  fr_journal : w_journal w `suffix_of` w_journal w';
  fr_ready : w_ready w' = w_ready w;
  fr_mode : w_mode w' = w_mode w;
}.

#[local] Instance frame_refl : Reflexive frame.
Proof. intros w. by split. Qed.
#[local] Instance frame_trans : Transitive frame.
Proof. intros w w' w'' [] []. split; try congruence. by etrans. Qed.

Lemma wp_act {A} late (r : world → result exn A) f Q (R : exn → world → Prop) w :
  (∀ a w1, frame w w1 → w_journal w1 = w_journal w → r w1 = Ok a → Q a (f w1)) →
  (∀ e w1, frame w w1 → R e w1) →
  wp (act late r f) Q R w.
Proof.
  intros HQ HR. unfold wp, act. destruct (w_dead w); [by apply HR|].
  assert (∀ w1, frame w w1 → w_journal w1 = w_journal w →
    match (match r w1 with Ok a => (Ok a, f w1) | Raise e => (Raise e, w1) end) with
    | (Ok a, w') => Q a w' | (Raise e, w') => R e w' end) as Hgo.
  { intros w1 Hw1 Hj. destruct (r w1) as [a|e] eqn:Hr; [by apply HQ|by apply HR]. }
  assert (∀ fs, frame w (set_faults fs w)) as Hset by (intros fs; by split).
  destruct (w_faults w) as [|[[e|]|] fs]; [by apply Hgo|apply HR, Hset| |by apply Hgo].
  apply HR. by split.
Qed.

Definition quiet {A} (m : M world exn A) (Q : A → Prop) (w : world) : Prop :=
  wp m (λ a w', frame w w' ∧ Q a) (λ _ w', frame w w') w.

Lemma quiet_bind {A B} (m : M world exn A) (k : A → M world exn B) (Q : A → Prop) Q' w :
  quiet m Q w → (∀ a w', frame w w' → Q a → quiet (k a) Q' w') → quiet (m ≫= k) Q' w.
Proof.
  intros Hm Hk. apply wp_bind. eapply wp_mono; [exact Hm| |done]. intros a w' [Hf Ha].
  eapply wp_mono; [by apply Hk|..].
  - intros b w'' [Hf' Hb]. split; [by etrans|done].
  - intros e w'' Hf'. by etrans.
Qed.

Lemma quiet_mono {A} (m : M world exn A) (Q Q' : A → Prop) w :
  quiet m Q w → (∀ a, Q a → Q' a) → quiet m Q' w.
Proof. intros Hm HQ. eapply wp_mono; [exact Hm| |done]. naive_solver. Qed.

Lemma quiet_ret {A} (a : A) (Q : A → Prop) w : Q a → quiet (mret a) Q w.
Proof. intros Ha. by apply wp_ret. Qed.
Lemma quiet_lift {A} (r : result exn A) w : quiet (lift r) (λ a, r = Ok a) w.
Proof. apply wp_lift; [|done]. by intros a ->. Qed.
Lemma quiet_raise_if c e w : quiet (raise_if c e) (λ _, c = false) w.
Proof. by apply wp_raise_if. Qed.
Lemma quiet_external {A} (r : result exn A) w : quiet (external r) (λ a, r = Ok a) w.
Proof. apply wp_act; [|done]. intros a w1 Hf _ Hr. by split. Qed.
Lemma quiet_deadline label w : quiet (_require_deadline label) (λ _, True) w.
Proof. apply wp_act; [|done]. intros a w1 Hf _ _. by split. Qed.
Lemma quiet_os w : quiet os_step (λ _, True) w.
Proof. eapply quiet_mono; [apply quiet_external|done]. Qed.
Lemma quiet_observe event w : quiet (_observe event) (λ _, True) w.
Proof.
  apply wp_act; [|done]. intros a w1 [] _ _. split; [|done]. split; try done.
  by apply suffix_cons_r.
Qed.
Lemma quiet_read w : quiet require_previous (λ s, read_state (w_file w) = Ok s) w.
Proof.
  apply (quiet_bind _ _ (λ f, f = w_file w)).
  - apply wp_act; [|done]. intros f w1 Hf _ [= <-]. split; [done|]. apply Hf.
  - intros f w' Hf ->. apply quiet_lift.
Qed.

(** ** The rank of a state *)

Definition rank (s : SecureTimeRestoreStatus) : Z :=
  match s with pending_strict_mtls => 0 | restore_consumed => 1 | _ => 2 end.

(** A newer proof within the allowed steps, or the same proof further on. *)
Definition follows (s s' : SecureTimeStateV1) : Prop :=
  st_time_sequence s < st_time_sequence s' ∧
    st_core_utc s ≤ st_core_utc s' ≤ st_core_utc s + _MAX_SIGNED_FORWARD_STEP ∧
    st_endpoint_generation s ≤ st_endpoint_generation s' ∧
    st_authority_health_generation s ≤ st_authority_health_generation s' ≤
      st_authority_health_generation s + _MAX_AUTHORITY_GENERATION_FORWARD_STEP
  ∨
  rank (st_restore_status s) < rank (st_restore_status s') ∧
    st_time_sequence s' = st_time_sequence s ∧ st_core_utc s' = st_core_utc s ∧
    st_endpoint_generation s' = st_endpoint_generation s ∧
    st_authority_health_generation s' = st_authority_health_generation s ∧
    st_canonical_proof_b64 s' = st_canonical_proof_b64 s.

Definition wrote (old new : option (list byte)) : Prop :=
  ∃ s', read_state new = Ok (Some s') ∧
    match read_state old with
    | Ok None => True
    | Ok (Some s) => follows s s'
    | Raise _ => False
    end.

(** The file only moves forward, and what is durable is on its way. *)
Record evolve (w w' : world) : Prop := {
  ev_file : rtc wrote (w_file w) (w_file w');
  ev_durable : w_durable w' = w_durable w ∨
    rtc wrote (w_file w) (w_durable w') ∧ rtc wrote (w_durable w') (w_file w');
  ev_restored : restored (w_journal w') = restored (w_journal w);
  ev_journal : w_journal w `suffix_of` w_journal w';
}.

#[local] Instance evolve_trans : Transitive evolve.
Proof.
  intros w w' w'' [F1 D1 R1 J1] [F2 D2 R2 J2]. split; [by etrans| |congruence|by etrans].
  destruct D2 as [->|[D2 D2']]; [|right; split; [by etrans|done]].
  destruct D1 as [->|[D1 D1']]; [by left|]. right. split; [done|by etrans].
Qed.
Lemma frame_evolve w w' : frame w w' → evolve w w'.
Proof. intros [Hf Hd _ Hr Hj _]. split; [by rewrite Hf|by left|done|done]. Qed.

Definition moves {A} (m : M world exn A) (Q : A → world → Prop) (w : world) : Prop :=
  wp m (λ a w', evolve w w' ∧ Q a w') (λ _ w', evolve w w') w.

Lemma moves_bind {A B} (m : M world exn A) (k : A → M world exn B) (Q : A → world → Prop) Q' w :
  moves m Q w → (∀ a w', evolve w w' → Q a w' → moves (k a) Q' w') → moves (m ≫= k) Q' w.
Proof.
  intros Hm Hk. apply wp_bind. eapply wp_mono; [exact Hm| |done]. intros a w' [Hf Ha].
  eapply wp_mono; [by apply Hk|..].
  - intros b w'' [Hf' Hb]. split; [by etrans|done].
  - intros e w'' Hf'. by etrans.
Qed.
Lemma moves_ret {A} (a : A) (Q : A → world → Prop) w : Q a w → moves (mret a) Q w.
Proof. intros Ha. apply wp_ret. split; [by apply frame_evolve|done]. Qed.
Lemma moves_mono {A} (m : M world exn A) (Q Q' : A → world → Prop) w :
  moves m Q w → (∀ a w', Q a w' → Q' a w') → moves m Q' w.
Proof. intros Hm HQ. eapply wp_mono; [exact Hm| |done]. naive_solver. Qed.

(** A quiet call first. *)
Lemma moves_quiet {A B} (m : M world exn A) (k : A → M world exn B) (Q : A → Prop) Q' w :
  quiet m Q w → (∀ a w', frame w w' → Q a → moves (k a) Q' w') → moves (m ≫= k) Q' w.
Proof.
  intros Hm Hk. apply wp_bind. eapply wp_mono; [exact Hm| |intros e w' Hf; by apply frame_evolve].
  intros a w' [Hf Ha]. apply frame_evolve in Hf as He. eapply wp_mono; [by apply Hk|..].
  - intros b w'' [Hf' Hb]. split; [by etrans|done].
  - intros e w'' Hf'. by etrans.
Qed.

(** ** Writes *)

(** A valid state reads back from its canonical bytes. *)
Class StateCodecLaws := {
  state_roundtrip s b : make_state s = Ok s → canonical_bytes s = Ok b →
    len b ≤ MAX_SECURE_TIME_STATE_BYTES → parse_contract_json b MAX_SECURE_TIME_STATE_BYTES true = Ok s;
}.

Lemma make_state_ok s s' : make_state s = Ok s' → s' = s.
Proof. unfold make_state. destruct (_ && _); [by intros [= ->]|done]. Qed.

Lemma read_canonical `{!StateCodecLaws} s b :
  make_state s = Ok s → canonical_bytes s = Ok b → between 1 (len b) MAX_SECURE_TIME_STATE_BYTES = true →
  read_state (Some b) = Ok (Some s).
Proof.
  intros Hs Hb Hl. unfold read_state, decode_state. rewrite Hl. apply between_spec in Hl as [_ Hl].
  by rewrite (state_roundtrip s b Hs Hb Hl).
Qed.

(** Published: the bytes are what is read and what is durable; clock and readiness are kept. *)
Definition published (payload : list byte) (w w' : world) : Prop :=
  w_file w' = Some payload ∧ w_durable w' = Some payload ∧ w_clock w' = w_clock w ∧ w_ready w' = w_ready w.

(** Skip a quiet call; [Hf] relates the world at the start to the present one. *)
Ltac quiet_call :=
  first [apply quiet_raise_if|apply quiet_deadline|apply quiet_os|apply quiet_lift|
         apply quiet_external|apply quiet_observe|apply quiet_read].
Ltac skip Hf :=
  eapply moves_quiet; [quiet_call|];
  let a := fresh "a" in let w1 := fresh "w" in let F := fresh "F" in let Hq := fresh "Hq" in
  intros a w1 F Hq; cbn beta in Hq; try rewrite (fr_file _ _ Hf) in Hq; apply (transitivity Hf) in F; clear Hf; rename F into Hf.

Lemma atomic_write_moves payload w :
  wrote (w_file w) (Some payload) → moves (_atomic_write payload) (λ _ w', published payload w w') w.
Proof.
  intros Hw. unfold _atomic_write. assert (frame w w) as Hf by reflexivity.
  do 9 skip Hf. clear Hq Hq0 Hq1 Hq2 Hq3 Hq4 Hq5 Hq6 Hq7.
  destruct Hf as [Hfile Hdur Hclock Hres Hj Hrdy].
  apply wp_bind, wp_act; [|intros e w1' Hf1; by apply frame_evolve].
  intros [] wb [G1 G2 G3 G4 G5 G6] _ _.
  match goal with G1 : w_file wb = w_file ?w1 |- _ => rename w1 into wa end.
  assert (evolve wa (set_file (Some payload) wb)) as E1.
  { split; cbn; [|by left|done|done]. apply rtc_once. by rewrite Hfile. }
  apply wp_bind, wp_act; [|intros e w2' Hf2; etrans; [exact E1|by apply frame_evolve]].
  intros [] wc [K1 K2 K3 K4 K5 K6] _ _.
  assert (evolve wa (sync_file wc)) as E2.
  { etrans; [exact E1|]. split; cbn; [by rewrite K1|right; by rewrite K1|done|done]. }
  assert (published payload w (sync_file wc)) as Hp.
  { unfold published. cbn. rewrite K1, K3, K6. cbn. rewrite G3, G6. done. }
  eapply wp_mono with (Q := λ _ w', evolve (sync_file wc) w' ∧ published payload w w')
    (R := λ _ w', evolve (sync_file wc) w').
  - enough (quiet (_ ← os_step; published ← act id (λ w, Ok (w_file w)) id;
      _ ← raise_if (negb (bool_decide (published = Some payload)))
            (PermissionError "secure time final byte verification failed");
      _require_deadline "secure_time_final_verify") (λ _, True) (sync_file wc)) as Hq.
    { eapply wp_mono; [exact Hq|..]; [|intros e w' Hf; by apply frame_evolve].
      intros [] w' [Hf _]. split; [by apply frame_evolve|]. destruct Hf as [F1 F2 F3 _ _ F6].
      unfold published in *. by rewrite F1, F2, F3, F6. }
    eapply quiet_bind; [apply quiet_os|intros _ wd _ _].
    eapply quiet_bind; [apply wp_act with (Q := λ _ w', frame wd w' ∧ True); [by intros|done]|intros f we _ _].
    eapply quiet_bind; [apply quiet_raise_if|intros _ wg _ _]. apply quiet_deadline.
  - intros [] w' [E3 Hp']. split; [by etrans|done].
  - intros e w' E3. by etrans.
Qed.

Lemma write_moves `{!StateCodecLaws} state expected w :
  make_state state = Ok state →
  (∀ s, expected = Some s → follows s state) →
  moves (_write_current_canonical_atomic state expected)
    (λ _ w', ∃ payload, read_state (Some payload) = Ok (Some state) ∧ published payload w w' ∧
       read_state (w_file w) = Ok expected) w.
Proof.
  intros Hs Hfol. unfold _write_current_canonical_atomic. assert (frame w w) as Hf by reflexivity.
  do 6 skip Hf. rename a into payload, Hq into Hb. bool_props. subst a3.
  match goal with Hl : between _ _ _ = true |- _ => pose proof (read_canonical state payload Hs Hb Hl) as Hread end.
  destruct Hf as [Hfile Hdur Hclock Hres Hj Hrdy].
  eapply moves_mono; [apply atomic_write_moves|].
  - rewrite Hfile. exists state. split; [done|]. rewrite Hq3. destruct expected as [s|]; [by apply Hfol|done].
  - intros [] w' (P1 & P2 & P3 & P4). exists payload. split_and!; [done| |done].
    unfold published. rewrite P3, P4. done.
Qed.

Lemma updates_follow s status boot restore state :
  _state_with_updates s status boot restore = Ok state → rank (st_restore_status s) < rank status →
  make_state state = Ok state ∧ follows s state ∧ st_restore_status state = status ∧
  st_boot_attempt_id state = boot ∧ st_time_sequence state = st_time_sequence s ∧
  st_core_utc state = st_core_utc s ∧ st_canonical_proof_b64 state = st_canonical_proof_b64 s.
Proof.
  unfold _state_with_updates. intros Hm Hr. pose proof (make_state_ok _ _ Hm) as ->.
  split_and!; try done. right. cbn. split_and!; done.
Qed.

Lemma mark_restore_consumed_moves `{!StateCodecLaws} p id w :
  moves (mark_restore_consumed p id)
    (λ s w', is_pending p = true ∧ read_state (w_file w) = Ok (Some p) ∧
       st_restore_status s = restore_consumed ∧ st_time_sequence s = st_time_sequence p ∧
       st_core_utc s = st_core_utc p ∧
       ∃ payload, read_state (Some payload) = Ok (Some s) ∧ published payload w w') w.
Proof.
  unfold mark_restore_consumed. assert (frame w w) as Hf by reflexivity. do 2 skip Hf. bool_props.
  rename Hq into Hpend. destruct (updates_follow _ _ _ _ _ Hq0) as (Hs & Hfol & Hst & _ & Hseq & Hutc & _); [by rewrite Hpend|].
  destruct Hf as [Hfile Hdur Hclock Hres Hj Hrdy].
  eapply moves_bind; [apply (write_moves a0 (Some p) w1 Hs); by intros s [= <-]|].
  intros [] w' _ (payload & Hread & (P1 & P2 & P3 & P4) & Hold). apply moves_ret.
  unfold is_pending. rewrite bool_decide_eq_true_2 by done. rewrite <- Hfile. split_and!; try done.
  exists payload. split; [done|]. unfold published. by rewrite P3, P4.
Qed.

Lemma mark_strict_mtls_moves `{!StateCodecLaws} status p id w :
  status = strict_mtls_ready ∨ status = strict_mtls_failed →
  moves (mark_strict_mtls status p id)
    (λ s w', st_restore_status s = status ∧ st_boot_attempt_id s = Some id ∧
       st_time_sequence s = st_time_sequence p ∧ st_core_utc s = st_core_utc p ∧
       st_canonical_proof_b64 s = st_canonical_proof_b64 p ∧
       ∃ payload, read_state (Some payload) = Ok (Some s) ∧ published payload w w') w.
Proof.
  intros Hstatus. unfold mark_strict_mtls. assert (frame w w) as Hf by reflexivity. do 2 skip Hf. bool_props.
  destruct (updates_follow _ _ _ _ _ Hq0) as (Hs & Hfol & Hst & Hboot & Hseq & Hutc & Hproof).
  { rewrite !elem_of_cons, elem_of_nil in Hq. destruct Hstatus as [-> | ->], Hq as [-> |[-> |[]]]; done. }
  destruct Hf as [Hfile Hdur Hclock Hres Hj Hrdy].
  eapply moves_bind; [apply (write_moves a0 (Some p) w1 Hs); by intros s [= <-]|].
  intros [] w' _ (payload & Hread & (P1 & P2 & P3 & P4) & Hold). apply moves_ret.
  split_and!; try done. exists payload. split; [done|]. unfold published. by rewrite P3, P4.
Qed.

(** ** Who vouches for a proof *)

(** The key of the pinned certificate signed the proof for this endpoint. *)
Definition vouched (b : boot) (proof : CoreTimeProofV1) : Prop :=
  ∃ public_key signature payload,
    leaf_public_key (bt_server_leaf_der b) = Ok public_key ∧
    ep_server_leaf_sha256 (bt_endpoint b) = hex (sha256 (bt_server_leaf_der b)) ∧
    ep_server_public_key_sha256 (bt_endpoint b) = hex (sha256 public_key) ∧
    b64decode (pf_signature_b64 proof) = Some signature ∧
    signing_payload proof = Ok payload ∧
    ed25519_verify public_key signature payload = true ∧
    pf_endpoint_generation proof = ep_generation (bt_endpoint b) ∧
    pf_authority_health_generation proof = ep_trust_digest_generation (bt_endpoint b) ∧
    leaf_time_ok (bt_server_leaf_der b) (pf_core_utc proof) = Ok tt.

Ltac qskip :=
  eapply quiet_bind; [quiet_call|];
  let a := fresh "a" in let w1 := fresh "w" in let F := fresh "F" in let Hq := fresh "Hq" in
  intros a w1 F Hq; cbn beta in Hq; clear F.

Lemma exact_digest_ok expected value message u :
  _require_exact_digest expected value message = Ok u → expected = hex (sha256 value).
Proof.
  unfold _require_exact_digest. intros (? & _ & H%reject_if_Ok)%rbind_Ok. by bool_props.
Qed.

Lemma base64_exact_ok value n label d : _decode_base64_exact value n label = Ok d → b64decode value = Some d.
Proof.
  unfold _decode_base64_exact. destruct (b64decode value) as [x|]; [|done].
  destruct (_ && _); [by intros [= ->]|done].
Qed.

Lemma quiet_leaf_key b w :
  quiet (_require_bound_leaf_public_key b)
    (λ pk, leaf_public_key (bt_server_leaf_der b) = Ok pk ∧
       ep_server_leaf_sha256 (bt_endpoint b) = hex (sha256 (bt_server_leaf_der b)) ∧
       ep_server_public_key_sha256 (bt_endpoint b) = hex (sha256 pk)) w.
Proof.
  unfold _require_bound_leaf_public_key. do 6 qskip. apply quiet_ret.
  split_and!; [done|by eapply exact_digest_ok..].
Qed.

Lemma quiet_verify b proof pk nonce w :
  leaf_public_key (bt_server_leaf_der b) = Ok pk ∧
  ep_server_leaf_sha256 (bt_endpoint b) = hex (sha256 (bt_server_leaf_der b)) ∧
  ep_server_public_key_sha256 (bt_endpoint b) = hex (sha256 pk) →
  quiet (_verify_signed_proof b proof pk nonce)
    (λ _, vouched b proof ∧ ∀ n, nonce = Some n → b64decode (pf_request_nonce_b64 proof) = Some n) w.
Proof.
  intros (Hpk & Hleaf & Hkey). unfold _verify_signed_proof. do 8 qskip.
  eapply quiet_mono; [apply quiet_deadline|]. intros _ _. bool_props.
  match goal with H : _require_endpoint_binding _ _ = Ok _ |- _ => rename H into Hbind end.
  unfold _require_endpoint_binding in Hbind.
  apply rbind_Ok in Hbind as (? & B1%reject_if_Ok & (? & B2%reject_if_Ok & _)%rbind_Ok). bool_props.
  repeat match goal with H : _decode_base64_exact _ _ _ = Ok _ |- _ => apply base64_exact_ok in H end.
  split.
  - eexists pk, _, _. split_and!; try done. match goal with u : unit |- _ => by destruct u end.
  - intros n ->. bool_props. by subst.
Qed.

Lemma effect_moves f w (P : world → Prop) :
  (∀ w1, frame w w1 → evolve w (f w1) ∧ P (f w1)) → moves (effect f) (λ _ w', P w') w.
Proof.
  intros Hf. apply wp_act; [|intros e w1 Hw; by apply frame_evolve]. intros [] w1 Hw _ _. by apply Hf.
Qed.

Lemma moves_catch {A} (m : M world exn A) h Q w :
  moves m Q w → (∀ e w', evolve w w' → wp (h e) (λ _ _, False) (λ _ w'', evolve w' w'') w') →
  moves (catch m h) Q w.
Proof.
  unfold moves, wp, catch. destruct (m w) as [[a|e] w']; [done|]. intros He Hh. specialize (Hh e w' He).
  destruct (h e w') as [[a|e'] w'']; [done|]. by etrans.
Qed.

Lemma suppress_evolves {A} (m : M world exn A) w :
  wp m (λ _ w', evolve w w') (λ _ w', evolve w w') w → evolve w (suppress m w).2 ∧ is_ok (suppress m w).1 = true.
Proof.
  unfold wp, suppress, catch, mbind, M_bind. by destruct (m w) as [[?|?] ?].
Qed.

Lemma suppress_raise {A B} (m : M world exn A) (e : exn) w :
  wp m (λ _ w', evolve w w') (λ _ w', evolve w w') w →
  wp (_ ← suppress m; raise e : M world exn B) (λ _ _, False) (λ _ w', evolve w w') w.
Proof.
  intros [He Hok]%suppress_evolves. unfold wp, mbind, M_bind, raise.
  by destruct (suppress m w) as [[[]|] w'].
Qed.

Lemma quiet_evolves {A} (m : M world exn A) Q w :
  quiet m Q w → wp m (λ _ w', evolve w w') (λ _ w', evolve w w') w.
Proof.
  intros Hq. eapply wp_mono; [exact Hq|..].
  - intros a w' [Hf _]. by apply frame_evolve.
  - intros e w' Hf. by apply frame_evolve.
Qed.

Lemma freshness_ok proof p u :
  _require_proof_freshness proof (Some p) = Ok u →
  st_time_sequence p < pf_time_sequence proof ∧
  st_core_utc p ≤ pf_core_utc proof ≤ st_core_utc p + _MAX_SIGNED_FORWARD_STEP ∧
  st_endpoint_generation p ≤ pf_endpoint_generation proof ∧
  st_authority_health_generation p ≤ pf_authority_health_generation proof ≤
    st_authority_health_generation p + _MAX_AUTHORITY_GENERATION_FORWARD_STEP.
Proof.
  unfold _require_proof_freshness.
  intros (? & H1%reject_if_Ok & (? & H2%reject_if_Ok & (? & H3%reject_if_Ok & H)%rbind_Ok)%rbind_Ok)%rbind_Ok.
  apply rbind_Ok in H as (? & H4%reject_if_Ok & (? & H5%reject_if_Ok & H6%reject_if_Ok)%rbind_Ok).
  bool_props. lia.
Qed.

(** A committed proof: the bytes of the state are the proof's. *)
Definition commits (s : SecureTimeStateV1) (proof : CoreTimeProofV1) : Prop :=
  st_time_sequence s = pf_time_sequence proof ∧ st_core_utc s = pf_core_utc proof ∧
  ∃ bytes, canonical_bytes proof = Ok bytes ∧ st_canonical_proof_b64 s = b64encode bytes.

Lemma replace_atomic_moves `{!StateCodecLaws} proof digest previous id w u :
  _require_proof_freshness proof previous = Ok u →
  moves (replace_atomic proof digest previous id)
    (λ s w', commits s proof ∧ ∃ payload, read_state (Some payload) = Ok (Some s) ∧ published payload w w') w.
Proof.
  intros Hfresh. unfold replace_atomic. assert (frame w w) as Hf by reflexivity. do 4 skip Hf.
  match goal with H : make_state _ = Ok ?x |- _ => pose proof (make_state_ok _ _ H) as ->; rename H into Hm end.
  destruct Hf as [Hfile Hdur Hclock Hres Hj Hrdy].
  eapply moves_bind; [apply (write_moves _ previous _ Hm)|].
  { intros s ->. apply freshness_ok in Hfresh. left. cbn. tauto. }
  intros [] w' _ (payload & Hread & (P1 & P2 & P3 & P4) & _). apply moves_ret. split.
  - split_and!; try done. eexists. by split.
  - exists payload. split; [done|]. unfold published. by rewrite P3, P4.
Qed.

(** ** Bootstrap *)

(** The proof of this boot: vouched for, with the nonce it sent. *)
Definition fresh_proof (b : boot) (proof : CoreTimeProofV1) : Prop :=
  vouched b proof ∧ b64decode (pf_request_nonce_b64 proof) = Some (bt_nonce b).

Lemma bootstrap_moves `{!StateCodecLaws} b previous w :
  moves (_bootstrap_signed_core_time b previous)
    (λ s w', ∃ proof payload, fresh_proof b proof ∧ commits s proof ∧ w_clock w' = pf_core_utc proof ∧
       read_state (Some payload) = Ok (Some s) ∧ w_file w' = Some payload ∧ w_durable w' = Some payload) w.
Proof.
  unfold _bootstrap_signed_core_time. assert (frame w w) as Hf by reflexivity. skip Hf.
  eapply moves_quiet; [apply quiet_leaf_key|]. intros pk wk _ Hpk. cbn beta in Hpk.
  clear Hf. assert (frame wk wk) as Hf by reflexivity. do 3 skip Hf.
  apply moves_catch.
  2: { intros e w' _. apply suppress_raise, (quiet_evolves _ (λ _, True)), quiet_os. }
  clear Hf. match goal with |- moves _ _ ?w0 => assert (frame w0 w0) as Hf by reflexivity end. do 4 skip Hf.
  match goal with H : _parse_canonical_proof _ = Ok ?x |- _ => rename x into proof end.
  eapply moves_quiet; [by apply quiet_verify|]. intros _ wv _ [Hv Hn]. specialize (Hn _ eq_refl).
  clear Hf. assert (frame wv wv) as Hf by reflexivity. do 4 skip Hf.
  match goal with H : _require_proof_freshness _ _ = Ok _ |- _ => rename H into Hfresh end.
  eapply moves_bind; [apply (effect_moves _ _ (λ w', w_clock w' = pf_core_utc proof))|].
  { intros wt [F1 F2 F3 F4 F5 F6]. split; [|done]. split; cbn; [by rewrite F1|by left|done|by apply suffix_cons_r]. }
  intros [] wc _ Hclock. clear Hf. assert (frame wc wc) as Hf by reflexivity. do 2 skip Hf.
  eapply moves_bind; [by eapply replace_atomic_moves|]. intros s wr _ (Hc & payload & Hread & (P1 & P2 & P3 & P4)).
  rewrite (fr_clock _ _ Hf), Hclock in P3.
  clear Hf. assert (frame wr wr) as Hf by reflexivity. do 4 skip Hf. apply moves_ret.
  destruct Hf as [F1 F2 F3 F4 F5 F6]. exists proof, payload. rewrite F1, F2, F3. by split_and!.
Qed.

(** ** The invariant *)

(** What is kept of a state by its successors. *)
Record later (s s' : SecureTimeStateV1) : Prop := {
  lt_sequence : st_time_sequence s ≤ st_time_sequence s';
  lt_utc : st_core_utc s ≤ st_core_utc s';
  lt_endpoint : st_endpoint_generation s ≤ st_endpoint_generation s';
  lt_authority : st_authority_health_generation s ≤ st_authority_health_generation s';
  lt_same : st_time_sequence s' = st_time_sequence s →
    rank (st_restore_status s) ≤ rank (st_restore_status s') ∧ st_core_utc s' = st_core_utc s ∧
    st_canonical_proof_b64 s' = st_canonical_proof_b64 s;
}.
#[local] Instance later_refl : Reflexive later.
Proof. intros s. split; try done; lia. Qed.
#[local] Instance later_trans : Transitive later.
Proof.
  intros s s' s'' [A1 A2 A3 A4 A5] [B1 B2 B3 B4 B5]. split; try lia. intros He.
  destruct A5 as (? & ? & ?); [lia|]. destruct B5 as (? & ? & ?); [lia|]. split_and!; [lia|lia|congruence].
Qed.
Lemma follows_later s s' : follows s s' → later s s'.
Proof.
  intros [(H1 & H2 & H3 & H4)|(H1 & H2 & H3 & H4 & H5 & H6)]; split; try lia. intros _. split_and!; [lia|done|done].
Qed.

Lemma wrote_later f f' s :
  rtc wrote f f' → read_state f = Ok (Some s) → ∃ s', read_state f' = Ok (Some s') ∧ later s s'.
Proof.
  intros Hr. revert s. induction Hr as [f|f g f' (t & Ht & Hw) Hr IH]; intros s Hs; [by exists s|].
  rewrite Hs in Hw. destruct (IH t Ht) as (s' & Hs' & Hl). exists s'. split; [done|].
  etrans; [by apply follows_later|done].
Qed.

Record sound (w : world) : Prop := {
  so_durable : rtc wrote (w_durable w) (w_file w);
  so_once : NoDup (restored (w_journal w));
  so_consumed n : n ∈ restored (w_journal w) →
    ∃ s, read_state (w_durable w) = Ok (Some s) ∧
      (n < st_time_sequence s ∨ n = st_time_sequence s ∧ 1 ≤ rank (st_restore_status s));
}.

Definition advances (w w' : world) : Prop :=
  sound w' ∧ rtc wrote (w_durable w) (w_durable w') ∧ w_journal w `suffix_of` w_journal w'.

Lemma advances_trans w w' w'' : advances w w' → advances w' w'' → advances w w''.
Proof. intros (_ & D1 & J1) (S2 & D2 & J2). split_and!; [done|by etrans|by etrans]. Qed.

(** A restored number stays behind the durable state. *)
Lemma consumed_later f f' n :
  rtc wrote f f' →
  (∃ s, read_state f = Ok (Some s) ∧
     (n < st_time_sequence s ∨ n = st_time_sequence s ∧ 1 ≤ rank (st_restore_status s))) →
  ∃ s, read_state f' = Ok (Some s) ∧
     (n < st_time_sequence s ∨ n = st_time_sequence s ∧ 1 ≤ rank (st_restore_status s)).
Proof.
  intros Hr (s & Hs & Hn). destruct (wrote_later _ _ _ Hr Hs) as (s' & Hs' & [L1 _ _ _ L5]). exists s'.
  split; [done|]. destruct (decide (st_time_sequence s' = st_time_sequence s)) as [He|He]; [|lia].
  destruct (L5 He) as [Hrank _]. lia.
Qed.

Lemma evolve_advances w w' : evolve w w' → sound w → advances w w'.
Proof.
  intros [F D R J] [S1 S2 S3].
  assert (rtc wrote (w_durable w) (w_durable w') ∧ rtc wrote (w_durable w') (w_file w')) as [D1 D2].
  { destruct D as [->|[D1 D2]]; [split; [done|by etrans]|split; [by etrans|done]]. }
  split_and!; try done. split; [done|by rewrite R|]. intros n. rewrite R. intros Hn.
  eapply consumed_later; [exact D1|by apply S3].
Qed.

Definition secure {A} (m : M world exn A) (Q : A → world → Prop) (w : world) : Prop :=
  wp m (λ a w', advances w w' ∧ Q a w') (λ _ w', advances w w') w.

Lemma secure_bind {A B} (m : M world exn A) (k : A → M world exn B) (Q : A → world → Prop) Q' w :
  secure m Q w → (∀ a w', advances w w' → Q a w' → secure (k a) Q' w') → secure (m ≫= k) Q' w.
Proof.
  intros Hm Hk. apply wp_bind. eapply wp_mono; [exact Hm| |done]. intros a w' [Hf Ha].
  eapply wp_mono; [by apply Hk|..].
  - intros b w'' [Hf' Hb]. split; [by eapply advances_trans|done].
  - intros e w'' Hf'. by eapply advances_trans.
Qed.

Lemma secure_moves {A} (m : M world exn A) Q w :
  sound w → moves m Q w → secure m (λ a w', Q a w' ∧ evolve w w') w.
Proof.
  intros Hs Hm. eapply wp_mono; [exact Hm|..].
  - intros a w' [He Hq]. split; [by apply evolve_advances|done].
  - intros e w' He. by apply evolve_advances.
Qed.

Lemma secure_quiet {A} (m : M world exn A) (Q : A → Prop) w : sound w → quiet m Q w → secure m (λ a w', Q a ∧ frame w w') w.
Proof.
  intros Hs Hm. eapply wp_mono; [exact Hm|..].
  - intros a w' [He Hq]. split; [apply evolve_advances; [by apply frame_evolve|done]|done].
  - intros e w' He. apply evolve_advances; [by apply frame_evolve|done].
Qed.

Lemma secure_ret {A} (a : A) (Q : A → world → Prop) w : sound w → Q a w → secure (mret a) Q w.
Proof. intros Hs Ha. apply wp_ret. split; [|done]. apply evolve_advances; [by apply frame_evolve|done]. Qed.

(** ** Restore *)

Lemma restore_proof_ok s raw proof u :
  _canonical_proof_bytes_from_state s = Ok raw → _require_state_matches_proof s proof raw = Ok u → commits s proof.
Proof.
  unfold _canonical_proof_bytes_from_state, _require_state_matches_proof.
  intros (bs & Hd & (? & _ & [= ->])%rbind_Ok)%rbind_Ok.
  intros (bytes & Hb & (? & He%reject_if_Ok & (? & _ & (? & _ & Hm%reject_if_Ok)%rbind_Ok)%rbind_Ok)%rbind_Ok)%rbind_Ok.
  bool_props. subst bytes. split_and!; [done..|]. exists raw. split; [done|].
  unfold _decode_base64_canonical_bounded in Hd. destruct (b64decode _) as [decoded|]; [|done].
  destruct (_ && _) eqn:Hc; [|done]. injection Hd as ->. by bool_props.
Qed.

Lemma record_restored_sound s t u w :
  sound w → read_state (w_durable w) = Ok (Some s) → rank (st_restore_status s) = 1 →
  (∀ m, m ∈ restored (w_journal w) → m < st_time_sequence s) → t = st_time_sequence s →
  advances w (record (ClockRestored t u) (set_clock u w)).
Proof.
  intros [S1 S2 S3] Hr Hrank Hlt ->. split_and!; [|done|by apply suffix_cons_r].
  assert (restored (w_journal (record (ClockRestored (st_time_sequence s) u) (set_clock u w)))
    = st_time_sequence s :: restored (w_journal w)) as Hj by done.
  split; [done| |].
  - rewrite Hj. constructor; [|done]. intros Hin. apply Hlt in Hin. lia.
  - intros n. rewrite Hj, elem_of_cons. intros [->|Hn]; [|by apply S3].
    exists s. split; [done|]. right. rewrite Hrank. done.
Qed.

Lemma restore_safe b s w :
  sound w → w_file w = w_durable w → read_state (w_durable w) = Ok (Some s) → rank (st_restore_status s) = 1 →
  (∀ m, m ∈ restored (w_journal w) → m < st_time_sequence s) →
  secure (_restore_committed_signed_time b s)
    (λ _ w', w_file w' = w_file w ∧ w_durable w' = w_durable w ∧
       ∃ proof, vouched b proof ∧ commits s proof ∧ w_clock w' = pf_core_utc proof) w.
Proof.
  intros Hs Hfd Hr Hrank Hlt. unfold _restore_committed_signed_time.
  eapply secure_bind; [apply secure_quiet, quiet_lift; done|]. intros raw w1 (Sd1 & _ & _) [Hraw F1].
  eapply secure_bind; [apply secure_quiet, quiet_lift; done|]. intros proof w2 (Sd2 & _ & _) [_ F2].
  eapply secure_bind; [apply secure_quiet, quiet_lift; done|]. intros u w3 (Sd3 & _ & _) [Hmatch F3].
  pose proof (restore_proof_ok _ _ _ _ Hraw Hmatch) as Hc.
  eapply secure_bind; [apply secure_quiet, quiet_leaf_key; done|]. intros pk w4 (Sd4 & _ & _) [Hpk F4].
  eapply secure_bind; [apply secure_quiet, quiet_verify; done|]. intros v w5 (Sd5 & _ & _) [[Hv _] F5].
  eapply secure_bind; [apply secure_quiet, quiet_deadline; done|]. intros v6 w6 (Sd6 & _ & _) [_ F6].
  eapply secure_bind; [apply secure_quiet, quiet_observe; done|]. intros v7 w7 (Sd7 & _ & _) [_ F7].
  assert (frame w w7) as Hf by (repeat (etrans; [eassumption|]); reflexivity).
  destruct Hf as [G1 G2 G3 G4 G5 G6].
  eapply secure_bind with (Q := λ _ w', w_file w' = w_file w ∧ w_durable w' = w_durable w ∧
    w_clock w' = pf_core_utc proof).
  - apply wp_act.
    + intros [] w8 F8 _ _. pose proof F8 as [K1 K2 K3 K4 K5 K6].
      pose proof (evolve_advances _ _ (frame_evolve _ _ F8) Sd7) as Ha. split; [|cbn; split_and!; congruence].
      eapply advances_trans; [exact Ha|]. destruct Ha as (Sd8 & _). eapply record_restored_sound; try done.
      * by rewrite K2, G2.
      * intros m. rewrite K4, G4. apply Hlt.
      * symmetry. apply Hc.
    + intros e w8 F8. apply evolve_advances; [by apply frame_evolve|done].
  - intros [] w8 (Sd8 & _ & _) (H1 & H2 & H3).
    eapply wp_mono; [apply secure_quiet; [done|apply quiet_deadline]| |done].
    intros [] w9 [Ha [_ [K1 K2 K3 K4 K5 K6]]]. split; [done|]. split_and!; [congruence..|].
    exists proof. split_and!; [done..|congruence].
Qed.

(** ** The gate *)

(** What a report says of an RTC that can be relied on: measured on the hardware, there, keeping
    UTC over a cold boot, qualified, and with at most five seconds of drift in 30 days. *)
Definition rtc_trusted (r : CapabilityReport) : Prop :=
  rp_hardware r = true ∧ rp_rtc_available r = true ∧ rp_rtc_cold_boot_retains_utc r = true ∧
  rp_rtc_qualified r = true ∧ rp_drift_within_5s r = Some true.

Lemma qualified_trusted r : _report_has_hardware_qualified_rtc r = true → rtc_trusted r.
Proof.
  unfold _report_has_hardware_qualified_rtc, rtc_trusted. destruct (rp_drift_within_5s r) as [[]|]; intros; bool_props; by split_and!.
Qed.

Definition established (b : boot) (r : mode * option SecureTimeStateV1) (w' : world) : Prop :=
  (r.1 = qualified_rtc → rtc_trusted (bt_report b)) ∧
  (r.1 = signed_core_bootstrap →
  ∃ s proof payload, r.2 = Some s ∧ vouched b proof ∧ commits s proof ∧ w_clock w' = pf_core_utc proof ∧
    read_state (Some payload) = Ok (Some s) ∧ w_file w' = Some payload ∧ w_durable w' = Some payload).

Lemma quiet_rtc b w : quiet (_accept_qualified_rtc b) (λ m, m = qualified_rtc) w.
Proof.
  unfold _accept_qualified_rtc. eapply quiet_bind; [apply quiet_leaf_key|intros pk w1 _ _].
  qskip. eapply quiet_bind; [apply wp_act with (Q := λ _ w', frame w0 w' ∧ True); [by intros|done]|intros t w2 _ _].
  eapply (quiet_bind _ _ (λ _, True)).
  { unfold require_rtc_not_rolled_back. qskip. eapply quiet_mono; [apply quiet_raise_if|done]. }
  intros _ w3 _ _. do 2 qskip. by apply quiet_ret.
Qed.

Lemma establish_safe `{!StateCodecLaws} b w :
  sound w → secure (establish_before_strict_tls b) (established b) w.
Proof.
  intros Hs. unfold establish_before_strict_tls.
  eapply secure_bind; [apply secure_quiet, quiet_deadline; done|]. intros v1 w1 (Sd1 & _ & _) [_ F1].
  eapply secure_bind; [apply secure_quiet, quiet_lift; done|]. intros v2 w2 (Sd2 & _ & _) [_ F2].
  eapply secure_bind; [apply secure_quiet, quiet_read; done|]. intros previous w3 (Sd3 & _ & _) [Hread F3].
  assert (∀ prev, secure (pending ← _bootstrap_signed_core_time b prev; mret (signed_core_bootstrap, Some pending))
    (established b) w3) as Hboot.
  { intros prev. eapply secure_bind; [apply secure_moves; [done|apply bootstrap_moves]|].
    intros s w4 (Sd4 & _ & _) ((proof & payload & [Hv _] & Hc & Hclk & Hp & Hf & Hd) & _). apply secure_ret; [done|].
    split; [done|]. intros _. exists s, proof, payload. by split_and!. }
  destruct (_report_has_hardware_qualified_rtc _) eqn:Hrtc.
  { eapply secure_bind; [apply secure_quiet, quiet_rtc; done|]. intros m w4 (Sd4 & _ & _) [-> F4].
    apply secure_ret; [done|]. split; [|done]. intros _. by apply qualified_trusted. }
  destruct previous as [p|]; [|apply Hboot]. destruct (is_pending p) eqn:Hpend; [|apply Hboot].
  rewrite <- (fr_file _ _ F3) in Hread.
  eapply secure_bind; [apply secure_moves; [done|apply mark_restore_consumed_moves]|].
  intros s w4 (Sd4 & _ & _) ((_ & Hold & Hst & Hseq & _ & payload & Hp & (P1 & P2 & P3 & P4)) & E4).
  assert (∀ m, m ∈ restored (w_journal w4) → m < st_time_sequence s) as Hlt.
  { intros m. rewrite (ev_restored _ _ E4), Hseq. intros Hm%(so_consumed _ Sd3).
    apply (consumed_later _ _ _ (so_durable _ Sd3)) in Hm as (p' & Hp' & Hm).
    rewrite Hold in Hp'. injection Hp' as <-. unfold is_pending in Hpend. bool_props. rewrite Hpend in Hm.
    cbn in Hm. lia. }
  eapply secure_bind; [apply secure_quiet, quiet_observe; done|]. intros v5 w5 (Sd5 & _ & _) [_ F5].
  eapply secure_bind; [apply secure_quiet, quiet_os; done|]. intros v6 w6 (Sd6 & _ & _) [_ F6].
  assert (frame w4 w6) as [G1 G2 G3 G4 G5 G6] by (by etrans).
  eapply secure_bind; [apply restore_safe|]; try done.
  - congruence.
  - by rewrite G2, P2.
  - by rewrite Hst.
  - intros m. rewrite G4. apply Hlt.
  - intros v7 w7 (Sd7 & _ & _) (H1 & H2 & proof & Hv & Hc & Hclk). apply secure_ret; [done|].
    split; [done|]. intros _. exists s, proof, payload. split_and!; try done; congruence.
Qed.

(** ** A boot *)

Lemma secure_catch {A} (m : M world exn A) h Q w :
  secure m Q w → (∀ e w', advances w w' → secure (h e) Q w') → secure (catch m h) Q w.
Proof.
  unfold secure, wp, catch. destruct (m w) as [[a|e] w']; [done|]. intros He Hh. specialize (Hh e w' He).
  destruct (h e w') as [[a|e'] w'']; [destruct Hh as [? ?]; split; [|done]|]; by eapply advances_trans.
Qed.

Lemma secure_raise {A} e (Q : A → world → Prop) w : sound w → secure (raise e) Q w.
Proof. intros Hs. apply wp_raise, evolve_advances; [by apply frame_evolve|done]. Qed.

Lemma secure_suppress {A} (m : M world exn A) Q w : secure m Q w → secure (suppress m) (λ _ _, True) w.
Proof.
  unfold secure, wp, suppress, catch, mbind, M_bind. destruct (m w) as [[?|?] ?]; [|done]. by intros [? _].
Qed.

Lemma secure_modify f w : (sound w → evolve w (f w)) → sound w → secure (modify f) (λ _ w', w' = f w) w.
Proof. intros He Hs. apply wp_modify. split; [apply evolve_advances; auto|done]. Qed.

Lemma set_ready_evolve b m w : evolve w (set_ready b m w).
Proof. split; cbn; [done|by left|done|done]. Qed.

Lemma secure_effect f w (P : world → Prop) :
  sound w → (∀ w1, frame w w1 → evolve w (f w1) ∧ P (f w1)) → secure (effect f) (λ _ w', P w') w.
Proof.
  intros Hs Hf. eapply wp_mono; [apply secure_moves; [done|by apply effect_moves]| |done]. naive_solver.
Qed.

Lemma secure_mono {A} (m : M world exn A) (Q Q' : A → world → Prop) w :
  secure m Q w → (∀ a w', advances w w' → Q a w' → Q' a w') → secure m Q' w.
Proof. intros Hm HQ. eapply wp_mono; [exact Hm| |done]. intros a w' [Ha Hq]. auto. Qed.

(** A verified TLS connection of this boot. *)
Definition tls_since (w w' : world) : Prop := ∃ new, w_journal w' = new ++ w_journal w ∧ StrictTlsVerified ∈ new.

Lemma tls_since_mono w w1 w2 w' :
  w_journal w `suffix_of` w_journal w1 → tls_since w1 w2 → w_journal w2 `suffix_of` w_journal w' → tls_since w w'.
Proof.
  intros [k Hk] (new & Hn & Hin) [k' Hk']. exists (k' ++ new ++ k).
  rewrite Hk', Hn, Hk, !app_assoc. split; [done|]. set_solver.
Qed.

(** The clock shows a time that the commissioned endpoint signed, and this boot attempt has durably
    committed its proof. *)
Definition signed_time (b : boot) (w' : world) : Prop :=
  ∃ s proof payload, st_restore_status s = strict_mtls_ready ∧ st_boot_attempt_id s = Some (bt_attempt_id b) ∧
    vouched b proof ∧ commits s proof ∧ w_clock w' = pf_core_utc proof ∧
    read_state (Some payload) = Ok (Some s) ∧ w_file w' = Some payload ∧ w_durable w' = Some payload.

(** What a boot that becomes ready has done. *)
Definition boot_verified (b : boot) (w w' : world) (m : mode) : Prop :=
  tls_since w w' ∧ (m = qualified_rtc → rtc_trusted (bt_report b)) ∧
  (m = signed_core_bootstrap → signed_time b w').

(** The body of the outer [try]. *)
Definition boot_body (b : boot) : M world exn (mode * option SecureTimeStateV1) :=
    _ ← _require_deadline "secure_time_start";
    _ ← os_step;
    result ← establish_before_strict_tls b;
    _ ← catch (
      _ ← _require_deadline "secure_time_before_mtls";
      _ ← effect (record StrictTlsVerified);
      _require_deadline "secure_time_strict_mtls")
    (λ e,
      _ ← match (result : mode * option SecureTimeStateV1).2 with
          | Some s => suppress (s ← mark_strict_mtls_failed s (bt_attempt_id b); _observe "strict_mtls_failed")
          | None => mret tt
          end;
      raise e);
    _ ← match (result : mode * option SecureTimeStateV1).2 with
        | Some s => _ ← mark_strict_mtls_ready s (bt_attempt_id b); _observe "strict_mtls_ready"
        | None => mret tt
        end;
    mret result.

Lemma boot_tls_safe `{!StateCodecLaws} b (r : mode * option SecureTimeStateV1) w :
  sound w →
  secure (catch (
      _ ← _require_deadline "secure_time_before_mtls";
      _ ← effect (record StrictTlsVerified);
      _require_deadline "secure_time_strict_mtls")
    (λ e,
      _ ← match r.2 with
          | Some s => suppress (s ← mark_strict_mtls_failed s (bt_attempt_id b); _observe "strict_mtls_failed")
          | None => mret tt
          end;
      raise e))
    (λ _ w', tls_since w w' ∧ w_file w' = w_file w ∧ w_durable w' = w_durable w ∧ w_clock w' = w_clock w) w.
Proof.
  intros Hs. apply secure_catch.
  - eapply secure_bind; [apply secure_quiet, quiet_deadline; done|]. intros _ w1 (Sd1 & _ & J1) [_ F1].
    eapply secure_bind with (Q := λ _ w', tls_since w w' ∧ w_file w' = w_file w ∧ w_durable w' = w_durable w ∧ w_clock w' = w_clock w).
    + apply secure_effect; [done|]. intros w2 [G1 G2 G3 G4 G5 G6]. destruct F1 as [K1 K2 K3 K4 K5 K6].
      split; [split; cbn; [by rewrite G1|by left|done|by apply suffix_cons_r]|].
      cbn. split_and!; [|congruence..]. destruct J1 as [k Hk], G5 as [k' Hk'].
      exists (StrictTlsVerified :: k' ++ k). cbn. rewrite Hk', Hk, <- app_assoc. split; [done|set_solver].
    + intros _ w2 (Sd2 & _ & _) (Ht & P1 & P2 & P3).
      eapply secure_mono; [apply secure_quiet, quiet_deadline; done|]. intros _ w3 _ [_ [G1 G2 G3 G4 G5 G6]].
      split_and!; [|congruence..]. by apply (tls_since_mono w w w2).
  - intros e w' (Sd & _ & _). eapply secure_bind with (Q := λ _ _, True).
    + destruct r.2 as [s|]; [|by apply secure_ret]. apply (secure_suppress _ (λ _ _, True)).
      eapply secure_bind; [apply secure_moves, mark_strict_mtls_moves; [done|by right]|].
      intros s' w2 (Sd2 & _ & _) _. eapply secure_mono; [apply secure_quiet, quiet_observe|]; done.
    + intros _ w2 (Sd2 & _ & _) _. by apply secure_raise.
Qed.

Lemma boot_body_safe `{!StateCodecLaws} b w :
  sound w → secure (boot_body b) (λ r w', boot_verified b w w' r.1) w.
Proof.
  intros Hs. unfold boot_body.
  eapply secure_bind; [apply secure_quiet, quiet_deadline; done|]. intros _ w1 (Sd1 & _ & J1) [_ F1].
  eapply secure_bind; [apply secure_quiet, quiet_os; done|]. intros _ w2 (Sd2 & _ & J2) [_ F2].
  eapply secure_bind; [by apply establish_safe|]. intros r w3 (Sd3 & _ & J3) Hest.
  eapply secure_bind; [by apply boot_tls_safe|]. intros _ w4 (Sd4 & _ & J4) (Ht & Hf4 & Hd4 & Hc4).
  assert (w_journal w `suffix_of` w_journal w3) as Hj by (etrans; [exact J1|]; by etrans).
  destruct r as [m o]. cbn [fst snd] in *.
  eapply secure_bind with (Q := λ _ w', boot_verified b w w' m).
  2: { intros _ w5 (Sd5 & _ & _) Hv. by apply secure_ret. }
  destruct o as [s|].
  - eapply secure_bind; [apply secure_moves, mark_strict_mtls_moves; [done|by left]|].
    intros s' w5 (Sd5 & _ & J5) ((Hst & Hb & Hsq & Hut & Hpb & payload & Hr & (P1 & P2 & P3 & P4)) & _).
    eapply secure_mono; [apply secure_quiet, quiet_observe; done|]. intros _ w6 _ [_ [G1 G2 G3 G4 G5 G6]].
    destruct Hest as [Hq Hest]. split; [eapply tls_since_mono; [exact Hj|exact Ht|by etrans]|]. split; [exact Hq|]. intros ->.
    destruct (Hest eq_refl) as (s0 & proof & payload0 & [= <-] & Hv & (Hc1 & Hc2 & bytes & Hc3 & Hc5) & Hclk & _).
    assert (commits s' proof) as Hcs.
    { split_and!; [congruence..|]. exists bytes. split; [done|congruence]. }
    exists s', proof, payload. split_and!; try done; congruence.
  - destruct Hest as [Hq Hest]. apply secure_ret; [done|]. split; [by eapply tls_since_mono|]. split; [exact Hq|]. intros ->.
    destruct (Hest eq_refl) as (s0 & proof & payload0 & [=] & _).
Qed.

Lemma wp_catch {A} (m : M world exn A) h (Q : A → world → Prop) R w :
  wp m Q (λ e w', wp (h e) Q R w') w → wp (catch m h) Q R w.
Proof. unfold wp, catch. by destruct (m w) as [[?|?] ?]. Qed.

Lemma start_safe `{!StateCodecLaws} b w :
  sound w →
  let '(r, w') := start_before_reachy_transport b w in
  advances w w' ∧ (is_ok r = true → w_ready w' = true) ∧
  (w_ready w' = true → ∃ m, w_mode w' = Some m ∧ boot_verified b w w' m).
Proof.
  intros Hs.
  assert (wp (start_before_reachy_transport b)
    (λ _ w', advances w w' ∧ w_ready w' = true ∧ ∃ m, w_mode w' = Some m ∧ boot_verified b w w' m)
    (λ _ w', advances w w' ∧ (w_ready w' = true → ∃ m, w_mode w' = Some m ∧ boot_verified b w w' m)) w) as Hw.
  2: { unfold wp in Hw. destruct (start_before_reachy_transport b w) as [[?|?] w']; naive_solver. }
  apply wp_bind, wp_modify. set (w0 := set_ready false None w).
  assert (advances w w0) as A0 by (apply evolve_advances; [apply set_ready_evolve|done]).
  pose proof A0 as (S0 & _ & J0).
  assert (∀ w1, frame w0 w1 → advances w w1 ∧ w_ready w1 = false) as Hfr.
  { intros w1 F. split; [|by rewrite (fr_ready _ _ F)].
    eapply advances_trans; [exact A0|]. apply evolve_advances; [by apply frame_evolve|done]. }
  apply wp_bind, wp_act.
  2: { intros e w1 [Ha Hr]%Hfr. rewrite Hr. by split. }
  intros [] w1 F1 _ _. apply Hfr in F1 as [A1 _].
  assert (advances w (emergency w1)) as A2.
  { eapply advances_trans; [exact A1|]. apply evolve_advances; [|apply A1]. split; cbn; [done|by left|done|done]. }
  clear Hfr A1. set (w2 := emergency w1) in *. pose proof A2 as (S2 & _ & J2).
  apply wp_bind, wp_catch. change (wp (boot_body b) _ _ _) with (wp (boot_body b)
    (λ r w', wp (_ ← modify (set_ready true (Some (r : mode * option SecureTimeStateV1).1)); _observe "edge_ready")
      (λ _ w', advances w w' ∧ w_ready w' = true ∧ ∃ m, w_mode w' = Some m ∧ boot_verified b w w' m)
      (λ _ w', advances w w' ∧ (w_ready w' = true → ∃ m, w_mode w' = Some m ∧ boot_verified b w w' m)) w')
    (λ e w', wp (_ ← modify (set_ready false None); _ ← suppress (effect emergency); raise e)
      (λ r w', wp (_ ← modify (set_ready true (Some (r : mode * option SecureTimeStateV1).1)); _observe "edge_ready")
      (λ _ w', advances w w' ∧ w_ready w' = true ∧ ∃ m, w_mode w' = Some m ∧ boot_verified b w w' m)
      (λ _ w', advances w w' ∧ (w_ready w' = true → ∃ m, w_mode w' = Some m ∧ boot_verified b w w' m)) w')
      (λ _ w', advances w w' ∧ (w_ready w' = true → ∃ m, w_mode w' = Some m ∧ boot_verified b w w' m)) w') w2).
  eapply wp_mono; [by apply boot_body_safe|..].
  - intros [m o] w3 [A3 (Ht & Hq & Hv)]. apply wp_bind, wp_modify. cbn [fst] in *.
    assert (advances w (set_ready true (Some m) w3)) as A4.
    { eapply advances_trans; [exact A2|]. eapply advances_trans; [exact A3|].
      apply evolve_advances; [apply set_ready_evolve|apply A3]. }
    assert (∀ w5, frame (set_ready true (Some m) w3) w5 → advances w w5 ∧ w_ready w5 = true ∧
      ∃ m, w_mode w5 = Some m ∧ boot_verified b w w5 m) as Hend.
    { intros w5 F. pose proof F as [G1 G2 G3 G4 G5 G6 G7]. split_and!; [|done|].
      - eapply advances_trans; [exact A4|]. apply evolve_advances; [by apply frame_evolve|apply A4].
      - exists m. split; [done|]. split; [by eapply tls_since_mono|]. split; [exact Hq|]. intros Hm.
        destruct (Hv Hm) as (s & proof & payload & ? & ? & ? & ? & Hc & Hr & Hf & Hd).
        exists s, proof, payload. cbn in *. rewrite G1, G2, G3. split_and!; done. }
    eapply wp_mono; [apply quiet_observe|..].
    + intros [] w5 [F _]. by apply Hend.
    + intros e w5 F. apply Hend in F as (? & ? & ?). by split.
  - intros e w3 A3. apply wp_bind, wp_modify.
    assert (advances w (set_ready false None w3)) as A4.
    { eapply advances_trans; [exact A2|]. eapply advances_trans; [exact A3|].
      apply evolve_advances; [apply set_ready_evolve|apply A3]. }
    apply wp_bind. unfold suppress.
    apply wp_catch. apply wp_bind, wp_act.
    + intros [] w4 F _ _. apply wp_ret, wp_raise. split.
      * eapply advances_trans; [exact A4|]. apply evolve_advances; [|apply A4].
        etrans; [by apply frame_evolve|]. split; cbn; [done|by left|done|done].
      * cbn. rewrite (fr_ready _ _ F). done.
    + intros e' w4 F. apply wp_ret, wp_raise. split.
      * eapply advances_trans; [exact A4|]. apply evolve_advances; [by apply frame_evolve|apply A4].
      * rewrite (fr_ready _ _ F). done.
Qed.

(** ** Histories *)

Lemma come_up_sound o clock faults w :
  sound w → sound (come_up o clock faults w) ∧ rtc wrote (w_durable w) (w_durable (come_up o clock faults w)) ∧
    w_journal (come_up o clock faults w) = w_journal w.
Proof.
  intros [S1 S2 S3]. destruct o as [|[]]; cbn; split_and!; try done; split; cbn; try done.
  intros n Hn. eapply consumed_later; [exact S1|by apply S3].
Qed.

Lemma live_sound `{!StateCodecLaws} w h :
  sound w → sound (live w h) ∧ rtc wrote (w_durable w) (w_durable (live w h)).
Proof.
  intros Hs. unfold live.
  destruct (come_up_sound (hs_outage h) (hs_clock h) (hs_faults h) w Hs) as (Hc & Hd & _).
  pose proof (start_safe (hs_boot h) _ Hc) as Hb.
  destruct (start_before_reachy_transport _ _) as [r w']. destruct Hb as [(S' & D' & _) _]. cbn [snd].
  split; [done|by etrans].
Qed.

Lemma live_all_sound `{!StateCodecLaws} history w :
  sound w → sound (live_all history w) ∧ rtc wrote (w_durable w) (w_durable (live_all history w)).
Proof.
  revert w. induction history as [|h history IH]; intros w Hs; [done|].
  destruct (live_sound w h Hs) as [S1 D1]. destruct (IH _ S1) as [S2 D2]. split; [done|by etrans].
Qed.

(** A machine whose file is whatever was last synced, with an empty journal. *)
Definition pristine (w : world) : Prop := w_durable w = w_file w ∧ w_journal w = [].

Lemma pristine_sound w : pristine w → sound w.
Proof.
  intros [Hd Hj]. split; [by rewrite Hd|rewrite Hj; apply NoDup_nil_2|].
  intros n. rewrite Hj. by intros ?%elem_of_nil.
Qed.

(** C12: committed time never goes back and is never lost.  Over any sequence of boots, with
    calls failing, processes killed and power cut at any point, the durable state changes only
    by the steps [wrote] allows (a newer signed time at most 31 days and one trust generation
    ahead, or the same time further in its life cycle); once a time is durable, later ones
    have no smaller sequence number, time or generation. *)
Theorem secure_time_never_back `{!StateCodecLaws} w history history' :
  pristine w →
  let w1 := live_all history w in
  let w2 := live_all history' w1 in
  rtc wrote (w_durable w1) (w_durable w2) ∧
  ∀ s1, read_state (w_durable w1) = Ok (Some s1) →
    ∃ s2, read_state (w_durable w2) = Ok (Some s2) ∧ later s1 s2.
Proof.
  intros Hw%pristine_sound w1 w2. destruct (live_all_sound history w Hw) as [S1 _].
  destruct (live_all_sound history' w1 S1) as [_ D]. split; [exact D|].
  intros s1 Hs. exact (wrote_later _ _ _ D Hs).
Qed.

(** C33: a committed time is restored to the clock at most once: over any sequence of boots,
    with failing calls, kills and power cuts, no sequence number is restored twice. *)
Theorem secure_time_restored_once `{!StateCodecLaws} w history :
  pristine w → NoDup (restored (w_journal (live_all history w))).
Proof. intros Hw%pristine_sound. by destruct (live_all_sound history w Hw) as [[_ ? _] _]. Qed.

(** C34: a boot that reports ready verified a strict TLS connection in that boot.  If the report
    says of the RTC that it was measured on the hardware, is available, keeps UTC over a cold boot,
    is qualified and drifts at most five seconds in 30 days, the boot may report that the RTC
    vouched for the time; in every other case it reports a signed time, and the clock then shows a
    time whose proof the pinned key of the commissioned endpoint signed, and that proof is durably
    committed by this boot attempt.  A boot that returns is ready. *)
Theorem secure_time_ready_vouched `{!StateCodecLaws} w history o clock faults b :
  pristine w →
  let w1 := come_up o clock faults (live_all history w) in
  let '(r, w2) := start_before_reachy_transport b w1 in
  (is_ok r = true → w_ready w2 = true) ∧
  (w_ready w2 = true → tls_since w1 w2 ∧
     ∃ m, w_mode w2 = Some m ∧
       match m with
       | qualified_rtc => rtc_trusted (bt_report b)
       | signed_core_bootstrap => signed_time b w2
       end).
Proof.
  intros Hw%pristine_sound w1. destruct (live_all_sound history w Hw) as [S1 _].
  destruct (come_up_sound o clock faults _ S1) as (S2 & _).
  pose proof (start_safe b w1 S2) as Hb. destruct (start_before_reachy_transport b w1) as [r w2].
  destruct Hb as (_ & Hok & Hready). split; [exact Hok|]. intros (m & Hm & Ht & Hq & Hv)%Hready.
  split; [done|]. exists m. split; [done|]. destruct m; auto.
Qed.
End SecureTime.

(** ** Witnesses: one signed time, a kill after its commit, and its restoration *)

Definition sample_key : list byte := replicate 32 x05.
Definition sample_leaf : list byte := [x01].
Definition sample_sign (key message : list byte) : list byte := sha256 (key ++ message) ++ sha256 (message ++ key).
#[local] Instance sample_crypto : TimeCrypto := {|
  signing_payload p := Ok (be_encode 8 (pf_time_sequence p) ++ be_encode 8 (pf_core_utc p));
  ed25519_verify key signature message := bool_decide (signature = sample_sign key message);
  leaf_public_key _ := Ok sample_key;
  leaf_time_ok _ _ := Ok tt;
|}.

Definition sample_nonce : list byte := replicate 32 x09.
Definition sample_payload : list byte := be_encode 8 1 ++ be_encode 8 1000.
Definition sample_proof : CoreTimeProofV1 :=
  mkProof 1 1 (b64encode sample_nonce) 1000 1 (ascii_bytes "ed25519:core:v1")
    (b64encode (sample_sign sample_key sample_payload)).
Definition sample_endpoint : SecureTimeEndpoint :=
  mkEndpoint 1 1 (ascii_bytes "192.168.1.20") (hex (sha256 sample_leaf)) (ascii_bytes "ed25519:core:v1")
    (hex (sha256 sample_key)).
Definition boot_a : text := ascii_bytes "00000000-0000-0000-0000-00000000000a".
Definition boot_b : text := ascii_bytes "00000000-0000-0000-0000-00000000000b".

Definition sample_state (status : SecureTimeRestoreStatus) (boot : text) (restore : option text) : SecureTimeStateV1 :=
  mkState status (Some boot) restore 1 1 1 1000 (hex (sha256 sample_payload)) (hex (sha256 [x37])) (b64encode [x37]).
(** Each state with the JSON number that stands for it. *)
Definition sample_states : list (SecureTimeStateV1 * byte) :=
  [(sample_state pending_strict_mtls boot_a None, x31);
   (sample_state restore_consumed boot_a (Some boot_b), x32);
   (sample_state strict_mtls_ready boot_b None, x33);
   (sample_state strict_mtls_failed boot_b None, x34)].

#[local] Instance sample_state_codec : ContractCodec SecureTimeStateV1 := {|
  model_validate_json raw :=
    match filter (λ p, [p.2] = raw) sample_states with p :: _ => Ok p.1 | [] => Raise ValidationError end;
  canonical_bytes s :=
    match filter (λ p, p.1 = s) sample_states with p :: _ => Ok [p.2] | [] => Raise ValidationError end;
|}.
#[local] Instance sample_legacy_codec : ContractCodec LegacySecureTimeStateV1 := {|
  model_validate_json raw := Raise ValidationError;
  canonical_bytes s := Raise ValidationError;
|}.
#[local] Instance sample_proof_codec : ContractCodec CoreTimeProofV1 := {|
  model_validate_json raw := if bool_decide (raw = [x37]) then Ok sample_proof else Raise ValidationError;
  canonical_bytes p := Ok [x37];
|}.

#[local] Instance sample_state_laws : StateCodecLaws.
Proof.
  split. intros s b _ Hb _. cbn [canonical_bytes sample_state_codec] in Hb.
  destruct (filter _ sample_states) as [|p l] eqn:Hf; [done|]. injection Hb as <-.
  assert (p ∈ filter (λ p, p.1 = s) sample_states) as Hp by (rewrite Hf; left). clear Hf.
  apply list_elem_of_filter in Hp as [<- Hp]. unfold sample_states in Hp.
  repeat (apply elem_of_cons in Hp as [-> |Hp]; [vm_compute; reflexivity|]). by apply elem_of_nil in Hp.
Qed.

Definition sample_boot (id : text) : boot :=
  mkBoot (mkReport true false false false None) sample_endpoint sample_leaf id sample_nonce [x37].
Definition sample_machine : world := mkWorld None None 5 [] false [] false None false.
Definition killed_boot : history_step := mkStep (PowerCut true) 7 (replicate 38 None ++ [Some Kill]) (sample_boot boot_a).
Definition second_boot : history_step := mkStep (PowerCut true) 8 [] (sample_boot boot_b).

Lemma sample_pristine : pristine sample_machine.
Proof. by split. Qed.

Lemma secure_time_never_back_witness :
  read_state (w_durable (live_all [killed_boot] sample_machine))
    = Ok (Some (sample_state pending_strict_mtls boot_a None)) ∧
  ∃ s2, read_state (w_durable (live_all [second_boot] (live_all [killed_boot] sample_machine))) = Ok (Some s2) ∧
    later (sample_state pending_strict_mtls boot_a None) s2.
Proof.
  assert (read_state (w_durable (live_all [killed_boot] sample_machine))
    = Ok (Some (sample_state pending_strict_mtls boot_a None))) as H by (vm_compute; reflexivity).
  split; [exact H|].
  exact (proj2 (secure_time_never_back sample_machine [killed_boot] [second_boot] sample_pristine) _ H).
Defined.

Lemma secure_time_restored_once_witness :
  restored (w_journal (live_all [killed_boot; second_boot; second_boot] sample_machine)) = [1] ∧
  NoDup (restored (w_journal (live_all [killed_boot; second_boot; second_boot] sample_machine))).
Proof.
  split; [vm_compute; reflexivity|].
  exact (secure_time_restored_once sample_machine [killed_boot; second_boot; second_boot] sample_pristine).
Defined.

Lemma secure_time_ready_vouched_witness :
  let w1 := come_up (PowerCut true) 8 [] (live_all [killed_boot] sample_machine) in
  let '(r, w2) := start_before_reachy_transport (sample_boot boot_b) w1 in
  w_ready w2 = true ∧ tls_since w1 w2 ∧
  ∃ m, w_mode w2 = Some m ∧
    match m with
    | qualified_rtc => rtc_trusted (bt_report (sample_boot boot_b))
    | signed_core_bootstrap => signed_time (sample_boot boot_b) w2
    end.
Proof.
  pose proof (secure_time_ready_vouched sample_machine [killed_boot] (PowerCut true) 8 [] (sample_boot boot_b)
    sample_pristine) as H. cbn zeta in *.
  assert (is_ok (start_before_reachy_transport (sample_boot boot_b)
    (come_up (PowerCut true) 8 [] (live_all [killed_boot] sample_machine))).1 = true) as Hok by (vm_compute; reflexivity).
  destruct (start_before_reachy_transport _ _) as [r w2]. destruct H as [H1 H2].
  split; [exact (H1 Hok)|exact (H2 (H1 Hok))].
Defined.
