(* ===== verification/Turns.v ===== *)
(** * Turns: the coordinator that owns the household's one turn

    [apps/core/src/tuntun_core/services/sessions/turn_coordinator.py].  A turn ends through a
    safety barrier: the robot is stopped, the turn's tasks are cancelled and joined, its
    budget attempts are reconciled, and only then is the turn released; otherwise the
    coordinator is blocked until the owner recovers it.

    Every [async with self._lock] region runs without suspending, so it is one step here.
    Barriers, the tasks that join a turn's work and the reconciliations are tasks of the event
    loop, with an inductive type for the point where a barrier is suspended.  What a suspended
    task is resumed with (the outcome of the safety attempts, a time-out, a cancellation) and
    whether a task can be created are inputs of the step.  The done callbacks of a task, which
    the loop runs right after it, belong to the step that ends it.  The journal records, for
    the theorems only, what happened. *)

From stdpp Require Import pretty sorting.
From Stdlib Require Import SpecFloat.
From S2P Require Import Prelude PyFloat.

Abbreviation turn := Z (only parsing).
Abbreviation task := Z (only parsing).

Inductive CoordinatorState := IDLE | ACTIVE | CANCELLING | SAFETY_BLOCKED.
#[export] Instance CoordinatorState_eq_dec : EqDecision CoordinatorState.
Proof. solve_decision. Defined.

Definition _MAX_TRACKED_ATTEMPTS : Z := 8.
Definition _CANCELLATION_REASONS : list string :=
  ["cancel"; "disconnect"; "physical_stop"; "privacy"; "privacy_shield"; "shutdown"; "stop"; "timeout";
   "watchdog"; "workflow_cancelled"; "workflow_cancelled_during_finish";
   "workflow_observed_external_cancel"; "workflow_timeout"].
Definition _safe_cancellation_reason (reason : string) : string :=
  if bool_decide (reason ∈ _CANCELLATION_REASONS) then reason else "invalid_reason".

(** ** Cancellation health: deques with a maximal length *)

Record SafetyBlockedRecord := mkBlocked {
  bl_turn_id : turn;
  bl_reason : string;
  bl_attempts : Z;
  bl_failure_codes : list string;
  bl_observed_at : option Z;
}.

Record CancellationHealthRecorder := mkRecorder {
  h_capacity : Z;
  _blocked : list SafetyBlockedRecord;
  _barrier_errors : list string;
  _task_factory_failures : list string;
}.

Definition make_recorder (capacity : Z) : result exn CancellationHealthRecorder :=
  if between 1 capacity 256 then Ok (mkRecorder capacity [] [] [])
  else Raise (ValueError "invalid cancellation health capacity").

(** [deque.append] of a deque with [maxlen]. *)
Definition push {A} (maxlen : Z) (q : list A) (x : A) : list A :=
  let q := q ++ [x] in drop (Z.to_nat (len q - maxlen)) q.

Definition record_safety_blocked (r : SafetyBlockedRecord) (h : CancellationHealthRecorder) :=
  mkRecorder (h_capacity h) (push (h_capacity h) (_blocked h) r) (_barrier_errors h) (_task_factory_failures h).
Definition record_barrier_exception (e : exn) (h : CancellationHealthRecorder) :=
  mkRecorder (h_capacity h) (_blocked h) (push (h_capacity h) (_barrier_errors h) (exn_name e))
    (_task_factory_failures h).
Definition record_task_factory_failure (name : string) (h : CancellationHealthRecorder) :=
  mkRecorder (h_capacity h) (_blocked h) (_barrier_errors h) (push (h_capacity h) (_task_factory_failures h) name).

(** ** The coordinator and its tasks *)

Record TransportProof := mkTransportProof {
  tp_reservation_id : Z;
  tp_attempt_id : Z;
  tp_disposition : string;
  tp_evidence_code : string;
  tp_observed_at : Z;
}.

Record SafetyReceipt := mkReceipt {
  sr_turn_id : option turn;
  playback_stopped : bool;
  motion_stopped : bool;
  buffers_cleared : bool;
}.

(** How one attempt to stop the robot ends; [AttemptReceipt] is what the robot returned. *)
Inductive attempt :=
| AttemptUnavailable (e : exn)
| AttemptTimeout
| AttemptError (e : exn)
| AttemptMalformed
| AttemptReceipt (r : SafetyReceipt).

(** Where a barrier is suspended, with the local variables it still needs. *)
Inductive phase :=
| Spawned
| AwaitStart (tasks : gset task)
| AwaitUnstarted
| AwaitSafety (tasks : gset task) (task_join : task) (reconciliation : option task)
    (reconciliation_error : option exn)
| AwaitJoin (tasks : gset task) (task_join : task) (reconciliation : option task)
    (reconciliation_error : option exn) (safety_verified : bool) (failure_codes : list string)
| AwaitReconciliation (stubborn_tasks : gset task) (reconciliation : task) (safety_verified : bool)
    (failure_codes : list string)
| Finished (outcome : result exn unit).

Record barrier := mkBarrier { b_turn : turn; b_reason : string; b_phase : phase }.

(** [_join_tracked]: what it waits for, or the tasks that were still pending. *)
Inductive join := Joining (turn_id : turn) (tasks : gset task) | Joined (turn_id : turn) (pending : gset task).

Record reconciliation := mkRecon {
  rc_turn : turn;
  rc_proofs : list TransportProof;
  rc_outcome : option (result exn unit);
}.

Record event_loop := mkLoop {
  next_task : task;
  done_tasks : gset task;
  barriers : gmap task barrier;
  joins : gmap task join;
  recons : gmap task reconciliation;
  recovering : list turn;
}.

Inductive entry :=
| Started (t : turn)
| Tracked (t : turn) (k : task)
| RobotAnswered (b : task) (answers : list attempt)
| Reconciled (t : turn) (proofs : list TransportProof)
| OwnerVerified (t : turn)
| Released (t : turn)
| Blocked (t : turn).

Record coordinator := mkCoordinator {
  safety_retry_limit : Z;
  has_owner_recovery : bool;
  _active : option turn;
  _state : CoordinatorState;
  _tasks : gmap turn (gset task);
  _attempts : gmap turn (gset (Z * Z));
  _reconciliation_proofs : gmap turn (list TransportProof);
  _reconciliation_tasks : gmap turn (gset task);
  _safety_blocked_record : option SafetyBlockedRecord;
  _process_restart_required : bool;
  _cancelling : gmap turn task;
  cancel_started : bool;
  _health : CancellationHealthRecorder;
  loop : event_loop;
  journal : list entry;
}.

Definition set_active x c := mkCoordinator (safety_retry_limit c) (has_owner_recovery c) x (_state c) (_tasks c)
  (_attempts c) (_reconciliation_proofs c) (_reconciliation_tasks c) (_safety_blocked_record c)
  (_process_restart_required c) (_cancelling c) (cancel_started c) (_health c) (loop c) (journal c).
Definition set_state x c := mkCoordinator (safety_retry_limit c) (has_owner_recovery c) (_active c) x (_tasks c)
  (_attempts c) (_reconciliation_proofs c) (_reconciliation_tasks c) (_safety_blocked_record c)
  (_process_restart_required c) (_cancelling c) (cancel_started c) (_health c) (loop c) (journal c).
Definition set_tasks x c := mkCoordinator (safety_retry_limit c) (has_owner_recovery c) (_active c) (_state c) x
  (_attempts c) (_reconciliation_proofs c) (_reconciliation_tasks c) (_safety_blocked_record c)
  (_process_restart_required c) (_cancelling c) (cancel_started c) (_health c) (loop c) (journal c).
Definition set_attempts x c := mkCoordinator (safety_retry_limit c) (has_owner_recovery c) (_active c) (_state
  c) (_tasks c) x (_reconciliation_proofs c) (_reconciliation_tasks c) (_safety_blocked_record c)
  (_process_restart_required c) (_cancelling c) (cancel_started c) (_health c) (loop c) (journal c).
Definition set_reconciliation_proofs x c := mkCoordinator (safety_retry_limit c) (has_owner_recovery c) (_active
  c) (_state c) (_tasks c) (_attempts c) x (_reconciliation_tasks c) (_safety_blocked_record c)
  (_process_restart_required c) (_cancelling c) (cancel_started c) (_health c) (loop c) (journal c).
Definition set_reconciliation_tasks x c := mkCoordinator (safety_retry_limit c) (has_owner_recovery c) (_active
  c) (_state c) (_tasks c) (_attempts c) (_reconciliation_proofs c) x (_safety_blocked_record c)
  (_process_restart_required c) (_cancelling c) (cancel_started c) (_health c) (loop c) (journal c).
Definition set_safety_blocked_record x c := mkCoordinator (safety_retry_limit c) (has_owner_recovery c) (_active
  c) (_state c) (_tasks c) (_attempts c) (_reconciliation_proofs c) (_reconciliation_tasks c) x
  (_process_restart_required c) (_cancelling c) (cancel_started c) (_health c) (loop c) (journal c).
Definition set_process_restart_required x c := mkCoordinator (safety_retry_limit c) (has_owner_recovery c)
  (_active c) (_state c) (_tasks c) (_attempts c) (_reconciliation_proofs c) (_reconciliation_tasks c)
  (_safety_blocked_record c) x (_cancelling c) (cancel_started c) (_health c) (loop c) (journal c).
Definition set_cancelling x c := mkCoordinator (safety_retry_limit c) (has_owner_recovery c) (_active c) (_state
  c) (_tasks c) (_attempts c) (_reconciliation_proofs c) (_reconciliation_tasks c) (_safety_blocked_record c)
  (_process_restart_required c) x (cancel_started c) (_health c) (loop c) (journal c).
Definition set_cancel_started x c := mkCoordinator (safety_retry_limit c) (has_owner_recovery c) (_active c)
  (_state c) (_tasks c) (_attempts c) (_reconciliation_proofs c) (_reconciliation_tasks c)
  (_safety_blocked_record c) (_process_restart_required c) (_cancelling c) x (_health c) (loop c) (journal c).
Definition set_health x c := mkCoordinator (safety_retry_limit c) (has_owner_recovery c) (_active c) (_state c)
  (_tasks c) (_attempts c) (_reconciliation_proofs c) (_reconciliation_tasks c) (_safety_blocked_record c)
  (_process_restart_required c) (_cancelling c) (cancel_started c) x (loop c) (journal c).
Definition set_loop x c := mkCoordinator (safety_retry_limit c) (has_owner_recovery c) (_active c) (_state c)
  (_tasks c) (_attempts c) (_reconciliation_proofs c) (_reconciliation_tasks c) (_safety_blocked_record c)
  (_process_restart_required c) (_cancelling c) (cancel_started c) (_health c) x (journal c).
Definition set_journal x c := mkCoordinator (safety_retry_limit c) (has_owner_recovery c) (_active c) (_state c)
  (_tasks c) (_attempts c) (_reconciliation_proofs c) (_reconciliation_tasks c) (_safety_blocked_record c)
  (_process_restart_required c) (_cancelling c) (cancel_started c) (_health c) (loop c) x.

Definition set_next_task x c := set_loop (mkLoop x (done_tasks (loop c)) (barriers (loop c)) (joins (loop c))
  (recons (loop c)) (recovering (loop c))) c.
Definition set_done_tasks x c := set_loop (mkLoop (next_task (loop c)) x (barriers (loop c)) (joins (loop c))
  (recons (loop c)) (recovering (loop c))) c.
Definition set_barriers x c := set_loop (mkLoop (next_task (loop c)) (done_tasks (loop c)) x (joins (loop c))
  (recons (loop c)) (recovering (loop c))) c.
Definition set_joins x c := set_loop (mkLoop (next_task (loop c)) (done_tasks (loop c)) (barriers (loop c)) x
  (recons (loop c)) (recovering (loop c))) c.
Definition set_recons x c := set_loop (mkLoop (next_task (loop c)) (done_tasks (loop c)) (barriers (loop c))
  (joins (loop c)) x (recovering (loop c))) c.
Definition set_recovering x c := set_loop (mkLoop (next_task (loop c)) (done_tasks (loop c)) (barriers (loop c))
  (joins (loop c)) (recons (loop c)) x) c.
Definition note (e : entry) c := set_journal (e :: journal c) c.
Definition on_health (f : CancellationHealthRecorder → CancellationHealthRecorder) c :=
  set_health (f (_health c)) c.

(** ** Construction *)

(** 0.5, 5.0 and 10.0. *)
Definition MAX_ATTEMPT : float := S754_finite false 4503599627370496 (-53).
Definition MAX_JOIN : float := float_of_int 5.
Definition MAX_RECONCILIATION : float := float_of_int 10.

Definition _valid_timeout (value : clock_value) (maximum : float) : result exn bool :=
  let test x := isfinite x && float_lt (S754_zero false) x && float_le x maximum in
  match value with
  | NowInt n =>
    let x := float_of_int n in
    if isfinite x then Ok (test x) else Raise (OverflowError "int too large to convert to float")
  | NowFloat x => Ok (test x)
  | NowOther => Ok false
  end.

Definition make_coordinator (health : CancellationHealthRecorder) (owner_recovery : bool) (safety_retry_limit : Z)
    (safety_attempt_timeout tracked_join_timeout reconciliation_timeout : clock_value) :
    result exn coordinator :=
  _ ← reject_if (negb (between 1 safety_retry_limit 3)) (ValueError "invalid safety retry boundary");
  attempt_ok ← _valid_timeout safety_attempt_timeout MAX_ATTEMPT;
  _ ← reject_if (negb attempt_ok) (ValueError "invalid safety attempt timeout");
  join_ok ← _valid_timeout tracked_join_timeout MAX_JOIN;
  _ ← reject_if (negb join_ok) (ValueError "invalid tracked join timeout");
  reconciliation_ok ← _valid_timeout reconciliation_timeout MAX_RECONCILIATION;
  _ ← reject_if (negb reconciliation_ok) (ValueError "invalid reconciliation timeout");
  Ok (mkCoordinator safety_retry_limit owner_recovery None IDLE ∅ ∅ ∅ ∅ None false ∅ false health
        (mkLoop 0 ∅ ∅ ∅ ∅ []) []).

(** ** Creating a task

    [asyncio.create_task] may fail, and then a task made directly; a failed creation is
    recorded under the task's role. *)

Inductive spawn := Created | Retried | Unavailable (e : exn).

Definition _spawn_owned (role : string) (out : spawn) : M coordinator exn task :=
  match out with
  | Created => id ← gets (next_task ∘ loop); _ ← modify (set_next_task (id + 1)); mret id
  | Retried =>
    _ ← modify (on_health (record_task_factory_failure role));
    id ← gets (next_task ∘ loop); _ ← modify (set_next_task (id + 1)); mret id
  | Unavailable e => _ ← modify (on_health (record_task_factory_failure role)); raise e
  end.

(** ** Registration *)

Definition is_current (turn_id : turn) (c : coordinator) : bool := bool_decide (_active c = Some turn_id).
Definition accepts_results (turn_id : turn) (c : coordinator) : bool :=
  bool_decide (_active c = Some turn_id) && bool_decide (_state c = ACTIVE).
Definition tracked_attempts (turn_id : turn) (c : coordinator) : gset (Z * Z) :=
  default ∅ (_attempts c !! turn_id).

Definition start (turn_id : turn) : M coordinator exn unit :=
  c ← gets id;
  _ ← raise_if (bool_decide (_state c = SAFETY_BLOCKED))
        (RuntimeError "household safety blocked; owner recovery required");
  _ ← raise_if (negb (bool_decide (_state c = IDLE)) || bool_decide (is_Some (_active c)))
        (RuntimeError "household conversation busy");
  modify (λ c, note (Started turn_id) (set_cancel_started false (set_state ACTIVE (set_active (Some turn_id) c)))).

Definition _require_registration_open (turn_id : turn) : M coordinator exn unit :=
  c ← gets id;
  _ ← raise_if (negb (is_current turn_id c) || bool_decide (_state c = IDLE)) (RuntimeError "stale turn");
  raise_if (negb (bool_decide (_state c = ACTIVE)) || bool_decide (is_Some (_cancelling c !! turn_id)))
    (RuntimeError "turn cancellation in progress").

Definition track_task (turn_id : turn) (k : task) : M coordinator exn unit :=
  _ ← _require_registration_open turn_id;
  modify (λ c, note (Tracked turn_id k)
                 (set_tasks (<[turn_id := {[k]} ∪ default ∅ (_tasks c !! turn_id)]> (_tasks c)) c)).

Definition untrack_task (turn_id : turn) (k : task) : M coordinator exn unit :=
  c ← gets id;
  _ ← raise_if (negb (bool_decide (k ∈ done_tasks (loop c)))) (RuntimeError "cannot untrack live task");
  match _tasks c !! turn_id with
  | None => mret tt
  | Some tracked =>
    let tracked := tracked ∖ {[k]} in
    modify (set_tasks (if bool_decide (tracked = ∅) then delete turn_id (_tasks c)
                       else <[turn_id := tracked]> (_tasks c)))
  end.

Definition track_reservation (turn_id : turn) (reservation_id attempt_id : Z) : M coordinator exn unit :=
  _ ← _require_registration_open turn_id;
  attempts ← gets (tracked_attempts turn_id);
  let pair := (reservation_id, attempt_id) in
  _ ← raise_if (bool_decide (pair ∈ attempts)) (RuntimeError "duplicate tracked reservation");
  _ ← raise_if (_MAX_TRACKED_ATTEMPTS <=? Z.of_nat (size attempts)) (RuntimeError "turn_budget_attempt_limit");
  modify (λ c, set_attempts (<[turn_id := {[pair]} ∪ attempts]> (_attempts c)) c).

Definition complete_reservation (turn_id : turn) (reservation_id attempt_id : Z) : M coordinator exn unit :=
  c ← gets id;
  _ ← raise_if (negb (accepts_results turn_id c)) (RuntimeError "stale turn");
  let attempts := tracked_attempts turn_id c in
  let pair := (reservation_id, attempt_id) in
  _ ← raise_if (negb (bool_decide (pair ∈ attempts))) (RuntimeError "unknown tracked reservation");
  let attempts := attempts ∖ {[pair]} in
  modify (set_attempts (if bool_decide (attempts = ∅) then delete turn_id (_attempts c)
                        else <[turn_id := attempts]> (_attempts c))).

(** ** Opening a barrier *)

(** [now] is what [_safe_now] returns. *)
Definition _latch_factory_failure (turn_id : turn) (reason : string) (now : option Z) : M coordinator exn unit :=
  let record := mkBlocked turn_id reason 0 ["outer_barrier_factory_unavailable"] now in
  modify (λ c, note (Blocked turn_id) (on_health (record_safety_blocked record)
    (set_process_restart_required true (set_safety_blocked_record (Some record) (set_state SAFETY_BLOCKED c))))).

Definition _create_barrier (turn_id : turn) (reason : string) (out : spawn) (now : option Z) :
    M coordinator exn task := λ c,
  match _spawn_owned "outer_barrier" out c with
  | (Ok id, c) =>
    (Ok id, set_cancelling (<[turn_id := id]> (_cancelling c))
              (set_barriers (<[id := mkBarrier turn_id reason Spawned]> (barriers (loop c))) c))
  | (Raise _, c) =>
    (_ ← _latch_factory_failure turn_id reason now;
     raise (SafetyBlockedError "turn_safety_blocked:process_restart_required")) c
  end.

(** [finish], [cancel] and the last part of [recover_safety_block] return the barrier their
    caller then awaits; [None] when they return at once. *)
Definition finish (turn_id : turn) (out : spawn) (now : option Z) : M coordinator exn (option task) :=
  c ← gets id;
  if negb (accepts_results turn_id c) then mret None
  else
    _ ← raise_if (negb (bool_decide (tracked_attempts turn_id c = ∅)))
          (RuntimeError "turn_has_unsettled_budget_attempts");
    _ ← modify (set_state CANCELLING);
    barrier ← _create_barrier turn_id "normal_finish" out now;
    mret (Some barrier).

Definition cancel (turn_id : turn) (reason : string) (out : spawn) (now : option Z) :
    M coordinator exn (option task) :=
  c ← gets id;
  if negb (is_current turn_id c) then mret None
  else
    let safe_reason := _safe_cancellation_reason reason in
    _ ← raise_if (bool_decide (_state c = SAFETY_BLOCKED))
          (SafetyBlockedError "turn_safety_blocked:owner_recovery_required");
    match _cancelling c !! turn_id with
    | Some barrier => mret (Some barrier)
    | None =>
      _ ← raise_if (negb (bool_decide (_state c = ACTIVE))) (RuntimeError "turn cancellation owner missing");
      _ ← modify (set_state CANCELLING);
      barrier ← _create_barrier turn_id safe_reason out now;
      _ ← modify (set_cancel_started true);
      mret (Some barrier)
    end.

Definition require_recoverable (turn_id : turn) : M coordinator exn unit :=
  c ← gets id;
  _ ← raise_if (_process_restart_required c) (SafetyBlockedError "turn_safety_blocked:process_restart_required");
  raise_if (negb (is_current turn_id c) || negb (bool_decide (_state c = SAFETY_BLOCKED)))
    (RuntimeError "turn is not safety blocked").

Fixpoint remove_one (t : turn) (l : list turn) : list turn :=
  match l with
  | [] => []
  | u :: l => if u =? t then l else u :: remove_one t l
  end.

(** The regions of [recover_safety_block] before and after the owner's proof is verified. *)
Definition recover_begin (turn_id : turn) : M coordinator exn unit :=
  _ ← require_recoverable turn_id;
  c ← gets id;
  _ ← raise_if (negb (has_owner_recovery c)) (PermissionError "fresh_local_owner_recovery_required");
  modify (λ c, set_recovering (turn_id :: recovering (loop c)) c).

Definition recover_end (turn_id : turn) (proof : result exn unit) (out : spawn) (now : option Z) :
    M coordinator exn task :=
  _ ← modify (λ c, set_recovering (remove_one turn_id (recovering (loop c))) c);
  _ ← lift proof;
  _ ← modify (note (OwnerVerified turn_id));
  _ ← require_recoverable turn_id;
  _ ← modify (set_state CANCELLING);
  _create_barrier turn_id "verified_owner_recovery" out now.

(** ** Stopping the robot *)

Definition false_fields (r : SafetyReceipt) : list string :=
  (if playback_stopped r then [] else ["playback_stopped"]) ++
  (if motion_stopped r then [] else ["motion_stopped"]) ++
  (if buffers_cleared r then [] else ["buffers_cleared"]).

(** What one attempt adds to the failures; [None] when it is the verified stop. *)
Definition attempt_failures (turn_id : turn) (n : Z) (a : attempt) : option (list string) :=
  match a with
  | AttemptUnavailable _ => None
  | AttemptTimeout => Some ["reachy:timeout:" +:+ pretty n]
  | AttemptError e => Some ["reachy:error:" +:+ exn_name e +:+ ":" +:+ pretty n]
  | AttemptMalformed => Some ["reachy:malformed_receipt:" +:+ pretty n]
  | AttemptReceipt r =>
    if negb (bool_decide (sr_turn_id r = Some turn_id)) then Some ["reachy:wrong_turn:" +:+ pretty n]
    else match false_fields r with
         | [] => None
         | fields => Some (map (λ f, "reachy:" +:+ f +:+ "_false:" +:+ pretty n) fields)
         end
  end.

(** [_retry_reachy_safety] over the outcomes of its attempts; [None] while it still runs. *)
Fixpoint retry_loop (turn_id : turn) (n : Z) (remaining : nat) (failures : list string) (outs : list attempt) :
    option (result exn (bool * list string)) :=
  match remaining with
  | O => Some (Ok (false, failures))
  | S remaining =>
    match outs with
    | [] => None
    | AttemptUnavailable e :: _ => Some (Raise e)
    | a :: outs =>
      match attempt_failures turn_id n a with
      | None => Some (Ok (true, failures))
      | Some more => retry_loop turn_id (n + 1) remaining (failures ++ more) outs
      end
    end
  end.

Definition _retry_reachy_safety (turn_id : turn) (limit : Z) (outs : list attempt) :=
  retry_loop turn_id 1 (Z.to_nat limit) [] outs.

(** ** The barrier *)

Definition _release_turn (turn_id : turn) (c : coordinator) : coordinator :=
  note (Released turn_id)
    (set_reconciliation_tasks (delete turn_id (_reconciliation_tasks c))
    (set_reconciliation_proofs (delete turn_id (_reconciliation_proofs c))
    (set_attempts (delete turn_id (_attempts c))
    (set_tasks (delete turn_id (_tasks c))
    (set_process_restart_required false
    (set_safety_blocked_record None
    (set_state IDLE
    (set_active None c)))))))).

Definition _latch_barrier_failure (turn_id : turn) (reason : string) (failure_codes : list string)
    (now : option Z) (c : coordinator) : coordinator :=
  let record := mkBlocked turn_id reason (safety_retry_limit c)
    (match failure_codes with [] => ["barrier_interrupted"] | _ => failure_codes end) now in
  note (Blocked turn_id) (on_health (record_safety_blocked record)
    (set_safety_blocked_record (Some record) (set_state SAFETY_BLOCKED c))).

Definition drop_cancelling (turn_id : turn) (id : task) (c : coordinator) : coordinator :=
  if bool_decide (_cancelling c !! turn_id = Some id)
  then set_cancelling (delete turn_id (_cancelling c)) c else c.

Definition set_phase (id : task) (b : barrier) (p : phase) (c : coordinator) : coordinator :=
  set_barriers (<[id := mkBarrier (b_turn b) (b_reason b) p]> (barriers (loop c))) c.

(** The task ends; [_observe_barrier_done] runs. *)
Definition _observe_barrier_done (id : task) (b : barrier) (r : result exn unit) (c : coordinator) : coordinator :=
  let c := set_phase id b (Finished r) (drop_cancelling (b_turn b) id c) in
  match r with Ok _ => c | Raise e => on_health (record_barrier_exception e) c end.

(** The [finally] of the barrier: [r] is how its body ended. *)
Definition end_barrier (id : task) (b : barrier) (failure_codes : list string) (r : result exn unit)
    (now : option Z) (c : coordinator) : coordinator :=
  let c := drop_cancelling (b_turn b) id c in
  let c := if is_ok r then _release_turn (b_turn b) c
           else _latch_barrier_failure (b_turn b) (b_reason b) failure_codes now c in
  _observe_barrier_done id b r c.

Definition is_live (c : coordinator) (id : task) : bool :=
  match recons (loop c) !! id with
  | Some r => bool_decide (rc_outcome r = None)
  | None => false
  end.

Definition _live_reconciliation_tasks (turn_id : turn) : M coordinator exn (gset task) :=
  c ← gets id;
  match _reconciliation_tasks c !! turn_id with
  | None => mret ∅
  | Some tracked =>
    if bool_decide (tracked = ∅) then mret ∅
    else
      let live := filter (λ id, is_live c id = true) tracked in
      _ ← (if bool_decide (live = ∅)
           then modify (set_reconciliation_tasks (delete turn_id (_reconciliation_tasks c))) else mret tt);
      mret live
  end.

(** The attempts sorted by the texts of their ids, which order as the ids do. *)
Definition pair_le (p q : Z * Z) : Prop := p.1 < q.1 ∨ (p.1 = q.1 ∧ p.2 ≤ q.2).
#[export] Instance pair_le_dec p q : Decision (pair_le p q).
Proof. unfold pair_le. apply _. Defined.

Definition proof_pair (p : TransportProof) : Z * Z := (tp_reservation_id p, tp_attempt_id p).

(** [BudgetReconciliationRequest] with its constraints. *)
Definition request_ok (proofs : list TransportProof) : bool :=
  (len proofs <=? 8) && bool_decide (NoDup (map proof_pair proofs)).

Definition _reconciliation_request (turn_id : turn) (reason : string) (clock : result exn Z) :
    M coordinator exn (list TransportProof) :=
  c ← gets id;
  proofs ← match _reconciliation_proofs c !! turn_id with
    | Some proofs => mret proofs
    | None =>
      observed_at ← lift clock;
      let proofs := map (λ p, mkTransportProof p.1 p.2 "unknown" ("turn_cancelled:" +:+ reason) observed_at)
                      (merge_sort pair_le (elements (tracked_attempts turn_id c))) in
      _ ← modify (set_reconciliation_proofs (<[turn_id := proofs]> (_reconciliation_proofs c)));
      mret proofs
    end;
  _ ← raise_if (negb (request_ok proofs)) ValidationError;
  mret proofs.

(** The request, the reconciliation task and its retention. *)
Definition begin_reconciliation (turn_id : turn) (reason : string) (clock : result exn Z) (out : spawn) :
    M coordinator exn task :=
  proofs ← _reconciliation_request turn_id reason clock;
  id ← _spawn_owned "budget_reconciliation" out;
  _ ← modify (λ c, set_recons (<[id := mkRecon turn_id proofs None]> (recons (loop c))) c);
  _ ← modify (λ c, set_reconciliation_tasks
        (<[turn_id := {[id]} ∪ default ∅ (_reconciliation_tasks c !! turn_id)]> (_reconciliation_tasks c)) c);
  mret id.

(** The checks at the end of the barrier. *)
Definition barrier_verdict (turn_id : turn) (safety_verified : bool) (stubborn_tasks : gset task)
    (reconciliation_error : option exn) (failure_codes : list string) :
    M coordinator exn (list string * result exn unit) :=
  let blocked s := Raise (SafetyBlockedError ("turn_safety_blocked:" +:+ s)) in
  if negb safety_verified then mret (failure_codes, blocked "owner_recovery_required")
  else if negb (bool_decide (stubborn_tasks = ∅)) then
    mret (failure_codes ++ ["tracked_tasks:timeout"], blocked "tracked_task_restart_required")
  else match reconciliation_error with
       | Some e =>
         mret (failure_codes ++ ["reconciliation:" +:+ exn_name e],
               match e with
               | TimeoutError _ => blocked "reconciliation_timeout"
               | CancelledError => blocked "reconciliation_cancelled"
               | _ => Raise e
               end)
       | None =>
         live ← _live_reconciliation_tasks turn_id;
         mret (if bool_decide (live = ∅) then (failure_codes, Ok tt)
               else (failure_codes ++ ["reconciliation:still_live"], blocked "prior_reconciliation_live"))
       end.

Definition conclude (id : task) (b : barrier) (safety_verified : bool) (stubborn_tasks : gset task)
    (reconciliation_error : option exn) (failure_codes : list string) (now : option Z) : M coordinator exn unit :=
  '(codes, r) ← barrier_verdict (b_turn b) safety_verified stubborn_tasks reconciliation_error failure_codes;
  modify (end_barrier id b codes r now).

Inductive wake :=
| WRun (safety : spawn)
| WStarted (started : bool) (task_join : spawn) (clock : result exn Z) (reconciliation : spawn)
| WSafety (outs : list attempt)
| WJoin
| WReconciled
| WTimeout
| WCancelled.

Definition restart_required : exn := SafetyBlockedError "turn_safety_blocked:process_restart_required".

(** The barrier is resumed and runs to its next suspension; a wake it does not wait for
    changes nothing. *)
Definition run_first (id : task) (b : barrier) (safety : spawn) (now : option Z) : M coordinator exn unit := λ c,
  let tasks := default ∅ (_tasks c !! b_turn b) in
  match _spawn_owned "reachy_safety" safety c with
  | (Ok _, c) => modify (set_phase id b (AwaitStart tasks)) c
  | (Raise _, c) =>
    modify (end_barrier id b ["reachy_safety_factory_unavailable"] (Raise restart_required) now ∘
            set_process_restart_required true) c
  end.

Definition run_started (id : task) (b : barrier) (tasks : gset task) (task_join : spawn) (clock : result exn Z)
    (reconciliation : spawn) (now : option Z) : M coordinator exn unit := λ c,
  match _spawn_owned "tracked_task_join" task_join c with
  | (Raise e, c) => modify (end_barrier id b [] (Raise e) now) c
  | (Ok jid, c) =>
    (_ ← modify (λ c, set_joins (<[jid := Joining (b_turn b) tasks]> (joins (loop c))) c);
     live ← _live_reconciliation_tasks (b_turn b);
     if negb (bool_decide (live = ∅)) then
       modify (set_phase id b (AwaitSafety tasks jid None
         (Some (SafetyBlockedError "turn_safety_blocked:prior_reconciliation_live"))))
     else λ c,
       match begin_reconciliation (b_turn b) (b_reason b) clock reconciliation c with
       | (Ok rid, c) => modify (set_phase id b (AwaitSafety tasks jid (Some rid) None)) c
       | (Raise e, c) => modify (set_phase id b (AwaitSafety tasks jid None (Some e))) c
       end) c
  end.

Definition after_join (id : task) (b : barrier) (stubborn : gset task) (reconciliation : option task)
    (reconciliation_error : option exn) (verified : bool) (codes : list string) (now : option Z) :
    M coordinator exn unit :=
  match reconciliation with
  | Some rid => modify (set_phase id b (AwaitReconciliation stubborn rid verified codes))
  | None => conclude id b verified stubborn reconciliation_error codes now
  end.

Definition _run_cancellation_barrier (bid : task) (w : wake) (now : option Z) : M coordinator exn unit :=
  c ← gets id;
  match barriers (loop c) !! bid with
  | None => mret tt
  | Some b =>
    match b_phase b, w with
    | Spawned, WRun safety => run_first bid b safety now
    | Spawned, WCancelled => modify (_observe_barrier_done bid b (Raise CancelledError))
    | AwaitStart tasks, WStarted true task_join clock reconciliation =>
      run_started bid b tasks task_join clock reconciliation now
    | AwaitStart _, WStarted false _ _ _ =>
      modify (set_phase bid b AwaitUnstarted ∘ set_process_restart_required true)
    | AwaitStart _, WCancelled => modify (end_barrier bid b [] (Raise CancelledError) now)
    | AwaitUnstarted, (WSafety _ | WCancelled) =>
      modify (end_barrier bid b ["reachy_safety_factory_unavailable"] (Raise restart_required) now)
    | AwaitSafety tasks jid rid err, WSafety outs =>
      match _retry_reachy_safety (b_turn b) (safety_retry_limit c) outs with
      | None => mret tt
      | Some (Ok (verified, failures)) =>
        modify (set_phase bid b (AwaitJoin tasks jid rid err verified failures) ∘ note (RobotAnswered bid outs))
      | Some (Raise e) =>
        modify (set_phase bid b (AwaitJoin tasks jid rid err false ["reachy_safety:" +:+ exn_name e]) ∘ note (RobotAnswered bid outs))
      end
    | AwaitSafety tasks jid rid err, WCancelled =>
      modify (set_phase bid b (AwaitJoin tasks jid rid err false ["reachy_safety:CancelledError"]))
    | AwaitJoin tasks jid rid err verified codes, WJoin =>
      match joins (loop c) !! jid with
      | Some (Joined _ pending) => after_join bid b pending rid err verified codes now
      | _ => mret tt
      end
    | AwaitJoin tasks jid rid err verified codes, WCancelled =>
      after_join bid b tasks rid err verified (codes ++ ["tracked_tasks:CancelledError"]) now
    | AwaitReconciliation stubborn rid verified codes, WReconciled =>
      match recons (loop c) !! rid with
      | Some (mkRecon _ _ (Some r)) =>
        conclude bid b verified stubborn (match r with Ok _ => None | Raise e => Some e end) codes now
      | _ => mret tt
      end
    | AwaitReconciliation stubborn rid verified codes, WTimeout =>
      if is_live c rid then
        conclude bid b verified stubborn (Some (TimeoutError "budget_reconciliation_timeout")) codes now
      else mret tt
    | AwaitReconciliation _ _ _ codes, WCancelled => modify (end_barrier bid b codes (Raise CancelledError) now)
    | _, _ => mret tt
    end
  end.

(** [_join_tracked] once its wait is over: everything is done, or the time is up. *)
Definition _join_tracked (jid : task) (timed_out : bool) : M coordinator exn unit :=
  c ← gets id;
  match joins (loop c) !! jid with
  | Some (Joining turn_id tasks) =>
    let pending := tasks ∖ done_tasks (loop c) in
    if bool_decide (pending = ∅) || timed_out then
      modify (λ c, set_joins (<[jid := Joined turn_id pending]> (joins (loop c)))
        (set_tasks (if bool_decide (pending = ∅) then delete turn_id (_tasks c)
                    else <[turn_id := pending]> (_tasks c)) c))
    else mret tt
  | _ => mret tt
  end.

(** The callback of [_retain_reconciliation]. *)
Definition discard (turn_id : turn) (completed : task) (m : gmap turn (gset task)) : gmap turn (gset task) :=
  match m !! turn_id with
  | None => m
  | Some tracked =>
    let tracked := tracked ∖ {[completed]} in
    if bool_decide (tracked = ∅) then delete turn_id m else <[turn_id := tracked]> m
  end.

(** A reconciliation ends, and its callback forgets it. *)
Definition end_reconciliation (rid : task) (r : result exn unit) (c : coordinator) : coordinator :=
  match recons (loop c) !! rid with
  | Some (mkRecon turn_id proofs None) =>
    let c := if is_ok r then note (Reconciled turn_id proofs) c else c in
    let c := set_recons (<[rid := mkRecon turn_id proofs (Some r)]> (recons (loop c))) c in
    set_reconciliation_tasks (discard turn_id rid (_reconciliation_tasks c)) c
  | _ => c
  end.

(** The callback of [_retain_background] on a task that ended. *)
Definition observe_background (r : result exn unit) (c : coordinator) : coordinator :=
  match r with
  | Ok _ | Raise CancelledError => c
  | Raise e => on_health (record_barrier_exception e) c
  end.

(** ** Steps of the event loop *)

Inductive event :=
| EStart (t : turn)
| ETrackTask (t : turn) (k : task)
| EUntrackTask (t : turn) (k : task)
| ETrackReservation (t : turn) (reservation_id attempt_id : Z)
| ECompleteReservation (t : turn) (reservation_id attempt_id : Z)
| EFinish (t : turn) (out : spawn) (now : option Z)
| ECancel (t : turn) (reason : string) (out : spawn) (now : option Z)
| ERecoverBegin (t : turn)
| ERecoverEnd (t : turn) (proof : result exn unit) (out : spawn) (now : option Z)
| ETaskDone (k : task)
| EBackground (r : result exn unit)
| EJoin (jid : task) (timed_out : bool)
| EReconciliation (rid : task) (r : result exn unit)
| EBarrier (id : task) (w : wake) (now : option Z).

Definition step (e : event) (c : coordinator) : coordinator :=
  match e with
  | EStart t => (start t c).2
  | ETrackTask t k => (track_task t k c).2
  | EUntrackTask t k => (untrack_task t k c).2
  | ETrackReservation t r a => (track_reservation t r a c).2
  | ECompleteReservation t r a => (complete_reservation t r a c).2
  | EFinish t out now => (finish t out now c).2
  | ECancel t reason out now => (cancel t reason out now c).2
  | ERecoverBegin t => (recover_begin t c).2
  | ERecoverEnd t proof out now =>
    if bool_decide (t ∈ recovering (loop c)) then (recover_end t proof out now c).2 else c
  | ETaskDone k => set_done_tasks ({[k]} ∪ done_tasks (loop c)) c
  | EBackground r => observe_background r c
  | EJoin jid timed_out => (_join_tracked jid timed_out c).2
  | EReconciliation rid r => end_reconciliation rid r c
  | EBarrier id w now => (_run_cancellation_barrier id w now c).2
  end.

Definition run (events : list event) (c : coordinator) : coordinator := foldl (λ c e, step e c) c events.

(** ** The journal since a turn began *)

Fixpoint turn_log (j : list entry) : list entry :=
  match j with
  | [] | Started _ :: _ | Released _ :: _ => []
  | e :: j => e :: turn_log j
  end.

Fixpoint open_turn (j : list entry) : option turn :=
  match j with
  | [] | Released _ :: _ => None
  | Started t :: _ => Some t
  | _ :: j => open_turn j
  end.

Definition log (c : coordinator) : list entry := turn_log (journal c).

(** Every task tracked in this turn is done or among [s]. *)
Definition covers (c : coordinator) (s : gset task) : Prop :=
  ∀ t k, Tracked t k ∈ log c → k ∈ done_tasks (loop c) ∨ k ∈ s.

Definition pairs (proofs : list TransportProof) : gset (Z * Z) := list_to_set (map proof_pair proofs).

Definition join_turn (j : join) : turn := match j with Joining t _ | Joined t _ => t end.
Definition join_tasks (j : join) : gset task := match j with Joining _ s | Joined _ s => s end.

Definition join_of (c : coordinator) (jid : task) (t : turn) : Prop :=
  ∃ j, joins (loop c) !! jid = Some j ∧ join_turn j = t.
Definition recon_of (c : coordinator) (rid : task) (t : turn) (proofs : list TransportProof) : Prop :=
  ∃ o, recons (loop c) !! rid = Some (mkRecon t proofs o).

(** A stop counts as verified only on a receipt for this turn whose three fields are true. *)
Lemma retry_verified t n remaining failures outs codes :
  retry_loop t n remaining failures outs = Some (Ok (true, codes)) →
  ∃ r, AttemptReceipt r ∈ outs ∧ sr_turn_id r = Some t ∧ playback_stopped r = true ∧ motion_stopped r = true ∧ buffers_cleared r = true.
Proof.
  revert n failures outs. induction remaining as [|remaining IH]; intros n failures outs; cbn; [done|].
  destruct outs as [|a outs]; [done|].
  assert ((∃ r, AttemptReceipt r ∈ outs ∧ sr_turn_id r = Some t ∧ playback_stopped r = true ∧ motion_stopped r = true ∧ buffers_cleared r = true) →
          ∃ r, AttemptReceipt r ∈ a :: outs ∧ sr_turn_id r = Some t ∧ playback_stopped r = true ∧ motion_stopped r = true ∧ buffers_cleared r = true) as Hlater
    by (intros (r & Hin & Hr); exists r; split; [by right|done]).
  destruct a as [| | | |r]; cbn; [done|by intros ?%IH; auto..|]. case_bool_decide as Ht; cbn; [|by intros ?%IH; auto].
  destruct (false_fields r) as [|f fields] eqn:Hf; [|by intros ?%IH; auto]. intros _. exists r. split; [by left|].
  unfold false_fields in Hf. by destruct (playback_stopped r), (motion_stopped r), (buffers_cleared r).
Qed.

(** ** The invariant *)

Definition recon_ok (c : coordinator) (t : turn) (rid : option task) (err : option exn) : Prop :=
  match rid with
  | Some rid => ∃ proofs, recon_of c rid t proofs ∧ pairs proofs = tracked_attempts t c
  | None => is_Some err
  end.

(** Among the robot's answers to barrier [id] is a receipt for turn [t] with playback, motion and
    buffers all stopped. *)
Definition robot_stopped (t : turn) (id : task) (c : coordinator) : Prop :=
  ∃ answers r, RobotAnswered id answers ∈ log c ∧ AttemptReceipt r ∈ answers ∧ sr_turn_id r = Some t ∧
    playback_stopped r = true ∧ motion_stopped r = true ∧ buffers_cleared r = true.

Definition phase_ok (c : coordinator) (id : task) (t : turn) (p : phase) : Prop :=
  match p with
  | Spawned | AwaitUnstarted | Finished _ => True
  | AwaitStart tasks => covers c tasks
  | AwaitSafety tasks jid rid err => covers c tasks ∧ join_of c jid t ∧ recon_ok c t rid err
  | AwaitJoin tasks jid rid err verified _ =>
    covers c tasks ∧ join_of c jid t ∧ recon_ok c t rid err ∧ (verified = true → robot_stopped t id c)
  | AwaitReconciliation stubborn rid verified _ =>
    covers c stubborn ∧ recon_ok c t (Some rid) None ∧ (verified = true → robot_stopped t id c)
  end.

Definition finished (b : barrier) : bool := match b_phase b with Finished _ => true | _ => false end.

Definition barrier_ok (c : coordinator) (id : task) (b : barrier) : Prop :=
  finished b = true ∨
  (_active c = Some (b_turn b) ∧ _state c = CANCELLING ∧ _cancelling c !! b_turn b = Some id ∧
   phase_ok c id (b_turn b) (b_phase b)).

Definition join_ok (c : coordinator) (jid : task) (j : join) : Prop :=
  jid < next_task (loop c) ∧ Started (join_turn j) ∈ journal c ∧
  (_active c = Some (join_turn j) → _state c ≠ ACTIVE ∧ covers c (join_tasks j)).

Definition reconciliation_ok (c : coordinator) (rid : task) (r : reconciliation) : Prop :=
  rid < next_task (loop c) ∧ Started (rc_turn r) ∈ journal c ∧
  (_active c = Some (rc_turn r) →
    (rc_outcome r = None → rid ∈ default ∅ (_reconciliation_tasks c !! rc_turn r)) ∧
    (rc_outcome r = Some (Ok tt) → Reconciled (rc_turn r) (rc_proofs r) ∈ log c)).

Record inv (c : coordinator) : Prop := {
  i_open : _active c = open_turn (journal c);
  i_idle : _state c = IDLE ↔ _active c = None;
  i_tasks : ∀ t, _active c = Some t → covers c (default ∅ (_tasks c !! t));
  i_proofs : ∀ t proofs, _reconciliation_proofs c !! t = Some proofs →
    _active c = Some t ∧ _state c ≠ ACTIVE ∧ pairs proofs = tracked_attempts t c;
  i_barriers : ∀ id b, barriers (loop c) !! id = Some b → id < next_task (loop c) ∧ barrier_ok c id b;
  i_joins : ∀ jid j, joins (loop c) !! jid = Some j → join_ok c jid j;
  i_recons : ∀ rid r, recons (loop c) !! rid = Some r → reconciliation_ok c rid r;
}.

(** What holds when a turn is released. *)
Definition released_ok (c : coordinator) (t : turn) : Prop :=
  (∃ id, _cancelling c !! t = Some id ∧ robot_stopped t id c) ∧
  (∀ t' k, Tracked t' k ∈ log c → k ∈ done_tasks (loop c)) ∧
  (∃ proofs, Reconciled t proofs ∈ log c ∧ pairs proofs = tracked_attempts t c) ∧
  (∀ rid r, recons (loop c) !! rid = Some r → rc_turn r = t → rc_outcome r ≠ None).

Definition good (c c' : coordinator) : Prop :=
  inv c' ∧ ∀ t, _active c = Some t → _active c' = Some t ∨ (_active c' = None ∧ released_ok c t).

Lemma good_same c c' : inv c' → _active c' = _active c → good c c'.
Proof. intros Hi Ha. split; [done|]. intros t Ht. left. congruence. Qed.

(** Fields no part of the invariant reads. *)
Lemma inv_health f c : inv c → inv (on_health f c).
Proof. by intros []; constructor. Qed.
Lemma inv_record r c : inv c → inv (set_safety_blocked_record r c).
Proof. by intros []; constructor. Qed.
Lemma inv_restart b c : inv c → inv (set_process_restart_required b c).
Proof. by intros []; constructor. Qed.
Lemma inv_cancel_started b c : inv c → inv (set_cancel_started b c).
Proof. by intros []; constructor. Qed.
Lemma inv_recovering l c : inv c → inv (set_recovering l c).
Proof. by intros []; constructor. Qed.

Create HintDb turns discriminated.
#[local] Hint Resolve inv_health inv_record inv_restart inv_cancel_started inv_recovering : turns.

Lemma wp_snd {A} (m : M coordinator exn A) (P : coordinator → Prop) c :
  wp m (λ _, P) (λ _, P) c → P (m c).2.
Proof. unfold wp. by destruct (m c) as [[?|?] ?]. Qed.

Lemma all_finished c id b :
  inv c → _state c ≠ CANCELLING → barriers (loop c) !! id = Some b → finished b = true.
Proof. intros Hi Hs Hb. by destruct (i_barriers c Hi id b Hb) as [_ [?|(_ & ? & _)]]. Qed.

Lemma others_finished c id b id' b' :
  inv c → barriers (loop c) !! id = Some b → finished b = false →
  barriers (loop c) !! id' = Some b' → id' ≠ id → finished b' = true.
Proof.
  intros Hi Hb Hf Hb' Hne.
  destruct (i_barriers c Hi id b Hb) as [_ [?|(Ha & _ & Hc & _)]]; [congruence|].
  destruct (i_barriers c Hi id' b' Hb') as [_ [?|(Ha' & _ & Hc' & _)]]; [done|].
  rewrite Ha in Ha'. injection Ha' as Heq. rewrite Heq in Hc. congruence.
Qed.

Lemma live_barrier c id b :
  inv c → barriers (loop c) !! id = Some b → finished b = false →
  _active c = Some (b_turn b) ∧ _state c = CANCELLING ∧ _cancelling c !! b_turn b = Some id ∧
  phase_ok c id (b_turn b) (b_phase b).
Proof. intros Hi Hb Hf. destruct (i_barriers c Hi id b Hb) as [_ [?|?]]; [congruence|done]. Qed.

(** A change that leaves the owner alone and loses nothing a suspended barrier relies on. *)
Record grows (c c' : coordinator) : Prop := {
  g_active : _active c' = _active c;
  g_state : _state c' = _state c;
  g_cancelling : _cancelling c' = _cancelling c;
  g_attempts : _attempts c' = _attempts c;
  g_proofs : _reconciliation_proofs c' = _reconciliation_proofs c;
  g_covers : ∀ s, covers c s → covers c' s;
  g_log : ∀ e, e ∈ log c → e ∈ log c';
  g_joins : ∀ jid t, join_of c jid t → join_of c' jid t;
  g_recons : ∀ rid t proofs, recon_of c rid t proofs → recon_of c' rid t proofs;
}.

Lemma grows_phase c c' id t p : grows c c' → phase_ok c id t p → phase_ok c' id t p.
Proof.
  intros G. assert (∀ rid err, recon_ok c t rid err → recon_ok c' t rid err) as Hr.
  { intros [rid|] err; [|done]. intros (ps & Hr & Hp). exists ps.
    unfold tracked_attempts in *. rewrite (g_attempts _ _ G). split; [by apply G|done]. }
  assert (robot_stopped t id c → robot_stopped t id c') as Hs
    by (intros (answers & r & Hin & ?); exists answers, r; split; [by apply (g_log _ _ G)|done]).
  destruct G as [_ _ _ _ _ Hc Hl Hj _]. destruct p; cbn -[recon_ok robot_stopped]; intuition.
Qed.

Lemma grows_barrier c c' id b : grows c c' → barrier_ok c id b → barrier_ok c' id b.
Proof.
  intros G [?|(? & ? & ? & ?)]; [by left|right].
  rewrite (g_active _ _ G), (g_state _ _ G), (g_cancelling _ _ G). eauto using grows_phase.
Qed.

Lemma grows_inv c c' :
  grows c c' → inv c → barriers (loop c') = barriers (loop c) → next_task (loop c) ≤ next_task (loop c') →
  _active c' = open_turn (journal c') →
  (∀ t, _active c = Some t → covers c' (default ∅ (_tasks c' !! t))) →
  (∀ jid j, joins (loop c') !! jid = Some j → join_ok c' jid j) →
  (∀ rid r, recons (loop c') !! rid = Some r → reconciliation_ok c' rid r) → inv c'.
Proof.
  intros G Hi Hb Hn Ho Ht Hj Hr. constructor; try done.
  - rewrite (g_active _ _ G), (g_state _ _ G). apply Hi.
  - intros t. rewrite (g_active _ _ G). apply Ht.
  - intros t ps. unfold tracked_attempts.
    rewrite (g_proofs _ _ G), (g_active _ _ G), (g_state _ _ G), (g_attempts _ _ G). apply Hi.
  - intros id b. rewrite Hb. intros [? ?]%(i_barriers c Hi). split; [lia|eauto using grows_barrier].
Qed.

Lemma wp_spawn role out (Q : task → coordinator → Prop) R c :
  (∀ f, Q (next_task (loop c)) (set_next_task (next_task (loop c) + 1) (on_health f c))) →
  (∀ f e, R e (on_health f c)) → wp (_spawn_owned role out) Q R c.
Proof.
  intros HQ HR. unfold _spawn_owned. destruct out; wp_steps.
  - specialize (HQ (λ h, h)). by destruct c.
  - specialize (HQ (record_task_factory_failure role)). by destruct c.
  - apply (HR (record_task_factory_failure role) e).
Qed.

(** *** Registration *)

Lemma start_good t c : inv c → Started t ∉ journal c → good c (start t c).2.
Proof.
  intros Hi Hf. apply wp_snd. unfold start. wp_steps; try by apply good_same. cbn in *.
  bool_props. assert (_active c = None) as Ha by (by apply Hi). split; [|intros t' Ht'; congruence].
  constructor; cbn.
  - done.
  - split; intros [=].
  - intros t' _ t'' k Hk. by apply elem_of_nil in Hk.
  - intros t' ps Hp. apply Hi in Hp as [? _]. congruence.
  - intros id b Hb. destruct (i_barriers c Hi id b Hb) as [? _]. split; [done|left].
    eapply all_finished; [done| |done]. congruence.
  - intros jid j Hj. destruct (i_joins c Hi jid j Hj) as (? & ? & _). split_and!; [done|by right|].
    cbn. intros [= ->]. done.
  - intros rid r Hr. destruct (i_recons c Hi rid r Hr) as (? & ? & _). split_and!; [done|by right|].
    cbn. intros [= ->]. done.
Qed.

(** While the turn accepts work nothing has been captured yet. *)
Lemma registration_open t c (Q : unit → coordinator → Prop) R :
  (_active c = Some t → _state c = ACTIVE → Q tt c) → (∀ e, R e c) → wp (_require_registration_open t) Q R c.
Proof.
  intros HQ HR. unfold _require_registration_open, is_current. wp_steps; [|done..]. cbn in *. bool_props. auto.
Qed.

Lemma active_joins c jid j : inv c → _state c = ACTIVE → joins (loop c) !! jid = Some j → _active c ≠ Some (join_turn j).
Proof. intros Hi Hs Hj Ha. destruct (i_joins c Hi jid j Hj) as (_ & _ & [? _]); done. Qed.

Lemma active_proofs c t : inv c → _state c = ACTIVE → _reconciliation_proofs c !! t = None.
Proof.
  intros Hi Hs. destruct (_ !! t) as [ps|] eqn:Hp; [|done]. by apply Hi in Hp as (_ & ? & _).
Qed.

Lemma track_task_good t k c : inv c → good c (track_task t k c).2.
Proof.
  intros Hi. apply wp_snd. unfold track_task. wp_step. apply registration_open; [|intros; by apply good_same].
  intros Ha Hs. wp_steps. apply good_same; [|done]. constructor; cbn; try apply Hi.
  - intros t' Ht' t'' k' Hk. assert (t' = t) as -> by congruence. rewrite lookup_insert_eq. cbn.
    unfold log in Hk. cbn in Hk. apply elem_of_cons in Hk as [[= -> ->]|Hk]; [set_solver|].
    destruct (i_tasks c Hi t Ha t'' k' Hk); set_solver.
  - intros id b Hb. destruct (i_barriers c Hi id b Hb) as [? _]. split; [done|left].
    eapply all_finished; [done| |done]. congruence.
  - intros jid j Hj. destruct (i_joins c Hi jid j Hj) as (? & ? & _). split_and!; [done|by right|].
    cbn. intros Hj'. by destruct (active_joins c jid j Hi Hs Hj).
  - intros rid r Hr. destruct (i_recons c Hi rid r Hr) as (? & ? & Hx). split_and!; [done|by right|].
    cbn. intros Hr'. destruct (Hx Hr') as [Hx1 Hx2]. split; [done|]. intros Ho. right. auto.
Qed.

Lemma inv_tasks f c :
  inv c → (∀ t, _active c = Some t → covers c (default ∅ (_tasks c !! t)) → covers c (default ∅ (f !! t))) →
  inv (set_tasks f c).
Proof. intros Hi Hf. destruct Hi. constructor; cbn; eauto. Qed.

Lemma untrack_task_good t k c : inv c → good c (untrack_task t k c).2.
Proof.
  intros Hi. apply wp_snd. unfold untrack_task. wp_steps; try by apply good_same. cbn in *. bool_props.
  apply good_same; [|done]. apply inv_tasks; [done|]. intros t' _ Hc t'' k' Hk.
  destruct (Hc t'' k' Hk) as [?|Hin]; [by left|]. destruct (decide (k' = k)) as [->|]; [by left|right].
  destruct (decide (t' = t)) as [->|]; [|by case_bool_decide; rewrite ?lookup_delete_ne, ?lookup_insert_ne by done].
  match goal with H : _tasks c !! t = Some _ |- _ => rewrite H in Hin end.
  case_bool_decide as He; rewrite ?lookup_delete_eq, ?lookup_insert_eq; cbn; set_solver.
Qed.

Lemma inv_attempts f c : inv c → _state c = ACTIVE → inv (set_attempts f c).
Proof.
  intros Hi Hs. constructor; cbn; try apply Hi.
  - intros t ps. by rewrite (active_proofs c t Hi Hs).
  - intros id b Hb. destruct (i_barriers c Hi id b Hb) as [? _]. split; [done|left].
    eapply all_finished; [done| |done]. congruence.
Qed.

Lemma track_reservation_good t r a c : inv c → good c (track_reservation t r a c).2.
Proof.
  intros Hi. apply wp_snd. unfold track_reservation. wp_step.
  apply registration_open; [|intros; by apply good_same]. intros Ha Hs.
  wp_steps; try by apply good_same. apply good_same; [by apply inv_attempts|done].
Qed.

Lemma complete_reservation_good t r a c : inv c → good c (complete_reservation t r a c).2.
Proof.
  intros Hi. apply wp_snd. unfold complete_reservation, accepts_results. wp_steps; try by apply good_same.
  cbn in *. bool_props. apply good_same; [by apply inv_attempts|done].
Qed.

(** *** Steps while no barrier is suspended *)

Definition quiescent (c : coordinator) : Prop := ∀ id b, barriers (loop c) !! id = Some b → finished b = true.

Definition neutral (e : entry) : Prop :=
  match e with Started _ | Released _ | Tracked _ _ => False | _ => True end.

Lemma log_note e c : neutral e → log (note e c) = e :: log c.
Proof. by destruct e. Qed.

Lemma covers_note e c s : neutral e → covers c s → covers (note e c) s.
Proof.
  intros He Hc t k. rewrite log_note by done. intros [<-|Hk]%elem_of_cons; [done|]. by apply (Hc t).
Qed.

Lemma note_grows e c : neutral e → grows c (note e c).
Proof.
  intros He. constructor; try done.
  - intros s. by apply covers_note.
  - intros x Hx. rewrite log_note by done. by right.
Qed.

Lemma inv_note e c : neutral e → inv c → inv (note e c).
Proof.
  intros He Hi. eapply grows_inv; [by apply note_grows|done|done|done|..]; cbn.
  - rewrite (i_open c Hi). by destruct e.
  - intros t Ht. by apply covers_note, Hi.
  - intros jid j Hj. destruct (i_joins c Hi jid j Hj) as (? & ? & Hx). split_and!; [done|by right|].
    intros Ha. destruct (Hx Ha). split; [done|by apply covers_note].
  - intros rid r Hr. destruct (i_recons c Hi rid r Hr) as (? & ? & Hx). split_and!; [done|by right|].
    intros Ha. destruct (Hx Ha) as [? Hl]. split; [done|]. intros Ho. rewrite log_note by done. right. auto.
Qed.

Lemma inv_state st c :
  inv c → quiescent c → is_Some (_active c) → st = CANCELLING ∨ st = SAFETY_BLOCKED → inv (set_state st c).
Proof.
  intros Hi Hq [t Ha] Hst. constructor; cbn; try apply Hi.
  - split; [intros ->; naive_solver|congruence].
  - intros t' ps Hp. destruct (i_proofs c Hi t' ps Hp) as (? & ? & ?). split_and!; [done|naive_solver|done].
  - intros id b Hb. split; [by eapply i_barriers|left; eauto].
  - intros jid j Hj. destruct (i_joins c Hi jid j Hj) as (? & ? & Hx). split_and!; [done..|].
    intros Hj'. destruct (Hx Hj'). split; [naive_solver|done].
Qed.

Lemma inv_cancelling f c : inv c → quiescent c → inv (set_cancelling f c).
Proof.
  intros Hi Hq. constructor; cbn; try apply Hi. intros id b Hb. split; [by eapply i_barriers|left; eauto].
Qed.

Lemma inv_next c : inv c → inv (set_next_task (next_task (loop c) + 1) c).
Proof.
  intros Hi. constructor; cbn; try apply Hi.
  - intros id b Hb. destruct (i_barriers c Hi id b Hb). split; [lia|done].
  - intros jid j Hj. destruct (i_joins c Hi jid j Hj) as (? & ? & ?). split_and!; cbn; [lia|done..].
  - intros rid r Hr. destruct (i_recons c Hi rid r Hr) as (? & ? & ?). split_and!; cbn; [lia|done..].
Qed.

Lemma inv_block t c record :
  inv c → quiescent c → _active c = Some t →
  inv (note (Blocked t) (on_health (record_safety_blocked record)
         (set_safety_blocked_record (Some record) (set_state SAFETY_BLOCKED c)))).
Proof.
  intros Hi Hq Ha. apply inv_note; [done|]. apply inv_health, inv_record, inv_state; [done|done|by eexists|by right].
Qed.

Lemma inv_release t c :
  inv c → quiescent c → _active c = Some t → inv (_release_turn t c).
Proof.
  intros Hi Hq Ha. constructor; cbn.
  - done.
  - done.
  - intros ? [=].
  - intros t' ps Hp. destruct (decide (t' = t)) as [->|Hne]; [by rewrite lookup_delete_eq in Hp|].
    rewrite lookup_delete_ne in Hp by done. apply Hi in Hp as [? _]. congruence.
  - intros id b Hb. split; [by eapply i_barriers|left; eauto].
  - intros jid j Hj. destruct (i_joins c Hi jid j Hj) as (? & ? & _). split_and!; [done|by right|]. by intros [=].
  - intros rid r Hr. destruct (i_recons c Hi rid r Hr) as (? & ? & _). split_and!; [done|by right|]. by intros [=].
Qed.

(** *** Opening a barrier *)

Lemma create_barrier_good t reason out now c :
  inv c → quiescent c → _active c = Some t → _state c = CANCELLING →
  wp (_create_barrier t reason out now) (λ _ c', inv c' ∧ _active c' = Some t)
    (λ _ c', inv c' ∧ _active c' = Some t) c.
Proof.
  intros Hi Hq Ha Hs. unfold wp, _create_barrier.
  assert (wp (_spawn_owned "outer_barrier" out)
    (λ id c', ∃ f, id = next_task (loop c) ∧ c' = set_next_task (next_task (loop c) + 1) (on_health f c))
    (λ _ c', ∃ f, c' = on_health f c) c) as Hw.
  { apply wp_spawn; eauto. }
  unfold wp in Hw. destruct (_spawn_owned _ out c) as [[id|e] c1].
  - destruct Hw as (f & -> & ->). split; [|done].
    apply inv_health with (f := f), inv_next in Hi. cbn in Hi. constructor; cbn; try apply Hi.
    intros id b [[<- <-]|[Hne Hb]]%lookup_insert_Some; cbn.
    + split; [lia|right]. split_and!; [done|done|apply lookup_insert_eq|done].
    + split; [by eapply Hi|left; by eapply Hq].
  - destruct Hw as [f ->]. cbn. split; [|done]. apply inv_note; [done|].
    apply inv_health, inv_restart, inv_record, inv_state; [by apply inv_health|done|by eexists|by right].
Qed.

Definition kept (c c' : coordinator) : Prop := inv c' ∧ _active c' = _active c.
Lemma kept_good c c' : kept c c' → good c c'.
Proof. intros [? ?]. by apply good_same. Qed.
Lemma wp_kept {A} (m : M coordinator exn A) c : wp m (λ _, kept c) (λ _, kept c) c → good c (m c).2.
Proof. intros Hw. by apply kept_good, wp_snd. Qed.

Lemma open_barrier_kept {A} t reason out now (k : task → M coordinator exn A) c0 c :
  inv c → _active c0 = Some t → _active c = Some t → _state c ≠ CANCELLING →
  (∀ id c', kept c0 c' → wp (k id) (λ _, kept c0) (λ _, kept c0) c') →
  wp (_ ← modify (set_state CANCELLING); id ← _create_barrier t reason out now; k id)
    (λ _, kept c0) (λ _, kept c0) c.
Proof.
  intros Hi Ha0 Ha Hs Hk. assert (quiescent c) as Hq by (intros id b; eauto using all_finished).
  wp_step. wp_step. wp_step.
  eapply wp_mono; [apply (create_barrier_good t reason out now)|..]; cbn; try done.
  - apply inv_state; [done..|by eexists|by left].
  - intros id c' [? ?]. apply Hk. split; congruence.
  - intros e c' [? ?]. split; congruence.
Qed.

Lemma finish_good t out now c : inv c → good c (finish t out now c).2.
Proof.
  intros Hi. apply wp_kept. unfold finish, accepts_results. wp_step. wp_step. wp_step; [by wp_steps|].
  cbn in *. bool_props. wp_step. wp_step; [|done].
  apply open_barrier_kept; [done|done|done|congruence|]. intros id c' ?. by wp_steps.
Qed.

Lemma cancel_good t reason out now c : inv c → good c (cancel t reason out now c).2.
Proof.
  intros Hi. apply wp_kept. unfold cancel, is_current. wp_step. wp_step. wp_step; [by wp_steps|].
  cbn in *. bool_props. wp_step. wp_step; [|done]. cbn beta.
  destruct (_cancelling c !! t); [by wp_steps|]. wp_step. wp_step; [|done].
  bool_props. apply open_barrier_kept; [done|done|done|congruence|]. intros id c' [? ?]. wp_steps.
  split; [by apply inv_cancel_started|done].
Qed.

Lemma recoverable t c (Q : unit → coordinator → Prop) R :
  (_active c = Some t → _state c = SAFETY_BLOCKED → _process_restart_required c = false → Q tt c) → (∀ e, R e c) →
  wp (require_recoverable t) Q R c.
Proof.
  intros HQ HR. unfold require_recoverable, is_current. wp_steps; [|done..]. cbn in *. bool_props. auto.
Qed.

Lemma recover_begin_good t c : inv c → good c (recover_begin t c).2.
Proof.
  intros Hi. apply wp_kept. unfold recover_begin. wp_step. apply recoverable; [|done].
  intros _ _ _. wp_steps; [|done]. split; [by apply inv_recovering|done].
Qed.

Lemma recover_end_good t proof out now c : inv c → good c (recover_end t proof out now c).2.
Proof.
  intros Hi. apply wp_kept. unfold recover_end. wp_step. wp_step. wp_step.
  set (c1 := set_recovering _ c). assert (inv c1) as Hi1 by by apply inv_recovering.
  wp_step; [|done]. wp_step. wp_step. wp_step.
  set (c2 := note _ c1). assert (inv c2) as Hi2 by by apply inv_note.
  apply recoverable; [|done]. intros Ha Hs _.
  pose proof (open_barrier_kept t "verified_owner_recovery" out now (λ id : task, mret id) c c2 Hi2 Ha Ha) as Hw.
  specialize (Hw ltac:(congruence) ltac:(done)). revert Hw. unfold wp, mbind, M_bind.
  cbn. by destruct (_create_barrier _ _ _ _ _) as [[?|?] ?].
Qed.

(** *** Moving and ending a barrier *)

Lemma inv_phase id b p c :
  inv c → barriers (loop c) !! id = Some b → finished b = false → phase_ok c id (b_turn b) p →
  inv (set_phase id b p c).
Proof.
  intros Hi Hb Hf Hp. destruct (live_barrier c id b Hi Hb Hf) as (Ha & Hs & Hc & _).
  constructor; cbn; try apply Hi. intros id' b' [[<- <-]|[Hne Hb']]%lookup_insert_Some.
  - split; [by eapply i_barriers|right]. split_and!; [done..|]. by destruct p.
  - split; [by eapply i_barriers|left]. eauto using others_finished.
Qed.

Lemma finish_phase id b r c :
  inv c → barriers (loop c) !! id = Some b → finished b = false →
  inv (set_phase id b (Finished r) c) ∧ quiescent (set_phase id b (Finished r) c).
Proof.
  intros Hi Hb Hf. split; [by apply inv_phase|].
  intros id' b'. cbn. intros [[<- <-]|[Hne Hb']]%lookup_insert_Some; [done|]. eauto using others_finished.
Qed.

(** The phase is the only thing the end of a barrier writes that the rest does not read. *)
Lemma end_barrier_eq id b codes r now c :
  end_barrier id b codes r now c =
  (match r with Ok _ => λ c, c | Raise e => on_health (record_barrier_exception e) end)
    (drop_cancelling (b_turn b) id
      ((if is_ok r then _release_turn (b_turn b) else _latch_barrier_failure (b_turn b) (b_reason b) codes now)
        (drop_cancelling (b_turn b) id (set_phase id b (Finished r) c)))).
Proof.
  unfold end_barrier, _observe_barrier_done, drop_cancelling.
  destruct r; cbn; repeat case_bool_decide; done.
Qed.

Lemma inv_drop t id c : inv c → quiescent c → inv (drop_cancelling t id c).
Proof. intros. unfold drop_cancelling. case_bool_decide; [by apply inv_cancelling|done]. Qed.
Lemma quiescent_drop t id c : quiescent c → quiescent (drop_cancelling t id c).
Proof. unfold drop_cancelling. by case_bool_decide. Qed.
Lemma active_drop t id c : _active (drop_cancelling t id c) = _active c.
Proof. unfold drop_cancelling. by case_bool_decide. Qed.

Lemma end_barrier_inv id b codes r now c :
  inv c → barriers (loop c) !! id = Some b → finished b = false →
  inv (end_barrier id b codes r now c) ∧
  _active (end_barrier id b codes r now c) = if is_ok r then None else _active c.
Proof.
  intros Hi Hb Hf. destruct (live_barrier c id b Hi Hb Hf) as (Ha & _).
  destruct (finish_phase id b r c Hi Hb Hf) as [Hi' Hq]. rewrite end_barrier_eq.
  set (c1 := set_phase id b (Finished r) c) in *. assert (_active c1 = Some (b_turn b)) as Ha1 by done.
  set (c2 := drop_cancelling (b_turn b) id c1). assert (inv c2) as Hi2 by by apply inv_drop.
  assert (quiescent c2) as Hq2 by by apply quiescent_drop.
  assert (_active c2 = Some (b_turn b)) as Ha2 by (unfold c2; by rewrite active_drop).
  destruct r as [[]|e]; cbn.
  - split; [by apply inv_drop; [apply inv_release|]|by rewrite active_drop].
  - split; [apply inv_health, inv_drop; [by apply inv_block|done]|].
    rewrite active_drop. cbn. congruence.
Qed.

Lemma end_barrier_kept c0 id b codes e now c :
  kept c0 c → barriers (loop c) !! id = Some b → finished b = false →
  kept c0 (end_barrier id b codes (Raise e) now c).
Proof.
  intros [Hi Ha] Hb Hf. destruct (end_barrier_inv id b codes (Raise e) now c Hi Hb Hf) as [? Ha'].
  split; [done|]. by rewrite Ha'.
Qed.

#[local] Opaque end_barrier.

(** *** Live reconciliations *)

Definition no_live (c : coordinator) (t : turn) : Prop :=
  ∀ rid r, recons (loop c) !! rid = Some r → rc_turn r = t → rc_outcome r ≠ None.

Lemma no_live_tracked t c :
  inv c → _active c = Some t →
  (∀ rid, rid ∈ default ∅ (_reconciliation_tasks c !! t) → is_live c rid = false) → no_live c t.
Proof.
  intros Hi Ha Hl rid r Hr Ht Ho. destruct (i_recons c Hi rid r Hr) as (_ & _ & Hx). rewrite Ht in Hx.
  destruct (Hx Ha) as [Hin _]. specialize (Hl rid (Hin Ho)). unfold is_live in Hl. rewrite Hr in Hl.
  by bool_props.
Qed.

Lemma live_tasks_spec t c :
  inv c → _active c = Some t →
  wp (_live_reconciliation_tasks t)
    (λ live c', (c' = c ∨ (live = ∅ ∧ c' = set_reconciliation_tasks (delete t (_reconciliation_tasks c)) c)) ∧
       (live = ∅ → no_live c t)) (λ _ _, False) c.
Proof.
  intros Hi Ha. unfold _live_reconciliation_tasks. wp_step. wp_step. cbn.
  destruct (_reconciliation_tasks c !! t) as [tracked|] eqn:Ht; cbn.
  2:{ wp_steps. split; [by left|]. intros _. apply no_live_tracked; [done..|]. rewrite Ht. cbn. set_solver. }
  case_bool_decide as He.
  { wp_steps. split; [by left|]. intros _. apply no_live_tracked; [done..|]. rewrite Ht. cbn. set_solver. }
  assert (filter (λ id, is_live c id = true) tracked = ∅ → no_live c t) as Hl.
  { intros Hf. apply no_live_tracked; [done..|]. rewrite Ht. cbn. intros rid Hin.
    destruct (is_live c rid) eqn:Hlive; [|done]. exfalso.
    assert (rid ∈ filter (λ id, is_live c id = true) tracked) as Hin' by (by apply elem_of_filter).
    rewrite Hf in Hin'. set_solver. }
  case_bool_decide; wp_steps; split; eauto.
Qed.

Lemma inv_forget t c : inv c → (_active c = Some t → no_live c t) →
  inv (set_reconciliation_tasks (delete t (_reconciliation_tasks c)) c).
Proof.
  intros Hi Hn. constructor; cbn; try apply Hi. intros rid r Hr.
  destruct (i_recons c Hi rid r Hr) as (? & ? & Hx). split_and!; [done..|]. cbn. intros Ha.
  destruct (Hx Ha) as [Hx1 Hx2]. split; [|done]. intros Ho.
  destruct (decide (rc_turn r = t)) as [Ht|Hne]; [|rewrite lookup_delete_ne by done; auto].
  exfalso. rewrite Ht in Ha. by apply (Hn Ha rid r).
Qed.

Lemma live_tasks_kept t c :
  inv c → _active c = Some t →
  wp (_live_reconciliation_tasks t)
    (λ live c', (∃ f, c' = set_reconciliation_tasks f c) ∧ inv c' ∧ (live = ∅ → no_live c t)) (λ _ _, False) c.
Proof.
  intros Hi Ha. eapply wp_mono; [by apply live_tasks_spec| |done]. cbn.
  intros live c' [[->|[-> ->]] Hl]; split_and!; eauto.
  - exists (_reconciliation_tasks c). by destruct c.
  - apply inv_forget; auto.
Qed.

Lemma conclude_good id b verified stubborn err codes now c :
  inv c → barriers (loop c) !! id = Some b → finished b = false → covers c stubborn →
  (verified = true → robot_stopped (b_turn b) id c) →
  (err = None → ∃ proofs, Reconciled (b_turn b) proofs ∈ log c ∧ pairs proofs = tracked_attempts (b_turn b) c) →
  good c (conclude id b verified stubborn err codes now c).2.
Proof.
  intros Hi Hb Hf Hc Hv He. destruct (live_barrier c id b Hi Hb Hf) as (Ha & _ & Hid & _).
  assert (∀ codes e, good c (end_barrier id b codes (Raise e) now c)) as Hraise
    by (intros; by apply kept_good, end_barrier_kept).
  apply wp_snd. unfold conclude, barrier_verdict.
  destruct verified; cbn [negb]; [|wp_steps; apply Hraise].
  case_bool_decide as Hst; cbn [negb]; [|wp_steps; apply Hraise].
  destruct err as [e|]; [destruct e; wp_steps; apply Hraise|]. wp_step. wp_step.
  eapply wp_mono; [by apply live_tasks_kept| |done]. cbn. intros live c' ([f ->] & Hi' & Hl). wp_steps.
  case_bool_decide as Hlive; simplify_eq; cbn.
  - destruct (end_barrier_inv id b l (Ok tt) now _ Hi' Hb Hf) as [Hi2 Ha2]. split; [done|].
    intros t Ht. right. split; [exact Ha2|]. assert (t = b_turn b) as -> by congruence. split_and!; [exists id; auto| |by auto|].
    + intros t' k Hk. destruct (Hc t' k Hk); [done|set_solver].
    + by apply Hl.
  - by apply kept_good, end_barrier_kept.
Qed.

(** *** Resuming a barrier *)

Lemma kept_trans c1 c2 c3 : kept c1 c2 → _active c3 = _active c2 → inv c3 → kept c1 c3.
Proof. intros [? ?] ? ?. split; congruence. Qed.

Lemma request_spec t reason clock c :
  inv c → _active c = Some t → _state c = CANCELLING →
  wp (_reconciliation_request t reason clock)
    (λ proofs c', ∃ f, c' = set_reconciliation_proofs f c ∧ inv c' ∧ pairs proofs = tracked_attempts t c)
    (λ _ c', ∃ f, c' = set_reconciliation_proofs f c ∧ inv c') c.
Proof.
  intros Hi Ha Hs. unfold _reconciliation_request. wp_step. wp_step. wp_step. cbn.
  destruct (_reconciliation_proofs c !! t) as [ps|] eqn:Hp.
  - assert (∃ f, c = set_reconciliation_proofs f c ∧ inv c) as (f & Hc & _)
      by (exists (_reconciliation_proofs c); by destruct c).
    wp_steps; exists f; split_and!; try done. by apply Hi in Hp as (_ & _ & ?).
  - wp_step. wp_step; [|exists (_reconciliation_proofs c); by destruct c].
    set (ps := map _ _). assert (pairs ps = tracked_attempts t c) as Hps.
    { unfold pairs, ps. rewrite map_map. cbn. apply set_eq. intros x.
      rewrite elem_of_list_to_set, list_elem_of_fmap.
      setoid_rewrite (merge_sort_Permutation pair_le). setoid_rewrite elem_of_elements. split.
      - intros (y & -> & Hy). by destruct y.
      - intros Hx. exists x. by destruct x. }
    assert (inv (set_reconciliation_proofs (<[t:=ps]> (_reconciliation_proofs c)) c)).
    { constructor; cbn; try apply Hi. intros t' ps' [[<- <-]|[_ Hp']]%lookup_insert_Some; [|by apply Hi].
      split_and!; [done|congruence|done]. }
    wp_steps; eexists; split_and!; done.
Qed.

Lemma spawn_spec role out c :
  inv c →
  wp (_spawn_owned role out)
    (λ id c', ∃ f, id = next_task (loop c) ∧ c' = set_next_task (next_task (loop c) + 1) (on_health f c) ∧ inv c')
    (λ _ c', ∃ f, c' = on_health f c ∧ inv c') c.
Proof.
  intros Hi. apply wp_spawn.
  - intros f. exists f. split_and!; [done..|]. by apply (inv_next (on_health f c)), inv_health.
  - intros f e. exists f. split; [done|by apply inv_health].
Qed.

(** What a barrier's own statements leave alone between two of its suspensions. *)
Definition calm (c c' : coordinator) : Prop :=
  (_active c', _state c', _attempts c', journal c') = (_active c, _state c, _attempts c, journal c) ∧
  (barriers (loop c'), done_tasks (loop c'), joins (loop c')) = (barriers (loop c), done_tasks (loop c), joins (loop c)).

Lemma calm_covers c c' s : calm c c' → covers c s → covers c' s.
Proof. intros [[= _ _ _ Hj] [= _ Hd _]] Hc t k. unfold log. rewrite Hj, Hd. apply Hc. Qed.

Lemma open_turn_started j t : open_turn j = Some t → Started t ∈ j.
Proof.
  induction j as [|e j IH]; [done|]. destruct e; cbn; try (intros; by right; auto).
  intros [= ->]. by left.
Qed.

Lemma begin_reconciliation_spec t reason clock out c :
  inv c → _active c = Some t → _state c = CANCELLING →
  wp (begin_reconciliation t reason clock out)
    (λ rid c', inv c' ∧ calm c c' ∧ recon_ok c' t (Some rid) None) (λ _ c', inv c' ∧ calm c c') c.
Proof.
  intros Hi Ha Hs. unfold begin_reconciliation. wp_step.
  eapply wp_mono; [by apply request_spec| |by intros e c' (f & -> & ?)].
  intros ps c1 (f & -> & Hi1 & Hps). wp_step. eapply wp_mono; [by apply spawn_spec| |by intros e c' (g & -> & ?)].
  intros rid c2 (g & -> & -> & Hi2). wp_steps. split_and!; [|done|].
  - assert (Started t ∈ journal c) as Hst by (apply open_turn_started; by rewrite <- (i_open c Hi)).
    eapply grows_inv with (c := set_next_task (next_task (loop c) + 1) (on_health g (set_reconciliation_proofs f c)));
      cbn; try done; try apply Hi2.
    + constructor; cbn; try done. intros rid t' ps' [o Hr]. exists o. cbn in *. rewrite lookup_insert_ne; [done|].
      destruct (i_recons _ Hi1 _ _ Hr) as [? _]. cbn in *. lia.
    + intros rid r [[<- <-]|[Hne Hr]]%lookup_insert_Some; unfold reconciliation_ok; cbn.
      * split_and!; [lia|done|]. intros _. split; [|done]. intros _. rewrite lookup_insert_eq. cbn. set_solver.
      * destruct (i_recons _ Hi2 _ _ Hr) as (? & ? & Hx). cbn in *. split_and!; [done..|]. intros Hr'.
        destruct (Hx Hr') as [Hx1 Hx2]. split; [|done]. intros Ho. specialize (Hx1 Ho).
        destruct (decide (rc_turn r = t)) as [->|]; [rewrite lookup_insert_eq; cbn; set_solver|].
        by rewrite lookup_insert_ne.
  - exists ps. split; [|done]. exists None. cbn. by rewrite lookup_insert_eq.
Qed.

Lemma phase_kept c0 id b p c :
  kept c0 c → barriers (loop c) !! id = Some b → finished b = false → phase_ok c id (b_turn b) p →
  kept c0 (set_phase id b p c).
Proof. intros [Hi Ha] Hb Hf Hp. split; [by apply inv_phase|done]. Qed.

Lemma run_first_kept id b safety now c :
  inv c → barriers (loop c) !! id = Some b → finished b = false → kept c (run_first id b safety now c).2.
Proof.
  intros Hi Hb Hf. unfold run_first. pose proof (spawn_spec "reachy_safety" safety c Hi) as Hw. unfold wp in Hw.
  destruct (live_barrier c id b Hi Hb Hf) as (Ha & _).
  destruct (_spawn_owned _ safety c) as [[sid|e] c1].
  - destruct Hw as (f & _ & -> & Hi1). cbn. apply phase_kept; [done..|]. by apply (i_tasks c Hi).
  - destruct Hw as (f & -> & Hi1). cbn. apply end_barrier_kept; [|done..]. split; [by apply inv_restart|done].
Qed.

Lemma run_started_kept id b tasks join_out clock out now c :
  inv c → barriers (loop c) !! id = Some b → finished b = false → covers c tasks →
  kept c (run_started id b tasks join_out clock out now c).2.
Proof.
  intros Hi Hb Hf Hc. unfold run_started. pose proof (spawn_spec "tracked_task_join" join_out c Hi) as Hw. unfold wp in Hw.
  destruct (live_barrier c id b Hi Hb Hf) as (Ha & Hs & _).
  destruct (_spawn_owned _ join_out c) as [[jid|e] c1].
  2:{ destruct Hw as (f & -> & Hi1). cbn. by apply end_barrier_kept. }
  destruct Hw as (f & -> & -> & Hi1). apply wp_snd. wp_step. wp_step.
  set (c2 := set_joins _ _).
  assert (inv c2) as Hi2.
  { eapply grows_inv with (c := set_next_task (next_task (loop c) + 1) (on_health f c)); cbn; try done; try apply Hi1.
    - constructor; cbn; try done. intros jid t' [j [Hj Ht]]. exists j. cbn in *. rewrite lookup_insert_ne; [done|].
      destruct (i_joins _ Hi _ _ Hj) as [? _]. lia.
    - intros jid j [[<- <-]|[Hne Hj]]%lookup_insert_Some; [|by apply Hi1]. unfold join_ok. cbn.
      split_and!; [lia| |]. { apply open_turn_started. by rewrite <- (i_open c Hi). }
      intros _. split; [congruence|done]. }
  assert (join_of c2 (next_task (loop c)) (b_turn b)) as Hj.
  { eexists. cbn. by rewrite lookup_insert_eq. }
  wp_step. eapply wp_mono; [by apply live_tasks_kept| |done]. cbn. intros live c3 ([g ->] & Hi3 & _).
  destruct (bool_decide (live = ∅)); cbn [negb].
  2:{ wp_steps. apply phase_kept; [done..|]. split_and!; [done|done|by eexists]. }
  unfold wp. set (c3 := set_reconciliation_tasks g c2) in *.
  assert (_active c3 = Some (b_turn b)) as Ha3 by exact Ha. assert (_state c3 = CANCELLING) as Hs3 by exact Hs.
  pose proof (begin_reconciliation_spec (b_turn b) (b_reason b) clock out c3 Hi3 Ha3 Hs3) as Hw. unfold wp in Hw.
  destruct (begin_reconciliation _ _ _ _ c3) as [[rid|e] c4].
  - destruct Hw as (Hi4 & Hcalm & Hr). cbn. destruct (Hcalm) as [[= Ha4 _ _ _] [= Hb4 _ Hj4]].
    apply phase_kept; [split; [done|by rewrite Ha4]|by rewrite Hb4|done|].
    split_and!; [by apply (calm_covers c3)| |done]. unfold join_of. by rewrite Hj4.
  - destruct Hw as (Hi4 & Hcalm). cbn. destruct (Hcalm) as [[= Ha4 _ _ _] [= Hb4 _ Hj4]].
    apply phase_kept; [split; [done|by rewrite Ha4]|by rewrite Hb4|done|].
    split_and!; [by apply (calm_covers c3)| |by eexists]. unfold join_of. by rewrite Hj4.
Qed.

Lemma after_join_good id b stubborn rid err verified codes now c :
  inv c → barriers (loop c) !! id = Some b → finished b = false → covers c stubborn →
  recon_ok c (b_turn b) rid err → (verified = true → robot_stopped (b_turn b) id c) →
  good c (after_join id b stubborn rid err verified codes now c).2.
Proof.
  intros Hi Hb Hf Hc Hr Hv. unfold after_join. destruct rid as [rid|].
  - cbn. apply kept_good, phase_kept; [done..|]. by split_and!.
  - apply conclude_good; try done. destruct Hr as [e ->]. done.
Qed.

(** A barrier cancelled before its first statement only disappears. *)
Lemma killed_kept id b e c :
  inv c → barriers (loop c) !! id = Some b → finished b = false → kept c (_observe_barrier_done id b (Raise e) c).
Proof.
  intros Hi Hb Hf. destruct (finish_phase id b (Raise e) c Hi Hb Hf) as [Hi' Hq].
  replace (_observe_barrier_done id b (Raise e) c) with
    (on_health (record_barrier_exception e) (drop_cancelling (b_turn b) id (set_phase id b (Finished (Raise e)) c)))
    by (unfold _observe_barrier_done, drop_cancelling; cbn; by case_bool_decide).
  split; [by apply inv_health, inv_drop|]. cbn. by rewrite active_drop.
Qed.

Lemma barrier_good id w now c : inv c → good c (_run_cancellation_barrier id w now c).2.
Proof.
  intros Hi. unfold _run_cancellation_barrier. cbn. unfold mbind, M_bind. cbn.
  assert (good c c) as Hrefl by by apply good_same.
  destruct (barriers (loop c) !! id) as [b|] eqn:Hb; [|done]. destruct (finished b) eqn:Hf.
  { unfold finished in Hf. by destruct (b_phase b). }
  destruct (live_barrier c id b Hi Hb Hf) as (Ha & Hs & Hid & Hp).
  destruct (b_phase b) as [|tasks| |tasks jid rid err|tasks jid rid err verified codes|stubborn rid verified codes|] eqn:Hph;
    destruct w as [safety|started join_out clock out|outs| | | |]; try exact Hrefl.
  - by apply kept_good, run_first_kept.
  - by apply kept_good, killed_kept.
  - destruct started; [by apply kept_good, run_started_kept|]. cbn.
    apply kept_good, phase_kept; [split; [by apply inv_restart|done]|done..].
  - by apply kept_good, end_barrier_kept.
  - by apply kept_good, end_barrier_kept.
  - by apply kept_good, end_barrier_kept.
  - destruct Hp as (Hc & Hj & Hr).
    assert (inv (note (RobotAnswered id outs) c)) as Hi1 by by apply inv_note.
    assert (grows c (note (RobotAnswered id outs) c)) as Hg by by apply note_grows.
    assert (phase_ok (note (RobotAnswered id outs) c) id (b_turn b) (AwaitSafety tasks jid rid err)) as (Hc1 & Hj1 & Hr1)
      by by apply (grows_phase c).
    destruct (_retry_reachy_safety _ _ outs) as [[[verified failures]|e]|] eqn:Hv; cbn; try exact Hrefl.
    + apply kept_good, phase_kept; [done..|]. split_and!; [done..|]. intros ->.
      destruct (retry_verified _ _ _ _ _ _ Hv) as (r & Hin & Hfields). exists outs, r. split; [by left|done].
    + apply kept_good, phase_kept; [done..|]. by split_and!.
  - destruct Hp as (Hc & Hj & Hr). cbn. apply kept_good, phase_kept; [done..|]. by split_and!.
  - destruct Hp as (Hc & (j & Hj & Ht) & Hr & Hv). rewrite Hj. destruct j as [|t pending]; [exact Hrefl|].
    destruct (i_joins c Hi jid _ Hj) as (_ & _ & Hx). cbn in *. subst t. destruct (Hx Ha) as [_ Hcov].
    by apply after_join_good.
  - destruct Hp as (Hc & Hj & Hr & Hv). by apply after_join_good.
  - destruct Hp as (Hc & (ps & [o Hr] & Hps) & Hv). rewrite Hr. destruct o as [[[]|e]|]; [| |exact Hrefl].
    + apply conclude_good; try done. intros _. exists ps. split; [|done].
      destruct (i_recons c Hi rid _ Hr) as (_ & _ & Hx). by apply (Hx Ha).
    + by apply conclude_good.
  - destruct Hp as (Hc & _ & Hv). destruct (is_live c rid); [by apply conclude_good|exact Hrefl].
  - by apply kept_good, end_barrier_kept.
Qed.

(** *** The other tasks of the loop *)

Lemma covers_done k c s : covers c s → covers (set_done_tasks ({[k]} ∪ done_tasks (loop c)) c) s.
Proof. intros Hc t k' Hk. destruct (Hc t k' Hk); [left; cbn; set_solver|by right]. Qed.

Lemma task_done_good k c : inv c → good c (set_done_tasks ({[k]} ∪ done_tasks (loop c)) c).
Proof.
  intros Hi. apply good_same; [|done]. eapply grows_inv; [|exact Hi|..]; cbn; try done; try apply Hi.
  - constructor; try done. intros s. apply covers_done.
  - intros t Ht. by apply covers_done, Hi.
  - intros jid j Hj. destruct (i_joins c Hi jid j Hj) as (? & ? & Hx). split_and!; [done..|].
    intros Ha. destruct (Hx Ha). split; [done|by apply covers_done].
Qed.

Lemma join_good jid timed_out c : inv c → good c (_join_tracked jid timed_out c).2.
Proof.
  intros Hi. apply wp_kept. unfold _join_tracked. wp_step. wp_step. cbn.
  destruct (joins (loop c) !! jid) as [[t tasks|]|] eqn:Hj; try by wp_steps.
  destruct (_ || timed_out); [|by wp_steps]. wp_steps. split; [|done].
  destruct (i_joins c Hi jid _ Hj) as (? & ? & Hx). cbn in *.
  assert (_active c = Some t → covers c (tasks ∖ done_tasks (loop c))) as Hcov.
  { intros Ha t' k Hk. destruct (Hx Ha) as [_ Hc]. destruct (Hc t' k Hk); [by left|].
    destruct (decide (k ∈ done_tasks (loop c))); [by left|right; set_solver]. }
  eapply grows_inv; [|exact Hi|..]; cbn; try done; try apply Hi.
  - constructor; try done. intros jid' t' (j & Hj' & Ht'). destruct (decide (jid' = jid)) as [->|].
    + eexists. cbn. rewrite lookup_insert_eq. split; [done|]. cbn. by simplify_eq.
    + exists j. cbn. by rewrite lookup_insert_ne.
  - intros t' Ht'. destruct (decide (t' = t)) as [->|].
    + case_bool_decide as He; rewrite ?lookup_delete_eq, ?lookup_insert_eq; cbn; [rewrite <- He|]; by apply Hcov.
    + case_bool_decide; rewrite ?lookup_delete_ne, ?lookup_insert_ne by done; by apply (i_tasks c Hi).
  - intros jid' j [[<- <-]|[Hne Hj']]%lookup_insert_Some; [|by apply (i_joins c Hi)]. split_and!; [done..|].
    cbn. intros Ha. destruct (Hx Ha). split; [done|by apply Hcov].
Qed.

Lemma inv_recon_tasks f c :
  inv c →
  (∀ rid r, recons (loop c) !! rid = Some r → rc_outcome r = None →
    rid ∈ default ∅ (_reconciliation_tasks c !! rc_turn r) → rid ∈ default ∅ (f !! rc_turn r)) →
  inv (set_reconciliation_tasks f c).
Proof.
  intros Hi Hf. constructor; cbn; try apply Hi. intros rid r Hr.
  destruct (i_recons c Hi rid r Hr) as (? & ? & Hx). split_and!; [done..|]. cbn. intros Ha.
  destruct (Hx Ha) as [Hx1 Hx2]. split; [|done]. eauto.
Qed.

Lemma inv_recon_done rid t ps r c :
  inv c → recons (loop c) !! rid = Some (mkRecon t ps None) → (r = Ok tt → _active c = Some t → Reconciled t ps ∈ log c) →
  inv (set_recons (<[rid := mkRecon t ps (Some r)]> (recons (loop c))) c).
Proof.
  intros Hi Hr Hl. eapply grows_inv; [|exact Hi|..]; cbn; try done; try apply Hi.
  - constructor; try done. intros rid' t' ps' [o Ho]. destruct (decide (rid' = rid)) as [->|].
    + eexists. cbn. rewrite lookup_insert_eq. by simplify_eq.
    + exists o. cbn. by rewrite lookup_insert_ne.
  - intros rid' r' [[<- <-]|[Hne Hr']]%lookup_insert_Some; [|by apply (i_recons c Hi)].
    destruct (i_recons c Hi rid _ Hr) as (? & ? & _). split_and!; [done..|]. cbn. intros Ha.
    split; [done|]. intros [= ->]. by apply Hl.
Qed.

(** A reconciliation that ends leaves its turn's tracked set, and a success its journal entry. *)
Lemma end_reconciliation_good rid r c : inv c → good c (end_reconciliation rid r c).
Proof.
  intros Hi. unfold end_reconciliation.
  destruct (recons (loop c) !! rid) as [[t ps [o|]]|] eqn:Hr; try by apply good_same. cbn zeta.
  set (c1 := if is_ok r then note (Reconciled t ps) c else c).
  assert (inv c1 ∧ recons (loop c1) = recons (loop c) ∧ _active c1 = _active c) as (Hi1 & Hr1 & Ha1).
  { unfold c1. destruct (is_ok r); [|done]. split; [by apply inv_note|done]. }
  apply good_same; [|by rewrite <- Ha1]. apply inv_recon_tasks.
  { apply inv_recon_done; [done|by rewrite Hr1|]. intros -> _. by left. }
  cbn. intros rid' r' [[<- <-]|[Hne Hr']]%lookup_insert_Some; [done|]. intros _. unfold discard.
  destruct (decide (rc_turn r' = t)) as [->|Ht].
  - destruct (_ !! t) as [tracked|]; [|done]. cbn. intros Hin.
    case_bool_decide; rewrite ?lookup_delete_eq, ?lookup_insert_eq; cbn; set_solver.
  - destruct (_ !! t) as [tracked|]; [|done].
    by case_bool_decide; rewrite ?lookup_delete_ne, ?lookup_insert_ne by done.
Qed.

(** ** Every step *)

Definition fresh_start (e : event) (c : coordinator) : Prop :=
  match e with EStart t => Started t ∉ journal c | _ => True end.

Lemma step_good e c : inv c → fresh_start e c → good c (step e c).
Proof.
  intros Hi Hf. destruct e; cbn [step].
  - by apply start_good.
  - by apply track_task_good.
  - by apply untrack_task_good.
  - by apply track_reservation_good.
  - by apply complete_reservation_good.
  - by apply finish_good.
  - by apply cancel_good.
  - by apply recover_begin_good.
  - case_bool_decide; [by apply recover_end_good|by apply good_same].
  - by apply task_done_good.
  - apply good_same; [|by destruct r as [|[]]]. destruct r as [|[]]; try done; by apply inv_health.
  - by apply join_good.
  - by apply end_reconciliation_good.
  - by apply barrier_good.
Qed.

(** Coordinators that can be reached; a turn's id is never used twice. *)
Inductive reachable : coordinator → Prop :=
| reach_new health owner_recovery limit attempt join_ reconciliation_ c :
    make_coordinator health owner_recovery limit attempt join_ reconciliation_ = Ok c → reachable c
| reach_step c e : reachable c → fresh_start e c → reachable (step e c).

Lemma make_coordinator_inv health owner limit t1 t2 t3 c :
  make_coordinator health owner limit t1 t2 t3 = Ok c → inv c.
Proof.
  unfold make_coordinator. intros H.
  repeat match goal with H : _ ≫= _ = Ok _ |- _ => apply rbind_Ok in H as (? & _ & H) end.
  injection H as <-. by constructor.
Qed.

Lemma make_coordinator_new health owner limit t1 t2 t3 c :
  make_coordinator health owner limit t1 t2 t3 = Ok c → journal c = [].
Proof.
  unfold make_coordinator. intros H.
  repeat match goal with H : _ ≫= _ = Ok _ |- _ => apply rbind_Ok in H as (? & _ & H) end.
  by injection H as <-.
Qed.

Lemma reachable_inv c : reachable c → inv c.
Proof. induction 1; [by eapply make_coordinator_inv|]. by apply step_good. Qed.

(** C3: a turn is released only after its barrier verified everything: in that barrier the
    robot returned a receipt for this turn with playback, motion and buffers all stopped;
    every task tracked for the turn is done; the budget reconciled exactly the attempts still
    tracked; and no reconciliation of the turn still runs.  No step passes the household from
    one turn to another. *)
Theorem turn_release_verified c e t :
  reachable c → fresh_start e c → _active c = Some t → _active (step e c) ≠ Some t →
  _active (step e c) = None ∧ released_ok c t.
Proof.
  intros Hr Hf Ha Hn. destruct (step_good e c (reachable_inv c Hr) Hf) as [_ Hg].
  by destruct (Hg t Ha).
Qed.

(** ** The safety block *)

Definition blocked (t : turn) (c : coordinator) : Prop :=
  _state c = SAFETY_BLOCKED ∧ _active c = Some t ∧ quiescent c.

Definition recovers (t : turn) (e : event) : bool :=
  match e with ERecoverEnd t' (Ok _) _ _ => t' =? t | _ => false end.

Definition still (c c' : coordinator) : Prop :=
  (_state c', _active c', _process_restart_required c', barriers (loop c')) =
  (_state c, _active c, _process_restart_required c, barriers (loop c)).

Lemma recover_end_still t t' proof out now c :
  blocked t c → _process_restart_required c = true ∨ recovers t (ERecoverEnd t' proof out now) = false →
  still c (recover_end t' proof out now c).2.
Proof.
  intros (Hs & Ha & _) Hr. apply wp_snd. unfold recover_end. wp_step. wp_step. wp_step. wp_step; [|done].
  wp_step. wp_step. wp_step. apply recoverable; [|done]. cbn. intros Ha' _ Hp.
  destruct Hr as [Hr|Hr]; [congruence|]. subst proof. destruct a. cbn in Hr. bool_props. congruence.
Qed.

Lemma finished_still id w now c : quiescent c → (_run_cancellation_barrier id w now c).2 = c.
Proof.
  intros Hq. unfold _run_cancellation_barrier. cbn. unfold mbind, M_bind. cbn.
  destruct (barriers (loop c) !! id) as [b|] eqn:Hb; [|done]. apply Hq in Hb. unfold finished in Hb.
  by destruct (b_phase b).
Qed.

Lemma blocked_step t c e :
  blocked t c → _process_restart_required c = true ∨ recovers t e = false → still c (step e c).
Proof.
  intros Hb Hr. pose proof Hb as (Hs & Ha & Hq). destruct e; cbn [step].
  - apply wp_snd. unfold start. wp_steps; cbn in *; bool_props; done.
  - apply wp_snd. unfold track_task. wp_step. apply registration_open; [congruence|done].
  - apply wp_snd. unfold untrack_task. by wp_steps.
  - apply wp_snd. unfold track_reservation. wp_step. apply registration_open; [congruence|done].
  - apply wp_snd. unfold complete_reservation, accepts_results. wp_steps; cbn in *; bool_props; done.
  - apply wp_snd. unfold finish, accepts_results. wp_step. wp_step. rewrite (bool_decide_eq_false_2 (_state _ = _)), andb_false_r; [by wp_steps|].
    cbn. congruence.
  - apply wp_snd. unfold cancel. wp_step. wp_step. wp_step; [by wp_steps|]. wp_step. wp_step; [|done]. bool_props. done.
  - apply wp_snd. unfold recover_begin. wp_step. apply recoverable; [|done]. intros _ _ _. by wp_steps.
  - case_bool_decide; [by eapply recover_end_still|done].
  - done.
  - by destruct r as [|[]].
  - apply wp_snd. unfold _join_tracked. wp_step. wp_step. cbn. by repeat case_match; wp_steps.
  - unfold end_reconciliation. repeat case_match; done.
  - by rewrite finished_still.
Qed.

Lemma blocked_run t es c :
  blocked t c → _process_restart_required c = true ∨ Forall (λ e, recovers t e = false) es → still c (run es c).
Proof.
  revert c. induction es as [|e es IH]; intros c Hb Hr; [done|]. cbn [run foldl].
  assert (still c (step e c)) as Hs.
  { apply blocked_step with (t := t); [done|]. destruct Hr as [?|Hr]; [by left|right]. by inversion Hr. }
  destruct Hb as (? & ? & Hq). pose proof Hs as [= H1 H2 H3 H4].
  transitivity (_state (step e c), _active (step e c), _process_restart_required (step e c), barriers (loop (step e c))).
  - apply IH; [split_and!; [congruence|congruence|by unfold quiescent; rewrite H4]|].
    destruct Hr as [?|Hr]; [left; congruence|right]. by inversion Hr.
  - done.
Qed.

(** C17: once a barrier failed, the coordinator stays blocked on that turn: whatever is called
    and whatever ends afterwards, no turn starts, finishes or is cancelled, no task and no
    reservation is registered for any turn and none is completed, unless a recovery of that turn
    passed the owner's verification; and where the process must restart, not even then. *)
Theorem safety_block_latched c t es :
  reachable c → _state c = SAFETY_BLOCKED → _active c = Some t →
  _process_restart_required c = true ∨ Forall (λ e, recovers t e = false) es →
  let c' := run es c in
  _state c' = SAFETY_BLOCKED ∧ _active c' = Some t ∧
  (∀ t', (start t' c').1 = Raise (RuntimeError "household safety blocked; owner recovery required")) ∧
  (∀ t' out now, (finish t' out now c').1 = Ok None) ∧
  (∀ reason out now, (cancel t reason out now c').1 =
     Raise (SafetyBlockedError "turn_safety_blocked:owner_recovery_required")) ∧
  (∀ t' k, ∃ x, track_task t' k c' = (Raise (RuntimeError x), c')) ∧
  (∀ t' r a, ∃ x, track_reservation t' r a c' = (Raise (RuntimeError x), c')) ∧
  (∀ t' r a, complete_reservation t' r a c' = (Raise (RuntimeError "stale turn"), c')).
Proof.
  intros Hc Hs Ha Hr. apply reachable_inv in Hc as Hi.
  assert (blocked t c) as Hb.
  { split_and!; [done..|]. intros id b Hb. eapply all_finished; [done| |done]. congruence. }
  pose proof (blocked_run t es c Hb Hr) as [= Hs' Ha' _ _]. cbn. rewrite Hs in Hs'. rewrite Ha in Ha'.
  assert (∀ t', ∃ x, _require_registration_open t' (run es c) = (Raise (RuntimeError x), run es c)) as Hreg.
  { intros t'. unfold _require_registration_open, raise_if, mbind, M_bind. cbn. rewrite Hs'. cbn.
    destruct (is_current t' (run es c)); by eexists. }
  split_and!; [done..| | | | | |].
  - intros t'. unfold start, raise_if, mbind, M_bind. cbn. by rewrite Hs'.
  - intros t' out now. unfold finish, accepts_results, mbind, M_bind. cbn. rewrite Hs'. cbn.
    by rewrite andb_false_r.
  - intros reason out now. unfold cancel, is_current, raise_if, mbind, M_bind. cbn.
    rewrite Ha'. rewrite bool_decide_true by done. cbn. by rewrite Hs'.
  - intros t' k. destruct (Hreg t') as [x Hx]. exists x. unfold track_task, mbind, M_bind. by rewrite Hx.
  - intros t' r a. destruct (Hreg t') as [x Hx]. exists x. unfold track_reservation, mbind, M_bind. by rewrite Hx.
  - intros t' r a. unfold complete_reservation, accepts_results, raise_if, mbind, M_bind. cbn. rewrite Hs'. cbn.
    by rewrite andb_false_r.
Qed.

(** ** Barriers end *)

Definition phase_rank (p : phase) : nat :=
  match p with
  | Spawned => 5
  | AwaitStart _ => 4
  | AwaitUnstarted | AwaitSafety _ _ _ _ => 3
  | AwaitJoin _ _ _ _ _ _ => 2
  | AwaitReconciliation _ _ _ _ => 1
  | Finished _ => 0
  end.

(** The barrier [id] of [c'] is past [n]; when it has ended the coordinator is idle or blocked. *)
Definition past (n : nat) (id : task) (c' : coordinator) : Prop :=
  ∃ b, barriers (loop c') !! id = Some b ∧ (phase_rank (b_phase b) < n)%nat ∧
  (finished b = true → _state c' = IDLE ∨ _state c' = SAFETY_BLOCKED).

Lemma barriers_drop t id c : barriers (loop (drop_cancelling t id c)) = barriers (loop c).
Proof. unfold drop_cancelling. by case_bool_decide. Qed.
Lemma state_drop t id c : _state (drop_cancelling t id c) = _state c.
Proof. unfold drop_cancelling. by case_bool_decide. Qed.

Lemma end_barrier_past n id b codes r now c : (0 < n)%nat → past n id (end_barrier id b codes r now c).
Proof.
  intros Hn. rewrite end_barrier_eq. set (c1 := drop_cancelling _ _ (set_phase _ _ _ _)).
  assert (barriers (loop c1) !! id = Some (mkBarrier (b_turn b) (b_reason b) (Finished r))) as Hb.
  { unfold c1. rewrite barriers_drop. apply lookup_insert_eq. }
  clearbody c1. eexists. destruct r; cbn [is_ok].
  - rewrite barriers_drop, state_drop. split_and!; [exact Hb|done|by left].
  - split_and!; [|done|intros _; right].
    + change (barriers (loop (drop_cancelling (b_turn b) id (_latch_barrier_failure (b_turn b) (b_reason b) codes now c1)))
        !! id = Some (mkBarrier (b_turn b) (b_reason b) (Finished (Raise e)))). by rewrite barriers_drop.
    + change (_state (drop_cancelling (b_turn b) id (_latch_barrier_failure (b_turn b) (b_reason b) codes now c1)) = SAFETY_BLOCKED).
      by rewrite state_drop.
Qed.

Lemma set_phase_past n id b p c :
  (phase_rank p < n)%nat → (∀ r, p ≠ Finished r) → past n id (set_phase id b p c).
Proof.
  intros Hn Hp. eexists. cbn. rewrite lookup_insert_eq. split_and!; [done|done|].
  unfold finished. cbn. destruct p; try done. by destruct (Hp outcome).
Qed.

Lemma verdict_returns t verified stubborn err codes c :
  wp (barrier_verdict t verified stubborn err codes) (λ _ _, True) (λ _ _, False) c.
Proof.
  unfold barrier_verdict. destruct verified; [|by wp_steps]. cbn [negb]. case_bool_decide; [|by wp_steps]. cbn [negb].
  destruct err; [by wp_steps|]. wp_step. unfold _live_reconciliation_tasks. by wp_steps.
Qed.

Lemma conclude_past n id b verified stubborn err codes now c :
  (0 < n)%nat → past n id (conclude id b verified stubborn err codes now c).2.
Proof.
  intros Hn. apply wp_snd. unfold conclude. wp_step.
  eapply wp_mono; [apply verdict_returns| |done]. intros [codes' r] c' _. wp_steps. by apply end_barrier_past.
Qed.

(** The wakes a suspended barrier waits for. *)
Definition waits_for (c : coordinator) (b : barrier) (w : wake) : bool :=
  match b_phase b, w with
  | Spawned, WRun _ => true
  | AwaitStart _, (WStarted _ _ _ _ | WCancelled) => true
  | AwaitUnstarted, (WSafety _ | WCancelled) => true
  | AwaitSafety _ _ _ _, WSafety outs =>
    bool_decide (is_Some (_retry_reachy_safety (b_turn b) (safety_retry_limit c) outs))
  | AwaitSafety _ _ _ _, WCancelled => true
  | AwaitJoin _ jid _ _ _ _, WJoin => match joins (loop c) !! jid with Some (Joined _ _) => true | _ => false end
  | AwaitJoin _ _ _ _ _ _, WCancelled => true
  | AwaitReconciliation _ rid _ _, WReconciled =>
    match recons (loop c) !! rid with Some (mkRecon _ _ (Some _)) => true | _ => false end
  | AwaitReconciliation _ rid _ _, WTimeout => is_live c rid
  | AwaitReconciliation _ _ _ _, WCancelled => true
  | _, _ => false
  end.

(** Such a wake moves the barrier on; any other is ignored, but that a barrier can be
    cancelled before it ran. *)
Lemma wake_past id b w now c :
  barriers (loop c) !! id = Some b →
  let c' := step (EBarrier id w now) c in
  if waits_for c b w then past (phase_rank (b_phase b)) id c' else c' = c ∨ (b_phase b = Spawned ∧ w = WCancelled).
Proof.
  intros Hb. cbn [step]. unfold _run_cancellation_barrier, waits_for. cbn. unfold mbind, M_bind. cbn. rewrite Hb.
  destruct (b_phase b) as [|tasks| |tasks jid rid err|tasks jid rid err verified codes|stubborn rid verified codes|] eqn:Hph;
    destruct w as [safety|started join_out clock out|outs| | | |];
    try (lazymatch goal with |- (mret tt c).2 = c ∨ _ => left; reflexivity end).
  - unfold run_first.
    destruct (_spawn_owned _ _ c) as [[?|?] ?]; [(apply set_phase_past; [cbn; lia|done])|apply end_barrier_past; cbn; lia].
  - by right.
  - destruct started; [|(apply set_phase_past; [cbn; lia|done])]. unfold run_started.
    destruct (_spawn_owned _ _ c) as [[?|?] c1]; [|apply end_barrier_past; cbn; lia]. apply wp_snd. wp_step. wp_step. wp_step.
    assert (∀ c, wp (_live_reconciliation_tasks (b_turn b)) (λ _ _, True) (λ _ _, False) c) as Hl
      by (intros; unfold _live_reconciliation_tasks; by wp_steps).
    eapply wp_mono; [apply Hl| |done]. intros live c2 _.
    destruct (negb _); [wp_steps; (apply set_phase_past; [cbn; lia|done])|].
    unfold wp. destruct (begin_reconciliation _ _ _ _ c2) as [[?|?] ?]; (apply set_phase_past; [cbn; lia|done]).
  - apply end_barrier_past; cbn; lia.
  - apply end_barrier_past; cbn; lia.
  - apply end_barrier_past; cbn; lia.
  - destruct (_retry_reachy_safety _ _ outs) as [[[[] failures]|e]|]; [| | |by left];
      rewrite bool_decide_true by (by eexists); (apply set_phase_past; [cbn; lia|done]).
  - apply set_phase_past; [cbn; lia|done].
  - destruct (joins (loop c) !! jid) as [[|]|]; [by left| |by left].
    unfold after_join. destruct rid; [(apply set_phase_past; [cbn; lia|done])|apply conclude_past; cbn; lia].
  - unfold after_join. destruct rid; [(apply set_phase_past; [cbn; lia|done])|apply conclude_past; cbn; lia].
  - destruct (recons (loop c) !! rid) as [[? ? [r|]]|]; [|by left..]. apply conclude_past; cbn; lia.
  - destruct (is_live c rid); [|by left]. apply conclude_past; cbn; lia.
  - apply end_barrier_past; cbn; lia.
Qed.

(** What the event loop delivers when everything outside hangs: the barrier's own turns to
    run, and time-outs. *)
Definition lapse (e : event) : bool :=
  match e with
  | EJoin _ true => true
  | EBarrier _ w _ =>
    match w with
    | WRun Created | WStarted true Created (Ok _) Created | WJoin | WReconciled | WTimeout => true
    | WSafety outs => forallb (λ a, match a with AttemptTimeout => true | _ => false end) outs
    | _ => false
    end
  | _ => false
  end.

Lemma retry_timeouts t n k failures :
  ∃ failures', retry_loop t n k failures (replicate k AttemptTimeout) = Some (Ok (false, failures')).
Proof.
  revert n failures. induction k as [|k IH]; intros n failures; cbn; [by eexists|]. apply IH.
Qed.

Lemma lapse_good e c : inv c → lapse e = true → inv (step e c).
Proof. intros Hi Hl. apply step_good; [done|]. by destruct e. Qed.

Lemma join_timed_out jid t s c :
  joins (loop c) !! jid = Some (Joining t s) →
  let c' := step (EJoin jid true) c in
  barriers (loop c') = barriers (loop c) ∧ ∃ s', joins (loop c') !! jid = Some (Joined t s').
Proof.
  intros Hj. cbn. unfold _join_tracked, mbind, M_bind. cbn. rewrite Hj, orb_true_r. cbn.
  split; [done|]. eexists. by rewrite lookup_insert_eq.
Qed.

(** A suspended barrier moves on within two such events. *)
Lemma lapse_past id b c :
  inv c → barriers (loop c) !! id = Some b → finished b = false →
  ∃ es, forallb lapse es = true ∧ past (phase_rank (b_phase b)) id (run es c).
Proof.
  intros Hi Hb Hf. destruct (live_barrier c id b Hi Hb Hf) as (Ha & _ & _ & Hp).
  assert (∀ w, waits_for c b w = true → lapse (EBarrier id w None) = true →
    ∃ es, forallb lapse es = true ∧ past (phase_rank (b_phase b)) id (run es c)) as Hw.
  { intros w Hwait Hl. exists [EBarrier id w None]. cbn [forallb]. rewrite Hl. split; [done|].
    pose proof (wake_past id b w None c Hb) as Hpast. rewrite Hwait in Hpast. exact Hpast. }
  unfold finished in Hf. unfold waits_for in Hw.
  destruct (b_phase b) as [|tasks| |tasks jid rid err|tasks jid rid err verified codes|stubborn rid verified codes|] eqn:Hph;
    [| | | | | |done].
  - by apply (Hw (WRun Created)).
  - by apply (Hw (WStarted true Created (Ok 0) Created)).
  - by apply (Hw (WSafety [])).
  - apply (Hw (WSafety (replicate (Z.to_nat (safety_retry_limit c)) AttemptTimeout))).
    + destruct (retry_timeouts (b_turn b) 1 (Z.to_nat (safety_retry_limit c)) []) as [fs Hfs].
      unfold _retry_reachy_safety. rewrite Hfs. by apply bool_decide_true.
    + cbn. apply forallb_spec. intros a Ha'. by apply elem_of_replicate in Ha' as [-> _].
  - destruct Hp as (_ & (j & Hj & _) & _). destruct j as [t s|t s].
    2:{ apply (Hw WJoin); [by rewrite Hj|done]. }
    exists [EJoin jid true; EBarrier id WJoin None]. split; [done|]. cbn [run foldl].
    destruct (join_timed_out jid t s c Hj) as [Hb' [s' Hj']]. rewrite <- Hb' in Hb.
    pose proof (wake_past id b WJoin None _ Hb) as Hpast. unfold waits_for in Hpast.
    by rewrite Hph, Hj' in Hpast.
  - destruct Hp as (_ & (ps & [o Hr] & _) & _). destruct o as [o|].
    + apply (Hw WReconciled); [by rewrite Hr|done].
    + apply (Hw WTimeout); [|done]. unfold is_live. rewrite Hr. by apply bool_decide_true.
Qed.

Lemma run_app es es' c : run (es ++ es') c = run es' (run es c).
Proof. apply foldl_app. Qed.

Lemma lapse_run es c : inv c → forallb lapse es = true → inv (run es c).
Proof.
  revert c. induction es as [|e es IH]; intros c Hi Hl; [done|]. cbn in Hl. bool_props. cbn [run foldl].
  apply IH; [by apply lapse_good|done].
Qed.

(** C27: a barrier ends.  Each wake it waits for moves it to a later phase, of at most five, and
    no other wake changes anything; and from every phase the loop's own progress and time-outs
    alone, with the robot, the tasks and the budget all silent, bring it to an end that leaves
    the coordinator idle or blocked. *)
Theorem barrier_ends c id b :
  reachable c → barriers (loop c) !! id = Some b → finished b = false →
  (∀ w now, let c' := step (EBarrier id w now) c in
     if waits_for c b w then past (phase_rank (b_phase b)) id c'
     else c' = c ∨ (b_phase b = Spawned ∧ w = WCancelled)) ∧
  (phase_rank (b_phase b) ≤ 5)%nat ∧
  ∃ es, forallb lapse es = true ∧ past 1 id (run es c).
Proof.
  intros Hr Hb Hf. apply reachable_inv in Hr. split_and!.
  - intros w now. by apply wake_past.
  - destruct (b_phase b); cbn; lia.
  - remember (phase_rank (b_phase b)) as n eqn:Hn. revert c b Hr Hb Hf Hn.
    induction (lt_wf n) as [n _ IH]. intros c b Hi Hb Hf ->.
    destruct (lapse_past id b c Hi Hb Hf) as (es & Hl & b' & Hb' & Hlt & Hst).
    destruct (finished b') eqn:Hf'.
    + exists es. split; [done|]. exists b'. split_and!; [done| |by auto].
      unfold finished in Hf'. destruct (b_phase b'); try done. cbn. lia.
    + destruct (IH _ Hlt (run es c) b') as (es' & Hl' & Hp); [by apply lapse_run|done..|].
      exists (es ++ es'). rewrite forallb_app, Hl, Hl', run_app. done.
Qed.

(** ** Who owns the household *)

(** Between the two states nothing is reconciled and no reconciliation changes. *)
Definition unheard (c c' : coordinator) : Prop :=
  (∀ t proofs, Reconciled t proofs ∈ journal c' → Reconciled t proofs ∈ journal c) ∧
  next_task (loop c) ≤ next_task (loop c') ∧
  (∀ rid, rid < next_task (loop c) → recons (loop c') !! rid = recons (loop c) !! rid).
Definition tame (c c' : coordinator) : Prop := _active c' = _active c ∧ unheard c c'.

(** Only [start] names an owner, whatever state the coordinator is in. *)
Definition owned (c c' : coordinator) : Prop :=
  (_active c' = _active c ∨ _active c' = None) ∧ unheard c c'.

#[export] Instance unheard_preorder : PreOrder unheard.
Proof.
  split; [by intros c; split_and!|]. intros c1 c2 c3 (H1 & Hn1 & Hr1) (H2 & Hn2 & Hr2). split_and!; [by eauto|lia|].
  intros rid Hrid. rewrite Hr2 by lia. by apply Hr1.
Qed.
Lemma tame_owned c c' : tame c c' → owned c c'.
Proof. intros [? ?]. split; [by left|done]. Qed.
Lemma tame_trans c1 c2 c3 : tame c1 c2 → tame c2 c3 → tame c1 c3.
Proof. intros [? ?] [? ?]. split; [congruence|]. by transitivity c2. Qed.
Lemma tame_then c1 c2 c3 : tame c1 c2 → owned c2 c3 → owned c1 c3.
Proof. intros [Ha ?] [? ?]. split; [by rewrite <- Ha|]. by transitivity c2. Qed.
Lemma unheard_note e c c' :
  (∀ t proofs, e ≠ Reconciled t proofs) → journal c' = e :: journal c →
  next_task (loop c') = next_task (loop c) → recons (loop c') = recons (loop c) → unheard c c'.
Proof.
  intros He Hj Hn Hr. unfold unheard. rewrite Hj, Hn, Hr. split_and!; [|lia|done].
  intros t ps [<-|?]%elem_of_cons; [by destruct (He t ps)|done].
Qed.

(** A state that differs in other fields, by one entry that reconciles nothing, or by a new
    task. *)
Ltac unheard_done := (eapply unheard_note; [|done..]; done) || (split_and!; [done|cbn; lia|done]).
Ltac tame_done := split; [done|]; unheard_done.

Lemma wp_tame {A} (m : M coordinator exn A) c0 c :
  tame c0 c → wp m (λ _, tame c) (λ _, tame c) c → wp m (λ _, tame c0) (λ _, tame c0) c.
Proof. intros Ht Hw. eapply wp_mono; [exact Hw|..]; intros ? c' Ht'; by eapply tame_trans. Qed.

Lemma drop_tame t id c : tame c (drop_cancelling t id c).
Proof. unfold drop_cancelling. case_bool_decide; tame_done. Qed.

Lemma end_barrier_owned id b codes r now c : owned c (end_barrier id b codes r now c).
Proof.
  rewrite end_barrier_eq. set (c1 := drop_cancelling _ _ (set_phase _ _ _ _)).
  assert (tame c c1) as H1 by (eapply tame_trans; [|apply drop_tame]; tame_done). clearbody c1.
  apply (tame_then _ _ _ H1). destruct r; cbn [is_ok].
  - set (c2 := _release_turn _ c1). assert (owned c1 c2) as [? H2].
    { split; [by right|]. unheard_done. }
    destruct (drop_tame (b_turn b) id c2) as [Ha H3]. split; [rewrite Ha; by right|]. by transitivity c2.
  - set (c2 := _latch_barrier_failure _ _ _ _ c1). assert (tame c1 c2) as H2 by tame_done. clearbody c2.
    apply (tame_then _ _ _ H2). apply (tame_then _ _ _ (drop_tame (b_turn b) id c2)).
    apply tame_owned. tame_done.
Qed.

Lemma spawn_tame role out c : wp (_spawn_owned role out) (λ _, tame c) (λ _, tame c) c.
Proof. apply wp_spawn; intros; tame_done. Qed.

Lemma create_barrier_tame t reason out now c :
  wp (_create_barrier t reason out now) (λ _, tame c) (λ _, tame c) c.
Proof.
  unfold wp, _create_barrier. pose proof (spawn_tame "outer_barrier" out c) as Hw. unfold wp in Hw.
  destruct (_spawn_owned _ out c) as [[?|?] ?]; (eapply tame_trans; [exact Hw|]); cbn; tame_done.
Qed.

Lemma finish_tame t out now c : wp (finish t out now) (λ _, tame c) (λ _, tame c) c.
Proof.
  unfold finish. wp_step. wp_step. wp_step; [wp_steps; tame_done|]. wp_step. wp_step; [|tame_done].
  wp_step. wp_step. wp_step. eapply wp_mono; [apply (wp_tame _ c); [tame_done|apply create_barrier_tame]| |done].
  intros ? ? ?. by wp_steps.
Qed.

Lemma cancel_tame t reason out now c : wp (cancel t reason out now) (λ _, tame c) (λ _, tame c) c.
Proof.
  unfold cancel. wp_step. wp_step. wp_step; [wp_steps; tame_done|]. wp_step. wp_step; [|tame_done]. cbn beta.
  destruct (_cancelling _ !! t); [wp_steps; tame_done|]. wp_step. wp_step; [|tame_done].
  wp_step. wp_step. wp_step. eapply wp_mono; [apply (wp_tame _ c); [tame_done|apply create_barrier_tame]| |done].
  intros ? ? Hc. wp_steps. eapply tame_trans; [exact Hc|tame_done].
Qed.

Lemma live_tasks_tame t c : wp (_live_reconciliation_tasks t) (λ _, tame c) (λ _ _, False) c.
Proof. unfold _live_reconciliation_tasks. wp_steps; tame_done. Qed.

Lemma conclude_owned id b verified stubborn err codes now c :
  owned c (conclude id b verified stubborn err codes now c).2.
Proof.
  apply wp_snd. unfold conclude, barrier_verdict.
  destruct verified; cbn [negb]; [|wp_steps; apply end_barrier_owned].
  case_bool_decide; cbn [negb]; [|wp_steps; apply end_barrier_owned].
  destruct err as [e|]; [wp_steps; apply end_barrier_owned|]. wp_step. wp_step.
  eapply wp_mono; [apply live_tasks_tame| |done]. intros live c' Ha. wp_steps.
  eapply tame_then; [exact Ha|]. apply end_barrier_owned.
Qed.

(** The new reconciliation is numbered past all the others. *)
Lemma begin_reconciliation_tame t reason clock out c :
  wp (begin_reconciliation t reason clock out) (λ _, tame c) (λ _, tame c) c.
Proof.
  unfold begin_reconciliation. wp_step. eapply (wp_mono _ (λ _, tame c) _ (λ _, tame c)); [| |done].
  { unfold _reconciliation_request. wp_step. wp_step. wp_step.
    destruct (_reconciliation_proofs _ !! _); wp_steps; tame_done. }
  intros proofs c1 Ht. wp_step. apply wp_spawn; intros f; [|intros e; (eapply tame_trans; [exact Ht|]); tame_done].
  wp_steps. eapply tame_trans; [exact Ht|]. split; [done|]. split_and!; [done|cbn; lia|].
  intros rid Hrid. cbn. apply lookup_insert_ne. lia.
Qed.

Lemma run_started_owned id b tasks join_out clock out now c :
  owned c (run_started id b tasks join_out clock out now c).2.
Proof.
  unfold run_started. pose proof (spawn_tame "tracked_task_join" join_out c) as Hw. unfold wp in Hw.
  destruct (_spawn_owned _ join_out c) as [[jid|e] c1]; (eapply tame_then; [exact Hw|]).
  2:{ apply end_barrier_owned. }
  clear Hw. apply wp_snd. wp_step. wp_step. wp_step. eapply wp_mono; [apply live_tasks_tame| |done]. intros live c2 H2.
  assert (tame c1 c2) as Ht by (eapply tame_trans; [|exact H2]; tame_done). clear H2.
  destruct (negb _); [wp_steps; apply tame_owned; eapply tame_trans; [exact Ht|tame_done]|].
  pose proof (begin_reconciliation_tame (b_turn b) (b_reason b) clock out c2) as Hb. unfold wp in *. destruct (begin_reconciliation _ _ _ _ c2) as [[?|?] ?]; apply tame_owned;
    (eapply tame_trans; [exact Ht|]); (eapply tame_trans; [exact Hb|]); tame_done.
Qed.

Lemma barrier_owned id w now c : owned c (_run_cancellation_barrier id w now c).2.
Proof.
  unfold _run_cancellation_barrier. cbn. unfold mbind, M_bind. cbn.
  destruct (barriers (loop c) !! id) as [b|]; [|apply tame_owned; tame_done].
  destruct (b_phase b) as [|tasks| |tasks jid rid err|tasks jid rid err verified codes|stubborn rid verified codes|],
    w as [safety|started join_out clock out|outs| | | |];
    try (lazymatch goal with |- owned c (mret tt c).2 => apply tame_owned; tame_done end).
  - unfold run_first. pose proof (spawn_tame "reachy_safety" safety c) as Hw. unfold wp in Hw.
    destruct (_spawn_owned _ safety c) as [[?|?] c1]; (eapply tame_then; [exact Hw|]); [apply tame_owned; tame_done|].
    apply (tame_then c1 (set_process_restart_required true c1)); [tame_done|]. apply end_barrier_owned.
  - apply tame_owned. unfold _observe_barrier_done. eapply tame_trans; [apply (drop_tame (b_turn b) id)|]. tame_done.
  - destruct started; [apply run_started_owned|apply tame_owned; tame_done].
  - apply end_barrier_owned.
  - apply end_barrier_owned.
  - apply end_barrier_owned.
  - apply tame_owned. destruct (_retry_reachy_safety _ _ outs) as [[[[] failures]|e]|]; tame_done.
  - apply tame_owned. tame_done.
  - destruct (joins (loop c) !! jid) as [[|]|]; [apply tame_owned; tame_done| |apply tame_owned; tame_done].
    unfold after_join. destruct rid; [apply tame_owned; tame_done|apply conclude_owned].
  - unfold after_join. destruct rid; [apply tame_owned; tame_done|apply conclude_owned].
  - destruct (recons (loop c) !! rid) as [[? ? [r|]]|]; [apply conclude_owned|apply tame_owned; tame_done..].
  - destruct (is_live c rid); [apply conclude_owned|apply tame_owned; tame_done].
  - apply end_barrier_owned.
Qed.

(** Every step but [start] and the success of a reconciliation. *)
Lemma step_owned e c :
  (∀ t, e ≠ EStart t) → (∀ rid r, e ≠ EReconciliation rid r) → owned c (step e c).
Proof.
  intros He Hr. assert (∀ A (m : M coordinator exn A), wp m (λ _, tame c) (λ _, tame c) c → owned c (m c).2) as Hm.
  { intros A m Hw. apply tame_owned. revert Hw. unfold wp. by destruct (m c) as [[?|?] ?]. }
  destruct e; cbn [step]; try (apply Hm; unfold track_task, untrack_task, track_reservation, complete_reservation,
    recover_begin, require_recoverable, _require_registration_open, _join_tracked; wp_steps; tame_done).
  - by destruct (He t).
  - apply Hm, finish_tame.
  - apply Hm, cancel_tame.
  - case_bool_decide; [|apply tame_owned; tame_done]. apply Hm. unfold recover_end, require_recoverable.
    wp_steps; try tame_done. apply wp_tame; [tame_done|apply create_barrier_tame].
  - apply tame_owned; tame_done.
  - destruct r as [|[]]; apply tame_owned; tame_done.
  - by destruct (Hr rid r).
  - apply barrier_owned.
Qed.

(** Every step but the end of a reconciliation. *)
Lemma step_unheard e c : (∀ rid r, e ≠ EReconciliation rid r) → unheard c (step e c).
Proof.
  intros Hr. destruct e; try (apply step_owned; done). cbn. apply wp_snd. unfold start. wp_steps; unheard_done.
Qed.

Lemma reconciliation_others rid rid' r c :
  rid' ≠ rid → recons (loop (end_reconciliation rid r c)) !! rid' = recons (loop c) !! rid'.
Proof.
  intros Hne. unfold end_reconciliation. destruct (recons (loop c) !! rid) as [[t ps [o|]]|]; [done| |done].
  cbn. rewrite lookup_insert_ne by done. by destruct (is_ok r).
Qed.

Lemma reconciliation_active rid r c : _active (end_reconciliation rid r c) = _active c.
Proof. unfold end_reconciliation. repeat case_match; done. Qed.

(** A reconciliation is heard of only when its own task succeeds. *)
Lemma reconciliation_heard rid r c t proofs :
  Reconciled t proofs ∈ journal (end_reconciliation rid r c) →
  Reconciled t proofs ∈ journal c ∨
  (r = Ok tt ∧ recons (loop c) !! rid = Some (mkRecon t proofs None)).
Proof.
  unfold end_reconciliation. destruct (recons (loop c) !! rid) as [[t' ps [o|]]|]; [by left| |by left].
  destruct r as [[]|e]; [|by left]. cbn. intros [[= -> ->]|?]%elem_of_cons; [by right|by left].
Qed.

(** A [start] that raises changes nothing. *)
Lemma start_owner t c : wp (start t) (λ _ c', _active c = None ∧ _active c' = Some t) (λ _ c', c' = c) c.
Proof.
  unfold start. wp_steps; try done. cbn in *. bool_props. split; [|done].
  destruct (_active c); [by exfalso; eauto|done].
Qed.

(** ** A sample turn *)

#[export] Instance transport_proof_eq_dec : EqDecision TransportProof.
Proof. solve_decision. Defined.
#[export] Instance safety_receipt_eq_dec : EqDecision SafetyReceipt.
Proof. solve_decision. Defined.
#[export] Instance attempt_eq_dec : EqDecision attempt.
Proof. solve_decision. Defined.
#[export] Instance entry_eq_dec : EqDecision entry.
Proof. solve_decision. Defined.

Definition fresh_startb (e : event) (c : coordinator) : bool :=
  match e with EStart t => bool_decide (Started t ∉ journal c) | _ => true end.
Fixpoint fresh_run (es : list event) (c : coordinator) : bool :=
  match es with [] => true | e :: es => fresh_startb e c && fresh_run es (step e c) end.

Lemma reach_run es c : reachable c → fresh_run es c = true → reachable (run es c).
Proof.
  revert c. induction es as [|e es IH]; intros c Hr Hf; [done|]. cbn in Hf. apply andb_true_iff in Hf as [Hf1 Hf2].
  apply IH; [|done]. constructor; [done|]. destruct e; try done. by apply bool_decide_eq_true in Hf1.
Qed.

Definition sample_coordinator : coordinator :=
  mkCoordinator 3 true None IDLE ∅ ∅ ∅ ∅ None false ∅ false (mkRecorder 32 [] [] []) (mkLoop 0 ∅ ∅ ∅ ∅ []) [].

Lemma sample_reachable : reachable sample_coordinator.
Proof.
  apply (reach_new (mkRecorder 32 [] [] []) true 3 (NowFloat MAX_ATTEMPT) (NowInt 1) (NowInt 2)). by vm_compute.
Qed.

Definition stopped (t : turn) : attempt := AttemptReceipt (mkReceipt (Some t) true true true).

(** The barrier [id] of a turn from its first run, with the join and the reconciliation it
    creates. *)
Definition barrier_events (id jid rid : task) (outs : list attempt) : list event :=
  [EBarrier id (WRun Created) None; EBarrier id (WStarted true Created (Ok 77) Created) None;
   EBarrier id (WSafety outs) None; EJoin jid false; EBarrier id WJoin None; EReconciliation rid (Ok tt);
   EBarrier id WReconciled None].

Definition sample_turn : list event :=
  [EStart 1; ETrackTask 1 100; ETrackReservation 1 5 6; ECancel 1 "stop" Created None; ETaskDone 100] ++
  take 6 (barrier_events 0 2 3 [AttemptTimeout; stopped 1]).

Definition sample_blocked : list event :=
  [EStart 1; ECancel 1 "stop" Created None] ++
  barrier_events 0 2 3 [AttemptTimeout; AttemptTimeout; AttemptTimeout].

Lemma turn_release_verified_witness :
  let c := run sample_turn sample_coordinator in
  let e := EBarrier 0 WReconciled None in
  _active (step e c) = None ∧ released_ok c 1.
Proof.
  apply (turn_release_verified (run sample_turn sample_coordinator) (EBarrier 0 WReconciled None) 1).
  - apply reach_run; [apply sample_reachable|by vm_compute].
  - exact I.
  - by vm_compute.
  - by vm_compute.
Defined.

Lemma safety_block_latched_witness :
  let c := run [EStart 2; ECancel 1 "stop" Created None; ERecoverBegin 1] (run sample_blocked sample_coordinator) in
  _state c = SAFETY_BLOCKED ∧ _active c = Some 1.
Proof.
  destruct (safety_block_latched (run sample_blocked sample_coordinator) 1
    [EStart 2; ECancel 1 "stop" Created None; ERecoverBegin 1]) as (Hs & Ha & _).
  - apply reach_run; [apply sample_reachable|by vm_compute].
  - by vm_compute.
  - by vm_compute.
  - right. by repeat constructor.
  - split; [exact Hs|exact Ha].
Defined.

Lemma barrier_ends_witness :
  let c := run (take 6 sample_turn) sample_coordinator in
  ∃ es, forallb lapse es = true ∧ past 1 0 (run es c).
Proof.
  destruct (barrier_ends (run (take 6 sample_turn) sample_coordinator) 0 (mkBarrier 1 "stop" (AwaitStart {[100]})))
    as (_ & _ & He).
  - apply reach_run; [apply sample_reachable|by vm_compute].
  - by vm_compute.
  - by vm_compute.
  - exact He.
Defined.
