(* ===== verification/Sessions.v ===== *)
(** * Sessions: the manager that admits turns and ends context sessions

    [apps/core/src/tuntun_core/services/sessions/manager.py], with the table of
    [apps/core/src/tuntun_core/domain/conversation.py] that decides when a wake word is
    deferred.

    What the manager needs of the coordinator is the class [TurnOwner] with its laws;
    [Turns.coordinator] is the instance.  Every [async with self._lock] region runs without
    suspending, so it is one step.  Finish and cancel operations and calls of
    [end_context_session] are tasks with the point where they are suspended; a task that waits
    on the lease condition runs again only once [notify_all] signalled it.  An operation that
    runs in its caller's task, because no task could be created, is a task that is not
    registered; the callback of a registered one belongs to the step that ends it. *)

From S2P Require Import Prelude Turns.

(** ** The conversation table *)

Module Conversation.
Inductive TurnState :=
| IDLE | AWAKE | LISTENING | TRANSCRIBING | IDENTIFYING | AUTHORIZING | THINKING | SPEAKING | PRIVACY | ERROR_SAFE.
Inductive TurnEvent :=
| WAKE | AUDIO_OPEN | AUDIO_END | TRANSCRIPT | IDENTITY | AUTHORIZED | RESPONSE | PLAYBACK_END | STOP
| EV_PRIVACY | CANCEL | TIMEOUT | DISCONNECT | INVARIANT_FAILURE.
Record Transition := mkTransition { t_state : TurnState; effects : list string }.

Definition is_active (s : TurnState) : bool :=
  match s with
  | AWAKE | LISTENING | TRANSCRIBING | IDENTIFYING | AUTHORIZING | THINKING | SPEAKING => true
  | _ => false
  end.
Definition _STOP_EFFECTS : list string := ["stop_reachy"; "cancel_turn"; "reconcile_budget"; "clear_ephemeral"].
Definition _CANCELLATION_EFFECTS : list string :=
  ["cancel_turn"; "stop_reachy"; "reconcile_budget"; "clear_ephemeral"].

Definition _FORWARD (s : TurnState) (e : TurnEvent) : option Transition :=
  match s, e with
  | IDLE, WAKE => Some (mkTransition AWAKE [])
  | AWAKE, AUDIO_OPEN => Some (mkTransition LISTENING [])
  | LISTENING, AUDIO_END => Some (mkTransition TRANSCRIBING [])
  | TRANSCRIBING, TRANSCRIPT => Some (mkTransition IDENTIFYING [])
  | IDENTIFYING, IDENTITY => Some (mkTransition AUTHORIZING [])
  | AUTHORIZING, AUTHORIZED => Some (mkTransition THINKING [])
  | THINKING, RESPONSE => Some (mkTransition SPEAKING [])
  | SPEAKING, PLAYBACK_END => Some (mkTransition IDLE ["finish_turn"; "clear_ephemeral"])
  | SPEAKING, WAKE => Some (mkTransition IDLE (_STOP_EFFECTS ++ ["queue_wake_after_safe_idle"]))
  | _, _ => None
  end.

Definition transition (s : TurnState) (e : TurnEvent) : result exn Transition :=
  match is_active s, e with
  | true, STOP => Ok (mkTransition IDLE _STOP_EFFECTS)
  | true, (CANCEL | TIMEOUT | DISCONNECT) => Ok (mkTransition IDLE _CANCELLATION_EFFECTS)
  | true, EV_PRIVACY =>
    Ok (mkTransition PRIVACY ["close_media_egress"; "cancel_turn"; "stop_reachy"; "reconcile_budget"; "clear_ephemeral"])
  | true, INVARIANT_FAILURE => Ok (mkTransition ERROR_SAFE ["close_media_egress"; "stop_reachy"])
  | _, _ => match _FORWARD s e with Some t => Ok t | None => Raise (ValueError "illegal transition") end
  end.

(** An active turn leaves its track only with the robot stopped. *)
Lemma transition_stops s e t :
  is_active s = true → transition s e = Ok t → is_active (t_state t) = false → e ≠ PLAYBACK_END →
  "stop_reachy" ∈ effects t.
Proof. destruct s; try done; destruct e; try done; cbn; intros _ [= <-] Hx ?; try done;
  apply (bool_decide_unpack _); by vm_compute.
Qed.

(** A wake word is deferred exactly while the robot speaks. *)
Lemma transition_defers s e t :
  transition s e = Ok t → "queue_wake_after_safe_idle" ∈ effects t ↔ s = SPEAKING ∧ e = WAKE.
Proof.
  destruct s, e; cbn; intros [= <-]; (split; [intros Hin|intros [? ?]]); try done; try (by repeat (apply elem_of_cons in Hin as [?|Hin]; [done|]); by apply elem_of_nil in Hin).
  apply (bool_decide_unpack _). by vm_compute.
Qed.
End Conversation.

(** ** What the manager needs of the coordinator *)

Class TurnOwner (C Ev : Type) := {
  owner : C → option turn;
  state_of : C → CoordinatorState;
  accepts : turn → C → bool;
  begin_turn : turn → M C exn unit;
  begin_finish : turn → spawn → option Z → M C exn (option task);
  begin_cancel : turn → string → spawn → option Z → M C exn (option task);
  barrier_outcome : task → C → option (result exn unit);
  with_health : (CancellationHealthRecorder → CancellationHealthRecorder) → C → C;
  advance : Ev → C → C;
}.

(** Only [begin_turn] gives the household to a turn, and only when no turn has it. *)
Class TurnOwnerLaws (C Ev : Type) `{!TurnOwner C Ev} := {
  accepts_owner t (c : C) : accepts t c = true → owner c = Some t;
  begin_turn_owner t (c : C) :
    wp (begin_turn t) (λ _ c', owner c = None ∧ owner c' = Some t) (λ _ c', c' = c) c;
  begin_finish_owner t out now (c : C) :
    wp (begin_finish t out now) (λ _ c', owner c' = owner c) (λ _ c', owner c' = owner c) c;
  begin_cancel_owner t reason out now (c : C) :
    wp (begin_cancel t reason out now) (λ _ c', owner c' = owner c) (λ _ c', owner c' = owner c) c;
  with_health_owner f (c : C) : owner (with_health f c) = owner c;
  advance_owner (e : Ev) (c : C) : owner (advance e c) = owner c ∨ owner (advance e c) = None;
}.

(** ** The manager *)

Definition _MAX_RETAINED_OPERATIONS : Z := 4.

Record SessionAdmission := mkAdmission {
  household_id : Z;
  turn_id : turn;
  context_session_id : Z;
  one_turn_context : bool;
}.

Inductive operation_kind := Finish | Cancel.
#[export] Instance operation_kind_eq_dec : EqDecision operation_kind.
Proof. solve_decision. Defined.
#[export] Instance operation_kind_countable : Countable operation_kind.
Proof.
  refine (inj_countable' (λ k, match k with Finish => true | Cancel => false end)
            (λ b, if b then Finish else Cancel) _). by intros [].
Defined.

Record manager := mkManager {
  m_active : option SessionAdmission;
  m_deferred : option SessionAdmission;
  m_deferred_for_turn : option turn;
  m_operations : gmap (turn * operation_kind) task;
  m_context_leases : gmap turn Z;
  m_context_lease_sessions : gmap turn Z;
  m_turn_context_sessions : gmap turn Z;
  m_known_context_sessions : gset Z;
  m_context_session_households : gmap Z Z;
  m_one_turn_context_turns : gset turn;
  m_ending_turns : gset turn;
  m_ending_context_sessions : gset Z;
  m_ended_context_sessions : gset Z;
  m_notified_context_sessions : gset Z;
  m_session_end_handlers : nat;
}.

Definition set_m_active x m := mkManager x (m_deferred m) (m_deferred_for_turn m) (m_operations m)
  (m_context_leases m) (m_context_lease_sessions m) (m_turn_context_sessions m) (m_known_context_sessions m)
  (m_context_session_households m) (m_one_turn_context_turns m) (m_ending_turns m) (m_ending_context_sessions m)
  (m_ended_context_sessions m) (m_notified_context_sessions m) (m_session_end_handlers m).
Definition set_m_deferred x m := mkManager (m_active m) x (m_deferred_for_turn m) (m_operations m)
  (m_context_leases m) (m_context_lease_sessions m) (m_turn_context_sessions m) (m_known_context_sessions m)
  (m_context_session_households m) (m_one_turn_context_turns m) (m_ending_turns m) (m_ending_context_sessions m)
  (m_ended_context_sessions m) (m_notified_context_sessions m) (m_session_end_handlers m).
Definition set_m_deferred_for_turn x m := mkManager (m_active m) (m_deferred m) x (m_operations m)
  (m_context_leases m) (m_context_lease_sessions m) (m_turn_context_sessions m) (m_known_context_sessions m)
  (m_context_session_households m) (m_one_turn_context_turns m) (m_ending_turns m) (m_ending_context_sessions m)
  (m_ended_context_sessions m) (m_notified_context_sessions m) (m_session_end_handlers m).
Definition set_m_operations x m := mkManager (m_active m) (m_deferred m) (m_deferred_for_turn m) x
  (m_context_leases m) (m_context_lease_sessions m) (m_turn_context_sessions m) (m_known_context_sessions m)
  (m_context_session_households m) (m_one_turn_context_turns m) (m_ending_turns m) (m_ending_context_sessions m)
  (m_ended_context_sessions m) (m_notified_context_sessions m) (m_session_end_handlers m).
Definition set_m_context_leases x m := mkManager (m_active m) (m_deferred m) (m_deferred_for_turn m)
  (m_operations m) x (m_context_lease_sessions m) (m_turn_context_sessions m) (m_known_context_sessions m)
  (m_context_session_households m) (m_one_turn_context_turns m) (m_ending_turns m) (m_ending_context_sessions m)
  (m_ended_context_sessions m) (m_notified_context_sessions m) (m_session_end_handlers m).
Definition set_m_context_lease_sessions x m := mkManager (m_active m) (m_deferred m) (m_deferred_for_turn m)
  (m_operations m) (m_context_leases m) x (m_turn_context_sessions m) (m_known_context_sessions m)
  (m_context_session_households m) (m_one_turn_context_turns m) (m_ending_turns m) (m_ending_context_sessions m)
  (m_ended_context_sessions m) (m_notified_context_sessions m) (m_session_end_handlers m).
Definition set_m_turn_context_sessions x m := mkManager (m_active m) (m_deferred m) (m_deferred_for_turn m)
  (m_operations m) (m_context_leases m) (m_context_lease_sessions m) x (m_known_context_sessions m)
  (m_context_session_households m) (m_one_turn_context_turns m) (m_ending_turns m) (m_ending_context_sessions m)
  (m_ended_context_sessions m) (m_notified_context_sessions m) (m_session_end_handlers m).
Definition set_m_known_context_sessions x m := mkManager (m_active m) (m_deferred m) (m_deferred_for_turn m)
  (m_operations m) (m_context_leases m) (m_context_lease_sessions m) (m_turn_context_sessions m) x
  (m_context_session_households m) (m_one_turn_context_turns m) (m_ending_turns m) (m_ending_context_sessions m)
  (m_ended_context_sessions m) (m_notified_context_sessions m) (m_session_end_handlers m).
Definition set_m_context_session_households x m := mkManager (m_active m) (m_deferred m) (m_deferred_for_turn m)
  (m_operations m) (m_context_leases m) (m_context_lease_sessions m) (m_turn_context_sessions m)
  (m_known_context_sessions m) x (m_one_turn_context_turns m) (m_ending_turns m) (m_ending_context_sessions m)
  (m_ended_context_sessions m) (m_notified_context_sessions m) (m_session_end_handlers m).
Definition set_m_one_turn_context_turns x m := mkManager (m_active m) (m_deferred m) (m_deferred_for_turn m)
  (m_operations m) (m_context_leases m) (m_context_lease_sessions m) (m_turn_context_sessions m)
  (m_known_context_sessions m) (m_context_session_households m) x (m_ending_turns m) (m_ending_context_sessions
  m) (m_ended_context_sessions m) (m_notified_context_sessions m) (m_session_end_handlers m).
Definition set_m_ending_turns x m := mkManager (m_active m) (m_deferred m) (m_deferred_for_turn m) (m_operations
  m) (m_context_leases m) (m_context_lease_sessions m) (m_turn_context_sessions m) (m_known_context_sessions m)
  (m_context_session_households m) (m_one_turn_context_turns m) x (m_ending_context_sessions m)
  (m_ended_context_sessions m) (m_notified_context_sessions m) (m_session_end_handlers m).
Definition set_m_ending_context_sessions x m := mkManager (m_active m) (m_deferred m) (m_deferred_for_turn m)
  (m_operations m) (m_context_leases m) (m_context_lease_sessions m) (m_turn_context_sessions m)
  (m_known_context_sessions m) (m_context_session_households m) (m_one_turn_context_turns m) (m_ending_turns m)
  x (m_ended_context_sessions m) (m_notified_context_sessions m) (m_session_end_handlers m).
Definition set_m_ended_context_sessions x m := mkManager (m_active m) (m_deferred m) (m_deferred_for_turn m)
  (m_operations m) (m_context_leases m) (m_context_lease_sessions m) (m_turn_context_sessions m)
  (m_known_context_sessions m) (m_context_session_households m) (m_one_turn_context_turns m) (m_ending_turns m)
  (m_ending_context_sessions m) x (m_notified_context_sessions m) (m_session_end_handlers m).
Definition set_m_notified_context_sessions x m := mkManager (m_active m) (m_deferred m) (m_deferred_for_turn m)
  (m_operations m) (m_context_leases m) (m_context_lease_sessions m) (m_turn_context_sessions m)
  (m_known_context_sessions m) (m_context_session_households m) (m_one_turn_context_turns m) (m_ending_turns m)
  (m_ending_context_sessions m) (m_ended_context_sessions m) x (m_session_end_handlers m).
Definition set_m_session_end_handlers x m := mkManager (m_active m) (m_deferred m) (m_deferred_for_turn m)
  (m_operations m) (m_context_leases m) (m_context_lease_sessions m) (m_turn_context_sessions m)
  (m_known_context_sessions m) (m_context_session_households m) (m_one_turn_context_turns m) (m_ending_turns m)
  (m_ending_context_sessions m) (m_ended_context_sessions m) (m_notified_context_sessions m) x.

(** Where a task is suspended. *)
Inductive op_phase :=
| OSpawned
| OBarrier (barrier : task)
| OLeases (signalled : bool)
| OHandlers (remaining : nat) (primary_error : option exn)
| ODone (r : result exn bool).

Record op := mkOp {
  op_turn : turn;
  op_kind : operation_kind;
  op_reason : string;
  op_context : option Z;
  op_one_turn : bool;
  op_phase_ : op_phase;
}.

Inductive end_phase :=
| EWaiting (signalled : bool)
| EHandlers (remaining : nat) (primary_error : option exn)
| EDone (r : result exn bool).

Record ending := mkEnding { en_context : Z; en_phase : end_phase }.

(** For the theorems: a lease was granted, handlers of a session's end began. *)
Inductive mark :=
| Leased (t : turn) (context : Z)
| TurnNotified (context : Z)
| EndNotified (context : Z).

Section Manager.
Context {C Ev : Type} {Owner : TurnOwner C Ev}.

Record world := mkWorld {
  mgr : manager;
  turns : C;
  ops : gmap task op;
  ends : gmap task ending;
  next_id : task;
  marks : list mark;
}.

Definition set_mgr x w := mkWorld x (turns w) (ops w) (ends w) (next_id w) (marks w).
Definition set_turns x w := mkWorld (mgr w) x (ops w) (ends w) (next_id w) (marks w).
Definition set_ops x w := mkWorld (mgr w) (turns w) x (ends w) (next_id w) (marks w).
Definition set_ends x w := mkWorld (mgr w) (turns w) (ops w) x (next_id w) (marks w).
Definition set_next_id x w := mkWorld (mgr w) (turns w) (ops w) (ends w) x (marks w).
Definition set_marks x w := mkWorld (mgr w) (turns w) (ops w) (ends w) (next_id w) x.
Definition on_mgr (f : manager → manager) w := set_mgr (f (mgr w)) w.
Definition mark_ (x : mark) w := set_marks (x :: marks w) w.
Definition on_turns {A} (m : M C exn A) : M world exn A := λ w,
  let '(r, c) := m (turns w) in (r, set_turns c w).

(** *** Shared steps *)

Definition is_current_turn (t : turn) (w : world) : bool := bool_decide (owner (turns w) = Some t).
Definition leases_of (t : turn) (w : world) : Z := default 0 (m_context_leases (mgr w) !! t).

Definition _synchronize_release (w : world) : world :=
  match m_active (mgr w) with
  | Some a =>
    if negb (is_current_turn (turn_id a) w) && negb (bool_decide (turn_id a ∈ m_ending_turns (mgr w))) &&
       (leases_of (turn_id a) w =? 0)
    then on_mgr (set_m_active None) w else w
  | None => w
  end.

(** [self._lease_condition.notify_all()]. *)
Definition signal_op (o : op) : op :=
  match op_phase_ o with
  | OLeases _ => mkOp (op_turn o) (op_kind o) (op_reason o) (op_context o) (op_one_turn o) (OLeases true)
  | _ => o
  end.
Definition signal_end (e : ending) : ending :=
  match en_phase e with EWaiting _ => mkEnding (en_context e) (EWaiting true) | _ => e end.
Definition notify_all (w : world) : world := set_ends (signal_end <$> ends w) (set_ops (signal_op <$> ops w) w).

Definition unavailable (context : Z) (m : manager) : bool :=
  bool_decide (context ∈ m_ending_context_sessions m) || bool_decide (context ∈ m_ended_context_sessions m).

(** The statements that install an admitted turn. *)
Definition install (a : SessionAdmission) (m : manager) : manager :=
  let m := set_m_context_session_households
             (<[context_session_id a := household_id a]> (m_context_session_households m))
             (set_m_known_context_sessions ({[context_session_id a]} ∪ m_known_context_sessions m)
             (set_m_turn_context_sessions (<[turn_id a := context_session_id a]> (m_turn_context_sessions m))
             (set_m_active (Some a) m))) in
  if one_turn_context a
  then set_m_one_turn_context_turns ({[turn_id a]} ∪ m_one_turn_context_turns m) m else m.

Definition drop_deferred (m : manager) : manager := set_m_deferred_for_turn None (set_m_deferred None m).

Definition _admit_deferred_if_safe_locked (released_turn_id : option turn) :
    M world exn (option SessionAdmission) :=
  w ← gets id;
  let m := mgr w in
  match m_deferred m with
  | None => mret None
  | Some deferred =>
    if bool_decide (is_Some (m_active m)) || negb (bool_decide (m_deferred_for_turn m = released_turn_id)) ||
       negb (bool_decide (state_of (turns w) = IDLE))
    then mret None
    else if unavailable (context_session_id deferred) m then
      _ ← modify (on_mgr drop_deferred); mret None
    else
      _ ← on_turns (begin_turn (turn_id deferred));
      _ ← modify (on_mgr (λ m, drop_deferred (install deferred m)));
      mret (Some deferred)
  end.

Definition _current_rejection (w : world) : exn :=
  if bool_decide (state_of (turns w) = SAFETY_BLOCKED) then SessionRejected "safety_blocked" None
  else SessionRejected "busy" (Some 1000).

(** *** Admission *)

Definition open (household turn_ : Z) (context : option Z) : M world exn SessionAdmission :=
  let a := mkAdmission household turn_ (default turn_ context) (bool_decide (context = None)) in
  let context_id := context_session_id a in
  _ ← modify _synchronize_release;
  m ← gets mgr;
  _ ← raise_if (unavailable context_id m) (RuntimeError "context_session_unavailable");
  _ ← raise_if (match m_context_session_households m !! context_id with
                | Some existing => negb (existing =? household)
                | None => false
                end) (RuntimeError "context_session_unavailable");
  _ ← raise_if (negb (bool_decide (m_ending_context_sessions m = ∅))) (SessionRejected "busy" (Some 1000));
  w ← gets id;
  _ ← raise_if (bool_decide (state_of (turns w) = SAFETY_BLOCKED)) (SessionRejected "safety_blocked" None);
  _ ← _admit_deferred_if_safe_locked (m_deferred_for_turn m);
  w ← gets id;
  _ ← raise_if (bool_decide (is_Some (m_active (mgr w)))) (SessionRejected "busy" (Some 1000));
  _ ← (λ w, match on_turns (begin_turn turn_) w with
            | (Raise (RuntimeError _), w) => (Raise (_current_rejection w), w)
            | r => r
            end);
  _ ← modify (on_mgr (install a));
  mret a.

(** The deferred turn keeps the context session of the turn it waits for. *)
Definition queue_deferred_wake_from_transition (transition : Conversation.Transition)
    (active_turn_id household deferred_turn_id : Z) : M world exn bool :=
  if negb (bool_decide ("queue_wake_after_safe_idle" ∈ Conversation.effects transition)) then mret false
  else
    _ ← raise_if (deferred_turn_id =? active_turn_id) (ValueError "deferred turn must be fresh");
    _ ← modify _synchronize_release;
    w ← gets id;
    match m_active (mgr w) with
    | None => raise (RuntimeError "stale active turn")
    | Some a =>
      _ ← raise_if (negb (turn_id a =? active_turn_id) || negb (household_id a =? household) ||
                    negb (is_current_turn active_turn_id w)) (RuntimeError "stale active turn");
      _ ← raise_if (negb (accepts active_turn_id (turns w))) (RuntimeError "turn no longer accepts results");
      if bool_decide (is_Some (m_deferred (mgr w))) then mret false
      else
        _ ← raise_if (unavailable (context_session_id a) (mgr w)) (RuntimeError "context_session_unavailable");
        _ ← modify (on_mgr (λ m, set_m_deferred_for_turn (Some active_turn_id)
              (set_m_deferred (Some (mkAdmission household deferred_turn_id (context_session_id a)
                                       (one_turn_context a))) m)));
        mret true
    end.

Definition admit_deferred_if_safe : M world exn (option SessionAdmission) :=
  _ ← modify _synchronize_release;
  m ← gets mgr;
  _admit_deferred_if_safe_locked (m_deferred_for_turn m).

(** *** Leases: the two regions of [active_context_lease] *)

Definition lease (t : turn) : M world exn (Z * Z) :=
  _ ← modify _synchronize_release;
  w ← gets id;
  match m_active (mgr w) with
  | None => raise (RuntimeError "session_context_unavailable")
  | Some a =>
    let context := context_session_id a in
    _ ← raise_if (negb (turn_id a =? t) || bool_decide (t ∈ m_ending_turns (mgr w)) ||
                  unavailable context (mgr w) || negb (accepts t (turns w)))
          (RuntimeError "session_context_unavailable");
    _ ← modify (on_mgr (λ m, set_m_context_lease_sessions (<[t := context]> (m_context_lease_sessions m))
          (set_m_context_leases (<[t := default 0 (m_context_leases m !! t) + 1]> (m_context_leases m)) m)));
    _ ← modify (mark_ (Leased t context));
    mret (context, household_id a)
  end.

Definition release_lease (t : turn) (w : world) : world :=
  let remaining := leases_of t w - 1 in
  notify_all (on_mgr (λ m,
    if 0 <? remaining then set_m_context_leases (<[t := remaining]> (m_context_leases m)) m
    else set_m_context_lease_sessions (delete t (m_context_lease_sessions m))
           (set_m_context_leases (delete t (m_context_leases m)) m)) w).

Definition _context_session_has_live_turn_or_lease (context : Z) (m : manager) : bool :=
  match m_active m with Some a => context_session_id a =? context | None => false end ||
  existsb (λ t, bool_decide (m_turn_context_sessions m !! t = Some context)) (elements (m_ending_turns m)) ||
  existsb (λ p, p.2 =? context) (map_to_list (m_context_lease_sessions m)).

(** *** Notifying the handlers of a session's end *)

(** [_notify_context_session_ended_once] up to its first handler: whether there is one to await. *)
Definition begin_notify (x : mark) (context : Z) (w : world) : bool * world :=
  if bool_decide (context ∈ m_notified_context_sessions (mgr w)) then (false, w)
  else
    let w := mark_ x (on_mgr (λ m,
      set_m_notified_context_sessions ({[context]} ∪ m_notified_context_sessions m) m) w) in
    (negb (bool_decide (m_session_end_handlers (mgr w) = 0%nat)), w).

(** One handler of [_notify_session_ended] ended. *)
Definition handled (r : result exn unit) (primary_error : option exn) : option exn :=
  match r with
  | Ok _ => primary_error
  | Raise CancelledError => Some CancelledError
  | Raise _ => match primary_error with
               | None => Some (RuntimeError "session_end_handler_failed")
               | Some _ => primary_error
               end
  end.
Definition record_handler (r : result exn unit) (w : world) : world :=
  match r with
  | Ok _ => w
  | Raise e => set_turns (with_health (record_barrier_exception e) (turns w)) w
  end.

(** *** Finish and cancel *)

Inductive reply := Returned (b : bool) | Joins (o : task) (own : bool).

Definition op_at (o : op) (p : op_phase) : op :=
  mkOp (op_turn o) (op_kind o) (op_reason o) (op_context o) (op_one_turn o) p.
Definition set_op (id : task) (o : op) (p : op_phase) (w : world) : world := set_ops (<[id := op_at o p]> (ops w)) w.

(** [_spawn_operation], or the fallback in the caller's task. *)
Definition _spawn_operation (o : op) (out : spawn) (w : world) : task * world :=
  let id := next_id w in
  let role := match op_kind o with Finish => "session_finish" | Cancel => "session_cancel" end in
  let w := set_next_id (id + 1) (set_ops (<[id := o]> (ops w)) w) in
  let registered := on_mgr (λ m, set_m_operations (<[(op_turn o, op_kind o) := id]> (m_operations m)) m) in
  let failed w := set_turns (with_health (record_task_factory_failure role) (turns w)) w in
  if _MAX_RETAINED_OPERATIONS <=? Z.of_nat (size (m_operations (mgr w))) then (id, w)
  else (id, match out with
            | Created => registered w
            | Retried => registered (failed w)
            | Unavailable _ => failed w
            end).

Definition begin_operation (kind : operation_kind) (t : turn) (reason : string) (out : spawn) (w : world) :
    reply * world :=
  match m_operations (mgr w) !! (t, kind) with
  | Some o => (Joins o true, w)
  | None =>
    let w := _synchronize_release w in
    match m_active (mgr w) with
    | Some a =>
      if turn_id a =? t then
        let w := on_mgr (λ m, set_m_ending_turns ({[t]} ∪ m_ending_turns m) m) w in
        let '(id, w) := _spawn_operation (mkOp t kind reason None false OSpawned) out w in
        (Joins id true, w)
      else (Returned false, w)
    | None => (Returned false, w)
    end
  end.

Definition finish (t : turn) (out : spawn) (w : world) : reply * world :=
  match m_operations (mgr w) !! (t, Cancel) with
  | Some cancellation => (Joins cancellation false, w)
  | None => begin_operation Finish t "" out w
  end.
Definition cancel (t : turn) (reason : string) (out : spawn) (w : world) : reply * world :=
  begin_operation Cancel t reason out w.

(** The callback on a registered task that ended. *)
Definition _observe_operation (id : task) (o : op) (r : result exn bool) (w : world) : world :=
  let key := (op_turn o, op_kind o) in
  if bool_decide (m_operations (mgr w) !! key = Some id) then
    let w := on_mgr (λ m, set_m_operations (delete key (m_operations m)) m) w in
    match r with
    | Ok _ | Raise CancelledError => w
    | Raise e => set_turns (with_health (record_barrier_exception e) (turns w)) w
    end
  else w.

(** The [finally] of [_finish_and_finalize] and [_cancel_and_finalize], and the end of the
    task: [r] is how the body ended, [released] whether the turn was given up. *)
Definition finalize (id : task) (o : op) (released : bool) (r : result exn bool) (w : world) : world :=
  let t := op_turn o in
  let w := on_mgr (λ m, set_m_ending_turns (m_ending_turns m ∖ {[t]}) m) w in
  let w := _synchronize_release (notify_all w) in
  let '(r, w) :=
    if released then
      let w := on_mgr (λ m, set_m_one_turn_context_turns (m_one_turn_context_turns m ∖ {[t]})
                 (set_m_turn_context_sessions (delete t (m_turn_context_sessions m)) m)) w in
      match _admit_deferred_if_safe_locked (Some t) w with
      | (Ok _, w) => (r, w)
      | (Raise e, w) => (Raise e, w)
      end
    else (r, w) in
  set_op id o (ODone r) (_observe_operation id o r w).

(** What the operation returns once the turn was given up. *)
Definition op_result (o : op) (error : option exn) : result exn bool :=
  match error with
  | Some e => Raise e
  | None => Ok (match op_kind o with Finish => true | Cancel => false end)
  end.

Definition op_notify (id : task) (o : op) (w : world) : world :=
  match op_context o with
  | Some context =>
    if op_one_turn o then
      match begin_notify (TurnNotified context) context w with
      | (true, w) => set_op id o (OHandlers (m_session_end_handlers (mgr w)) None) w
      | (false, w) => finalize id o true (op_result o None) w
      end
    else finalize id o true (op_result o None) w
  | None => finalize id o true (op_result o None) w
  end.

(** The barrier returned. *)
Definition op_released (id : task) (o : op) (w : world) : world :=
  let released := match op_kind o with Finish => true | Cancel => negb (is_current_turn (op_turn o) w) end in
  if released then
    if 0 <? leases_of (op_turn o) w then set_op id o (OLeases false) w else op_notify id o w
  else finalize id o false (op_result o None) w.

Inductive op_wake :=
| ORun (out : spawn) (now : option Z)
| OResume
| OHandler (r : result exn unit)
| OCancelled.

Definition op_begin (o : op) (out : spawn) (now : option Z) : M world exn (option task) :=
  match op_kind o with
  | Finish => on_turns (begin_finish (op_turn o) out now)
  | Cancel => on_turns (begin_cancel (op_turn o) (op_reason o) out now)
  end.

Definition run_op (id : task) (wake_ : op_wake) (w : world) : world :=
  match ops w !! id with
  | None => w
  | Some o =>
    match op_phase_ o, wake_ with
    | OSpawned, ORun out now =>
      let o := mkOp (op_turn o) (op_kind o) (op_reason o) (m_turn_context_sessions (mgr w) !! op_turn o)
                 (bool_decide (op_turn o ∈ m_one_turn_context_turns (mgr w))) OSpawned in
      match op_begin o out now w with
      | (Ok (Some barrier), w) => set_op id o (OBarrier barrier) w
      | (Ok None, w) =>
        match op_kind o with
        | Finish => finalize id o false (Ok false) w
        | Cancel => op_released id o w
        end
      | (Raise e, w) => finalize id o false (Raise e) w
      end
    | OBarrier barrier, OResume =>
      match barrier_outcome barrier (turns w) with
      | None => w
      | Some (Ok _) => op_released id o w
      | Some (Raise e) => finalize id o false (Raise e) w
      end
    | OBarrier _, OCancelled => finalize id o false (Raise CancelledError) w
    | OLeases true, OResume =>
      if 0 <? leases_of (op_turn o) w then set_op id o (OLeases false) w else op_notify id o w
    | OLeases _, OCancelled => finalize id o true (Raise CancelledError) w
    | OHandlers (S n) error, OHandler r =>
      let error := handled r error in
      let w := record_handler r w in
      if bool_decide (n = 0%nat) then finalize id o true (op_result o error) w
      else set_op id o (OHandlers n error) w
    | _, _ => w
    end
  end.

(** *** Ending a context session *)

Definition set_end (id : task) (context : Z) (p : end_phase) (w : world) : world :=
  set_ends (<[id := mkEnding context p]> (ends w)) w.

(** The [finally] of [end_context_session]. *)
Definition end_finally (id : task) (context : Z) (r : result exn bool) (w : world) : world :=
  let w := on_mgr (λ m, set_m_ended_context_sessions ({[context]} ∪ m_ended_context_sessions m)
             (set_m_ending_context_sessions (m_ending_context_sessions m ∖ {[context]}) m)) w in
  set_end id context (EDone r) (notify_all w).

Definition end_notify (id : task) (context : Z) (w : world) : world :=
  match begin_notify (EndNotified context) context w with
  | (true, w) => set_end id context (EHandlers (m_session_end_handlers (mgr w)) None) w
  | (false, w) => end_finally id context (Ok true) w
  end.

(** [_wait_for_context_session_idle], then the handlers. *)
Definition end_wait (id : task) (context : Z) (w : world) : world :=
  if _context_session_has_live_turn_or_lease context (mgr w) then set_end id context (EWaiting false) w
  else end_notify id context w.

Definition end_context_session (context : Z) : M world exn reply :=
  m ← gets mgr;
  if bool_decide (context ∈ m_ended_context_sessions m) then mret (Returned false)
  else
    _ ← raise_if (negb (bool_decide (context ∈ m_known_context_sessions m)))
          (RuntimeError "context_session_unavailable");
    id ← gets next_id;
    _ ← modify (λ w, end_wait id context (set_next_id (id + 1) (notify_all (on_mgr (λ m,
          set_m_ending_context_sessions ({[context]} ∪ m_ending_context_sessions m) m) w))));
    mret (Joins id true).

Definition run_end (id : task) (wake_ : op_wake) (w : world) : world :=
  match ends w !! id with
  | None => w
  | Some e =>
    match en_phase e, wake_ with
    | EWaiting true, OResume => end_wait id (en_context e) w
    | EWaiting _, OCancelled => end_finally id (en_context e) (Raise CancelledError) w
    | EHandlers (S n) error, OHandler r =>
      let error := handled r error in
      let w := record_handler r w in
      if bool_decide (n = 0%nat)
      then end_finally id (en_context e) (match error with Some x => Raise x | None => Ok true end) w
      else set_end id (en_context e) (EHandlers n error) w
    | _, _ => w
    end
  end.

(** *** Steps *)

Inductive call :=
| COpen (household turn_ : Z) (context : option Z)
| CQueue (transition : Conversation.Transition) (active_turn_id household deferred_turn_id : Z)
| CAdmit
| CActive
| CRegister
| CLease (t : turn)
| CRelease (t : turn)
| CFinish (t : turn) (out : spawn)
| CCancel (t : turn) (reason : string) (out : spawn)
| CEnd (context : Z)
| COp (id : task) (wake_ : op_wake)
| CEnding (id : task) (wake_ : op_wake)
| CTurns (e : Ev).

Definition perform (x : call) (w : world) : world :=
  match x with
  | COpen h t context => (open h t context w).2
  | CQueue tr a h d => (queue_deferred_wake_from_transition tr a h d w).2
  | CAdmit => (admit_deferred_if_safe w).2
  | CActive => _synchronize_release w
  | CRegister => on_mgr (λ m, set_m_session_end_handlers (S (m_session_end_handlers m)) m) w
  | CLease t => (lease t w).2
  | CRelease t => if 0 <? leases_of t w then release_lease t w else w
  | CFinish t out => (finish t out w).2
  | CCancel t reason out => (cancel t reason out w).2
  | CEnd context => (end_context_session context w).2
  | COp id wake_ => run_op id wake_ w
  | CEnding id wake_ => run_end id wake_ w
  | CTurns e => set_turns (advance e (turns w)) w
  end.

Definition perform_all (xs : list call) (w : world) : world := foldl (λ w x, perform x w) w xs.

Definition new_manager : manager := mkManager None None None ∅ ∅ ∅ ∅ ∅ ∅ ∅ ∅ ∅ ∅ ∅ 0.
Definition new_world (c : C) : world := mkWorld new_manager c ∅ ∅ 0 [].

(** ** The invariant *)

Definition notified_context (x : mark) : option Z :=
  match x with Leased _ _ => None | TurnNotified context | EndNotified context => Some context end.

Definition ended (p : end_phase) : bool := match p with EDone _ => true | _ => false end.

(** The turn admitted last, until it is given up. *)
Definition active_turn (w : world) (t : turn) : Prop := ∃ a, m_active (mgr w) = Some a ∧ turn_id a = t.

Record sinv (w : world) : Prop := {
  s_owner : ∀ t, owner (turns w) = Some t → active_turn w t;
  s_leases : ∀ t n, m_context_leases (mgr w) !! t = Some n → 0 < n ∧ active_turn w t;
  s_sessions : ∀ t context, m_context_lease_sessions (mgr w) !! t = Some context →
    is_Some (m_context_leases (mgr w) !! t) ∧
    ∃ a, m_active (mgr w) = Some a ∧ turn_id a = t ∧ context_session_id a = context;
  s_ending : ∀ t, t ∈ m_ending_turns (mgr w) → active_turn w t;
  s_context : ∀ a context, m_active (mgr w) = Some a →
    m_turn_context_sessions (mgr w) !! turn_id a = Some context → context = context_session_id a;
  s_ends : ∀ id e, ends w !! id = Some e → ended (en_phase e) = false → unavailable (en_context e) (mgr w) = true;
  s_marks : ∀ x context, x ∈ marks w → notified_context x = Some context →
    context ∈ m_notified_context_sessions (mgr w);
  s_nodup : NoDup (omap notified_context (marks w));
  s_over : ∀ context, EndNotified context ∈ marks w →
    unavailable context (mgr w) = true ∧ ∀ a, m_active (mgr w) = Some a → context_session_id a ≠ context;
}.

(** The active turn stays, with its owner and its leases, or was free to be given up; marks
    are only added. *)
Definition handover (w w' : world) : Prop :=
  (∀ a, m_active (mgr w) = Some a →
    (m_active (mgr w') = Some a ∧ owner (turns w') = owner (turns w) ∧
     leases_of (turn_id a) w' = leases_of (turn_id a) w) ∨
    (owner (turns w) ≠ Some (turn_id a) ∧ leases_of (turn_id a) w = 0)) ∧
  marks w `suffix_of` marks w'.

Definition fine (w w' : world) : Prop := sinv w' ∧ handover w w'.

Lemma handover_trans w1 w2 w3 : handover w1 w2 → handover w2 w3 → handover w1 w3.
Proof.
  intros [H12 S12] [H23 S23]. split; [|by etrans]. intros a Ha. destruct (H12 a Ha) as [(Ha2 & Ho2 & Hl2)|?]; [|by right].
  destruct (H23 a Ha2) as [(? & ? & ?)|[? ?]]; [left; split_and!; congruence|right; split; congruence].
Qed.

Lemma handover_same w w' :
  m_active (mgr w') = m_active (mgr w) → owner (turns w') = owner (turns w) →
  m_context_leases (mgr w') = m_context_leases (mgr w) → marks w `suffix_of` marks w' → handover w w'.
Proof. intros Ha Ho Hl Hm. split; [|done]. intros a Ha'. left. unfold leases_of. split_and!; congruence. Qed.

Lemma fine_refl w : sinv w → fine w w.
Proof. intros ?. split; [done|by apply handover_same]. Qed.

Lemma fine_step w w1 w2 : fine w w1 → (sinv w1 → fine w1 w2) → fine w w2.
Proof. intros [H1 H2] H. destruct (H H1) as [H3 H4]. split; [done|by eapply handover_trans]. Qed.

(** *** Changes the invariant does not see *)

Lemma sinv_turns c w : owner c = owner (turns w) → sinv w → sinv (set_turns c w).
Proof. intros Ho []. constructor; try done. cbn. by rewrite Ho. Qed.
Lemma sinv_ops f w : sinv w → sinv (set_ops f w).
Proof. by intros []; constructor. Qed.
Lemma sinv_next n w : sinv w → sinv (set_next_id n w).
Proof. by intros []; constructor. Qed.
Lemma sinv_operations f w : sinv w → sinv (on_mgr (set_m_operations f) w).
Proof. by intros []; constructor. Qed.
Lemma sinv_one_turn f w : sinv w → sinv (on_mgr (set_m_one_turn_context_turns f) w).
Proof. by intros []; constructor. Qed.
Lemma sinv_handlers n w : sinv w → sinv (on_mgr (set_m_session_end_handlers n) w).
Proof. by intros []; constructor. Qed.
Lemma sinv_deferred d f w : sinv w → sinv (on_mgr (λ m, set_m_deferred_for_turn f (set_m_deferred d m)) w).
Proof. by intros []; constructor. Qed.

Lemma sinv_notify_all w : sinv w → sinv (notify_all w).
Proof.
  intros []. constructor; try done. cbn. intros id e He Hd. apply lookup_fmap_Some in He as (e' & <- & He').
  assert (en_context (signal_end e') = en_context e' ∧ ended (en_phase (signal_end e')) = ended (en_phase e')) as [Hc Hx].
  { unfold signal_end. by destruct e' as [? []]. }
  rewrite Hc. rewrite Hx in Hd. eauto.
Qed.

(** *** Giving a turn up, admitting the next *)

Lemma sync_fine w : sinv w → fine w (_synchronize_release w).
Proof.
  intros Hi. unfold _synchronize_release, is_current_turn. destruct (m_active (mgr w)) as [a|] eqn:Ha; [|by apply fine_refl].
  destruct (_ && _) eqn:Hc; [|by apply fine_refl]. bool_props.
  assert (∀ t, active_turn w t → t = turn_id a) as Hact by (intros t (a' & ? & <-); congruence).
  assert (∀ n, m_context_leases (mgr w) !! turn_id a = Some n → False) as Hl.
  { intros n Hn. apply (s_leases w Hi) in Hn as Hp. unfold leases_of in *. rewrite Hn in *. cbn in *. lia. }
  split.
  - constructor; cbn; try apply Hi.
    + intros t Ht. pose proof (Hact t (s_owner w Hi t Ht)) as ->. done.
    + intros t n Hn. apply (s_leases w Hi) in Hn as Hp. destruct Hp as [_ ->%Hact]. by apply Hl in Hn.
    + intros t context Ht. destruct (s_sessions w Hi t context Ht) as [[n Hn] (a' & ? & <- & _)].
      assert (a' = a) as -> by congruence. by apply Hl in Hn.
    + intros t Ht. apply (s_ending w Hi) in Ht as Ht'. apply Hact in Ht' as ->. done.
    + done.
    + intros context Hx. split; [by apply (s_over w Hi)|done].
  - split; [|done]. intros a' Ha'. assert (a' = a) as -> by congruence. by right.
Qed.

Context {Laws : TurnOwnerLaws C Ev}.

Lemma install_sinv a c w :
  sinv w → m_active (mgr w) = None → owner c = Some (turn_id a) → unavailable (context_session_id a) (mgr w) = false →
  sinv (on_mgr (install a) (set_turns c w)).
Proof.
  intros Hi Ha Ho Hu.
  assert (∀ t, ¬ active_turn w t) as Hno by (intros t (? & ? & _); congruence).
  assert (m_active (mgr (on_mgr (install a) (set_turns c w))) = Some a) as Ha'.
  { cbn. unfold install. by destruct (one_turn_context a). }
  constructor.
  - intros t. cbn. rewrite Ho. intros [= <-]. by exists a.
  - intros t n Hn. exfalso. apply (Hno t), (s_leases w Hi t n). revert Hn. cbn. unfold install. by destruct (one_turn_context a).
  - intros t context Ht. exfalso. destruct (s_sessions w Hi t context) as [_ (? & ? & _)]; [|congruence].
    revert Ht. cbn. unfold install. by destruct (one_turn_context a).
  - intros t Ht. exfalso. apply (Hno t), (s_ending w Hi). revert Ht. cbn. unfold install. by destruct (one_turn_context a).
  - intros a' context. rewrite Ha'. intros [= <-].
    replace (m_turn_context_sessions (mgr (on_mgr (install a) (set_turns c w))))
      with (<[turn_id a := context_session_id a]> (m_turn_context_sessions (mgr w)))
      by (cbn; unfold install; by destruct (one_turn_context a)).
    rewrite lookup_insert_eq. by intros [= <-].
  - intros id e He Hd. pose proof (s_ends w Hi id e He Hd) as Hx. revert Hx. cbn. unfold install, unavailable.
    by destruct (one_turn_context a).
  - intros x context Hx Hc. pose proof (s_marks w Hi x context Hx Hc) as Hm. revert Hm. cbn. unfold install.
    by destruct (one_turn_context a).
  - apply (s_nodup w Hi).
  - intros context Hx. destruct (s_over w Hi context Hx) as [Hx1 _]. split.
    + revert Hx1. cbn. unfold install, unavailable. by destruct (one_turn_context a).
    + rewrite Ha'. intros a' [= <-]. intros <-. congruence.
Qed.

Lemma begin_turn_fine t a w :
  sinv w → m_active (mgr w) = None → turn_id a = t → unavailable (context_session_id a) (mgr w) = false →
  wp (on_turns (begin_turn t)) (λ _ w', sinv (on_mgr (install a) w') ∧ mgr w' = mgr w ∧ marks w' = marks w) (λ _ w', fine w w') w.
Proof.
  intros Hi Ha <- Hu. pose proof (begin_turn_owner (turn_id a) (turns w)) as Hw. unfold wp, on_turns in *.
  destruct (begin_turn (turn_id a) (turns w)) as [[[]|e] c].
  - destruct Hw as [_ Ho]. split; [by apply install_sinv|done].
  - rewrite Hw. destruct w. by apply fine_refl.
Qed.

Lemma idle_handover w w' : m_active (mgr w) = None → marks w `suffix_of` marks w' → handover w w'.
Proof. intros Ha Hm. split; [|done]. intros a Ha'. congruence. Qed.

(** No session begins or ceases to end. *)
Definition same_over (w w' : world) : Prop := ∀ context, unavailable context (mgr w') = unavailable context (mgr w).

Lemma install_over a m context : unavailable context (install a m) = unavailable context m.
Proof. unfold install, unavailable. by destruct (one_turn_context a). Qed.

Lemma admit_fine released w :
  sinv w →
  wp (_admit_deferred_if_safe_locked released) (λ _ w', fine w w' ∧ same_over w w') (λ _, fine w) w.
Proof.
  intros Hi. unfold _admit_deferred_if_safe_locked. wp_step. wp_step. cbn.
  assert (fine w w ∧ same_over w w) as Hr by (split; [by apply fine_refl|done]).
  destruct (m_deferred (mgr w)) as [d|]; [|by wp_steps].
  destruct (_ || _) eqn:Hc; [by wp_steps|]. bool_props.
  assert (m_active (mgr w) = None) as Ha by (destruct (m_active (mgr w)); [by destruct H; eexists|done]).
  destruct (unavailable _ _) eqn:Hu.
  - wp_steps. split; [split; [by apply sinv_deferred|by apply handover_same]|done].
  - wp_step. eapply wp_mono; [by apply (begin_turn_fine _ d)| |done]. intros [] w' (Hi' & Hm & Hk). wp_steps. split.
    + split; [by apply (sinv_deferred None None) in Hi'|]. apply idle_handover; [done|]. cbn. by rewrite Hk.
    + intros context. cbn. rewrite Hm. apply (install_over d).
Qed.

Lemma wp_fine {A} (m : M world exn A) w : wp m (λ _, fine w) (λ _, fine w) w → fine w (m w).2.
Proof. unfold wp. by destruct (m w) as [[?|?] ?]. Qed.

Lemma fine_sync w w' : sinv w → (sinv (_synchronize_release w) → fine (_synchronize_release w) w') → fine w w'.
Proof. intros Hi. apply fine_step. by apply sync_fine. Qed.

(** A method that first gives up what can be given up. *)
Lemma wp_sync {A} (k : M world exn A) w :
  sinv w →
  (sinv (_synchronize_release w) →
   wp k (λ _, fine (_synchronize_release w)) (λ _, fine (_synchronize_release w)) (_synchronize_release w)) →
  wp (_ ← modify _synchronize_release; k) (λ _, fine w) (λ _, fine w) w.
Proof.
  intros Hi Hk. wp_step. wp_step. destruct (sync_fine w Hi) as [Hi1 Hh].
  eapply wp_mono; [by apply Hk|..]; intros _ w' [? ?]; (split; [done|by eapply handover_trans]).
Qed.

Lemma wp_after {A} (k : M world exn A) w w1 :
  fine w w1 → wp k (λ _, fine w1) (λ _, fine w1) w1 → wp k (λ _, fine w) (λ _, fine w) w1.
Proof.
  intros [_ Hh] Hk. eapply wp_mono; [exact Hk|..]; intros _ w' [? ?]; (split; [done|by eapply handover_trans]).
Qed.

Lemma open_fine h t context w : sinv w → fine w (open h t context w).2.
Proof.
  intros Hi. apply wp_fine. unfold open. apply wp_sync; [done|]. clear Hi. generalize (_synchronize_release w).
  clear w. intros w Hi. wp_step. wp_step. wp_step. wp_step; [|by apply fine_refl].
  wp_step. wp_step; [|by apply fine_refl]. wp_step. wp_step; [|by apply fine_refl]. wp_step. wp_step.
  wp_step. wp_step; [|by apply fine_refl]. wp_step.
  eapply wp_mono; [by apply admit_fine| |done]. intros _ w2 [Hf Ho]. apply wp_after; [done|]. destruct Hf as [Hi2 _].
  wp_step. wp_step. wp_step. wp_step; [|by apply fine_refl]. bool_props. cbn in *.
  assert (m_active (mgr w2) = None) as Ha by (destruct (m_active (mgr w2)); [by exfalso; eauto|done]).
  set (a := mkAdmission h t (default t context) (bool_decide (context = None))).
  assert (unavailable (context_session_id a) (mgr w2) = false) as Hu by by rewrite Ho.
  wp_step. unfold wp at 1. pose proof (begin_turn_fine t a w2 Hi2 Ha eq_refl Hu) as Hw. unfold wp in Hw.
  destruct (on_turns (begin_turn t) w2) as [[[]|e] w3].
  - destruct Hw as (Hi3 & _ & Hk). wp_steps. split; [done|]. apply idle_handover; [done|]. cbn. by rewrite Hk.
  - by destruct e.
Qed.

Lemma queue_fine tr a h d w : sinv w → fine w (queue_deferred_wake_from_transition tr a h d w).2.
Proof.
  intros Hi. apply wp_fine. unfold queue_deferred_wake_from_transition.
  destruct (negb _); [wp_steps; by apply fine_refl|]. wp_step. wp_step; [|by apply fine_refl].
  apply wp_sync; [done|]. clear Hi. generalize (_synchronize_release w). clear w. intros w Hi.
  wp_step. wp_step. cbn. destruct (m_active (mgr w)); [|wp_steps; by apply fine_refl].
  wp_step. wp_step; [|by apply fine_refl]. wp_step. wp_step; [|by apply fine_refl].
  case_bool_decide; [wp_steps; by apply fine_refl|]. wp_step. wp_step; [|by apply fine_refl]. wp_steps.
  split; [by apply sinv_deferred|by apply handover_same].
Qed.

Lemma admit_deferred_fine w : sinv w → fine w (admit_deferred_if_safe w).2.
Proof.
  intros Hi. apply wp_fine. unfold admit_deferred_if_safe. apply wp_sync; [done|]. intros Hi1.
  wp_step. wp_step. eapply wp_mono; [by apply admit_fine|by intros ? ? []|done].
Qed.

(** *** Leases *)

Lemma lease_sinv t w : sinv w → sinv (lease t w).2 ∧ (∀ a, m_active (mgr (_synchronize_release w)) = Some a →
  m_active (mgr (lease t w).2) = Some a) ∧ marks (_synchronize_release w) `suffix_of` marks (lease t w).2.
Proof.
  intros Hi. destruct (sync_fine w Hi) as [Hi1 _]. unfold lease, mbind, M_bind. cbn.
  set (w1 := _synchronize_release w) in *. clearbody w1. clear Hi w.
  destruct (m_active (mgr w1)) as [a|] eqn:Ha; [|done]. cbn. destruct (_ || _) eqn:Hc; [cbn; split_and!; [done|congruence|done]|]. cbn. bool_props.
  assert (∀ s, active_turn w1 s → s = turn_id a) as Hact by (intros s (a' & ? & <-); congruence).
  split_and!; [|congruence|by apply suffix_cons_r]. constructor; cbn; try apply Hi1.
  - intros s n [[<- <-]|[_ Hn]]%lookup_insert_Some; [|by apply (s_leases w1 Hi1)]. split; [|by exists a].
    destruct (m_context_leases (mgr w1) !! t) as [n|] eqn:Hn; cbn; [apply (s_leases w1 Hi1) in Hn; lia|lia].
  - intros s context [[<- <-]|[Hne Hs]]%lookup_insert_Some.
    + rewrite lookup_insert_eq. split; [by eexists|by exists a].
    + destruct (s_sessions w1 Hi1 s context Hs) as [? ?]. by rewrite lookup_insert_ne.
  - intros x context [->|Hx]%elem_of_cons; [done|by apply (s_marks w1 Hi1)].
  - intros context [[=]|Hx]%elem_of_cons. by apply (s_over w1 Hi1).
Qed.

Lemma release_sinv t w : sinv w → 0 < leases_of t w → sinv (release_lease t w).
Proof.
  intros Hi Hl. apply sinv_notify_all. destruct (0 <? leases_of t w - 1) eqn:Hr; bool_props.
  - assert (active_turn w t) as Ht.
    { unfold leases_of in Hl. destruct (m_context_leases (mgr w) !! t) as [n|] eqn:Hn; [|done].
      by apply (s_leases w Hi) in Hn as [_ ?]. }
    constructor; cbn; try apply Hi.
    + intros s n [[<- <-]|[_ Hn]]%lookup_insert_Some; [done|by apply (s_leases w Hi)].
    + intros s context Hs. destruct (s_sessions w Hi s context Hs) as [? ?]. split; [|done].
      destruct (decide (s = t)) as [->|]; [rewrite lookup_insert_eq; by eexists|by rewrite lookup_insert_ne].
  - constructor; cbn; try apply Hi.
    + intros s n [_ Hn]%lookup_delete_Some. by apply (s_leases w Hi).
    + intros s context [Hne Hs]%lookup_delete_Some. destruct (s_sessions w Hi s context Hs) as [? ?].
      by rewrite lookup_delete_ne.
Qed.

(** *** Finish and cancel *)

Lemma sinv_ending f w :
  sinv w → (∀ t, t ∈ f → t ∈ m_ending_turns (mgr w) ∨ active_turn w t) → sinv (on_mgr (set_m_ending_turns f) w).
Proof. intros [] Hf. constructor; try done. cbn. intros t [?|?]%Hf; [by apply s_ending0|done]. Qed.

Lemma sinv_cleanup t w :
  sinv w → sinv (on_mgr (set_m_turn_context_sessions (delete t (m_turn_context_sessions (mgr w)))) w).
Proof.
  intros []. constructor; try done. cbn. intros a context Ha [_ Hc]%lookup_delete_Some. eauto.
Qed.

Lemma begin_operation_fine kind t reason out w : sinv w → fine w (begin_operation kind t reason out w).2.
Proof.
  intros Hi. unfold begin_operation. destruct (m_operations (mgr w) !! _); [by apply fine_refl|].
  apply fine_sync; [done|]. generalize (_synchronize_release w). clear Hi w. intros w Hi.
  destruct (m_active (mgr w)) as [a|] eqn:Ha; [|by apply fine_refl]. destruct (turn_id a =? t) eqn:Ht; [|by apply fine_refl].
  bool_props. set (w1 := on_mgr _ w). assert (sinv w1) as Hi1.
  { apply sinv_ending; [done|]. intros s [->%elem_of_singleton|?]%elem_of_union; [right; by exists a|by left]. }
  assert (∀ f n, sinv (set_next_id n (set_ops f w1))) as Hi2 by (intros; by apply sinv_next, sinv_ops).
  assert (∀ f n g, sinv (set_turns (with_health g (turns w1)) (set_next_id n (set_ops f w1)))) as Hi3.
  { intros. apply sinv_turns; [apply with_health_owner|done]. }
  unfold _spawn_operation. cbn.
  destruct (_ <=? _); [split; [apply Hi2|by apply handover_same]|].
  destruct out; cbn; (split; [by try apply sinv_operations; apply Hi2 || apply Hi3|]);
    apply handover_same; cbn; try done; apply with_health_owner.
Qed.

Lemma observe_fine id o r w : sinv w → fine w (_observe_operation id o r w).
Proof.
  intros Hi. unfold _observe_operation. case_bool_decide; [|by apply fine_refl].
  destruct r as [|e]; [split; [by apply sinv_operations|by apply handover_same]|].
  destruct e; (split; [try apply sinv_turns; [try apply with_health_owner..|]; by apply sinv_operations|]);
    apply handover_same; cbn; try done; apply with_health_owner.
Qed.
Lemma set_op_fine id o p w : sinv w → fine w (set_op id o p w).
Proof. intros ?. split; [by apply sinv_ops|by apply handover_same]. Qed.

Lemma finalize_fine id o released r w : sinv w → fine w (finalize id o released r w).
Proof.
  intros Hi. unfold finalize. set (w1 := on_mgr _ w).
  apply (fine_step w w1).
  { split; [|by apply handover_same]. apply sinv_ending; [done|]. set_solver. }
  intros Hi1. apply (fine_step _ (notify_all w1)).
  { split; [by apply sinv_notify_all|by apply handover_same]. }
  intros Hi2. apply fine_sync; [done|]. generalize (_synchronize_release (notify_all w1)). clear w1 Hi Hi1 Hi2 w.
  intros w Hi.
  assert (∀ w1 r, fine w w1 → fine w (set_op id o (ODone r) (_observe_operation id o r w1))) as Hend.
  { intros w1 r' Hf. apply (fine_step w w1); [done|]. intros Hi1.
    apply (fine_step _ (_observe_operation id o r' w1)); [by apply observe_fine|]. by apply set_op_fine. }
  destruct released; [|by apply Hend, fine_refl].
  set (w1 := on_mgr _ w). assert (fine w w1) as Hf1.
  { split; [|by apply handover_same]. by apply (sinv_cleanup (op_turn o)), sinv_one_turn with (f := m_one_turn_context_turns (mgr w) ∖ {[op_turn o]}) in Hi. }
  pose proof (admit_fine (Some (op_turn o)) w1 (proj1 Hf1)) as Hw. unfold wp in Hw.
  destruct (_admit_deferred_if_safe_locked _ w1) as [[?|?] w2].
  - destruct Hw as [Hw _]. apply Hend. by apply (fine_step w w1).
  - apply Hend. by apply (fine_step w w1).
Qed.

Lemma begin_notify_fine x context w :
  sinv w → notified_context x = Some context →
  (x = EndNotified context → unavailable context (mgr w) = true ∧
     ∀ a, m_active (mgr w) = Some a → context_session_id a ≠ context) →
  fine w (begin_notify x context w).2.
Proof.
  intros Hi Hx He. unfold begin_notify. case_bool_decide as Hn; [by apply fine_refl|]. cbn.
  split; [|apply handover_same; [done..|by apply suffix_cons_r]]. constructor; cbn; try apply Hi.
  - intros y c' [->|Hy]%elem_of_cons Hc; [|apply elem_of_union; right; by eapply s_marks].
    rewrite Hx in Hc. set_solver.
  - rewrite Hx. constructor; [|apply (s_nodup w Hi)]. intros (y & Hy & Hc)%list_elem_of_omap. by apply Hn, (s_marks w Hi y).
  - intros c' [<-|Hc]%elem_of_cons; [|by apply (s_over w Hi)]. injection Hx as ->. by apply He.
Qed.

Lemma op_notify_fine id o w : sinv w → fine w (op_notify id o w).
Proof.
  intros Hi. unfold op_notify. destruct (op_context o) as [context|]; [|by apply finalize_fine].
  destruct (op_one_turn o); [|by apply finalize_fine].
  pose proof (begin_notify_fine (TurnNotified context) context w Hi eq_refl ltac:(done)) as Hf.
  destruct (begin_notify _ _ w) as [[] w1]; cbn in Hf; (eapply fine_step; [exact Hf|]).
  - by apply set_op_fine.
  - by apply finalize_fine.
Qed.

Lemma op_released_fine id o w : sinv w → fine w (op_released id o w).
Proof.
  intros Hi. unfold op_released. destruct (match op_kind o with Finish => true | Cancel => _ end); [|by apply finalize_fine].
  destruct (_ <? _); [by apply set_op_fine|by apply op_notify_fine].
Qed.

Lemma record_handler_fine r w : sinv w → fine w (record_handler r w).
Proof.
  intros Hi. destruct r; [by apply fine_refl|]. split.
  - apply sinv_turns; [apply with_health_owner|done].
  - apply handover_same; [done|apply with_health_owner|done..].
Qed.

Lemma op_begin_fine o out now w : sinv w → wp (op_begin o out now) (λ _, fine w) (λ _, fine w) w.
Proof.
  intros Hi. assert (∀ c, owner c = owner (turns w) → fine w (set_turns c w)) as Hc.
  { intros c Ho. split; [by apply sinv_turns|by apply handover_same]. }
  unfold op_begin. destruct (op_kind o); unfold wp, on_turns.
  - pose proof (begin_finish_owner (op_turn o) out now (turns w)) as Hw. unfold wp in Hw.
    destruct (begin_finish _ _ _ _) as [[?|?] ?]; by apply Hc.
  - pose proof (begin_cancel_owner (op_turn o) (op_reason o) out now (turns w)) as Hw. unfold wp in Hw.
    destruct (begin_cancel _ _ _ _ _) as [[?|?] ?]; by apply Hc.
Qed.

Lemma run_op_fine id x w : sinv w → fine w (run_op id x w).
Proof.
  intros Hi. unfold run_op. destruct (ops w !! id) as [o|]; [|by apply fine_refl].
  destruct (op_phase_ o) as [|barrier|[]|[|n] error|r], x as [out now| |r'|]; try by apply fine_refl.
  - cbv zeta. match goal with |- context [op_begin ?x _ _ _] => set (o' := x) end.
    pose proof (op_begin_fine o' out now w Hi) as Hw. unfold wp in Hw.
    destruct (op_begin o' out now w) as [[[barrier|]|e] w1]; (eapply fine_step; [exact Hw|intros Hi1]).
    + by apply set_op_fine.
    + destruct (op_kind o'); [by apply finalize_fine|by apply op_released_fine].
    + by apply finalize_fine.
  - destruct (barrier_outcome barrier (turns w)) as [[?|?]|]; [by apply op_released_fine|by apply finalize_fine|by apply fine_refl].
  - by apply finalize_fine.
  - destruct (_ <? _); [by apply set_op_fine|by apply op_notify_fine].
  - by apply finalize_fine.
  - by apply finalize_fine.
  - apply (fine_step _ (record_handler r' w)); [by apply record_handler_fine|]. intros Hi1.
    case_bool_decide; [by apply finalize_fine|by apply set_op_fine].
Qed.

(** *** Ending a context session *)

Lemma sinv_set_end id context p w :
  sinv w → ended p = true ∨ unavailable context (mgr w) = true → sinv (set_end id context p w).
Proof.
  intros [] Hp. constructor; try done. cbn. intros id' e [[<- <-]|[_ He]]%lookup_insert_Some Hd; [|by eauto].
  cbn in *. destruct Hp; [congruence|done].
Qed.

Lemma set_end_fine id context p w :
  sinv w → ended p = true ∨ unavailable context (mgr w) = true → fine w (set_end id context p w).
Proof. intros. split; [by apply sinv_set_end|by apply handover_same]. Qed.

(** Sessions that end or ended may change, but none becomes available again. *)
Lemma sinv_sessions f g w :
  sinv w → (m_ending_context_sessions (mgr w) ∪ m_ended_context_sessions (mgr w) ⊆ f ∪ g) →
  sinv (on_mgr (λ m, set_m_ended_context_sessions g (set_m_ending_context_sessions f m)) w).
Proof.
  intros Hi Hs.
  assert (∀ context, unavailable context (mgr w) = true →
    unavailable context (set_m_ended_context_sessions g (set_m_ending_context_sessions f (mgr w))) = true) as Hu.
  { intros context. unfold unavailable. cbn. rewrite !orb_true_iff, !bool_decide_eq_true. set_solver. }
  destruct Hi. constructor; try done; cbn.
  - eauto.
  - intros context Hx. destruct (s_over0 context Hx). split; [by apply Hu|done].
Qed.

Lemma end_finally_fine id context r w : sinv w → fine w (end_finally id context r w).
Proof.
  intros Hi. unfold end_finally. set (w1 := on_mgr _ w).
  apply (fine_step w w1).
  { split; [|by apply handover_same]. apply sinv_sessions; [done|]. intros x Hx.
    destruct (decide (x = context)); set_solver. }
  intros Hi1. apply (fine_step _ (notify_all w1)).
  { split; [by apply sinv_notify_all|by apply handover_same]. }
  intros Hi2. apply set_end_fine; [done|by left].
Qed.

Lemma has_live_false context w :
  sinv w → _context_session_has_live_turn_or_lease context (mgr w) = false ↔
  ∀ a, m_active (mgr w) = Some a → context_session_id a ≠ context.
Proof.
  intros Hi. unfold _context_session_has_live_turn_or_lease. split.
  - intros H a Ha. bool_props. rewrite Ha in *. by bool_props.
  - intros Hc. rewrite !orb_false_iff. split_and!.
    + destruct (m_active (mgr w)) as [a|]; [|done]. apply Z.eqb_neq. by apply Hc.
    + apply not_true_is_false. intros (t & Ht & Hb)%existsb_exists. bool_props.
      apply list_elem_of_In, elem_of_elements, (s_ending w Hi) in Ht as (a & Ha & <-).
      apply (s_context w Hi a) in Hb; [|done]. by apply (Hc a).
    + apply not_true_is_false. intros ([t s] & Ht & Hb)%existsb_exists. cbn in Hb. bool_props. subst s.
      apply list_elem_of_In, elem_of_map_to_list, (s_sessions w Hi) in Ht as [_ (a & Ha & _ & Hx)].
      by apply (Hc a).
Qed.

Lemma begin_notify_over x context w : same_over w (begin_notify x context w).2.
Proof. unfold begin_notify. by case_bool_decide. Qed.

Lemma end_wait_fine id context w : sinv w → unavailable context (mgr w) = true → fine w (end_wait id context w).
Proof.
  intros Hi Hu. unfold end_wait. destruct (_context_session_has_live_turn_or_lease _ _) eqn:Hl.
  { apply set_end_fine; [done|by right]. }
  unfold end_notify. rewrite has_live_false in Hl by done.
  pose proof (begin_notify_fine (EndNotified context) context w Hi eq_refl ltac:(done)) as Hf.
  pose proof (begin_notify_over (EndNotified context) context w context) as Ho.
  destruct (begin_notify _ _ w) as [[] w1]; cbn in Hf, Ho; (eapply fine_step; [exact Hf|intros Hi1]).
  - apply set_end_fine; [done|right; congruence].
  - by apply end_finally_fine.
Qed.

Lemma end_context_session_fine context w : sinv w → fine w (end_context_session context w).2.
Proof.
  intros Hi. apply wp_fine. unfold end_context_session. wp_step. wp_step.
  case_bool_decide; [wp_steps; by apply fine_refl|]. wp_step. wp_step; [|by apply fine_refl]. wp_steps.
  set (w1 := on_mgr _ w). apply (fine_step w w1).
  { split; [|by apply handover_same].
    apply (sinv_sessions ({[context]} ∪ m_ending_context_sessions (mgr w)) (m_ended_context_sessions (mgr w)) w) in Hi;
      [|set_solver]. unfold w1. destruct w as [[]]. exact Hi. }
  intros Hi1. apply (fine_step _ (set_next_id (next_id w + 1) (notify_all w1))).
  { split; [by apply sinv_next, sinv_notify_all|by apply handover_same]. }
  intros Hi2. apply end_wait_fine; [done|]. cbn. unfold unavailable. cbn.
  rewrite bool_decide_true; [done|set_solver].
Qed.

Lemma run_end_fine id x w : sinv w → fine w (run_end id x w).
Proof.
  intros Hi. unfold run_end. destruct (ends w !! id) as [e|] eqn:He; [|by apply fine_refl].
  destruct (en_phase e) as [[]|[|n] error|r] eqn:Hp, x as [out now| |r'|]; try by apply fine_refl.
  - apply end_wait_fine; [done|]. eapply s_ends; [done..|]. by rewrite Hp.
  - by apply end_finally_fine.
  - by apply end_finally_fine.
  - apply (fine_step _ (record_handler r' w)); [by apply record_handler_fine|]. intros Hi1.
    case_bool_decide; [by apply end_finally_fine|]. apply set_end_fine; [done|right].
    assert (unavailable (en_context e) (mgr w) = true) as Hu by (eapply s_ends; [done..|]; by rewrite Hp).
    by destruct r'.
Qed.

(** ** Every call *)

Lemma perform_sinv x w :
  sinv w → sinv (perform x w) ∧
  (∀ a, m_active (mgr w) = Some a → m_active (mgr (perform x w)) = Some a ∨
    (owner (turns w) ≠ Some (turn_id a) ∧ leases_of (turn_id a) w = 0)) ∧
  marks w `suffix_of` marks (perform x w).
Proof.
  intros Hi. assert (∀ w', fine w w' → sinv w' ∧ (∀ a, m_active (mgr w) = Some a → m_active (mgr w') = Some a ∨
    (owner (turns w) ≠ Some (turn_id a) ∧ leases_of (turn_id a) w = 0)) ∧ marks w `suffix_of` marks w') as Hf.
  { intros w' [? [Hh ?]]. split_and!; [done| |done]. intros a Ha. destruct (Hh a Ha) as [[? _]|?]; auto. }
  destruct x; cbn [perform].
  - by apply Hf, open_fine.
  - by apply Hf, queue_fine.
  - by apply Hf, admit_deferred_fine.
  - by apply Hf, sync_fine.
  - apply Hf. split; [by apply sinv_handlers|by apply handover_same].
  - destruct (lease_sinv t w Hi) as (? & Hk & Hm). destruct (sync_fine w Hi) as [_ [Hh Hs]].
    split_and!; [done| |by etrans]. intros a Ha. destruct (Hh a Ha) as [[Ha' _]|?]; auto.
  - destruct (0 <? leases_of t w) eqn:Hl; [|by apply Hf, fine_refl]. bool_props.
    split_and!; [by apply release_sinv| |done]. intros a Ha. left. cbn. by destruct (_ <? _).
  - apply Hf. unfold finish. destruct (_ !! (t, Cancel)); [by apply fine_refl|by apply begin_operation_fine].
  - by apply Hf, begin_operation_fine.
  - by apply Hf, end_context_session_fine.
  - by apply Hf, run_op_fine.
  - by apply Hf, run_end_fine.
  - split_and!; [|auto|done]. destruct Hi. constructor; try done. cbn. intros t Ht.
    destruct (advance_owner e (turns w)) as [Ho|Ho]; [rewrite Ho in Ht; by apply s_owner0|congruence].
Qed.

Lemma new_sinv c : owner c = None → sinv (new_world c).
Proof.
  intros Ho. constructor; cbn; try done; try set_solver; try (by constructor); intros; congruence.
Qed.

Lemma perform_all_sinv c xs : owner c = None → sinv (perform_all xs (new_world c)).
Proof.
  intros Ho. unfold perform_all. induction xs as [|x xs IH] using rev_ind; [by apply new_sinv|].
  rewrite foldl_app. by apply perform_sinv.
Qed.

Lemma perform_all_marks c xs ys :
  owner c = None → marks (perform_all xs (new_world c)) `suffix_of` marks (perform_all (xs ++ ys) (new_world c)).
Proof.
  intros Ho. induction ys as [|y ys IH] using rev_ind; [by rewrite app_nil_r|].
  etrans; [exact IH|]. rewrite (app_assoc xs). unfold perform_all at 2. rewrite foldl_app.
  by apply perform_sinv, perform_all_sinv.
Qed.

(** C10: one turn at a time.  Whatever is called and however the operations interleave, the
    turn that owns the household is the admitted one; every lease out is a lease of that turn;
    and its place is given up only when it no longer owns the household and no lease of it is
    out. *)
Theorem session_exclusive c xs x :
  owner c = None →
  let w := perform_all xs (new_world c) in
  (∀ t, owner (turns w) = Some t → active_turn w t) ∧
  (∀ t, 0 < leases_of t w → active_turn w t) ∧
  (∀ a, m_active (mgr w) = Some a → m_active (mgr (perform x w)) ≠ Some a →
     owner (turns w) ≠ Some (turn_id a) ∧ leases_of (turn_id a) w = 0).
Proof.
  intros Ho w. assert (sinv w) as Hi by by apply perform_all_sinv. split_and!.
  - apply Hi.
  - intros t Hl. unfold leases_of in Hl. destruct (_ !! t) as [n|] eqn:Hn; [|done]. by apply (s_leases w Hi t n).
  - intros a Ha Hn. by destruct (proj1 (proj2 (perform_sinv x w Hi)) a Ha).
Qed.

Lemma sync_over w : same_over w (_synchronize_release w).
Proof. unfold _synchronize_release. destruct (m_active (mgr w)); [|done]. by destruct (_ && _). Qed.

(** C28: a context session ends once.  Its handlers are started at most once, by whichever of
    finish, cancel and [end_context_session] comes first; and from the moment
    [end_context_session] starts them, no turn and no lease of the session is live, and none
    is ever admitted to it again. *)
Theorem session_ends_once c xs :
  owner c = None →
  let w := perform_all xs (new_world c) in
  NoDup (omap notified_context (marks w)) ∧
  ∀ context, EndNotified context ∈ marks w →
    _context_session_has_live_turn_or_lease context (mgr w) = false ∧
    ∀ h t, (open h t (Some context) w).1 = Raise (RuntimeError "context_session_unavailable").
Proof.
  intros Ho w. assert (sinv w) as Hi by by apply perform_all_sinv. split; [apply Hi|].
  intros context Hx. destruct (s_over w Hi context Hx) as [Hu Ha]. split; [by apply has_live_false|].
  intros h t. unfold open, raise_if, mbind, M_bind. cbn. rewrite sync_over, Hu. done.
Qed.

End Manager.

(** ** The coordinator as owner

    The manager alone starts turns; everything else may reach the coordinator directly. *)
#[export] Instance coordinator_owner : TurnOwner coordinator event := {|
  owner := _active;
  state_of := _state;
  accepts := accepts_results;
  begin_turn := start;
  begin_finish := Turns.finish;
  begin_cancel := Turns.cancel;
  barrier_outcome id c :=
    match barriers (loop c) !! id with
    | Some b => match b_phase b with Finished r => Some r | _ => None end
    | None => None
    end;
  with_health := on_health;
  advance e c := match e with EStart _ => c | _ => step e c end;
|}.

#[export] Instance coordinator_laws : TurnOwnerLaws coordinator event.
Proof.
  constructor.
  - intros t c. cbn. unfold accepts_results. intros H. by bool_props.
  - apply start_owner.
  - intros t out now c. eapply wp_mono; [apply finish_tame|by intros ? ? []..].
  - intros t reason out now c. eapply wp_mono; [apply cancel_tame|by intros ? ? []..].
  - done.
  - intros e c. cbn. destruct e; try (by left); try (by apply step_owned).
    left. apply reconciliation_active.
Qed.

(** ** Sample runs *)

Definition sample_world : world (C := coordinator) := new_world sample_coordinator.

Lemma sample_idle : owner sample_coordinator = None.
Proof. done. Qed.

(** Operation [o] runs, its barrier goes through, and it is resumed. *)
Definition close_turn (o barrier : task) (outs : list attempt) : list call :=
  COp o (ORun Created None) :: map CTurns (barrier_events barrier (barrier + 2) (barrier + 3) outs) ++ [COp o OResume].

Definition speaking_wake : Conversation.Transition :=
  Conversation.mkTransition Conversation.IDLE (Conversation._STOP_EFFECTS ++ ["queue_wake_after_safe_idle"]).

(** A turn of its own context session, a wake word deferred behind it, both finished. *)
Definition deferred_run : list call :=
  [CRegister; COpen 1 10 None; CQueue speaking_wake 10 1 20; CFinish 10 Created] ++
  close_turn 0 0 [stopped 10] ++ [COp 0 (OHandler (Ok tt)); CLease 20; CRelease 20; CFinish 20 Created] ++
  close_turn 1 4 [stopped 20].

Definition cancelled_end_run : list call :=
  [CRegister; COpen 1 10 (Some 7); CLease 10; CEnd 7; CEnding 0 OCancelled; CRelease 10; CFinish 10 Created] ++
  close_turn 1 0 [stopped 10] ++ [CEnd 7].

Definition lost_wake_run : list call :=
  [CRegister; COpen 1 10 (Some 7); CCancel 10 "stop" Created] ++
  close_turn 0 0 [AttemptTimeout; AttemptTimeout; AttemptTimeout] ++
  [CEnd 7; CTurns (ERecoverBegin 10); CTurns (ERecoverEnd 10 (Ok tt) Created None)] ++
  map CTurns (barrier_events 4 6 7 [stopped 10]) ++ [CActive].

Lemma notified_before later earlier context :
  NoDup (omap notified_context (later ++ earlier)) → context ∈ omap notified_context earlier →
  ∀ x, x ∈ later → notified_context x ≠ Some context.
Proof.
  rewrite omap_app. intros (_ & Hd & _)%NoDup_app He x Hx Hc. apply (Hd context); [|done].
  apply list_elem_of_omap. eauto.
Qed.

(** Two runs in which a session's end is never told to its handlers.  A wake word deferred
    behind a turn of its own context session is admitted to that same session after the
    session's handlers ran: it takes leases on it and finishes, and whatever follows, the
    handlers are never started for it again.  And a call of [end_context_session] that is
    cancelled while it waits leaves the session ended with its handlers never started; asking
    again returns at once. *)
Example session_end_skipped ys :
  ops (perform_all deferred_run sample_world) !! 1 = Some (mkOp 20 Finish "" (Some 10) true (ODone (Ok true))) ∧
  (∃ later, marks (perform_all (deferred_run ++ ys) sample_world) = later ++ [Leased 20 10; TurnNotified 10] ∧
     ∀ x, x ∈ later → notified_context x ≠ Some 10) ∧
  (let w := perform_all cancelled_end_run sample_world in
   7 ∈ m_ended_context_sessions (mgr w) ∧ marks w = [Leased 10 7] ∧ m_active (mgr w) = None ∧
   (end_context_session 7 w).1 = Ok (Returned false)).
Proof.
  split_and!; [by vm_compute| |by vm_compute..].
  assert (marks (perform_all deferred_run sample_world) = [Leased 20 10; TurnNotified 10]) as Hm by by vm_compute.
  assert (sinv (perform_all (deferred_run ++ ys) sample_world)) as Hi by by apply perform_all_sinv.
  destruct (perform_all_marks sample_coordinator deferred_run ys sample_idle) as [later Hl].
  fold sample_world in Hl. rewrite Hm in Hl. exists later. split; [done|].
  pose proof (s_nodup _ Hi) as Hn. rewrite Hl in Hn. clear Hi Hl Hm.
  apply (notified_before _ _ 10 Hn). by left.
Qed.

(** ** A lost wake-up *)

(** The household is idle, nothing runs, and one call waits, unsignalled, for its session. *)
Record stuck (id : task) (context : Z) (w : world (C := coordinator)) : Prop := {
  k_owner : owner (turns w) = None;
  k_active : m_active (mgr w) = None;
  k_deferred : m_deferred (mgr w) = None;
  k_leases : m_context_leases (mgr w) = ∅;
  k_ending : context ∈ m_ending_context_sessions (mgr w);
  k_ops : map_Forall (λ _ o, is_Some (match op_phase_ o with ODone r => Some r | _ => None end)) (ops w);
  k_waiting : ends w !! id = Some (mkEnding context (EWaiting false));
  k_ends : map_Forall (λ i e, i ≠ id → ended (en_phase e) = true) (ends w);
}.

(** What could still wake the call: its own cancellation, or a further end of a known session. *)
Definition rescues (id : task) (known : gset Z) (x : call (Ev := event)) : bool :=
  match x with
  | CEnd context => bool_decide (context ∈ known)
  | CEnding i OCancelled => i =? id
  | _ => false
  end.

Lemma stuck_sync id context w : stuck id context w → _synchronize_release w = w.
Proof. intros K. unfold _synchronize_release. by rewrite (k_active _ _ _ K). Qed.

Lemma stuck_open id context w h t c :
  stuck id context w → ∃ e, open h t c w = (Raise e, w).
Proof.
  intros K. unfold open, raise_if, mbind, M_bind. cbn. rewrite (stuck_sync id context w K).
  destruct (unavailable _ _); [by eexists|]. cbn. destruct (match _ !! _ with Some _ => _ | None => _ end); [by eexists|].
  cbn. rewrite (bool_decide_eq_false_2 (_ = ∅)); [by eexists|]. pose proof (k_ending _ _ _ K). set_solver.
Qed.

Lemma stuck_perform id context x w :
  stuck id context w → rescues id (m_known_context_sessions (mgr w)) x = false →
  stuck id context (perform x w) ∧
  m_known_context_sessions (mgr (perform x w)) = m_known_context_sessions (mgr w).
Proof.
  intros K Hr. assert (∀ w', w' = w → stuck id context w' ∧
    m_known_context_sessions (mgr w') = m_known_context_sessions (mgr w)) as Hsame by by intros ? ->.
  assert (_synchronize_release w = w) as Hs by by eapply stuck_sync.
  destruct x; cbn [perform].
  - destruct (stuck_open id context w household turn_ context0 K) as [e He]. rewrite He. by apply Hsame.
  - apply Hsame. unfold queue_deferred_wake_from_transition, raise_if, mbind, M_bind. destruct (negb _); [done|].
    cbn. destruct (_ =? _); [done|]. cbn. rewrite Hs, (k_active _ _ _ K). done.
  - apply Hsame. unfold admit_deferred_if_safe, _admit_deferred_if_safe_locked, mbind, M_bind. cbn.
    by rewrite Hs, (k_deferred _ _ _ K).
  - by apply Hsame.
  - split; [|done]. by destruct K.
  - apply Hsame. unfold lease, mbind, M_bind. cbn. by rewrite Hs, (k_active _ _ _ K).
  - apply Hsame. unfold leases_of. by rewrite (k_leases _ _ _ K), lookup_empty.
  - apply Hsame. unfold finish, begin_operation. rewrite Hs, (k_active _ _ _ K). by repeat case_match.
  - apply Hsame. unfold cancel, begin_operation. rewrite Hs, (k_active _ _ _ K). by repeat case_match.
  - apply Hsame. unfold end_context_session, raise_if, mbind, M_bind. cbn in Hr. cbn -[bool_decide].
    destruct (bool_decide (_ ∈ m_ended_context_sessions _)); [done|]. rewrite Hr. done.
  - apply Hsame. unfold run_op. destruct (ops w !! id0) as [o|] eqn:Ho; [|done].
    apply (k_ops _ _ _ K) in Ho as [r Ho]. by destruct (op_phase_ o).
  - apply Hsame. unfold run_end. destruct (ends w !! id0) as [e|] eqn:He; [|done].
    destruct (decide (id0 = id)) as [->|Hne].
    + rewrite (k_waiting _ _ _ K) in He. injection He as <-. cbn in *. destruct wake_; try done. lia.
    + apply (k_ends _ _ _ K) in He as Hd. specialize (Hd Hne). unfold ended in Hd. by destruct (en_phase e).
  - split; [|done]. destruct K as [Ho]. constructor; try done. change (owner (advance e (turns w)) = None).
    destruct (advance_owner e (turns w)) as [->|?]; done.
Qed.

Lemma stuck_all id context ys w :
  stuck id context w → forallb (λ y, negb (rescues id (m_known_context_sessions (mgr w)) y)) ys = true →
  stuck id context (perform_all ys w).
Proof.
  revert w. induction ys as [|y ys IH]; intros w K Hr; [done|]. cbn in Hr. bool_props.
  destruct (stuck_perform id context y w K) as [K' Hk]; [done|]. apply IH; [done|]. by rewrite Hk.
Qed.


Lemma session_exclusive_witness :
  let w := perform_all (take 15 deferred_run) sample_world in 0 < leases_of 20 w ∧ active_turn w 20.
Proof.
  assert (0 < leases_of 20 (perform_all (take 15 deferred_run) sample_world)) as Hl by by vm_compute.
  split; [exact Hl|].
  exact (proj1 (proj2 (session_exclusive sample_coordinator (take 15 deferred_run) CActive sample_idle)) 20 Hl).
Defined.

Lemma session_ends_once_witness :
  NoDup (omap notified_context (marks (perform_all deferred_run sample_world))).
Proof. apply (session_ends_once sample_coordinator deferred_run sample_idle). Defined.

(** The recovery of a blocked turn leads there. *)
Lemma lost_wake_stuck : stuck 1 7 (perform_all lost_wake_run sample_world).
Proof. constructor; (by vm_compute) || (apply (bool_decide_unpack _); by vm_compute). Qed.

