(* ===== verification/BudgetPricing.v ===== *)
(** * Prices: [services/budget/catalog.py] and [services/budget/pricing.py]

    The price catalog (its rows' and its schedules' validity, the rows current at
    a time) and the integer arithmetic that turns a usage into micro-SGD.  Times
    are microseconds of the epoch.  [urlsplit] of a source URL is a parameter;
    reading the YAML files is not modelled. *)

From stdpp Require Import sorting.
From S2P Require Import Prelude.

(** ** Checked integers *)

Definition MAX_USAGE_UNITS : Z := 10000000.
Definition MAX_AUDIO_MILLIS : Z := 3600000.
Definition MAX_WEB_SEARCH_CALLS : Z := 16.
Definition MAX_CHARGE_MICROS_SGD : Z := 1000000000000.
Definition MAX_AGGREGATE_MICROS_SGD : Z := 9000000000000000.
Definition MAX_INTERMEDIATE : Z := 1000000000000000000.
Definition MAX_RATE_MICROS_USD : Z := 1000000000.
Definition MAX_FX_MICROS_SGD_PER_USD : Z := 10000000.

Definition out_of_bounds : exn := OverflowError "budget_arithmetic_out_of_bounds".

Definition checked_add (left right limit : Z) : result exn Z :=
  if (left <? 0) || (right <? 0) || (limit - right <? left)
  then Raise out_of_bounds else Ok (left + right).

Definition checked_mul (left right limit : Z) : result exn Z :=
  if (left <? 0) || (right <? 0) || (negb (right =? 0) && (limit / right <? left))
  then Raise out_of_bounds else Ok (left * right).

Definition ceil_div (numerator denominator : Z) : result exn Z :=
  if (numerator <? 0) || (denominator <=? 0)
  then Raise out_of_bounds else Ok ((numerator + denominator - 1) / denominator).

(** ** Usage *)

Inductive Category := stt | llm | tts | web_search.
Inductive UsageUnits :=
| LlmUsageUnits (input_tokens output_tokens : Z)
| SttUsageUnits (audio_millis : Z)
| TtsUsageUnits (characters : Z)
| WebSearchUsageUnits (input_tokens output_tokens web_search_calls : Z).

#[export] Instance Category_eq_dec : EqDecision Category.
Proof. solve_decision. Defined.
#[export] Instance UsageUnits_eq_dec : EqDecision UsageUnits.
Proof. solve_decision. Defined.

Definition usage_category (u : UsageUnits) : Category :=
  match u with
  | LlmUsageUnits _ _ => llm | SttUsageUnits _ => stt | TtsUsageUnits _ => tts
  | WebSearchUsageUnits _ _ _ => web_search
  end.

(** The [Field] bounds of the four models. *)
Definition usage_ok (u : UsageUnits) : bool :=
  match u with
  | LlmUsageUnits i o => between 0 i MAX_USAGE_UNITS && between 0 o MAX_USAGE_UNITS
  | SttUsageUnits a => between 0 a MAX_AUDIO_MILLIS
  | TtsUsageUnits c => between 0 c 4096
  | WebSearchUsageUnits i o w =>
    between 0 i MAX_USAGE_UNITS && between 0 o MAX_USAGE_UNITS && between 0 w MAX_WEB_SEARCH_CALLS
  end.

Definition usage_total (u : UsageUnits) : Z :=
  match u with
  | LlmUsageUnits i o => i + o
  | SttUsageUnits a => a
  | TtsUsageUnits c => c
  | WebSearchUsageUnits i o w => i + o + w
  end.

(** ** Catalog rows *)

Inductive TierBasis := flat | llm_input_tokens.
Inductive AccountingBasis :=
| provider_reported_exact | request_bound_exact | conservative_full_reservation.
Inductive MissingPolicy := freeze_unknown_overage | policy_conservative_full_reservation.

#[export] Instance TierBasis_eq_dec : EqDecision TierBasis.
Proof. solve_decision. Defined.
#[export] Instance AccountingBasis_eq_dec : EqDecision AccountingBasis.
Proof. solve_decision. Defined.
#[export] Instance MissingPolicy_eq_dec : EqDecision MissingPolicy.
Proof. solve_decision. Defined.

Record Rates := mkRates {
  native_currency : string;
  input_micro_usd_per_million : Z;
  output_micro_usd_per_million : Z;
  audio_micro_usd_per_minute : Z;
  web_search_micro_usd_per_call : Z;
}.
#[export] Instance Rates_eq_dec : EqDecision Rates.
Proof. solve_decision. Defined.

Record PriceRecord := mkPriceRecord {
  pr_provider : string;
  pr_model : string;
  pr_category : Category;
  pr_rates : Rates;
  pr_primary_accounting_basis : AccountingBasis;
  pr_missing_evidence_policy : MissingPolicy;
  pr_pricing_version : string;
  pr_effective_at : Z;
  pr_expires_at : Z;
  pr_source_url : string;
  pr_source_sha256 : string;
  pr_tier_basis : TierBasis;
  pr_tier_min_input_tokens : Z;
  pr_tier_max_input_tokens : Z;
}.

(** [_DIGEST.fullmatch]: 64 lower-case hexadecimal digits. *)
Definition is_hex (a : Ascii.ascii) : bool :=
  let n := Z.of_N (Ascii.N_of_ascii a) in between 48 n 57 || between 97 n 102.
Definition is_digest (s : string) : bool :=
  Nat.eqb (String.length s) 64 && forallb is_hex (String.list_ascii_of_string s).

Definition tier_shape (basis : TierBasis) (category : Category) (lo hi : Z) : bool :=
  match basis with
  | flat => (lo =? hi) && (hi =? 0)
  | llm_input_tokens =>
    bool_decide (category = llm) && (0 <=? lo) && (lo <=? hi) && (hi <=? 10000000)
  end.

Section Catalog.
(** scheme, host, user, port, query and fragment of the source URL are as required. *)
Context (source_url_ok : string → bool).

(** [PriceRecord.__post_init__]. *)
Definition price_record_ok (r : PriceRecord) : bool :=
  let p := pr_rates r in
  let rates := [input_micro_usd_per_million p; output_micro_usd_per_million p;
                audio_micro_usd_per_minute p; web_search_micro_usd_per_call p] in
  let basis := pr_primary_accounting_basis r in
  let policy := pr_missing_evidence_policy r in
  bool_decide (pr_provider r ∈ ["openai"; "qwen"]%string) &&
  negb (bool_decide (pr_model r = EmptyString)) &&
  bool_decide (native_currency p = "USD"%string) &&
  negb (bool_decide (pr_pricing_version r = EmptyString)) &&
  negb (bool_decide (basis = conservative_full_reservation)) &&
  forallb (λ rate, between 0 rate MAX_RATE_MICROS_USD) rates &&
  existsb (λ rate, negb (rate =? 0)) rates &&
  (pr_effective_at r <? pr_expires_at r) &&
  source_url_ok (pr_source_url r) && is_digest (pr_source_sha256 r) &&
  tier_shape (pr_tier_basis r) (pr_category r) (pr_tier_min_input_tokens r)
    (pr_tier_max_input_tokens r) &&
  match pr_category r with
  | tts =>
    bool_decide (basis = request_bound_exact) && (0 <? input_micro_usd_per_million p) &&
    (output_micro_usd_per_million p =? 0) && (audio_micro_usd_per_minute p =? 0) &&
    (web_search_micro_usd_per_call p =? 0)
  | web_search =>
    bool_decide (basis = provider_reported_exact) &&
    bool_decide (policy = policy_conservative_full_reservation) &&
    (0 <? input_micro_usd_per_million p) && (0 <? output_micro_usd_per_million p) &&
    (audio_micro_usd_per_minute p =? 0) && (0 <? web_search_micro_usd_per_call p)
  | stt =>
    bool_decide (basis = provider_reported_exact) &&
    bool_decide (policy = freeze_unknown_overage) &&
    (input_micro_usd_per_million p =? 0) && (output_micro_usd_per_million p =? 0) &&
    (0 <? audio_micro_usd_per_minute p) && (web_search_micro_usd_per_call p =? 0)
  | llm =>
    bool_decide (basis = provider_reported_exact) &&
    bool_decide (policy = freeze_unknown_overage) &&
    (0 <? input_micro_usd_per_million p) && (0 <? output_micro_usd_per_million p) &&
    (audio_micro_usd_per_minute p =? 0) && (web_search_micro_usd_per_call p =? 0)
  end.

Record FxRecord := mkFxRecord {
  fx_micros_sgd_per_usd : Z;
  fx_fx_version : string;
  fx_effective_at : Z;
  fx_expires_at : Z;
  fx_source : string;
  fx_source_sha256 : string;
}.

Definition fx_record_ok (f : FxRecord) : bool :=
  between 1 (fx_micros_sgd_per_usd f) MAX_FX_MICROS_SGD_PER_USD &&
  negb (bool_decide (fx_fx_version f = EmptyString)) &&
  negb (bool_decide (fx_source f = EmptyString)) &&
  (fx_effective_at f <? fx_expires_at f) && is_digest (fx_source_sha256 f).

Record PriceCatalog := mkCatalog { prices : list PriceRecord; fx : option FxRecord }.

Definition same_group (r r' : PriceRecord) : bool :=
  bool_decide ((pr_provider r, pr_model r, pr_category r, pr_pricing_version r)
               = (pr_provider r', pr_model r', pr_category r', pr_pricing_version r')).
Definition same_identity (r r' : PriceRecord) : bool :=
  same_group r r' &&
  bool_decide ((pr_tier_basis r, pr_tier_min_input_tokens r, pr_tier_max_input_tokens r)
               = (pr_tier_basis r', pr_tier_min_input_tokens r', pr_tier_max_input_tokens r')).
Definition same_common (r r' : PriceRecord) : bool :=
  bool_decide ((native_currency (pr_rates r), pr_primary_accounting_basis r,
                pr_missing_evidence_policy r, pr_effective_at r, pr_expires_at r,
                pr_source_url r, pr_source_sha256 r)
             = (native_currency (pr_rates r'), pr_primary_accounting_basis r',
                pr_missing_evidence_policy r', pr_effective_at r', pr_expires_at r',
                pr_source_url r', pr_source_sha256 r')).

(** [sorted(rows, key=tier_min_input_tokens)]: stable. *)
Definition tier_le (r r' : PriceRecord) : Prop :=
  pr_tier_min_input_tokens r ≤ pr_tier_min_input_tokens r'.
#[export] Instance tier_le_dec : RelDecision tier_le :=
  λ r r', decide (pr_tier_min_input_tokens r ≤ pr_tier_min_input_tokens r').
Definition by_tier_min (rows : list PriceRecord) : list PriceRecord := merge_sort tier_le rows.

Fixpoint adjacent (rows : list PriceRecord) : bool :=
  match rows with
  | a :: ((b :: _) as rest) =>
    (pr_tier_min_input_tokens b =? pr_tier_max_input_tokens a + 1) && adjacent rest
  | _ => true
  end.

Definition contiguous (rows : list PriceRecord) : bool :=
  match by_tier_min rows with
  | first :: rest => (pr_tier_min_input_tokens first =? 0) && adjacent (first :: rest)
  | [] => false
  end.

Definition all_basis (b : TierBasis) (rows : list PriceRecord) : bool :=
  forallb (λ r, bool_decide (pr_tier_basis r = b)) rows.

(** The schedule test of [PriceCatalog.__post_init__] on one (non-empty) group. *)
Definition group_ok (first : PriceRecord) (rows : list PriceRecord) : bool :=
  forallb (same_common first) rows &&
  (if all_basis flat rows then Nat.eqb (length rows) 1
   else all_basis llm_input_tokens rows && contiguous rows).

Fixpoint distinct_identities (rows : list PriceRecord) : bool :=
  match rows with
  | [] => true
  | r :: rest => negb (existsb (same_identity r) rest) && distinct_identities rest
  end.

(** [PriceCatalog.__post_init__], on rows and a rate that passed their own. *)
Definition catalog_ok (c : PriceCatalog) : bool :=
  forallb price_record_ok (prices c) &&
  match fx c with None => true | Some f => fx_record_ok f end &&
  distinct_identities (prices c) &&
  forallb (λ r, group_ok r (filter (λ r', same_group r r' = true) (prices c))) (prices c).

Definition same_schedule (r r' : PriceRecord) : bool :=
  bool_decide ((pr_pricing_version r, pr_source_url r, pr_source_sha256 r, pr_effective_at r,
                pr_expires_at r, pr_primary_accounting_basis r, pr_missing_evidence_policy r,
                pr_tier_basis r)
             = (pr_pricing_version r', pr_source_url r', pr_source_sha256 r', pr_effective_at r',
                pr_expires_at r', pr_primary_accounting_basis r', pr_missing_evidence_policy r',
                pr_tier_basis r')).

Definition is_current (provider model : string) (category : Category) (now : Z)
    (r : PriceRecord) : bool :=
  bool_decide (pr_provider r = provider) && bool_decide (pr_model r = model) &&
  bool_decide (pr_category r = category) && (pr_effective_at r <=? now) && (now <? pr_expires_at r).

Definition current_prices (c : PriceCatalog) (provider model : string) (category : Category)
    (now : Z) : result exn (list PriceRecord) :=
  let rows := filter (λ r, is_current provider model category now r = true) (prices c) in
  match rows with
  | [] => Raise (PermissionError "missing_or_stale_price")
  | first :: _ =>
    if forallb (same_schedule first) rows then Ok (by_tier_min rows)
    else Raise (PermissionError "missing_or_stale_price")
  end.

Definition current_fx (c : PriceCatalog) (now : Z) : result exn FxRecord :=
  match fx c with
  | Some f =>
    if (fx_effective_at f <=? now) && (now <? fx_expires_at f) then Ok f
    else Raise (PermissionError "missing_or_stale_fx")
  | None => Raise (PermissionError "missing_or_stale_fx")
  end.
End Catalog.

(** ** Quotes *)

Record PriceTier := mkTier {
  tier_basis : TierBasis;
  tier_min_input_tokens : Z;
  tier_max_input_tokens : Z;
  tier_category : Category;
  tier_rates : Rates;
}.
#[export] Instance PriceTier_eq_dec : EqDecision PriceTier.
Proof. solve_decision. Defined.

(** [PriceTier.__post_init__] and [from_record]. *)
Definition make_tier (t : PriceTier) : result exn PriceTier :=
  _ ← reject_if (negb (tier_shape (tier_basis t) (tier_category t) (tier_min_input_tokens t)
                         (tier_max_input_tokens t))) (ValueError "invalid price tier");
  Ok t.
Definition from_record (r : PriceRecord) : result exn PriceTier :=
  make_tier (mkTier (pr_tier_basis r) (pr_tier_min_input_tokens r) (pr_tier_max_input_tokens r)
               (pr_category r) (pr_rates r)).

Fixpoint from_records (rows : list PriceRecord) : result exn (list PriceTier) :=
  match rows with
  | [] => Ok []
  | r :: rest => t ← from_record r; ts ← from_records rest; Ok (t :: ts)
  end.

Record PriceQuote := mkQuote {
  q_provider : string;
  q_model : string;
  q_category : Category;
  q_amount_micros_sgd : Z;
  q_rates : Rates;
  q_micros_sgd_per_usd : Z;
  q_primary_accounting_basis : AccountingBasis;
  q_missing_evidence_policy : MissingPolicy;
  q_pricing_version : string;
  q_price_source_url : string;
  q_price_source_sha256 : string;
  q_fx_version : string;
  q_fx_source_sha256 : string;
  q_tier_basis : TierBasis;
  q_selected_tier_min_input_tokens : Z;
  q_selected_tier_max_input_tokens : Z;
  q_tier_schedule : list PriceTier;
}.
#[export] Instance PriceQuote_eq_dec : EqDecision PriceQuote.
Proof. solve_decision. Defined.

Definition is_selected (q : PriceQuote) (t : PriceTier) : bool :=
  bool_decide ((tier_basis t, tier_min_input_tokens t, tier_max_input_tokens t)
    = (q_tier_basis q, q_selected_tier_min_input_tokens q, q_selected_tier_max_input_tokens q)).

(** [PriceQuote.__post_init__]. *)
Definition make_quote (q : PriceQuote) : result exn PriceQuote :=
  match filter (λ t, is_selected q t = true) (q_tier_schedule q) with
  | [t] =>
    if bool_decide ((tier_category t, tier_rates t) = (q_category q, q_rates q)) then Ok q
    else Raise (ValueError "price quote selected tier mismatch")
  | _ => Raise (ValueError "price quote selected tier mismatch")
  end.

Definition all_tiers (b : TierBasis) (schedule : list PriceTier) : bool :=
  negb (bool_decide (schedule = [])) && forallb (λ t, bool_decide (tier_basis t = b)) schedule.

Definition tier_matches (tokens : Z) (t : PriceTier) : bool :=
  between (tier_min_input_tokens t) tokens (tier_max_input_tokens t).

Definition _tier_for (schedule : list PriceTier) (usage : UsageUnits) : result exn PriceTier :=
  match all_tiers flat schedule, schedule with
  | true, [t] => Ok t
  | _, _ =>
    match all_tiers llm_input_tokens schedule, usage with
    | true, LlmUsageUnits input_tokens _ =>
      match filter (λ t, tier_matches input_tokens t = true) schedule with
      | [t] => Ok t
      | _ => Raise (PermissionError "missing_or_stale_price_tier")
      end
    | _, _ => Raise (PermissionError "price_usage_tier_mismatch")
    end
  end.

(** [units * rate / unit], rounded up. *)
Definition part (units rate unit : Z) : result exn Z :=
  product ← checked_mul units rate MAX_INTERMEDIATE; ceil_div product unit.

Definition _native (price : PriceTier) (usage : UsageUnits) : result exn Z :=
  let p := tier_rates price in
  match usage with
  | LlmUsageUnits input_tokens output_tokens =>
    first ← part input_tokens (input_micro_usd_per_million p) 1000000;
    second ← part output_tokens (output_micro_usd_per_million p) 1000000;
    checked_add first second MAX_INTERMEDIATE
  | SttUsageUnits audio_millis =>
    first ← part audio_millis (audio_micro_usd_per_minute p) 60000;
    checked_add first 0 MAX_INTERMEDIATE
  | TtsUsageUnits characters =>
    first ← part characters (input_micro_usd_per_million p) 1000000;
    checked_add first 0 MAX_INTERMEDIATE
  | WebSearchUsageUnits input_tokens output_tokens web_search_calls =>
    inputs ← part input_tokens (input_micro_usd_per_million p) 1000000;
    outputs ← part output_tokens (output_micro_usd_per_million p) 1000000;
    tokens ← checked_add inputs outputs MAX_INTERMEDIATE;
    calls ← checked_mul web_search_calls (web_search_micro_usd_per_call p) MAX_INTERMEDIATE;
    checked_add tokens calls MAX_INTERMEDIATE
  end.

Definition _amount (price : PriceTier) (micros_sgd_per_usd : Z) (usage : UsageUnits) :
    result exn Z :=
  if negb (bool_decide (tier_category price = usage_category usage))
     || negb (bool_decide (native_currency (tier_rates price) = "USD"%string))
  then Raise (PermissionError "price_usage_purpose_mismatch")
  else
    native ← _native price usage;
    product ← checked_mul native micros_sgd_per_usd MAX_INTERMEDIATE;
    amount ← ceil_div product 1000000;
    _ ← reject_if (negb (between 0 amount MAX_CHARGE_MICROS_SGD)) out_of_bounds;
    Ok amount.

Definition quote (c : PriceCatalog) (now : Z) (provider model : string) (usage : UsageUnits) :
    result exn PriceQuote :=
  records ← current_prices c provider model (usage_category usage) now;
  schedule ← from_records records;
  price ← _tier_for schedule usage;
  rate ← current_fx c now;
  amount ← _amount price (fx_micros_sgd_per_usd rate) usage;
  _ ← reject_if (amount =? 0) (PermissionError "zero_or_unpriced_usage_ceiling");
  match records with
  | first :: _ =>
    make_quote (mkQuote provider model (usage_category usage) amount (tier_rates price)
      (fx_micros_sgd_per_usd rate) (pr_primary_accounting_basis first)
      (pr_missing_evidence_policy first) (pr_pricing_version first) (pr_source_url first)
      (pr_source_sha256 first) (fx_fx_version rate) (fx_source_sha256 rate) (tier_basis price)
      (tier_min_input_tokens price) (tier_max_input_tokens price) schedule)
  | [] => Raise (PermissionError "missing_or_stale_price")
  end.

Definition amount_from_snapshot (snapshot : PriceQuote) (usage : UsageUnits) : result exn Z :=
  tier ← _tier_for (q_tier_schedule snapshot) usage;
  _amount tier (q_micros_sgd_per_usd snapshot) usage.

(** ** Arithmetic *)

Lemma checked_add_Ok l r limit v :
  checked_add l r limit = Ok v ↔ 0 ≤ l ∧ 0 ≤ r ∧ v = l + r ∧ v ≤ limit.
Proof.
  unfold checked_add. destruct (_ || _) eqn:H.
  - split; [done|]. intros (? & ? & -> & ?). exfalso.
    apply orb_true_iff in H as [H|H]; [apply orb_true_iff in H as [H|H]|]; bool_props; lia.
  - bool_props. split; [intros [= <-]; lia|]. intros (? & ? & -> & ?). done.
Qed.

Lemma checked_mul_Ok l r limit v :
  0 ≤ limit →
  checked_mul l r limit = Ok v ↔ 0 ≤ l ∧ 0 ≤ r ∧ v = l * r ∧ v ≤ limit.
Proof.
  intros Hl. unfold checked_mul. destruct (_ || _) eqn:H.
  - split; [done|]. intros (? & ? & -> & Hle). exfalso.
    apply orb_true_iff in H as [H|H]; [apply orb_true_iff in H as [H|H]; bool_props; lia|].
    bool_props. assert (l ≤ limit / r) by (apply Z.div_le_lower_bound; lia). lia.
  - bool_props. rewrite andb_false_iff in *. split.
    + intros [= <-]. split_and!; try lia. destruct H0 as [H0|H0]; bool_props; [subst; lia|].
      destruct (decide (r = 0)) as [->|]; [lia|].
      transitivity (limit / r * r); [nia|]. pose proof (Z.mul_div_le limit r). lia.
    + intros (? & ? & -> & ?). done.
Qed.

Lemma ceil_div_Ok n d v :
  ceil_div n d = Ok v ↔ 0 ≤ n ∧ 0 < d ∧ n ≤ v * d < n + d.
Proof.
  unfold ceil_div. destruct (_ || _) eqn:H.
  - split; [done|]. intros (? & ? & ?). exfalso.
    apply orb_true_iff in H as [H|H]; bool_props; lia.
  - bool_props. pose proof (Z.div_mod (n + d - 1) d). pose proof (Z.mod_pos_bound (n + d - 1) d).
    split; [intros [= <-]; nia|]. intros (? & ? & ?). f_equal. nia.
Qed.

Lemma rbind_inv {A B} (m : result exn A) (k : A → result exn B) v :
  m ≫= k = Ok v ↔ ∃ a, m = Ok a ∧ k a = Ok v.
Proof. destruct m; naive_solver. Qed.

Lemma part_Ok units rate unit v :
  0 < unit →
  part units rate unit = Ok v ↔
  0 ≤ units ∧ 0 ≤ rate ∧ units * rate ≤ MAX_INTERMEDIATE ∧
  units * rate ≤ v * unit < units * rate + unit.
Proof.
  intros Hu. unfold part. rewrite rbind_inv. split.
  - intros (p & (? & ? & -> & ?)%checked_mul_Ok & ?%ceil_div_Ok); [lia|done].
  - intros (? & ? & ? & ?). exists (units * rate). rewrite checked_mul_Ok, ceil_div_Ok by done.
    split; lia.
Qed.

(** The exact price in micro-USD, times 3,000,000. *)
Definition exact_native (p : Rates) (usage : UsageUnits) : Z :=
  match usage with
  | LlmUsageUnits i o =>
    3 * (i * input_micro_usd_per_million p + o * output_micro_usd_per_million p)
  | SttUsageUnits a => 50 * (a * audio_micro_usd_per_minute p)
  | TtsUsageUnits c => 3 * (c * input_micro_usd_per_million p)
  | WebSearchUsageUnits i o w =>
    3 * (i * input_micro_usd_per_million p + o * output_micro_usd_per_million p)
    + 3000000 * (w * web_search_micro_usd_per_call p)
  end.

Lemma native_bounds price usage v :
  _native price usage = Ok v →
  0 ≤ v ∧ exact_native (tier_rates price) usage ≤ v * 3000000
    < exact_native (tier_rates price) usage + 6000000.
Proof.
  unfold _native, exact_native. destruct usage; rewrite ?rbind_inv.
  - intros (a & (?&?&?&?)%part_Ok & K2); [|done]. apply rbind_inv in K2 as (b & Hb & K3).
    apply part_Ok in Hb as (?&?&?&?); [|done]. apply checked_add_Ok in K3. lia.
  - intros (a & (?&?&?&?)%part_Ok & K2); [|done]. apply checked_add_Ok in K2. lia.
  - intros (a & (?&?&?&?)%part_Ok & K2); [|done]. apply checked_add_Ok in K2. lia.
  - intros (a & (?&?&?&?)%part_Ok & K2); [|done]. apply rbind_inv in K2 as (b & Hb & K3).
    apply part_Ok in Hb as (?&?&?&?); [|done]. apply rbind_inv in K3 as (t & Ht & K4).
    apply checked_add_Ok in Ht. apply rbind_inv in K4 as (w & Hw & K5).
    apply checked_mul_Ok in Hw; [|done]. apply checked_add_Ok in K5. lia.
Qed.

Lemma amount_Ok price rate usage v :
  _amount price rate usage = Ok v ↔
  tier_category price = usage_category usage ∧ native_currency (tier_rates price) = "USD"%string ∧
  ∃ native, _native price usage = Ok native ∧ 0 ≤ native ∧ 0 ≤ rate ∧
    native * rate ≤ MAX_INTERMEDIATE ∧ native * rate ≤ v * 1000000 < native * rate + 1000000 ∧
    0 ≤ v ≤ MAX_CHARGE_MICROS_SGD.
Proof.
  unfold _amount. destruct (_ || _) eqn:Hc.
  - split; [done|]. intros (? & ? & _). apply orb_true_iff in Hc as [Hc|Hc]; by bool_props.
  - bool_props. rewrite rbind_inv. split.
    + intros (native & Hn & Hv). apply rbind_inv in Hv as (p & Hp & Hv).
      apply checked_mul_Ok in Hp as (? & ? & -> & ?); [|done].
      apply rbind_inv in Hv as (a & Ha & Hv). apply ceil_div_Ok in Ha as (? & ? & ?).
      apply rbind_inv in Hv as (? & Hr & [= <-]). unfold reject_if in Hr.
      destruct (between 0 a MAX_CHARGE_MICROS_SGD) eqn:Hb; [|done]. apply between_spec in Hb.
      eauto 12.
    + intros (_ & _ & native & Hn & ? & ? & ? & ? & Hb). exists native. split; [done|].
      apply rbind_inv. exists (native * rate). split; [by apply checked_mul_Ok|].
      apply rbind_inv. exists v. split; [apply ceil_div_Ok; lia|].
      apply between_spec in Hb. by rewrite Hb.
Qed.

(** Rounding.  A computed price is never below the exact one, and above it by less
    than two micro-USD (one per rounded component) and one micro-SGD. *)
Theorem amount_rounds_up price rate usage v :
  _amount price rate usage = Ok v →
  exact_native (tier_rates price) usage * rate ≤ v * 3000000000000 ∧
  v * 3000000000000 < (exact_native (tier_rates price) usage + 6000000) * rate + 3000000000000 ∧
  0 ≤ v ≤ MAX_CHARGE_MICROS_SGD.
Proof.
  intros (_ & _ & native & Hn & ? & ? & ? & ? & ?)%amount_Ok.
  apply native_bounds in Hn as [? [? ?]]. split_and!; nia.
Qed.

Lemma part_total units rate unit bound :
  0 < unit → 0 ≤ units → 0 ≤ rate → units * rate ≤ bound * unit → bound * unit ≤ MAX_INTERMEDIATE →
  ∃ v, part units rate unit = Ok v ∧ 0 ≤ v ≤ bound ∧ (0 < units → 0 < rate → 0 < v).
Proof.
  intros Hu Hn Hr Hb Hm. exists ((units * rate + unit - 1) / unit).
  pose proof (Z.div_mod (units * rate + unit - 1) unit).
  pose proof (Z.mod_pos_bound (units * rate + unit - 1) unit).
  split; [apply part_Ok; [done|]; nia|]. split; [nia|]. intros. nia.
Qed.

Lemma amount_of_native price rate usage native :
  tier_category price = usage_category usage → native_currency (tier_rates price) = "USD"%string →
  _native price usage = Ok native → 0 < native ≤ 60000000000 →
  1 ≤ rate ≤ MAX_FX_MICROS_SGD_PER_USD →
  ∃ v, _amount price rate usage = Ok v ∧ 0 < v ≤ MAX_CHARGE_MICROS_SGD.
Proof.
  unfold MAX_FX_MICROS_SGD_PER_USD, MAX_CHARGE_MICROS_SGD. intros Hc Hu Hn Hb Hr.
  exists ((native * rate + 1000000 - 1) / 1000000).
  pose proof (Z.div_mod (native * rate + 1000000 - 1) 1000000).
  pose proof (Z.mod_pos_bound (native * rate + 1000000 - 1) 1000000).
  assert (0 < native * rate ≤ 600000000000000000) by nia.
  split; [|lia]. apply amount_Ok. split_and!; try done. exists native.
  unfold MAX_INTERMEDIATE, MAX_CHARGE_MICROS_SGD. split_and!; try done; lia.
Qed.

Ltac use_part units rate unit bound :=
  let v := fresh "v" in let Hv := fresh "Hv" in let Hb := fresh "Hb" in let Hp := fresh "Hp" in
  destruct (part_total units rate unit bound) as (v & Hv & Hb & Hp);
  [lia|lia|lia|nia|done|rewrite Hv; simpl].

Lemma amount_total_aux source_url_ok row rate usage :
  price_record_ok source_url_ok row = true →
  1 ≤ rate ≤ MAX_FX_MICROS_SGD_PER_USD → usage_ok usage = true → 0 < usage_total usage →
  usage_category usage = pr_category row →
  ∃ v, _amount (mkTier (pr_tier_basis row) (pr_tier_min_input_tokens row)
                  (pr_tier_max_input_tokens row) (pr_category row) (pr_rates row)) rate usage = Ok v ∧
       0 < v ≤ MAX_CHARGE_MICROS_SGD.
Proof.
  unfold price_record_ok. cbn [forallb]. intros Hrow Hrate Huse Htot Hcat. bool_props.
  rewrite !between_spec in *. unfold MAX_RATE_MICROS_USD in *.
  destruct (pr_rates row) as [cur ri ro ra rw]. simpl in *. subst cur.
  set (price := mkTier _ _ _ _ _).
  assert (∃ native, _native price usage = Ok native ∧ 0 < native ≤ 60000000000)
    as (native & Hn & Hb); [|by apply (amount_of_native price rate usage native)].
  unfold _native, price, usage_ok, usage_total, MAX_USAGE_UNITS, MAX_AUDIO_MILLIS,
    MAX_WEB_SEARCH_CALLS in *. simpl.
  destruct usage as [i o|a|c|i o w]; simpl in Hcat; rewrite <- Hcat in *; bool_props;
    rewrite !between_spec in *.
  - use_part i ri 1000000 10000000000. use_part o ro 1000000 10000000000.
    exists (v + v0). split; [apply checked_add_Ok; unfold MAX_INTERMEDIATE; lia|].
    destruct (decide (0 < i)); lia.
  - use_part a ra 60000 60000000000. exists (v + 0).
    split; [apply checked_add_Ok; unfold MAX_INTERMEDIATE; lia|lia].
  - use_part c ri 1000000 10000000000. exists (v + 0).
    split; [apply checked_add_Ok; unfold MAX_INTERMEDIATE; lia|lia].
  - use_part i ri 1000000 10000000000. use_part o ro 1000000 10000000000.
    rewrite (proj2 (checked_add_Ok v v0 MAX_INTERMEDIATE (v + v0))) by (unfold MAX_INTERMEDIATE; lia).
    simpl. assert (0 ≤ w * rw ≤ 16000000000) by nia.
    rewrite (proj2 (checked_mul_Ok w rw MAX_INTERMEDIATE (w * rw) ltac:(done)))
      by (unfold MAX_INTERMEDIATE; lia).
    simpl. exists (v + v0 + w * rw). split; [apply checked_add_Ok; unfold MAX_INTERMEDIATE; lia|].
    destruct (decide (0 < i)); [lia|]. destruct (decide (0 < o)); [lia|]. nia.
Qed.

(** Within the contract's and the catalog's bounds the arithmetic never overflows,
    and a positive usage has a positive price. *)
Theorem amount_total source_url_ok row rate usage :
  price_record_ok source_url_ok row = true →
  1 ≤ rate ≤ MAX_FX_MICROS_SGD_PER_USD → usage_ok usage = true → 0 < usage_total usage →
  usage_category usage = pr_category row →
  ∃ v, _amount (mkTier (pr_tier_basis row) (pr_tier_min_input_tokens row)
                  (pr_tier_max_input_tokens row) (pr_category row) (pr_rates row)) rate usage = Ok v ∧
       0 < v ≤ MAX_CHARGE_MICROS_SGD.
Proof. apply amount_total_aux. Qed.

Definition usage_le (u u' : UsageUnits) : Prop :=
  match u, u' with
  | LlmUsageUnits i o, LlmUsageUnits i' o' => i ≤ i' ∧ o ≤ o'
  | SttUsageUnits a, SttUsageUnits a' => a ≤ a'
  | TtsUsageUnits c, TtsUsageUnits c' => c ≤ c'
  | WebSearchUsageUnits i o w, WebSearchUsageUnits i' o' w' => i ≤ i' ∧ o ≤ o' ∧ w ≤ w'
  | _, _ => False
  end.

Lemma part_mono units units' rate unit v v' :
  0 < unit → units ≤ units' → part units rate unit = Ok v → part units' rate unit = Ok v' → v ≤ v'.
Proof. intros Hu Hle (?&?&?&?)%part_Ok (?&?&?&?)%part_Ok; try done. nia. Qed.

Lemma native_mono price usage usage' v v' :
  usage_le usage usage' → _native price usage = Ok v → _native price usage' = Ok v' → v ≤ v'.
Proof.
  unfold _native. destruct usage, usage'; try done; simpl; intros Hle; rewrite !rbind_inv.
  - intros (a & Ha & Ka) (a' & Ha' & Ka'). apply rbind_inv in Ka as (b & Hb & Kb).
    apply rbind_inv in Ka' as (b' & Hb' & Kb'). rewrite checked_add_Ok in *.
    assert (a ≤ a') by (eapply part_mono; [..|exact Ha|exact Ha']; [done|lia]).
    assert (b ≤ b') by (eapply part_mono; [..|exact Hb|exact Hb']; [done|lia]). lia.
  - intros (a & Ha & Ka) (a' & Ha' & Ka'). rewrite checked_add_Ok in *.
    assert (a ≤ a') by (eapply part_mono; [..|exact Ha|exact Ha']; [done|lia]). lia.
  - intros (a & Ha & Ka) (a' & Ha' & Ka'). rewrite checked_add_Ok in *.
    assert (a ≤ a') by (eapply part_mono; [..|exact Ha|exact Ha']; [done|lia]). lia.
  - intros (a & Ha & Ka) (a' & Ha' & Ka'). apply rbind_inv in Ka as (b & Hb & Kb).
    apply rbind_inv in Ka' as (b' & Hb' & Kb').
    apply rbind_inv in Kb as (t & Ht & Kt). apply rbind_inv in Kb' as (t' & Ht' & Kt').
    apply rbind_inv in Kt as (w & Hw & Kw). apply rbind_inv in Kt' as (w' & Hw' & Kw').
    rewrite checked_add_Ok in *. rewrite checked_mul_Ok in * by done.
    assert (a ≤ a') by (eapply part_mono; [..|exact Ha|exact Ha']; [done|lia]).
    assert (b ≤ b') by (eapply part_mono; [..|exact Hb|exact Hb']; [done|lia]). nia.
Qed.

(** At one tier and rate the price grows with the usage: a receipt within the
    reserved ceiling costs no more than was reserved. *)
Theorem amount_monotone price rate usage usage' v v' :
  usage_le usage usage' → _amount price rate usage = Ok v → _amount price rate usage' = Ok v' →
  v ≤ v'.
Proof.
  intros Hle (_ & _ & n & Hn & ? & ? & ? & ? & ?)%amount_Ok (_ & _ & n' & Hn' & ? & ? & ? & ? & ?)%amount_Ok.
  pose proof (native_mono _ _ _ _ _ Hle Hn Hn'). nia.
Qed.

Lemma make_quote_Ok q q' : make_quote q = Ok q' → q' = q.
Proof.
  unfold make_quote. destruct (filter _ _) as [|t [|??]]; try done.
  case_bool_decide; [by intros [= <-]|done].
Qed.

Lemma quote_facts c now provider model usage q :
  quote c now provider model usage = Ok q →
  amount_from_snapshot q usage = Ok (q_amount_micros_sgd q) ∧
  0 < q_amount_micros_sgd q ≤ MAX_CHARGE_MICROS_SGD.
Proof.
  unfold quote. rewrite rbind_inv. intros (records & _ & K). apply rbind_inv in K as (ts & Hts & K).
  apply rbind_inv in K as (t & Ht & K). apply rbind_inv in K as (f & Hf & K).
  apply rbind_inv in K as (a & Ha & K). apply rbind_inv in K as (? & Hr & K).
  destruct records as [|first rest]; [done|]. apply make_quote_Ok in K as ->.
  unfold amount_from_snapshot. cbn [q_tier_schedule q_micros_sgd_per_usd q_amount_micros_sgd].
  rewrite Ht. split; [done|]. unfold reject_if in Hr. destruct (a =? 0) eqn:Hz; [done|]. bool_props.
  apply amount_Ok in Ha as (_ & _ & n & _ & ? & ? & ? & ? & ?). lia.
Qed.

(** Reserve and settle agree.  Pricing the reserved ceiling again from the stored
    quote gives exactly the reserved amount, whatever the catalog says by then. *)
Theorem quote_settles_exactly c now provider model usage q :
  quote c now provider model usage = Ok q →
  amount_from_snapshot q usage = Ok (q_amount_micros_sgd q) ∧
  0 < q_amount_micros_sgd q ≤ MAX_CHARGE_MICROS_SGD.
Proof. apply quote_facts. Qed.

(** ** Errors *)

(** The exceptions pricing raises. *)
Definition pricing_error (e : exn) : bool :=
  match e with PermissionError _ | ValueError _ | OverflowError _ => true | _ => false end.

Definition only_raises {A} (P : exn → bool) (m : result exn A) : Prop :=
  match m with Ok _ => True | Raise e => P e = true end.

Lemma only_raises_bind {A B} P (m : result exn A) (k : A → result exn B) :
  only_raises P m → (∀ a, only_raises P (k a)) → only_raises P (m ≫= k).
Proof. destruct m; simpl; auto. Qed.

Ltac only_raises_steps :=
  repeat first [done | apply only_raises_bind; [|intros]
               | match goal with
                 | |- only_raises _ (if ?b then _ else _) => destruct b
                 | |- only_raises _ (match ?x with _ => _ end) => destruct x
                 | |- only_raises _ (let _ := _ in _) => cbn zeta
                 end].

Lemma quote_errors c now provider model usage :
  only_raises pricing_error (quote c now provider model usage).
Proof.
  assert (∀ rows, only_raises pricing_error (from_records rows)) as Hrecords.
  { induction rows as [|r rows IH]; [done|]. simpl. unfold from_record, make_tier, reject_if.
    by only_raises_steps. }
  unfold quote, current_prices, current_fx, _tier_for, _amount, _native, part, checked_mul,
    checked_add, ceil_div, reject_if, make_quote.
  only_raises_steps; try apply Hrecords; only_raises_steps.
Qed.


(** ** Schedules of a valid catalog *)

Definition tier_of (r : PriceRecord) : PriceTier :=
  mkTier (pr_tier_basis r) (pr_tier_min_input_tokens r) (pr_tier_max_input_tokens r)
    (pr_category r) (pr_rates r).

Lemma from_records_total source_url_ok rows :
  forallb (price_record_ok source_url_ok) rows = true → from_records rows = Ok (map tier_of rows).
Proof.
  induction rows as [|r rows IH]; simpl; [done|]. intros Hok. bool_props.
  unfold from_record, make_tier. simpl.
  assert (tier_shape (pr_tier_basis r) (pr_category r) (pr_tier_min_input_tokens r)
            (pr_tier_max_input_tokens r) = true) as Hs.
  { unfold price_record_ok in H. by bool_props. }
  rewrite Hs. simpl. by rewrite IH.
Qed.

(** Disjoint tiers, in order. *)
Definition ordered_tiers (rows : list PriceRecord) : Prop :=
  StronglySorted (λ a b, pr_tier_max_input_tokens a < pr_tier_min_input_tokens b) rows.

Definition proper_tier (r : PriceRecord) : Prop :=
  pr_tier_min_input_tokens r ≤ pr_tier_max_input_tokens r.


Lemma adjacent_after a rows :
  Forall proper_tier (a :: rows) → adjacent (a :: rows) = true →
  Forall (λ b, pr_tier_max_input_tokens a < pr_tier_min_input_tokens b) rows.
Proof.
  revert a. induction rows as [|b rows IH]; intros a Hp Ha; [done|].
  apply Forall_cons in Hp as [Hpa Hp]. cbn [adjacent] in Ha. bool_props.
  apply Forall_cons in Hp as Hpb. destruct Hpb as [Hpb _]. unfold proper_tier in *.
  constructor; [lia|]. eapply Forall_impl; [by apply (IH b)|]. simpl. lia.
Qed.

Lemma adjacent_ordered rows : Forall proper_tier rows → adjacent rows = true → ordered_tiers rows.
Proof.
  induction rows as [|a rows IH]; intros Hp Ha; constructor.
  - apply IH; [by apply Forall_cons in Hp as [_ Hp]|]. destruct rows; [done|]. cbn [adjacent] in Ha. by bool_props.
  - by apply adjacent_after.
Qed.

(** A contiguous schedule covers every count from its first tier to its last. *)
Lemma adjacent_covers a rows n r :
  adjacent (a :: rows) = true → pr_tier_min_input_tokens a ≤ n →
  r ∈ a :: rows → n ≤ pr_tier_max_input_tokens r →
  ∃ t, t ∈ a :: rows ∧ pr_tier_min_input_tokens t ≤ n ≤ pr_tier_max_input_tokens t.
Proof.
  revert a. induction rows as [|b rows IH]; intros a Ha Hlo Hr Hhi.
  - apply list_elem_of_singleton in Hr as ->. exists a. split; [left|lia].
  - cbn [adjacent] in Ha. bool_props.
    destruct (decide (n ≤ pr_tier_max_input_tokens a)); [exists a; split; [left|lia]|].
    apply elem_of_cons in Hr as [->|Hr]; [lia|].
    destruct (IH b) as (t & Ht & ?); [done|lia|done|done|]. exists t. split; [by right|done].
Qed.

Lemma ordered_tiers_facts rows :
  Forall proper_tier rows → ordered_tiers rows →
  NoDup rows ∧ NoDup (map tier_of rows) ∧
  (∀ r r' n, r ∈ rows → r' ∈ rows →
     pr_tier_min_input_tokens r ≤ n ≤ pr_tier_max_input_tokens r →
     pr_tier_min_input_tokens r' ≤ n ≤ pr_tier_max_input_tokens r' → r = r').
Proof.
  unfold proper_tier. intros Hp Ho. induction Ho as [|a rows Ho IH Ha].
  { split_and!; [constructor..|]. intros r r' n Hr. by apply elem_of_nil in Hr. }
  apply Forall_cons in Hp as [Hpa Hp]. destruct IH as (IH1 & IH2 & IH3); [done|].
  rewrite Forall_forall in Ha. rewrite Forall_forall in Hp. split_and!.
  - constructor; [|done]. intros Hin. pose proof (Ha a Hin). lia.
  - constructor; [|done]. intros (b & Hb & Hin)%list_elem_of_fmap. pose proof (Ha b Hin).
    unfold tier_of in Hb. injection Hb as ? ? ? ? ?. lia.
  - intros r r' n Hr Hr' ? ?. apply elem_of_cons in Hr as [->|Hr], Hr' as [->|Hr']; try done.
    + pose proof (Ha r' Hr'). lia.
    + pose proof (Ha r Hr). lia.
    + by apply (IH3 _ _ n).
Qed.

(** The rows current for a model are one whole group of the catalog. *)
Lemma current_prices_group source_url_ok c provider model category now rows :
  catalog_ok source_url_ok c = true → current_prices c provider model category now = Ok rows →
  ∃ first, first ∈ prices c ∧ is_current provider model category now first = true ∧
    let group := filter (λ r, same_group first r = true) (prices c) in
    rows = by_tier_min group ∧ group_ok first group = true.
Proof.
  unfold catalog_ok, current_prices. intros Hok Hcur. bool_props.
  rewrite !forallb_spec in *. rename H0 into Hgroups.
  destruct (filter _ (prices c)) as [|first rest] eqn:Hf; [done|].
  destruct (forallb (same_schedule first) (first :: rest)) eqn:Hs; [|done]. injection Hcur as <-.
  assert (first ∈ filter (λ r, is_current provider model category now r = true) (prices c)) as Hin.
  { rewrite Hf. left. }
  apply list_elem_of_filter in Hin as [Hcur Hin].
  exists first. split; [done|]. split; [done|].
  pose proof (Hgroups first Hin) as Hg. cbn zeta. split; [|done]. f_equal. rewrite <- Hf.
  apply filter_ext_in. intros r Hr. rewrite forallb_spec in Hs. split; intros Hx.
  - assert (r ∈ first :: rest) as Hrf by (rewrite <- Hf; by apply list_elem_of_filter).
    specialize (Hs r Hrf). unfold same_schedule, is_current, same_group in *. bool_props.
    apply bool_decide_eq_true. congruence.
  - unfold group_ok in Hg. apply andb_true_iff in Hg as [Hg _]. rewrite forallb_spec in Hg.
    specialize (Hg r). rewrite list_elem_of_filter in Hg. specialize (Hg (conj Hx Hr)).
    unfold same_common, is_current, same_group in *. bool_props.
    injection Hx as ? ? ? ?. injection Hg as ? ? ? ? ? ? ?.
    repeat (apply andb_true_iff; split); try apply bool_decide_eq_true; try congruence;
      [apply Z.leb_le|apply Z.ltb_lt]; lia.
Qed.

Definition covered (rows : list PriceRecord) (usage : UsageUnits) : Prop :=
  match usage with
  | LlmUsageUnits i _ =>
    ∃ r, r ∈ rows ∧ (pr_tier_basis r = flat ∨ i ≤ pr_tier_max_input_tokens r)
  | _ => True
  end.

Lemma group_rows_ok source_url_ok c first rows :
  catalog_ok source_url_ok c = true →
  rows = by_tier_min (filter (λ r, same_group first r = true) (prices c)) →
  forallb (price_record_ok source_url_ok) rows = true ∧
  ∀ r, r ∈ rows → price_record_ok source_url_ok r = true ∧ pr_category r = pr_category first.
Proof.
  unfold catalog_ok. intros Hc ->. bool_props. rewrite !forallb_spec in *.
  assert (∀ r, r ∈ by_tier_min (filter (λ r, same_group first r = true) (prices c)) →
    price_record_ok source_url_ok r = true ∧ pr_category r = pr_category first) as Hr.
  { intros r Hr. unfold by_tier_min in Hr. rewrite merge_sort_Permutation in Hr.
    apply list_elem_of_filter in Hr as [Hg Hr]. split; [auto|].
    unfold same_group in Hg. bool_props. congruence. }
  split; [|done]. intros r Hin. by apply Hr.
Qed.

(** What [tier_for_group] shows of the schedule of a usage. *)
Definition picks (rows : list PriceRecord) (usage : UsageUnits) : Prop :=
  ∃ r, r ∈ rows ∧ _tier_for (map tier_of rows) usage = Ok (tier_of r) ∧
    filter (λ t, bool_decide ((tier_basis t, tier_min_input_tokens t, tier_max_input_tokens t)
       = (pr_tier_basis r, pr_tier_min_input_tokens r, pr_tier_max_input_tokens r)) = true)
      (map tier_of rows) = [tier_of r].

Lemma picks_flat r usage : pr_tier_basis r = flat → picks [r] usage.
Proof.
  intros Hb. exists r. split; [left|]. unfold _tier_for, all_tiers. simpl.
  rewrite bool_decide_true by done.
  split; [done|]. rewrite filter_cons, decide_True; [done|]. by apply bool_decide_eq_true.
Qed.

(** Ordered token tiers that reach from zero past the input pick exactly one. *)
Lemma picks_tiers r0 rows i o rm :
  (∀ r, r ∈ r0 :: rows → pr_tier_basis r = llm_input_tokens) →
  Forall proper_tier (r0 :: rows) → adjacent (r0 :: rows) = true →
  pr_tier_min_input_tokens r0 = 0 → 0 ≤ i → rm ∈ r0 :: rows → i ≤ pr_tier_max_input_tokens rm →
  picks (r0 :: rows) (LlmUsageUnits i o).
Proof.
  intros Hbasis Hproper Hadj Hmin Hi Hrm Him.
  destruct (ordered_tiers_facts _ Hproper) as (Hnd & Hndt & Huniq); [by apply adjacent_ordered|].
  destruct (adjacent_covers r0 rows i rm) as (r & Hr & Hir); [done|lia|done|done|].
  exists r. split; [done|]. split.
  - unfold _tier_for.
    assert (all_tiers flat (map tier_of (r0 :: rows)) = false) as ->.
    { unfold all_tiers. simpl. rewrite (Hbasis r0) by left. done. }
    assert (all_tiers llm_input_tokens (map tier_of (r0 :: rows)) = true) as ->.
    { unfold all_tiers. apply andb_true_iff. split; [done|]. apply forallb_spec.
      intros t (x & -> & Hx)%list_elem_of_fmap. by apply bool_decide_eq_true, Hbasis. }
    rewrite (filter_unique _ _ (tier_of r)); [done|done|by apply list_elem_of_fmap_2| |].
    + by apply between_spec.
    + intros t (x & -> & Hx)%list_elem_of_fmap Ht%between_spec. by rewrite (Huniq x r i).
  - apply filter_unique; [done|by apply list_elem_of_fmap_2|by apply bool_decide_eq_true|].
    intros t (x & -> & Hx)%list_elem_of_fmap Ht%bool_decide_eq_true.
    simpl in Ht. injection Ht as ? ? ?. rewrite Forall_forall in Hproper.
    pose proof (Hproper x Hx). pose proof (Hproper r Hr). unfold proper_tier in *.
    by rewrite (Huniq x r (pr_tier_min_input_tokens x)) by (done || lia).
Qed.

(** The tier the schedule gives a covered usage: one of its rows, and selected once. *)
Lemma tier_for_group source_url_ok c first rows usage :
  catalog_ok source_url_ok c = true →
  rows = by_tier_min (filter (λ r, same_group first r = true) (prices c)) →
  group_ok first (filter (λ r, same_group first r = true) (prices c)) = true →
  usage_ok usage = true → usage_category usage = pr_category first → covered rows usage →
  picks rows usage.
Proof.
  intros Hc Hrows Hg Hu Hcat Hcov.
  destruct (group_rows_ok _ _ _ _ Hc Hrows) as [_ Hall].
  unfold group_ok in Hg. apply andb_true_iff in Hg as [_ Hg].
  destruct (all_basis flat _) eqn:Hflat.
  - apply Nat.eqb_eq in Hg. destruct (filter _ _) as [|r [|??]] eqn:Hf; try done.
    unfold by_tier_min in Hrows. simpl in Hrows. subst rows.
    unfold all_basis in Hflat. simpl in Hflat. bool_props. by apply picks_flat.
  - apply andb_true_iff in Hg as [Hllm Hcont]. unfold contiguous in Hcont.
    assert (∀ r, r ∈ rows → pr_tier_basis r = llm_input_tokens) as Hbasis.
    { intros r Hr. unfold all_basis in Hllm. rewrite forallb_spec in Hllm.
      subst rows. unfold by_tier_min in Hr. rewrite merge_sort_Permutation in Hr.
      apply Hllm in Hr. by bool_props. }
    rewrite <- Hrows in Hcont. destruct rows as [|r0 rows]; [done|]. bool_props.
    assert (∀ r, r ∈ r0 :: rows → proper_tier r ∧ pr_category r = llm) as Hshape.
    { intros r Hr. destruct (Hall r Hr) as [Hok _]. unfold price_record_ok in Hok. bool_props.
      unfold tier_shape in *. rewrite (Hbasis r Hr) in *. bool_props. unfold proper_tier.
      split; [lia|done]. }
    destruct (Hall r0) as [_ Hfirst]; [left|]. destruct (Hshape r0) as [_ Hl]; [left|].
    rewrite <- Hfirst, Hl in Hcat. destruct usage as [i o| | |]; try done. simpl in Hcov, Hu.
    destruct Hcov as (rm & Hrm & [Hb|Him]); [by rewrite (Hbasis _ Hrm) in Hb|].
    bool_props. rewrite !between_spec in *. eapply picks_tiers; try done; [|lia].
    apply Forall_forall. intros r Hr. by apply Hshape.
Qed.

(** A valid catalog prices every bounded, positive usage its current schedule covers:
    the only ways [quote] fails are no current price, no current exchange rate, and an
    input count beyond the last tier. *)
Theorem quote_total source_url_ok c now provider model usage rows rate :
  catalog_ok source_url_ok c = true →
  current_prices c provider model (usage_category usage) now = Ok rows →
  current_fx c now = Ok rate →
  usage_ok usage = true → 0 < usage_total usage → covered rows usage →
  ∃ q, quote c now provider model usage = Ok q.
Proof.
  intros Hc Hcur Hfx Hu Ht Hcov. unfold quote. rewrite Hcur, Hfx. simpl.
  destruct (current_prices_group _ _ _ _ _ _ _ Hc Hcur) as (first & Hin & Hisc & Hrows & Hg).
  assert (usage_category usage = pr_category first) as Hcat.
  { unfold is_current in Hisc. by bool_props. }
  destruct (group_rows_ok _ _ _ _ Hc Hrows) as [Hall Hrow].
  rewrite (from_records_total source_url_ok) by done. simpl.
  destruct (tier_for_group _ _ _ _ _ Hc Hrows Hg Hu Hcat Hcov) as (r & Hr & Htier & Hsel).
  rewrite Htier. simpl. destruct (Hrow r Hr) as [Hok Hrc].
  assert (1 ≤ fx_micros_sgd_per_usd rate ≤ MAX_FX_MICROS_SGD_PER_USD) as Hrate.
  { unfold current_fx in Hfx. unfold catalog_ok in Hc. bool_props. destruct (fx c) as [f|]; [|done].
    destruct (_ && _); [|done]. injection Hfx as <-. unfold fx_record_ok in *. bool_props.
    by apply between_spec. }
  destruct (amount_total_aux source_url_ok r (fx_micros_sgd_per_usd rate) usage)
    as (v & Hv & Hpos & _); try done; [congruence|].
  fold (tier_of r) in Hv. rewrite Hv. simpl. unfold reject_if.
  destruct (v =? 0) eqn:Hz; bool_props; [lia|].
  destruct rows as [|r0 rows]; [by apply elem_of_nil in Hr|].
  unfold make_quote, is_selected. cbn [q_tier_schedule q_tier_basis q_selected_tier_min_input_tokens
    q_selected_tier_max_input_tokens q_category q_rates tier_of tier_basis tier_min_input_tokens
    tier_max_input_tokens tier_rates] in *.
  rewrite Hsel. rewrite bool_decide_true by (simpl; congruence). eauto.
Qed.

(** ** Witnesses: a two-tier language model *)

Definition sample_digest : string :=
  "0123456789abcdef0123456789abcdef0123456789abcdef0123456789abcdef".
Definition sample_row (lo hi input output : Z) : PriceRecord :=
  mkPriceRecord "openai" "gpt" llm (mkRates "USD" input output 0 0) provider_reported_exact
    freeze_unknown_overage "2026-01" 0 1000 "https://example.com/prices" sample_digest
    llm_input_tokens lo hi.
Definition sample_rows : list PriceRecord :=
  [sample_row 0 200000 1250000 10000000; sample_row 200001 1000000 2500000 15000000].
Definition sample_fx : FxRecord := mkFxRecord 1350000 "fx-1" 0 1000 "mas" sample_digest.
Definition sample_catalog : PriceCatalog := mkCatalog sample_rows (Some sample_fx).
Definition sample_usage : UsageUnits := LlmUsageUnits 1000 500.
Definition sample_tier : PriceTier := tier_of (sample_row 0 200000 1250000 10000000).

Lemma amount_rounds_up_witness :
  exact_native (tier_rates sample_tier) sample_usage * 1350000 ≤ 8438 * 3000000000000.
Proof. apply (amount_rounds_up sample_tier 1350000 sample_usage 8438). reflexivity. Defined.

Lemma amount_total_witness :
  ∃ v, _amount sample_tier 1350000 sample_usage = Ok v ∧ 0 < v ≤ MAX_CHARGE_MICROS_SGD.
Proof.
  apply (amount_total (λ _, true) (sample_row 0 200000 1250000 10000000) 1350000 sample_usage).
  - vm_compute. reflexivity.
  - vm_compute. split; discriminate.
  - reflexivity.
  - reflexivity.
  - reflexivity.
Defined.

Lemma amount_monotone_witness : 8438 ≤ 84375.
Proof.
  apply (amount_monotone sample_tier 1350000 sample_usage (LlmUsageUnits 10000 5000)).
  - vm_compute. split; discriminate.
  - reflexivity.
  - reflexivity.
Defined.

Definition sample_quote : PriceQuote :=
  mkQuote "openai" "gpt" llm 8438 (mkRates "USD" 1250000 10000000 0 0) 1350000
    provider_reported_exact freeze_unknown_overage "2026-01" "https://example.com/prices"
    sample_digest "fx-1" sample_digest llm_input_tokens 0 200000 (map tier_of sample_rows).

Lemma quote_settles_exactly_witness : amount_from_snapshot sample_quote sample_usage = Ok 8438.
Proof.
  apply (quote_settles_exactly sample_catalog 500 "openai" "gpt" sample_usage sample_quote).
  vm_compute. reflexivity.
Defined.

Lemma quote_total_witness : ∃ q, quote sample_catalog 500 "openai" "gpt" sample_usage = Ok q.
Proof.
  apply (quote_total (λ _, true) sample_catalog 500 "openai" "gpt" sample_usage sample_rows sample_fx).
  - vm_compute. reflexivity.
  - vm_compute. reflexivity.
  - reflexivity.
  - reflexivity.
  - reflexivity.
  - exists (sample_row 0 200000 1250000 10000000). split; [left|right; vm_compute; discriminate].
Defined.
