(* ===== verification/BudgetLedger.v ===== *)
(** * Budget reservations: data and storage

    The rows [services/budget/guard.py], [services/budget/reconciler.py],
    [services/providers/call_repository.py] and the revocation code of
    [adapters/sqlcipher/identity_repositories.py] share: reservations, provider
    calls, the cost ledger and the runtime settings, with the statements the
    services run on them and the CHECK and UNIQUE constraints that can bear on
    them ([adapters/sqlcipher/foundation_0001.py]).  Times are microseconds; the
    stored text sorts as they do.  A unit of work commits everything its
    operation wrote or, when the operation raises, nothing. *)

From S2P Require Import Prelude PttFraming BudgetPricing.

(** ** Exceptions *)

Inductive budget_exn :=
| Plain (e : exn)
| BudgetEvidenceQuarantined (reason_code : string)
| ReservationNotSettleable
| SentReservationRequiresSettlement.

Definition denied_ (msg : string) : budget_exn := Plain (PermissionError msg).

(** The exception as its class and message. *)
Definition raised (e : budget_exn) : exn :=
  match e with
  | Plain e => e
  | BudgetEvidenceQuarantined reason => PermissionSubclass "BudgetEvidenceQuarantined" reason
  | ReservationNotSettleable => PermissionSubclass "_ReservationNotSettleable" "reservation_not_settleable"
  | SentReservationRequiresSettlement =>
    PermissionSubclass "_SentReservationRequiresSettlement" "sent_reservation_requires_settlement"
  end%string.

(** ** Rows *)

Inductive BudgetOutcome :=
| allow | allow_soft_warning | deny_hard_limit | deny_unknown_price | deny_cloud_egress_frozen.
Inductive ReservationState := reserved | sent | settled | released | denied.
Inductive TransportPhase :=
| not_claimed | claim_begun | marked_sent | network_invocation_starting | finished.
Inductive CallOutcome := started | succeeded | failed | cancelled | ambiguous.

#[export] Instance BudgetOutcome_eq_dec : EqDecision BudgetOutcome.
Proof. solve_decision. Defined.
#[export] Instance ReservationState_eq_dec : EqDecision ReservationState.
Proof. solve_decision. Defined.
#[export] Instance TransportPhase_eq_dec : EqDecision TransportPhase.
Proof. solve_decision. Defined.
#[export] Instance CallOutcome_eq_dec : EqDecision CallOutcome.
Proof. solve_decision. Defined.

Definition allowed (o : BudgetOutcome) : bool :=
  match o with allow | allow_soft_warning => true | _ => false end.

Record Commitment := mkCommitment { cm_key_id : string; cm_value_b64 : string }.
Record SignedPricingSnapshot := mkSigned {
  sp_canonical_json : string;
  sp_commitment : Commitment;
}.

(** The price columns of a reservation: all null or none (CHECK). *)
Record PricingColumns := mkColumns {
  pc_snapshot : SignedPricingSnapshot;
  pc_primary_accounting_basis : AccountingBasis;
  pc_missing_evidence_policy : MissingPolicy;
  pc_pricing_version : string;
  pc_price_source_sha256 : string;
  pc_fx_version : string;
  pc_fx_source_sha256 : string;
}.

Record Reservation := mkReservation {
  rv_request_id : UUID;
  rv_attempt_id : UUID;
  rv_month_key : string;
  rv_category : Category;
  rv_provider : string;
  rv_model : string;
  rv_outcome : BudgetOutcome;
  rv_usage_ceiling : UsageUnits;
  rv_reserved : Z;
  rv_charged : option Z;
  rv_pricing : option PricingColumns;
  rv_estimate_overrun : bool;
  rv_state : ReservationState;
  rv_ordering_version : Z;
  rv_phase : TransportPhase;
  rv_created_at : Z;
  rv_expires_at : Z;
  rv_settled_at : option Z;
  rv_reconciled_at : option Z;
}.

(** The three receipt columns of a provider call. *)
Definition ReceiptColumns : Type := option string * option string * option string.
Definition no_receipt : ReceiptColumns := (None, None, None).
Definition any_present (r : ReceiptColumns) : bool :=
  let '(a, b, c) := r in
  bool_decide (is_Some a) || bool_decide (is_Some b) || bool_decide (is_Some c).
Definition all_present (r : ReceiptColumns) : bool :=
  let '(a, b, c) := r in
  bool_decide (is_Some a) && bool_decide (is_Some b) && bool_decide (is_Some c).

(** [cl_response]: the two [response_hmac] columns, null together (CHECK).  The redaction
    receipt's id and the request's commitment, which no statement here reads, are not kept. *)
Record Call := mkCall {
  cl_request_id : UUID;
  cl_attempt_id : UUID;
  cl_authorization_id : UUID;
  cl_reservation_id : UUID;
  cl_purpose : string;
  cl_provider : string;
  cl_model : string;
  cl_category : Category;
  cl_outcome : CallOutcome;
  cl_ordering_version : Z;
  cl_phase : TransportPhase;
  cl_receipt : ReceiptColumns;
  cl_started_at : Z;
  cl_finished_at : option Z;
  cl_response : option (string * string);
}.

Record LedgerRow := mkLedgerRow {
  le_month_key : string;
  le_reserved : Z;
  le_charged : Z;
  le_receipt : option string;
  le_accounting_basis : option AccountingBasis;
  le_conservative_estimate_used : bool;
  le_estimate_overrun : bool;
  le_hard_cap_exceeded : bool;
  le_settled_at : Z;
}.

(** The keys of [runtime_settings] these services use: each prefix is its own
    constructor, [OtherKey] a key with none of them. *)
Inductive SettingKey :=
| FreezeKey (month_key : string)
| WarningKey (month_key : string)
| TurnKey (reservation_id : UUID)
| AlertKey (month_key : string) (reservation_id : UUID)
| RouteKey (authorization_id : UUID)
| OtherKey (key : string).

Record FreezePayload := mkFreeze {
  fz_reason_code : string;
  fz_month_key : string;
  fz_effective_micros_sgd : option Z;
  fz_hard_limit : Z;
  fz_reservation_id : UUID;
}.
Record BudgetTurnBindingV1 := mkBinding {
  bd_household_id : UUID;
  bd_turn_id : UUID;
  bd_request_id : UUID;
  bd_attempt_id : UUID;
}.

(** Values, parsed: [OtherValue] is any text that is none of these. *)
Inductive SettingValue :=
| FreezeValue (p : FreezePayload)
| EmittedValue
| BindingValue (b : BudgetTurnBindingV1)
| OtherValue (json : string).

#[export] Instance FreezePayload_eq_dec : EqDecision FreezePayload.
Proof. unfold EqDecision. solve_decision. Defined.
#[export] Instance BudgetTurnBindingV1_eq_dec : EqDecision BudgetTurnBindingV1.
Proof. unfold EqDecision. solve_decision. Defined.
#[export] Instance SettingValue_eq_dec : EqDecision SettingValue.
Proof. solve_decision. Defined.
#[export] Instance SettingKey_eq_dec : EqDecision SettingKey.
Proof. unfold EqDecision. solve_decision. Defined.
#[export] Instance SettingKey_countable : Countable SettingKey.
Proof.
  refine (inj_countable' (λ k, match k with
    | FreezeKey m => inl (inl m)
    | WarningKey m => inl (inr m)
    | TurnKey r => inr (inl (inl (r : Z)))
    | AlertKey m r => inr (inl (inr (m, (r : Z))))
    | RouteKey a => inr (inr (inl (a : Z)))
    | OtherKey s => inr (inr (inr s)) end)
    (λ x, match x with
    | inl (inl m) => FreezeKey m
    | inl (inr m) => WarningKey m
    | inr (inl (inl r)) => TurnKey r
    | inr (inl (inr (m, r))) => AlertKey m r
    | inr (inr (inl a)) => RouteKey a
    | inr (inr (inr s)) => OtherKey s end) _).
  by intros [].
Defined.

Record BudgetDB := mkBudgetDB {
  reservations : gmap UUID Reservation;
  calls : gmap UUID Call;
  ledger : gmap UUID LedgerRow;
  settings : gmap SettingKey SettingValue;
}.

Definition empty_budget : BudgetDB := mkBudgetDB ∅ ∅ ∅ ∅.

Abbreviation B := (M BudgetDB budget_exn).

(** ** Statements *)

Definition put_reservation (id : UUID) (r : Reservation) (db : BudgetDB) : BudgetDB :=
  mkBudgetDB (<[id := r]> (reservations db)) (calls db) (ledger db) (settings db).
Definition put_call (id : UUID) (c : Call) (db : BudgetDB) : BudgetDB :=
  mkBudgetDB (reservations db) (<[id := c]> (calls db)) (ledger db) (settings db).
Definition put_ledger (id : UUID) (l : LedgerRow) (db : BudgetDB) : BudgetDB :=
  mkBudgetDB (reservations db) (calls db) (<[id := l]> (ledger db)) (settings db).
Definition put_setting (k : SettingKey) (v : SettingValue) (db : BudgetDB) : BudgetDB :=
  mkBudgetDB (reservations db) (calls db) (ledger db) (<[k := v]> (settings db)).

(** The CHECKs of [budget_reservations] on amounts, states and times. *)
Definition reservation_check (r : Reservation) : bool :=
  between 0 (rv_reserved r) MAX_CHARGE_MICROS_SGD &&
  match rv_charged r with None => true | Some c => between 0 c MAX_CHARGE_MICROS_SGD end &&
  (rv_ordering_version r =? 1) &&
  match rv_outcome r with
  | allow | allow_soft_warning =>
    (1 <=? rv_reserved r) && bool_decide (is_Some (rv_pricing r)) &&
    negb (bool_decide (rv_state r = denied))
  | deny_hard_limit =>
    (rv_reserved r =? 0) && bool_decide (is_Some (rv_pricing r)) &&
    bool_decide (rv_state r = denied)
  | deny_unknown_price | deny_cloud_egress_frozen =>
    (rv_reserved r =? 0) && bool_decide (rv_pricing r = None) && bool_decide (rv_state r = denied)
  end &&
  match rv_state r with
  | settled => bool_decide (is_Some (rv_charged r)) && bool_decide (is_Some (rv_settled_at r))
  | _ => bool_decide (rv_charged r = None) && bool_decide (rv_settled_at r = None)
  end &&
  Bool.eqb (rv_estimate_overrun r)
    (match rv_charged r with Some c => rv_reserved r <? c | None => false end) &&
  (rv_created_at r <? rv_expires_at r).

Definition integrity : budget_exn := Plain IntegrityError.

Definition insert_reservation (id : UUID) (r : Reservation) : B unit :=
  rows ← gets reservations;
  _ ← raise_if (bool_decide (is_Some ((rows : gmap UUID Reservation) !! id))) integrity;
  _ ← raise_if (negb (bool_decide (map_Forall
        (λ _ x, rv_attempt_id x ≠ rv_attempt_id r) (rows : gmap UUID Reservation)))) integrity;
  _ ← raise_if (negb (reservation_check r)) integrity;
  modify (put_reservation id r).

(** [UPDATE budget_reservations SET f WHERE id=? AND attempt_id=? AND guard]; the row
    count. *)
Definition update_reservation (id attempt_id : UUID) (guard : Reservation → bool)
    (f : Reservation → Reservation) : B Z :=
  row ← gets (λ db, reservations db !! id);
  match (row : option Reservation) with
  | Some r =>
    if (rv_attempt_id r =? attempt_id) && guard r then
      _ ← raise_if (negb (reservation_check (f r))) integrity;
      _ ← modify (put_reservation id (f r));
      mret 1
    else mret 0
  | None => mret 0
  end.

(** [UPDATE provider_calls SET f WHERE id=? AND guard]. *)
Definition update_call (id : UUID) (guard : Call → bool) (f : Call → Call) : B Z :=
  row ← gets (λ db, calls db !! id);
  match (row : option Call) with
  | Some c => if guard c then _ ← modify (put_call id (f c)); mret 1 else mret 0
  | None => mret 0
  end.

(** The calls of a reservation and attempt. *)
Definition calls_of (id attempt_id : UUID) (db : BudgetDB) : list (UUID * Call) :=
  filter (λ p : UUID * Call, cl_reservation_id p.2 = id ∧ cl_attempt_id p.2 = attempt_id)
    (map_to_list (calls db)).

(** [INSERT INTO runtime_settings ...], and the same with [ON CONFLICT(key) DO NOTHING]. *)
Definition insert_setting (k : SettingKey) (v : SettingValue) : B unit :=
  db ← gets id;
  _ ← raise_if (bool_decide (is_Some (settings db !! k))) integrity;
  modify (put_setting k v).
Definition insert_setting_or_ignore (k : SettingKey) (v : SettingValue) : B Z :=
  db ← gets id;
  match settings db !! k with
  | Some _ => mret 0
  | None => _ ← modify (put_setting k v); mret 1
  end.

(** Field assignments. *)
Definition set_sent (r : Reservation) : Reservation :=
  mkReservation (rv_request_id r) (rv_attempt_id r) (rv_month_key r) (rv_category r)
    (rv_provider r) (rv_model r) (rv_outcome r) (rv_usage_ceiling r) (rv_reserved r)
    (rv_charged r) (rv_pricing r) (rv_estimate_overrun r) sent (rv_ordering_version r)
    marked_sent (rv_created_at r) (rv_expires_at r) (rv_settled_at r) (rv_reconciled_at r).
Definition set_phase (p : TransportPhase) (r : Reservation) : Reservation :=
  mkReservation (rv_request_id r) (rv_attempt_id r) (rv_month_key r) (rv_category r)
    (rv_provider r) (rv_model r) (rv_outcome r) (rv_usage_ceiling r) (rv_reserved r)
    (rv_charged r) (rv_pricing r) (rv_estimate_overrun r) (rv_state r) (rv_ordering_version r)
    p (rv_created_at r) (rv_expires_at r) (rv_settled_at r) (rv_reconciled_at r).
Definition set_settled (charged : Z) (overrun : bool) (settled_at : Z) (reconciled_at : option Z)
    (r : Reservation) : Reservation :=
  mkReservation (rv_request_id r) (rv_attempt_id r) (rv_month_key r) (rv_category r)
    (rv_provider r) (rv_model r) (rv_outcome r) (rv_usage_ceiling r) (rv_reserved r)
    (Some charged) (rv_pricing r) overrun settled (rv_ordering_version r)
    finished (rv_created_at r) (rv_expires_at r) (Some settled_at) reconciled_at.
Definition set_released (now : Z) (r : Reservation) : Reservation :=
  mkReservation (rv_request_id r) (rv_attempt_id r) (rv_month_key r) (rv_category r)
    (rv_provider r) (rv_model r) (rv_outcome r) (rv_usage_ceiling r) (rv_reserved r)
    (rv_charged r) (rv_pricing r) (rv_estimate_overrun r) released (rv_ordering_version r)
    finished (rv_created_at r) (rv_expires_at r) (rv_settled_at r) (Some now).

Definition set_call_phase (p : TransportPhase) (c : Call) : Call :=
  mkCall (cl_request_id c) (cl_attempt_id c) (cl_authorization_id c) (cl_reservation_id c)
    (cl_purpose c) (cl_provider c) (cl_model c) (cl_category c) (cl_outcome c)
    (cl_ordering_version c) p (cl_receipt c) (cl_started_at c) (cl_finished_at c) (cl_response c).
Definition set_call_finished (o : CallOutcome) (now : Z) (receipt : ReceiptColumns) (c : Call) :
    Call :=
  mkCall (cl_request_id c) (cl_attempt_id c) (cl_authorization_id c) (cl_reservation_id c)
    (cl_purpose c) (cl_provider c) (cl_model c) (cl_category c) o
    (cl_ordering_version c) finished receipt (cl_started_at c) (Some now) (cl_response c).
Definition set_call_response (response : string * string) (c : Call) : Call :=
  mkCall (cl_request_id c) (cl_attempt_id c) (cl_authorization_id c) (cl_reservation_id c)
    (cl_purpose c) (cl_provider c) (cl_model c) (cl_category c) (cl_outcome c)
    (cl_ordering_version c) (cl_phase c) (cl_receipt c) (cl_started_at c) (cl_finished_at c)
    (Some response).
(** The same with the receipt columns left alone. *)
Definition close_call (o : CallOutcome) (now : Z) (c : Call) : Call :=
  set_call_finished o now (cl_receipt c) c.

(** A unit of work. *)
Definition in_uow {E A} (operation : M BudgetDB E A) : M BudgetDB E A := λ db,
  match operation db with
  | (Ok value, db') => (Ok value, db')
  | (Raise e, _) => (Raise e, db)
  end.

(** [try: m except: h], the handler choosing by the exception; re-raising is
    [raise]. *)
Definition try_except {E E' A} (m : M BudgetDB E A) (h : E → M BudgetDB E' A) :
    M BudgetDB E' A := λ db,
  match m db with
  | (Ok value, db') => (Ok value, db')
  | (Raise e, db') => h e db'
  end.

(** The constraints of [cost_ledger] that bear on a settlement, [r] the
    reservation the foreign keys name: its amounts and times are the row's, and a
    receipt's basis is the reservation's primary one, or the conservative one its
    policy allows. *)
Definition ledger_check (l : LedgerRow) (r : Reservation) : bool :=
  bool_decide (le_month_key l = rv_month_key r) && (le_reserved l =? rv_reserved r) &&
  bool_decide (rv_charged r = Some (le_charged l)) &&
  bool_decide (rv_settled_at r = Some (le_settled_at l)) &&
  between 1 (le_reserved l) MAX_CHARGE_MICROS_SGD &&
  between 0 (le_charged l) MAX_CHARGE_MICROS_SGD &&
  Bool.eqb (le_estimate_overrun l) (le_reserved l <? le_charged l) &&
  match rv_pricing r with
  | None => false
  | Some columns =>
    match le_receipt l, le_accounting_basis l with
    | None, None => le_conservative_estimate_used l
    | Some _, Some basis =>
      (bool_decide (basis = pc_primary_accounting_basis columns) &&
       negb (le_conservative_estimate_used l)) ||
      (bool_decide (basis = conservative_full_reservation) &&
       bool_decide (pc_missing_evidence_policy columns = policy_conservative_full_reservation) &&
       le_conservative_estimate_used l)
    | _, _ => false
    end
  end.

(** [INSERT INTO cost_ledger], [reservation_id] unique. *)
Definition insert_ledger (reservation_id : UUID) (l : LedgerRow) : B unit :=
  db ← gets id;
  match reservations db !! reservation_id with
  | None => raise integrity
  | Some r =>
    _ ← raise_if (bool_decide (is_Some (ledger db !! reservation_id)) || negb (ledger_check l r))
          integrity;
    modify (put_ledger reservation_id l)
  end.

(** ** What a month has spent or promised *)

Definition is_open (s : ReservationState) : bool :=
  match s with reserved | sent => true | _ => false end.
Definition counts (s : ReservationState) : bool :=
  match s with reserved | sent | settled => true | _ => false end.

(** [charged if state == "settled" else reserved]. *)
Definition effective_amount (r : Reservation) : option Z :=
  match rv_state r with settled => rv_charged r | _ => Some (rv_reserved r) end.

(** The rows of [SELECT ... WHERE month_key=? AND state IN ('reserved','sent','settled')],
    [skip] left out. *)
Definition month_rows (month : string) (skip : option UUID) (db : BudgetDB) : list Reservation :=
  (filter (λ p : UUID * Reservation,
     rv_month_key p.2 = month ∧ counts (rv_state p.2) = true ∧ Some p.1 ≠ skip)
     (map_to_list (reservations db))).*2.

Fixpoint add_rows (missing : budget_exn) (rows : list Reservation) (total : Z) :
    result budget_exn Z :=
  match rows with
  | [] => Ok total
  | r :: rest =>
    match effective_amount r with
    | None => Raise missing
    | Some amount =>
      match checked_add total amount MAX_AGGREGATE_MICROS_SGD with
      | Ok total' => add_rows missing rest total'
      | Raise e => Raise (Plain e)
      end
    end
  end.

Definition frozen (month : string) (db : BudgetDB) : bool :=
  bool_decide (is_Some (settings db !! FreezeKey month)).
Definition warned (month : string) (db : BudgetDB) : bool :=
  bool_decide (is_Some (settings db !! WarningKey month)).
