(* ===== verification/BudgetGuard.v ===== *)
(** * The budget guard: [services/budget/guard.py] and [services/budget/reconciler.py]

    Reserve before a provider call, mark sent, settle or release after it, and
    the reconciler that closes what was left open.  The evidence service
    ([services/budget/evidence.py]: signed price snapshots and usage receipts),
    the provider reviews and the Singapore calendar are the interface
    [BudgetServices]; clock readings and fresh ids are arguments. *)

From stdpp Require Import sorting.
From S2P Require Import Prelude PttFraming BudgetPricing BudgetLedger.

Record BudgetReservationRequest := mkRequest {
  rq_household_id : UUID;
  rq_turn_id : UUID;
  rq_request_id : UUID;
  rq_attempt_id : UUID;
  rq_provider : string;
  rq_model : string;
  rq_category : Category;
  rq_usage_ceiling : UsageUnits;
  rq_month_key : string;
}.

(** [exact_pricing_purpose] and the field bounds. *)
Definition request_ok (r : BudgetReservationRequest) : bool :=
  usage_ok (rq_usage_ceiling r) &&
  bool_decide (usage_category (rq_usage_ceiling r) = rq_category r) &&
  (0 <? usage_total (rq_usage_ceiling r)) &&
  match rq_usage_ceiling r with WebSearchUsageUnits _ _ w => w =? 1 | _ => true end.

Record BudgetReservation := mkBudgetReservation {
  br_reservation_id : UUID;
  br_request_id : UUID;
  br_attempt_id : UUID;
  br_outcome : BudgetOutcome;
  br_amount_micros_sgd : Z;
  br_pricing_commitment : option Commitment;
  br_expires_at : Z;
}.

(** [BudgetReservation.exact_quote_shape]. *)
Definition make_budget_reservation (b : BudgetReservation) : result budget_exn BudgetReservation :=
  let quote_absent :=
    match br_outcome b with deny_unknown_price | deny_cloud_egress_frozen => true | _ => false end in
  if xorb quote_absent (bool_decide (br_pricing_commitment b = None))
  then Raise (Plain (ValueError "budget_reservation_quote_shape_invalid"))
  else if xorb (allowed (br_outcome b)) (0 <? br_amount_micros_sgd b)
  then Raise (Plain (ValueError "budget_reservation_amount_shape_invalid"))
  else Ok b.

Record BudgetSettlement := mkSettlement {
  st_reservation_id : UUID;
  st_charged_micros_sgd : Z;
  st_conservative_estimate_used : bool;
  st_estimate_overrun : bool;
  st_cloud_egress_frozen : bool;
}.

(** [ProviderUsageReceiptV1]. *)
Record ProviderUsageReceipt := mkUsageReceipt {
  ur_provider_call_id : UUID;
  ur_reservation_id : UUID;
  ur_request_id : UUID;
  ur_attempt_id : UUID;
  ur_authorization_id : UUID;
  ur_provider : string;
  ur_model : string;
  ur_category : Category;
  ur_accounting_basis : AccountingBasis;
  ur_billable_usage : UsageUnits;
  ur_receipt_commitment : Commitment;
  ur_receipt_id : UUID;
}.

Inductive Disposition := never_sent | disposition_sent | unknown.
#[export] Instance Disposition_eq_dec : EqDecision Disposition.
Proof. solve_decision. Defined.

Record TransportProof := mkProof {
  tp_reservation_id : UUID;
  tp_attempt_id : UUID;
  tp_disposition : Disposition;
}.

Inductive Purpose := cloud_stt | cloud_reasoning | cloud_tts.
#[export] Instance Purpose_eq_dec : EqDecision Purpose.
Proof. solve_decision. Defined.
Definition category_of (p : Purpose) : Category :=
  match p with cloud_stt => stt | cloud_reasoning => llm | cloud_tts => tts end.
Definition purpose_text (p : Purpose) : string :=
  match p with
  | cloud_stt => "cloud_stt" | cloud_reasoning => "cloud_reasoning" | cloud_tts => "cloud_tts"
  end.

#[export] Instance Commitment_eq_dec : EqDecision Commitment.
Proof. unfold EqDecision. solve_decision. Defined.

(** The fields of [RouteAuthorization] and [RouteConsumption] that are read. *)
Record RouteBinding := mkBound {
  bn_request_id : UUID;
  bn_attempt_id : UUID;
  bn_purpose : Purpose;
  bn_household_id : UUID;
  bn_subject_id : option UUID;
  bn_session_id : UUID;
  bn_turn_id : UUID;
  bn_provider : string;
  bn_model : string;
}.
#[export] Instance RouteBinding_eq_dec : EqDecision RouteBinding.
Proof. unfold EqDecision. solve_decision. Defined.

Record RouteAuthorization := mkRoute {
  ra_authorization_id : UUID;
  ra_binding : RouteBinding;
  ra_request_commitment : Commitment;
  ra_max_input_bytes : Z;
  ra_max_input_units : Z;
  ra_budget_reservation_id : UUID;
  ra_maximum_sensitivity : string;
  ra_expires_at : Z;
}.
Record RouteConsumption := mkConsumption {
  rc_binding : RouteBinding;
  rc_request_commitment : Commitment;
  rc_input_bytes : Z;
  rc_input_units : Z;
  rc_consumed_at : Z;
}.

Record BudgetAccountingContext := mkContext {
  ac_category : Category;
  ac_usage_ceiling : UsageUnits;
  ac_primary_accounting_basis : AccountingBasis;
  ac_missing_evidence_policy : MissingPolicy;
}.

(** What the guard takes from elsewhere; [json_turn_id] is SQLite's
    [json_extract(value_json, '$.turn_id')] on a text that is no binding. *)
Class BudgetServices := {
  singapore_month_key : Z → string;
  require_current_review : string → string → string → Z → result budget_exn unit;
  issue_pricing_snapshot :
    BudgetReservationRequest → PriceQuote → result budget_exn SignedPricingSnapshot;
  require_pricing_snapshot : UUID → Reservation → result budget_exn PriceQuote;
  require_provider_usage_receipt :
    UUID → Call → UUID → Reservation → Z → result budget_exn ProviderUsageReceipt;
  canonical_receipt : ProviderUsageReceipt → string;
  json_turn_id : string → option UUID;
}.

Section Guard.
Context `{Services : BudgetServices}.
Context (catalog : PriceCatalog) (hard_limit soft_limit : Z) (reservation_expiry : Z).

Definition purpose_of (c : Category) : option string :=
  match c with
  | stt => Some "cloud_stt"%string
  | llm => Some "cloud_reasoning"%string
  | tts => Some "cloud_tts"%string
  | web_search => None
  end.

(** The exceptions of a quote that only mean there is none. *)
Definition caught_by_reserve (e : budget_exn) : bool :=
  match e with
  | BudgetEvidenceQuarantined _ | ReservationNotSettleable | SentReservationRequiresSettlement => true
  | Plain (PermissionError _ | ValueError _ | OverflowError _ | ContractParseError _
           | JSONDecodeError | UnicodeDecodeError | UnicodeEncodeError | ValidationError) => true
  | Plain _ => false
  end.

Definition quoted (request : BudgetReservationRequest) (now : Z) :
    result budget_exn (option (PriceQuote * SignedPricingSnapshot)) :=
  let attempt :=
    q ← (match quote catalog now (rq_provider request) (rq_model request)
                 (rq_usage_ceiling request) with
         | Ok q => Ok q | Raise e => Raise (Plain e) end);
    s ← issue_pricing_snapshot request q;
    Ok (q, s) in
  match attempt with
  | Ok qs => Ok (Some qs)
  | Raise e => if caught_by_reserve e then Ok None else Raise e
  end.

Definition decide_outcome (is_frozen is_warned : bool) (priced : bool) (projected : Z) :
    BudgetOutcome :=
  if is_frozen then deny_cloud_egress_frozen
  else if negb priced then deny_unknown_price
  else if hard_limit <? projected then deny_hard_limit
  else if (soft_limit <? projected) && negb is_warned then allow_soft_warning
  else allow.

Definition columns_of (q : PriceQuote) (s : SignedPricingSnapshot) : PricingColumns :=
  mkColumns s (q_primary_accounting_basis q) (q_missing_evidence_policy q) (q_pricing_version q)
    (q_price_source_sha256 q) (q_fx_version q) (q_fx_source_sha256 q).

Definition reserve_locked (request : BudgetReservationRequest) (purpose : string)
    (reservation_id : UUID) (now : Z) (priced : option (PriceQuote * SignedPricingSnapshot)) :
    B BudgetReservation :=
  let month := rq_month_key request in
  _ ← lift (require_current_review (rq_provider request) (rq_model request) purpose now);
  is_frozen ← gets (frozen month);
  rows ← gets (month_rows month None);
  total ← lift (add_rows (denied_ "budget_terminal_amount_missing") rows 0);
  let authoritative := match priced with None => 0 | Some (q, _) => q_amount_micros_sgd q end in
  _ ← raise_if (negb (between 0 authoritative MAX_CHARGE_MICROS_SGD)) (Plain out_of_bounds);
  projected ← lift (match checked_add total authoritative MAX_AGGREGATE_MICROS_SGD with
                    | Ok v => Ok v | Raise e => Raise (Plain e) end);
  is_warned ← gets (warned month);
  let outcome := decide_outcome is_frozen is_warned (bool_decide (is_Some priced)) projected in
  let state := if allowed outcome then reserved else denied in
  let amount := if allowed outcome then authoritative else 0 in
  let persisted :=
    match outcome with deny_unknown_price | deny_cloud_egress_frozen => None | _ => priced end in
  let expires_at := now + reservation_expiry in
  _ ← insert_reservation reservation_id
        (mkReservation (rq_request_id request) (rq_attempt_id request) month (rq_category request)
           (rq_provider request) (rq_model request) outcome (rq_usage_ceiling request) amount None
           (match persisted with None => None | Some (q, s) => Some (columns_of q s) end)
           false state 1 not_claimed now expires_at None None);
  _ ← insert_setting (TurnKey reservation_id)
        (BindingValue (mkBinding (rq_household_id request) (rq_turn_id request)
           (rq_request_id request) (rq_attempt_id request)));
  _ ← (if bool_decide (outcome = allow_soft_warning)
       then insert_setting (WarningKey month) EmittedValue else mret tt);
  lift (make_budget_reservation
    (mkBudgetReservation reservation_id (rq_request_id request) (rq_attempt_id request) outcome
       amount (match persisted with None => None | Some (_, s) => Some (sp_commitment s) end)
       expires_at)).

Definition reserve (request : BudgetReservationRequest) (reservation_id : UUID) (now : Z) :
    B BudgetReservation :=
  _ ← raise_if (negb (bool_decide (rq_month_key request = singapore_month_key now)))
        (denied_ "budget_month_mismatch");
  match purpose_of (rq_category request) with
  | None => raise (denied_ "budget_category_not_activated")
  | Some purpose =>
    priced ← lift (quoted request now);
    in_uow (reserve_locked request purpose reservation_id now priced)
  end.

Definition require_accounting_context (route : RouteAuthorization)
    (consumption : RouteConsumption) : B BudgetAccountingContext :=
  let b := ra_binding route in
  let c := rc_binding consumption in
  row ← gets (λ db, reservations db !! ra_budget_reservation_id route);
  match (row : option Reservation) with
  | None => raise (denied_ "budget_accounting_context_missing")
  | Some r =>
    _ ← raise_if (negb (
          (rv_request_id r =? bn_request_id b) && (rv_attempt_id r =? bn_attempt_id b) &&
          bool_decide (rv_provider r = bn_provider b) && bool_decide (rv_model r = bn_model b) &&
          bool_decide (rv_category r = category_of (bn_purpose b)) &&
          bool_decide (rv_state r = sent) && bool_decide (rv_phase r = marked_sent) &&
          (bn_request_id c =? bn_request_id b) && (bn_attempt_id c =? bn_attempt_id b) &&
          bool_decide (bn_provider c = bn_provider b) && bool_decide (bn_model c = bn_model b) &&
          bool_decide (bn_purpose c = bn_purpose b)))
          (denied_ "budget_accounting_context_binding_mismatch");
    quote ← lift (require_pricing_snapshot (ra_budget_reservation_id route) r);
    _ ← raise_if (match rv_usage_ceiling r with
                  | TtsUsageUnits characters =>
                    negb (rc_input_units consumption =? characters) ||
                    negb (ra_max_input_units route =? characters)
                  | _ => false end)
          (denied_ "tts_request_character_binding_mismatch");
    mret (mkContext (category_of (bn_purpose b)) (rv_usage_ceiling r)
            (q_primary_accounting_basis quote) (q_missing_evidence_policy quote))
  end.

Definition mark_sent (reservation_id attempt_id : UUID) (now : Z) : B unit :=
  in_uow (
    row ← gets (λ db, reservations db !! reservation_id);
    match (row : option Reservation) with
    | Some r =>
      _ ← raise_if (negb (rv_attempt_id r =? attempt_id)) (denied_ "reservation_not_markable_sent");
      is_frozen ← gets (frozen (rv_month_key r));
      _ ← raise_if is_frozen (denied_ "budget_cloud_egress_frozen");
      found ← gets (λ db, filter (λ p : UUID * Call, cl_ordering_version p.2 = 1 ∧
                 cl_phase p.2 = claim_begun ∧ cl_outcome p.2 = started)
                 (calls_of reservation_id attempt_id db));
      match (found : list (UUID * Call)) with
      | [] => raise (denied_ "provider_claim_proof_missing")
      | (call_id, c) :: _ =>
        _ ← raise_if (any_present (cl_receipt c)) (denied_ "provider_claim_proof_missing");
        changed ← update_reservation reservation_id attempt_id
          (λ r, bool_decide (rv_state r = reserved) && (now <? rv_expires_at r) &&
                (rv_ordering_version r =? 1) && bool_decide (rv_phase r = claim_begun)) set_sent;
        _ ← raise_if (negb (changed =? 1)) (denied_ "reservation_not_markable_sent");
        provider ← update_call call_id
          (λ c, (cl_reservation_id c =? reservation_id) && (cl_attempt_id c =? attempt_id) &&
                bool_decide (cl_outcome c = started) && (cl_ordering_version c =? 1) &&
                bool_decide (cl_phase c = claim_begun)) (set_call_phase marked_sent);
        raise_if (negb (provider =? 1)) (denied_ "provider_claim_phase_race")
      end
    | None => raise (denied_ "reservation_not_markable_sent")
    end).

Definition _record_freeze (month : string) (reason : string) (total : option Z)
    (reservation_id : UUID) : B unit :=
  let payload := FreezeValue (mkFreeze reason month total hard_limit reservation_id) in
  freeze_insert ← insert_setting_or_ignore (FreezeKey month) payload;
  exists_ ← gets (frozen month);
  _ ← raise_if (negb (freeze_insert =? 1) && negb exists_)
        (denied_ "budget_cloud_egress_freeze_insert_failed");
  alert_insert ← insert_setting_or_ignore (AlertKey month reservation_id) payload;
  existing ← gets (λ db, settings db !! AlertKey month reservation_id);
  raise_if (negb (alert_insert =? 1) && negb (bool_decide (existing = Some payload)))
    (denied_ "budget_owner_alert_insert_failed").

Definition _freeze_evidence_quarantine (reservation_id attempt_id : UUID) (reason : string) :
    B unit :=
  in_uow (
    row ← gets (λ db, reservations db !! reservation_id);
    match (row : option Reservation) with
    | Some r =>
      if rv_attempt_id r =? attempt_id
      then _record_freeze (rv_month_key r) reason None reservation_id else mret tt
    | None => mret tt
    end).


(** ** Settlement *)

Definition settleable (r : Reservation) : bool :=
  is_open (rv_state r) && allowed (rv_outcome r).

Definition quarantined {A} : B A := raise (denied_ "budget_transport_proof_quarantined").

(** The transport evidence of [_settle_locked]: the usage receipt if there is one,
    and whether the charge is forced to be conservative.  A call still running is
    closed as ambiguous. *)
Definition transport_evidence (reservation_id : UUID) (r : Reservation) (now : Z) :
    B (option ProviderUsageReceipt * bool) :=
  found ← gets (calls_of reservation_id (rv_attempt_id r));
  _ ← raise_if (negb (rv_ordering_version r =? 1) || (1 <? len (found : list (UUID * Call))))
        (denied_ "budget_transport_proof_quarantined");
  match (found : list (UUID * Call)) with
  | [] =>
    if bool_decide (rv_state r = reserved) && bool_decide (rv_phase r = not_claimed)
    then raise (denied_ "proven_unsent_requires_release") else quarantined
  | (call_id, call) :: _ =>
    _ ← raise_if (negb (cl_ordering_version call =? 1))
          (denied_ "budget_transport_proof_quarantined");
    if bool_decide (cl_outcome call = started) then
      _ ← raise_if (bool_decide (rv_state r = reserved) && bool_decide (rv_phase r = claim_begun) &&
                    bool_decide (cl_phase call = claim_begun) && negb (any_present (cl_receipt call)))
            (denied_ "proven_unsent_requires_release");
      _ ← raise_if (negb (bool_decide (rv_state r = sent)) ||
                    negb (bool_decide (cl_phase call = rv_phase r)) ||
                    negb (bool_decide (cl_phase call = marked_sent) ||
                          bool_decide (cl_phase call = network_invocation_starting)) ||
                    any_present (cl_receipt call))
            (denied_ "budget_transport_proof_quarantined");
      closed ← update_call call_id
        (λ c, bool_decide (cl_outcome c = started) && (cl_ordering_version c =? 1) &&
              bool_decide (cl_phase c = cl_phase call))
        (close_call ambiguous now);
      _ ← raise_if (negb (closed =? 1)) (denied_ "budget_transport_proof_quarantined");
      mret (None, true)
    else if negb (bool_decide (cl_phase call = finished)) ||
            bool_decide (cl_finished_at call = None) ||
            negb (bool_decide (rv_phase r = finished))
    then quarantined
    else
      _ ← raise_if (any_present (cl_receipt call) && negb (all_present (cl_receipt call)))
            (BudgetEvidenceQuarantined "provider_usage_partial_unknown_overage");
      if bool_decide (cl_outcome call = succeeded) then
        if all_present (cl_receipt call) then
          receipt ← lift (require_provider_usage_receipt call_id call reservation_id r now);
          mret (Some receipt, false)
        else raise (BudgetEvidenceQuarantined "provider_usage_missing_unknown_overage")
      else
        _ ← raise_if (any_present (cl_receipt call)) (denied_ "budget_transport_proof_quarantined");
        mret (None, true)
  end.

(** The amount the receipt shows, and what is charged for it. *)
Definition actual_amount (snapshot : PriceQuote) (r : Reservation)
    (receipt : option ProviderUsageReceipt) : result budget_exn (option Z) :=
  match receipt with
  | None => Ok None
  | Some receipt =>
    if bool_decide (ur_accounting_basis receipt = conservative_full_reservation)
    then Ok (Some (rv_reserved r))
    else match amount_from_snapshot snapshot (ur_billable_usage receipt) with
         | Ok v => Ok (Some v)
         | Raise e => Raise (Plain e)
         end
  end.

Definition is_full_reservation (receipt : option ProviderUsageReceipt) : bool :=
  match receipt with
  | Some receipt => bool_decide (ur_accounting_basis receipt = conservative_full_reservation)
  | None => false
  end.

Definition charge (conservative : bool) (reserved_ : Z) (actual : option Z) :
    result budget_exn Z :=
  charged ←
    (if conservative then Ok (Z.max reserved_ (default 0 actual))
     else match actual with
          | None => Raise (BudgetEvidenceQuarantined "provider_usage_missing_unknown_overage")
          | Some actual => Ok actual
          end);
  if between 0 charged MAX_CHARGE_MICROS_SGD then Ok charged
  else Raise (BudgetEvidenceQuarantined "provider_usage_out_of_range_unknown_overage").

Definition freeze_reason (hard_cap_exceeded estimate_overrun : bool) : option string :=
  if hard_cap_exceeded then Some "hard_cap_actual_exceeded"%string
  else if estimate_overrun then Some "estimate_overrun"%string else None.

(** The statements of [_settle_locked] once the charge is known. *)
Definition record_settlement (reservation_id : UUID) (r : Reservation)
    (receipt : option ProviderUsageReceipt) (conservative : bool) (charged monthly_after now : Z) :
    B BudgetSettlement :=
  let estimate_overrun := rv_reserved r <? charged in
  let hard_cap_exceeded := hard_limit <? monthly_after in
  let reason := freeze_reason hard_cap_exceeded estimate_overrun in
  changed ← update_reservation reservation_id (rv_attempt_id r) (λ r, is_open (rv_state r))
    (set_settled charged estimate_overrun now (Some now));
  _ ← raise_if (negb (changed =? 1)) ReservationNotSettleable;
  _ ← insert_ledger reservation_id
    (mkLedgerRow (rv_month_key r) (rv_reserved r) charged
       (match receipt with Some x => Some (canonical_receipt x) | None => None end)
       (match receipt with Some x => Some (ur_accounting_basis x) | None => None end)
       conservative estimate_overrun hard_cap_exceeded now);
  _ ← match reason with
      | Some reason =>
        _record_freeze (rv_month_key r) reason (Some monthly_after) reservation_id
      | None => mret tt
      end;
  mret (mkSettlement reservation_id charged conservative estimate_overrun
          (bool_decide (is_Some reason))).

Definition _settle_locked (reservation_id attempt_id : UUID) (now : Z) : B BudgetSettlement :=
  row ← gets (λ db, reservations db !! reservation_id);
  match (row : option Reservation) with
  | None => raise ReservationNotSettleable
  | Some r =>
    _ ← raise_if (negb (rv_attempt_id r =? attempt_id) || negb (settleable r))
          ReservationNotSettleable;
    snapshot ← lift (require_pricing_snapshot reservation_id r);
    evidence ← transport_evidence reservation_id r now;
    let '(receipt, force_conservative) := (evidence : option ProviderUsageReceipt * bool) in
    actual ← lift (actual_amount snapshot r receipt);
    let conservative :=
      force_conservative || bool_decide (actual = None) || is_full_reservation receipt in
    charged ← lift (charge conservative (rv_reserved r) actual);
    others ← gets (month_rows (rv_month_key r) (Some reservation_id));
    _ ← raise_if (MAX_AGGREGATE_MICROS_SGD <? charged) (Plain out_of_bounds);
    monthly_after ← lift (add_rows
      (BudgetEvidenceQuarantined "budget_total_missing_unknown_overage") others charged);
    record_settlement reservation_id r receipt conservative charged monthly_after now
  end.

(** The exceptions that freeze the month, with the reason recorded. *)
Definition quarantine_reason (e : budget_exn) : option string :=
  match e with
  | BudgetEvidenceQuarantined reason => Some reason
  | Plain (OverflowError _) => Some "budget_total_invalid_unknown_overage"%string
  | _ => None
  end.

Definition settle (reservation_id attempt_id : UUID) (now : Z) : B BudgetSettlement :=
  try_except (in_uow (_settle_locked reservation_id attempt_id now)) (λ e,
    match quarantine_reason e with
    | Some reason =>
      _ ← _freeze_evidence_quarantine reservation_id attempt_id reason;
      raise (denied_ reason)
    | None => raise e
    end).

(** ** Release *)

(** The test of [_release_unsent_locked] and of the reconciler. *)
Definition proven_unsent (r : Reservation) (found : list (UUID * Call)) : bool :=
  bool_decide (rv_state r = reserved) &&
  match rv_phase r, found with
  | not_claimed, [] => true
  | claim_begun, [(_, c)] =>
    (cl_ordering_version c =? 1) && bool_decide (cl_phase c = claim_begun) &&
    bool_decide (cl_outcome c = started) && negb (any_present (cl_receipt c))
  | _, _ => false
  end.

Definition _release_unsent_locked (reservation_id attempt_id : UUID) (now : Z) : B unit :=
  row ← gets (λ db, reservations db !! reservation_id);
  found ← gets (calls_of reservation_id attempt_id);
  match (row : option Reservation) with
  | None => raise SentReservationRequiresSettlement
  | Some r =>
    _ ← raise_if (negb ((rv_attempt_id r =? attempt_id) && (rv_ordering_version r =? 1) &&
                        allowed (rv_outcome r) && proven_unsent r found))
          SentReservationRequiresSettlement;
    _ ← match (found : list (UUID * Call)) with
        | [] => mret tt
        | (call_id, _) :: _ =>
          closed ← update_call call_id
            (λ c, bool_decide (cl_outcome c = started) && (cl_ordering_version c =? 1) &&
                  bool_decide (cl_phase c = claim_begun))
            (close_call cancelled now);
          raise_if (negb (closed =? 1)) SentReservationRequiresSettlement
        end;
    changed ← update_reservation reservation_id attempt_id
      (λ x, bool_decide (rv_state x = reserved) && (rv_ordering_version x =? 1) &&
            bool_decide (rv_phase x = rv_phase r)) (set_released now);
    raise_if (negb (changed =? 1)) SentReservationRequiresSettlement
  end.

Definition _release_proven_unsent (reservation_id attempt_id : UUID) (now : Z) : B unit :=
  in_uow (_release_unsent_locked reservation_id attempt_id now).

Definition terminal (s : ReservationState) : bool :=
  match s with settled | released | denied => true | _ => false end.

Definition _reservation_is_terminal (reservation_id attempt_id : UUID) (db : BudgetDB) : bool :=
  match reservations db !! reservation_id with
  | Some r => (rv_attempt_id r =? attempt_id) && terminal (rv_state r)
  | None => false
  end.

Definition release_unsent (reservation_id attempt_id : UUID) (proof : TransportProof) (now : Z) :
    B unit :=
  _ ← raise_if (negb (tp_reservation_id proof =? reservation_id) ||
                negb (tp_attempt_id proof =? attempt_id) ||
                negb (bool_decide (tp_disposition proof = never_sent)))
        (denied_ "proof_does_not_establish_unsent");
  _release_proven_unsent reservation_id attempt_id now.

(** ** Closing a turn *)

(** [load_bound]: the reservations bound to the turn, each binding checked. *)
Definition bound_row (turn_id : UUID) (db : BudgetDB) (p : SettingKey * SettingValue) :
    option (result budget_exn (UUID * UUID * ReservationState)) :=
  let corrupt := Raise (denied_ "reservation_turn_binding_corrupt") in
  match p with
  | (TurnKey reservation_id, BindingValue b) =>
    if bd_turn_id b =? turn_id then
      Some (match reservations db !! reservation_id with
            | Some r =>
              if (rv_request_id r =? bd_request_id b) && (rv_attempt_id r =? bd_attempt_id b)
              then Ok (reservation_id, rv_attempt_id r, rv_state r) else corrupt
            | None => corrupt
            end)
    else None
  | (TurnKey _, OtherValue json) =>
    if bool_decide (json_turn_id json = Some turn_id) then Some corrupt else None
  | _ => None
  end.

Fixpoint sequence {A} (l : list (result budget_exn A)) : result budget_exn (list A) :=
  match l with
  | [] => Ok []
  | r :: rest => x ← r; xs ← sequence rest; Ok (x :: xs)
  end.

Definition load_bound (turn_id : UUID) (db : BudgetDB) :
    result budget_exn (list (UUID * UUID * ReservationState)) :=
  sequence (omap (bound_row turn_id db) (map_to_list (settings db))).

(** [release_now] and [settle_now] are the clock readings of the two operations. *)
Definition close_reservation (reservation_id attempt_id : UUID) (release_now settle_now : Z) :
    B (option BudgetSettlement) :=
  try_except (_ ← _release_proven_unsent reservation_id attempt_id release_now; mret None) (λ e,
    match e with
    | SentReservationRequiresSettlement =>
      is_terminal ← gets (_reservation_is_terminal reservation_id attempt_id);
      if (is_terminal : bool) then mret None
      else
        try_except (s ← settle reservation_id attempt_id settle_now; mret (Some s)) (λ e,
          match e with
          | ReservationNotSettleable =>
            is_terminal ← gets (_reservation_is_terminal reservation_id attempt_id);
            if (is_terminal : bool) then mret None else raise e
          | _ => raise e
          end)
    | _ => raise e
    end).

(** [clock] gives the readings of the run, two per reservation. *)
Fixpoint close_bound (bound : list (UUID * UUID * ReservationState)) (clock : nat → Z) :
    B (list BudgetSettlement) :=
  match bound with
  | [] => mret []
  | (reservation_id, attempt_id, state) :: rest =>
    let later := λ n, clock (S (S n)) in
    if terminal state then close_bound rest later
    else
      s ← close_reservation reservation_id attempt_id (clock 0%nat) (clock 1%nat);
      settlements ← close_bound rest later;
      mret (match s with Some s => s :: settlements | None => settlements end)
  end.

Definition reconcile_turn (turn_id : UUID) (proofs : list TransportProof) (clock : nat → Z) :
    B (list BudgetSettlement) :=
  let supplied := (λ p, (tp_reservation_id p, tp_attempt_id p)) <$> proofs in
  _ ← raise_if (negb (bool_decide (NoDup supplied)))
        (denied_ "duplicate_turn_reconciliation_proof");
  db ← gets id;
  bound ← lift (load_bound turn_id db);
  let bound_pairs := (λ p : UUID * UUID * ReservationState, p.1) <$> bound in
  _ ← raise_if (negb (forallb (λ p, bool_decide (p ∈ bound_pairs)) supplied))
        (denied_ "reservation_turn_mismatch");
  close_bound bound clock.

End Guard.
