(* ===== verification/ProviderCalls.v ===== *)
(** * Provider calls and their revocation

    [services/providers/call_repository.py] (claim a reservation, start the
    network invocation, finish), [services/providers/response_receipts.py] (bind a
    response to a finished call), [services/providers/route_verifier.py], and the
    part of [adapters/sqlcipher/identity_repositories.py] that closes the calls of
    a revoked subject and settles their reservations.  Redaction receipts, the
    attestation of usage receipts and the persisted route envelopes are the
    interface [CallServices]. *)

From S2P Require Import Prelude PttFraming BudgetPricing BudgetLedger BudgetGuard.

(** [verify_route_consumption]. *)
Definition verify_route_consumption (route : RouteAuthorization) (supplied : RouteConsumption)
    (now : Z) : result budget_exn unit :=
  _ ← reject_if (ra_expires_at route <=? now) (denied_ "route_authorization_expired");
  _ ← reject_if (now <? rc_consumed_at supplied) (denied_ "route_consumption_from_future");
  reject_if (negb (bool_decide (ra_binding route = rc_binding supplied)) ||
             negb (bool_decide (ra_request_commitment route = rc_request_commitment supplied)) ||
             (ra_max_input_bytes route <? rc_input_bytes supplied) ||
             (ra_max_input_units route <? rc_input_units supplied))
    (denied_ "route_consumption_mismatch").

(** A persisted route envelope: its authorization and subject. *)
Class CallServices := {
  require_bound_receipt : UUID → Purpose → Commitment → string → result budget_exn unit;
  require_attested_receipt : ProviderUsageReceipt → result budget_exn string;
  parse_route_envelope : string → option (UUID * option UUID);
}.

Section Calls.
Context `{Services : CallServices}.

(** [INSERT INTO provider_calls]: primary key and the three unique columns. *)
Definition insert_call (id : UUID) (c : Call) : B unit :=
  rows ← gets calls;
  _ ← raise_if (bool_decide (is_Some ((rows : gmap UUID Call) !! id)) ||
                negb (bool_decide (map_Forall (λ _ x,
                  cl_attempt_id x ≠ cl_attempt_id c ∧
                  cl_authorization_id x ≠ cl_authorization_id c ∧
                  cl_reservation_id x ≠ cl_reservation_id c) (rows : gmap UUID Call)))) integrity;
  modify (put_call id c).

Definition claim (route : RouteAuthorization) (consumption : RouteConsumption)
    (redaction_receipt_id : option UUID) (call_id : UUID) (now : Z) : B unit :=
  let b := ra_binding route in
  _ ← match bn_purpose b, redaction_receipt_id with
      | cloud_stt, Some _ => raise (denied_ "redaction_receipt_forbidden")
      | cloud_stt, None => mret tt
      | _, None => raise (denied_ "redaction_receipt_binding_mismatch")
      | purpose, Some receipt_id =>
        lift (require_bound_receipt receipt_id purpose (rc_request_commitment consumption)
                (ra_maximum_sensitivity route))
      end;
  changed ← update_reservation (ra_budget_reservation_id route) (bn_attempt_id b)
    (λ r, (rv_request_id r =? bn_request_id b) && bool_decide (rv_provider r = bn_provider b) &&
          bool_decide (rv_model r = bn_model b) &&
          bool_decide (rv_category r = category_of (bn_purpose b)) &&
          bool_decide (rv_state r = reserved) && (rv_ordering_version r =? 1) &&
          bool_decide (rv_phase r = not_claimed) && (now <? rv_expires_at r))
    (set_phase claim_begun);
  _ ← raise_if (negb (changed =? 1)) (denied_ "reservation_not_claimable");
  insert_call call_id
    (mkCall (bn_request_id b) (bn_attempt_id b) (ra_authorization_id route)
       (ra_budget_reservation_id route) (purpose_text (bn_purpose b)) (bn_provider b)
       (bn_model b) (category_of (bn_purpose b)) started 1 claim_begun no_receipt now None None).

Definition begin (route : RouteAuthorization) (consumption : RouteConsumption)
    (redaction_receipt_id : option UUID) (call_id : UUID) (now : Z) : B UUID :=
  _ ← lift (verify_route_consumption route consumption now);
  _ ← try_except (in_uow (claim route consumption redaction_receipt_id call_id now)) (λ e,
        match e with
        | Plain IntegrityError => raise (denied_ "provider_call_claim_conflict")
        | _ => raise e
        end);
  mret call_id.

Definition mark_network_invocation_starting (call_id : UUID) : B unit :=
  in_uow (
    row ← gets (λ db, calls db !! call_id);
    match (row : option Call) with
    | None => raise (denied_ "provider_call_not_markable_network")
    | Some c =>
      _ ← raise_if (negb (bool_decide (cl_outcome c = started) && (cl_ordering_version c =? 1) &&
                          bool_decide (cl_phase c = marked_sent)) || any_present (cl_receipt c))
            (denied_ "provider_call_not_markable_network");
      changed ← update_reservation (cl_reservation_id c) (cl_attempt_id c)
        (λ r, bool_decide (rv_state r = sent) && (rv_ordering_version r =? 1) &&
              bool_decide (rv_phase r = marked_sent)) (set_phase network_invocation_starting);
      _ ← raise_if (negb (changed =? 1)) (denied_ "budget_proof_pair_mismatch");
      advanced ← update_call call_id
        (λ c, bool_decide (cl_outcome c = started) && (cl_ordering_version c =? 1) &&
              bool_decide (cl_phase c = marked_sent)) (set_call_phase network_invocation_starting);
      raise_if (negb (advanced =? 1)) (denied_ "provider_call_phase_race")
    end).

Definition route_bound (route : RouteAuthorization) (c : Call) : bool :=
  let b := ra_binding route in
  (ra_budget_reservation_id route =? cl_reservation_id c) &&
  (bn_request_id b =? cl_request_id c) && (bn_attempt_id b =? cl_attempt_id c) &&
  (ra_authorization_id route =? cl_authorization_id c) &&
  bool_decide (bn_provider b = cl_provider c) && bool_decide (bn_model b = cl_model c) &&
  bool_decide (category_of (bn_purpose b) = cl_category c).

Definition receipt_bound (receipt : ProviderUsageReceipt) (call_id : UUID) (c : Call) : bool :=
  (ur_provider_call_id receipt =? call_id) && (ur_reservation_id receipt =? cl_reservation_id c) &&
  (ur_request_id receipt =? cl_request_id c) && (ur_attempt_id receipt =? cl_attempt_id c) &&
  (ur_authorization_id receipt =? cl_authorization_id c) &&
  bool_decide (ur_provider receipt = cl_provider c) &&
  bool_decide (ur_model receipt = cl_model c) && bool_decide (ur_category receipt = cl_category c).

Definition receipt_values (receipt : option ProviderUsageReceipt) (canonical : string) :
    ReceiptColumns :=
  match receipt with
  | None => no_receipt
  | Some r => (Some canonical, Some (cm_key_id (ur_receipt_commitment r)),
               Some (cm_value_b64 (ur_receipt_commitment r)))
  end.

Definition finish_pair (call_id : UUID) (outcome : CallOutcome) (route : RouteAuthorization)
    (receipt : option ProviderUsageReceipt) (canonical : string) (now : Z) : B unit :=
  row ← gets (λ db, calls db !! call_id);
  match (row : option Call) with
  | None => raise (denied_ "provider_call_not_finishable")
  | Some c =>
    _ ← raise_if (negb (cl_ordering_version c =? 1)) (denied_ "provider_call_not_finishable");
    _ ← raise_if (negb (route_bound route c)) (denied_ "provider_finish_route_binding_mismatch");
    _ ← raise_if (match receipt with Some r => negb (receipt_bound r call_id c) | None => false end)
          (denied_ "provider_usage_receipt_binding_mismatch");
    let values := receipt_values receipt canonical in
    reservation ← gets (λ db, reservations db !! cl_reservation_id c);
    if negb (bool_decide (cl_outcome c = started)) then
      raise_if (negb (
        bool_decide (cl_outcome c = outcome) && bool_decide (cl_phase c = finished) &&
        bool_decide (is_Some (cl_finished_at c)) && bool_decide (cl_receipt c = values) &&
        match (reservation : option Reservation) with
        | Some r => (rv_attempt_id r =? cl_attempt_id c) &&
                    (bool_decide (rv_state r = sent) || bool_decide (rv_state r = settled)) &&
                    bool_decide (rv_phase r = finished)
        | None => false end)) (denied_ "provider_call_finish_conflict")
    else
      let phase := cl_phase c in
      _ ← raise_if (bool_decide (phase = claim_begun))
            (denied_ "provider_call_unsent_requires_release");
      _ ← raise_if (negb (bool_decide (phase = marked_sent) ||
                          bool_decide (phase = network_invocation_starting)))
            (denied_ "provider_call_not_finishable");
      _ ← raise_if (any_present (cl_receipt c)) (denied_ "provider_usage_receipt_preexisting");
      changed ← update_call call_id
        (λ c, bool_decide (cl_outcome c = started) && (cl_ordering_version c =? 1) &&
              bool_decide (cl_phase c = phase)) (set_call_finished outcome now values);
      _ ← raise_if (negb (changed =? 1)) (denied_ "provider_call_finish_race");
      closed ← update_reservation (cl_reservation_id c) (cl_attempt_id c)
        (λ r, bool_decide (rv_state r = sent) && (rv_ordering_version r =? 1) &&
              bool_decide (rv_phase r = phase)) (set_phase finished);
      raise_if (negb (closed =? 1)) (denied_ "provider_reservation_finish_race")
  end.

Definition finish (call_id : UUID) (outcome : CallOutcome) (route : RouteAuthorization)
    (receipt : option ProviderUsageReceipt) (now : Z) : B unit :=
  _ ← raise_if (bool_decide (outcome = started))
        (Plain (ValueError "invalid provider call outcome"));
  _ ← raise_if (bool_decide (is_Some receipt) && negb (bool_decide (outcome = succeeded)))
        (denied_ "provider_usage_receipt_outcome_mismatch");
  canonical ← match receipt with
              | None => mret EmptyString
              | Some receipt => lift (require_attested_receipt receipt)
              end;
  in_uow (finish_pair call_id outcome route receipt canonical now).

(** ** Receipts of responses: [services/providers/response_receipts.py] *)

Section Responses.
Context `{Budget : BudgetServices}.

Definition usage_unverified : budget_exn := denied_ "provider_response_usage_unverified".

(** The columns both statements compare. *)
Definition reasoned (route : RouteAuthorization) (c : Call) : bool :=
  let b := ra_binding route in
  (cl_request_id c =? bn_request_id b) && (cl_attempt_id c =? bn_attempt_id b) &&
  (cl_authorization_id c =? ra_authorization_id route) &&
  (cl_reservation_id c =? ra_budget_reservation_id route) &&
  bool_decide (cl_provider c = bn_provider b) && bool_decide (cl_model c = bn_model b) &&
  bool_decide (cl_purpose c = "cloud_reasoning"%string) && bool_decide (cl_outcome c = succeeded) &&
  bool_decide (cl_phase c = finished).

Definition _require_exact_succeeded_usage (route : RouteAuthorization)
    (provider_usage_receipt_id : UUID) (now : Z) : B unit :=
  let b := ra_binding route in
  rows ← gets (λ db, filter (λ p : UUID * Call, reasoned route p.2 = true ∧
            is_Some (cl_finished_at p.2) ∧ all_present (cl_receipt p.2) = true) (map_to_list (calls db)));
  reservation ← gets (λ db, reservations db !! ra_budget_reservation_id route);
  match (rows : list (UUID * Call)), (reservation : option Reservation) with
  | [(call_id, c)], Some r =>
    _ ← raise_if (negb ((rv_request_id r =? bn_request_id b) && (rv_attempt_id r =? bn_attempt_id b) &&
                        bool_decide (rv_provider r = bn_provider b) &&
                        bool_decide (rv_model r = bn_model b) && bool_decide (rv_category r = llm)))
          usage_unverified;
    match require_provider_usage_receipt call_id c (ra_budget_reservation_id route) r now with
    | Raise (BudgetEvidenceQuarantined _) => raise usage_unverified
    | Raise e => raise e
    | Ok usage => raise_if (negb (ur_receipt_id usage =? provider_usage_receipt_id))
                    (denied_ "provider_response_usage_receipt_mismatch")
    end
  | _, _ => raise usage_unverified
  end.

(** [UPDATE provider_calls SET response_hmac_key_id=?,response_hmac_b64=?]; [existing]: the
    commitment of the receipt stored for this authorization. *)
Definition bind_succeeded_call_in_transaction (route : RouteAuthorization) (response : string * string)
    (existing : option (string * string)) : B unit :=
  let matches c := reasoned route c && bool_decide (cl_response c = None) in
  changed ← gets (λ db, len (filter (λ p : UUID * Call, matches p.2 = true) (map_to_list (calls db))));
  _ ← modify (λ db, mkBudgetDB (reservations db)
        ((λ c, if matches c then set_call_response response c else c) <$> calls db)
        (ledger db) (settings db));
  raise_if (negb ((changed : Z) =? 1) && negb (bool_decide (existing = Some response)))
    (denied_ "provider_response_receipt_commitment").

(** What [record] finds in the table of response receipts, which only it writes: a receipt for
    the authorization with the outcome of comparing it, or none, and then whether the INSERT OR
    IGNORE inserts; and what the audit ledger answers. *)
Inductive ReceiptTable :=
| Existing (exact : result budget_exn unit)
| Absent (inserted : bool) (conflicting : result budget_exn unit) (audit : result budget_exn unit).

(** The unit of work of [ProviderResponseReceiptService.record]: it commits when the answer is
    [true] and rolls back otherwise. *)
Definition record_in_uow (route : RouteAuthorization) (response : string * string)
    (provider_usage_receipt_id : UUID) (table : ReceiptTable) (now : Z) : B bool :=
  match table with
  | Existing exact =>
    _ ← lift exact;
    _ ← _require_exact_succeeded_usage route provider_usage_receipt_id now;
    mret false
  | Absent inserted conflicting audit =>
    _ ← _require_exact_succeeded_usage route provider_usage_receipt_id now;
    _ ← bind_succeeded_call_in_transaction route response None;
    if (inserted : bool) then _ ← lift audit; mret true else _ ← lift conflicting; mret false
  end.

Definition receipt_uow (m : B bool) : B unit := λ db,
  match m db with
  | (Ok committed, db') => (Ok tt, if committed : bool then db' else db)
  | (Raise e, _) =>
    (Raise (if bool_decide (raised e = IntegrityError)
            then denied_ "provider_response_receipt_insert_conflict" else e), db)
  end.

Definition record (route : RouteAuthorization) (response : string * string)
    (provider_usage_receipt_id : option UUID) (table : ReceiptTable) (now : Z) : B unit :=
  _ ← raise_if (negb (bool_decide (bn_purpose (ra_binding route) = cloud_reasoning)))
        (denied_ "provider_response_receipt_binding");
  match provider_usage_receipt_id with
  | None => raise usage_unverified
  | Some usage_id => receipt_uow (record_in_uow route response usage_id table now)
  end.
End Responses.

(** ** Revocation of a subject *)

Definition corrupt_metadata : budget_exn :=
  Plain (RuntimeError "provider_route_authority_metadata_corrupt").

(** [_settle_budget_reservation]: [charged = reserved], whatever the transport phase. *)
Definition _settle_budget_reservation (reservation_id : UUID) (settled_at : Z) : B Z :=
  row ← gets (λ db, reservations db !! reservation_id);
  match (row : option Reservation) with
  | None => mret 0
  | Some r =>
    update_reservation reservation_id (rv_attempt_id r) (λ x, is_open (rv_state x))
      (λ x, set_settled (rv_reserved x) (rv_estimate_overrun x) settled_at (rv_reconciled_at x) x)
  end.

Definition _require_conservative_reservation_settlement (reservation_id : UUID) (settled_at : Z) :
    B unit :=
  let unproven := Plain (RuntimeError "provider_budget_reservation_settlement_unproven") in
  changed ← _settle_budget_reservation reservation_id settled_at;
  if (changed : Z) =? 1 then mret tt
  else
    row ← gets (λ db, reservations db !! reservation_id);
    match (row : option Reservation) with
    | None => raise unproven
    | Some r =>
      raise_if (negb (bool_decide (rv_state r = settled) && bool_decide (rv_phase r = finished) &&
                      bool_decide (is_Some (rv_settled_at r)) &&
                      bool_decide (rv_charged r = Some (rv_reserved r)))) unproven
    end.

(** The body of the loop of [_close_revoked_subject_provider_calls]: the reservation
    to settle, if the call had reached the network. *)
Definition close_revoked_call (subject_id : UUID) (now : Z) (p : UUID * Call) : B (option UUID) :=
  let '(call_id, c) := p in
  setting ← gets (λ db, settings db !! RouteKey (cl_authorization_id c));
  match (setting : option SettingValue) with
  | Some (OtherValue raw) =>
    match parse_route_envelope raw with
    | None => raise corrupt_metadata
    | Some (authorization_id, subject) =>
      _ ← raise_if (negb (authorization_id =? cl_authorization_id c)) corrupt_metadata;
      if negb (bool_decide (subject = Some subject_id)) then mret None
      else
        match cl_phase c with
        | claim_begun =>
          _ ← update_call call_id (λ x, bool_decide (cl_outcome x = started) &&
                bool_decide (cl_phase x = cl_phase c)) (close_call cancelled now);
          mret None
        | marked_sent | network_invocation_starting =>
          _ ← update_call call_id (λ x, bool_decide (cl_outcome x = started) &&
                bool_decide (cl_phase x = cl_phase c)) (close_call ambiguous now);
          mret (Some (cl_reservation_id c))
        | _ => raise (Plain (RuntimeError "provider_call_transport_phase_unknown"))
        end
    end
  | _ => raise corrupt_metadata
  end.

Fixpoint close_revoked_calls (subject_id : UUID) (now : Z) (rows : list (UUID * Call)) :
    B (list UUID) :=
  match rows with
  | [] => mret []
  | p :: rest =>
    first ← close_revoked_call subject_id now p;
    others ← close_revoked_calls subject_id now rest;
    mret (match first with Some id => id :: others | None => others end)
  end.

Definition _close_revoked_subject_provider_calls (subject_id : UUID) (now : Z) : B (list UUID) :=
  rows ← gets (λ db, filter (λ p : UUID * Call, cl_outcome p.2 = started) (map_to_list (calls db)));
  close_revoked_calls subject_id now rows.

Fixpoint settle_each (ids : list UUID) (settled_at : Z) : B unit :=
  match ids with
  | [] => mret tt
  | id :: rest =>
    _ ← _require_conservative_reservation_settlement id settled_at;
    settle_each rest settled_at
  end.

Definition _close_and_settle_revoked_subject_provider_calls (subject_id : UUID) (now : Z) :
    B (list UUID) :=
  ids ← _close_revoked_subject_provider_calls subject_id now;
  _ ← settle_each ids now;
  mret ids.

(** [SqlProviderCallsRevocationPort.reconcile_revoked_subject_once]. *)
Definition reconcile_revoked_subject_once (subject_id : UUID) (now : Z) : B (list UUID) :=
  in_uow (_close_and_settle_revoked_subject_provider_calls subject_id now).

(** [SqlBudgetReservationsRevocationPort.settle_conservative_once]. *)
Fixpoint settle_each_quietly (ids : list UUID) (settled_at : Z) : B unit :=
  match ids with
  | [] => mret tt
  | id :: rest => _ ← _settle_budget_reservation id settled_at; settle_each_quietly rest settled_at
  end.
Definition settle_conservative_once (ids : list UUID) (now : Z) : B unit :=
  in_uow (settle_each_quietly ids now).

End Calls.
