(* ===== verification/BudgetReconciler.v ===== *)
(** * The reconciler of open reservations: [services/budget/reconciler.py]

    Batches of open reservations past their boundary (expiry, or the restart
    cutoff) are closed in one unit of work, released when the call provably was
    never sent and settled otherwise; the drain repeats full batches. *)

From stdpp Require Import sorting.
From S2P Require Import Prelude PttFraming BudgetPricing BudgetLedger BudgetGuard.

Inductive reconcile_exn :=
| Through (e : budget_exn)
| ReconciliationEvidenceQuarantined (reservation_id attempt_id : UUID) (reason_code : string).

Definition through {A} (m : B A) : M BudgetDB reconcile_exn A :=
  try_except m (λ e, raise (Through e)).

(** The order of [ORDER BY boundary, id]. *)
Definition row_le (boundary_of : Reservation → Z) (p q : UUID * Reservation) : Prop :=
  boundary_of p.2 < boundary_of q.2 ∨ (boundary_of p.2 = boundary_of q.2 ∧ p.1 ≤ q.1).
#[export] Instance row_le_dec boundary_of p q : Decision (row_le boundary_of p q).
Proof. unfold row_le. apply _. Defined.

Section Reconciler.
Context `{Services : BudgetServices} (hard_limit : Z) (batch_size : nat).

(** [expires_at <= now], or [created_at <= cutoff] after a restart. *)
Definition boundary_of (restart_cutoff : option Z) (r : Reservation) : Z :=
  match restart_cutoff with None => rv_expires_at r | Some _ => rv_created_at r end.

Definition due (restart_cutoff : option Z) (now : Z) (r : Reservation) : bool :=
  is_open (rv_state r) && (boundary_of restart_cutoff r <=? default now restart_cutoff).

Definition due_rows (restart_cutoff : option Z) (now : Z) (db : BudgetDB) :
    list (UUID * Reservation) :=
  take batch_size (merge_sort (row_le (boundary_of restart_cutoff))
    (filter (λ p : UUID * Reservation, due restart_cutoff now p.2 = true)
       (map_to_list (reservations db)))).

Definition reconcile_row (now : Z) (p : UUID * Reservation) : M BudgetDB reconcile_exn unit :=
  let '(reservation_id, r) := p in
  let attempt_id := rv_attempt_id r in
  found ← gets (calls_of reservation_id attempt_id);
  _ ← raise_if (negb (allowed (rv_outcome r)) || negb (rv_ordering_version r =? 1) ||
                (1 <? len (found : list (UUID * Call))))
        (Through (denied_ "budget_transport_proof_quarantined"));
  if proven_unsent r found
  then through (_release_unsent_locked reservation_id attempt_id now)
  else
    try_except (_ ← _settle_locked hard_limit reservation_id attempt_id now; mret tt) (λ e,
      match quarantine_reason e with
      | Some reason => raise (ReconciliationEvidenceQuarantined reservation_id attempt_id reason)
      | None => raise (Through e)
      end).

Fixpoint reconcile_rows (now : Z) (rows : list (UUID * Reservation)) :
    M BudgetDB reconcile_exn Z :=
  match rows with
  | [] => mret 0
  | p :: rest =>
    _ ← reconcile_row now p;
    changed ← reconcile_rows now rest;
    mret (changed + 1)
  end.

Definition reconcile_locked (restart_cutoff : option Z) (now : Z) : M BudgetDB reconcile_exn Z :=
  rows ← gets (due_rows restart_cutoff now);
  reconcile_rows now rows.

Definition _reconcile_batch (restart_cutoff : option Z) (now : Z) : B Z :=
  try_except (in_uow (reconcile_locked restart_cutoff now)) (λ e,
    match e with
    | ReconciliationEvidenceQuarantined reservation_id attempt_id reason =>
      _ ← _freeze_evidence_quarantine hard_limit reservation_id attempt_id reason;
      raise (Plain (RuntimeError reason))
    | Through e => raise e
    end).

(** [while await self.reconcile_batch() == self._batch_size: pass]; [None] when
    [fuel] rounds were not enough, [clock] the reading of each round. *)
Fixpoint drain (fuel : nat) (restart_cutoff : option Z) (clock : nat → Z) : B (option unit) :=
  match fuel with
  | O => mret None
  | S fuel =>
    changed ← _reconcile_batch restart_cutoff (clock O);
    if (changed : Z) =? Z.of_nat batch_size
    then drain fuel restart_cutoff (λ n, clock (S n)) else mret (Some tt)
  end.

End Reconciler.
