(* ===== verification/BudgetSafety.v ===== *)
(** * The budget as a system

    The unit of work each service runs is a step on the shared rows.  The
    invariant [budget_ok] (row constraints, the hard cap, the ledger, the soft
    warning) and the relation [evolves] (what a step may never undo) are kept by
    every step; the claims about a run follow by induction on it. *)

From S2P Require Import Prelude PttFraming BudgetPricing BudgetLedger BudgetGuard ProviderCalls BudgetReconciler.

(** ** Sums over rows *)

Fixpoint sum_with {A} (f : A → Z) (l : list A) : Z :=
  match l with [] => 0 | x :: l => f x + sum_with f l end.

#[export] Instance sum_with_proper {A} (f : A → Z) : Proper ((≡ₚ) ==> eq) (sum_with f).
Proof. induction 1; simpl; lia. Qed.

(** What a reservation counts for in a month. *)
Definition weight (month : string) (r : Reservation) : Z :=
  if bool_decide (rv_month_key r = month) && counts (rv_state r)
  then default 0 (effective_amount r) else 0.

Definition month_total (month : string) (db : BudgetDB) : Z :=
  sum_with (λ p : UUID * Reservation, weight month p.2) (map_to_list (reservations db)).

Lemma add_rows_total e rows start total :
  add_rows e rows start = Ok total →
  total = start + sum_with (λ r, default 0 (effective_amount r)) rows ∧ total ≤ Z.max start MAX_AGGREGATE_MICROS_SGD.
Proof.
  revert start. induction rows as [|r rows IH]; intros start; simpl.
  - intros [= <-]. lia.
  - destruct (effective_amount r) as [a|]; [|done].
    destruct (checked_add _ _ _) as [t|] eqn:Ht; [|done].
    apply checked_add_Ok in Ht. intros H%IH. simpl. lia.
Qed.

Lemma sum_filter_weight month (P : UUID * Reservation → Prop) `{∀ x, Decision (P x)} l :
  sum_with (λ r, default 0 (effective_amount r))
    (filter (λ p : UUID * Reservation, rv_month_key p.2 = month ∧ counts (rv_state p.2) = true ∧ P p) l).*2
  = sum_with (λ p, if decide (P p) then weight month p.2 else 0) l.
Proof.
  induction l as [|[id r] l IH]; [done|]. rewrite filter_cons. cbn [sum_with].
  rewrite <- IH. unfold weight. cbn [snd].
  destruct (decide (P (id, r))), (decide (rv_month_key r = month)) as [Hm|Hm],
    (counts (rv_state r)) eqn:Hc; case_decide;
    try rewrite (bool_decide_eq_true_2 _ Hm); try rewrite (bool_decide_eq_false_2 _ Hm);
    simpl in *; try lia; naive_solver.
Qed.

Lemma sum_with_ext {A} (f g : A → Z) l : (∀ x, x ∈ l → f x = g x) → sum_with f l = sum_with g l.
Proof.
  induction l as [|x l IH]; intros H; [done|]. simpl.
  rewrite (H x), IH; [done| |by left]. intros y Hy. apply H. by right.
Qed.

Lemma month_rows_total month db :
  sum_with (λ r, default 0 (effective_amount r)) (month_rows month None db) = month_total month db.
Proof.
  unfold month_rows, month_total. rewrite sum_filter_weight. apply sum_with_ext.
  intros [id r] _. by rewrite decide_True.
Qed.

(** The month without one row. *)
Definition total_without (month : string) (id : UUID) (db : BudgetDB) : Z :=
  sum_with (λ p : UUID * Reservation, weight month p.2)
    (map_to_list (delete id (reservations db))).

Lemma month_rows_total_skip month id db :
  sum_with (λ r, default 0 (effective_amount r)) (month_rows month (Some id) db)
  = total_without month id db.
Proof.
  unfold month_rows, total_without. rewrite sum_filter_weight.
  destruct (reservations db !! id) as [r|] eqn:Hr.
  - rewrite <- (insert_delete_id _ _ _ Hr) at 1.
    rewrite map_to_list_insert by apply lookup_delete_eq. cbn [sum_with].
    rewrite decide_False by naive_solver. rewrite Z.add_0_l.
    apply sum_with_ext. intros [i x] Hx. apply elem_of_map_to_list in Hx.
    apply lookup_delete_Some in Hx as [??]. rewrite decide_True; [done|]. simpl. congruence.
  - rewrite (delete_id (M:=gmap UUID) _ _ Hr). apply sum_with_ext. intros [i x] Hx.
    apply elem_of_map_to_list in Hx. rewrite decide_True; [done|]. simpl. congruence.
Qed.

Lemma total_split month id r db :
  reservations db !! id = Some r →
  month_total month db = weight month r + total_without month id db.
Proof.
  intros Hr. unfold month_total, total_without.
  rewrite <- (insert_delete_id _ _ _ Hr) at 1.
  by rewrite map_to_list_insert by apply lookup_delete_eq.
Qed.

Lemma total_put month id r db :
  month_total month (put_reservation id r db) = weight month r + total_without month id db.
Proof.
  rewrite (total_split month id r) by apply lookup_insert_eq.
  unfold total_without. simpl. by rewrite delete_insert_eq.
Qed.

Lemma total_fresh month id db :
  reservations db !! id = None → total_without month id db = month_total month db.
Proof. intros Hr. unfold total_without, month_total. by rewrite (delete_id (M:=gmap UUID) _ _ Hr). Qed.

(** ** What a step may never undo *)

(** The settings of the budget; [RouteKey] and [OtherKey] belong to other services, which
    write and delete them. *)
Definition budget_key (k : SettingKey) : bool :=
  match k with FreezeKey _ | WarningKey _ | TurnKey _ | AlertKey _ _ => true | _ => false end.

Definition settings_grow (S S' : gmap SettingKey SettingValue) : Prop :=
  ∀ k v, budget_key k = true → S !! k = Some v → S' !! k = Some v.

#[export] Instance settings_grow_preorder : PreOrder settings_grow.
Proof. split; [by intros S k v|]. intros S1 S2 S3 H1 H2 k v Hk Hv. by apply H2, H1. Qed.

Lemma settings_grow_insert S k v : S !! k = None → settings_grow S (<[k := v]> S).
Proof. intros Hk k' v' _ Hv'. rewrite lookup_insert_ne; [done|congruence]. Qed.

(** A reservation keeps its identity, and its whole row once it is terminal. *)
Record row_evolves (r r' : Reservation) : Prop := {
  re_attempt : rv_attempt_id r' = rv_attempt_id r;
  re_month : rv_month_key r' = rv_month_key r;
  re_outcome : rv_outcome r' = rv_outcome r;
  re_reserved : rv_reserved r' = rv_reserved r;
  re_created : rv_created_at r' = rv_created_at r;
  re_expires : rv_expires_at r' = rv_expires_at r;
  re_terminal : terminal (rv_state r) = true → r' = r;
  re_sent : rv_state r = sent → rv_state r' = sent ∨ rv_state r' = settled;
}.

(** The request may have left: the invocation was announced, or the call is over. *)
Definition on_wire (p : TransportPhase) : bool :=
  match p with network_invocation_starting | finished => true | _ => false end.

(** Of a call with an outcome only the commitment to its response is still written, once, when
    it succeeded. *)
Definition call_final (c c' : Call) : Prop :=
  c' = c ∨ cl_outcome c = succeeded ∧ cl_response c = None ∧ ∃ response, c' = set_call_response response c.

Definition call_evolves (c c' : Call) : Prop :=
  cl_reservation_id c' = cl_reservation_id c ∧ cl_attempt_id c' = cl_attempt_id c ∧
  (cl_outcome c ≠ started → call_final c c') ∧ (on_wire (cl_phase c) = true → on_wire (cl_phase c') = true).

Record evolves (db db' : BudgetDB) : Prop := {
  ev_rows : ∀ id r, reservations db !! id = Some r →
    ∃ r', reservations db' !! id = Some r' ∧ row_evolves r r';
  ev_calls : ∀ id c, calls db !! id = Some c → ∃ c', calls db' !! id = Some c' ∧ call_evolves c c';
  ev_ledger : ledger db ⊆ ledger db';
  ev_settings : settings_grow (settings db) (settings db');
  ev_frozen : ∀ id r', reservations db' !! id = Some r' →
    frozen (rv_month_key r') db = true → is_open (rv_state r') = true →
    ∃ r, reservations db !! id = Some r ∧ is_open (rv_state r) = true ∧
      (rv_state r' = sent → rv_state r = sent);
}.

#[export] Instance row_evolves_preorder : PreOrder row_evolves.
Proof.
  split; [by intros r; split; auto|]. intros r1 r2 r3 [????????] [?????? t2 s2]. split; try congruence.
  - intros Ht. assert (r2 = r1) as -> by auto. auto.
  - intros Hs. destruct (re_sent0 Hs) as [?|H2]; [auto|right]. rewrite t2; [done|by rewrite H2].
Qed.
#[export] Instance call_evolves_preorder : PreOrder call_evolves.
Proof.
  split; [by intros c; split_and!; try left|]. intros c1 c2 c3 (?&?&E1&?) (?&?&E2&?). split_and!; try congruence; [|auto].
  intros Hc. destruct (E1 Hc) as [->|(Ho & Hr & x & ->)]; [auto|].
  destruct (E2 Hc) as [->|(_ & [=] & _)]. right. eauto.
Qed.

Lemma frozen_mono month db db' :
  settings_grow (settings db) (settings db') → frozen month db = true → frozen month db' = true.
Proof.
  unfold frozen. intros Hs [v Hv]%bool_decide_eq_true. apply bool_decide_eq_true.
  exists v. by apply Hs.
Qed.

#[export] Instance evolves_preorder : PreOrder evolves.
Proof.
  split.
  - intros db. split; eauto; try done. intros id r Hr. by exists r.
    intros id c Hc. by exists c.
  - intros d1 d2 d3 H1 H2. split.
    + intros id r Hr. apply H1 in Hr as (r2 & Hr2 & ?). apply H2 in Hr2 as (r3 & ? & ?).
      exists r3. split; [done|]. by transitivity r2.
    + intros id c Hc. apply H1 in Hc as (c2 & Hc2 & ?). apply H2 in Hc2 as (c3 & ? & ?).
      exists c3. split; [done|]. by transitivity c2.
    + etransitivity; [apply H1|apply H2].
    + etransitivity; [apply H1|apply H2].
    + intros id r3 Hr3 Hf Ho. pose proof (ev_settings _ _ H1) as Hs1.
      destruct (ev_frozen _ _ H2 id r3 Hr3 (frozen_mono _ _ _ Hs1 Hf) Ho) as (r2 & Hr2 & Ho2 & Hs2).
      destruct (ev_rows _ _ H2 id r2 Hr2) as (r3' & Hr3' & Hrr).
      assert (r3' = r3) as -> by congruence. pose proof (re_month _ _ Hrr) as Hm.
      rewrite Hm in Hf. destruct (ev_frozen _ _ H1 id r2 Hr2 Hf Ho2) as (r1 & ? & ? & Hs).
      exists r1. split_and!; auto.
Qed.

(** ** The invariant *)

(** An owner alert never stands alone: its month is frozen. *)
Definition alerts_ok (S : gmap SettingKey SettingValue) : Prop :=
  ∀ month id, is_Some (S !! AlertKey month id) → is_Some (S !! FreezeKey month).

Record budget_ok (hard_limit : Z) (db : BudgetDB) : Prop := {
  ok_rows : map_Forall (λ _ r, reservation_check r = true) (reservations db);
  ok_cap : ∀ month, month_total month db ≤ hard_limit ∨ frozen month db = true;
  ok_ledger : ∀ id l, ledger db !! id = Some l →
    ∃ r, reservations db !! id = Some r ∧ rv_state r = settled ∧ ledger_check l r = true;
  ok_warned : ∀ id r, reservations db !! id = Some r → rv_outcome r = allow_soft_warning →
    warned (rv_month_key r) db = true;
  ok_once : ∀ id1 id2 r1 r2,
    reservations db !! id1 = Some r1 → reservations db !! id2 = Some r2 →
    rv_outcome r1 = allow_soft_warning → rv_outcome r2 = allow_soft_warning →
    rv_month_key r1 = rv_month_key r2 → id1 = id2;
  ok_calls : ∀ id1 id2 c1 c2, calls db !! id1 = Some c1 → calls db !! id2 = Some c2 →
    cl_reservation_id c1 = cl_reservation_id c2 → id1 = id2;
  ok_alerts : alerts_ok (settings db);
}.

(** A method that keeps the invariant and undoes nothing when it returns, and one
    that does so however it ends. *)
Definition good (hard_limit : Z) (db db' : BudgetDB) : Prop :=
  budget_ok hard_limit db' ∧ evolves db db'.
Definition keeps (hard_limit : Z) {E A} (m : M BudgetDB E A) : Prop :=
  ∀ db, budget_ok hard_limit db → wp m (λ _ db', good hard_limit db db') (λ _ _, True) db.
Definition safe (hard_limit : Z) {E A} (m : M BudgetDB E A) : Prop :=
  ∀ db, budget_ok hard_limit db →
    wp m (λ _ db', good hard_limit db db') (λ _ db', good hard_limit db db') db.

Section Rules.
Context (hard : Z).

Lemma good_refl db : budget_ok hard db → good hard db db.
Proof. by split. Qed.

Lemma good_trans d1 d2 d3 : good hard d1 d2 → good hard d2 d3 → good hard d1 d3.
Proof. intros [_ ?] [? ?]. split; [done|]. by transitivity d2. Qed.

Lemma keeps_ret {E A} (a : A) : keeps hard (mret a : M BudgetDB E A).
Proof. intros db H. apply wp_ret. by apply good_refl. Qed.
Lemma keeps_raise {E A} (e : E) : keeps hard (raise e : M BudgetDB E A).
Proof. intros db H. by apply wp_raise. Qed.
Lemma keeps_gets {E A} (f : BudgetDB → A) : keeps hard (gets f : M BudgetDB E A).
Proof. intros db H. apply wp_gets. by apply good_refl. Qed.
Lemma keeps_lift {E A} (r : result E A) : keeps hard (lift r : M BudgetDB E A).
Proof. intros db H. apply wp_lift; intros; [by apply good_refl|done]. Qed.
Lemma keeps_raise_if {E} c (e : E) : keeps hard (raise_if c e).
Proof. destruct c; [apply keeps_raise|apply keeps_ret]. Qed.
Lemma keeps_bind {E A C} (m : M BudgetDB E A) (k : A → M BudgetDB E C) :
  keeps hard m → (∀ a, keeps hard (k a)) → keeps hard (m ≫= k).
Proof.
  intros Hm Hk db H. apply wp_bind. eapply wp_mono; [by apply Hm| |done].
  intros a db' Hg. eapply wp_mono; [apply Hk, Hg| |done].
  intros ? ? Hg'. exact (good_trans _ _ _ Hg Hg').
Qed.

Lemma safe_in_uow {E A} (m : M BudgetDB E A) : keeps hard m → safe hard (in_uow m).
Proof.
  intros Hm db H. specialize (Hm db H). unfold wp, in_uow in *.
  destruct (m db) as [[a|e] db']; [done|]. by apply good_refl.
Qed.
Lemma safe_keeps {E A} (m : M BudgetDB E A) : safe hard m → keeps hard m.
Proof. intros Hm db H. eapply wp_mono; [by apply Hm|done|done]. Qed.
Lemma safe_ret {E A} (a : A) : safe hard (mret a : M BudgetDB E A).
Proof. intros db H. apply wp_ret. by apply good_refl. Qed.
Lemma safe_raise {E A} (e : E) : safe hard (raise e : M BudgetDB E A).
Proof. intros db H. apply wp_raise. by apply good_refl. Qed.
Lemma safe_gets {E A} (f : BudgetDB → A) : safe hard (gets f : M BudgetDB E A).
Proof. intros db H. apply wp_gets. by apply good_refl. Qed.
Lemma safe_lift {E A} (r : result E A) : safe hard (lift r : M BudgetDB E A).
Proof. intros db H. apply wp_lift; intros; by apply good_refl. Qed.
Lemma safe_raise_if {E} c (e : E) : safe hard (raise_if c e).
Proof. destruct c; [apply safe_raise|apply safe_ret]. Qed.
Lemma safe_bind {E A C} (m : M BudgetDB E A) (k : A → M BudgetDB E C) :
  safe hard m → (∀ a, safe hard (k a)) → safe hard (m ≫= k).
Proof.
  intros Hm Hk db H. apply wp_bind. eapply wp_mono; [by apply Hm| |done].
  intros a db' Hg. eapply wp_mono; [apply Hk, Hg| |]; intros ? ? Hg'; exact (good_trans _ _ _ Hg Hg').
Qed.
Lemma safe_try {E E' A} (m : M BudgetDB E A) (h : E → M BudgetDB E' A) :
  safe hard m → (∀ e, safe hard (h e)) → safe hard (try_except m h).
Proof.
  intros Hm Hh db H. specialize (Hm db H). unfold wp, try_except in *.
  destruct (m db) as [[a|e] db']; [done|].
  pose proof (Hh e db' (proj1 Hm)) as Hw. unfold wp in Hw.
  destruct (h e db') as [[?|?] ?]; exact (good_trans _ _ _ Hm Hw).
Qed.
(** A handler that only raises. *)
Lemma keeps_try_raise {E E' A} (m : M BudgetDB E A) (h : E → M BudgetDB E' A) :
  keeps hard m → (∀ e db, wp (h e) (λ _ _, False) (λ _ _, True) db) → keeps hard (try_except m h).
Proof.
  intros Hm Hh db H. specialize (Hm db H). unfold wp, try_except in *.
  destruct (m db) as [[a|e] db']; [done|]. specialize (Hh e db'). by destruct (h e db') as [[?|?] ?].
Qed.
End Rules.

(** ** The statements *)

(** An open reservation replaced by [r'] of no greater weight. *)
Record row_step (db : BudgetDB) (r r' : Reservation) : Prop := {
  rs_evolves : row_evolves r r';
  rs_open : is_open (rv_state r) = true;
  rs_check : reservation_check r' = true;
  rs_weight : ∀ month, weight month r' ≤ weight month r;
  rs_sent : rv_state r' = sent → rv_state r = sent ∨ frozen (rv_month_key r) db = false;
}.

Section Statements.
Context (hard : Z).

Lemma ledger_closed db id r :
  budget_ok hard db → reservations db !! id = Some r → is_open (rv_state r) = true →
  ledger db !! id = None.
Proof.
  intros Hok Hr Ho. destruct (ledger db !! id) as [l|] eqn:Hl; [|done].
  apply (ok_ledger _ _ Hok) in Hl as (r' & ? & Hs & _). simplify_eq. by rewrite Hs in Ho.
Qed.

Lemma evolves_put_reservation db id r r' :
  reservations db !! id = Some r → row_evolves r r' → is_open (rv_state r) = true →
  (rv_state r' = sent → rv_state r = sent ∨ frozen (rv_month_key r) db = false) →
  evolves db (put_reservation id r' db).
Proof.
  intros Hr He Ho Hs. split; cbn [put_reservation reservations calls ledger settings]; try done.
  - intros i x Hx. destruct (decide (i = id)) as [->|].
    + exists r'. rewrite lookup_insert_eq. by simplify_eq.
    + exists x. by rewrite lookup_insert_ne.
  - intros i c Hc. by exists c.
  - intros i x Hx Hf Hox. destruct (decide (i = id)) as [->|].
    + rewrite lookup_insert_eq in Hx. injection Hx as <-. exists r. split_and!; try done.
      intros Hsx. destruct (Hs Hsx) as [?|Hf']; [done|].
      rewrite (re_month _ _ He) in Hf. congruence.
    + rewrite lookup_insert_ne in Hx by done. by exists x.
Qed.

(** What [budget_ok] asks of a row beyond the cap is kept by a replacement. *)
Lemma ok_put_reservation db id r r' :
  budget_ok hard db → reservations db !! id = Some r → row_evolves r r' →
  is_open (rv_state r) = true → reservation_check r' = true →
  (∀ month, month_total month (put_reservation id r' db) ≤ hard ∨ frozen month db = true) →
  budget_ok hard (put_reservation id r' db).
Proof.
  intros Hok Hr He Ho Hc Hcap.
  assert (∀ i x, reservations (put_reservation id r' db) !! i = Some x →
    ∃ y, reservations db !! i = Some y ∧ rv_outcome x = rv_outcome y ∧
         rv_month_key x = rv_month_key y) as Hold.
  { intros i x. cbn. destruct (decide (i = id)) as [->|].
    - rewrite lookup_insert_eq. intros [= <-]. exists r. by destruct He.
    - rewrite lookup_insert_ne by done. eauto. }
  split; try done.
  - cbn. apply map_Forall_insert_2; [done|apply Hok].
  - intros i l Hl. cbn in *. apply (ok_ledger _ _ Hok) in Hl as Hl'.
    destruct Hl' as (x & Hx & Hs & Hlc). destruct (decide (i = id)) as [->|].
    + by rewrite (ledger_closed db id r) in Hl.
    + exists x. by rewrite lookup_insert_ne.
  - intros i x (y & Hy & Hout & Hm)%Hold Ho'. rewrite Hm.
    apply (ok_warned _ _ Hok i y Hy). congruence.
  - intros i j x y (x' & Hx' & Hox & Hmx)%Hold (y' & Hy' & Hoy & Hmy)%Hold ???.
    apply (ok_once _ _ Hok i j x' y'); congruence.
  - apply Hok.
  - apply Hok.
Qed.

Lemma good_put_reservation db id r r' :
  budget_ok hard db → reservations db !! id = Some r → row_step db r r' →
  good hard db (put_reservation id r' db).
Proof.
  intros Hok Hr [He Ho Hc Hw Hs]. split; [|by eapply evolves_put_reservation].
  eapply ok_put_reservation; try done. intros month.
  destruct (ok_cap _ _ Hok month) as [Hle|?]; [left|by right].
  rewrite total_put. rewrite (total_split month id r) in Hle by done.
  specialize (Hw month). lia.
Qed.

Lemma good_put_call db id c c' :
  budget_ok hard db → calls db !! id = Some c → call_evolves c c' →
  good hard db (put_call id c' db).
Proof.
  intros Hok Hc He. assert (∀ i x, calls (put_call id c' db) !! i = Some x →
    ∃ y, calls db !! i = Some y ∧ cl_reservation_id x = cl_reservation_id y) as Hold.
  { intros i x. cbn. destruct (decide (i = id)) as [->|].
    - rewrite lookup_insert_eq. intros [= <-]. exists c. by destruct He as (?&?&?&?).
    - rewrite lookup_insert_ne by done. eauto. }
  split.
  - destruct Hok. split; try done.
    intros i j x y (x' & ? & ?)%Hold (y' & ? & ?)%Hold ?. eapply ok_calls0; [done..|congruence].
  - split; cbn; try done; eauto.
    + intros i r Hr. by exists r.
    + intros i x Hx. destruct (decide (i = id)) as [->|].
      * exists c'. rewrite lookup_insert_eq. by simplify_eq.
      * exists x. by rewrite lookup_insert_ne.
Qed.

(** Settings may be added, never replaced. *)
Lemma good_settings db S :
  budget_ok hard db → settings_grow (settings db) S → alerts_ok S →
  good hard db (mkBudgetDB (reservations db) (calls db) (ledger db) S).
Proof.
  intros Hok Hsub Hal. split.
  - destruct Hok. split; try done.
    + intros month. destruct (ok_cap0 month) as [?|?]; [by left|right].
      by eapply frozen_mono.
    + intros id r Hr Ho. specialize (ok_warned0 id r Hr Ho). revert ok_warned0. unfold warned.
      intros [w Hw]%bool_decide_eq_true. apply bool_decide_eq_true. exists w.
      by apply Hsub.
  - split; try done; eauto.
    + intros i r Hr. by exists r.
    + intros i x Hx. by exists x.
Qed.

Lemma good_put_ledger db id r l :
  budget_ok hard db → reservations db !! id = Some r → rv_state r = settled →
  ledger db !! id = None → ledger_check l r = true → good hard db (put_ledger id l db).
Proof.
  intros Hok Hr Hs Hl Hc. split.
  - destruct Hok. split; try done. intros i x. cbn. destruct (decide (i = id)) as [->|].
    + rewrite lookup_insert_eq. intros [= <-]. eauto.
    + rewrite lookup_insert_ne by done. eauto.
  - split; cbn; try done; eauto.
    + intros i x Hx. by exists x.
    + intros i x Hx. by exists x.
    + by apply insert_subseteq.
Qed.

(** A settlement as a whole: the row, its ledger entry and the settings. *)
Lemma good_settlement db db' id r r' l :
  budget_ok hard db → reservations db !! id = Some r → is_open (rv_state r) = true →
  row_evolves r r' → rv_state r' = settled → reservation_check r' = true →
  ledger_check l r' = true → settings_grow (settings db) (settings db') → alerts_ok (settings db') →
  db' = mkBudgetDB (<[id := r']> (reservations db)) (calls db) (<[id := l]> (ledger db))
          (settings db') →
  (∀ month, month_total month db' ≤ hard ∨ frozen month db' = true) → good hard db db'.
Proof.
  intros Hok Hr Ho He Hs Hc Hl Hsub Hal Heq Hcap.
  assert (reservations db' = <[id := r']> (reservations db)) as HR by (by rewrite Heq).
  set (db1 := mkBudgetDB (reservations db) (calls db) (ledger db) (settings db')).
  assert (good hard db db1) as [Hok1 Hev1] by by apply good_settings.
  assert (good hard db1 (put_reservation id r' db1)) as [Hok2 Hev2].
  { split; [|by eapply evolves_put_reservation; [..|congruence]].
    eapply ok_put_reservation; [done..|]. intros month. specialize (Hcap month).
    unfold month_total in *. by rewrite HR in Hcap. }
  assert (good hard (put_reservation id r' db1) (put_ledger id l (put_reservation id r' db1)))
    as [Hok3 Hev3].
  { apply good_put_ledger with r'; try done; cbn; [apply lookup_insert_eq|].
    by eapply ledger_closed. }
  rewrite Heq. split; [done|]. etransitivity; [exact Hev1|]. etransitivity; [exact Hev2|done].
Qed.

Lemma safe_update_call id guard f :
  (∀ c, guard c = true → cl_outcome c = started ∧
        cl_reservation_id (f c) = cl_reservation_id c ∧ cl_attempt_id (f c) = cl_attempt_id c ∧
        (on_wire (cl_phase c) = true → on_wire (cl_phase (f c)) = true)) →
  safe hard (update_call id guard f).
Proof.
  intros Hf db Hok. unfold update_call. wp_steps; try by apply good_refl.
  eapply good_put_call; [done..|]. destruct (Hf _ Heqb) as (?&?&?&?). by repeat split.
Qed.

(** Any change of the calls that they may make by themselves. *)
Lemma good_calls db f :
  budget_ok hard db → (∀ c, call_evolves c (f c)) →
  good hard db (mkBudgetDB (reservations db) (f <$> calls db) (ledger db) (settings db)).
Proof.
  intros Hok Hf. split.
  - destruct Hok. split; try done. cbn. intros i j x y.
    intros (x' & <- & ?)%lookup_fmap_Some (y' & <- & ?)%lookup_fmap_Some ?.
    destruct (Hf x') as (? & _), (Hf y') as (? & _). eapply ok_calls0; [done..|congruence].
  - split; cbn; try done; eauto.
    + intros i r Hr. by exists r.
    + intros i c Hc. exists (f c). by rewrite lookup_fmap, Hc.
Qed.

Lemma wp_update_reservation id attempt guard f db (Q : Z → BudgetDB → Prop) :
  (∀ r, reservations db !! id = Some r → rv_attempt_id r = attempt → guard r = true →
     reservation_check (f r) = true → Q 1 (put_reservation id (f r) db)) →
  Q 0 db →
  wp (update_reservation id attempt guard f) Q (λ _ db', db' = db) db.
Proof.
  intros H1 H0. unfold update_reservation. wp_steps; try done.
  bool_props. by apply H1.
Qed.

Lemma safe_update_reservation id attempt guard f :
  (∀ db r, reservations db !! id = Some r → guard r = true →
     reservation_check r = true → reservation_check (f r) = true → row_step db r (f r)) →
  safe hard (update_reservation id attempt guard f).
Proof.
  intros Hf db Hok. eapply wp_mono; [apply (wp_update_reservation _ _ _ _ _ (λ _, good hard db))|done|].
  - intros r Hr Ha Hg Hc. eapply good_put_reservation; [done..|].
    apply Hf; try done. by apply (ok_rows _ _ Hok id r).
  - by apply good_refl.
  - intros e db' ->. by apply good_refl.
Qed.

End Statements.

#[export] Hint Resolve keeps_ret keeps_raise keeps_gets keeps_lift keeps_raise_if
  safe_ret safe_raise safe_gets safe_lift safe_raise_if : wp.

(** Walk down a method with the rules above; what is left are the statements. *)
Ltac keeps_step :=
  lazymatch goal with
  | |- keeps _ (_ ≫= _) => apply keeps_bind; [|intros]
  | |- safe _ (_ ≫= _) => apply safe_bind; [|intros]
  | |- safe _ (in_uow _) => apply safe_in_uow
  | |- safe _ (try_except _ _) => apply safe_try; [|intros]
  | |- keeps _ (match ?x with _ => _ end) => destruct x eqn:?
  | |- safe _ (match ?x with _ => _ end) => destruct x eqn:?
  | |- _ => solve [eauto with wp]
  end.
Ltac keeps_steps := repeat (cbn beta iota zeta; keeps_step).

(** ** The field assignments *)

Lemma is_open_not_terminal s : is_open s = true → terminal s = true → False.
Proof. by destruct s. Qed.

Lemma check_reserved r : reservation_check r = true → 0 ≤ rv_reserved r.
Proof. intros H. unfold reservation_check in H. bool_props. apply between_spec in H. lia. Qed.

Lemma check_charged r c : reservation_check r = true → rv_charged r = Some c → 0 ≤ c.
Proof.
  intros H Hc. unfold reservation_check in H. rewrite Hc in H. bool_props.
  match goal with K : between 0 c _ = true |- _ => apply between_spec in K; lia end.
Qed.

Lemma weight_open month r :
  is_open (rv_state r) = true →
  weight month r = if bool_decide (rv_month_key r = month) then rv_reserved r else 0.
Proof.
  intros Ho. unfold weight, effective_amount. by destruct (rv_state r), (bool_decide _).
Qed.

Lemma weight_nonneg month r : reservation_check r = true → 0 ≤ weight month r.
Proof.
  intros Hc. unfold weight, effective_amount. destruct (_ && _); [|done].
  destruct (rv_state r); try by apply check_reserved.
  destruct (rv_charged r) eqn:E; simpl; [by eapply check_charged|lia].
Qed.

Section Assignments.
Implicit Types (db : BudgetDB) (r : Reservation).

Lemma row_step_phase db r p :
  is_open (rv_state r) = true → reservation_check (set_phase p r) = true →
  row_step db r (set_phase p r).
Proof.
  intros Ho Hc. split; try done; [split; try done|by left]; [|by left].
  intros Ht. by destruct (is_open_not_terminal _ Ho Ht).
Qed.

Lemma row_step_released db r now :
  rv_state r = reserved → reservation_check r = true →
  reservation_check (set_released now r) = true → row_step db r (set_released now r).
Proof.
  intros Hs Hr Hc. split; try done; [split; try done; by rewrite Hs| |].
  - by rewrite Hs.
  - intros month. unfold weight at 1. simpl. rewrite andb_false_r. by apply weight_nonneg.
Qed.

Lemma row_evolves_settled r charged overrun now reconciled :
  is_open (rv_state r) = true → row_evolves r (set_settled charged overrun now reconciled r).
Proof.
  intros Ho. split; try done; [|by right]. intros Ht. by destruct (is_open_not_terminal _ Ho Ht).
Qed.

Lemma weight_settled month r charged overrun now reconciled :
  weight month (set_settled charged overrun now reconciled r)
  = if bool_decide (rv_month_key r = month) then charged else 0.
Proof. unfold weight. simpl. by destruct (bool_decide _). Qed.

Lemma row_step_settled db r overrun now reconciled :
  is_open (rv_state r) = true →
  reservation_check (set_settled (rv_reserved r) overrun now reconciled r) = true →
  row_step db r (set_settled (rv_reserved r) overrun now reconciled r).
Proof.
  intros Ho Hc. split; try done; [by apply row_evolves_settled|].
  intros month. by rewrite weight_settled, weight_open.
Qed.

Lemma row_step_sent db r :
  rv_state r = reserved → frozen (rv_month_key r) db = false →
  reservation_check (set_sent r) = true → row_step db r (set_sent r).
Proof.
  intros Hs Hf Hc. split; try done; [split; try done; by rewrite Hs| | |].
  - by rewrite Hs.
  - intros month. by rewrite !weight_open by (simpl; by rewrite ?Hs).
  - by right.
Qed.
End Assignments.

(** ** Provider calls and revocation *)

Section CallSteps.
Context `{CS : CallServices} (hard : Z).

Lemma open_of s t : s = t → is_open t = true → is_open s = true.
Proof. by intros ->. Qed.

Lemma keeps_claim route consumption receipt call_id now :
  keeps hard (claim route consumption receipt call_id now).
Proof.
  unfold claim. apply keeps_bind; [|intros _].
  { destruct (bn_purpose _), receipt; eauto with wp. }
  apply keeps_bind; [|intros changed].
  { apply safe_keeps, safe_update_reservation. intros db r Hr Hg _ Hc. bool_props.
    apply row_step_phase; [|done]. by eapply open_of. }
  apply keeps_bind; [eauto with wp|intros _].
  intros db Hok. unfold insert_call. wp_steps; try done. bool_props.
  match goal with H : map_Forall _ _ |- _ => rename H into Hfresh end.
  match goal with H : ¬ is_Some _ |- _ => apply eq_None_not_Some in H; rename H into Hnone end.
  cbn in Hfresh. split.
  - destruct Hok. split; try done. intros i j x y Hx Hy Hxy. cbn in Hx, Hy.
    destruct (decide (i = call_id)) as [->|], (decide (j = call_id)) as [->|]; try done.
    + rewrite lookup_insert_eq in Hx. rewrite lookup_insert_ne in Hy by done. simplify_eq.
      apply Hfresh in Hy as (?&?&Hne). by rewrite <- Hxy in Hne.
    + rewrite lookup_insert_eq in Hy. rewrite lookup_insert_ne in Hx by done. simplify_eq.
      apply Hfresh in Hx as (?&?&Hne). by rewrite Hxy in Hne.
    + rewrite lookup_insert_ne in Hx, Hy by done. by eapply ok_calls0.
  - split; cbn; try done; eauto.
    + intros i r Hr. by exists r.
    + intros i x Hx. exists x. rewrite lookup_insert_ne; [done|]. congruence.
Qed.

Lemma safe_begin route consumption receipt call_id now :
  safe hard (begin route consumption receipt call_id now).
Proof.
  unfold begin. keeps_steps; [apply keeps_claim|..].
  all: keeps_steps.
Qed.

Lemma safe_mark_network call_id : safe hard (mark_network_invocation_starting call_id).
Proof.
  unfold mark_network_invocation_starting. keeps_steps.
  - apply safe_keeps, safe_update_reservation. intros db r Hr Hg _ Hc. bool_props.
    apply row_step_phase; [by eapply open_of|done].
  - apply safe_keeps, safe_update_call. intros x Hx. by bool_props.
Qed.

Lemma safe_finish call_id outcome route receipt now :
  safe hard (finish call_id outcome route receipt now).
Proof.
  unfold finish, finish_pair. keeps_steps.
  - apply safe_keeps, safe_update_call. intros x Hx. by bool_props.
  - apply safe_keeps, safe_update_reservation. intros db r Hr Hg _ Hc. bool_props.
    apply row_step_phase; [by eapply open_of|done].
Qed.

Lemma keeps_bind_succeeded_call route response existing :
  keeps hard (bind_succeeded_call_in_transaction route response existing).
Proof.
  intros db Hok. unfold bind_succeeded_call_in_transaction. cbn zeta. apply wp_bind, wp_gets, wp_bind, wp_modify.
  apply wp_raise_if; [intros _|done]. apply good_calls; [done|]. intros c.
  destruct (_ && _) eqn:Hm; [|done]. unfold reasoned in Hm. bool_props. split_and!; try done.
  intros _. right. eauto.
Qed.

Lemma safe_record `{BS : BudgetServices} route response usage_id table now :
  safe hard (record route response usage_id table now).
Proof.
  assert (∀ usage_id, keeps hard (_require_exact_succeeded_usage route usage_id now)) as Husage.
  { intros u db Hok. unfold _require_exact_succeeded_usage. wp_steps; try done; by apply good_refl. }
  unfold record. apply safe_bind; [eauto with wp|intros _]. destruct usage_id as [u|]; [|eauto with wp].
  assert (keeps hard (record_in_uow route response u table now)) as Hk.
  { unfold record_in_uow. destruct table; keeps_steps; eauto using keeps_bind_succeeded_call. }
  intros db Hok. specialize (Hk db Hok). unfold receipt_uow, wp in *.
  destruct (record_in_uow _ _ _ _ _ db) as [[[]|e] db']; [done|by apply good_refl..].
Qed.

Lemma safe_settle_budget_reservation id now : safe hard (_settle_budget_reservation id now).
Proof.
  unfold _settle_budget_reservation. keeps_steps.
  apply safe_update_reservation. intros db x Hx Hg Hr Hc. by apply row_step_settled.
Qed.
#[local] Hint Resolve safe_settle_budget_reservation : wp.

Lemma keeps_settle_each ids now : keeps hard (settle_each ids now).
Proof.
  induction ids as [|id ids IH]; simpl; [eauto with wp|]. apply keeps_bind; [|auto].
  unfold _require_conservative_reservation_settlement. keeps_steps.
  apply safe_keeps. eauto with wp.
Qed.

Lemma keeps_close_revoked_calls subject now rows :
  keeps hard (close_revoked_calls subject now rows).
Proof.
  induction rows as [|[id c] rows IH]; simpl; [eauto with wp|].
  apply keeps_bind; [|intros; keeps_steps; auto].
  unfold close_revoked_call. keeps_steps.
  all: apply safe_keeps, safe_update_call; intros x Hx; by bool_props.
Qed.

Lemma safe_revoke subject now : safe hard (reconcile_revoked_subject_once subject now).
Proof.
  unfold reconcile_revoked_subject_once, _close_and_settle_revoked_subject_provider_calls,
    _close_revoked_subject_provider_calls.
  keeps_steps; [apply keeps_close_revoked_calls|apply keeps_settle_each].
Qed.

Lemma safe_settle_conservative_once ids now : safe hard (settle_conservative_once ids now).
Proof.
  unfold settle_conservative_once. apply safe_in_uow.
  induction ids as [|id ids IH]; simpl; keeps_steps.
  apply safe_keeps. eauto with wp.
Qed.
End CallSteps.

(** ** The guard *)

Section GuardSteps.
Context `{BS : BudgetServices}.
Context (catalog : PriceCatalog) (hard soft expiry : Z).

(** Recording a freeze only adds settings, and leaves the month frozen; it raises only
    on an alert already there with another payload. *)
Lemma record_freeze_spec month reason total id db :
  alerts_ok (settings db) →
  wp (_record_freeze hard month reason total id)
    (λ _ db', frozen month db' = true ∧ settings_grow (settings db) (settings db') ∧ alerts_ok (settings db') ∧
       db' = mkBudgetDB (reservations db) (calls db) (ledger db) (settings db'))
    (λ e _, frozen month db = true ∧ e = denied_ "budget_owner_alert_insert_failed") db.
Proof.
  intros Hal. unfold _record_freeze, insert_setting_or_ignore. destruct db as [R C L S].
  assert (∀ k v T, T !! k = None → settings_grow T (<[k := v]> T)) as Hins.
  { intros. by apply settings_grow_insert. }
  assert (∀ v T, alerts_ok T → is_Some (T !! FreezeKey month) →
    alerts_ok (<[AlertKey month id := v]> T)) as Halert.
  { intros v T HT Hf m i. rewrite (lookup_insert_ne _ _ (FreezeKey m)) by done.
    destruct (decide (AlertKey month id = AlertKey m i)) as [[= <- <-]|Hne]; [done|].
    rewrite lookup_insert_ne by done. apply HT. }
  assert (∀ v, alerts_ok (<[FreezeKey month := v]> S)) as Hfreeze.
  { intros v m i. rewrite (lookup_insert_ne _ _ (AlertKey m i)) by done. intros Hi%Hal.
    destruct (decide (month = m)) as [<-|]; [by rewrite lookup_insert_eq|].
    rewrite lookup_insert_ne; [done|congruence]. }
  wp_steps; cbn in *; bool_props; unfold frozen in *; cbn in *; bool_props.
  all: rewrite ?lookup_insert_eq, ?(lookup_insert_ne _ (AlertKey month id) (FreezeKey month)) in * by done.
  all: repeat match goal with |- _ ∧ _ => split end.
  all: try (apply bool_decide_eq_true); rewrite ?lookup_insert_ne by done; rewrite ?lookup_insert_eq.
  all: eauto 3; try done.
  all: try (etransitivity; [|by apply Hins]; by apply Hins).
  all: try (exfalso; match goal with H : ¬ is_Some _ |- _ => apply H; by eauto end).
  - apply (Hal month id). rewrite lookup_insert_ne in Heqo0 by done. eauto.
  - apply Halert; rewrite ?lookup_insert_eq; eauto.
Qed.

(** Only that month. *)
Lemma record_freeze_month month reason total id db :
  wp (_record_freeze hard month reason total id)
    (λ _ db', ∀ m, frozen m db' = frozen m db || bool_decide (m = month)) (λ _ _, True) db.
Proof.
  unfold _record_freeze, insert_setting_or_ignore. wp_steps; try done; cbn in *; unfold frozen in *; cbn in *;
    rewrite ?(lookup_insert_ne _ (AlertKey month id)) by done; destruct (decide (m = month)) as [->|Hm].
  all: rewrite ?lookup_insert_eq, ?(lookup_insert_ne _ (FreezeKey month) (FreezeKey m)) by congruence.
  all: rewrite ?(bool_decide_eq_true_2 (month = month)), ?(bool_decide_eq_false_2 (m = month)) by done.
  all: rewrite ?orb_true_r, ?orb_false_r; try done.
  all: apply bool_decide_eq_true_2; eauto.
Qed.

Lemma safe_freeze id attempt reason :
  safe hard (_freeze_evidence_quarantine hard id attempt reason).
Proof.
  unfold _freeze_evidence_quarantine. keeps_steps. intros db Hok.
  eapply wp_mono; [apply record_freeze_spec, Hok| |done].
  intros _ db' (_ & Hsub & ? & ->). by apply good_settings.
Qed.

Lemma safe_mark_sent id attempt now : safe hard (mark_sent id attempt now).
Proof.
  unfold mark_sent. apply safe_in_uow. intros db Hok. apply wp_bind, wp_gets. cbn beta.
  destruct (reservations db !! id) as [r|] eqn:Hr; [|done].
  apply wp_bind, wp_raise_if; [intros Ha|done].
  apply wp_bind, wp_gets. apply wp_bind, wp_raise_if; [intros Hf|done].
  apply wp_bind, wp_gets. destruct (filter _ _) as [|[call_id c] rest]; [done|].
  apply wp_bind, wp_raise_if; [intros _|done]. apply wp_bind.
  eapply wp_mono; [apply (wp_update_reservation _ _ _ _ _ (λ _, good hard db))| |done].
  - intros r' Hr' _ Hg Hc. simplify_eq. bool_props.
    eapply good_put_reservation; [done..|]. by apply row_step_sent.
  - by apply good_refl.
  - intros changed db1 Hg1.
    apply (wp_mono _ (λ _ db', good hard db1 db') _ (λ _ _, True)); [|intros ? ? Hg2; exact (good_trans _ _ _ _ Hg1 Hg2)|done].
    revert Hg1. intros [Hok1 _]. revert db1 Hok1. change (keeps hard
      (raise_if (negb (changed =? 1)) (denied_ "reservation_not_markable_sent");;
       provider ← update_call call_id
          (λ c, (cl_reservation_id c =? id) && (cl_attempt_id c =? attempt) &&
                bool_decide (cl_outcome c = started) && (cl_ordering_version c =? 1) &&
                bool_decide (cl_phase c = claim_begun)) (set_call_phase marked_sent);
        raise_if (negb (provider =? 1)) (denied_ "provider_claim_phase_race"))).
    keeps_steps. apply safe_keeps, safe_update_call. intros x Hx. bool_props.
    split_and!; try done. by match goal with H : cl_phase x = _ |- _ => rewrite H end.
Qed.

Lemma keeps_release_locked id attempt now : keeps hard (_release_unsent_locked id attempt now).
Proof.
  unfold _release_unsent_locked. keeps_steps.
  - apply safe_keeps, safe_update_call. intros x Hx. by bool_props.
  - apply safe_keeps, safe_update_reservation. intros db x Hx Hg Hr Hc. bool_props.
    by apply row_step_released.
Qed.

(** The evidence of a settlement at most closes a call. *)
Lemma transport_evidence_spec id r now db :
  budget_ok hard db →
  wp (transport_evidence id r now)
    (λ evidence db', good hard db db' ∧ (evidence.2 = true → evidence.1 = None) ∧
       db' = mkBudgetDB (reservations db) (calls db') (ledger db) (settings db))
    (λ _ _, True) db.
Proof.
  intros Hok. assert (good hard db db) as Hrefl by by apply good_refl.
  assert (db = mkBudgetDB (reservations db) (calls db) (ledger db) (settings db)) as Heta.
  { by destruct db. }
  unfold transport_evidence, quarantined, update_call.
  wp_steps; try done.
  split; [|done]. eapply good_put_call; [done..|]. by bool_props.
Qed.

(** A month within the cap, or frozen, after one of its rows was settled. *)
Lemma settled_cap db db' id r charged now (reason : option string) monthly_after overrun :
  budget_ok hard db → reservations db !! id = Some r → is_open (rv_state r) = true →
  reservations db' = <[id := set_settled charged overrun now (Some now) r]> (reservations db) →
  settings_grow (settings db) (settings db') → monthly_after = charged + total_without (rv_month_key r) id db →
  (reason = None → monthly_after ≤ hard) →
  (is_Some reason → frozen (rv_month_key r) db' = true) →
  ∀ month, month_total month db' ≤ hard ∨ frozen month db' = true.
Proof.
  intros Hok Hr Ho HR Hsub -> Hnone Hsome month.
  assert (month_total month db' = weight month (set_settled charged overrun now (Some now) r)
    + total_without month id db) as Ht.
  { rewrite <- total_put. unfold month_total. by rewrite HR. }
  rewrite weight_settled in Ht. destruct (decide (rv_month_key r = month)) as [<-|Hne].
  - rewrite bool_decide_eq_true_2 in Ht by done.
    destruct reason as [reason|]; [right; by apply Hsome|left]. specialize (Hnone eq_refl). lia.
  - rewrite bool_decide_eq_false_2 in Ht by done.
    destruct (ok_cap _ _ Hok month) as [Hle|Hf]; [left|right; by eapply frozen_mono].
    rewrite (total_split month id r) in Hle by done.
    rewrite weight_open, bool_decide_eq_false_2 in Hle by done. lia.
Qed.

Lemma freeze_reason_none cap overrun :
  freeze_reason cap overrun = None → cap = false ∧ overrun = false.
Proof. unfold freeze_reason. by destruct cap, overrun. Qed.

(** What a successful settlement leaves: the row, the ledger entry, the frozen month. *)
Definition settled_as (id : UUID) (now : Z) (s : BudgetSettlement) (r : Reservation)
    (db db' : BudgetDB) : Prop :=
  reservations db' = <[id := set_settled (st_charged_micros_sgd s) (st_estimate_overrun s) now
                               (Some now) r]> (reservations db) ∧
  st_estimate_overrun s = (rv_reserved r <? st_charged_micros_sgd s) ∧
  st_reservation_id s = id ∧
  (∃ l, ledger db' = <[id := l]> (ledger db) ∧ le_charged l = st_charged_micros_sgd s ∧
     le_reserved l = rv_reserved r ∧
     le_conservative_estimate_used l = st_conservative_estimate_used s) ∧
  (st_conservative_estimate_used s = true → st_charged_micros_sgd s = rv_reserved r) ∧
  (st_cloud_egress_frozen s = true ↔
     rv_reserved r < st_charged_micros_sgd s ∨ hard < month_total (rv_month_key r) db') ∧
  (∀ month, frozen month db' = true ↔
     frozen month db = true ∨ month = rv_month_key r ∧ st_cloud_egress_frozen s = true).

Lemma conservative_charge snapshot r receipt force actual charged :
  (force = true → receipt = None) → 0 ≤ rv_reserved r →
  actual_amount snapshot r receipt = Ok actual →
  let conservative := force || bool_decide (actual = None) || is_full_reservation receipt in
  charge conservative (rv_reserved r) actual = Ok charged →
  conservative = true → charged = rv_reserved r.
Proof.
  intros Hf Hr Ha conservative Hc Hcons. rewrite Hcons in Hc. unfold charge in Hc. cbn in Hc.
  destruct (between _ _ _); [|done]. injection Hc as <-. subst conservative.
  unfold actual_amount, is_full_reservation in *. destruct receipt as [rc|].
  - destruct force; [by specialize (Hf eq_refl)|].
    destruct (bool_decide (ur_accounting_basis rc = _)) eqn:Hb.
    + injection Ha as <-. simpl. lia.
    + destruct (amount_from_snapshot _ _); [|done]. by injection Ha as <-.
  - injection Ha as <-. simpl. lia.
Qed.

Lemma record_settlement_spec id r receipt conservative charged monthly_after now db :
  budget_ok hard db → reservations db !! id = Some r → is_open (rv_state r) = true →
  monthly_after = charged + total_without (rv_month_key r) id db →
  (conservative = true → charged = rv_reserved r) →
  wp (record_settlement hard id r receipt conservative charged monthly_after now)
    (λ s db', good hard db db' ∧ settled_as id now s r db db') (λ _ _, True) db.
Proof.
  intros Hok Hr Ho Hafter Hcons. unfold record_settlement. cbn zeta.
  set (overrun := rv_reserved r <? charged).
  set (reason := freeze_reason (hard <? monthly_after) overrun).
  set (r' := set_settled charged overrun now (Some now) r).
  apply wp_bind. eapply wp_mono; [apply wp_update_reservation with (Q := λ n d,
    n = 1 → d = put_reservation id r' db ∧ reservation_check r' = true)| |done].
  { intros x Hx _ _ Hc _. simplify_eq. by split. }
  { done. }
  intros changed db2 Hdb2. apply wp_bind, wp_raise_if; [intros Hch|done].
  bool_props. destruct (Hdb2 Hch) as [-> Hcheck]. clear Hdb2.
  apply wp_bind. unfold insert_ledger. apply wp_bind, wp_gets. cbn [Datatypes.id put_reservation reservations].
  rewrite lookup_insert_eq. set (l := mkLedgerRow _ _ _ _ _ _ _ _ _).
  apply wp_bind, wp_raise_if; [intros Hl|done]. bool_props. apply wp_modify.
  set (db3 := put_ledger id l (put_reservation id r' db)).
  apply wp_bind. apply wp_mono with
    (Q := λ _ db', (settings_grow (settings db) (settings db') ∧ alerts_ok (settings db') ∧ (is_Some reason → frozen (rv_month_key r) db' = true) ∧
       db' = mkBudgetDB (reservations db3) (calls db3) (ledger db3) (settings db')) ∧
       ∀ m, frozen m db' = frozen m db || bool_decide (m = rv_month_key r) && bool_decide (is_Some reason)) (R := λ _ _, True);
    [|intros _ db' ((Hsub & Hal & Hfz & Hdb') & Hmonths)|done].
  { destruct reason as [reason'|].
    - eapply wp_mono; [apply wp_and; [apply record_freeze_spec, Hok|apply record_freeze_month]| |done].
      intros _ db' ((?&?&?&?) & Hm). split; [by split_and!|]. intros m. rewrite Hm. by destruct (bool_decide (m = _)).
    - apply wp_ret. split; [split_and!; [done|apply Hok| |done]; by intros [? [=]]|].
      intros m. by rewrite andb_false_r, orb_false_r. }
  assert (reservations db' = <[id := r']> (reservations db)) as HR by (by rewrite Hdb').
  assert (month_total (rv_month_key r) db' = monthly_after) as Htotal.
  { rewrite Hafter. transitivity (month_total (rv_month_key r) (put_reservation id r' db)).
    - unfold month_total. by rewrite HR.
    - rewrite total_put. unfold r'. by rewrite weight_settled, bool_decide_eq_true_2. }
  apply wp_ret. split.
  - eapply good_settlement with (r := r) (r' := r') (l := l); try done.
    + by apply row_evolves_settled.
    + eapply settled_cap with (reason := reason); try done.
      intros [Hcap _]%freeze_reason_none. by bool_props.
  - unfold settled_as. cbn. split_and!; try done.
    + exists l. by rewrite Hdb'.
    + rewrite Htotal, bool_decide_eq_true. subst reason. unfold freeze_reason.
      rewrite <- !Z.ltb_lt. fold overrun.
      destruct (hard <? monthly_after), overrun; split; intros; eauto; try done; naive_solver.
    + intros month. rewrite Hmonths, orb_true_iff, andb_true_iff, bool_decide_eq_true. done.
Qed.

Lemma settle_locked_spec id attempt now db :
  budget_ok hard db →
  wp (_settle_locked hard id attempt now)
    (λ s db', good hard db db' ∧ ∃ r, reservations db !! id = Some r ∧
       rv_attempt_id r = attempt ∧ settleable r = true ∧ settled_as id now s r db db')
    (λ _ _, True) db.
Proof.
  intros Hok. unfold _settle_locked. apply wp_bind, wp_gets.
  destruct (reservations db !! id) as [r|] eqn:Hr; [|done].
  apply wp_bind, wp_raise_if; [intros Hset|done]. bool_props.
  match goal with H : settleable r = true |- _ => rename H into Hst end.
  assert (is_open (rv_state r) = true) as Ho by (unfold settleable in Hst; by bool_props).
  apply wp_bind, wp_lift; [intros snapshot _|done]. apply wp_bind.
  eapply wp_mono; [by apply transport_evidence_spec| |done].
  intros [receipt force] db1 (Hg1 & Hforce & Hdb1). cbn [fst snd] in Hforce.
  apply wp_bind, wp_lift; [intros actual Hactual|done].
  apply wp_bind, wp_lift; [intros charged Hcharge|done].
  apply wp_bind, wp_gets. apply wp_bind, wp_raise_if; [intros _|done].
  apply wp_bind, wp_lift; [intros monthly_after Hmonth|done].
  apply add_rows_total in Hmonth as [Hmonth _]. rewrite month_rows_total_skip in Hmonth.
  eapply wp_mono; [apply record_settlement_spec| |done]; try done.
  - apply Hg1.
  - by rewrite Hdb1.
  - intros Hc. eapply conservative_charge; try done. eapply check_reserved, (ok_rows _ _ Hok id r Hr).
  - intros s db' (Hg2 & Hs). split; [exact (good_trans _ _ _ _ Hg1 Hg2)|].
    exists r. split_and!; try done. rewrite Hdb1 in Hs. exact Hs.
Qed.

Lemma keeps_settle_locked id attempt now : keeps hard (_settle_locked hard id attempt now).
Proof. intros db Hok. eapply wp_mono; [by apply settle_locked_spec|by intros ? ? []|done]. Qed.

Lemma safe_settle id attempt now : safe hard (settle hard id attempt now).
Proof.
  unfold settle. apply safe_try; [apply safe_in_uow, keeps_settle_locked|].
  intros e. destruct (quarantine_reason e); [|eauto with wp].
  apply safe_bind; [apply safe_freeze|eauto with wp].
Qed.

Lemma safe_release_proven id attempt now : safe hard (_release_proven_unsent id attempt now).
Proof. apply safe_in_uow, keeps_release_locked. Qed.

Lemma safe_release_unsent id attempt proof now : safe hard (release_unsent id attempt proof now).
Proof. unfold release_unsent. keeps_steps. apply safe_release_proven. Qed.

Lemma safe_close_bound bound clock : safe hard (close_bound hard bound clock).
Proof.
  revert clock. induction bound as [|[[id attempt] state] rest IH]; intros clock; [apply safe_ret|].
  simpl. destruct (terminal state); [apply IH|]. apply safe_bind; [|intros; keeps_steps; apply IH].
  unfold close_reservation. keeps_steps; [apply safe_release_proven|apply safe_settle].
Qed.

Lemma safe_reconcile_turn turn proofs clock : safe hard (reconcile_turn hard turn proofs clock).
Proof. unfold reconcile_turn. keeps_steps. apply safe_close_bound. Qed.

(** ** New reservations *)

Lemma good_new_row db id r :
  budget_ok hard db → reservations db !! id = None → reservation_check r = true →
  (is_open (rv_state r) = true → frozen (rv_month_key r) db = false) →
  (weight (rv_month_key r) r = 0 ∨
   weight (rv_month_key r) r + month_total (rv_month_key r) db ≤ hard) →
  (rv_outcome r = allow_soft_warning → warned (rv_month_key r) db = true ∧
     ∀ i x, reservations db !! i = Some x → rv_outcome x = allow_soft_warning →
       rv_month_key x ≠ rv_month_key r) →
  good hard db (put_reservation id r db).
Proof.
  intros Hok Hid Hc Hopen Hcap Hsoft. split.
  - split; try done.
    + apply map_Forall_insert_2; [done|apply Hok].
    + intros month. rewrite total_put, total_fresh by done.
      destruct (ok_cap _ _ Hok month) as [Hle|?]; [left|by right].
      destruct (decide (rv_month_key r = month)) as [<-|Hne]; [lia|].
      unfold weight. rewrite bool_decide_eq_false_2 by done. simpl. lia.
    + intros i l Hl. apply (ok_ledger _ _ Hok) in Hl as (x & Hx & ?). exists x.
      cbn. rewrite lookup_insert_ne by congruence. done.
    + intros i x. cbn. rewrite lookup_insert_Some. intros [[<- <-]|[? Hx]] Hs; [by apply Hsoft|].
      by apply (ok_warned _ _ Hok i x).
    + intros i j x y. cbn. rewrite !lookup_insert_Some.
      intros [[<- <-]|[? Hx]] [[<- <-]|[? Hy]] Hsx Hsy Hm; try done.
      * by destruct (proj2 (Hsoft Hsx) j y).
      * by destruct (proj2 (Hsoft Hsy) i x).
      * by apply (ok_once _ _ Hok i j x y).
    + apply Hok.
    + apply Hok.
  - split; cbn; try done.
    + intros i x Hx. exists x. rewrite lookup_insert_ne by congruence. done.
    + intros i x Hx. by exists x.
    + intros i x. rewrite lookup_insert_Some. intros [[<- <-]|[? Hx]] Hf Ho.
      * by rewrite Hopen in Hf.
      * by exists x.
Qed.

Lemma decide_outcome_allowed is_frozen is_warned priced projected :
  allowed (decide_outcome hard soft is_frozen is_warned priced projected) = true →
  is_frozen = false ∧ priced = true ∧ projected ≤ hard.
Proof.
  unfold decide_outcome. destruct is_frozen, priced; simpl; try done.
  destruct (hard <? projected) eqn:?; [done|]. by bool_props.
Qed.

Lemma decide_outcome_soft is_frozen is_warned priced projected :
  decide_outcome hard soft is_frozen is_warned priced projected = allow_soft_warning →
  is_warned = false.
Proof.
  unfold decide_outcome. destruct is_frozen, is_warned, priced; simpl; try done;
    destruct (hard <? projected); try done; by rewrite andb_false_r.
Qed.

Lemma make_budget_reservation_Ok b b' : make_budget_reservation b = Ok b' → b' = b.
Proof. unfold make_budget_reservation. destruct (xorb _ _); [done|]. destruct (xorb _ _); [done|]. by intros [= ->]. Qed.

(** What a reservation that was made leaves behind. *)
Definition reserved_as (request : BudgetReservationRequest) (id : UUID)
    (priced : option (PriceQuote * SignedPricingSnapshot)) (b : BudgetReservation)
    (db db' : BudgetDB) : Prop :=
  let month := rq_month_key request in
  let authoritative := match priced with None => 0 | Some (q, _) => q_amount_micros_sgd q end in
  br_outcome b = decide_outcome hard soft (frozen month db) (warned month db)
                   (bool_decide (is_Some priced)) (month_total month db + authoritative) ∧
  br_amount_micros_sgd b = (if allowed (br_outcome b) then authoritative else 0) ∧
  reservations db !! id = None ∧
  ∃ r, reservations db' = <[id := r]> (reservations db) ∧ rv_month_key r = month ∧
    rv_attempt_id r = rq_attempt_id request ∧ rv_outcome r = br_outcome b ∧
    rv_reserved r = br_amount_micros_sgd b ∧
    rv_state r = (if allowed (br_outcome b) then reserved else denied).

(** The settings a reservation adds: its turn binding and perhaps the warning. *)
Lemma reserve_settings_spec id binding month (soft_warning : bool) db :
  wp (_ ← insert_setting (TurnKey id) (BindingValue binding);
      (if soft_warning then insert_setting (WarningKey month) EmittedValue else mret tt))
    (λ _ db', settings_grow (settings db) (settings db') ∧ frozen month db' = frozen month db ∧
       (alerts_ok (settings db) → alerts_ok (settings db')) ∧
       (soft_warning = true → warned month db' = true) ∧
       db' = mkBudgetDB (reservations db) (calls db) (ledger db) (settings db'))
    (λ _ _, True) db.
Proof.
  destruct db as [R C L S]. unfold insert_setting. destruct soft_warning; wp_steps; try done.
  all: cbn in *; bool_props; rewrite <- eq_None_not_Some in *.
  all: unfold frozen, warned; cbn; rewrite ?lookup_insert_ne by done; rewrite ?lookup_insert_eq.
  all: split_and!; try done; try by apply settings_grow_insert.
  all: try (intros Hal m i; rewrite !lookup_insert_ne by done; apply Hal).
  etransitivity; [|by apply settings_grow_insert]. by apply settings_grow_insert.
Qed.

(** The row and the settings of a reservation, whatever was decided. *)
Lemma good_reservation db db' id r :
  budget_ok hard db → reservations db !! id = None → reservation_check r = true →
  settings_grow (settings db) (settings db') → alerts_ok (settings db') →
  frozen (rv_month_key r) db' = frozen (rv_month_key r) db →
  db' = mkBudgetDB (<[id := r]> (reservations db)) (calls db) (ledger db) (settings db') →
  (is_open (rv_state r) = true → frozen (rv_month_key r) db = false) →
  (weight (rv_month_key r) r = 0 ∨
   weight (rv_month_key r) r + month_total (rv_month_key r) db ≤ hard) →
  (rv_outcome r = allow_soft_warning →
     warned (rv_month_key r) db = false ∧ warned (rv_month_key r) db' = true) →
  good hard db db'.
Proof.
  intros Hok Hid Hc Hsub Hal Hf Heq Ho Hw Hs.
  set (db1 := mkBudgetDB (reservations db) (calls db) (ledger db) (settings db')).
  assert (good hard db db1) as Hg1 by by apply good_settings.
  assert (good hard db1 (put_reservation id r db1)) as Hg2.
  { apply good_new_row; try done; [apply Hg1| |].
    - intros H%Ho. rewrite <- H, <- Hf. done.
    - intros H%Hs. destruct H as [Hn Hy]. split; [done|]. intros i x Hx Hsx Hm.
      apply (ok_warned _ _ Hok i x Hx) in Hsx. congruence. }
  rewrite Heq. exact (good_trans _ _ _ _ Hg1 Hg2).
Qed.

Lemma reserve_locked_spec request purpose id now priced db :
  budget_ok hard db →
  wp (reserve_locked hard soft expiry request purpose id now priced)
    (λ b db', good hard db db' ∧ reserved_as request id priced b db db') (λ _ _, True) db.
Proof.
  intros Hok. unfold reserve_locked. cbn zeta. set (month := rq_month_key request).
  apply wp_bind, wp_lift; [intros _ _|done]. apply wp_bind, wp_gets. apply wp_bind, wp_gets.
  apply wp_bind, wp_lift; [intros total Htotal|done].
  apply add_rows_total in Htotal as [Htotal _]. rewrite month_rows_total, Z.add_0_l in Htotal.
  set (authoritative := match priced with None => 0 | Some (q, _) => q_amount_micros_sgd q end).
  apply wp_bind, wp_raise_if; [intros _|done].
  apply wp_bind, wp_lift; [intros projected Hproj|done].
  assert (projected = total + authoritative) as Hp.
  { destruct (checked_add _ _ _) eqn:Hadd; [|done]. apply checked_add_Ok in Hadd.
    injection Hproj as <-. lia. }
  apply wp_bind, wp_gets. cbn beta.
  set (outcome := decide_outcome hard soft (frozen month db) (warned month db)
                    (bool_decide (is_Some priced)) projected).
  set (state := if allowed outcome then reserved else denied).
  set (amount := if allowed outcome then authoritative else 0).
  set (persisted := match outcome with
    deny_unknown_price | deny_cloud_egress_frozen => None | _ => priced end).
  apply wp_bind. set (r := mkReservation _ _ _ _ _ _ _ _ _ _ _ _ _ _ _ _ _ _ _).
  unfold insert_reservation. apply wp_bind, wp_gets.
  apply wp_bind, wp_raise_if; [intros Hfresh|done].
  apply wp_bind, wp_raise_if; [intros _|done]. apply wp_bind, wp_raise_if; [intros Hc|done].
  bool_props. rewrite <- eq_None_not_Some in Hfresh. apply wp_modify.
  apply (wp_assoc (insert_setting _ _)).
  apply wp_bind. eapply wp_mono; [apply reserve_settings_spec| |done].
  intros _ db' (Hsub & Hfz & Hal & Hwarn & Hdb'). apply wp_lift; [|done]. intros b Hb.
  specialize (Hal (ok_alerts _ _ Hok)).
  apply make_budget_reservation_Ok in Hb. subst b.
  assert (rv_month_key r = month ∧ rv_outcome r = outcome ∧
    rv_state r = (if allowed outcome then reserved else denied) ∧
    rv_reserved r = if allowed outcome then authoritative else 0) as (Hm & Hout & Hst & Hres) by done.
  split.
  - eapply good_reservation with (r := r); try done; rewrite ?Hm, ?Hout, ?Hst.
    + intros Ho. apply (decide_outcome_allowed (frozen month db) (warned month db)
        (bool_decide (is_Some priced)) projected). fold outcome. by destruct (allowed outcome).
    + destruct (allowed outcome) eqn:Ha.
      * right. apply decide_outcome_allowed in Ha as (_ & _ & Hle).
        rewrite weight_open by by rewrite Hst. rewrite bool_decide_eq_true_2, Hres by done. lia.
      * left. unfold weight. rewrite Hst. by rewrite andb_false_r.
    + intros Hs. split; [by apply decide_outcome_soft in Hs|].
      apply Hwarn. by apply bool_decide_eq_true.
  - unfold reserved_as. cbn. fold month. fold authoritative. rewrite <- Htotal, <- Hp.
    split_and!; try done. exists r. rewrite Hdb'. by split_and!.
Qed.
Lemma safe_reserve request id now : safe hard (reserve catalog hard soft expiry request id now).
Proof.
  unfold reserve. keeps_steps. intros db Hok.
  eapply wp_mono; [by apply reserve_locked_spec|by intros ? ? []|done].
Qed.

Lemma keeps_reconcile_rows now rows : keeps hard (reconcile_rows hard now rows).
Proof.
  induction rows as [|[id r] rows IH]; simpl; [apply keeps_ret|].
  apply keeps_bind; [|intros; keeps_steps].
  unfold reconcile_row, through. keeps_steps.
  - apply keeps_try_raise; [apply keeps_release_locked|by intros].
  - apply keeps_try_raise; [|by intros e db; destruct (quarantine_reason e)].
    keeps_steps. apply keeps_settle_locked.
Qed.

Lemma safe_reconcile_batch batch cutoff now : safe hard (_reconcile_batch hard batch cutoff now).
Proof.
  unfold _reconcile_batch, reconcile_locked. apply safe_try.
  - apply safe_in_uow. keeps_steps. apply keeps_reconcile_rows.
  - intros []; keeps_steps. apply safe_freeze.
Qed.

End GuardSteps.

(** ** Runs *)

Section System.
Context `{BS : BudgetServices} `{CS : CallServices}.
Context (catalog : PriceCatalog) (hard soft expiry : Z).

(** One operation of any of the services, with its clock readings and fresh ids;
    it may return or raise.  [OpSetting] is another service writing or deleting a
    setting of its own, such as a persisted route. *)
Inductive operation :=
| OpReserve (request : BudgetReservationRequest) (reservation_id : UUID) (now : Z)
| OpMarkSent (reservation_id attempt_id : UUID) (now : Z)
| OpSettle (reservation_id attempt_id : UUID) (now : Z)
| OpReleaseUnsent (reservation_id attempt_id : UUID) (proof : TransportProof) (now : Z)
| OpReconcileTurn (turn_id : UUID) (proofs : list TransportProof) (clock : nat → Z)
| OpReconcileBatch (batch_size : nat) (restart_cutoff : option Z) (now : Z)
| OpBegin (route : RouteAuthorization) (consumption : RouteConsumption)
    (redaction_receipt_id : option UUID) (call_id : UUID) (now : Z)
| OpMarkNetwork (call_id : UUID)
| OpFinish (call_id : UUID) (outcome : CallOutcome) (route : RouteAuthorization)
    (receipt : option ProviderUsageReceipt) (now : Z)
| OpRecordResponse (route : RouteAuthorization) (response : string * string)
    (provider_usage_receipt_id : option UUID) (table : ReceiptTable) (now : Z)
| OpRevoke (subject_id : UUID) (now : Z)
| OpSettleConservative (ids : list UUID) (now : Z)
| OpSetting (key : SettingKey) (value : option SettingValue).

Definition perform (o : operation) (db : BudgetDB) : BudgetDB :=
  match o with
  | OpReserve request id now => (reserve catalog hard soft expiry request id now db).2
  | OpMarkSent id attempt now => (mark_sent id attempt now db).2
  | OpSettle id attempt now => (settle hard id attempt now db).2
  | OpReleaseUnsent id attempt proof now => (release_unsent id attempt proof now db).2
  | OpReconcileTurn turn proofs clock => (reconcile_turn hard turn proofs clock db).2
  | OpReconcileBatch batch cutoff now => (_reconcile_batch hard batch cutoff now db).2
  | OpBegin route consumption receipt call_id now =>
    (begin route consumption receipt call_id now db).2
  | OpMarkNetwork call_id => (mark_network_invocation_starting call_id db).2
  | OpFinish call_id outcome route receipt now =>
    (finish call_id outcome route receipt now db).2
  | OpRecordResponse route response usage_id table now => (record route response usage_id table now db).2
  | OpRevoke subject now => (reconcile_revoked_subject_once subject now db).2
  | OpSettleConservative ids now => (settle_conservative_once ids now db).2
  | OpSetting key value =>
    if budget_key key then db
    else mkBudgetDB (reservations db) (calls db) (ledger db)
           (partial_alter (λ _, value) key (settings db))
  end.

Definition run (ops : list operation) (db : BudgetDB) : BudgetDB := foldl (flip perform) db ops.

Lemma safe_run {A} (m : B A) db : safe hard m → budget_ok hard db → good hard db (m db).2.
Proof. intros Hm Hok. specialize (Hm db Hok). unfold wp in Hm. by destruct (m db) as [[?|?] ?]. Qed.

Lemma good_other_setting db key value :
  budget_ok hard db → budget_key key = false →
  good hard db (mkBudgetDB (reservations db) (calls db) (ledger db)
                  (partial_alter (λ _, value) key (settings db))).
Proof.
  intros Hok Hk. apply good_settings; [done| |].
  - intros k v Hb Hv. rewrite lookup_partial_alter_ne; [done|congruence].
  - intros m i. rewrite !lookup_partial_alter_ne by (by intros ->). apply Hok.
Qed.

Lemma perform_good o db : budget_ok hard db → good hard db (perform o db).
Proof.
  intros Hok. destruct o; simpl.
  13: { destruct (budget_key key) eqn:Hk; [by apply good_refl|by apply good_other_setting]. }
  all: apply safe_run; try done.
  - apply safe_reserve.
  - apply safe_mark_sent.
  - apply safe_settle.
  - apply safe_release_unsent.
  - apply safe_reconcile_turn.
  - apply safe_reconcile_batch.
  - apply safe_begin.
  - apply safe_mark_network.
  - apply safe_finish.
  - apply safe_record.
  - apply safe_revoke.
  - apply safe_settle_conservative_once.
Qed.

Lemma run_good ops db : budget_ok hard db → good hard db (run ops db).
Proof.
  revert db. induction ops as [|o ops IH]; intros db Hok; [by apply good_refl|].
  pose proof (perform_good o db Hok) as Hg. exact (good_trans _ _ _ _ Hg (IH _ (proj1 Hg))).
Qed.

Lemma empty_ok : 0 ≤ hard → budget_ok hard empty_budget.
Proof.
  intros Hh. split; cbn; try done.
  - intros month. left. unfold month_total. cbn. by rewrite map_to_list_empty.
  - intros month id. cbn. rewrite lookup_empty. by intros [? [=]].
Qed.
End System.
