(* ===== verification/BudgetTheorems.v ===== *)
(** * What the budget promises

    The claims about runs of the budget services, from the empty store and over
    any sequence of operations, and the behaviour of the single operations on a
    store a run has reached. *)

From stdpp Require Import sorting.
From S2P Require Import Prelude PttFraming BudgetPricing BudgetLedger BudgetGuard ProviderCalls BudgetReconciler BudgetSafety.

Section Runs.
Context `{BS : BudgetServices} `{CS : CallServices}.
Context (catalog : PriceCatalog) (hard soft expiry : Z).

(** The store after a run from the empty one. *)
Definition reach (ops : list operation) : BudgetDB := run catalog hard soft expiry ops empty_budget.

Lemma reach_ok ops : 0 ≤ hard → budget_ok hard (reach ops).
Proof. intros Hh. apply run_good. by apply empty_ok. Qed.

Lemma reach_evolves ops ops' : 0 ≤ hard → evolves (reach ops) (reach (ops ++ ops')).
Proof.
  intros Hh. unfold reach, run at 2. rewrite foldl_app. apply (run_good catalog hard soft expiry ops').
  by apply reach_ok.
Qed.

(** C1: whatever the services do, in every month the charges of settled reservations plus
    the ceilings of open ones stay within the hard limit, unless the month's cloud egress
    has been frozen. *)
Theorem budget_hard_cap ops month :
  0 ≤ hard →
  month_total month (reach ops) ≤ hard ∨ frozen month (reach ops) = true.
Proof. intros Hh. by apply (ok_cap _ _ (reach_ok ops Hh)). Qed.

(** C16: a freeze is final for its month: it is never lifted, no reservation of the month is
    opened after it, and none that was not already sent is marked sent. *)
Theorem budget_freeze_final ops ops' month :
  0 ≤ hard → frozen month (reach ops) = true →
  frozen month (reach (ops ++ ops')) = true ∧
  ∀ id r', reservations (reach (ops ++ ops')) !! id = Some r' →
    rv_month_key r' = month → is_open (rv_state r') = true →
    ∃ r, reservations (reach ops) !! id = Some r ∧ is_open (rv_state r) = true ∧
      (rv_state r' = sent → rv_state r = sent).
Proof.
  intros Hh Hf. pose proof (reach_evolves ops ops' Hh) as He. split.
  - eapply frozen_mono; [apply He|done].
  - intros id r' Hr' <- Ho. by apply (ev_frozen _ _ He id r').
Qed.

(** C39: a settled, released or denied reservation and a ledger row are final: no operation
    changes them, so a reservation is settled at most once.  A provider call with an outcome is
    final but for the commitment to its response: recording a response writes that column, of a
    call that succeeded, and only while it is empty, so at most once. *)
Theorem budget_terminal_final ops ops' :
  0 ≤ hard →
  (∀ id r, reservations (reach ops) !! id = Some r → terminal (rv_state r) = true →
     reservations (reach (ops ++ ops')) !! id = Some r) ∧
  (∀ id c, calls (reach ops) !! id = Some c → cl_outcome c ≠ started →
     calls (reach (ops ++ ops')) !! id = Some c ∨
     cl_outcome c = succeeded ∧ cl_response c = None ∧
     ∃ response, calls (reach (ops ++ ops')) !! id = Some (set_call_response response c)) ∧
  ledger (reach ops) ⊆ ledger (reach (ops ++ ops')).
Proof.
  intros Hh. pose proof (reach_evolves ops ops' Hh) as He. split_and!; [| |apply He].
  - intros id r Hr Ht. destruct (ev_rows _ _ He id r Hr) as (r' & Hr' & Hrr).
    by rewrite (re_terminal _ _ Hrr Ht) in Hr'.
  - intros id c Hc Hs. destruct (ev_calls _ _ He id c Hc) as (c' & Hc' & _ & _ & Hcc & _).
    destruct (Hcc Hs) as [->|(Ho & Hn & x & ->)]; [by left|right; eauto].
Qed.

(** Every ledger row belongs to a settled reservation of the same month with the same
    reserved and charged amounts, and is marked an overrun exactly when it charged more. *)
Theorem budget_ledger_exact ops id l :
  0 ≤ hard → ledger (reach ops) !! id = Some l →
  ∃ r, reservations (reach ops) !! id = Some r ∧ rv_state r = settled ∧
    le_month_key l = rv_month_key r ∧ le_reserved l = rv_reserved r ∧
    rv_charged r = Some (le_charged l) ∧
    le_estimate_overrun l = (le_reserved l <? le_charged l).
Proof.
  intros Hh Hl. destruct (ok_ledger _ _ (reach_ok ops Hh) id l Hl) as (r & Hr & Hs & Hc).
  unfold ledger_check in Hc. bool_props. exists r.
  match goal with K : Bool.eqb _ _ = true |- _ => apply eqb_prop in K end. by split_and!.
Qed.

(** The soft warning is given at most once a month. *)
Theorem budget_soft_warning_once ops id1 id2 r1 r2 :
  0 ≤ hard →
  reservations (reach ops) !! id1 = Some r1 → reservations (reach ops) !! id2 = Some r2 →
  rv_outcome r1 = allow_soft_warning → rv_outcome r2 = allow_soft_warning →
  rv_month_key r1 = rv_month_key r2 → id1 = id2.
Proof. intros Hh. exact (ok_once _ _ (reach_ok ops Hh) id1 id2 r1 r2). Qed.

(** A reservation that is returned was decided on the month's total and the authoritative
    price alone: denied when frozen, unpriced or over the hard limit, allowed otherwise with
    the price as its ceiling, with a warning the first time the soft limit is passed; the
    stored row says the same. *)
Theorem reserve_decides ops request id now b db' :
  0 ≤ hard →
  reserve catalog hard soft expiry request id now (reach ops) = (Ok b, db') →
  rq_month_key request = singapore_month_key now ∧
  ∃ priced, quoted catalog request now = Ok priced ∧
    reserved_as hard soft request id priced b (reach ops) db'.
Proof.
  intros Hh Hr. unfold reserve, raise_if, mbind, M_bind, lift in Hr.
  destruct (bool_decide _) eqn:Hm; [|discriminate Hr]. bool_props. split; [done|]. cbn in Hr.
  destruct (purpose_of _) as [purpose|]; [|discriminate Hr].
  destruct (quoted catalog request now) as [priced|] eqn:Hq; [|done].
  exists priced. split; [done|]. unfold in_uow in Hr.
  pose proof (reserve_locked_spec hard soft expiry request purpose id now priced _ (reach_ok ops Hh))
    as Hspec. unfold wp in Hspec.
  destruct (reserve_locked _ _ _ _ _ _ _ _ _) as [[b'|] d]; [|done]. injection Hr as <- <-.
  apply Hspec.
Qed.

(** C29: a settlement that is returned closes one open reservation and writes its ledger row;
    an estimated charge is the full ceiling, never an overrun; and cloud egress is reported
    frozen, and is, exactly when the charge exceeds the ceiling or the month the hard limit. *)
Theorem settle_closes ops id attempt now s db' :
  0 ≤ hard →
  settle hard id attempt now (reach ops) = (Ok s, db') →
  ∃ r, reservations (reach ops) !! id = Some r ∧ rv_attempt_id r = attempt ∧
    settleable r = true ∧ settled_as hard id now s r (reach ops) db'.
Proof.
  intros Hh Hs. unfold settle, try_except, in_uow in Hs.
  pose proof (settle_locked_spec hard id attempt now _ (reach_ok ops Hh)) as Hspec. unfold wp in Hspec.
  destruct (_settle_locked _ _ _ _ _) as [[s'|e] d].
  - injection Hs as <- <-. apply Hspec.
  - destruct (quarantine_reason e); [|done]. unfold mbind, M_bind in Hs.
    by destruct (_freeze_evidence_quarantine _ _ _ _ _) as [[?|?] ?].
Qed.

Lemma freeze_spec id attempt reason r db :
  budget_ok hard db → reservations db !! id = Some r → rv_attempt_id r = attempt →
  wp (_freeze_evidence_quarantine hard id attempt reason)
    (λ _ db', frozen (rv_month_key r) db' = true ∧ reservations db' = reservations db ∧
       ledger db' = ledger db)
    (λ e db', frozen (rv_month_key r) db = true ∧ db' = db ∧
       e = denied_ "budget_owner_alert_insert_failed") db.
Proof.
  intros Hok Hr Ha. unfold _freeze_evidence_quarantine, in_uow, wp, mbind, M_bind, gets.
  rewrite Hr, Ha, Z.eqb_refl.
  pose proof (record_freeze_spec hard (rv_month_key r) reason None id db (ok_alerts _ _ Hok)) as Hs.
  unfold wp in Hs. destruct (_record_freeze _ _ _ _ _ _) as [[?|?] db'].
  - destruct Hs as (? & _ & _ & ->). done.
  - by destruct Hs as [? ->].
Qed.

(** When the evidence for a charge is missing, contradictory or out of range, the
    settlement fails closed: it raises, changes neither reservations nor the ledger, and
    the month is frozen afterwards. *)
Theorem settle_fails_closed ops id now r e d reason :
  0 ≤ hard → reservations (reach ops) !! id = Some r →
  _settle_locked hard id (rv_attempt_id r) now (reach ops) = (Raise e, d) →
  quarantine_reason e = Some reason →
  ∃ msg db', settle hard id (rv_attempt_id r) now (reach ops) = (Raise (denied_ msg), db') ∧
    frozen (rv_month_key r) db' = true ∧ reservations db' = reservations (reach ops) ∧
    ledger db' = ledger (reach ops).
Proof.
  intros Hh Hr He Hq. unfold settle, try_except, in_uow. rewrite He, Hq.
  pose proof (freeze_spec id (rv_attempt_id r) reason r _ (reach_ok ops Hh) Hr eq_refl) as Hs.
  unfold wp in Hs. unfold mbind, M_bind.
  destruct (_freeze_evidence_quarantine _ _ _ _ _) as [[?|?] db'].
  - exists reason, db'. by destruct Hs as (?&?&?).
  - destruct Hs as (?&->&->). eexists _, _. done.
Qed.
End Runs.

(** ** When a reservation is returned *)

Section Returns.
Context `{BS : BudgetServices} `{CS : CallServices}.
Context (catalog : PriceCatalog) (hard soft expiry : Z).

Lemma add_rows_returns e rows start :
  0 ≤ start →
  (∀ r, r ∈ rows → ∃ a, effective_amount r = Some a ∧ 0 ≤ a) →
  start + sum_with (λ r, default 0 (effective_amount r)) rows ≤ MAX_AGGREGATE_MICROS_SGD →
  add_rows e rows start = Ok (start + sum_with (λ r, default 0 (effective_amount r)) rows).
Proof.
  revert start. induction rows as [|r rows IH]; intros start Hs Hr Hle; simpl in *.
  { f_equal. lia. }
  destruct (Hr r) as (a & Ha & H0); [left|]. rewrite Ha in *. simpl in *.
  assert (∀ x, x ∈ rows → ∃ b, effective_amount x = Some b ∧ 0 ≤ b) as Hrest.
  { intros x Hx. apply Hr. by right. }
  assert (0 ≤ sum_with (λ r, default 0 (effective_amount r)) rows) as Hpos.
  { clear - Hrest. induction rows as [|x rows IH]; simpl; [lia|].
    destruct (Hrest x) as (b & -> & ?); [left|]. simpl.
    assert (0 ≤ sum_with (λ r, default 0 (effective_amount r)) rows); [|lia].
    apply IH. intros y Hy. apply Hrest. by right. }
  rewrite (proj2 (checked_add_Ok start a MAX_AGGREGATE_MICROS_SGD (start + a))) by lia.
  rewrite IH by (done || lia). f_equal. lia.
Qed.

Lemma checked_amount r :
  reservation_check r = true → counts (rv_state r) = true →
  ∃ a, effective_amount r = Some a ∧ 0 ≤ a.
Proof.
  intros Hc Hs. unfold effective_amount. pose proof (check_reserved r Hc).
  destruct (rv_state r) eqn:Hst; try done; eauto.
  destruct (rv_charged r) as [c|] eqn:Hch; [by eapply check_charged in Hch; eauto|].
  unfold reservation_check in Hc. rewrite Hst, Hch in Hc. bool_props.
  match goal with K : is_Some None |- _ => by destruct K end.
Qed.

Lemma month_rows_checked month db r :
  budget_ok hard db → r ∈ month_rows month None db → ∃ a, effective_amount r = Some a ∧ 0 ≤ a.
Proof.
  intros Hok Hr. unfold month_rows in Hr.
  apply list_elem_of_fmap in Hr as ([i x] & -> & Hx).
  apply list_elem_of_filter in Hx as [(_ & Hc & _) Hx]. apply elem_of_map_to_list in Hx.
  apply checked_amount; [|done]. by apply (ok_rows _ _ Hok i x).
Qed.

Lemma month_total_nonneg month db : budget_ok hard db → 0 ≤ month_total month db.
Proof.
  intros Hok. unfold month_total.
  assert (∀ p : UUID * Reservation, p ∈ map_to_list (reservations db) → 0 ≤ weight month p.2) as Hw.
  { intros [i r] Hr%elem_of_map_to_list. apply weight_nonneg. by apply (ok_rows _ _ Hok i r). }
  revert Hw. induction (map_to_list _) as [|p l IH]; intros Hw; simpl; [lia|].
  pose proof (Hw p ltac:(left)). assert (∀ q : UUID * Reservation, q ∈ l → 0 ≤ weight month q.2) as Hl.
  { intros q Hq. apply Hw. by right. }
  specialize (IH Hl). lia.
Qed.

(** The row [reserve_locked] inserts passes the table's constraints. *)
Lemma reserved_row_check request (outcome : BudgetOutcome) amount pricing now :
  0 < expiry → 0 ≤ amount ≤ MAX_CHARGE_MICROS_SGD →
  match outcome with
  | allow | allow_soft_warning => 1 ≤ amount ∧ is_Some pricing
  | deny_hard_limit => amount = 0 ∧ is_Some pricing
  | _ => amount = 0 ∧ pricing = None
  end →
  reservation_check (mkReservation (rq_request_id request) (rq_attempt_id request)
    (rq_month_key request) (rq_category request) (rq_provider request) (rq_model request) outcome
    (rq_usage_ceiling request) amount None pricing false
    (if allowed outcome then reserved else denied) 1 not_claimed now (now + expiry) None None) = true.
Proof.
  intros He Ha Hp. unfold reservation_check. cbn [rv_reserved rv_charged rv_ordering_version
    rv_outcome rv_pricing rv_state rv_settled_at rv_estimate_overrun rv_created_at rv_expires_at].
  rewrite (proj2 (between_spec 0 amount _) Ha).
  assert ((now <? now + expiry) = true) as -> by (apply Z.ltb_lt; lia).
  destruct outcome; destruct Hp as [H1 H2].
  1,2: destruct H2 as [? ->]; assert ((1 <=? amount) = true) as -> by lia; done.
  - subst amount. by destruct H2 as [? ->].
  - by subst amount pricing.
  - by subst amount pricing.
Qed.

Lemma quoted_returns request now :
  (∀ q, match issue_pricing_snapshot request q with
        | Ok _ => True | Raise e => caught_by_reserve e = true end) →
  ∃ priced, quoted catalog request now = Ok priced ∧
    ∀ q s, priced = Some (q, s) → 0 < q_amount_micros_sgd q ≤ MAX_CHARGE_MICROS_SGD.
Proof.
  intros Hissue. unfold quoted.
  pose proof (quote_errors catalog now (rq_provider request) (rq_model request)
    (rq_usage_ceiling request)) as Herr.
  destruct (quote _ _ _ _ _) as [q|e] eqn:Hq; simpl.
  - specialize (Hissue q). destruct (issue_pricing_snapshot request q) as [s|e]; simpl.
    + exists (Some (q, s)). split; [done|]. intros ? ? [= <- <-]. by apply quote_facts in Hq as [_ Hq].
    + rewrite Hissue. by exists None.
  - exists None. by destruct e.
Qed.

(** The answer of [reserve_locked] has the shape its contract asks for. *)
Lemma reservation_answer id request outcome amount (priced : option (PriceQuote * SignedPricingSnapshot)) at_ :
  (allowed outcome = true → 0 < amount) → (allowed outcome = false → amount = 0) →
  (outcome ≠ deny_unknown_price → outcome ≠ deny_cloud_egress_frozen → is_Some priced) →
  ∃ b, make_budget_reservation (mkBudgetReservation id (rq_request_id request)
    (rq_attempt_id request) outcome amount
    (match (match outcome with deny_unknown_price | deny_cloud_egress_frozen => None
            | _ => priced end) with None => None | Some (_, s) => Some (sp_commitment s) end) at_) = Ok b.
Proof.
  intros Hp Hz Hs. unfold make_budget_reservation. cbn [br_outcome br_pricing_commitment
    br_amount_micros_sgd].
  destruct outcome; cbn in *.
  1,2: destruct Hs as [[q s] ->]; [done..|]; simpl;
    assert ((0 <? amount) = true) as -> by (apply Z.ltb_lt; auto); eauto.
  1: destruct Hs as [[q s] ->]; [done..|]; simpl.
  all: rewrite Hz by done; eauto.
Qed.

(** What the decision says of the price. *)
Lemma decide_outcome_priced is_frozen is_warned (priced : option (PriceQuote * SignedPricingSnapshot))
    projected :
  let o := decide_outcome hard soft is_frozen is_warned (bool_decide (is_Some priced)) projected in
  o ≠ deny_unknown_price → o ≠ deny_cloud_egress_frozen → is_Some priced.
Proof.
  cbn zeta. unfold decide_outcome. destruct is_frozen; [done|].
  destruct priced; [eauto|]. by rewrite bool_decide_eq_false_2 by (by intros [? [=]]).
Qed.

Lemma insert_reservation_returns id r db (Q : unit → BudgetDB → Prop) :
  reservations db !! id = None →
  (∀ i x, reservations db !! i = Some x → rv_attempt_id x ≠ rv_attempt_id r) →
  reservation_check r = true → Q tt (put_reservation id r db) →
  wp (insert_reservation id r) Q (λ _ _, False) db.
Proof.
  intros Hid Hattempt Hc HQ. unfold insert_reservation. apply wp_bind, wp_gets. cbn beta. rewrite Hid.
  apply wp_bind, wp_raise_if; [intros _|by rewrite bool_decide_eq_false_2 by (by intros [? [=]])].
  apply wp_bind, wp_raise_if; [intros _|].
  2: { rewrite bool_decide_eq_true_2; [done|]. intros i x Hx. by eapply Hattempt. }
  apply wp_bind, wp_raise_if; [intros _|by rewrite Hc]. by apply wp_modify.
Qed.

Lemma insert_setting_returns k v db (Q : unit → BudgetDB → Prop) :
  settings db !! k = None → Q tt (put_setting k v db) →
  wp (insert_setting k v) Q (λ _ _, False) db.
Proof.
  intros Hk HQ. unfold insert_setting. apply wp_bind, wp_gets. cbn [Datatypes.id]. rewrite Hk.
  apply wp_bind, wp_raise_if; [intros _|by rewrite bool_decide_eq_false_2 by (by intros [? [=]])].
  by apply wp_modify.
Qed.

Definition authoritative_amount (priced : option (PriceQuote * SignedPricingSnapshot)) : Z :=
  match priced with None => 0 | Some (q, _) => q_amount_micros_sgd q end.

(** The month's total and the projection are within the arithmetic. *)
Lemma projection_returns month db amount missing :
  budget_ok hard db → 0 ≤ amount ≤ MAX_CHARGE_MICROS_SGD →
  month_total month db + MAX_CHARGE_MICROS_SGD ≤ MAX_AGGREGATE_MICROS_SGD →
  add_rows missing (month_rows month None db) 0 = Ok (month_total month db) ∧
  checked_add (month_total month db) amount MAX_AGGREGATE_MICROS_SGD
    = Ok (month_total month db + amount).
Proof.
  intros Hok Ha Hroom. assert (0 ≤ month_total month db) by by apply month_total_nonneg.
  split; [|apply checked_add_Ok; lia].
  rewrite add_rows_returns; rewrite ?month_rows_total; [done|lia| |lia].
  intros r Hr. by eapply month_rows_checked.
Qed.

Lemma reserve_locked_returns request purpose id now priced db :
  budget_ok hard db → 0 < expiry →
  require_current_review (rq_provider request) (rq_model request) purpose now = Ok tt →
  (∀ q s, priced = Some (q, s) → 0 < q_amount_micros_sgd q ≤ MAX_CHARGE_MICROS_SGD) →
  reservations db !! id = None → settings db !! TurnKey id = None →
  (∀ i r, reservations db !! i = Some r → rv_attempt_id r ≠ rq_attempt_id request) →
  month_total (rq_month_key request) db + MAX_CHARGE_MICROS_SGD ≤ MAX_AGGREGATE_MICROS_SGD →
  wp (reserve_locked hard soft expiry request purpose id now priced)
    (λ _ _, True) (λ _ _, False) db.
Proof.
  intros Hok He Hrev Hpriced Hid Hturn Hattempt Hroom. unfold reserve_locked. cbn zeta.
  set (month := rq_month_key request) in *. fold (authoritative_amount priced).
  set (amount := authoritative_amount priced).
  assert (0 ≤ amount ≤ MAX_CHARGE_MICROS_SGD) as Hau.
  { subst amount. destruct priced as [[q s]|]; [|done]. specialize (Hpriced q s eq_refl). simpl. lia. }
  destruct (projection_returns month db amount (denied_ "budget_terminal_amount_missing") Hok Hau Hroom)
    as [Htotal Hproj].
  apply wp_bind. rewrite Hrev. apply wp_lift; [intros _ _|done].
  apply wp_bind, wp_gets. apply wp_bind, wp_gets. apply wp_bind. rewrite Htotal.
  apply wp_lift; [intros total [= <-]|done].
  apply wp_bind, wp_raise_if; [intros _|by rewrite (proj2 (between_spec _ _ _) Hau)].
  apply wp_bind. rewrite Hproj. apply wp_lift; [intros projected _|done].
  apply wp_bind, wp_gets. cbn beta. set (outcome := decide_outcome hard soft _ _ _ _).
  pose proof (decide_outcome_priced (frozen month db) (warned month db) priced projected) as Hsome.
  fold outcome in Hsome. cbn zeta in Hsome.
  assert (allowed outcome = true → 0 < amount) as Hpos.
  { intros Ha. destruct Hsome as [[q s] Hq]; [by intros K; rewrite K in Ha..|].
    subst amount. rewrite Hq. by apply (Hpriced q s). }
  apply wp_bind. apply insert_reservation_returns; [done|done| |].
  { apply reserved_row_check; [done|destruct (allowed outcome); lia|].
    destruct outcome; simpl in *; split; try lia; try done;
      destruct Hsome as [[q s] ->]; eauto; done. }
  apply wp_bind, insert_setting_returns; [done|]. apply wp_bind.
  apply (wp_mono _ (λ _ _, True) _ (λ _ _, False)); [|intros _ ? _|done].
  - case_bool_decide as Hs; [|done]. apply insert_setting_returns; [|done].
    apply decide_outcome_soft in Hs. unfold warned in Hs. bool_props.
    cbn. rewrite lookup_insert_ne by done. by apply eq_None_not_Some.
  - destruct (reservation_answer id request outcome (if allowed outcome then amount else 0) priced
      (now + expiry)) as [b Hb]; [destruct (allowed outcome); auto; done..|done|].
    rewrite Hb. by apply wp_lift.
Qed.

(** A reservation request is answered: with a current review, a fresh id and attempt and a
    month whose total leaves the arithmetic room, [reserve] returns a decision; no
    missing price, stale catalog or refused snapshot makes it raise. *)
Theorem reserve_returns ops request id now purpose :
  0 ≤ hard → 0 < expiry →
  rq_month_key request = singapore_month_key now →
  purpose_of (rq_category request) = Some purpose →
  require_current_review (rq_provider request) (rq_model request) purpose now = Ok tt →
  (∀ q, match issue_pricing_snapshot request q with
        | Ok _ => True | Raise e => caught_by_reserve e = true end) →
  reservations (reach catalog hard soft expiry ops) !! id = None →
  settings (reach catalog hard soft expiry ops) !! TurnKey id = None →
  (∀ i r, reservations (reach catalog hard soft expiry ops) !! i = Some r →
     rv_attempt_id r ≠ rq_attempt_id request) →
  month_total (rq_month_key request) (reach catalog hard soft expiry ops) + MAX_CHARGE_MICROS_SGD
    ≤ MAX_AGGREGATE_MICROS_SGD →
  ∃ b db', reserve catalog hard soft expiry request id now (reach catalog hard soft expiry ops)
           = (Ok b, db').
Proof.
  intros Hh He Hm Hp Hrev Hissue Hid Hturn Hattempt Hroom.
  destruct (quoted_returns request now Hissue) as (priced & Hq & Hpriced).
  pose proof (reserve_locked_returns request purpose id now priced _
    (reach_ok catalog hard soft expiry ops Hh) He Hrev Hpriced Hid Hturn Hattempt Hroom) as Hw.
  unfold reserve, mbind, M_bind, raise_if, lift. rewrite bool_decide_eq_true_2, Hp, Hq by done. cbn.
  unfold wp in Hw. unfold in_uow. destruct (reserve_locked _ _ _ _ _ _ _ _ _) as [[b|] db']; [|done].
  eauto.
Qed.
End Returns.

(** ** The reconciler *)

Section Reconcile.
Context `{BS : BudgetServices} (hard : Z) (batch_size : nat).

Lemma release_locked_spec id attempt now db :
  wp (_release_unsent_locked id attempt now)
    (λ _ db', ∃ r, reservations db !! id = Some r ∧ rv_attempt_id r = attempt ∧
       reservations db' = <[id := set_released now r]> (reservations db))
    (λ _ _, True) db.
Proof.
  unfold _release_unsent_locked, update_call. wp_steps; try done.
  all: eapply wp_mono; [apply wp_update_reservation with (Q := λ n d,
    n = 1 → reservations d = <[id := set_released now r]> (reservations db)); [|done]| |done].
  all: cbn; try (intros x Hx _ _ _ _; by simplify_eq).
  all: intros n d Hd; wp_steps; try done; bool_props; eauto.
Qed.

(** One row closed: it is terminal afterwards, the others are untouched. *)
Lemma reconcile_row_spec now id r db :
  budget_ok hard db → reservations db !! id = Some r →
  wp (reconcile_row hard now (id, r))
    (λ _ db', good hard db db' ∧
       ∃ r', reservations db' = <[id := r']> (reservations db) ∧ terminal (rv_state r') = true)
    (λ _ _, True) db.
Proof.
  intros Hok Hr. unfold reconcile_row. apply wp_bind, wp_gets. apply wp_bind, wp_raise_if; [intros _|done].
  destruct (proven_unsent r _); unfold wp, through, try_except, mbind, M_bind.
  - pose proof (release_locked_spec id (rv_attempt_id r) now db) as Hs.
    pose proof (keeps_release_locked hard id (rv_attempt_id r) now db Hok) as Hk. unfold wp in Hs, Hk.
    destruct (_release_unsent_locked _ _ _ _) as [[?|?] db']; [|done].
    destruct Hs as (x & _ & _ & Hx). split; [done|]. by exists (set_released now x).
  - pose proof (settle_locked_spec hard id (rv_attempt_id r) now db Hok) as Hs. unfold wp in Hs.
    destruct (_settle_locked _ _ _ _ _) as [[?|e] db']; [|by destruct (quarantine_reason e)].
    destruct Hs as (? & x & _ & _ & _ & Hx & _). split; [done|]. by eexists.
Qed.

(** How many reservations are open. *)
Definition open_count (db : BudgetDB) : Z :=
  sum_with (λ p : UUID * Reservation, if is_open (rv_state p.2) then 1 else 0)
    (map_to_list (reservations db)).

Lemma open_count_nonneg db : 0 ≤ open_count db.
Proof.
  unfold open_count. induction (map_to_list _) as [|p l IH]; simpl; [lia|].
  destruct (is_open _); lia.
Qed.

Lemma open_count_close db db' id r r' :
  reservations db !! id = Some r → is_open (rv_state r) = true →
  reservations db' = <[id := r']> (reservations db) → terminal (rv_state r') = true →
  open_count db' + 1 = open_count db.
Proof.
  intros Hr Ho Hdb' Ht. unfold open_count. rewrite Hdb', <- insert_delete_eq.
  rewrite <- (insert_delete_id _ _ _ Hr) at 2.
  rewrite !map_to_list_insert by apply lookup_delete_eq. cbn [sum_with snd]. rewrite Ho.
  destruct (is_open (rv_state r')) eqn:Ho'; [by destruct (is_open_not_terminal _ Ho' Ht)|lia].
Qed.

(** The rows of a batch, all open when it starts. *)
Lemma reconcile_rows_spec now rows db :
  budget_ok hard db → NoDup rows.*1 →
  (∀ p, p ∈ rows → reservations db !! p.1 = Some p.2 ∧ is_open (rv_state p.2) = true) →
  wp (reconcile_rows hard now rows)
    (λ n db', good hard db db' ∧ n = len rows ∧ open_count db' + n = open_count db ∧
       (∀ i, i ∉ rows.*1 → reservations db' !! i = reservations db !! i) ∧
       (∀ i, i ∈ rows.*1 → ∃ r', reservations db' !! i = Some r' ∧ terminal (rv_state r') = true))
    (λ _ _, True) db.
Proof.
  revert db. induction rows as [|[id r] rows IH]; intros db Hok Hnd Hin; simpl.
  { apply wp_ret. split_and!; [by apply good_refl|done|lia|done|by intros i ?%elem_of_nil]. }
  apply NoDup_cons in Hnd as [Hid Hnd]. destruct (Hin (id, r)) as [Hr Ho]; [left|].
  apply wp_bind. eapply wp_mono; [by apply reconcile_row_spec| |done].
  intros _ db1 (Hg & r' & Hdb1 & Ht). pose proof (open_count_close _ _ _ _ _ Hr Ho Hdb1 Ht).
  apply wp_bind. eapply wp_mono; [apply IH| |done]; try done.
  - apply Hg.
  - intros [i x] Hx. cbn. rewrite Hdb1, lookup_insert_ne.
    + apply (Hin (i, x)). by right.
    + intros ->. apply Hid. by apply (list_elem_of_fmap_2 fst) in Hx.
  - intros n db2 (Hg2 & -> & Hcount & Hout & Hinr). apply wp_ret. rewrite len_cons.
    split_and!; [exact (good_trans _ _ _ _ Hg Hg2)|lia|lia| |].
    + intros i [? ?]%not_elem_of_cons. rewrite Hout by done. by rewrite Hdb1, lookup_insert_ne.
    + intros i [->|Hi]%elem_of_cons; [|by apply Hinr]. cbn. rewrite Hout by done.
      rewrite Hdb1, lookup_insert_eq. eauto.
Qed.

(** ** Batches and the drain *)

Lemma due_rows_facts cutoff now db :
  NoDup (due_rows batch_size cutoff now db).*1 ∧
  (∀ p, p ∈ due_rows batch_size cutoff now db →
     reservations db !! p.1 = Some p.2 ∧ due cutoff now p.2 = true) ∧
  (len (due_rows batch_size cutoff now db) < Z.of_nat batch_size →
   ∀ id r, reservations db !! id = Some r → due cutoff now r = true →
     id ∈ (due_rows batch_size cutoff now db).*1) ∧
  len (due_rows batch_size cutoff now db) ≤ Z.of_nat batch_size.
Proof.
  unfold due_rows. set (sorted := merge_sort _ _).
  assert (sorted ≡ₚ filter (λ p : UUID * Reservation, due cutoff now p.2 = true)
    (map_to_list (reservations db))) as Hperm by apply merge_sort_Permutation.
  assert (∀ p, p ∈ sorted ↔ due cutoff now p.2 = true ∧ reservations db !! p.1 = Some p.2) as Hin.
  { intros [i x]. rewrite Hperm, list_elem_of_filter, elem_of_map_to_list. done. }
  split_and!.
  - eapply (sublist_NoDup _ sorted.*1); [|apply fmap_sublist, sublist_take].
    rewrite Hperm. eapply sublist_NoDup; [apply (NoDup_fst_map_to_list (reservations db))|].
    apply fmap_sublist, sublist_filter.
  - intros p Hp. apply elem_of_take in Hp as (i & Hi & _). apply list_elem_of_lookup_2, Hin in Hi.
    naive_solver.
  - rewrite len_take. intros Hlt id r Hr Hd. unfold len in Hlt. rewrite take_ge by lia.
    apply (list_elem_of_fmap_2 fst sorted (id, r)), Hin. done.
  - rewrite len_take. lia.
Qed.

Lemma reconcile_batch_spec cutoff now db :
  budget_ok hard db →
  wp (_reconcile_batch hard batch_size cutoff now)
    (λ n db', good hard db db' ∧ 0 ≤ n ≤ Z.of_nat batch_size ∧ open_count db' + n = open_count db ∧
       (n < Z.of_nat batch_size → ∀ id r, reservations db' !! id = Some r → due cutoff now r = false))
    (λ _ _, True) db.
Proof.
  intros Hok. destruct (due_rows_facts cutoff now db) as (Hnd & Hin & Hall & Hlen).
  unfold _reconcile_batch, reconcile_locked, wp, try_except, in_uow.
  pose proof (reconcile_rows_spec now (due_rows batch_size cutoff now db) db Hok Hnd) as Hs.
  unfold wp in Hs. unfold mbind, M_bind, gets.
  destruct (reconcile_rows _ _ _ _) as [[n|e] db'].
  - destruct Hs as (Hg & -> & Hcount & Hout & Hclosed).
    { intros p Hp. destruct (Hin p Hp) as [? Hd]. split; [done|]. unfold due in Hd. by bool_props. }
    split_and!; try done; [apply len_nonneg|]. intros Hlt id r Hr.
    destruct (decide (id ∈ (due_rows batch_size cutoff now db).*1)) as [Hi|Hi].
    + destruct (Hclosed id Hi) as (r' & Hr' & Ht). simplify_eq. unfold due.
      destruct (is_open (rv_state r)) eqn:Ho; [by destruct (is_open_not_terminal _ Ho Ht)|done].
    + rewrite Hout in Hr by done. destruct (due cutoff now r) eqn:Hd; [|done].
      by destruct Hi; eapply Hall.
  - destruct e; [done|]. by destruct (_freeze_evidence_quarantine _ _ _ _ _) as [[?|?] ?].
Qed.

(** [n] rounds that each fill their batch, the [i]-th at the reading [clock i]. *)
Fixpoint full_rounds (n : nat) (cutoff : option Z) (clock : nat → Z) (db : BudgetDB) : option BudgetDB :=
  match n with
  | O => Some db
  | S n =>
    match _reconcile_batch hard batch_size cutoff (clock O) db with
    | (Ok changed, db1) =>
      if changed =? Z.of_nat batch_size then full_rounds n cutoff (λ i, clock (S i)) db1 else None
    | (Raise _, _) => None
    end
  end.

(** The round at the reading [clock k] is the last one: those before it were full, it is not, and
    it leaves no open reservation past its boundary at that reading. *)
Definition last_round (k : nat) (cutoff : option Z) (clock : nat → Z) (db db' : BudgetDB) : Prop :=
  ∃ dbk changed, full_rounds k cutoff clock db = Some dbk ∧
    _reconcile_batch hard batch_size cutoff (clock k) dbk = (Ok changed, db') ∧
    changed < Z.of_nat batch_size ∧
    ∀ id r, reservations db' !! id = Some r → due cutoff (clock k) r = false.

Lemma drain_spec fuel cutoff clock db :
  (1 ≤ batch_size)%nat → budget_ok hard db → open_count db < Z.of_nat fuel →
  wp (drain hard batch_size fuel cutoff clock)
    (λ res db', res = Some tt ∧ ∃ k, Z.of_nat k ≤ open_count db ∧ last_round k cutoff clock db db')
    (λ _ _, True) db.
Proof.
  intros Hb. revert clock db. induction fuel as [|fuel IH]; intros clock db Hok Hf.
  { pose proof (open_count_nonneg db). lia. }
  simpl. apply wp_bind. pose proof (reconcile_batch_spec cutoff (clock 0%nat) db Hok) as Hbatch. unfold wp at 1.
  unfold wp in Hbatch. destruct (_reconcile_batch hard batch_size cutoff (clock 0%nat) db) as [[n|e] db1] eqn:Hround; [|done].
  destruct Hbatch as ([Hok1 _] & Hn & Hcount & Hdone). destruct (n =? Z.of_nat batch_size) eqn:Heq; bool_props.
  - eapply wp_mono; [apply IH; [done|lia]| |done].
    intros res db' (-> & k & Hk & dbk & changed & Hfull & Hlast). split; [done|]. exists (S k). split; [lia|].
    exists dbk, changed. split; [|done]. simpl. rewrite Hround. by rewrite (proj2 (Z.eqb_eq _ _) Heq).
  - apply wp_ret. split; [done|]. exists 0%nat. split; [apply open_count_nonneg|]. exists db, n. split; [done|].
    split; [done|]. split; [lia|]. apply Hdone. lia.
Qed.
End Reconcile.

(** C30: draining ends.  With a batch of at least one row the drain runs [k] full rounds and one
    that is not full, [k] at most the number of reservations that were open; round [i] is made at
    the [i]-th clock reading; and when it returns, no open reservation is past its boundary at the
    reading of the last round, the one that was not full. *)
Theorem drain_closes_all_due `{BS : BudgetServices, CS : CallServices} catalog hard soft expiry
    ops batch_size cutoff clock fuel res db' :
  0 ≤ hard → (1 ≤ batch_size)%nat →
  open_count (reach catalog hard soft expiry ops) < Z.of_nat fuel →
  drain hard batch_size fuel cutoff clock (reach catalog hard soft expiry ops)
    = (Ok res, db') →
  res = Some tt ∧
  ∃ k, Z.of_nat k ≤ open_count (reach catalog hard soft expiry ops) ∧
    last_round hard batch_size k cutoff clock (reach catalog hard soft expiry ops) db'.
Proof.
  intros Hh Hb Hf Hd.
  exact (wp_run _ _ _ _ _ _ (drain_spec hard batch_size fuel cutoff clock _ Hb
    (reach_ok catalog hard soft expiry ops Hh) Hf) Hd).
Qed.

(** ** Revocation before the call was sent *)

Section Stranded.
Context `{BS : BudgetServices} (hard : Z).

(** A claimed reservation whose only call was closed without it. *)
Record stranded (id : UUID) (r : Reservation) (call_id : UUID) (c : Call) (db : BudgetDB) : Prop := {
  sd_ok : budget_ok hard db;
  sd_row : reservations db !! id = Some r;
  sd_reserved : rv_state r = reserved;
  sd_phase : rv_phase r = claim_begun;
  sd_call : calls db !! call_id = Some c;
  sd_bound : cl_reservation_id c = id ∧ cl_attempt_id c = rv_attempt_id r;
  sd_closed : cl_outcome c ≠ started;
}.

Lemma stranded_calls id r call_id c db :
  stranded id r call_id c db → calls_of id (rv_attempt_id r) db = [(call_id, c)].
Proof.
  intros [Hok _ _ _ Hc [Hb Ha] _]. unfold calls_of. apply filter_unique.
  - apply NoDup_map_to_list.
  - by apply elem_of_map_to_list.
  - done.
  - intros [i x] Hx%elem_of_map_to_list [Hxb _]. cbn in Hxb.
    assert (i = call_id) as -> by (eapply (ok_calls _ _ Hok); [done..|congruence]). congruence.
Qed.

Lemma stranded_not_released id r call_id c now db :
  stranded id r call_id c db →
  _release_proven_unsent id (rv_attempt_id r) now db = (Raise SentReservationRequiresSettlement, db).
Proof.
  intros H. pose proof (stranded_calls _ _ _ _ _ H) as Hcalls. destruct H as [_ Hr _ Hp _ _ Hs].
  unfold _release_proven_unsent, in_uow, _release_unsent_locked, mbind, M_bind, gets.
  rewrite Hr, Hcalls. unfold proven_unsent. rewrite Hp, (bool_decide_eq_false_2 _ Hs).
  by rewrite andb_false_r, andb_false_l, !andb_false_r.
Qed.

Lemma stranded_not_settled id r call_id c now db :
  stranded id r call_id c db →
  wp (_settle_locked hard id (rv_attempt_id r) now) (λ _ _, False) (λ _ _, True) db.
Proof.
  intros H. pose proof (stranded_calls _ _ _ _ _ H) as Hcalls. destruct H as [_ Hr _ Hp _ _ Hs].
  unfold _settle_locked. apply wp_bind, wp_gets. rewrite Hr.
  apply wp_bind, wp_raise_if; [intros _|done]. apply wp_bind, wp_lift; [intros snapshot _|done].
  apply wp_bind. unfold transport_evidence. apply wp_bind, wp_gets. rewrite Hcalls.
  apply wp_bind, wp_raise_if; [intros _|done]. apply wp_bind, wp_raise_if; [intros _|done].
  rewrite (bool_decide_eq_false_2 _ Hs), Hp, orb_true_r. done.
Qed.

Lemma stranded_row id r call_id c now db :
  stranded id r call_id c db →
  wp (reconcile_row hard now (id, r)) (λ _ _, False) (λ _ _, True) db.
Proof.
  intros H. pose proof (stranded_calls _ _ _ _ _ H) as Hcalls.
  pose proof (stranded_not_settled _ _ _ _ now _ H) as Hset. destruct H as [_ Hr _ Hp _ _ Hs].
  unfold reconcile_row. apply wp_bind, wp_gets. rewrite Hcalls.
  apply wp_bind, wp_raise_if; [intros _|done]. unfold proven_unsent.
  rewrite Hp, (bool_decide_eq_false_2 _ Hs), andb_false_r, andb_false_l, !andb_false_r.
  unfold wp, try_except, mbind, M_bind in *.
  destruct (_settle_locked _ _ _ _ _) as [[?|e] ?]; [done|]. by destruct (quarantine_reason e).
Qed.

(** Other rows of a batch leave it stranded. *)
Lemma stranded_rows id r call_id c now rows db :
  stranded id r call_id c db → NoDup rows.*1 → (id, r) ∈ rows →
  (∀ p, p ∈ rows → reservations db !! p.1 = Some p.2) →
  wp (reconcile_rows hard now rows) (λ _ _, False) (λ _ _, True) db.
Proof.
  revert c db. induction rows as [|[i x] rows IH]; intros c db H Hnd Hin Hrows; [by apply elem_of_nil in Hin|].
  apply NoDup_cons in Hnd as [Hi Hnd]. simpl. apply wp_bind.
  destruct (decide (i = id)) as [->|Hne].
  - assert (x = r) as -> by (destruct H; specialize (Hrows (id, x) ltac:(left)); cbn in *; congruence).
    eapply wp_mono; [by eapply stranded_row|done|done].
  - apply elem_of_cons in Hin as [[= <- <-]|Hin]; [done|].
    eapply wp_mono; [apply reconcile_row_spec; [apply H|by apply (Hrows (i, x)); left]| |done].
    intros _ db1 ([Hok1 Hev] & r' & Hdb1 & _). apply wp_bind.
    assert (∃ c', stranded id r call_id c' db1) as [c' H1].
    { destruct H as [_ Hr ? ? Hc [??] Hs].
      destruct (ev_calls _ _ Hev _ _ Hc) as (c' & Hc' & E1 & E2 & E3 & _). exists c'. split; try done.
      - by rewrite Hdb1, lookup_insert_ne.
      - by rewrite E1, E2.
      - by destruct (E3 Hs) as [->|(_ & _ & y & ->)]. }
    eapply wp_mono; [apply (IH c')| |done]; try done.
    + intros [j y] Hy. cbn. rewrite Hdb1, lookup_insert_ne.
      * apply (Hrows (j, y)). by right.
      * intros ->. apply Hi. by apply (list_elem_of_fmap_2 fst) in Hy.
Qed.

Lemma stranded_batch id r call_id c batch cutoff now db :
  stranded id r call_id c db → (id, r) ∈ due_rows batch cutoff now db →
  is_ok (_reconcile_batch hard batch cutoff now db).1 = false.
Proof.
  intros H Hin. destruct (due_rows_facts batch cutoff now db) as (Hnd & Hrows & _).
  pose proof (stranded_rows id r call_id c now _ db H Hnd Hin (λ p Hp, proj1 (Hrows p Hp))) as Hw.
  unfold wp in Hw. unfold _reconcile_batch, reconcile_locked, try_except, in_uow, mbind, M_bind, gets.
  destruct (reconcile_rows _ _ _ _) as [[n|[e|? ? ?]] db']; [done|done|].
  by destruct (_freeze_evidence_quarantine _ _ _ _ _) as [[?|?] ?].
Qed.
End Stranded.

(** C40: a reservation that was claimed, and whose call was then closed without it, as the
    revocation of a subject does to a call that was not yet sent, can neither be
    released nor settled, and every batch of the reconciler that reaches it fails. *)
Theorem revoked_claim_stranded `{BS : BudgetServices, CS : CallServices} catalog hard soft expiry
    ops id r call_id c :
  let db := reach catalog hard soft expiry ops in
  0 ≤ hard → reservations db !! id = Some r → rv_state r = reserved → rv_phase r = claim_begun →
  calls db !! call_id = Some c → cl_reservation_id c = id → cl_attempt_id c = rv_attempt_id r →
  cl_outcome c ≠ started →
  (∀ now, _release_proven_unsent id (rv_attempt_id r) now db
          = (Raise SentReservationRequiresSettlement, db)) ∧
  (∀ now, is_ok (settle hard id (rv_attempt_id r) now db).1 = false) ∧
  (∀ batch cutoff now, (id, r) ∈ due_rows batch cutoff now db →
     is_ok (_reconcile_batch hard batch cutoff now db).1 = false).
Proof.
  intros db Hh Hr Hs Hp Hc Hb Ha Ho.
  assert (stranded hard id r call_id c db) as H by (split; try done; by apply reach_ok).
  split_and!.
  - intros now. by eapply stranded_not_released.
  - intros now. pose proof (stranded_not_settled hard _ _ _ _ now _ H) as Hw.
    unfold wp in Hw. unfold settle, try_except, in_uow.
    destruct (_settle_locked _ _ _ _ _) as [[?|e] d]; [done|].
    destruct (quarantine_reason e); [|done]. unfold mbind, M_bind.
    by destruct (_freeze_evidence_quarantine _ _ _ _ _) as [[?|?] ?].
  - intros batch cutoff now Hin. by eapply stranded_batch.
Qed.

(** ** Witnesses: one priced call that ends in an overrun, and its failures *)

Definition sample_commitment : Commitment := mkCommitment "key-1" "aG1hYw".
Definition sample_receipt : ProviderUsageReceipt :=
  mkUsageReceipt 200 100 10 20 30 "openai" "gpt" llm provider_reported_exact
    (LlmUsageUnits 10000 5000) sample_commitment 300.

#[local] Instance sample_services : BudgetServices := {|
  singapore_month_key := λ _, "2026-07"%string;
  require_current_review := λ _ _ _ _, Ok tt;
  issue_pricing_snapshot := λ _ _, Ok (mkSigned "{}" sample_commitment);
  require_pricing_snapshot := λ _ _, Ok sample_quote;
  require_provider_usage_receipt := λ _ _ _ _ _, Ok sample_receipt;
  canonical_receipt := λ _, "receipt"%string;
  json_turn_id := λ _, None;
|}.
#[local] Instance sample_call_services : CallServices := {|
  require_bound_receipt := λ _ _ _ _, Ok tt;
  require_attested_receipt := λ _, Ok "receipt"%string;
  parse_route_envelope := λ _, Some (30, Some 40);
|}.

Definition sample_request (attempt : Z) : BudgetReservationRequest :=
  mkRequest 1 2 10 attempt "openai" "gpt" llm sample_usage "2026-07".
Definition sample_binding : RouteBinding :=
  mkBound 10 20 cloud_reasoning 1 (Some 40) 3 2 "openai" "gpt".
Definition sample_route : RouteAuthorization :=
  mkRoute 30 sample_binding sample_commitment 1000 1000 100 "internal" 1000.
Definition sample_consumption : RouteConsumption :=
  mkConsumption sample_binding sample_commitment 500 500 500.

Abbreviation sample_reach ops := (reach sample_catalog 100000 5000 900 ops).
Definition sample_claim : list operation :=
  [OpReserve (sample_request 20) 100 500;
   OpSetting (RouteKey 30) (Some (OtherValue "{}"));
   OpBegin sample_route sample_consumption (Some 50) 200 505].
Definition sample_call (receipt : option ProviderUsageReceipt) : list operation :=
  sample_claim ++ [OpMarkSent 100 20 510; OpMarkNetwork 200;
                   OpFinish 200 succeeded sample_route receipt 520].
Definition sample_settled : list operation :=
  sample_call (Some sample_receipt) ++ [OpSettle 100 20 530].

(** The reservation of these runs: open, and settled with the overrun. *)
Definition sample_open (phase : TransportPhase) : Reservation :=
  mkReservation 10 20 "2026-07" llm "openai" "gpt" allow_soft_warning sample_usage 8438 None
    (Some (columns_of sample_quote (mkSigned "{}" sample_commitment))) false reserved 1 phase
    500 1400 None None.
Definition sample_closed : Reservation :=
  set_settled 84375 true 530 (Some 530) (sample_open finished).
Definition sample_stopped : Call :=
  mkCall 10 20 30 100 "cloud_reasoning" "openai" "gpt" llm cancelled 1 finished no_receipt 505
    (Some 600) None.

Lemma budget_hard_cap_witness :
  month_total "2026-07" (sample_reach sample_settled) ≤ 100000 ∨
  frozen "2026-07" (sample_reach sample_settled) = true.
Proof. apply (budget_hard_cap sample_catalog 100000 5000 900 sample_settled "2026-07"). lia. Defined.

Lemma budget_freeze_final_witness :
  frozen "2026-07" (sample_reach (sample_settled ++ [OpReserve (sample_request 21) 101 540])) = true.
Proof.
  refine (proj1 (budget_freeze_final sample_catalog 100000 5000 900 sample_settled
    [OpReserve (sample_request 21) 101 540] "2026-07" _ _)); [lia|]. vm_compute. reflexivity.
Defined.

(** A response is bound to the call once; a second, different one is refused. *)
Definition sample_response (response : string * string) (now : Z) : operation :=
  OpRecordResponse sample_route response (Some 300) (Absent true (Ok tt) (Ok tt)) now.
Example response_bound_once :
  let db := sample_reach (sample_settled ++ [sample_response ("key-1"%string, "first"%string) 535;
                                             sample_response ("key-1"%string, "second"%string) 540]) in
  cl_response <$> calls (sample_reach sample_settled) !! 200 = Some None ∧
  cl_response <$> calls db !! 200 = Some (Some ("key-1"%string, "first"%string)) ∧
  (record sample_route ("key-1"%string, "second"%string) (Some 300) (Absent true (Ok tt) (Ok tt)) 540 db).1 =
    Raise (denied_ "provider_response_receipt_commitment").
Proof. vm_compute. split_and!; reflexivity. Qed.

Lemma budget_terminal_final_witness :
  reservations (sample_reach (sample_settled ++ [OpReleaseUnsent 100 20 (mkProof 100 20 never_sent) 540]))
    !! 100 = Some sample_closed.
Proof.
  refine (proj1 (budget_terminal_final sample_catalog 100000 5000 900 sample_settled
    [OpReleaseUnsent 100 20 (mkProof 100 20 never_sent) 540] _) 100 sample_closed _ _); [lia| |].
  - vm_compute. reflexivity.
  - reflexivity.
Defined.

Definition sample_ledger_row : LedgerRow :=
  mkLedgerRow "2026-07" 8438 84375 (Some "receipt"%string) (Some provider_reported_exact)
    false true false 530.
Lemma budget_ledger_exact_witness :
  ∃ r, reservations (sample_reach sample_settled) !! 100 = Some r ∧ rv_state r = settled ∧
    "2026-07"%string = rv_month_key r ∧ 8438 = rv_reserved r ∧ rv_charged r = Some 84375 ∧ true = true.
Proof.
  apply (budget_ledger_exact sample_catalog 100000 5000 900 sample_settled 100 sample_ledger_row); [lia|].
  vm_compute. reflexivity.
Defined.

Lemma budget_soft_warning_once_witness : 100 = 100.
Proof.
  apply (budget_soft_warning_once sample_catalog 100000 5000 900 sample_settled 100 100
    sample_closed sample_closed); [lia|vm_compute; reflexivity|vm_compute; reflexivity|reflexivity..].
Defined.

Definition sample_reserved : BudgetReservation :=
  mkBudgetReservation 100 10 20 allow_soft_warning 8438 (Some sample_commitment) 1400.
Lemma reserve_decides_witness :
  rq_month_key (sample_request 20) = singapore_month_key 500 ∧
  ∃ priced, quoted sample_catalog (sample_request 20) 500 = Ok priced ∧
    reserved_as 100000 5000 (sample_request 20) 100 priced sample_reserved (sample_reach [])
      (sample_reach [OpReserve (sample_request 20) 100 500]).
Proof.
  apply (reserve_decides sample_catalog 100000 5000 900 [] (sample_request 20) 100 500
    sample_reserved (sample_reach [OpReserve (sample_request 20) 100 500])); [lia|].
  vm_compute. reflexivity.
Defined.

Lemma reserve_returns_witness :
  ∃ b db', reserve sample_catalog 100000 5000 900 (sample_request 20) 100 500 (sample_reach [])
           = (Ok b, db').
Proof.
  apply (reserve_returns sample_catalog 100000 5000 900 [] (sample_request 20) 100 500
    "cloud_reasoning"); [lia|lia|reflexivity|reflexivity|reflexivity|done|reflexivity|reflexivity| |].
  - intros i r Hr. destruct (lookup_empty_Some (M:=gmap UUID) i r Hr).
  - vm_compute. discriminate.
Defined.

Definition sample_settlement : BudgetSettlement := mkSettlement 100 84375 false true true.
Lemma settle_closes_witness :
  ∃ r, reservations (sample_reach (sample_call (Some sample_receipt))) !! 100 = Some r ∧
    rv_attempt_id r = 20 ∧ settleable r = true ∧
    settled_as 100000 100 530 sample_settlement r
      (sample_reach (sample_call (Some sample_receipt))) (sample_reach sample_settled).
Proof.
  apply (settle_closes sample_catalog 100000 5000 900 (sample_call (Some sample_receipt)) 100 20 530
    sample_settlement (sample_reach sample_settled)); [lia|]. vm_compute. reflexivity.
Defined.

(** A call that succeeded without a usage receipt. *)
Definition sample_sent : Reservation := set_phase finished (set_sent (sample_open claim_begun)).
Lemma settle_fails_closed_witness :
  ∃ msg db', settle 100000 100 20 530 (sample_reach (sample_call None)) = (Raise (denied_ msg), db') ∧
    frozen "2026-07" db' = true ∧
    reservations db' = reservations (sample_reach (sample_call None)) ∧
    ledger db' = ledger (sample_reach (sample_call None)).
Proof.
  apply (settle_fails_closed sample_catalog 100000 5000 900 (sample_call None) 100 530 sample_sent
    (BudgetEvidenceQuarantined "provider_usage_missing_unknown_overage")
    (sample_reach (sample_call None)) "provider_usage_missing_unknown_overage"); [lia|..].
  - vm_compute. reflexivity.
  - vm_compute. reflexivity.
  - reflexivity.
Defined.

Definition sample_drained : BudgetDB :=
  (drain 100000 10 5 None (λ _, 2000) (sample_reach sample_claim)).2.
Lemma drain_closes_all_due_witness :
  Some tt = Some tt ∧
  ∃ k : nat, Z.of_nat k ≤ open_count (sample_reach sample_claim) ∧
    last_round 100000 10 k None (λ i, 2000 + Z.of_nat i) (sample_reach sample_claim) sample_drained.
Proof.
  apply (drain_closes_all_due sample_catalog 100000 5000 900 sample_claim 10 None (λ i, 2000 + Z.of_nat i) 5
    (Some tt) sample_drained); [lia|lia|vm_compute; reflexivity|vm_compute; reflexivity].
Defined.

(** A claim, then the revocation of its subject. *)
Lemma revoked_claim_stranded_witness :
  is_ok (_reconcile_batch 100000 1000 None 2000
           (sample_reach (sample_claim ++ [OpRevoke 40 600]))).1 = false.
Proof.
  refine (proj2 (proj2 (revoked_claim_stranded sample_catalog 100000 5000 900
    (sample_claim ++ [OpRevoke 40 600]) 100 (sample_open claim_begun) 200 sample_stopped
    _ _ _ _ _ _ _ _)) 1000%nat None 2000 _); [lia| | | | | | | |].
  - vm_compute. reflexivity.
  - reflexivity.
  - reflexivity.
  - vm_compute. reflexivity.
  - reflexivity.
  - reflexivity.
  - discriminate.
  - assert (due_rows 1000 None 2000 (sample_reach (sample_claim ++ [OpRevoke 40 600]))
      = [(100, sample_open claim_begun)]) as -> by (vm_compute; reflexivity). left.
Defined.
