(* ===== verification/TurnBudget.v ===== *)
(** * TurnBudget: the coordinator and the budget it reconciles

    A barrier of [Turns] awaits [BudgetPort.reconcile_turn], which is
    [BudgetGuard.reconcile_turn]: load the reservations bound to the turn, then release or
    settle them one after the other, each in a unit of work of its own.  Here that task is cut
    at its units of work, so that the coordinator and every other budget operation interleave
    with it, and the two components run side by side.  [reconcile_turn_steps] relates the cut
    task to the method of [BudgetGuard]; the theorem is about what is left open when a turn is
    released. *)

From S2P Require Import Prelude PyFloat PttFraming Turns BudgetPricing BudgetLedger BudgetGuard ProviderCalls BudgetReconciler BudgetSafety BudgetTheorems.

(** ** Closing a turn's reservations, one unit of work at a time *)

Section Closing.
Context `{BS : BudgetServices} (hard : Z).

(** Where [reconcile_turn] is suspended: the reservation at hand, the rows still to come and
    the settlements so far. *)
Inductive closing :=
| Loading
| Releasing (reservation_id attempt_id : UUID) (rest : list (UUID * UUID * ReservationState))
    (settlements : list BudgetSettlement)
| Contested (reservation_id attempt_id : UUID) (rest : list (UUID * UUID * ReservationState))
    (settlements : list BudgetSettlement)
| Settling (reservation_id attempt_id : UUID) (rest : list (UUID * UUID * ReservationState))
    (settlements : list BudgetSettlement)
| Unsettled (reservation_id attempt_id : UUID) (rest : list (UUID * UUID * ReservationState))
    (settlements : list BudgetSettlement)
| Closed (r : result budget_exn (list BudgetSettlement)).

(** On to the next row that was not terminal when the turn was loaded. *)
Fixpoint next_bound (bound : list (UUID * UUID * ReservationState)) (settlements : list BudgetSettlement) :
    closing :=
  match bound with
  | [] => Closed (Ok settlements)
  | (reservation_id, attempt_id, state) :: rest =>
    if terminal state then next_bound rest settlements
    else Releasing reservation_id attempt_id rest settlements
  end.

Definition close_step (turn_id : UUID) (proofs : list TransportProof) (now : Z) (s : closing)
    (db : BudgetDB) : closing * BudgetDB :=
  match s with
  | Loading =>
    let supplied := (λ p, (tp_reservation_id p, tp_attempt_id p)) <$> proofs in
    if negb (bool_decide (NoDup supplied)) then (Closed (Raise (denied_ "duplicate_turn_reconciliation_proof")), db)
    else match load_bound turn_id db with
         | Raise e => (Closed (Raise e), db)
         | Ok bound =>
           if negb (forallb (λ p, bool_decide (p ∈ (λ b : UUID * UUID * ReservationState, b.1) <$> bound)) supplied)
           then (Closed (Raise (denied_ "reservation_turn_mismatch")), db)
           else (next_bound bound [], db)
         end
  | Releasing reservation_id attempt_id rest settlements =>
    match _release_proven_unsent reservation_id attempt_id now db with
    | (Ok _, db) => (next_bound rest settlements, db)
    | (Raise SentReservationRequiresSettlement, db) => (Contested reservation_id attempt_id rest settlements, db)
    | (Raise e, db) => (Closed (Raise e), db)
    end
  | Contested reservation_id attempt_id rest settlements =>
    (if _reservation_is_terminal reservation_id attempt_id db then next_bound rest settlements
     else Settling reservation_id attempt_id rest settlements, db)
  | Settling reservation_id attempt_id rest settlements =>
    match settle hard reservation_id attempt_id now db with
    | (Ok s, db) => (next_bound rest (settlements ++ [s]), db)
    | (Raise ReservationNotSettleable, db) => (Unsettled reservation_id attempt_id rest settlements, db)
    | (Raise e, db) => (Closed (Raise e), db)
    end
  | Unsettled reservation_id attempt_id rest settlements =>
    (if _reservation_is_terminal reservation_id attempt_id db then next_bound rest settlements
     else Closed (Raise ReservationNotSettleable), db)
  | Closed _ => (s, db)
  end.

(** *** The steps, uninterrupted, are the method *)

Section Method.
Context (turn_id : UUID) (proofs : list TransportProof).

Definition leads_to (p q : closing * BudgetDB) : Prop :=
  rtc (λ p q, ∃ now, close_step turn_id proofs now p.1 p.2 = q) p q.

Lemma leads_step now s db q :
  leads_to (close_step turn_id proofs now s db) q → leads_to (s, db) q.
Proof. intros H. eapply rtc_l; [|exact H]. by exists now. Qed.

Lemma close_reservation_steps id attempt release_now settle_now rest settlements db :
  let '(r, db') := close_reservation hard id attempt release_now settle_now db in
  leads_to (Releasing id attempt rest settlements, db)
    (match r with
     | Ok s => next_bound rest (settlements ++ option_list s)
     | Raise e => Closed (Raise e)
     end, db').
Proof.
  unfold close_reservation, try_except, mbind, M_bind.
  destruct (_release_proven_unsent id attempt release_now db) as [[[]|e] d1] eqn:Hrel; cbn.
  { apply (leads_step release_now). cbn. rewrite Hrel, app_nil_r. apply rtc_refl. }
  destruct e; cbn; try (apply (leads_step release_now); cbn; rewrite Hrel; apply rtc_refl).
  destruct (_reservation_is_terminal id attempt d1) eqn:Ht1; cbn.
  { apply (leads_step release_now). cbn. rewrite Hrel. apply (leads_step 0). cbn. rewrite Ht1, app_nil_r. apply rtc_refl. }
  destruct (settle hard id attempt settle_now d1) as [[x|e] d2] eqn:Hset; cbn;
    [|destruct e; cbn; [..|destruct (_reservation_is_terminal id attempt d2) eqn:Ht2|]]; cbn;
    apply (leads_step release_now); cbn; rewrite Hrel; apply (leads_step 0); cbn; rewrite Ht1;
    apply (leads_step settle_now); cbn; rewrite Hset; try apply rtc_refl;
    apply (leads_step 0); cbn; rewrite Ht2, ?app_nil_r; apply rtc_refl.
Qed.

Lemma close_bound_steps bound clock settlements db :
  let '(r, db') := close_bound hard bound clock db in
  leads_to (next_bound bound settlements, db) (Closed (r ≫= λ l, Ok (settlements ++ l)), db').
Proof.
  revert clock settlements db.
  induction bound as [|[[id attempt] state] rest IH]; intros clock acc db; cbn [next_bound close_bound].
  { cbn. rewrite app_nil_r. apply rtc_refl. }
  destruct (terminal state); [apply IH|]. unfold mbind, M_bind.
  pose proof (close_reservation_steps id attempt (clock 0%nat) (clock 1%nat) rest acc db) as Hc.
  destruct (close_reservation _ _ _ _ _ db) as [[s|e] d]; [|exact Hc].
  specialize (IH (λ n, clock (S (S n))) (acc ++ option_list s) d).
  destruct (close_bound hard rest _ d) as [[l|e] d']; cbn in *; (eapply (transitivity (R := rtc _)); [exact Hc|]); [|exact IH].
  rewrite <- app_assoc in IH. by destruct s.
Qed.

Lemma reconcile_turn_steps clock db :
  let '(r, db') := reconcile_turn hard turn_id proofs clock db in leads_to (Loading, db) (Closed r, db').
Proof.
  unfold reconcile_turn, raise_if, lift, mbind, M_bind.
  destruct (bool_decide (NoDup _)) eqn:Hd; cbn in *.
  2:{ apply (leads_step 0). cbn. rewrite Hd. apply rtc_refl. }
  destruct (load_bound turn_id db) as [bound|e] eqn:Hl; cbn.
  2:{ apply (leads_step 0). cbn. rewrite Hd, Hl. apply rtc_refl. }
  destruct (forallb _ _) eqn:Hf; cbn.
  2:{ apply (leads_step 0). cbn. rewrite Hd, Hl, Hf. apply rtc_refl. }
  pose proof (close_bound_steps bound clock [] db) as Hb. destruct (close_bound hard bound clock db) as [r db'].
  apply (leads_step 0). cbn. rewrite Hd, Hl, Hf. by destruct r.
Qed.
End Method.

(** *** What a returned reconciliation leaves *)

Definition closed_in (db : BudgetDB) (p : UUID * UUID) : Prop :=
  ∃ r, reservations db !! p.1 = Some r ∧ rv_attempt_id r = p.2 ∧ terminal (rv_state r) = true.

Lemma closed_in_mono db db' p : evolves db db' → closed_in db p → closed_in db' p.
Proof.
  intros He (r & Hr & Ha & Ht). destruct (ev_rows _ _ He _ _ Hr) as (r' & Hr' & Hrr).
  exists r'. by rewrite (re_terminal _ _ Hrr Ht) in *.
Qed.

(** Every pair of [l] is closed or still to come; a row that was terminal when it was loaded
    is closed. *)
Definition left_over (l : list (UUID * UUID)) (db : BudgetDB) (here : list (UUID * UUID))
    (rest : list (UUID * UUID * ReservationState)) : Prop :=
  (∀ p, p ∈ l → p ∈ here ∨ p ∈ rest.*1 ∨ closed_in db p) ∧
  (∀ p state, (p, state) ∈ rest → terminal state = true → closed_in db p).

Definition covered (l : list (UUID * UUID)) (db : BudgetDB) (s : closing) : Prop :=
  match s with
  | Loading | Closed (Raise _) => True
  | Closed (Ok _) => ∀ p, p ∈ l → closed_in db p
  | Releasing id attempt rest _ | Contested id attempt rest _ | Settling id attempt rest _
  | Unsettled id attempt rest _ => left_over l db [(id, attempt)] rest
  end.

Lemma left_over_mono l db db' here rest : evolves db db' → left_over l db here rest → left_over l db' here rest.
Proof.
  intros He [H1 H2]. split; [|eauto using closed_in_mono].
  intros p [?|[?|?]]%H1; eauto using closed_in_mono.
Qed.
Lemma covered_mono l db db' s : evolves db db' → covered l db s → covered l db' s.
Proof.
  intros He. destruct s as [| | | | |[|]]; cbn; eauto using left_over_mono, closed_in_mono.
Qed.

Lemma next_covered l db rest settlements : left_over l db [] rest → covered l db (next_bound rest settlements).
Proof.
  induction rest as [|[p state] rest IH]; intros [H1 H2]; cbn.
  - intros q [Hq|[Hq|?]]%H1; [by apply elem_of_nil in Hq..|done].
  - destruct p as [id attempt], (terminal state) eqn:Ht; cbn.
    + apply IH. split; [|intros q st Hq; apply H2; by right].
      intros q [Hq|[Hq|?]]%H1; [by apply elem_of_nil in Hq| |by right; right].
      cbn in Hq. apply elem_of_cons in Hq as [->|Hq]; [right; right|by right; left].
      apply (H2 _ state); [left|done].
    + split; [|intros q st Hq; apply H2; by right].
      intros q [Hq|[Hq|?]]%H1; [by apply elem_of_nil in Hq| |by right; right].
      cbn in Hq. apply elem_of_cons in Hq as [->|Hq]; [left; left|by right; left].
Qed.

(** The pair at hand is closed: on to the next one. *)
Lemma closed_covered l db db' id attempt rest settlements :
  evolves db db' → closed_in db' (id, attempt) → left_over l db [(id, attempt)] rest →
  covered l db' (next_bound rest settlements).
Proof.
  intros He Hc Hl. apply next_covered. destruct (left_over_mono _ _ _ _ _ He Hl) as [H1 H2]. split; [|done].
  intros p [->%list_elem_of_singleton|[?|?]]%H1; auto.
Qed.

Lemma loaded_rows turn_id db bound p state :
  load_bound turn_id db = Ok bound → (p, state) ∈ bound →
  ∃ r, reservations db !! p.1 = Some r ∧ rv_attempt_id r = p.2 ∧ rv_state r = state.
Proof.
  unfold load_bound. assert (∀ x, x ∈ omap (bound_row turn_id db) (map_to_list (settings db)) →
    x = Ok (p, state) → ∃ r, reservations db !! p.1 = Some r ∧ rv_attempt_id r = p.2 ∧ rv_state r = state) as Hrow.
  { intros x (q & _ & Hq)%list_elem_of_omap ->. unfold bound_row in Hq. repeat case_match; simplify_eq. cbn. eauto. }
  revert bound Hrow. induction (omap _ _) as [|x l IH]; intros bound Hrow; cbn; [intros [= <-] []%elem_of_nil|].
  destruct x as [v|e]; [|done]. cbn. destruct (sequence l) as [xs|] eqn:Hs; [|done]. cbn.
  intros [= <-] [Hq|Hq]%elem_of_cons.
  - apply (Hrow (Ok v)); [left|by rewrite Hq].
  - apply (IH xs); [|done..]. intros y Hy. apply Hrow. by right.
Qed.

Definition supplied (proofs : list TransportProof) : list (UUID * UUID) :=
  (λ p, (tp_reservation_id p, tp_attempt_id p)) <$> proofs.

Lemma release_closes id attempt now db :
  wp (_release_proven_unsent id attempt now) (λ _ db', closed_in db' (id, attempt)) (λ _ _, True) db.
Proof.
  pose proof (release_locked_spec id attempt now db) as Hs. unfold wp, _release_proven_unsent, in_uow in *.
  destruct (_release_unsent_locked id attempt now db) as [[?|?] db']; [|done].
  destruct Hs as (r & _ & Ha & Hr). exists (set_released now r). rewrite Hr. by rewrite lookup_insert_eq.
Qed.

Lemma settle_closes_row id attempt now db :
  budget_ok hard db →
  wp (settle hard id attempt now) (λ _ db', closed_in db' (id, attempt)) (λ _ _, True) db.
Proof.
  intros Hok. pose proof (settle_locked_spec hard id attempt now db Hok) as Hs.
  unfold wp, settle, try_except, in_uow in *. destruct (_settle_locked hard id attempt now db) as [[x|e] db'].
  - destruct Hs as (_ & r & _ & Ha & _ & Hr & _). eexists. rewrite Hr, lookup_insert_eq. split_and!; [done|exact Ha|done].
  - destruct (quarantine_reason e); [|done]. unfold mbind, M_bind.
    by destruct (_freeze_evidence_quarantine _ _ _ _ _) as [[?|?] ?].
Qed.

Lemma is_terminal_closed id attempt db : _reservation_is_terminal id attempt db = true → closed_in db (id, attempt).
Proof.
  unfold _reservation_is_terminal. destruct (reservations db !! id) as [r|] eqn:Hr; [|done]. intros H. bool_props.
  by exists r.
Qed.

Lemma close_step_good turn_id proofs now s db :
  budget_ok hard db → covered (supplied proofs) db s →
  let '(s', db') := close_step turn_id proofs now s db in good hard db db' ∧ covered (supplied proofs) db' s'.
Proof.
  intros Hok Hc. destruct s as [|id attempt rest acc|id attempt rest acc|id attempt rest acc|id attempt rest acc|r];
    cbn [close_step].
  - fold (supplied proofs). destruct (bool_decide _); cbn; [|by split; [apply good_refl|]].
    destruct (load_bound turn_id db) as [bound|e] eqn:Hl; [|by split; [apply good_refl|]].
    destruct (forallb _ _) eqn:Hf; cbn; [|by split; [apply good_refl|]].
    split; [by apply good_refl|]. apply next_covered. split.
    + intros p Hp. right. left. rewrite forallb_forall in Hf. apply list_elem_of_In, Hf in Hp. by bool_props.
    + intros p state Hp Ht. destruct (loaded_rows _ _ _ _ _ Hl Hp) as (r & ? & ? & <-). by exists r.
  - pose proof (safe_release_proven hard id attempt now db Hok) as Hg.
    pose proof (release_closes id attempt now db) as Hr. unfold wp in Hg, Hr.
    destruct (_release_proven_unsent id attempt now db) as [[?|e] db']; [|destruct e]; (split; [exact Hg|]); try done.
    + by eapply closed_covered; [apply Hg|..].
    + eapply left_over_mono; [apply Hg|done].
  - split; [by apply good_refl|]. destruct (_reservation_is_terminal id attempt db) eqn:Ht; [|done].
    by eapply closed_covered; [|apply is_terminal_closed|].
  - pose proof (safe_settle hard id attempt now db Hok) as Hg.
    pose proof (settle_closes_row id attempt now db Hok) as Hr. unfold wp in Hg, Hr.
    destruct (settle hard id attempt now db) as [[?|e] db']; [|destruct e]; (split; [exact Hg|]); try done.
    + by eapply closed_covered; [apply Hg|..].
    + eapply left_over_mono; [apply Hg|done].
  - split; [by apply good_refl|]. destruct (_reservation_is_terminal id attempt db) eqn:Ht; [|done].
    by eapply closed_covered; [|apply is_terminal_closed|].
  - by split; [apply good_refl|].
Qed.
End Closing.

(** ** The household: coordinator and budget side by side *)

Section Household.
Context `{BS : BudgetServices} `{CS : CallServices}.
Context (catalog : PriceCatalog) (hard soft expiry : Z).

(** [closings] holds the reconciliations of the coordinator that have begun. *)
Record household := mkHousehold {
  turns : coordinator;
  budget : BudgetDB;
  closings : gmap task closing;
}.

(** The request of the barrier as the guard reads it. *)
Definition guard_disposition (s : string) : Disposition :=
  if bool_decide (s = "never_sent"%string) then never_sent
  else if bool_decide (s = "sent"%string) then disposition_sent else unknown.
Definition guard_proof (p : Turns.TransportProof) : TransportProof :=
  mkProof (Turns.tp_reservation_id p) (Turns.tp_attempt_id p) (guard_disposition (Turns.tp_disposition p)).

Definition task_result {A} (r : result budget_exn A) : result exn unit :=
  match r with Ok _ => Ok tt | Raise e => Raise (raised e) end.

(** A step of the coordinator, an operation of any budget service, one unit of work of a
    reconciliation, or its cancellation. *)
Inductive happening :=
| HTurns (e : event)
| HBudget (o : operation)
| HReconcile (rid : task) (now : Z)
| HCancelled (rid : task).

Definition happen (x : happening) (h : household) : household :=
  match x with
  | HTurns (EReconciliation _ _) => h
  | HTurns e => mkHousehold (step e (turns h)) (budget h) (closings h)
  | HBudget o => mkHousehold (turns h) (perform catalog hard soft expiry o (budget h)) (closings h)
  | HReconcile rid now =>
    match recons (loop (turns h)) !! rid with
    | Some (mkRecon turn_id proofs None) =>
      let '(s, db) := close_step hard turn_id (guard_proof <$> proofs) now
                        (default Loading (closings h !! rid)) (budget h) in
      mkHousehold (match s with Closed r => end_reconciliation rid (task_result r) (turns h) | _ => turns h end)
        db (<[rid := s]> (closings h))
    | _ => h
    end
  | HCancelled rid => mkHousehold (end_reconciliation rid (Raise CancelledError) (turns h)) (budget h) (closings h)
  end.

(** A turn's id is never used twice. *)
Definition fresh_happening (x : happening) (h : household) : Prop :=
  match x with HTurns e => fresh_start e (turns h) | _ => True end.

Definition household_later (h h' : household) : Prop := ∃ x, fresh_happening x h ∧ h' = happen x h.

(** A new coordinator over the store an earlier run left. *)
Inductive household_reachable : household → Prop :=
| household_new health owner_recovery limit attempt join_ reconciliation_ c ops :
    make_coordinator health owner_recovery limit attempt join_ reconciliation_ = Ok c →
    household_reachable (mkHousehold c (reach catalog hard soft expiry ops) ∅)
| household_step h x :
    household_reachable h → fresh_happening x h → household_reachable (happen x h).

Lemma supplied_pairs proofs : supplied (guard_proof <$> proofs) = map proof_pair proofs.
Proof. unfold supplied. by rewrite <- list_fmap_compose. Qed.

Definition closing_ok (h : household) (rid : task) (s : closing) : Prop :=
  ∃ t proofs o, recons (loop (turns h)) !! rid = Some (mkRecon t proofs o) ∧
    covered (map proof_pair proofs) (budget h) s.

Record hinv (h : household) : Prop := {
  hv_turns : Turns.inv (turns h);
  hv_budget : budget_ok hard (budget h);
  hv_done : ∀ t proofs, Reconciled t proofs ∈ journal (turns h) →
    ∀ p, p ∈ map proof_pair proofs → closed_in (budget h) p;
  hv_closings : ∀ rid s, closings h !! rid = Some s → closing_ok h rid s;
}.

Lemma recon_known h rid s : hinv h → closings h !! rid = Some s → rid < next_task (loop (turns h)).
Proof. intros Hi (t & ps & o & Hr & _)%(hv_closings _ Hi). by destruct (i_recons _ (hv_turns _ Hi) _ _ Hr). Qed.

Lemma turns_hinv e h :
  hinv h → (∀ rid r, e ≠ EReconciliation rid r) → fresh_start e (turns h) →
  hinv (mkHousehold (step e (turns h)) (budget h) (closings h)).
Proof.
  intros Hi Hr Hf. destruct (step_unheard e (turns h) Hr) as (Hj & _ & Hrec). constructor; cbn.
  - apply step_good; [apply Hi|done].
  - apply Hi.
  - intros t ps Hin. apply (hv_done h Hi t ps). by apply Hj.
  - intros rid s Hs. destruct (hv_closings h Hi rid s Hs) as (t & ps & o & ? & ?).
    exists t, ps, o. cbn. rewrite Hrec by by eapply recon_known. done.
Qed.

Lemma budget_hinv h db :
  hinv h → good hard (budget h) db → hinv (mkHousehold (turns h) db (closings h)).
Proof.
  intros Hi [Hok He]. constructor; cbn; [apply Hi|done| |].
  - intros t ps Hin p Hp. eapply closed_in_mono; [done|]. by eapply hv_done.
  - intros rid s (t & ps & o & ? & ?)%(hv_closings h Hi). exists t, ps, o. split; [done|]. by eapply covered_mono.
Qed.

(** A reconciliation ends: with success only when everything it was asked about is closed. *)
Lemma end_hinv rid r h :
  hinv h →
  (∀ t proofs, r = Ok tt → recons (loop (turns h)) !! rid = Some (mkRecon t proofs None) →
     ∀ p, p ∈ map proof_pair proofs → closed_in (budget h) p) →
  hinv (mkHousehold (end_reconciliation rid r (turns h)) (budget h) (closings h)).
Proof.
  intros Hi Hok. constructor; cbn.
  - apply (step_good (EReconciliation rid r)); [apply Hi|done].
  - apply Hi.
  - intros t ps [Hin|[-> Hr]]%reconciliation_heard; [by apply (hv_done h Hi t)|by apply (Hok t)].
  - intros i s (t & ps & o & Hr & Hc)%(hv_closings h Hi). exists t, ps. unfold closing_ok. cbn.
    destruct (decide (i = rid)) as [->|Hne]; [|exists o; by rewrite reconciliation_others].
    unfold end_reconciliation. rewrite Hr. destruct o as [o|]; [by exists (Some o)|]. exists (Some r). split; [|done].
    cbn. rewrite lookup_insert_eq. done.
Qed.

Lemma happen_hinv x h :
  hinv h → fresh_happening x h → hinv (happen x h) ∧ evolves (budget h) (budget (happen x h)).
Proof.
  intros Hi Hf. destruct x as [e|o|rid now|rid]; cbn.
  - destruct e; (split; [|done]); try (by apply turns_hinv). done.
  - assert (good hard (budget h) (perform catalog hard soft expiry o (budget h))) as Hg by apply perform_good, Hi.
    split; [by apply budget_hinv|apply Hg].
  - destruct (recons (loop (turns h)) !! rid) as [[t ps [o|]]|] eqn:Hr; [done| |done].
    assert (covered (map proof_pair ps) (budget h) (default Loading (closings h !! rid))) as Hc0.
    { destruct (closings h !! rid) as [s|] eqn:Hs; [|done].
      destruct (hv_closings h Hi rid s Hs) as (t' & ps' & o & Hr' & Hc). by simplify_eq. }
    rewrite <- supplied_pairs in Hc0. pose proof (close_step_good hard t _ now _ _ (hv_budget h Hi) Hc0) as Hs.
    destruct (close_step _ _ _ _ _ _) as [s db], Hs as [Hg Hc]. rewrite supplied_pairs in Hc.
    split; [|apply Hg]. assert (hinv (mkHousehold (turns h) db (<[rid := s]> (closings h)))) as Hi'.
    { destruct (budget_hinv h db Hi Hg) as [H1 H2 H3 H4]. constructor; [done..|]. cbn.
      intros i s' [[<- <-]|[_ Hs']]%lookup_insert_Some; [by exists t, ps, None|by apply H4]. }
    destruct s as [| | | | |r]; try done. apply (end_hinv rid (task_result r) _ Hi'). cbn.
    intros t' ps' Hok Hr' p Hp. rewrite Hr in Hr'. simplify_eq. destruct r as [?|?]; [|done]. by apply Hc.
  - split; [by apply end_hinv|done].
Qed.

Lemma reachable_hinv h : 0 ≤ hard → household_reachable h → hinv h.
Proof.
  intros Hh. induction 1 as [health owner limit t1 t2 t3 c ops Hc|h x _ IH Hf]; [|by apply happen_hinv].
  pose proof (make_coordinator_new _ _ _ _ _ _ _ Hc) as Hj. constructor; cbn.
  - by eapply make_coordinator_inv.
  - by apply reach_ok.
  - intros t ps Hin. rewrite Hj in Hin. by apply elem_of_nil in Hin.
  - intros rid s Hs. by rewrite lookup_empty in Hs.
Qed.

Lemma later_budget h h' :
  hinv h → rtc household_later h h' → evolves (budget h) (budget h').
Proof.
  intros Hi. induction 1 as [|h1 h2 h3 (x & Hf & ->) _ IH]; [done|].
  destruct (happen_hinv x h1 Hi Hf) as [Hi' He]. etrans; [exact He|]. by apply IH.
Qed.

Lemma log_journal e c : e ∈ log c → e ∈ journal c.
Proof.
  unfold log. induction (journal c) as [|x j IH]; cbn; [done|]. intros He.
  destruct x; try (by apply elem_of_nil in He); (apply elem_of_cons in He as [->|?]; [left|right; by apply IH]).
Qed.

(** C4: nothing is left open.  Whatever the coordinator and the budget services do, in any
    order and with reconciliations that fail or are cancelled between any two units of work,
    when a turn is released the reservation of every attempt still tracked for it is settled,
    released or denied, and stays so. *)
Theorem released_turn_settled h x t :
  0 ≤ hard → household_reachable h → fresh_happening x h →
  _active (turns h) = Some t → _active (turns (happen x h)) ≠ Some t →
  ∀ id attempt h', (id, attempt) ∈ tracked_attempts t (turns h) → rtc household_later (happen x h) h' →
  closed_in (budget h') (id, attempt).
Proof.
  intros Hh Hr Hf Ha Hn id attempt h' Hp Hl. pose proof (reachable_hinv h Hh Hr) as Hi.
  destruct (happen_hinv x h Hi Hf) as [Hi' He]. eapply closed_in_mono; [by apply later_budget|].
  assert (∃ e, turns (happen x h) = step e (turns h) ∧ fresh_start e (turns h)) as (e & Hs & Hfe).
  { destruct x as [e|o|rid now|rid]; cbn in *.
    - destruct e; first [done|by eexists].
    - done.
    - destruct (recons _ !! rid) as [[? ? [?|]]|]; [done| |done]. destruct (close_step _ _ _ _ _ _) as [s db].
      destruct s; try done. cbn in Hn. by rewrite reconciliation_active in Hn.
    - by rewrite reconciliation_active in Hn. }
  rewrite Hs in Hn. destruct (step_good e (turns h) (hv_turns h Hi) Hfe) as [_ Hg].
  destruct (Hg t Ha) as [?|(_ & _ & _ & (proofs & Hlog & Heq) & _)]; [done|].
  eapply closed_in_mono; [exact He|]. apply (hv_done h Hi t proofs); [by apply log_journal|].
  rewrite <- Heq in Hp. by apply elem_of_list_to_set in Hp.
Qed.
End Household.

(** ** A sample: a turn cancelled with its reservation still open *)

#[local] Existing Instance sample_services.
#[local] Existing Instance sample_call_services.

Definition sample_household : household :=
  mkHousehold sample_coordinator
    (reach sample_catalog 100000 5000 900 sample_claim) ∅.

Definition sample_closing : list happening :=
  (HTurns <$> [EStart 2; ETrackReservation 2 100 20; ECancel 2 "stop" Created None;
               EBarrier 0 (WRun Created) None; EBarrier 0 (WStarted true Created (Ok 77) Created) None;
               EBarrier 0 (WSafety [stopped 2]) None; EJoin 2 false; EBarrier 0 WJoin None]) ++
  [HReconcile 3 600; HReconcile 3 610].

Definition sample_happens (xs : list happening) (h : household) : household :=
  foldl (λ h x, happen sample_catalog 100000 5000 900 x h) h xs.

Fixpoint fresh_happens (xs : list happening) (h : household) : bool :=
  match xs with
  | [] => true
  | x :: xs => match x with HTurns e => fresh_startb e (turns h) | _ => true end &&
               fresh_happens xs (happen sample_catalog 100000 5000 900 x h)
  end.

Lemma sample_happens_reachable xs h :
  household_reachable sample_catalog 100000 5000 900 h → fresh_happens xs h = true →
  household_reachable sample_catalog 100000 5000 900 (sample_happens xs h).
Proof.
  revert h. induction xs as [|x xs IH]; intros h Hr Hf; [done|]. cbn in Hf. apply andb_true_iff in Hf as [Hf1 Hf2].
  apply IH; [|done]. constructor; [done|]. destruct x as [e| | |]; try done. destruct e; try done.
  by apply bool_decide_eq_true in Hf1.
Qed.

Lemma released_turn_settled_witness :
  let h := sample_happens sample_closing sample_household in
  let x := HTurns (EBarrier 0 WReconciled None) in
  (100, 20) ∈ tracked_attempts 2 (turns h) ∧
  closed_in (budget (happen sample_catalog 100000 5000 900 x h)) (100, 20).
Proof.
  assert ((100, 20) ∈ tracked_attempts 2 (turns (sample_happens sample_closing sample_household))) as Hp
    by (apply (bool_decide_unpack _); by vm_compute).
  split; [exact Hp|].
  apply (released_turn_settled sample_catalog 100000 5000 900 (sample_happens sample_closing sample_household)
    (HTurns (EBarrier 0 WReconciled None)) 2).
  - lia.
  - apply sample_happens_reachable; [|by vm_compute].
    apply (household_new _ _ _ _ (mkRecorder 32 [] [] []) true 3 (NowFloat MAX_ATTEMPT) (NowInt 1) (NowInt 2)).
    by vm_compute.
  - exact I.
  - by vm_compute.
  - by vm_compute.
  - exact Hp.
  - apply rtc_refl.
Defined.
