(* ===== verification/Tasks.v ===== *)
(** * Tasks: asyncio code as programs over awaited calls

    A coroutine is a program whose suspension points are calls of an interface: the units of
    work it awaits, the clock it reads, the choices of the event loop.  What a call does to the
    shared state and what it answers is given once, with everything the code does not decide
    (clock readings, fresh ids, failures, cancellations) in an argument of the environment.
    Tasks interleave at their calls.  The logic is a rely-guarantee one: an assertion about a
    program has to survive what the other tasks may do before each of its calls. *)

From S2P Require Import Prelude.

(** What calls answer, and what they do. *)
Class Calls (call : Type) := answer : call → Type.
Class Calling (call : Type) `{Calls call} (S X E : Type) :=
  perform_call : ∀ c : call, E → S → result X (answer c) * S.

Section Programs.
Context {call : Type} `{Calls call} {X : Type}.

(** [Halt] is a loop cut off after the rounds it was given. *)
Inductive prog (A : Type) : Type :=
| Ret (a : A)
| Throw (e : X)
| Halt
| Await (c : call) (k : result X (answer c) → prog A).
#[global] Arguments Ret {A}.
#[global] Arguments Throw {A}.
#[global] Arguments Halt {A}.
#[global] Arguments Await {A}.

#[export] Instance prog_ret : MRet prog := λ A, Ret.
Fixpoint prog_bind_ {A B} (k : A → prog B) (p : prog A) : prog B :=
  match p with
  | Ret a => k a
  | Throw e => Throw e
  | Halt => Halt
  | Await c k' => Await c (λ r, prog_bind_ k (k' r))
  end.
#[export] Instance prog_bind : MBind prog := @prog_bind_.

(** [try: p except: h]; a handler re-raises what it does not catch. *)
Fixpoint catch {A} (p : prog A) (h : X → prog A) : prog A :=
  match p with
  | Ret a => Ret a
  | Throw e => h e
  | Halt => Halt
  | Await c k => Await c (λ r, catch (k r) h)
  end.

Definition await (c : call) : prog (answer c) :=
  Await c (λ r, match r with Ok a => Ret a | Raise e => Throw e end).
Definition throw_if (b : bool) (e : X) : prog unit := if b then Throw e else Ret tt.
Definition from_result {A} (r : result X A) : prog A :=
  match r with Ok a => Ret a | Raise e => Throw e end.

(** [while (a := step) is not None], for at most [rounds] rounds. *)
Fixpoint rounds {A} (n : nat) (step : A → prog (option A)) (a : A) : prog A :=
  match n with
  | O => Halt
  | S n => a' ← step a; match a' with Some a' => rounds n step a' | None => Ret a end
  end.
End Programs.
Arguments prog call {_} X A.

(** ** Running tasks *)

Section Running.
Context {call : Type} `{Calls call} {S X E : Type} `{!Calling call S X E}.

Definition resume {A} (e : E) (p : prog call X A) (s : S) : prog call X A * S :=
  match p with
  | Await c k => let '(r, s') := perform_call c e s in (k r, s')
  | _ => (p, s)
  end.

(** One program alone, with what the environment answers to each of its calls. *)
Definition run_alone {A} (es : list E) (p : prog call X A) (s : S) : prog call X A * S :=
  foldl (λ '(p, s) e, resume e p s) (p, s) es.

(** The event loop resumes the tasks of a pool in any order. *)
Definition loop_step {A} (pool : list (prog call X A)) (s : S) (i : nat) (e : E) :
    list (prog call X A) * S :=
  match pool !! i with
  | Some p => let '(p', s') := resume e p s in (<[i := p']> pool, s')
  | None => (pool, s)
  end.
Definition loop_run {A} (schedule : list (nat * E)) (pool : list (prog call X A)) (s : S) :
    list (prog call X A) * S :=
  foldl (λ '(pool, s) '(i, e), loop_step pool s i e) (pool, s) schedule.

(** ** Rely-guarantee *)

Section Logic.
Context (R : S → S → Prop) `{!PreOrder R}.

(** From [s] on, whatever related states the other tasks make between the calls of [p], its
    own calls are related steps too and it ends in [Q]. *)
Fixpoint holds {A} (p : prog call X A) (Q : result X A → S → Prop) (s : S) : Prop :=
  match p with
  | Ret a => Q (Ok a) s
  | Throw e => Q (Raise e) s
  | Halt => True
  | Await c k => ∀ s1 e, R s s1 →
      R s1 (perform_call c e s1).2 ∧ holds (k (perform_call c e s1).1) Q (perform_call c e s1).2
  end.

Definition stable {A} (Q : A → S → Prop) : Prop := ∀ a s s', R s s' → Q a s → Q a s'.

Lemma holds_mono {A} (p : prog call X A) (Q Q' : result X A → S → Prop) s :
  (∀ r s', R s s' → Q r s' → Q' r s') → holds p Q s → holds p Q' s.
Proof.
  revert s. induction p as [a|e| |c k IH]; intros s HQ Hp; cbn in *; [by apply HQ..|done|].
  intros s1 e Hs1. destruct (Hp s1 e Hs1) as [Hs2 Hk]. split; [done|].
  apply IH; [|done]. intros r s' Hs'. apply HQ. by do 2 (etrans; [done|]).
Qed.

Lemma holds_stable {A} (p : prog call X A) Q s s' : stable Q → R s s' → holds p Q s → holds p Q s'.
Proof.
  destruct p as [a|e| |c k]; cbn; intros HQ Hs Hp; [by eapply HQ..|done|].
  intros s1 e Hs1. apply Hp. by etrans.
Qed.

Lemma holds_bind {A B} (p : prog call X A) (k : A → prog call X B) Q s :
  holds p (λ r s', match r with Ok a => holds (k a) Q s' | Raise e => Q (Raise e) s' end) s →
  holds (p ≫= k) Q s.
Proof.
  revert s. induction p as [a|e| |c k' IH]; intros s Hp; cbn in *; [done..|].
  intros s1 e Hs1. destruct (Hp s1 e Hs1) as [Hs2 Hk]. split; [done|]. by apply IH.
Qed.

Lemma holds_catch {A} (p : prog call X A) (h : X → prog call X A) Q s :
  holds p (λ r s', match r with Ok a => Q (Ok a) s' | Raise e => holds (h e) Q s' end) s →
  holds (catch p h) Q s.
Proof.
  revert s. induction p as [a|e| |c k' IH]; intros s Hp; cbn in *; [done..|].
  intros s1 e Hs1. destruct (Hp s1 e Hs1) as [Hs2 Hk]. split; [done|]. by apply IH.
Qed.

Lemma holds_await (c : call) Q s :
  (∀ s1 e, R s s1 → R s1 (perform_call c e s1).2 ∧ Q (perform_call c e s1).1 (perform_call c e s1).2) →
  holds (await c) Q s.
Proof.
  intros Hc s1 e Hs1. destruct (Hc s1 e Hs1) as [Hs2 HQ]. split; [done|].
  by destruct (perform_call c e s1).1.
Qed.

Lemma holds_from {A} (r : result X A) (Q : result X A → S → Prop) s : Q r s → holds (from_result r) Q s.
Proof. by destruct r. Qed.
Lemma holds_throw_if b (e : X) (Q : result X unit → S → Prop) s :
  (b = false → Q (Ok tt) s) → (b = true → Q (Raise e) s) → holds (throw_if b e) Q s.
Proof. destruct b; cbn; auto. Qed.

(** An assertion that the other tasks and every round keep holds of the whole loop. *)
Lemma holds_rounds {A} n (step : A → prog call X (option A)) (I : A → S → Prop) Q a s :
  (∀ a s', R s s' → I a s' → holds (step a) (λ r s'', match r with
     | Ok (Some a') => I a' s'' | Ok None => Q (Ok a) s'' | Raise e => Q (Raise e) s'' end) s') →
  I a s → holds (rounds n step a) Q s.
Proof.
  revert a s. induction n as [|n IH]; intros a s Hstep Ha; [done|]. cbn. apply holds_bind.
  eapply holds_mono; [|by apply Hstep]. intros [[a'|]|e] s' Hs' Hr; [|done..].
  apply IH; [|done]. intros a'' s'' Hs'' Hi. apply Hstep; [by etrans|done].
Qed.

Lemma resume_holds {A} (p : prog call X A) Q s e :
  holds p Q s → R s (resume e p s).2 ∧ holds (resume e p s).1 Q (resume e p s).2.
Proof.
  destruct p as [a|x| |c k]; cbn; [done..|]. intros Hp. destruct (Hp s e (reflexivity s)) as [Hs Hk].
  by destruct (perform_call c e s).
Qed.

(** Tasks that all keep to the relation keep to it together, and each ends as it would alone. *)
Definition pool_holds {A} (Q : nat → result X A → S → Prop) (pool : list (prog call X A)) (s : S) : Prop :=
  ∀ i p, pool !! i = Some p → holds p (Q i) s.

Lemma loop_step_holds {A} (Q : nat → result X A → S → Prop) pool s i e :
  (∀ j, stable (Q j)) → pool_holds Q pool s →
  R s (loop_step pool s i e).2 ∧ pool_holds Q (loop_step pool s i e).1 (loop_step pool s i e).2.
Proof.
  intros HQ Hp. unfold loop_step. destruct (pool !! i) as [p|] eqn:Hi; [|done].
  pose proof (resume_holds p _ s e (Hp i p Hi)) as [Hs Hk]. destruct (resume e p s) as [p' s']. cbn in *.
  split; [done|]. intros j q. destruct (decide (i = j)) as [<-|Hne].
  - rewrite list_lookup_insert_eq by (by eapply lookup_lt_Some). by intros [= <-].
  - rewrite list_lookup_insert_ne by done. intros Hq. eapply holds_stable; [apply HQ|exact Hs|by eapply Hp].
Qed.

Lemma loop_run_holds {A} (Q : nat → result X A → S → Prop) schedule pool s :
  (∀ j, stable (Q j)) → pool_holds Q pool s →
  R s (loop_run schedule pool s).2 ∧ pool_holds Q (loop_run schedule pool s).1 (loop_run schedule pool s).2.
Proof.
  intros HQ. unfold loop_run. revert pool s. induction schedule as [|[i e] schedule IH]; intros pool s Hp; [done|].
  cbn. pose proof (loop_step_holds Q pool s i e HQ Hp) as [Hs Hp']. destruct (loop_step pool s i e) as [pool' s']. cbn in *.
  destruct (IH pool' s' Hp') as [Hs2 Hp2]. split; [by etrans|done].
Qed.
End Logic.
End Running.

(** ** Tasks that keep an invariant *)

Section Invariant.
Context {call : Type} `{Calls call} {S X E : Type} `{!Calling call S X E}.
Context (inv : S → Prop) (later : S → S → Prop) `{!PreOrder later}.

(** The rely and the guarantee: the invariant is kept and states only move on. *)
Definition ordered (s s' : S) : Prop := inv s → inv s' ∧ later s s'.
#[export] Instance ordered_preorder : PreOrder ordered.
Proof. split; [done|]. intros s1 s2 s3 H12 H23 H1. destruct (H12 H1) as [H2 ?], (H23 H2). split; [done|by etrans]. Qed.

(** Assertions about returned values; they include the invariant. *)
Definition ending {A} (Q : A → S → Prop) : result X A → S → Prop := λ r s,
  match r with Ok a => inv s ∧ Q a s | Raise _ => True end.
Definition lasting_in {A} (Q : A → S → Prop) : Prop := ∀ a s s', later s s' → Q a s → Q a s'.

#[local] Abbreviation meets p Q s := (holds ordered p Q s).

Lemma stable_ending {A} (Q : A → S → Prop) : lasting_in Q → stable ordered (ending Q).
Proof. intros HQ [a|e] s s' Hs; [|done]. intros [Hi Ha]. destruct (Hs Hi). split; [done|by eapply HQ]. Qed.
Lemma meets_mono {A} (p : prog call X A) Q Q' s :
  (∀ r s', ordered s s' → Q r s' → Q' r s') → meets p Q s → meets p Q' s.
Proof. apply (holds_mono ordered). Qed.
Lemma meets_stable {A} (p : prog call X A) Q s s' : stable ordered Q → ordered s s' → meets p Q s → meets p Q s'.
Proof. apply (holds_stable ordered). Qed.

Lemma meets_bind {A B} (p : prog call X A) (k : A → prog call X B) (Q : A → S → Prop) (Q' : B → S → Prop) s :
  inv s → meets p (ending Q) s → (∀ a s1, inv s1 → later s s1 → Q a s1 → meets (k a) (ending Q') s1) →
  meets (p ≫= k) (ending Q') s.
Proof.
  intros Hi Hp Hk. apply holds_bind. eapply meets_mono; [|exact Hp]. intros [a|e] s1 Hs1; [|done].
  intros [Hi1 Ha]. by apply Hk; [|apply Hs1|].
Qed.

Lemma meets_catch {A} (p : prog call X A) h (Q : A → S → Prop) s :
  inv s → meets p (ending Q) s → (∀ e s1, inv s1 → later s s1 → meets (h e) (ending Q) s1) →
  meets (catch p h) (ending Q) s.
Proof.
  intros Hi Hp Hh. apply holds_catch. eapply meets_mono; [|exact Hp]. intros [a|e] s1 Hs1; [done|]. intros _.
  destruct (Hs1 Hi). by apply Hh.
Qed.

Lemma meets_throw_if {B} b e (k : unit → prog call X B) (Q : B → S → Prop) s :
  (b = false → meets (k tt) (ending Q) s) → meets (throw_if b e ≫= k) (ending Q) s.
Proof. destruct b; cbn; auto. Qed.

(** Jobs that keep the invariant keep it together, and a job that has returned has what it ends
    with, if the others cannot undo it. *)
Lemma pool_ends {J A} (job_task : J → prog call X A) (post : J → A → S → Prop) jobs schedule s :
  inv s → (∀ j, meets (job_task j) (ending (post j)) s) → (∀ j, lasting_in (post j)) →
  let r := loop_run schedule (map job_task jobs) s in
  inv r.2 ∧ later s r.2 ∧ ∀ i j a, jobs !! i = Some j → r.1 !! i = Some (Ret a) → post j a r.2.
Proof.
  intros Hi Hj Hpost r.
  destruct (loop_run_holds ordered (λ i, match jobs !! i with Some j => ending (post j) | None => λ _ _, True end)
    schedule (map job_task jobs) s) as [Ho Hq].
  { intros i. destruct (jobs !! i) as [j|]; [by apply stable_ending|done]. }
  { intros i p Hp. apply list_lookup_fmap_Some in Hp as (j & -> & Hl). by rewrite Hl. }
  destruct (Ho Hi) as [Hi' Hl]. split_and!; [done..|]. intros i j a Hl' Hr. specialize (Hq i _ Hr). cbn in Hq.
  rewrite Hl' in Hq. apply Hq.
Qed.
End Invariant.

(** ** Histories: the states of a run beside its current one *)

Record Logged (S : Type) := mkLogged {
  present : S;
  past : list S;
}.
Arguments mkLogged {S}.
Arguments present {S}.
Arguments past {S}.

#[export] Instance logged_calling {call S X E} `{Calls call} `{!Calling call S X E} : Calling call (Logged S) X E :=
  λ c e l, let '(r, s) := perform_call c e (present l) in (r, mkLogged s (s :: past l)).

Section History.
Context {call : Type} `{Calls call} {S X E : Type} `{!Calling call S X E}.

Lemma perform_logged c e (l : Logged S) :
  perform_call c e l = let '(r, s) := perform_call c e (present l) in (r, mkLogged s (s :: past l)).
Proof. done. Qed.

Lemma loop_step_logged {A} (pool : list (prog call X A)) (l : Logged S) i e :
  (loop_step pool l i e).1 = (loop_step pool (present l) i e).1 ∧
  present (loop_step pool l i e).2 = (loop_step pool (present l) i e).2 ∧
  (∀ s, s ∈ past (loop_step pool l i e).2 → s ∈ past l ∨ s = (loop_step pool (present l) i e).2).
Proof.
  unfold loop_step. destruct (pool !! i) as [p|]; [|by split_and!; auto]. destruct p as [a|x| |c k]; cbn; [by auto..|].
  rewrite perform_logged. destruct (perform_call c e (present l)) as [r s]. cbn.
  split_and!; [done..|]. intros s'. rewrite elem_of_cons. tauto.
Qed.

(** The past of a run holds states of its prefixes only. *)
Lemma loop_run_logged {A} schedule (pool : list (prog call X A)) (l : Logged S) :
  (loop_run schedule pool l).1 = (loop_run schedule pool (present l)).1 ∧
  present (loop_run schedule pool l).2 = (loop_run schedule pool (present l)).2 ∧
  (∀ s, s ∈ past (loop_run schedule pool l).2 →
     s ∈ past l ∨ ∃ n, s = (loop_run (take n schedule) pool (present l)).2).
Proof.
  unfold loop_run. revert pool l. induction schedule as [|[i e] schedule IH]; intros pool l; [by auto|]. cbn.
  destruct (loop_step_logged pool l i e) as (Hp & Hn & Hh). destruct (loop_step pool l i e) as [pool1 l1]. cbn in *.
  destruct (loop_step pool (present l) i e) as [pool1' s1] eqn:Hs. cbn in *. subst pool1'.
  destruct (IH pool1 l1) as (Hp2 & Hn2 & Hh2). rewrite Hn in *. split; [done|]. split; [done|]. intros s Hin.
  destruct (Hh2 s Hin) as [[Hin'| ->]%Hh|[n ->]]; [by left| |].
  - right. exists 1%nat. cbn. by rewrite Hs.
  - right. exists (Datatypes.S n). cbn. by rewrite Hs.
Qed.
End History.

(** One step of a program under [holds]; the assertion after a call is left to the user. *)
Ltac holds_step :=
  lazymatch goal with
  | |- holds _ (_ ≫= _) _ _ => apply holds_bind
  | |- holds _ (catch _ _) _ _ => apply holds_catch
  | |- holds _ (await _) _ _ => apply holds_await; intros
  | |- holds _ (from_result _) _ _ => apply holds_from
  | |- holds _ (throw_if _ _) _ _ => apply holds_throw_if; intros
  | |- holds _ (Ret _) _ _ => hnf
  | |- holds _ (Throw _) _ _ => hnf
  | |- holds _ (match ?x with _ => _ end) _ _ => destruct x eqn:?
  end.
