(* ===== verification/Outbox.v ===== *)
(** * Outbox: the durable queue of subject revocations

    [adapters/sqlcipher/subject_revocation_outbox_repository.py] and
    [subject_revocation_effect_repository.py] over the two tables of migration 0002: events
    waiting to be processed, and for each event and authority family the effect that was
    applied.  Both hand out leases with fencing tokens.  A method is one unit of work; time
    stamps are microseconds, which order as the stored texts do, and so do ids. *)

From stdpp Require Import sorting.
From S2P Require Import Prelude PttFraming.

(** ** Rows and their constraints *)

Inductive OutboxState := pending | processing | completed.
#[export] Instance OutboxState_eq_dec : EqDecision OutboxState.
Proof. solve_decision. Defined.

Record OutboxRow := mkOutboxRow {
  ob_event_key : string;
  ob_subject_id : UUID;
  ob_new_authority_generation : Z;
  ob_state : OutboxState;
  ob_occurred_at : Z;
  ob_claimed_at : option Z;
  ob_lease_owner : option UUID;
  ob_lease_expires_at : option Z;
  ob_fencing_token : Z;
  ob_completed_at : option Z;
  ob_attempt_count : Z;
  ob_last_error : option string;
  ob_reconciliation_receipt_id : option UUID;
}.

Definition is_set {A} (x : option A) : bool := match x with Some _ => true | None => false end.

Definition outbox_check (r : OutboxRow) : bool :=
  (2 <=? ob_new_authority_generation r) && ((0 <=? ob_attempt_count r) && (0 <=? ob_fencing_token r)) &&
  match ob_state r with
  | pending => negb (is_set (ob_claimed_at r)) && negb (is_set (ob_lease_owner r)) &&
               negb (is_set (ob_lease_expires_at r)) && negb (is_set (ob_completed_at r))
  | processing => is_set (ob_claimed_at r) && is_set (ob_lease_owner r) &&
                  is_set (ob_lease_expires_at r) && negb (is_set (ob_completed_at r))
  | completed => is_set (ob_claimed_at r) && negb (is_set (ob_lease_owner r)) &&
                 negb (is_set (ob_lease_expires_at r)) && is_set (ob_completed_at r) &&
                 is_set (ob_reconciliation_receipt_id r)
  end.

Inductive EffectState := ef_pending | ef_applying | ef_completed.
#[export] Instance EffectState_eq_dec : EqDecision EffectState.
Proof. solve_decision. Defined.

Record EffectRow := mkEffectRow {
  ef_id : UUID;
  ef_event_id : UUID;
  ef_family : string;
  ef_state : EffectState;
  ef_lease_owner : option UUID;
  ef_leased_until : option Z;
  ef_fencing_token : Z;
  ef_attempt_count : Z;
  ef_downstream_receipt_id : option UUID;
  ef_disposition : option string;
  ef_last_error : option string;
  ef_created_at : Z;
  ef_completed_at : option Z;
}.

Definition POST_COMMIT_FAMILIES : list string :=
  ["provider_routes"; "search_capabilities"; "action_authorities"; "memory_authorities"]%string.

Definition effect_check (r : EffectRow) : bool :=
  bool_decide (ef_family r ∈ POST_COMMIT_FAMILIES) && ((0 <=? ef_attempt_count r) && (0 <=? ef_fencing_token r)) &&
  match ef_state r with
  | ef_pending => negb (is_set (ef_lease_owner r)) && negb (is_set (ef_leased_until r)) &&
                  negb (is_set (ef_completed_at r))
  | ef_applying => is_set (ef_lease_owner r) && is_set (ef_leased_until r) && negb (is_set (ef_completed_at r))
  | ef_completed => negb (is_set (ef_lease_owner r)) && negb (is_set (ef_leased_until r)) &&
                    is_set (ef_completed_at r) && is_set (ef_downstream_receipt_id r) && is_set (ef_disposition r)
  end.

(** [outbox] is keyed by the event id, [effects] by the idempotency key. *)
Record RevocationDB := mkRevocationDB {
  subjects : gset UUID;
  outbox : gmap UUID OutboxRow;
  effects : gmap UUID EffectRow;
}.
Definition set_outbox x db := mkRevocationDB (subjects db) x (effects db).
Definition set_effects x db := mkRevocationDB (subjects db) (outbox db) x.

(** A unit of work: a raise rolls back. *)
Definition unit_of_work {S A} (m : M S exn A) : M S exn A := λ s,
  match m s with (Ok a, s') => (Ok a, s') | (Raise e, _) => (Raise e, s) end.

Definition put_outbox (id : UUID) (r : OutboxRow) : M RevocationDB exn unit :=
  _ ← raise_if (negb (outbox_check r)) IntegrityError;
  modify (λ db, set_outbox (<[id := r]> (outbox db)) db).
Definition put_effect (key : UUID) (r : EffectRow) : M RevocationDB exn unit :=
  _ ← raise_if (negb (effect_check r)) IntegrityError;
  modify (λ db, set_effects (<[key := r]> (effects db)) db).

(** ** The outbox *)

Definition LEASE : Z := 30_000_000.

Record OutboxClaim := mkClaim {
  oc_event_id : UUID;
  oc_event : OutboxRow;
  oc_lease_owner : UUID;
  oc_fencing_token : Z;
  oc_leased_until : Z;
}.

(** The columns a lease changes. *)
Definition with_lease (state : OutboxState) (claimed : option Z) (owner : option UUID) (expires : option Z)
    (error : option string) (r : OutboxRow) : OutboxRow :=
  mkOutboxRow (ob_event_key r) (ob_subject_id r) (ob_new_authority_generation r) state (ob_occurred_at r)
    claimed owner expires (ob_fencing_token r) (ob_completed_at r) (ob_attempt_count r) error
    (ob_reconciliation_receipt_id r).

(** [_enqueue_revocation_event_in_uow]: an event whose key is already there is not added. *)
Definition enqueue_in_uow (event_id : UUID) (event_key : string) (subject_id : UUID) (generation now : Z) :
    M RevocationDB exn bool :=
  db ← gets id;
  if existsb (λ p : UUID * OutboxRow, bool_decide (ob_event_key p.2 = event_key)) (map_to_list (outbox db))
  then mret false
  else
    _ ← raise_if (is_set (outbox db !! event_id)) IntegrityError;
    _ ← raise_if (negb (bool_decide (subject_id ∈ subjects db))) IntegrityError;
    _ ← put_outbox event_id (mkOutboxRow event_key subject_id generation pending now None None None 0 None 0 None None);
    mret true.

Definition lease_over (now : Z) (r : OutboxRow) : bool :=
  bool_decide (ob_state r = processing) &&
  match ob_lease_expires_at r with Some expires => expires <=? now | None => false end.

Definition recover_expired (now : Z) : M RevocationDB exn Z :=
  unit_of_work (
    db ← gets id;
    let over := filter (λ p : UUID * OutboxRow, lease_over now p.2 = true) (map_to_list (outbox db)) in
    let recovered := with_lease pending None None None (Some "expired_lease_recovered"%string) in
    _ ← raise_if (negb (forallb (λ p : UUID * OutboxRow, outbox_check (recovered p.2)) over)) IntegrityError;
    _ ← modify (set_outbox ((λ r, if lease_over now r then recovered r else r) <$> outbox db));
    mret (len over)).

Definition drain_le (p q : UUID * OutboxRow) : Prop :=
  ob_occurred_at p.2 < ob_occurred_at q.2 ∨ (ob_occurred_at p.2 = ob_occurred_at q.2 ∧ p.1 ≤ q.1).
#[export] Instance drain_le_dec p q : Decision (drain_le p q).
Proof. unfold drain_le. apply _. Defined.

Definition next_pending (db : RevocationDB) : option (UUID * OutboxRow) :=
  head (merge_sort drain_le (filter (λ p : UUID * OutboxRow, ob_state p.2 = pending) (map_to_list (outbox db)))).

Definition claimed_row (now : Z) (owner : UUID) (r : OutboxRow) : OutboxRow :=
  mkOutboxRow (ob_event_key r) (ob_subject_id r) (ob_new_authority_generation r) processing (ob_occurred_at r)
    (Some now) (Some owner) (Some (now + LEASE)) (ob_fencing_token r + 1) (ob_completed_at r)
    (ob_attempt_count r + 1) None (ob_reconciliation_receipt_id r).

Definition claim_next (now : Z) (lease_owner : UUID) : M RevocationDB exn (option OutboxClaim) :=
  unit_of_work (
    db ← gets id;
    match next_pending db with
    | None => mret None
    | Some (event_id, r) =>
      let r := claimed_row now lease_owner r in
      _ ← put_outbox event_id r;
      mret (Some (mkClaim event_id r lease_owner (ob_fencing_token r) (now + LEASE)))
    end).

(** The row the WHERE clause of a lease holder's statement selects. *)
Definition held_event (event_id lease_owner : UUID) (fencing_token now : Z) (db : RevocationDB) : option OutboxRow :=
  match outbox db !! event_id with
  | Some r =>
    if bool_decide (ob_state r = processing) && bool_decide (ob_lease_owner r = Some lease_owner) &&
       (ob_fencing_token r =? fencing_token) &&
       match ob_lease_expires_at r with Some expires => now <? expires | None => false end
    then Some r else None
  | None => None
  end.

Definition claim_lost : exn := RuntimeError "subject_revocation_claim_lost".

Definition renew (event_id lease_owner : UUID) (fencing_token now : Z) : M RevocationDB exn bool :=
  unit_of_work (
    held ← gets (held_event event_id lease_owner fencing_token now);
    match held with
    | None => mret false
    | Some r =>
      _ ← put_outbox event_id (with_lease (ob_state r) (ob_claimed_at r) (ob_lease_owner r) (Some (now + LEASE))
                                 (ob_last_error r) r);
      mret true
    end).

Definition completed_row (receipt_id : UUID) (now : Z) (r : OutboxRow) : OutboxRow :=
  mkOutboxRow (ob_event_key r) (ob_subject_id r) (ob_new_authority_generation r) completed (ob_occurred_at r)
    (ob_claimed_at r) None None (ob_fencing_token r) (Some now) (ob_attempt_count r) None (Some receipt_id).

Definition complete (event_id receipt_id lease_owner : UUID) (fencing_token now : Z) : M RevocationDB exn unit :=
  unit_of_work (
    db ← gets id;
    match held_event event_id lease_owner fencing_token now db with
    | None => raise claim_lost
    | Some r =>
      _ ← raise_if (existsb (λ p : UUID * OutboxRow, negb (p.1 =? event_id) &&
            bool_decide (ob_reconciliation_receipt_id p.2 = Some receipt_id)) (map_to_list (outbox db))) IntegrityError;
      put_outbox event_id (completed_row receipt_id now r)
    end).

Definition retry_pending (event_id lease_owner : UUID) (fencing_token : Z) (reason_code : string) (now : Z) :
    M RevocationDB exn unit :=
  _ ← raise_if (128 <? Z.of_nat (String.length reason_code)) (ValueError "revocation reason code too long");
  unit_of_work (
    held ← gets (held_event event_id lease_owner fencing_token now);
    match held with
    | None => raise claim_lost
    | Some r => put_outbox event_id (with_lease pending None None None (Some reason_code) r)
    end).

Definition defer_until (event_id lease_owner : UUID) (fencing_token leased_until now : Z) :
    M RevocationDB exn unit :=
  unit_of_work (
    held ← gets (held_event event_id lease_owner fencing_token now);
    match held with
    | None => raise claim_lost
    | Some r =>
      put_outbox event_id (with_lease (ob_state r) (ob_claimed_at r) (ob_lease_owner r) (Some leased_until)
                             (Some "deferred_live_effect_lease"%string) r)
    end).

Definition opt_min (x y : option Z) : option Z :=
  match x, y with Some x, Some y => Some (Z.min x y) | Some x, None => Some x | None, _ => y end.
Definition earliest_live_expiry (db : RevocationDB) : option Z :=
  foldr opt_min None (map (λ p : UUID * OutboxRow, ob_lease_expires_at p.2)
    (filter (λ p : UUID * OutboxRow, ob_state p.2 = processing) (map_to_list (outbox db)))).
Definition pending_count (db : RevocationDB) : Z :=
  len (filter (λ p : UUID * OutboxRow, ob_state p.2 ≠ completed) (map_to_list (outbox db))).

(** ** Effects *)

Record DownstreamEffectReceipt := mkDownstream {
  de_id : UUID;
  de_idempotency_key : UUID;
  de_event_id : UUID;
  de_family : string;
  de_subject_id : UUID;
  de_through_generation : Z;
  de_disposition : string;
}.

Inductive ClaimStatus := acquired (fencing_token leased_until : Z) | busy (leased_until : Z)
  | already_completed (downstream : DownstreamEffectReceipt).

Definition scope_mismatch : exn := RuntimeError "revocation_effect_idempotency_scope_mismatch".
Definition effect_lost : exn := RuntimeError "revocation_effect_claim_lost".

(** The columns a lease changes. *)
Definition effect_lease (state : EffectState) (owner : option UUID) (until : option Z) (error : option string)
    (r : EffectRow) : EffectRow :=
  mkEffectRow (ef_id r) (ef_event_id r) (ef_family r) state owner until (ef_fencing_token r) (ef_attempt_count r)
    (ef_downstream_receipt_id r) (ef_disposition r) error (ef_created_at r) (ef_completed_at r).

Definition acquired_row (owner : UUID) (now : Z) (r : EffectRow) : EffectRow :=
  mkEffectRow (ef_id r) (ef_event_id r) (ef_family r) ef_applying (Some owner) (Some (now + LEASE))
    (ef_fencing_token r + 1) (ef_attempt_count r + 1) (ef_downstream_receipt_id r) (ef_disposition r) None
    (ef_created_at r) (ef_completed_at r).

Definition lease_free (now : Z) (r : EffectRow) : bool :=
  match ef_state r with
  | ef_pending => true
  | ef_applying => match ef_leased_until r with Some until => until <=? now | None => false end
  | ef_completed => false
  end.

(** INSERT ... ON CONFLICT(idempotency_key) DO NOTHING. *)
Definition insert_effect (row_id key event_id : UUID) (family : string) (now : Z) : M RevocationDB exn unit :=
  db ← gets id;
  match effects db !! key with
  | Some _ => mret tt
  | None =>
    _ ← raise_if (existsb (λ p : UUID * EffectRow, (ef_id p.2 =? row_id) ||
          ((ef_event_id p.2 =? event_id) && bool_decide (ef_family p.2 = family))) (map_to_list (effects db)))
          IntegrityError;
    _ ← raise_if (negb (is_set (outbox db !! event_id))) IntegrityError;
    put_effect key (mkEffectRow row_id event_id family ef_pending None None 0 0 None None None now None)
  end.

(** The row joined with its event. *)
Definition joined (key : UUID) (db : RevocationDB) : option (EffectRow * OutboxRow) :=
  match effects db !! key with
  | Some r => match outbox db !! ef_event_id r with Some event => Some (r, event) | None => None end
  | None => None
  end.

Definition receipt_of (key : UUID) (r : EffectRow) (event : OutboxRow) : option DownstreamEffectReceipt :=
  match ef_downstream_receipt_id r, ef_disposition r with
  | Some receipt_id, Some disposition =>
    Some (mkDownstream receipt_id key (ef_event_id r) (ef_family r) (ob_subject_id event)
            (ob_new_authority_generation event - 1) disposition)
  | _, _ => None
  end.

Section EffectRepository.
Context (uuid5 : UUID → string → UUID).

Definition claim_locked (key event_id : UUID) (family : string) (subject_id : UUID) (through_generation : Z)
    (lease_owner : UUID) (now : Z) : M RevocationDB exn (option Z * EffectRow * OutboxRow) :=
  _ ← insert_effect (uuid5 key "effect-row") key event_id family now;
  row ← gets (λ db, effects db !! key);
  token ← match row with
    | Some r => if lease_free now r
                then _ ← put_effect key (acquired_row lease_owner now r); mret (Some (ef_fencing_token r + 1))
                else mret None
    | None => mret None
    end;
  found ← gets (joined key);
  match found with
  | None => raise scope_mismatch
  | Some (r, event) =>
    _ ← raise_if (negb (ef_event_id r =? event_id) || negb (bool_decide (ef_family r = family)) ||
                  negb (ob_subject_id event =? subject_id) ||
                  negb (ob_new_authority_generation event - 1 =? through_generation)) scope_mismatch;
    mret (token, r, event)
  end.

Definition effect_claim (key event_id : UUID) (family : string) (subject_id : UUID) (through_generation : Z)
    (lease_owner : UUID) (now : Z) : M RevocationDB exn ClaimStatus :=
  '(token, r, event) ← unit_of_work (claim_locked key event_id family subject_id through_generation lease_owner now);
  match token with
  | Some token => mret (acquired token (now + LEASE))
  | None =>
    if bool_decide (ef_state r = ef_completed) then
      match receipt_of key r event with
      | Some downstream => mret (already_completed downstream)
      | None => raise (RuntimeError "revocation_effect_completed_receipt_missing")
      end
    else match ef_leased_until r with
         | Some until => mret (busy until)
         | None => raise (RuntimeError "revocation_effect_live_lease_missing")
         end
  end.
End EffectRepository.

Definition held_effect (key lease_owner : UUID) (fencing_token now : Z) (db : RevocationDB) : option EffectRow :=
  match effects db !! key with
  | Some r =>
    if bool_decide (ef_state r = ef_applying) && bool_decide (ef_lease_owner r = Some lease_owner) &&
       (ef_fencing_token r =? fencing_token) &&
       match ef_leased_until r with Some until => now <? until | None => false end
    then Some r else None
  | None => None
  end.

Definition effect_renew (key lease_owner : UUID) (fencing_token now : Z) : M RevocationDB exn bool :=
  unit_of_work (
    held ← gets (held_effect key lease_owner fencing_token now);
    match held with
    | None => mret false
    | Some r =>
      _ ← put_effect key (effect_lease (ef_state r) (ef_lease_owner r) (Some (now + LEASE)) (ef_last_error r) r);
      mret true
    end).

Definition effect_completed_row (downstream : DownstreamEffectReceipt) (now : Z) (r : EffectRow) : EffectRow :=
  mkEffectRow (ef_id r) (ef_event_id r) (ef_family r) ef_completed None None (ef_fencing_token r)
    (ef_attempt_count r) (Some (de_id downstream)) (Some (de_disposition downstream)) (ef_last_error r)
    (ef_created_at r) (Some now).

Definition effect_complete (key lease_owner : UUID) (fencing_token : Z) (downstream : DownstreamEffectReceipt)
    (now : Z) : M RevocationDB exn unit :=
  unit_of_work (
    db ← gets id;
    match joined key db with
    | None => raise effect_lost
    | Some (r, event) =>
      _ ← raise_if (negb (de_idempotency_key downstream =? key) || negb (de_event_id downstream =? ef_event_id r) ||
                    negb (bool_decide (de_family downstream = ef_family r)) ||
                    negb (de_subject_id downstream =? ob_subject_id event) ||
                    negb (de_through_generation downstream =? ob_new_authority_generation event - 1))
            (RuntimeError "revocation_downstream_receipt_scope_mismatch");
      match held_effect key lease_owner fencing_token now db with
      | None => raise effect_lost
      | Some r => put_effect key (effect_completed_row downstream now r)
      end
    end).

Definition effect_abandon (key lease_owner : UUID) (fencing_token : Z) (reason_code : string) (now : Z) :
    M RevocationDB exn unit :=
  unit_of_work (
    held ← gets (held_effect key lease_owner fencing_token now);
    match held with
    | None => raise effect_lost
    | Some r => put_effect key (effect_lease ef_pending None None (Some (String.substring 0 128 reason_code)) r)
    end).

Definition effect_lease_over (now : Z) (r : EffectRow) : bool :=
  bool_decide (ef_state r = ef_applying) &&
  match ef_leased_until r with Some until => until <=? now | None => false end.

Definition recover_stale (now : Z) : M RevocationDB exn Z :=
  unit_of_work (
    db ← gets id;
    let over := filter (λ p : UUID * EffectRow, effect_lease_over now p.2 = true) (map_to_list (effects db)) in
    let recovered := effect_lease ef_pending None None (Some "stale_lease_recovered"%string) in
    _ ← raise_if (negb (forallb (λ p : UUID * EffectRow, effect_check (recovered p.2)) over)) IntegrityError;
    _ ← modify (set_effects ((λ r, if effect_lease_over now r then recovered r else r) <$> effects db));
    mret (len over)).

(** ** What no operation may undo *)

Record outbox_evolves (r r' : OutboxRow) : Prop := {
  oe_key : ob_event_key r' = ob_event_key r;
  oe_subject : ob_subject_id r' = ob_subject_id r;
  oe_generation : ob_new_authority_generation r' = ob_new_authority_generation r;
  oe_token : ob_fencing_token r ≤ ob_fencing_token r';
  oe_owner : ob_fencing_token r' = ob_fencing_token r → ob_state r = processing →
    ob_state r' = processing → ob_lease_owner r' = ob_lease_owner r;
  oe_pending : ob_fencing_token r' = ob_fencing_token r → ob_state r = pending → ob_state r' = pending;
  oe_final : ob_state r = completed → r' = r;
}.

Record effect_evolves (r r' : EffectRow) : Prop := {
  ee_event : ef_event_id r' = ef_event_id r;
  ee_family : ef_family r' = ef_family r;
  ee_token : ef_fencing_token r ≤ ef_fencing_token r';
  ee_final : ef_state r = ef_completed → r' = r;
}.

Record rev_evolves (db db' : RevocationDB) : Prop := {
  ev_outbox : ∀ id r, outbox db !! id = Some r → ∃ r', outbox db' !! id = Some r' ∧ outbox_evolves r r';
  ev_effects : ∀ key r, effects db !! key = Some r → ∃ r', effects db' !! key = Some r' ∧ effect_evolves r r';
}.

Record revocation_ok (db : RevocationDB) : Prop := {
  ok_outbox : map_Forall (λ _ r, outbox_check r = true) (outbox db);
  ok_effects : map_Forall (λ _ r, effect_check r = true ∧ is_Some (outbox db !! ef_event_id r)) (effects db);
}.

#[export] Instance outbox_evolves_preorder : PreOrder outbox_evolves.
Proof.
  split; [by intros r; constructor|]. intros r1 r2 r3 [k1 s1 g1 t1 o1 p1 f1] [k2 s2 g2 t2 o2 p2 f2].
  constructor; try congruence; [lia| | |].
  - intros Ht H1 H3. assert (ob_fencing_token r2 = ob_fencing_token r1) as Ht1 by lia.
    assert (ob_fencing_token r3 = ob_fencing_token r2) as Ht2 by lia.
    destruct (ob_state r2) eqn:H2.
    + specialize (p2 Ht2 eq_refl). congruence.
    + rewrite (o2 Ht2 eq_refl H3). by apply o1.
    + rewrite (f2 eq_refl) in H3. congruence.
  - intros Ht H1. apply p2; [lia|]. apply p1; [lia|done].
  - intros H1. assert (r2 = r1) as -> by auto. auto.
Qed.
#[export] Instance effect_evolves_preorder : PreOrder effect_evolves.
Proof.
  split; [by intros r; constructor|]. intros r1 r2 r3 [] []. constructor; try congruence; [lia|].
  intros H1. assert (r2 = r1) as -> by auto. auto.
Qed.
#[export] Instance rev_evolves_preorder : PreOrder rev_evolves.
Proof.
  split; [by intros db; constructor; intros ? r ?; exists r|]. intros d1 d2 d3 [o1 e1] [o2 e2]. constructor.
  - intros id r (r2 & Hr2 & ?)%o1. apply o2 in Hr2 as (r3 & ? & ?). exists r3. split; [done|]. by etrans.
  - intros key r (r2 & Hr2 & ?)%e1. apply e2 in Hr2 as (r3 & ? & ?). exists r3. split; [done|]. by etrans.
Qed.

Definition rev_good (db db' : RevocationDB) : Prop := revocation_ok db' ∧ rev_evolves db db'.

(** Nothing was completed on the way. *)
Record nothing_done (db db' : RevocationDB) : Prop := {
  nd_outbox : ∀ id r, outbox db' !! id = Some r → ob_state r = completed → outbox db !! id = Some r;
  nd_effects : ∀ key r, effects db' !! key = Some r → ef_state r = ef_completed → effects db !! key = Some r;
}.
#[export] Instance nothing_done_preorder : PreOrder nothing_done.
Proof. split; [by constructor|]. intros d1 d2 d3 [] []. constructor; eauto. Qed.

Definition calm (db db' : RevocationDB) : Prop := rev_good db db' ∧ nothing_done db db'.
Definition rev_keeps {A} (m : M RevocationDB exn A) : Prop :=
  ∀ db, revocation_ok db → wp m (λ _, calm db) (λ _, calm db) db.

Lemma rev_good_refl db : revocation_ok db → rev_good db db.
Proof. by split. Qed.
Lemma rev_good_trans d1 d2 d3 : rev_good d1 d2 → rev_good d2 d3 → rev_good d1 d3.
Proof. intros [_ ?] [? ?]. split; [done|]. by etrans. Qed.

Lemma calm_refl db : revocation_ok db → calm db db.
Proof. by split; [apply rev_good_refl|]. Qed.
Lemma calm_trans d1 d2 d3 : calm d1 d2 → calm d2 d3 → calm d1 d3.
Proof. intros [? ?] [? ?]. split; [by eapply rev_good_trans|by etrans]. Qed.

Lemma wp_uow {S A} (m : M S exn A) (Q : A → S → Prop) s :
  wp m Q (λ _ _, True) s → wp (unit_of_work m) Q (λ _ s', s' = s) s.
Proof. unfold wp, unit_of_work. by destruct (m s) as [[?|?] ?]. Qed.

Lemma rev_keeps_uow {A} (m : M RevocationDB exn A) :
  (∀ db, revocation_ok db → wp m (λ _, calm db) (λ _ _, True) db) → rev_keeps (unit_of_work m).
Proof.
  intros Hm db Hok. eapply wp_mono; [by apply wp_uow, Hm|done|by intros ? ? ->; apply calm_refl].
Qed.

Lemma good_outbox db (f : gmap UUID OutboxRow) :
  revocation_ok db → map_Forall (λ _ r, outbox_check r = true) f →
  (∀ id r, outbox db !! id = Some r → ∃ r', f !! id = Some r' ∧ outbox_evolves r r') →
  rev_good db (set_outbox f db).
Proof.
  intros Hok Hc He. split; constructor; cbn; [done| |done|by intros ? r ?; exists r].
  intros key r Hr. destruct (ok_effects db Hok key r Hr) as [? [o Ho]]. split; [done|].
  destruct (He _ _ Ho) as (o' & -> & _). done.
Qed.
Lemma good_effects db (f : gmap UUID EffectRow) :
  revocation_ok db → map_Forall (λ _ r, effect_check r = true ∧ is_Some (outbox db !! ef_event_id r)) f →
  (∀ key r, effects db !! key = Some r → ∃ r', f !! key = Some r' ∧ effect_evolves r r') →
  rev_good db (set_effects f db).
Proof. intros Hok Hc He. split; constructor; cbn; [apply Hok|done|by intros ? r ?; exists r|done]. Qed.

Lemma put_outbox_good id r db (Q : unit → RevocationDB → Prop) R :
  revocation_ok db → (∀ r0, outbox db !! id = Some r0 → outbox_evolves r0 r) →
  (outbox_check r = true → rev_good db (set_outbox (<[id := r]> (outbox db)) db) →
     (ob_state r ≠ completed → nothing_done db (set_outbox (<[id := r]> (outbox db)) db)) →
     Q tt (set_outbox (<[id := r]> (outbox db)) db)) →
  (outbox_check r = false → R IntegrityError db) → wp (put_outbox id r) Q R db.
Proof.
  intros Hok He HQ HR. unfold put_outbox. wp_steps; bool_props; [|by auto]. apply HQ; [done| |].
  2: { intros Hs. constructor; [|done]. intros i r0. cbn. destruct (decide (id = i)) as [<-|?].
    - rewrite lookup_insert_eq. by intros [= <-] ?.
    - by rewrite lookup_insert_ne. }
  apply good_outbox; [done|by apply map_Forall_insert_2; [|apply Hok]|].
  intros i r0 Hr0. destruct (decide (id = i)) as [<-|?]; [rewrite lookup_insert_eq; by eauto|].
  rewrite lookup_insert_ne by done. by exists r0.
Qed.

Lemma put_effect_good key r db (Q : unit → RevocationDB → Prop) R :
  revocation_ok db → is_Some (outbox db !! ef_event_id r) →
  (∀ r0, effects db !! key = Some r0 → effect_evolves r0 r) →
  (effect_check r = true → rev_good db (set_effects (<[key := r]> (effects db)) db) →
     (ef_state r ≠ ef_completed → nothing_done db (set_effects (<[key := r]> (effects db)) db)) →
     Q tt (set_effects (<[key := r]> (effects db)) db)) →
  (effect_check r = false → R IntegrityError db) → wp (put_effect key r) Q R db.
Proof.
  intros Hok Hev He HQ HR. unfold put_effect. wp_steps; bool_props; [|by auto]. apply HQ; [done| |].
  2: { intros Hs. constructor; [done|]. intros i r0. cbn. destruct (decide (key = i)) as [<-|?].
    - rewrite lookup_insert_eq. by intros [= <-] ?.
    - by rewrite lookup_insert_ne. }
  apply good_effects; [done|by apply map_Forall_insert_2; [|apply Hok]|].
  intros i r0 Hr0. destruct (decide (key = i)) as [<-|?]; [rewrite lookup_insert_eq; by eauto|].
  rewrite lookup_insert_ne by done. by exists r0.
Qed.

(** *** Every operation rev_keeps the tables *)

Lemma held_event_row event_id owner token now db r :
  held_event event_id owner token now db = Some r →
  outbox db !! event_id = Some r ∧ ob_state r = processing ∧ ob_lease_owner r = Some owner ∧
  ob_fencing_token r = token.
Proof.
  unfold held_event. destruct (outbox db !! event_id) as [r'|]; [|done].
  destruct (_ && _) eqn:Hb; [|done]. intros [= <-]. by bool_props.
Qed.
Lemma held_effect_row key owner token now db r :
  held_effect key owner token now db = Some r →
  effects db !! key = Some r ∧ ef_state r = ef_applying ∧ ef_lease_owner r = Some owner ∧
  ef_fencing_token r = token.
Proof.
  unfold held_effect. destruct (effects db !! key) as [r'|]; [|done].
  destruct (_ && _) eqn:Hb; [|done]. intros [= <-]. by bool_props.
Qed.

Lemma effect_has_event db key r :
  revocation_ok db → effects db !! key = Some r → is_Some (outbox db !! ef_event_id r).
Proof. intros Hok Hr. apply (ok_effects db Hok key r Hr). Qed.

(** A new row for an event that is held, with the same key, scope and token. *)
Lemma held_evolves r r' :
  ob_state r = processing → ob_event_key r' = ob_event_key r → ob_subject_id r' = ob_subject_id r →
  ob_new_authority_generation r' = ob_new_authority_generation r → ob_fencing_token r' = ob_fencing_token r →
  (ob_state r' = processing → ob_lease_owner r' = ob_lease_owner r) → outbox_evolves r r'.
Proof. intros Hs ? ? ? ? ?. constructor; rewrite ?Hs; auto; try done. lia. Qed.
Lemma applying_evolves r r' :
  ef_state r ≠ ef_completed → ef_event_id r' = ef_event_id r → ef_family r' = ef_family r →
  ef_fencing_token r ≤ ef_fencing_token r' → effect_evolves r r'.
Proof. by constructor. Qed.

(** The statement of a lease holder. *)
Ltac held_step H := let Hr := fresh "Hr" in let Hs := fresh "Hs" in
  let Hg := fresh "Hg" in let Hn := fresh "Hn" in
  lazymatch type of H with
  | held_event _ _ _ _ _ = Some _ =>
    apply held_event_row in H as (Hr & Hs & _ & _); apply put_outbox_good;
      [done|intros ? ?; simplify_eq; by apply held_evolves|
       intros _ Hg Hn; wp_steps; split; [exact Hg|apply Hn; cbn; by rewrite ?Hs]|done]
  | held_effect _ _ _ _ _ = Some _ =>
    apply held_effect_row in H as (Hr & Hs & _ & _); apply put_effect_good;
      [done|cbn; by eapply effect_has_event
      |intros ? ?; simplify_eq; apply applying_evolves; cbn; [by rewrite Hs|done..|lia]
      |intros _ Hg Hn; wp_steps; split; [exact Hg|apply Hn; cbn; by rewrite ?Hs]|done]
  end.

Lemma keeps_enqueue event_id key subject generation now : rev_keeps (enqueue_in_uow event_id key subject generation now).
Proof.
  intros db Hok. unfold enqueue_in_uow. wp_steps; try (by apply calm_refl).
  apply put_outbox_good; [done| |intros ? ? Hn; wp_steps; split; [done|by apply Hn]|by intros; apply calm_refl].
  cbn in *. intros r Hr. by rewrite Hr in *.
Qed.

Lemma keeps_recover_expired now : rev_keeps (recover_expired now).
Proof.
  apply rev_keeps_uow. intros db Hok. wp_step. wp_step. cbn zeta. wp_step. wp_step; [|done]. wp_steps.
  match goal with H : negb _ = false |- _ => apply negb_false_iff in H; rewrite forallb_forall in H; rename H into Hall end.
  change (Datatypes.id db) with db in *. set (recovered := with_lease _ _ _ _ _) in *. split; [apply good_outbox; [done| |]|].
  - intros i r Hr. rewrite lookup_fmap in Hr. destruct (outbox db !! i) as [r0|] eqn:Hr0; [|done].
    injection Hr as <-. cbn. destruct (lease_over now r0) eqn:Hl; [|by eapply ok_outbox].
    apply (Hall (i, r0)). apply list_elem_of_In, list_elem_of_filter. split; [done|by apply elem_of_map_to_list].
  - intros i r Hr. exists (if lease_over now r then recovered r else r). rewrite lookup_fmap. cbn in *. rewrite Hr.
    split; [done|]. destruct (lease_over now r) eqn:Hl; [|done]. unfold lease_over in Hl. bool_props.
    by apply held_evolves.
  - constructor; [|done]. intros i r. cbn. rewrite lookup_fmap. destruct (outbox db !! i) as [r0|] eqn:Hr0; [|done].
    cbn. destruct (lease_over now r0) eqn:Hl; by intros [= <-] ?.
Qed.

Lemma next_pending_row db id r : next_pending db = Some (id, r) → outbox db !! id = Some r ∧ ob_state r = pending.
Proof.
  unfold next_pending. intros Hh. destruct (merge_sort drain_le _) as [|p l] eqn:Hm; [done|]. injection Hh as ->.
  assert ((id, r) ∈ merge_sort drain_le (filter (λ p : UUID * OutboxRow, ob_state p.2 = pending)
    (map_to_list (outbox db)))) as Hin by (rewrite Hm; left).
  rewrite merge_sort_Permutation, list_elem_of_filter, elem_of_map_to_list in Hin. naive_solver.
Qed.

Lemma claim_evolves now owner r : ob_state r = pending → outbox_evolves r (claimed_row now owner r).
Proof. intros Hs. constructor; rewrite ?Hs; cbn; try done; lia. Qed.

Lemma claim_next_spec now owner db :
  revocation_ok db →
  wp (claim_next now owner) (λ c db', calm db db' ∧ match c with
    | None => db' = db ∧ next_pending db = None
    | Some c => ∃ r, next_pending db = Some (oc_event_id c, r) ∧
        c = mkClaim (oc_event_id c) (claimed_row now owner r) owner (ob_fencing_token r + 1) (now + LEASE) ∧
        db' = set_outbox (<[oc_event_id c := claimed_row now owner r]> (outbox db)) db
    end) (λ _ db', db' = db) db.
Proof.
  intros Hok. apply wp_uow. wp_step. wp_step. cbn [Datatypes.id].
  destruct (next_pending db) as [[i r]|] eqn:Hn; [|wp_steps; by split; [apply calm_refl|]].
  destruct (next_pending_row _ _ _ Hn) as [Hr Hs]. cbn zeta. wp_step.
  apply put_outbox_good; [done|intros ? ?; simplify_eq; by apply claim_evolves| |done].
  intros _ Hg Hnd. wp_steps. split; [split; [done|by apply Hnd]|]. by exists r.
Qed.

Lemma keeps_claim_next now owner : rev_keeps (claim_next now owner).
Proof. intros db Hok. eapply wp_mono; [by apply claim_next_spec|by intros ? ? []|by intros ? ? ->; apply calm_refl]. Qed.

Lemma keeps_renew event_id owner token now : rev_keeps (renew event_id owner token now).
Proof.
  apply rev_keeps_uow. intros db Hok. wp_step. wp_step. destruct (held_event _ _ _ _ _) as [r|] eqn:Hh;
    [|wp_steps; by apply calm_refl]. wp_step. held_step Hh.
Qed.
Lemma keeps_retry event_id owner token reason now : rev_keeps (retry_pending event_id owner token reason now).
Proof.
  intros db Hok. unfold retry_pending. wp_step. wp_step; [|by apply calm_refl]. revert db Hok. apply rev_keeps_uow.
  intros db Hok. wp_step. wp_step. destruct (held_event _ _ _ _ _) as [r|] eqn:Hh; [|done]. held_step Hh.
Qed.
Lemma keeps_defer event_id owner token until now : rev_keeps (defer_until event_id owner token until now).
Proof.
  apply rev_keeps_uow. intros db Hok. wp_step. wp_step. destruct (held_event _ _ _ _ _) as [r|] eqn:Hh; [|done].
  held_step Hh.
Qed.

Lemma complete_spec event_id receipt owner token now db :
  revocation_ok db →
  wp (complete event_id receipt owner token now) (λ _ db', rev_good db db' ∧ ∃ r,
      outbox db !! event_id = Some r ∧
      db' = set_outbox (<[event_id := completed_row receipt now r]> (outbox db)) db) (λ _ db', db' = db) db.
Proof.
  intros Hok. apply wp_uow. wp_step. wp_step. cbn [Datatypes.id].
  destruct (held_event _ _ _ _ _) as [r|] eqn:Hh; [|done]. wp_step. wp_step; [|done].
  apply held_event_row in Hh as (Hr & Hs & _ & _).
  apply put_outbox_good; [done|intros ? ?; simplify_eq; by apply held_evolves| |done].
  intros _ Hg _. split; [done|]. by exists r.
Qed.

Lemma keeps_effect_renew key owner token now : rev_keeps (effect_renew key owner token now).
Proof.
  apply rev_keeps_uow. intros db Hok. wp_step. wp_step. destruct (held_effect _ _ _ _ _) as [r|] eqn:Hh;
    [|wp_steps; by apply calm_refl]. wp_step. held_step Hh.
Qed.
Lemma keeps_effect_abandon key owner token reason now : rev_keeps (effect_abandon key owner token reason now).
Proof.
  apply rev_keeps_uow. intros db Hok. wp_step. wp_step. destruct (held_effect _ _ _ _ _) as [r|] eqn:Hh; [|done].
  held_step Hh.
Qed.

Lemma keeps_recover_stale now : rev_keeps (recover_stale now).
Proof.
  apply rev_keeps_uow. intros db Hok. wp_step. wp_step. cbn zeta. wp_step. wp_step; [|done]. wp_steps.
  match goal with H : negb _ = false |- _ => apply negb_false_iff in H; rewrite forallb_forall in H; rename H into Hall end.
  change (Datatypes.id db) with db in *. set (recovered := effect_lease _ _ _ _) in *. split; [apply good_effects; [done| |]|].
  - intros i r Hr. rewrite lookup_fmap in Hr. destruct (effects db !! i) as [r0|] eqn:Hr0; [|done].
    injection Hr as <-. cbn. destruct (ok_effects db Hok i r0 Hr0) as [Hc He].
    destruct (effect_lease_over now r0) eqn:Hl; [|done]. split; [|done].
    apply (Hall (i, r0)). apply list_elem_of_In, list_elem_of_filter. split; [done|by apply elem_of_map_to_list].
  - intros i r Hr. exists (if effect_lease_over now r then recovered r else r). rewrite lookup_fmap. cbn in *. rewrite Hr.
    split; [done|]. destruct (effect_lease_over now r) eqn:Hl; [|done]. unfold effect_lease_over in Hl. bool_props.
    apply applying_evolves; cbn; [congruence|done..|lia].
  - constructor; [done|]. intros i r. cbn. rewrite lookup_fmap. destruct (effects db !! i) as [r0|] eqn:Hr0; [|done].
    cbn. destruct (effect_lease_over now r0) eqn:Hl; by intros [= <-] ?.
Qed.

(** *** Effects and their scope *)

(** The scope an effect was claimed for. *)
Definition scoped (key event_id : UUID) (family : string) (subject_id : UUID) (through : Z) (db : RevocationDB) : Prop :=
  ∃ r event, effects db !! key = Some r ∧ outbox db !! event_id = Some event ∧ ef_event_id r = event_id ∧
    ef_family r = family ∧ ob_subject_id event = subject_id ∧ ob_new_authority_generation event - 1 = through.

Lemma scoped_mono key event_id family subject through db db' :
  rev_evolves db db' → scoped key event_id family subject through db → scoped key event_id family subject through db'.
Proof.
  intros He (r & o & Hr & Ho & ? & ? & ? & ?). destruct (ev_effects _ _ He _ _ Hr) as (r' & Hr' & Er).
  destruct (ev_outbox _ _ He _ _ Ho) as (o' & Ho' & Eo). exists r', o'. destruct Er, Eo. split_and!; congruence.
Qed.

(** An effect recorded as applied. *)
Definition effect_done (key : UUID) (disposition : string) (db : RevocationDB) : Prop :=
  ∃ r, effects db !! key = Some r ∧ ef_state r = ef_completed ∧ ef_disposition r = Some disposition.

Lemma effect_done_mono key disposition db db' :
  rev_evolves db db' → effect_done key disposition db → effect_done key disposition db'.
Proof.
  intros He (r & Hr & Hs & Hd). destruct (ev_effects _ _ He _ _ Hr) as (r' & Hr' & Er).
  exists r'. by rewrite (ee_final _ _ Er Hs) in *.
Qed.

Lemma insert_effect_calm row_id key event_id family now db :
  revocation_ok db → wp (insert_effect row_id key event_id family now) (λ _, calm db) (λ _ _, True) db.
Proof.
  intros Hok. unfold insert_effect. wp_step. wp_step. cbn [Datatypes.id].
  destruct (effects db !! key) as [r|] eqn:Hr; [wp_steps; by apply calm_refl|].
  wp_step. wp_step; [|done]. wp_step. wp_step; [|done]. bool_props.
  apply put_effect_good; [done| |intros ? ?; congruence|intros _ ? Hn; split; [done|by apply Hn]|done].
  cbn. by destruct (outbox db !! event_id).
Qed.

Section ClaimSpec.
Context (uuid5 : UUID → string → UUID).

Lemma claim_locked_spec key event_id family subject through owner now db :
  revocation_ok db →
  wp (claim_locked uuid5 key event_id family subject through owner now) (λ x db', calm db db' ∧
    scoped key event_id family subject through db' ∧ effects db' !! key = Some x.1.2) (λ _ _, True) db.
Proof.
  intros Hok. unfold claim_locked. wp_step. eapply wp_mono; [by apply (insert_effect_calm _ _ _ _ _ _ Hok)| |done].
  intros [] db1 Hc1. pose proof (proj1 (proj1 Hc1)) as Hok1. wp_step. wp_step. wp_step.
  eapply (wp_mono _ (λ _, calm db1) _ (λ _ _, True)); [| |done].
  - destruct (effects db1 !! key) as [r|] eqn:Hr; [|wp_steps; by apply calm_refl].
    destruct (lease_free now r) eqn:Hl; [|wp_steps; by apply calm_refl]. wp_step.
    apply put_effect_good; [done|cbn; by apply (effect_has_event _ _ _ Hok1 Hr)| | |done].
    + intros ? ?. simplify_eq. apply applying_evolves; cbn; [|done..|lia]. unfold lease_free in Hl. by destruct (ef_state _).
    + intros _ Hg Hn. wp_steps. split; [done|by apply Hn].
  - intros token db2 Hc2. wp_step. wp_step. destruct (joined key db2) as [[r o]|] eqn:Hj; [|done].
    wp_step. wp_step; [|done]. wp_steps. bool_props. unfold joined in Hj.
    destruct (effects db2 !! key) as [r'|] eqn:Hr; [|done]. destruct (outbox db2 !! _) as [o'|] eqn:Ho; [|done].
    simplify_eq. split_and!; [by eapply calm_trans| |done]. exists r, o. by split_and!.
Qed.

(** A claim, if it returns, is for its own scope: a fresh lease, a live one of somebody else,
    or the receipt of an effect that was applied before. *)
Lemma effect_claim_spec key event_id family subject through owner now db :
  revocation_ok db →
  wp (effect_claim uuid5 key event_id family subject through owner now) (λ c db', calm db db' ∧
      scoped key event_id family subject through db' ∧
      match c with
      | already_completed d => effect_done key (de_disposition d) db'
      | _ => True
      end) (λ _, calm db) db.
Proof.
  intros Hok. unfold effect_claim. wp_step.
  eapply wp_mono; [by apply wp_uow, claim_locked_spec| |by intros ? ? ->; apply calm_refl].
  intros [[token r] o] db' (Hc & Hs & Hr). cbn in Hr. destruct token as [token|]; [by wp_steps|].
  case_bool_decide as Hst; [|destruct (ef_leased_until r); wp_steps; [done|apply Hc]].
  unfold receipt_of. destruct (ef_downstream_receipt_id r) as [rid|], (ef_disposition r) as [d|] eqn:Hd;
    wp_steps; try apply Hc. split_and!; [done..|]. by exists r.
Qed.
End ClaimSpec.

(** Completing an effect records the receipt, whose scope is the one of the effect. *)
Lemma effect_complete_spec key owner token d now db :
  revocation_ok db →
  wp (effect_complete key owner token d now) (λ _ db', rev_good db db' ∧
      scoped key (de_event_id d) (de_family d) (de_subject_id d) (de_through_generation d) db ∧
      ∃ r, effects db !! key = Some r ∧
        db' = set_effects (<[key := effect_completed_row d now r]> (effects db)) db) (λ _ db', db' = db) db.
Proof.
  intros Hok. apply wp_uow. wp_step. wp_step. cbn [Datatypes.id].
  destruct (joined key db) as [[r o]|] eqn:Hj; [|done]. wp_step. wp_step; [|done]. bool_props.
  destruct (held_effect _ _ _ _ _) as [r'|] eqn:Hh; [|done].
  apply held_effect_row in Hh as (Hr & Hs & _ & _). unfold joined in Hj. rewrite Hr in Hj.
  destruct (outbox db !! _) as [o'|] eqn:Ho; [|done]. simplify_eq.
  apply put_effect_good; [done|cbn; by rewrite Ho| | |done].
  { intros ? ?. simplify_eq. apply applying_evolves; cbn; [by rewrite Hs|done..|lia]. }
  intros _ Hg _. split_and!; [done| |by exists r]. exists r, o. split_and!; congruence.
Qed.

(** ** Any sequence of operations *)

Inductive revocation_op :=
| RvEnqueue (event_id : UUID) (event_key : string) (subject_id : UUID) (generation now : Z)
| RvRecoverExpired (now : Z)
| RvClaimNext (now : Z) (lease_owner : UUID)
| RvRenew (event_id lease_owner : UUID) (fencing_token now : Z)
| RvComplete (event_id receipt_id lease_owner : UUID) (fencing_token now : Z)
| RvRetry (event_id lease_owner : UUID) (fencing_token : Z) (reason_code : string) (now : Z)
| RvDefer (event_id lease_owner : UUID) (fencing_token leased_until now : Z)
| RvEffectClaim (key event_id : UUID) (family : string) (subject_id : UUID) (through : Z) (lease_owner : UUID) (now : Z)
| RvEffectRenew (key lease_owner : UUID) (fencing_token now : Z)
| RvEffectComplete (key lease_owner : UUID) (fencing_token : Z) (downstream : DownstreamEffectReceipt) (now : Z)
| RvEffectAbandon (key lease_owner : UUID) (fencing_token : Z) (reason_code : string) (now : Z)
| RvRecoverStale (now : Z).

Section Runs.
Context (uuid5 : UUID → string → UUID).

Definition revocation_step (o : revocation_op) (db : RevocationDB) : RevocationDB :=
  match o with
  | RvEnqueue id key subject generation now => (unit_of_work (enqueue_in_uow id key subject generation now) db).2
  | RvRecoverExpired now => (recover_expired now db).2
  | RvClaimNext now owner => (claim_next now owner db).2
  | RvRenew id owner token now => (renew id owner token now db).2
  | RvComplete id receipt owner token now => (complete id receipt owner token now db).2
  | RvRetry id owner token reason now => (retry_pending id owner token reason now db).2
  | RvDefer id owner token until now => (defer_until id owner token until now db).2
  | RvEffectClaim key id family subject through owner now =>
    (effect_claim uuid5 key id family subject through owner now db).2
  | RvEffectRenew key owner token now => (effect_renew key owner token now db).2
  | RvEffectComplete key owner token downstream now => (effect_complete key owner token downstream now db).2
  | RvEffectAbandon key owner token reason now => (effect_abandon key owner token reason now db).2
  | RvRecoverStale now => (recover_stale now db).2
  end.
Definition revocation_run (ops : list revocation_op) (db : RevocationDB) : RevocationDB :=
  foldl (flip revocation_step) db ops.

Lemma wp_good {A} (m : M RevocationDB exn A) (Q : A → RevocationDB → Prop) (R : exn → RevocationDB → Prop) db :
  wp m Q R db → (∀ a db', Q a db' → rev_good db db') → (∀ e db', R e db' → rev_good db db') → rev_good db (m db).2.
Proof. unfold wp. destruct (m db) as [[?|?] ?]; eauto. Qed.

Lemma revocation_step_good o db : revocation_ok db → rev_good db (revocation_step o db).
Proof.
  intros Hok. destruct o; cbn;
    first [eapply wp_good; [first [by apply rev_keeps_uow; [intros; eapply wp_mono; [by apply keeps_enqueue| |]|]
      |by apply keeps_recover_expired|by apply keeps_claim_next|by apply keeps_renew|by apply keeps_retry
      |by apply keeps_defer|by apply keeps_effect_renew|by apply keeps_effect_abandon|by apply keeps_recover_stale]
      |by intros ? ? []..]
    |eapply wp_good; [by apply complete_spec|by intros ? ? []|by intros ? ? ->; apply rev_good_refl]
    |eapply wp_good; [by apply effect_complete_spec|by intros ? ? []|by intros ? ? ->; apply rev_good_refl]
    |eapply wp_good; [by apply effect_claim_spec|by intros ? ? [[]]|by intros ? ? []]].
Qed.

Lemma revocation_run_good ops db : revocation_ok db → rev_good db (revocation_run ops db).
Proof.
  revert db. induction ops as [|o ops IH]; intros db Hok; [by apply rev_good_refl|].
  pose proof (revocation_step_good o db Hok) as Hg. exact (rev_good_trans _ _ _ Hg (IH _ (proj1 Hg))).
Qed.
End Runs.

(** A token the row has left behind holds nothing. *)
Lemma held_event_stale event_id owner token now db r :
  outbox db !! event_id = Some r → token < ob_fencing_token r → held_event event_id owner token now db = None.
Proof.
  intros Hr Ht. unfold held_event. rewrite Hr. destruct (ob_fencing_token r =? token) eqn:He; bool_props; [lia|].
  by rewrite !andb_false_r.
Qed.

(** C19: fencing.  When an event has been handed out again, the new claim has a larger token,
    and from then on, whatever operations run and whatever the clocks say, the holder of the
    earlier claim changes nothing: its renewal answers False and its completion, deferral and
    return of the event raise (claim lost, unless the reason is already too long). *)
Theorem stale_claim_powerless uuid5 db now owner c db1 ops now' owner' c' db2 ops' late :
  revocation_ok db →
  claim_next now owner db = (Ok (Some c), db1) →
  claim_next now' owner' (revocation_run uuid5 ops db1) = (Ok (Some c'), db2) →
  oc_event_id c' = oc_event_id c →
  let db3 := revocation_run uuid5 ops' db2 in
  oc_fencing_token c < oc_fencing_token c' ∧
  renew (oc_event_id c) (oc_lease_owner c) (oc_fencing_token c) late db3 = (Ok false, db3) ∧
  (∀ receipt, complete (oc_event_id c) receipt (oc_lease_owner c) (oc_fencing_token c) late db3 =
     (Raise claim_lost, db3)) ∧
  (∀ until, defer_until (oc_event_id c) (oc_lease_owner c) (oc_fencing_token c) until late db3 =
     (Raise claim_lost, db3)) ∧
  (∀ reason, ∃ e, retry_pending (oc_event_id c) (oc_lease_owner c) (oc_fencing_token c) reason late db3 =
     (Raise e, db3)).
Proof.
  intros Hok H1 H2 Hid db3. destruct c as [id ev o t u], c' as [id' ev' o' t' u']. cbn in *. subst id'.
  pose proof (wp_run _ _ _ _ _ _ (claim_next_spec now owner db Hok) H1) as [[[Hok1 _] _] (r & _ & Hc & Hdb1)].
  cbn in *. injection Hc as -> -> -> ->.
  pose proof (revocation_run_good uuid5 ops _ Hok1) as [Hok2 He].
  pose proof (wp_run _ _ _ _ _ _ (claim_next_spec now' owner' _ Hok2) H2) as [[[Hok3 _] _] (r' & Hn' & Hc' & Hdb2)].
  cbn in *. injection Hc' as -> -> -> ->. apply next_pending_row in Hn' as [Hr' Hs'].
  destruct (ev_outbox _ _ He id (claimed_row now owner r)) as (r1 & Hr1 & E1); [by rewrite Hdb1; cbn; rewrite lookup_insert_eq|].
  rewrite Hr1 in Hr'. injection Hr' as ->. pose proof (oe_token _ _ E1) as Ht. cbn in Ht.
  pose proof (revocation_run_good uuid5 ops' _ Hok3) as [_ He3]. fold db3 in He3.
  destruct (ev_outbox _ _ He3 id (claimed_row now' owner' r')) as (r3 & Hr3 & E3); [by rewrite Hdb2; cbn; rewrite lookup_insert_eq|].
  pose proof (oe_token _ _ E3) as Ht3. cbn in Ht3.
  assert (held_event id owner (ob_fencing_token r + 1) late db3 = None) as Hheld
    by (eapply held_event_stale; [exact Hr3|lia]).
  split; [lia|]. unfold renew, complete, defer_until, retry_pending, unit_of_work, mbind, M_bind, gets, raise_if, Datatypes.id.
  cbn beta iota zeta. rewrite Hheld. split_and!; try done.
  intros reason. destruct (128 <? _); cbn; rewrite ?Hheld; eauto.
Qed.

(** One event, claimed, left to expire, recovered and claimed by somebody else. *)
Definition sample_outbox : RevocationDB :=
  mkRevocationDB {[7]} {[5 := mkOutboxRow "subject-revoked:7:2" 7 2 pending 0 None None None 0 None 0 None None]} ∅.
Definition sample_first : OutboxClaim :=
  mkClaim 5 (mkOutboxRow "subject-revoked:7:2" 7 2 processing 0 (Some 10) (Some 1) (Some 30_000_010) 1 None 1 None None)
    1 1 30_000_010.
Definition sample_second : OutboxClaim :=
  mkClaim 5 (mkOutboxRow "subject-revoked:7:2" 7 2 processing 0 (Some 40_000_000) (Some 2) (Some 70_000_000) 2 None 2 None None)
    2 2 70_000_000.

Lemma stale_claim_powerless_witness :
  let db2 := (claim_next 40_000_000 2 (revocation_run (λ _ _, 0) [RvRecoverExpired 40_000_000]
               (claim_next 10 1 sample_outbox).2)).2 in
  oc_fencing_token sample_first < oc_fencing_token sample_second ∧ renew 5 1 1 40_000_001 db2 = (Ok false, db2).
Proof.
  pose proof (stale_claim_powerless (λ _ _, 0) sample_outbox 10 1 sample_first (claim_next 10 1 sample_outbox).2
    [RvRecoverExpired 40_000_000] 40_000_000 2 sample_second
    (claim_next 40_000_000 2 (revocation_run (λ _ _, 0) [RvRecoverExpired 40_000_000] (claim_next 10 1 sample_outbox).2)).2
    [] 40_000_001) as H.
  destruct H as (H1 & H2 & _); [constructor; apply map_Forall_to_list; vm_compute; repeat constructor|by vm_compute..|].
  split; [exact H1|exact H2].
Defined.
