(* ===== verification/Revocation.v ===== *)
(** * Revocation: the worker that carries a subject's revocation downstream

    [workers/subject_revocation_worker.py], [services/identity/subject_revocation_processor.py]
    and [subject_revocation_handlers.py] as programs of [Tasks] over three stores: the outbox and
    effects of [Outbox], the budget of [ProviderCalls] and the search feature's own store.  Any
    unit of work may fail, before it has run or after it has committed; the clock, the fresh ids
    and the order of the event loop are the environment's. *)

From S2P Require Import Prelude PttFraming BudgetPricing BudgetLedger BudgetGuard ProviderCalls BudgetReconciler BudgetSafety Tasks Outbox.

(** ** The environment *)

Record World (Search : Type) := mkWorld {
  w_identity : RevocationDB;
  w_budget : BudgetDB;
  w_search : Search;
}.
Arguments mkWorld {Search}.
Arguments w_identity {Search}.
Arguments w_budget {Search}.
Arguments w_search {Search}.

(** What [asyncio.wait] of the heartbeat wakes up to: a step of the operation, the tick, or a
    cancellation of the waiting task itself. *)
Inductive beat := OperationSteps | TickFires | Stopped.

Inductive call (Search : Type) : Type :=
| Identity {A : Type} (m : M RevocationDB exn A)
| Budget {A : Type} (m : M BudgetDB budget_exn A)
| SearchStore {A : Type} (m : M Search exn A)
| Now
| Fresh
| Sleep (deadline : Z)
| Stop
| OnFatal (e : exn)
| Beat
| Delivery.
Arguments Identity {Search A}.
Arguments Budget {Search A}.
Arguments SearchStore {Search A}.
Arguments Now {Search}.
Arguments Fresh {Search}.
Arguments Sleep {Search}.
Arguments Stop {Search}.
Arguments OnFatal {Search}.
Arguments Beat {Search}.
Arguments Delivery {Search}.

(** [Delivery]: where a cancelled operation is interrupted, or [None] while it still runs; the
    call it is suspended in may have taken effect. *)
#[export] Instance revocation_calls {Search} : Calls (call Search) := λ c,
  match c with
  | @Identity _ A _ | @Budget _ A _ | @SearchStore _ A _ => A
  | Now => Z
  | Fresh => UUID
  | Sleep _ | OnFatal _ => unit
  | Stop => bool
  | Beat => beat
  | Delivery => option bool
  end.

(** [en_fault]: the awaited call raises, after its effect or before it. *)
Record Env := mkEnv {
  en_now : Z;
  en_fresh : UUID;
  en_stop : bool;
  en_beat : beat;
  en_delivery : option bool;
  en_fault : option (bool * exn);
}.

Definition faulty {S A} (fault : option (bool * exn)) (m : M S exn A) : M S exn A := λ s,
  match fault with
  | None => m s
  | Some (after, e) => (Raise e, if after then (m s).2 else s)
  end.

(** Waiting for tasks fails by cancellation only. *)
Definition cancellable {S A} (fault : option (bool * exn)) (m : M S exn A) : M S exn A :=
  faulty (match fault with Some (after, _) => Some (after, CancelledError) | None => None end) m.

Definition budget_uow {A} (m : M BudgetDB budget_exn A) : M BudgetDB exn A := λ s,
  match m s with (Ok a, s') => (Ok a, s') | (Raise e, s') => (Raise (raised e), s') end.

Section Stores.
Context {Search : Type}.
Definition on_identity {A} (m : M RevocationDB exn A) : M (World Search) exn A := λ w,
  let '(r, db) := m (w_identity w) in (r, mkWorld db (w_budget w) (w_search w)).
Definition on_budget {A} (m : M BudgetDB exn A) : M (World Search) exn A := λ w,
  let '(r, db) := m (w_budget w) in (r, mkWorld (w_identity w) db (w_search w)).
Definition on_search {A} (m : M Search exn A) : M (World Search) exn A := λ w,
  let '(r, db) := m (w_search w) in (r, mkWorld (w_identity w) (w_budget w) db).
End Stores.

#[export] Instance revocation_calling {Search} : Calling (call Search) (World Search) exn Env := λ c e w,
  match c return result exn (answer c) * World Search with
  | Identity m => faulty (en_fault e) (on_identity m) w
  | Budget m => faulty (en_fault e) (on_budget (budget_uow m)) w
  | SearchStore m => faulty (en_fault e) (on_search m) w
  | Now => (Ok (en_now e), w)
  | Fresh => (Ok (en_fresh e), w)
  | Sleep _ => faulty (en_fault e) (mret tt) w
  | Stop => (Ok (en_stop e), w)
  | OnFatal _ => (Ok tt, w)
  | Beat => cancellable (en_fault e) (mret (en_beat e)) w
  | Delivery => cancellable (en_fault e) (mret (en_delivery e)) w
  end.

(** Where a task is suspended and can be cancelled. *)
Definition suspends {Search} (c : call Search) : bool :=
  match c with Now | Fresh | Stop | OnFatal _ => false | _ => true end.

(** What the process is composed of: [uuid5], the stage check of a family that is not installed,
    and the search feature with its store, which is not part of this repository. *)
Class RevocationServices (Search : Type) := {
  uuid5 : UUID → string → UUID;
  require_schema_and_facade_absent : string → string → result exn unit;
  search_present : bool;
  reconcile_revocation_once : UUID → string → UUID → Z → UUID → M Search exn DownstreamEffectReceipt;
}.

Section Worker.
Context {Search : Type} `{RS : !RevocationServices Search} `{CS : CallServices}.
#[local] Abbreviation task := (prog (call Search) exn).

(** ** [LeaseHeartbeatRunner.run] *)

Definition fence_lost : exn := LeaseFenceLost "revocation_lease_fence_lost".

Definition is_cancelled {A} (r : result exn A) : bool :=
  match r with Raise CancelledError => true | _ => false end.

(** [p] is cancelled: it runs on until the cancellation is delivered at a call, which may still
    take effect, and then as it handles it.  The answer is whether the waiting task was cancelled
    itself meanwhile. *)
Fixpoint wind_down {A} (p : task A) : task bool :=
  match p with
  | Ret _ | Throw _ => Ret false
  | Halt => Halt
  | Await c k =>
    if suspends c then Await Delivery (λ delivered,
      match delivered with
      | Ok None => Await c (λ r, again ← wind_down (k r); Ret (is_cancelled r || again))
      | Ok (Some true) => Await c (λ r, again ← wind_down (k (Raise CancelledError)); Ret (is_cancelled r || again))
      | Ok (Some false) => wind_down (k (Raise CancelledError))
      | Raise _ => _ ← wind_down (k (Raise CancelledError)); Ret true
      end)
    else Await c (λ r, wind_down (k r))
  end.

(** One renewal: whether the lease is still held, or what the renewal raised. *)
Definition renewed (renewal : Z → task bool) : task (result exn bool) :=
  catch (now ← await Now; held ← renewal now; Ret (Ok held)) (λ e, Ret (Raise e)).

(** What is left after [p] has been cancelled because of [r]. *)
Definition cancel_because {A B} (p : task A) (r : result exn bool) : task B :=
  again ← wind_down p;
  Throw (if (again : bool) then CancelledError else match r with Raise e => e | Ok _ => fence_lost end).

(** The end of the operation: a renewal that is already under way is awaited first. *)
Definition outcome {A} (under_way : bool) (renewal : Z → task bool) (p : task A) : task A :=
  wake ← await Beat;
  match wake with
  | Stopped => Throw CancelledError
  | TickFires =>
    if under_way then
      r ← renewed renewal;
      match r with
      | Ok true => p
      | Ok false => Throw fence_lost
      | Raise e => Throw e
      end
    else p
  | OperationSteps => p
  end.

(** The ticks that fire while [p] is suspended. *)
Fixpoint beats {A} (ticks : nat) (renewal : Z → task bool) (p step : task A) : task A :=
  match ticks with
  | O => Halt
  | S ticks =>
    wake ← catch (await Beat) (λ _, Ret Stopped);
    match wake with
    | OperationSteps => step
    | Stopped => cancel_because p (Raise CancelledError)
    | TickFires =>
      r ← renewed renewal;
      match r with
      | Ok true => beats ticks renewal p step
      | _ => cancel_because p r
      end
    end
  end.

Fixpoint heartbeat {A} (ticks : nat) (under_way : bool) (renewal : Z → task bool) (p : task A) : task A :=
  match p with
  | Ret _ | Throw _ => outcome under_way renewal p
  | Halt => Halt
  | Await c k => beats ticks renewal p (Await c (λ r, heartbeat ticks true renewal (k r)))
  end.

Definition heartbeat_run {A} (ticks : nat) (operation : task A) (renewal : Z → task bool) : task A :=
  heartbeat ticks false renewal operation.
(** ** The handlers *)

Definition ALLOWED_DOWNSTREAM_DISPOSITIONS : list string :=
  ["none_open"; "cancelled"; "conservatively_settled"; "completed_once"; "not_installed_no_authority"]%string.

Definition owning_revision (family : string) : string :=
  if bool_decide (family = "action_authorities"%string) then "0003_authentication" else "0004_memory".

(** The [_apply] of the family's handler, in the composition of [bootstrap/container.py]: the
    handler of the provider routes has its [provider_calls] port, whose summary says that the
    reservations were settled in the same unit of work.  The handler built without that port,
    which only tests build, is not modelled. *)
Definition _apply (family : string) (event_id subject_id : UUID) (through_generation : Z) (key : UUID) :
    task DownstreamEffectReceipt :=
  let receipt name := mkDownstream (uuid5 key name) key event_id family subject_id through_generation in
  if bool_decide (family = "provider_routes"%string) then
    now ← await Now;
    _ ← await (Budget (reconcile_revoked_subject_once subject_id now));
    Ret (receipt "provider-routes" "conservatively_settled")%string
  else if bool_decide (family = "search_capabilities"%string) then
    if search_present then
      await (SearchStore (unit_of_work (reconcile_revocation_once event_id family subject_id through_generation key)))
    else Ret (receipt "absent-search-noop" "none_open")%string
  else
    _ ← from_result (require_schema_and_facade_absent family (owning_revision family));
    Ret (receipt "not-installed-no-authority" "not_installed_no_authority")%string.

Definition in_scope (family : string) (event_id subject_id : UUID) (through_generation : Z) (key : UUID)
    (d : DownstreamEffectReceipt) : bool :=
  (de_event_id d =? event_id) && bool_decide (de_family d = family) && (de_subject_id d =? subject_id) &&
  (de_through_generation d =? through_generation) && (de_idempotency_key d =? key).

(** [except LeaseFenceLost: raise], [except Exception as error: h; raise]. *)
Definition except_error {A} (p : task A) (h : exn → task unit) : task A :=
  catch p (λ e, match e with
    | LeaseFenceLost _ => Throw e
    | _ => if is_exception e then _ ← h e; Throw e else Throw e
    end).

(** [_OnceHandler.reconcile_started_once]: a disposition, or the end of somebody else's lease. *)
Definition reconcile_started_once (ticks : nat) (family : string) (event_id subject_id : UUID)
    (through_generation : Z) (key lease_owner : UUID) : task (string + Z) :=
  now ← await Now;
  claim ← await (Identity (effect_claim uuid5 key event_id family subject_id through_generation lease_owner now));
  match claim with
  | already_completed downstream => Ret (inl (de_disposition downstream))
  | busy leased_until => Ret (inr leased_until)
  | acquired fencing_token _ =>
    downstream ← except_error (
        downstream ← heartbeat_run ticks (_apply family event_id subject_id through_generation key)
          (λ now, await (Identity (effect_renew key lease_owner fencing_token now)));
        _ ← throw_if (negb (in_scope family event_id subject_id through_generation key downstream))
              (RuntimeError "revocation_downstream_receipt_scope_mismatch");
        _ ← throw_if (negb (bool_decide (de_disposition downstream ∈ ALLOWED_DOWNSTREAM_DISPOSITIONS)))
              (RuntimeError "invalid_subject_revocation_disposition");
        Ret downstream)
      (λ e, now ← await Now;
            await (Identity (effect_abandon key lease_owner fencing_token
              (String.append "handler_error:" (exn_name e)) now)));
    now ← await Now;
    _ ← await (Identity (effect_complete key lease_owner fencing_token downstream now));
    Ret (inl (de_disposition downstream))
  end.

(** ** The processor *)

Record SubjectRevocationProcessingReceipt := mkProcessed {
  pr_id : UUID;
  pr_dispositions : list (string * string);
}.

Fixpoint reconcile_families (ticks : nat) (event_id : UUID) (event : OutboxRow) (lease_owner : UUID)
    (families : list string) (dispositions : list (string * string)) :
    task (SubjectRevocationProcessingReceipt + Z) :=
  match families with
  | [] => Ret (inl (mkProcessed (uuid5 event_id "aggregate") dispositions))
  | family :: rest =>
    disposition ← reconcile_started_once ticks family event_id (ob_subject_id event)
      (ob_new_authority_generation event - 1) (uuid5 event_id family) lease_owner;
    match disposition with
    | inr leased_until => Ret (inr leased_until)
    | inl disposition =>
      _ ← throw_if (negb (bool_decide (disposition ∈ ALLOWED_DOWNSTREAM_DISPOSITIONS)))
            (RuntimeError "invalid_subject_revocation_disposition");
      reconcile_families ticks event_id event lease_owner rest (dispositions ++ [(family, disposition)])
    end
  end.

Definition reconcile_once (ticks : nat) (event_id : UUID) (event : OutboxRow) (idempotency_key lease_owner : UUID) :
    task (SubjectRevocationProcessingReceipt + Z) :=
  _ ← throw_if (negb (idempotency_key =? event_id)) (PermissionError "subject_revocation_idempotency_mismatch");
  reconcile_families ticks event_id event lease_owner POST_COMMIT_FAMILIES [].

(** Handlers whose stage is checked: [available] raises what a check raises. *)
Definition available : result exn bool :=
  _ ← (if search_present then Ok tt
       else require_schema_and_facade_absent "search_capabilities" "search_0001_experimental_search");
  _ ← require_schema_and_facade_absent "action_authorities" "0003_authentication";
  _ ← require_schema_and_facade_absent "memory_authorities" "0004_memory";
  Ok true.

(** ** The worker *)

Definition _process_claim (ticks : nat) (claim : OutboxClaim) : task (option SubjectRevocationProcessingReceipt) :=
  let event_id := oc_event_id claim in
  except_error (
    result ← heartbeat_run ticks (reconcile_once ticks event_id (oc_event claim) event_id (oc_lease_owner claim))
      (λ now, await (Identity (renew event_id (oc_lease_owner claim) (oc_fencing_token claim) now)));
    match result with
    | inr leased_until =>
      now ← await Now;
      _ ← await (Identity (defer_until event_id (oc_lease_owner claim) (oc_fencing_token claim) leased_until now));
      Ret None
    | inl receipt =>
      now ← await Now;
      _ ← await (Identity (complete event_id (pr_id receipt) (oc_lease_owner claim) (oc_fencing_token claim) now));
      Ret (Some receipt)
    end)
  (λ e, now ← await Now;
        await (Identity (retry_pending event_id (oc_lease_owner claim) (oc_fencing_token claim)
          (String.append "processor_error:" (exn_name e)) now))).

Definition MAX_COMPLETED_EVENT_DIAGNOSTICS : nat := 1024.
Definition diagnosed (ids : list UUID) (event_id : UUID) : list UUID :=
  drop (length (ids ++ [event_id]) - MAX_COMPLETED_EVENT_DIAGNOSTICS) (ids ++ [event_id]).

(** [claims] bounds the claims of one drain; [completed_event_ids] is carried along. *)
Definition _drain_available (claims ticks : nat) (completed_event_ids : list UUID) : task (Z * list UUID) :=
  now ← await Now;
  _ ← await (Identity (recover_expired now));
  now ← await Now;
  _ ← await (Identity (recover_stale now));
  rounds claims (λ '(processed, ids),
    now ← await Now;
    owner ← await Fresh;
    claim ← await (Identity (claim_next now owner));
    match claim with
    | None => Ret None
    | Some claim =>
      receipt ← _process_claim ticks claim;
      Ret (Some (match receipt with
                 | Some _ => (processed + 1, diagnosed ids (oc_event_id claim))
                 | None => (processed, ids)
                 end))
    end) (0, completed_event_ids).

Definition MAX_SAFE_STARTUP_BACKLOG : Z := 10_000.
Definition PERIODIC_DRAIN : Z := 30_000_000.
Definition STARTUP_RECOVERY_WAIT : Z := 31_000_000.

Definition backlog_unsafe : exn := RuntimeError "subject revocation backlog unsafe".

Definition recover_and_drain_before_ready (waits claims ticks : nat) (completed_event_ids : list UUID) :
    task (list UUID) :=
  ready ← from_result available;
  _ ← throw_if (negb ready) (RuntimeError "subject revocation worker unavailable");
  count ← await (Identity (gets pending_count));
  _ ← throw_if (MAX_SAFE_STARTUP_BACKLOG <? count) backlog_unsafe;
  now ← await Now;
  let deadline := now + STARTUP_RECOVERY_WAIT in
  result ← rounds waits (λ '(drained, ids),
    if (drained : bool) then Ret None
    else
      count ← await (Identity (gets pending_count));
      if count =? 0 then Ret None
      else
        drain ← _drain_available claims ticks ids;
        count ← await (Identity (gets pending_count));
        if count =? 0 then Ret (Some (true, drain.2))
        else
          expiry ← await (Identity (gets earliest_live_expiry));
          match expiry with
          | None => Throw backlog_unsafe
          | Some expiry =>
            _ ← throw_if (deadline <? expiry) backlog_unsafe;
            _ ← await (Sleep expiry);
            Ret (Some (false, drain.2))
          end) (false, completed_event_ids);
  Ret result.2.

(** The kick that [offer_nowait] gives, or the period. *)
Definition kicked : task unit :=
  catch (await (Sleep PERIODIC_DRAIN)) (λ e, match e with TimeoutError _ => Ret tt | _ => Throw e end).

Definition run_periodically (periods claims ticks : nat) (completed_event_ids : list UUID) : task (list UUID) :=
  ready ← from_result available;
  _ ← throw_if (negb ready) (RuntimeError "subject revocation worker unavailable");
  catch (rounds periods (λ ids,
      stop ← await Stop;
      if (stop : bool) then Ret None
      else
        _ ← kicked;
        drain ← _drain_available claims ticks ids;
        Ret (Some drain.2)) completed_event_ids)
    (λ e, _ ← await (OnFatal e); Throw e).
End Worker.
