(* ===== verification/RevocationSafety.v ===== *)
(** * What a completed revocation event stands for

    Any number of workers, startup drains, revocations and budget clients run interleaved, with
    failures and cancellations at every await.  The tasks are proved one by one against a rely
    that all of them keep; the theorems are about the stores of a whole run, which starts on any store that meets the
    tables' constraints; a run leaves such a store again, so that they hold over restarts. *)

From S2P Require Import Prelude PttFraming BudgetPricing BudgetLedger BudgetGuard ProviderCalls BudgetReconciler BudgetSafety Tasks Outbox Revocation.

(** ** Closing the calls of a revoked subject *)

Section Closing.
Context `{CS : CallServices}.

Definition open_call_of (subject_id : UUID) (db : BudgetDB) (call_id : UUID) : Prop :=
  ∃ c raw a, calls db !! call_id = Some c ∧ cl_outcome c = started ∧
    settings db !! RouteKey (cl_authorization_id c) = Some (OtherValue raw) ∧
    parse_route_envelope raw = Some (a, Some subject_id).

(** A call closed in its own row is not open any more. *)
Lemma close_one subject id phase f db :
  (∀ c, cl_outcome (f c) ≠ started) →
  wp (update_call id (λ x, bool_decide (cl_outcome x = started) && bool_decide (cl_phase x = phase)) f) (λ _ db',
      settings db' = settings db ∧ (∀ i, i ≠ id → calls db' !! i = calls db !! i) ∧
      (∀ c, calls db !! id = Some c → cl_outcome c = started → cl_phase c = phase → ¬ open_call_of subject db' id))
    (λ _ _, True) db.
Proof.
  intros Hf. unfold update_call. wp_step. wp_step. destruct (calls db !! id) as [c|] eqn:Hc; [|by wp_steps].
  destruct (_ && _) eqn:Hg; wp_steps; (split; [done|split; [|intros c0 [= <-] Ho Hp]]); cbn.
  - intros i Hi. by rewrite lookup_insert_ne.
  - intros (c' & raw & a & Hc' & Ho' & _). cbn in Hc'. rewrite lookup_insert_eq in Hc'. injection Hc' as <-.
    by apply (Hf c).
  - done.
  - by rewrite !bool_decide_true in Hg by done.
Qed.

Lemma close_revoked_call_spec subject now id c db :
  wp (close_revoked_call subject now (id, c)) (λ _ db', settings db' = settings db ∧
      (∀ i, i ≠ id → calls db' !! i = calls db !! i) ∧
      (calls db !! id = Some c → cl_outcome c = started → ¬ open_call_of subject db' id)) (λ _ _, True) db.
Proof.
  unfold close_revoked_call. wp_step. wp_step. destruct (settings db !! _) as [[| | |raw]|] eqn:Hset; [done..| |done].
  destruct (parse_route_envelope raw) as [[a subj]|] eqn:Hp; [|done]. wp_step. wp_step; [|done].
  case_bool_decide as Hs; cbn [negb].
  - destruct (cl_phase c) eqn:Hph; try done; wp_step;
      (eapply wp_mono; [apply (close_one subject); done| |done]);
      intros ? db' (? & ? & Hn); wp_steps; (split; [done|split; [done|]]); intros ? ?; by eapply Hn.
  - wp_steps. split; [done|split; [done|]]. intros Hc _ (c' & raw' & a' & Hc' & _ & Hset' & Hp'). by simplify_eq.
Qed.

Lemma close_revoked_calls_spec subject now rows db :
  NoDup rows.*1 → (∀ id c, (id, c) ∈ rows → calls db !! id = Some c ∧ cl_outcome c = started) →
  wp (close_revoked_calls subject now rows) (λ _ db', settings db' = settings db ∧
      (∀ i, i ∉ rows.*1 → calls db' !! i = calls db !! i) ∧
      (∀ i, i ∈ rows.*1 → ¬ open_call_of subject db' i)) (λ _ _, True) db.
Proof.
  revert db. induction rows as [|[id c] rows IH]; intros db Hnd Hrows; cbn.
  { wp_steps. split; [done|split; [done|]]. intros i Hi. by apply not_elem_of_nil in Hi. }
  apply NoDup_cons in Hnd as [Hid Hnd]. wp_step. eapply wp_mono; [apply close_revoked_call_spec| |done].
  intros first db1 (Hs1 & Hf1 & Hc1). wp_step. eapply wp_mono; [apply IH; [done|]| |done].
  { intros i c' Hi. rewrite Hf1; [apply Hrows; by right|]. intros ->. apply Hid. by apply (list_elem_of_fmap_2 fst _ (id, c')). }
  intros others db2 (Hs2 & Hf2 & Hc2). wp_steps. split; [congruence|split].
  - intros i [Hi Hi']%not_elem_of_cons. rewrite Hf2, Hf1; done.
  - intros i [->|Hi]%elem_of_cons; [|by apply Hc2].
    destruct (Hrows id c) as [Hc Ho]; [left|]. specialize (Hc1 Hc Ho). intros (c' & raw & a & H1 & H2 & H3 & H4).
    apply Hc1. exists c', raw, a. rewrite Hf2 in H1 by done. by rewrite Hs2 in H3.
Qed.

(** Settling reservations leaves the calls alone. *)
Definition calls_kept (db db' : BudgetDB) : Prop := calls db' = calls db ∧ settings db' = settings db.
#[local] Instance calls_kept_preorder : PreOrder calls_kept.
Proof. split; [done|]. intros ? ? ? [] []. split; congruence. Qed.

Lemma settle_each_kept ids now db : wp (settle_each ids now) (λ _, calls_kept db) (λ _ _, True) db.
Proof.
  revert db. induction ids as [|id ids IH]; intros db; [by wp_steps|]. cbn. wp_step.
  unfold _require_conservative_reservation_settlement. cbn zeta. wp_step.
  eapply (wp_mono _ (λ _, calls_kept db) _ (λ _ _, True)); [| |done].
  - unfold _settle_budget_reservation, update_reservation. by wp_steps.
  - intros changed db1 H1. assert (wp (settle_each ids now) (λ _, calls_kept db) (λ _ _, True) db1) as Hrest.
    { eapply wp_mono; [apply IH| |done]. intros ? ? ?. by etrans. }
    destruct (_ =? _); wp_step; [done|]. wp_step. destruct (reservations db1 !! id); [wp_step|]; done.
Qed.

(** The moment a revocation returns, the subject has no open call. *)
Lemma reconcile_revoked_none_open subject now db :
  wp (reconcile_revoked_subject_once subject now) (λ _ db', ∀ id, ¬ open_call_of subject db' id) (λ _ _, True) db.
Proof.
  assert (wp (_close_and_settle_revoked_subject_provider_calls subject now)
    (λ _ db', ∀ id, ¬ open_call_of subject db' id) (λ _ _, True) db) as Hw; last first.
  { unfold reconcile_revoked_subject_once, in_uow, wp in *. by destruct (_close_and_settle_revoked_subject_provider_calls subject now db) as [[?|?] ?]. }
  unfold _close_and_settle_revoked_subject_provider_calls, _close_revoked_subject_provider_calls.
  wp_step. wp_step. wp_step. set (rows := filter _ _). eapply wp_mono; [apply close_revoked_calls_spec| |done].
  - subst rows. eapply sublist_NoDup; [apply (NoDup_fst_map_to_list (calls db))|].
    apply fmap_sublist, sublist_filter.
  - intros id c [Hs Hin]%list_elem_of_filter. split; [by apply elem_of_map_to_list|done].
  - intros ids db1 (Hs1 & Hf1 & Hc1). wp_step. eapply wp_mono; [apply settle_each_kept| |done].
    intros [] db2 [H1 H2]. wp_steps. intros id (c & raw & a & Hc & Ho & Hset & Hp). rewrite H1 in Hc. rewrite H2 in Hset.
    destruct (decide (id ∈ rows.*1)) as [Hin|Hin]; [apply (Hc1 id Hin); by exists c, raw, a|].
    rewrite Hf1 in Hc by done. apply Hin. apply (list_elem_of_fmap_2 fst _ (id, c)), list_elem_of_filter.
    split; [done|]. by apply elem_of_map_to_list.
Qed.
End Closing.

(** ** What the tasks keep *)

Section Rely.
Context {Search : Type} `{RS : !RevocationServices Search} `{CS : CallServices}.
#[local] Abbreviation task := (prog (call Search) exn).
#[local] Abbreviation log := (Logged (World Search)).
#[local] Abbreviation identity l := (w_identity (present l)).

(** While the event was there, the subject had no open call at some moment of the run. *)
Definition calls_closed (event_id subject_id : UUID) (l : log) : Prop :=
  ∃ w, w ∈ past l ∧ is_Some (outbox (w_identity w) !! event_id) ∧ ∀ call_id, ¬ open_call_of subject_id (w_budget w) call_id.

Definition effect_vouched (r : EffectRow) (l : log) : Prop :=
  (∃ d, ef_disposition r = Some d ∧ d ∈ ALLOWED_DOWNSTREAM_DISPOSITIONS) ∧
  (∃ event, outbox (identity l) !! ef_event_id r = Some event ∧
    (ef_family r = "provider_routes"%string → calls_closed (ef_event_id r) (ob_subject_id event) l)).

Definition effect_settled (event_id : UUID) (family : string) (l : log) : Prop :=
  ∃ r, effects (identity l) !! uuid5 event_id family = Some r ∧ ef_state r = ef_completed ∧
    ef_event_id r = event_id ∧ ef_family r = family.

(** [base]: the identity tables as the process finds them.  What was completed before is
    left as it is; what is completed now is accounted for. *)
Context (base : RevocationDB).

Record inv (l : log) : Prop := {
  inv_ok : revocation_ok (identity l);
  inv_past : present l ∈ past l;
  inv_effects : ∀ key r, effects (identity l) !! key = Some r → ef_state r = ef_completed →
    effects base !! key = Some r ∨ effect_vouched r l;
  inv_events : ∀ id event, outbox (identity l) !! id = Some event → ob_state event = completed →
    outbox base !! id = Some event ∨ ∀ family, family ∈ POST_COMMIT_FAMILIES → effect_settled id family l;
}.

Record later (l l' : log) : Prop := {
  later_identity : rev_evolves (identity l) (identity l');
  later_past : past l ⊆ past l';
}.
#[export] Instance later_preorder : PreOrder later.
Proof. split; [by constructor|]. intros ? ? ? [] []. constructor; by etrans. Qed.

(** The rely and the guarantee of every task, and assertions about results. *)
#[local] Abbreviation orderly := (ordered inv later).
#[local] Abbreviation returns := (ending (X := exn) inv).
#[local] Abbreviation lasting := (lasting_in later).

Lemma calls_closed_mono event_id subject l l' : later l l' → calls_closed event_id subject l → calls_closed event_id subject l'.
Proof. intros [_ Hp] (w & Hw & H). exists w. split; [by apply Hp|done]. Qed.
Lemma effect_vouched_mono r l l' : later l l' → effect_vouched r l → effect_vouched r l'.
Proof.
  intros Hl [Hd (event & He & Hc)]. split; [done|]. destruct (ev_outbox _ _ (later_identity _ _ Hl) _ _ He) as (e' & He' & E).
  exists e'. split; [done|]. intros Hf. rewrite (oe_subject _ _ E). by eapply calls_closed_mono, Hc.
Qed.
Lemma effect_settled_mono id family l l' : later l l' → effect_settled id family l → effect_settled id family l'.
Proof.
  intros Hl (r & Hr & Hs & H). destruct (ev_effects _ _ (later_identity _ _ Hl) _ _ Hr) as (r' & Hr' & E).
  exists r'. by rewrite (ee_final _ _ E Hs) in *.
Qed.

(** The log after a step to [w]. *)
Definition next (l : log) (w : World Search) : log := mkLogged w (w :: past l).

Lemma next_later l w : rev_evolves (identity l) (w_identity w) → later l (next l w).
Proof. intros He. constructor; [done|]. cbn. intros x ?. by right. Qed.

(** A step that answers for what it completes. *)
Lemma step_accounted l w :
  inv l → rev_good (identity l) (w_identity w) →
  (∀ key r, effects (w_identity w) !! key = Some r → ef_state r = ef_completed →
     effects (identity l) !! key = Some r ∨ effect_vouched r (next l w)) →
  (∀ id event, outbox (w_identity w) !! id = Some event → ob_state event = completed →
     outbox (identity l) !! id = Some event ∨ ∀ family, family ∈ POST_COMMIT_FAMILIES → effect_settled id family l) →
  inv (next l w) ∧ later l (next l w).
Proof.
  intros Hi [Hok He] Hne Hno. pose proof (next_later l w He) as Hl. split; [|done]. constructor; cbn; [done|left| |].
  - intros key r Hr Hs. destruct (Hne key r Hr Hs) as [Hold|?]; [|by right].
    destruct (inv_effects _ Hi _ _ Hold Hs) as [?|Hv]; [by left|right]. by apply (effect_vouched_mono r l).
  - intros id event Hev Hs.
    assert (outbox base !! id = Some event ∨ ∀ family, family ∈ POST_COMMIT_FAMILIES → effect_settled id family l)
      as [?|Hall]; [|by left|right; intros family Hf; by apply (effect_settled_mono id family l), Hall].
    destruct (Hno id event Hev Hs) as [Hold|Hall]; [by apply (inv_events _ Hi)|by right].
Qed.
Lemma step_calm l w : inv l → calm (identity l) (w_identity w) → inv (next l w) ∧ later l (next l w).
Proof. intros Hi [Hg [Hno Hne]]. apply step_accounted; [done..| |]; intros; left; auto. Qed.

(** A call that does not touch the identity tables. *)
Definition silent (c : call Search) : bool := match c with Identity _ => false | _ => true end.
Lemma silent_identity c e l : silent c = true → identity (perform_call c e l).2 = identity l.
Proof.
  rewrite perform_logged. destruct c as [A m|A m|A m| | | | | | |]; try done; intros _; cbn;
    unfold cancellable, faulty, budget_uow, on_budget, on_search; destruct (en_fault e) as [[[] ?]|]; cbn; try done.
  all: try by destruct (m _) as [[?|?] ?].
Qed.

Lemma perform_next (c : call Search) e (l : log) : (perform_call c e l).2 = next l (perform_call c e (present l)).2.
Proof. rewrite perform_logged. by destruct (perform_call c e (present l)). Qed.
Lemma perform_answer (c : call Search) e (l : log) : (perform_call c e l).1 = (perform_call c e (present l)).1.
Proof. rewrite perform_logged. by destruct (perform_call c e (present l)). Qed.

Lemma orderly_silent c e l : silent c = true → orderly l (perform_call c e l).2.
Proof.
  intros Hc Hi. rewrite perform_next. pose proof (silent_identity c e l Hc) as He. rewrite perform_next in He. cbn in He.
  apply step_calm; [done|]. rewrite He. apply calm_refl, Hi.
Qed.

Lemma holds_silent {A} c (k : answer c → task A) Q l :
  silent c = true → (∀ e, Q (Raise e) = λ _, True) → inv l →
  (∀ a l1, inv l1 → later l l1 → holds (E := Env) orderly (k a) Q l1) → holds (E := Env) orderly (await c ≫= k) Q l.
Proof.
  intros Hc HQ Hi Hk. apply holds_bind, holds_await. intros l1 e Hl1. pose proof (orderly_silent c e l1 Hc) as Hs.
  split; [done|]. destruct (Hl1 Hi) as [Hi1 Hl]. destruct (Hs Hi1) as [Hi2 Hl2].
  destruct (perform_call c e l1).1; [|by rewrite HQ]. apply Hk; [done|by etrans].
Qed.

(** What a unit of work has to leave behind. *)
Definition step_ok (l : log) (db : RevocationDB) : Prop :=
  let l' := next l (mkWorld db (w_budget (present l)) (w_search (present l))) in inv l' ∧ later l l'.

Lemma step_ok_calm l db : inv l → calm (identity l) db → step_ok l db.
Proof. intros Hi Hc. by apply step_calm. Qed.

Lemma holds_identity {A} (m : M RevocationDB exn A) (Q : A → log → Prop) l :
  inv l →
  (∀ l1, inv l1 → later l l1 → wp m (λ a db, step_ok l1 db ∧
     Q a (next l1 (mkWorld db (w_budget (present l1)) (w_search (present l1))))) (λ _ db, step_ok l1 db) (identity l1)) →
  holds (E := Env) orderly (@await _ revocation_calls exn (Identity m)) (returns Q) l.
Proof.
  intros Hi Hm. apply holds_await. intros l1 e Hl1. destruct (Hl1 Hi) as [Hi1 Hl].
  specialize (Hm l1 Hi1 Hl). rewrite perform_next, perform_answer. cbn. unfold faulty, on_identity, wp in *.
  pose proof (step_calm l1 (present l1) Hi1 (calm_refl _ (inv_ok _ Hi1))) as Hstay.
  destruct (en_fault e) as [[[] x]|]; cbn; destruct (m (identity l1)) as [[a|x'] db]; cbn.
  all: try destruct Hm as [Hs Ha]; split; try (intros _; first [exact Hs|exact Hm|exact Hstay]); try done.
  split; [apply Hs|exact Ha].
Qed.

Lemma holds_keeps {A} (m : M RevocationDB exn A) l :
  rev_keeps m → inv l → holds (E := Env) orderly (@await _ revocation_calls exn (Identity m)) (returns (λ _ _, True)) l.
Proof.
  intros Hm Hi. apply holds_identity; [done|]. intros l1 Hi1 Hl1.
  eapply wp_mono; [by apply Hm, Hi1| |]; intros; [split; [|done]|]; by apply step_ok_calm.
Qed.

(** *** Heartbeats *)

Lemma interrupted_before (c : call Search) l :
  suspends c = true → ∃ e, perform_call c e (present l) = (Raise CancelledError, present l).
Proof.
  intros Hc. exists (mkEnv 0 0 false Stopped None (Some (false, CancelledError))).
  by destruct c; cbn in *; try done; unfold cancellable, faulty; cbn.
Qed.
Lemma interrupted_after (c : call Search) e l :
  suspends c = true → ∃ e', perform_call c e' (present l) = (Raise CancelledError, (perform_call c e (present l)).2).
Proof.
  intros Hc.
  exists (mkEnv (en_now e) (en_fresh e) (en_stop e) (en_beat e) (en_delivery e)
    (Some (match en_fault e with Some (b, _) => b | None => true end, CancelledError))).
  destruct c; cbn in *; try done; unfold cancellable, faulty; destruct (en_fault e) as [[[] ?]|]; done.
Qed.

#[local] Abbreviation meets p Q l := (holds (E := Env) orderly p Q l).

Lemma meets_silent c Q l :
  silent c = true → (∀ r l1, orderly l l1 → Q r l1) → meets (@await _ revocation_calls exn c) Q l.
Proof.
  intros Hc HQ. apply holds_await. intros l1 e Hl1. pose proof (orderly_silent c e l1 Hc) as Hs. split; [done|].
  apply HQ. by etrans.
Qed.

Lemma delivery_stays e (l : log) : (perform_call Delivery e l).2 = next l (present l).
Proof. rewrite perform_next. f_equal. cbn. unfold cancellable, faulty. by destruct (en_fault e) as [[[] ?]|]. Qed.

Lemma meets_wind_down {A} (p : task A) Q l : meets p Q l → meets (wind_down p) (λ _ _, True) l.
Proof.
  revert l. induction p as [a|x| |c k IH]; intros l Hp; cbn [wind_down]; [done..|].
  destruct (suspends c) eqn:Hc.
  - intros l1 e Hl1. split; [by apply orderly_silent|]. rewrite delivery_stays.
    assert (meets (wind_down (k (Raise CancelledError))) (λ _ _, True) (next l1 (present l1))) as Hdrop.
    { destruct (interrupted_before c l1 Hc) as [e' He]. destruct (Hp l1 e' Hl1) as [_ Hk].
      rewrite perform_next, perform_answer, He in Hk. exact (IH _ _ Hk). }
    assert (orderly l (next l1 (present l1))) as Hl2.
    { etrans; [exact Hl1|]. rewrite <- (delivery_stays e). by apply orderly_silent. }
    destruct (perform_call Delivery e l1).1 as [[[]|]|x]; [|exact Hdrop| |].
    + intros l3 e3 Hl3. destruct (interrupted_after c e3 l3 Hc) as [e' He].
      destruct (Hp l3 e' (transitivity Hl2 Hl3)) as [H1 H2]. rewrite perform_next, ?perform_answer, He in *.
      split; [done|]. apply holds_bind. eapply (meets_mono inv later); [|exact (IH _ _ H2)]. by intros [?|?].
    + intros l3 e3 Hl3. destruct (Hp l3 e3 (transitivity Hl2 Hl3)) as [H1 H2]. split; [done|].
      apply holds_bind. eapply (meets_mono inv later); [|exact (IH _ _ H2)]. by intros [?|?].
    + apply holds_bind. eapply (meets_mono inv later); [|exact Hdrop]. by intros [?|?].
  - intros l1 e Hl1. destruct (Hp l1 e Hl1) as [H1 H2]. split; [done|]. exact (IH _ _ H2).
Qed.

Section Heartbeat.
Context (renewal : Z → task bool) (Hrenewal : ∀ now l, meets (renewal now) (λ _ _, True) l).

Lemma meets_renewed l : meets (renewed renewal) (λ _ _, True) l.
Proof.
  unfold renewed. apply holds_catch, holds_bind, (meets_silent Now); [done|]. intros [now|x] l1 _; [|done]. apply holds_bind.
  eapply (meets_mono inv later); [|apply Hrenewal]. by intros [?|?].
Qed.

Lemma meets_cancel_because {A B} (p : task A) Q r (Q' : B → log → Prop) l :
  meets p Q l → meets (cancel_because p r) (returns Q') l.
Proof. intros Hp. apply holds_bind. eapply (meets_mono inv later); [|by eapply meets_wind_down]. by intros [?|?]. Qed.

Lemma meets_outcome {A} under_way (p : task A) (Q : A → log → Prop) l :
  stable orderly (returns Q) → meets p (returns Q) l → meets (outcome under_way renewal p) (returns Q) l.
Proof.
  intros HQ Hp. apply holds_bind, (meets_silent Beat); [done|]. intros wake l1 Hl1.
  assert (∀ l', orderly l1 l' → meets p (returns Q) l') as Hp'.
  { intros l' Hl'. eapply (meets_stable inv later); [done| |exact Hp]. by etrans. }
  destruct wake as [[]|x]; [by apply Hp'| |done..]. destruct under_way; [|by apply Hp'].
  apply holds_bind. eapply (meets_mono inv later); [|apply meets_renewed]. intros [[[]|]|x] l' Hl' _; by try apply Hp'.
Qed.

Lemma meets_beats {A} ticks (p step : task A) (Q Q' : A → log → Prop) l :
  stable orderly (returns Q) → meets p (returns Q) l → (∀ l', orderly l l' → meets step (returns Q') l') →
  meets (beats ticks renewal p step) (returns Q') l.
Proof.
  intros HQ. revert l. induction ticks as [|ticks IH]; intros l Hp Hstep; cbn [beats]; [done|].
  apply holds_bind, holds_catch, (meets_silent Beat); [done|]. intros wake l1 Hl1.
  assert (∀ l', orderly l1 l' → meets p (returns Q) l') as Hp'.
  { intros l' Hl'. eapply (meets_stable inv later); [done| |exact Hp]. by etrans. }
  destruct wake as [[]|x].
  - by apply Hstep.
  - apply holds_bind. eapply (meets_mono inv later); [|apply meets_renewed]. intros r l' Hl' _.
    destruct r as [[[]|x]|x]; [|by eapply meets_cancel_because, Hp'..|done].
    apply IH; [by apply Hp'|]. intros l'' Hl''. apply Hstep. by do 2 (etrans; [done|]).
  - by eapply meets_cancel_because, Hp'.
  - change (meets (cancel_because p (Raise CancelledError)) (returns Q') l1). by eapply meets_cancel_because, Hp'.
Qed.

(** An operation under heartbeats still does what it does, whatever the renewals answer. *)
Lemma meets_heartbeat {A} ticks under_way (p : task A) (Q : A → log → Prop) l :
  lasting Q → meets p (returns Q) l → meets (heartbeat ticks under_way renewal p) (returns Q) l.
Proof.
  intros HQ%(stable_ending (X := exn) inv later). revert under_way l. induction p as [a|x| |c k IH]; intros under_way l Hp;
    cbn [heartbeat]; [by apply meets_outcome..|done|].
  eapply meets_beats; [exact HQ|exact Hp|]. intros l' Hl' l1 e Hl1. destruct (Hp l1 e) as [H1 H2]; [by etrans|].
  split; [done|]. exact (IH _ _ _ H2).
Qed.
End Heartbeat.

(** *** Rules for the tasks *)

Lemma meets_keeps {A B} (m : M RevocationDB exn A) (k : A → task B) (Q : B → log → Prop) l :
  rev_keeps m → inv l → (∀ a l1, inv l1 → later l l1 → meets (k a) (returns Q) l1) →
  meets (@await _ revocation_calls exn (Identity m) ≫= k) (returns Q) l.
Proof. intros Hm Hi Hk. eapply (meets_bind inv later); [done|by apply holds_keeps|]. intros a l1 ? ? _. by apply Hk. Qed.

Lemma meets_ask {A} (c : call Search) (k : answer c → task A) (Q : A → log → Prop) l :
  silent c = true → inv l → (∀ a l1, inv l1 → later l l1 → meets (k a) (returns Q) l1) →
  meets (await c ≫= k) (returns Q) l.
Proof. intros Hc Hi Hk. by apply holds_silent. Qed.

Lemma meets_except {A} (p : task A) h (Q : A → log → Prop) l :
  inv l → meets p (returns Q) l → (∀ e l', inv l' → meets (h e) (returns (λ _ _, True)) l') →
  meets (except_error p h) (returns Q) l.
Proof.
  intros Hi Hp Hh. apply holds_catch. eapply (meets_mono inv later); [|exact Hp]. intros [a|e] l1 Hl1; [done|]. intros _.
  assert (meets (_ ← h e; Throw e : task A) (returns Q) l1) as Hw.
  { eapply (meets_bind inv later); [by apply Hl1|by apply Hh, Hl1|done]. }
  by destruct e; cbn [is_exception].
Qed.

Lemma meets_renewal {A} (m : Z → M RevocationDB exn A) now l :
  (∀ now, rev_keeps (m now)) → meets (@await _ revocation_calls exn (Identity (m now))) (λ _ _, True) l.
Proof.
  intros Hm. apply holds_await. intros l1 e _. split; [|done]. intros Hi. rewrite perform_next. apply step_calm; [done|].
  specialize (Hm now _ (inv_ok _ Hi)). cbn. unfold faulty, on_identity, wp in *.
  pose proof (calm_refl _ (inv_ok _ Hi)). by destruct (en_fault e) as [[[] ?]|], (m now (identity l1)) as [[?|?] ?].
Qed.

(** *** The handlers *)

Lemma apply_spec family event_id subject through key l :
  inv l → is_Some (outbox (identity l) !! event_id) →
  meets (_apply family event_id subject through key)
    (returns (λ _ l', family = "provider_routes"%string → calls_closed event_id subject l')) l.
Proof.
  intros Hi [o Ho]. unfold _apply. cbn zeta. case_bool_decide as Hp.
  - apply (meets_ask Now); [done..|]. intros now l1 Hi1 Hl1.
    eapply (meets_bind inv later _ _ (λ _ l', calls_closed event_id subject l')); [done| |].
    + apply (holds_await _ (Budget _)). intros l2 e Hl2. split; [by apply orderly_silent|].
      pose proof (orderly_silent (Budget (reconcile_revoked_subject_once subject now)) e l2 eq_refl) as Hs.
      destruct (Hl2 Hi1) as [Hi2 Hl12]. destruct (Hs Hi2) as [Hi3 _].
      destruct (perform_call _ e l2).1 as [ids|x] eqn:Hr; [|done]. split; [done|].
      destruct (ev_outbox _ _ (later_identity _ _ Hl1) _ _ Ho) as (o1 & Ho1 & _).
      destruct (ev_outbox _ _ (later_identity _ _ Hl12) _ _ Ho1) as (o2 & Ho2 & _).
      exists (present (perform_call (Budget (reconcile_revoked_subject_once subject now)) e l2).2).
      rewrite (silent_identity _ e l2) by done. rewrite perform_next. split; [left|split; [by rewrite Ho2|]].
      rewrite perform_answer in Hr. cbn in Hr |- *. unfold faulty, budget_uow, on_budget in *.
      destruct (en_fault e) as [[? ?]|]; [done|].
      pose proof (reconcile_revoked_none_open subject now (w_budget (present l2))) as Hw. unfold wp in Hw.
      by destruct (reconcile_revoked_subject_once _ _ _) as [[?|?] ?].
    + intros ids l2 Hi2 Hl2 Hc. by split.
  - case_bool_decide as Hsc.
    + destruct search_present; [|by split]. apply (meets_silent (SearchStore _)); [done|].
      intros [d|x] l1 Hl1; [|done]. split; [by apply Hl1|done].
    + apply holds_bind, holds_from. destruct (require_schema_and_facade_absent _ _); [|done]. by split.
Qed.

Lemma step_ok_effect l key r d now :
  inv l → scoped key (de_event_id d) (de_family d) (de_subject_id d) (de_through_generation d) (identity l) →
  effects (identity l) !! key = Some r → de_disposition d ∈ ALLOWED_DOWNSTREAM_DISPOSITIONS →
  (de_family d = "provider_routes"%string → calls_closed (de_event_id d) (de_subject_id d) l) →
  let db := set_effects (<[key := effect_completed_row d now r]> (effects (identity l))) (identity l) in
  rev_good (identity l) db → step_ok l db.
Proof.
  intros Hi (r' & o & Hr' & Ho & He & Hf & Hsub & _) Hr Hd Hc db Hg. simplify_eq. apply step_accounted; [done..| |by left].
  intros k x. cbn. destruct (decide (key = k)) as [<-|Hne]; [|rewrite lookup_insert_ne by done; by left].
  rewrite lookup_insert_eq. intros [= <-] _. right. split; [by exists (de_disposition d)|]. exists o. cbn.
  rewrite He, Hf in *. split; [done|]. intros Hp. rewrite Hsub. apply (calls_closed_mono _ _ l); [|by apply Hc].
  apply next_later, Hg.
Qed.

Lemma started_once_spec ticks family event_id subject through owner l :
  inv l →
  meets (reconcile_started_once ticks family event_id subject through (uuid5 event_id family) owner)
    (returns (λ d l', match d with inl _ => effect_settled event_id family l' | inr _ => True end)) l.
Proof.
  intros Hi. unfold reconcile_started_once. set (key := uuid5 event_id family).
  apply (meets_ask Now); [done..|]. intros now l1 Hi1 _.
  eapply (meets_bind inv later _ _ (λ c l', scoped key event_id family subject through (identity l') ∧
    match c with already_completed _ => effect_settled event_id family l' | _ => True end)); [done| |].
  { apply holds_identity; [done|]. intros l2 Hi2 _. eapply wp_mono; [apply effect_claim_spec, Hi2| |by intros; apply step_ok_calm].
    intros c db (Hc & Hs & Hdone). split; [by apply step_ok_calm|]. split; [done|]. destruct c as [? ?|?|d]; [done..|].
    destruct Hs as (r & o & Hr & _ & He & Hf & _), Hdone as (r' & Hr' & Hst & _). exists r. by simplify_eq. }
  intros claim l2 Hi2 _ [Hs Hdone]. destruct claim as [token until|until|d]; [|by split..].
  eapply (meets_bind inv later _ _ (λ d l', in_scope family event_id subject through key d = true ∧
    de_disposition d ∈ ALLOWED_DOWNSTREAM_DISPOSITIONS ∧
    (family = "provider_routes"%string → calls_closed event_id subject l'))); [done| |].
  - apply meets_except; [done| |].
    + eapply (meets_bind inv later _ _ (λ _ l', family = "provider_routes"%string → calls_closed event_id subject l'));
        [done|apply meets_heartbeat|].
      * intros ? l3. by apply (meets_renewal (λ now, effect_renew key owner token now)), keeps_effect_renew.
      * intros ? ? ? ? Hc ?. eapply calls_closed_mono; [done|by apply Hc].
      * apply apply_spec; [done|]. destruct Hs as (? & o & _ & Ho & _). by exists o.
      * intros d l3 Hi3 _ Hc. apply meets_throw_if. intros Hsc. apply meets_throw_if. intros Hd. bool_props. by split.
    + intros e l3 Hi3. apply (meets_ask Now); [done..|]. intros now' l4 Hi4 _. by apply holds_keeps, Hi4; apply keeps_effect_abandon.
  - intros d l3 Hi3 Hl3 (Hsc & Hd & Hc). apply (meets_ask Now); [done..|]. intros now' l4 Hi4 Hl4.
    unfold in_scope in Hsc. bool_props. subst.
    eapply (meets_bind inv later _ _ (λ _ l', effect_settled (de_event_id d) (de_family d) l')); [done| |by split].
    apply holds_identity; [done|]. intros l5 Hi5 Hl5.
    eapply wp_mono; [apply effect_complete_spec, Hi5| |intros ? ? ->; by apply step_ok_calm, calm_refl, Hi5].
    intros [] db (Hg & Hs5 & r & Hr & ->). split.
    + apply (step_ok_effect l5 key r d now'); try done. intros Hp. eapply calls_closed_mono; [|by apply Hc]. by etrans.
    + destruct Hs5 as (r' & o & Hr' & _ & He & Hf & _). rewrite Hr in Hr'. injection Hr' as <-.
      exists (effect_completed_row d now' r). cbn. by rewrite lookup_insert_eq.
Qed.

(** *** The processor and the worker *)

Lemma families_spec ticks event_id event owner families dispositions (before : list string) l :
  inv l → (∀ family, family ∈ before → effect_settled event_id family l) →
  meets (reconcile_families ticks event_id event owner families dispositions)
    (returns (λ r l', match r with
       | inl _ => ∀ family, family ∈ before ++ families → effect_settled event_id family l'
       | inr _ => True end)) l.
Proof.
  revert dispositions before l. induction families as [|family families IH]; intros dispositions before l Hi Hb; cbn [reconcile_families].
  { rewrite app_nil_r. by split. }
  eapply (meets_bind inv later); [done|by apply started_once_spec|]. intros [d|until] l1 Hi1 Hl1 Hd; [|by split].
  apply meets_throw_if. intros _. rewrite (cons_middle family before families), app_assoc. apply IH; [done|].
  intros f [Hf| ->%list_elem_of_singleton]%elem_of_app; [|done]. by eapply effect_settled_mono, Hb.
Qed.

Lemma step_ok_complete l id event receipt now :
  inv l → outbox (identity l) !! id = Some event →
  (∀ family, family ∈ POST_COMMIT_FAMILIES → effect_settled id family l) →
  let db := set_outbox (<[id := completed_row receipt now event]> (outbox (identity l))) (identity l) in
  rev_good (identity l) db → step_ok l db.
Proof.
  intros Hi He Hall db Hg. apply step_accounted; [done..|by left|]. intros k x. cbn.
  destruct (decide (id = k)) as [<-|Hne]; [by right|]. rewrite lookup_insert_ne by done. by left.
Qed.

Lemma process_claim_spec ticks claim l :
  inv l → meets (_process_claim ticks claim) (returns (λ _ _, True)) l.
Proof.
  intros Hi. unfold _process_claim. cbn zeta. apply meets_except; [done| |].
  - eapply (meets_bind inv later _ _ (λ r l', match r with
       | inl _ => ∀ family, family ∈ POST_COMMIT_FAMILIES → effect_settled (oc_event_id claim) family l'
       | inr _ => True end)); [done|apply meets_heartbeat|].
    + intros now l1. by apply (meets_renewal (λ now, renew (oc_event_id claim) (oc_lease_owner claim) (oc_fencing_token claim) now)), keeps_renew.
    + intros [?|?] ? ? ? Hall; [|done]. intros family Hf. by eapply effect_settled_mono, Hall.
    + apply meets_throw_if. intros _. apply (families_spec _ _ _ _ _ _ []); [done|].
      by intros ? ?%not_elem_of_nil.
    + intros [receipt|until] l1 Hi1 _ Hall; (apply (meets_ask Now); [done..|]); intros now l2 Hi2 Hl2.
      * eapply (meets_bind inv later _ _ (λ _ _, True)); [done| |by split]. apply holds_identity; [done|]. intros l3 Hi3 Hl3.
        eapply wp_mono; [apply complete_spec, Hi3| |intros ? ? ->; by apply step_ok_calm, calm_refl, Hi3].
        intros [] db (Hg & r & Hr & ->). split; [|done]. apply (step_ok_complete l3 _ r); [done..| |done].
        intros family Hf. eapply effect_settled_mono; [|by apply Hall]. by etrans.
      * apply meets_keeps; [apply keeps_defer|done|by split].
  - intros e l1 Hi1. apply (meets_ask Now); [done..|]. intros now l2 Hi2 _. by apply holds_keeps, Hi2; apply keeps_retry.
Qed.

Lemma worker_drain_spec claims ticks ids l : inv l → meets (_drain_available claims ticks ids) (returns (λ _ _, True)) l.
Proof.
  intros Hi. unfold _drain_available. apply (meets_ask Now); [done..|]. intros now l1 Hi1 _.
  apply meets_keeps; [apply keeps_recover_expired|done|]. intros _ l2 Hi2 _.
  apply (meets_ask Now); [done..|]. intros now' l3 Hi3 _.
  apply meets_keeps; [apply keeps_recover_stale|done|]. intros _ l4 Hi4 _.
  apply (holds_rounds orderly _ _ (λ _ l', inv l')); [|done]. intros [processed ids'] l5 _ Hi5.
  eapply (meets_mono inv later); [|apply (meets_ask Now _ (λ r l', inv l')); [done..|]].
  { by intros [[?|]|?] l' _; [intros [? _]..|]. }
  intros now5 l6 Hi6 _. apply (meets_ask Fresh); [done..|]. intros owner l7 Hi7 _.
  apply meets_keeps; [apply keeps_claim_next|done|]. intros [claim|] l8 Hi8 _; [|by split].
  eapply (meets_bind inv later); [done|by apply process_claim_spec|]. intros receipt l9 Hi9 _ _. by split.
Qed.

Lemma keeps_read {A} (f : RevocationDB → A) : rev_keeps (gets f).
Proof. intros db Hok. wp_step. by apply calm_refl. Qed.

Lemma pending_none db : pending_count db = 0 → ∀ id r, outbox db !! id = Some r → ob_state r = completed.
Proof.
  unfold pending_count, len. intros Hl id r Hr. destruct (decide (ob_state r = completed)) as [|Hne]; [done|exfalso].
  assert ((id, r) ∈ filter (λ p : UUID * OutboxRow, ob_state p.2 ≠ completed) (map_to_list (outbox db))) as Hin.
  { apply list_elem_of_filter. split; [done|by apply elem_of_map_to_list]. }
  destruct (filter _ _); [by apply not_elem_of_nil in Hin|]. cbn in Hl. lia.
Qed.

(** The events of [l0] are completed. *)
Definition drained (l0 l : log) : Prop :=
  ∀ id event, outbox (identity l0) !! id = Some event →
    ∃ event', outbox (identity l) !! id = Some event' ∧ ob_state event' = completed.
Lemma drained_mono l0 l l' : later l l' → drained l0 l → drained l0 l'.
Proof.
  intros Hl Hd id event He. destruct (Hd id event He) as (e' & He' & Hs).
  destruct (ev_outbox _ _ (later_identity _ _ Hl) _ _ He') as (e'' & He'' & E). exists e''. by rewrite (oe_final _ _ E Hs) in *.
Qed.

Lemma count_spec {B} l0 (k : Z → task B) (Q : B → log → Prop) l :
  inv l → later l0 l → (∀ n l1, inv l1 → later l l1 → (n = 0 → drained l0 l1) → meets (k n) (returns Q) l1) →
  meets (@await _ revocation_calls exn (Identity (gets pending_count)) ≫= k) (returns Q) l.
Proof.
  intros Hi Hl0 Hk. eapply (meets_bind inv later _ _ (λ n l1, n = 0 → drained l0 l1)); [done| |done].
  apply holds_identity; [done|]. intros l1 Hi1 Hl1. wp_step.
  split; [by apply step_ok_calm, calm_refl, Hi1|]. intros H0 id event He.
  destruct (ev_outbox _ _ (later_identity _ _ (transitivity Hl0 Hl1)) _ _ He) as (e' & He' & _). exists e'.
  split; [done|]. by eapply pending_none.
Qed.

Lemma ready_spec waits claims ticks ids l :
  inv l → meets (recover_and_drain_before_ready waits claims ticks ids) (returns (λ _, drained l)) l.
Proof.
  intros Hi. unfold recover_and_drain_before_ready. apply holds_bind, holds_from. destruct available as [ready|]; [|done].
  apply meets_throw_if. intros _. apply (count_spec l); [done..|]. intros count l1 Hi1 Hl1 _. apply meets_throw_if. intros _.
  apply (meets_ask Now); [done..|]. intros now l2 Hi2 Hl2. cbn zeta.
  eapply (meets_bind inv later _ _ (λ _, drained l)); [done| |by split].
  apply (holds_rounds orderly _ _ (λ a l', (inv l' ∧ later l l') ∧ (a.1 = true → drained l l')));
    [|by split; [split; [|by etrans]|]].
  intros [finished ids'] l3 _ [[Hi3 Hl3] Hd]. cbn in Hd. destruct finished; [by split; [|apply Hd]|].
  eapply (meets_mono inv later); [|apply (count_spec l _ (λ r l', later l l' ∧
    match r with Some a => a.1 = true → drained l l' | None => drained l l' end))]; [by intros [[?|]|?] l' _; [intros (? & ? & ?)..|]|done..|].
  intros n l4 Hi4 Hl4 H0. destruct (n =? 0) eqn:Hn; bool_props; [by split; [|split; [etrans|apply H0]]|].
  eapply (meets_bind inv later); [done|by apply worker_drain_spec|]. intros drain l5 Hi5 Hl5 _. assert (later l l5) as Hl05 by (by do 2 (etrans; [done|])).
  apply (count_spec l); [done..|]. intros n' l6 Hi6 Hl6 H0'.
  destruct (n' =? 0) eqn:Hn'; bool_props; [by split; [|split; [etrans|intros _; apply H0']]|].
  apply meets_keeps; [apply keeps_read|done|]. intros [expiry|] l7 Hi7 Hl7; [|done]. apply meets_throw_if. intros _.
  apply (meets_ask (Sleep _)); [done..|]. intros _ l8 Hi8 Hl8. split; [done|]. split; [|done]. by do 3 (etrans; [done|]).
Qed.

Lemma periodic_spec periods claims ticks ids l :
  inv l → meets (run_periodically periods claims ticks ids) (returns (λ _ _, True)) l.
Proof.
  intros Hi. unfold run_periodically. apply holds_bind, holds_from. destruct available as [ready|]; [|done].
  apply meets_throw_if. intros _. apply holds_catch.
  eapply (meets_mono inv later _ (returns (λ _ _, True))).
  { intros [?|e] l1 Hl1; [done|]. intros _. apply (meets_ask (OnFatal e)); [done|by apply Hl1|done]. }
  apply (holds_rounds orderly _ _ (λ _ l', inv l')); [|done]. intros ids' l1 _ Hi1.
  eapply (meets_mono inv later); [|apply (meets_ask Stop _ (λ _ _, True)); [done..|]].
  { by intros [[?|]|?] l' _; [intros [? _]..|]. }
  intros [] l2 Hi2 _; [by split|]. eapply (meets_bind inv later _ _ (λ _ _, True)); [done| |].
  - apply holds_catch, (meets_silent (Sleep _)); [done|]. intros [?|e] l3 Hl3; [by split; [apply Hl3|]|].
    destruct e; try done. by split; [apply Hl3|].
  - intros _ l3 Hi3 _ _. eapply (meets_bind inv later); [done|by apply worker_drain_spec|]. by split.
Qed.
End Rely.

(** ** A process: workers, revocations and budget clients *)

Section Process.
Context {Search : Type} `{RS : !RevocationServices Search} `{CS : CallServices}.
#[local] Abbreviation task := (prog (call Search) exn).

(** [Revoke] is the unit of work in which a profile's revocation enqueues its event;
    [BudgetClient] does anything to the budget, one unit of work after another. *)
Inductive job :=
| Startup (waits claims ticks : nat)
| Periodic (periods claims ticks : nat)
| DrainOnce (claims ticks : nat)
| Revoke (event_key : string) (subject_id : UUID) (new_authority_generation : Z)
| BudgetClient (units : list (M BudgetDB budget_exn unit)).

Fixpoint budget_client (units : list (M BudgetDB budget_exn unit)) : task unit :=
  match units with
  | [] => Ret tt
  | m :: units => _ ← await (Budget m); budget_client units
  end.

Definition job_task (j : job) : task unit :=
  match j with
  | Startup waits claims ticks => _ ← recover_and_drain_before_ready waits claims ticks []; Ret tt
  | Periodic periods claims ticks => _ ← run_periodically periods claims ticks []; Ret tt
  | DrainOnce claims ticks => _ ← _drain_available claims ticks []; Ret tt
  | Revoke event_key subject_id generation =>
    event_id ← await Fresh;
    now ← await Now;
    _ ← await (Identity (unit_of_work (enqueue_in_uow event_id event_key subject_id generation now)));
    Ret tt
  | BudgetClient units => budget_client units
  end.

Definition spawned (jobs : list job) : list (task unit) := map job_task jobs.
Definition run_process (jobs : list job) (schedule : list (nat * Env)) (w : World Search) :
    list (task unit) * World Search := loop_run schedule (spawned jobs) w.

(** Nothing has been carried out yet. *)
Record fresh_start (w : World Search) : Prop := {
  fs_ok : revocation_ok (w_identity w);
  fs_events : ∀ id event, outbox (w_identity w) !! id = Some event → ob_state event ≠ completed;
  fs_effects : ∀ key r, effects (w_identity w) !! key = Some r → ef_state r ≠ ef_completed;
}.

(** A process may find anything completed already. *)
Lemma start_inv w : revocation_ok (w_identity w) → inv (w_identity w) (mkLogged w [w]).
Proof. intros Hok. constructor; cbn; [done|left|by left..]. Qed.

Lemma keeps_enqueue_uow id key subject generation now : rev_keeps (unit_of_work (enqueue_in_uow id key subject generation now)).
Proof. apply rev_keeps_uow. intros db Hok. eapply wp_mono; [by apply keeps_enqueue|done|done]. Qed.

(** What a job that has returned can say. *)
Definition job_post (l0 : Logged (World Search)) (j : job) : unit → Logged (World Search) → Prop := λ _ l,
  match j with Startup _ _ _ => drained l0 l | _ => True end.

Lemma job_spec base j l :
  inv base l →
  holds (E := Env) (ordered (inv base) later) (job_task j) (ending (X := exn) (inv base) (job_post l j)) l.
Proof.
  intros Hi. destruct j; cbn [job_task].
  - eapply (meets_bind (inv base) later); [done|by apply ready_spec|by split].
  - eapply (meets_bind (inv base) later); [done|by apply periodic_spec|by split].
  - eapply (meets_bind (inv base) later); [done|by apply worker_drain_spec|by split].
  - apply (meets_ask base Fresh); [done..|]. intros id l1 Hi1 _. apply (meets_ask base Now); [done..|]. intros now l2 Hi2 _.
    apply meets_keeps; [apply keeps_enqueue_uow|done|by split].
  - unfold job_post. revert l Hi. induction units as [|m units IH]; intros l Hi; [done|]. cbn [budget_client].
    apply (meets_ask base (Budget m)); [done..|]. intros ? l1 Hi1 _. by apply IH.
Qed.

Lemma job_post_lasts l0 j : lasting_in later (job_post l0 j).
Proof. intros [] l l' Hl. destruct j; [|done..]. by apply drained_mono. Qed.

(** The whole run, with its history. *)
Lemma process_spec jobs schedule w :
  revocation_ok (w_identity w) →
  let l := (loop_run schedule (spawned jobs) (mkLogged w [w])).2 in
  inv (w_identity w) l ∧ present l = (run_process jobs schedule w).2 ∧
  (∀ w', w' ∈ past l → ∃ n, w' = (run_process jobs (take n schedule) w).2) ∧
  (∀ i j, jobs !! i = Some j → (run_process jobs schedule w).1 !! i = Some (Ret tt) → job_post (mkLogged w [w]) j tt l).
Proof.
  intros Hw l. pose proof (start_inv w Hw) as Hi.
  destruct (loop_run_logged schedule (spawned jobs) (mkLogged w [w])) as (Hp & Hn & Hh). cbn in *.
  destruct (pool_ends (inv (w_identity w)) later job_task (job_post (mkLogged w [w])) jobs schedule (mkLogged w [w])) as (Hi' & _ & Hq);
    [done|by intros; apply job_spec|apply job_post_lasts|].
  split_and!; [exact Hi'|exact Hn| |].
  - intros w' Hw'. destruct (Hh w' Hw') as [->%list_elem_of_singleton|[n ->]]; [by exists 0%nat|by exists n].
  - intros i j Hj Hr. unfold run_process in Hr. rewrite <- Hp in Hr. by eapply Hq.
Qed.
End Process.

(** C5: a revocation event is completed only after its work.  Run any jobs in any interleaving,
    with any clock readings, fresh ids, failing or cancelled calls: an event that is completed
    has, for each of the four authority families, an effect completed for this event with an
    allowed disposition, and at some moment of the run, the event being recorded already, its
    subject had no open provider call. *)
Theorem completed_event_settled {Search} `{RS : !RevocationServices Search} `{CS : CallServices}
    jobs schedule (w : World Search) id event family :
  fresh_start w →
  let db := w_identity (run_process jobs schedule w).2 in
  outbox db !! id = Some event → ob_state event = completed → family ∈ POST_COMMIT_FAMILIES →
  (∃ r d, effects db !! uuid5 id family = Some r ∧ ef_state r = ef_completed ∧ ef_event_id r = id ∧
     ef_family r = family ∧ ef_disposition r = Some d ∧ d ∈ ALLOWED_DOWNSTREAM_DISPOSITIONS) ∧
  ∃ n, let w' := (run_process jobs (take n schedule) w).2 in
    is_Some (outbox (w_identity w') !! id) ∧ ∀ call_id, ¬ open_call_of (ob_subject_id event) (w_budget w') call_id.
Proof.
  intros Hw db He Hs Hf. destruct (process_spec jobs schedule w (fs_ok _ Hw)) as (Hi & Hn & Hh & _). subst db.
  rewrite <- Hn in He |- *.
  destruct (inv_events _ _ Hi id event He Hs) as [Hold|Hall]; [by destruct (fs_events _ Hw id event Hold)|]. split.
  - destruct (Hall family Hf) as (r & Hr & Hrs & Hre & Hrf).
    destruct (inv_effects _ _ Hi _ _ Hr Hrs) as [Hold|[(d & Hd & Hda) _]]; [by destruct (fs_effects _ Hw _ r Hold)|].
    by exists r, d.
  - destruct (Hall "provider_routes"%string) as (r & Hr & Hrs & Hre & Hrf); [by left|].
    destruct (inv_effects _ _ Hi _ _ Hr Hrs) as [Hold|[_ (e' & He' & Hc)]]; [by destruct (fs_effects _ Hw _ r Hold)|]. rewrite Hre in *. simplify_eq.
    destruct (Hc Hrf) as (w' & Hw' & H). destruct (Hh w' Hw') as [n ->]. by exists n.
Qed.

(** C20: readiness.  Start a process on any store, one that earlier processes have worked on
    included: if the startup drain has returned, every event that was in the outbox when the
    process started is completed, whatever the other jobs did and whatever failed.  Of the
    store only the tables' own constraints are assumed (a row passes its CHECKs, an effect's
    event exists), and every run, finished or killed, leaves a store that meets them again. *)
Theorem ready_means_drained {Search} `{RS : !RevocationServices Search} `{CS : CallServices}
    jobs schedule (w : World Search) :
  revocation_ok (w_identity w) →
  let w' := (run_process jobs schedule w).2 in
  revocation_ok (w_identity w') ∧
  ∀ i waits claims ticks id event,
    jobs !! i = Some (Startup waits claims ticks) →
    (run_process jobs schedule w).1 !! i = Some (Ret tt) →
    outbox (w_identity w) !! id = Some event →
    ∃ event', outbox (w_identity w') !! id = Some event' ∧ ob_state event' = completed.
Proof.
  intros Hw w'. subst w'. destruct (process_spec jobs schedule w Hw) as (Hi & Hn & _ & Hp). rewrite <- Hn.
  split; [apply Hi|]. intros i waits claims ticks id event Hj Hr He. exact (Hp i _ Hj Hr id event He).
Qed.

(** A composition without the search feature, and a process that revokes a subject. *)
Definition sample_uuid5 (namespace : UUID) (name : string) : UUID :=
  foldl (λ acc b, acc * 257 + Z.of_N (Ascii.N_of_ascii b) + 1) namespace (String.list_ascii_of_string name).
#[local] Instance sample_services : RevocationServices unit := {|
  uuid5 := sample_uuid5;
  require_schema_and_facade_absent _ _ := Ok tt;
  search_present := false;
  reconcile_revocation_once _ _ _ _ _ := raise (RuntimeError "search_not_installed");
|}.
#[local] Instance sample_calls : CallServices := {|
  require_bound_receipt _ _ _ _ := Ok tt;
  require_attested_receipt _ := Ok EmptyString;
  parse_route_envelope _ := None;
|}.
Definition sample_world : World unit := mkWorld (mkRevocationDB {[7]} ∅ ∅) empty_budget tt.
Definition sample_env : Env := mkEnv 1000 5 false OperationSteps None None.
Definition sample_jobs : list job := [Revoke "subject-revoked:7:2" 7 2; Startup 2 2 1].
Definition sample_schedule : list (nat * Env) := replicate 3 (0%nat, sample_env) ++ replicate 120 (1%nat, sample_env).
Definition sample_end : World unit := (run_process sample_jobs sample_schedule sample_world).2.

Definition sample_event : OutboxRow :=
  mkOutboxRow "subject-revoked:7:2" 7 2 completed 1000 (Some 1000) None None 1 (Some 1000) 1 None
    (Some (sample_uuid5 5 "aggregate")).

Lemma sample_fresh : fresh_start sample_world.
Proof. constructor; [constructor; apply map_Forall_to_list; vm_compute; repeat constructor|intros ? ? [=]..]. Qed.

Lemma completed_event_settled_witness :
  outbox (w_identity sample_end) !! 5 = Some sample_event ∧
  ∃ r d, effects (w_identity sample_end) !! sample_uuid5 5 "provider_routes" = Some r ∧ ef_state r = ef_completed ∧
    ef_event_id r = 5 ∧ ef_family r = "provider_routes"%string ∧ ef_disposition r = Some d ∧
    d ∈ ALLOWED_DOWNSTREAM_DISPOSITIONS.
Proof.
  assert (outbox (w_identity sample_end) !! 5 = Some sample_event) as He by (by vm_compute).
  split; [exact He|].
  exact (proj1 (completed_event_settled sample_jobs sample_schedule sample_world 5 sample_event "provider_routes"%string
    sample_fresh He eq_refl ltac:(left))).
Defined.

(** A second process on the store the first one left, with its event completed: another
    revocation was recorded before the process was killed, and is drained at startup. *)
Definition left_over : World unit :=
  (run_process [Revoke "subject-revoked:7:3" 7 3] (replicate 3 (0%nat, mkEnv 2000 6 false OperationSteps None None))
     sample_end).2.
Definition left_event : OutboxRow :=
  mkOutboxRow "subject-revoked:7:3" 7 3 pending 2000 None None None 0 None 0 None None.

Lemma left_over_ok : revocation_ok (w_identity left_over).
Proof. constructor; apply map_Forall_to_list; vm_compute; repeat constructor; eauto. Qed.

Lemma ready_means_drained_witness :
  outbox (w_identity left_over) !! 5 = Some sample_event ∧ outbox (w_identity left_over) !! 6 = Some left_event ∧
  ∃ event', outbox (w_identity (run_process [Startup 2 2 1]
      (replicate 120 (0%nat, mkEnv 3000 8 false OperationSteps None None)) left_over).2) !! 6 =
    Some event' ∧ ob_state event' = completed.
Proof.
  split; [by vm_compute|]. split; [by vm_compute|].
  refine (proj2 (ready_means_drained [Startup 2 2 1]
    (replicate 120 (0%nat, mkEnv 3000 8 false OperationSteps None None)) left_over left_over_ok)
    0%nat 2%nat 2%nat 1%nat 6 left_event eq_refl _ _); by vm_compute.
Defined.
