(* ===== verification/Attempts.v ===== *)
(** * Attempts: provider calls and the attempts that make them

    [services/providers/gateway.py] takes an authorized request through its durable claim to the
    network and its call to a durable end; [services/providers/attempts.py] reserves budget for an
    attempt, runs it, closes its reservation and decides on a retry.  Both are programs of [Tasks]
    over the budget of [BudgetGuard] and [ProviderCalls] and the coordinator of [Turns]; the route
    authority, the provider, its stream and the consumer of the speech are the environment. *)

From S2P Require Import Prelude PyFloat PttFraming Turns BudgetPricing BudgetLedger BudgetGuard ProviderCalls BudgetReconciler BudgetSafety BudgetTheorems Tasks.

(** ** Exceptions *)

Inductive attempt_exn :=
| Py (e : exn)
| ProviderNotSentError (reservation_id attempt_id : UUID) (cause : exn)
| ProviderNotSentCancellation (reservation_id attempt_id : UUID)
| TransientProviderError (status_code : Z) (disposition : Disposition)
| ProviderUsageUnknownError (msg : string)
| StopAsyncIteration
| GeneratorExit.

Definition is_cancellation (e : attempt_exn) : bool :=
  match e with Py CancelledError | ProviderNotSentCancellation _ _ => true | _ => false end.
Definition is_permission (e : attempt_exn) : bool :=
  match e with Py (PermissionError _) | Py (PermissionSubclass _ _) => true | _ => false end.
Definition runtime (msg : string) : attempt_exn := Py (RuntimeError msg).

(** ** The environment *)

Record SpeechChunk := mkChunk {
  sc_request_id : UUID;
  sc_sequence : Z;
  sc_pcm : list byte;
  sc_final : bool;
}.

Inductive EvidenceState := exact | missing_within_authorized_ceiling | invalid_or_over_ceiling.
#[export] Instance EvidenceState_eq_dec : EqDecision EvidenceState.
Proof. solve_decision. Defined.
Record ProviderUsageObservation := mkObservation {
  ob_reported_usage : option UsageUnits;
  ob_response_identifier : string;
  ob_evidence_state : EvidenceState;
}.

(** [w_terminals]: the [_TerminalState] of a call, by call id.  [w_requests]: the requests that
    went to a provider, with the reservation and attempt they were made for. *)
Record World := mkWorld {
  w_budget : BudgetDB;
  w_turns : coordinator;
  w_terminals : gmap UUID CallOutcome;
  w_requests : list (UUID * UUID);
}.

Inductive call (Response : Type) : Type :=
| Budget {A : Type} (m : M BudgetDB budget_exn A)
| Coordinator (m : M coordinator exn unit)
| Terminal (call_id : UUID)
| SetTerminal (call_id : UUID) (outcome : CallOutcome)
| Authorize (reservation_id : UUID) (binding : RouteBinding)
| Consume (authorization_id : UUID) (consumption : RouteConsumption)
| Network (reservation_id attempt_id : UUID)
| Observe (response : Response)
| Attest (call_id : UUID) (route : RouteAuthorization) (basis : AccountingBasis) (usage : UsageUnits)
| Now
| Fresh
| Sleep (milliseconds : Z)
| Interrupted
| NextChunk
| Yield (chunk : SpeechChunk)
| CloseStream
| Adapt.
Arguments Budget {Response A}.
Arguments Coordinator {Response}.
Arguments Terminal {Response}.
Arguments SetTerminal {Response}.
Arguments Authorize {Response}.
Arguments Consume {Response}.
Arguments Network {Response}.
Arguments Observe {Response}.
Arguments Attest {Response}.
Arguments Now {Response}.
Arguments Fresh {Response}.
Arguments Sleep {Response}.
Arguments Interrupted {Response}.
Arguments NextChunk {Response}.
Arguments Yield {Response}.
Arguments CloseStream {Response}.
Arguments Adapt {Response}.

(** [Authorize] answers the id and expiry of the route it issues, [Interrupted] whether the
    waiting task was cancelled while a shielded operation ran.  [Adapt] is the work of an adapter of
    [adapters/], around its call of the gateway. *)
#[export] Instance attempt_calls {Response} : Calls (call Response) := λ c,
  match c with
  | @Budget _ A _ => A
  | Coordinator _ | SetTerminal _ _ | Consume _ _ | Sleep _ | Yield _ | CloseStream | Adapt => unit
  | Terminal _ => option CallOutcome
  | Authorize _ _ => (UUID * Z)%type
  | Network _ _ => Response
  | Observe _ => ProviderUsageObservation
  | Attest _ _ _ _ => ProviderUsageReceipt
  | Now => Z
  | Fresh => UUID
  | Interrupted => bool
  | NextChunk => SpeechChunk
  end.

(** What the environment answers; a fault makes a service raise, after its effect or before it,
    and [en_raise] is what a provider or a consumer raises. *)
Record Env (Response : Type) := mkEnv {
  en_now : Z;
  en_fresh : UUID;
  en_route : UUID * Z;
  en_response : option Response;
  en_observation : ProviderUsageObservation;
  en_receipt : ProviderUsageReceipt;
  en_chunk : SpeechChunk;
  en_interrupted : bool;
  en_fault : option (bool * exn);
  en_raise : option attempt_exn;
}.
Arguments en_now {Response}.
Arguments en_fresh {Response}.
Arguments en_route {Response}.
Arguments en_response {Response}.
Arguments en_observation {Response}.
Arguments en_receipt {Response}.
Arguments en_chunk {Response}.
Arguments en_interrupted {Response}.
Arguments en_fault {Response}.
Arguments en_raise {Response}.

Definition answered {A} (raises : option attempt_exn) (a : A) : result attempt_exn A :=
  match raises with Some e => Raise e | None => Ok a end.

Definition failing (fault : option (bool * exn)) : option attempt_exn :=
  match fault with Some (_, e) => Some (Py e) | None => None end.

Definition durable {A} (fault : option (bool * exn)) (m : M BudgetDB budget_exn A) (db : BudgetDB) :
    result attempt_exn A * BudgetDB :=
  match fault with
  | Some (after, e) => (Raise (Py e), if after then (m db).2 else db)
  | None => match m db with (Ok a, db') => (Ok a, db') | (Raise e, db') => (Raise (Py (raised e)), db') end
  end.

#[export] Instance attempt_calling {Response} : Calling (call Response) World attempt_exn (Env Response) := λ c e w,
  match c return result attempt_exn (answer c) * World with
  | Budget m => let '(r, db) := durable (en_fault e) m (w_budget w) in
                (r, mkWorld db (w_turns w) (w_terminals w) (w_requests w))
  | Coordinator m => match m (w_turns w) with
                     | (Ok a, t) => (Ok a, mkWorld (w_budget w) t (w_terminals w) (w_requests w))
                     | (Raise x, t) => (Raise (Py x), mkWorld (w_budget w) t (w_terminals w) (w_requests w))
                     end
  | Terminal call_id => (Ok (w_terminals w !! call_id), w)
  | SetTerminal call_id outcome =>
    (Ok tt, mkWorld (w_budget w) (w_turns w) (<[call_id := outcome]> (w_terminals w)) (w_requests w))
  | Authorize _ _ => (answered (failing (en_fault e)) (en_route e), w)
  | Consume _ _ => (answered (failing (en_fault e)) tt, w)
  | Network reservation_id attempt_id =>
    (match en_raise e, en_response e with
     | Some x, _ => Raise x
     | None, Some response => Ok response
     | None, None => Raise (Py OSError)
     end, mkWorld (w_budget w) (w_turns w) (w_terminals w) ((reservation_id, attempt_id) :: w_requests w))
  | Observe _ => (answered (en_raise e) (en_observation e), w)
  | Attest _ _ _ _ => (answered (failing (en_fault e)) (en_receipt e), w)
  | Now => (Ok (en_now e), w)
  | Fresh => (Ok (en_fresh e), w)
  | Sleep _ => (answered (failing (en_fault e)) tt, w)
  | Interrupted => (Ok (en_interrupted e), w)
  | NextChunk => (answered (en_raise e) (en_chunk e), w)
  | Yield _ => (answered (en_raise e) tt, w)
  | CloseStream | Adapt => (answered (en_raise e) tt, w)
  end.

Section Gateway.
Context {Response : Type} `{BS : BudgetServices} `{CS : CallServices}.
#[local] Abbreviation task := (prog (call Response) attempt_exn).

Definition ask (c : call Response) : task (answer c) := await c.

(** The result of [p] as a value. *)
Definition try {A} (p : task A) : task (result attempt_exn A) :=
  catch (a ← p; Ret (Ok a)) (λ e, Ret (Raise e)).

(** ** [ProviderGateway] *)

(** The loop of [_finish_durably]: [operation] runs shielded, a cancellation of the waiting task
    is kept for afterwards, and a cancelled operation is repeated once. *)
Fixpoint finish_attempts (attempts : nat) (cancellation : bool) (call_id : UUID) (outcome : CallOutcome)
    (route : RouteAuthorization) (receipt : option ProviderUsageReceipt) : task unit :=
  match attempts with
  | O => Throw (runtime "provider_call_finish_unconfirmed")
  | S attempts =>
    now ← ask Now;
    operation ← try (ask (Budget (finish call_id outcome route receipt now)));
    interrupted ← ask Interrupted;
    match operation with
    | Ok _ => if cancellation || interrupted then Throw (Py CancelledError) else Ret tt
    | Raise e =>
      if is_cancellation e then
        match attempts with O => Throw e | S _ => finish_attempts attempts true call_id outcome route receipt end
      else Throw e
    end
  end.

Definition _finish_durably (call_id : UUID) (outcome : CallOutcome) (route : RouteAuthorization)
    (receipt : option ProviderUsageReceipt) : task unit :=
  terminal ← ask (Terminal call_id);
  _ ← match terminal with
      | None => ask (SetTerminal call_id outcome)
      | Some earlier => throw_if (negb (bool_decide (earlier = outcome))) (runtime "provider_call_terminal_outcome_conflict")
      end;
  finish_attempts 2 false call_id outcome route receipt.

(** What a failure before the network is reported as. *)
Definition not_sent (route : RouteAuthorization) (e : attempt_exn) : attempt_exn :=
  let reservation_id := ra_budget_reservation_id route in
  let attempt_id := bn_attempt_id (ra_binding route) in
  match e with
  | Py CancelledError => ProviderNotSentCancellation reservation_id attempt_id
  | Py cause => ProviderNotSentError reservation_id attempt_id cause
  | _ => e
  end.

(** Consumption, claim and the sent mark, in this order. *)
Definition claim_stages (route : RouteAuthorization) (consumption : RouteConsumption)
    (redaction_receipt_id : option UUID) : task UUID :=
  _ ← ask (Consume (ra_authorization_id route) consumption);
  fresh ← ask Fresh;
  now ← ask Now;
  call_id ← ask (Budget (begin route consumption redaction_receipt_id fresh now));
  now ← ask Now;
  _ ← ask (Budget (mark_sent (ra_budget_reservation_id route) (bn_attempt_id (ra_binding route)) now));
  Ret call_id.

Definition _claim (route : RouteAuthorization) (consumption : RouteConsumption) (redaction_receipt_id : option UUID) :
    task (UUID * BudgetAccountingContext) :=
  call_id ← catch (claim_stages route consumption redaction_receipt_id) (λ e, Throw (not_sent route e));
  accounting ← catch (ask (Budget (require_accounting_context route consumption)))
    (λ e, _ ← finish_attempts 2 false call_id failed route None; Throw e);
  Ret (call_id, accounting).

Definition _resolve_billable (accounting : BudgetAccountingContext) (observation : ProviderUsageObservation) :
    result exn (AccountingBasis * UsageUnits) :=
  let state := ob_evidence_state observation in
  if bool_decide (state = invalid_or_over_ceiling) then Raise (ValueError "provider accounting evidence invalid")
  else if bool_decide (ac_primary_accounting_basis accounting = request_bound_exact) then
    if negb (bool_decide (state = exact)) || bool_decide (is_Some (ob_reported_usage observation))
    then Raise (ValueError "request-bound route supplied response usage")
    else Ok (request_bound_exact, ac_usage_ceiling accounting)
  else if bool_decide (state = exact) then
    match ob_reported_usage observation with
    | Some usage => if bool_decide (usage_category usage = ac_category accounting)
                    then Ok (provider_reported_exact, usage)
                    else Raise (ValueError "exact provider usage unavailable")
    | None => Raise (ValueError "exact provider usage unavailable")
    end
  else if bool_decide (ac_missing_evidence_policy accounting = policy_conservative_full_reservation)
  then Ok (conservative_full_reservation, ac_usage_ceiling accounting)
  else Raise (ValueError "provider accounting evidence unavailable").

Definition usage_unknown : attempt_exn := ProviderUsageUnknownError "provider_usage_invalid_unknown_overage".

Definition attested (call_id : UUID) (route : RouteAuthorization) (accounting : BudgetAccountingContext)
    (observation : ProviderUsageObservation) : task ProviderUsageReceipt :=
  match _resolve_billable accounting observation with
  | Raise e => Throw (Py e)
  | Ok (basis, usage) => ask (Attest call_id route basis usage)
  end.

Definition _finish_success (call_id : UUID) (route : RouteAuthorization) (accounting : BudgetAccountingContext)
    (observation : ProviderUsageObservation) : task ProviderUsageReceipt :=
  receipt ← catch (attested call_id route accounting observation) (λ e,
    if is_cancellation e then Throw e
    else _ ← _finish_durably call_id succeeded route None; Throw usage_unknown);
  _ ← _finish_durably call_id succeeded route (Some receipt);
  Ret receipt.

(** [observation = await observe(value)] with its two handlers. *)
Definition observed (call_id : UUID) (route : RouteAuthorization) (response : Response) : task ProviderUsageObservation :=
  catch (ask (Observe response)) (λ e,
    _ ← _finish_durably call_id succeeded route None;
    Throw (if is_cancellation e then e else usage_unknown)).

(** The handlers of [send] and [open_stream]: the call ends somehow. *)
Definition ended (call_id : UUID) (route : RouteAuthorization) (e : attempt_exn) : task unit :=
  terminal ← ask (Terminal call_id);
  match terminal with
  | Some _ => Ret tt
  | None => _finish_durably call_id (if is_cancellation e then cancelled else ambiguous) route None
  end.

Definition send (route : RouteAuthorization) (consumption : RouteConsumption) (redaction_receipt_id : option UUID) :
    task (Response * ProviderUsageReceipt) :=
  claimed ← _claim route consumption redaction_receipt_id;
  let '(call_id, accounting) := claimed in
  catch (
    _ ← ask (Budget (mark_network_invocation_starting call_id));
    value ← ask (Network (ra_budget_reservation_id route) (bn_attempt_id (ra_binding route)));
    observation ← observed call_id route value;
    receipt ← _finish_success call_id route accounting observation;
    Ret (value, receipt))
  (λ e, _ ← ended call_id route e; Throw e).

(** The [finalize] of a stream's lease. *)
Definition finalize (call_id : UUID) (route : RouteAuthorization) (accounting : BudgetAccountingContext)
    (response : Response) : task ProviderUsageReceipt :=
  terminal ← ask (Terminal call_id);
  _ ← throw_if (bool_decide (is_Some terminal)) (runtime "provider stream already terminal");
  observation ← observed call_id route response;
  _finish_success call_id route accounting observation.

(** [async with gateway.open_stream(...) as lease: body(lease)]. *)
Definition open_stream {A} (route : RouteAuthorization) (consumption : RouteConsumption)
    (redaction_receipt_id : option UUID) (body : Response → task ProviderUsageReceipt → task A) : task A :=
  claimed ← _claim route consumption redaction_receipt_id;
  let '(call_id, accounting) := claimed in
  catch (
    _ ← ask (Budget (mark_network_invocation_starting call_id));
    response ← ask (Network (ra_budget_reservation_id route) (bn_attempt_id (ra_binding route)));
    result ← try (
      a ← body response (finalize call_id route accounting response);
      terminal ← ask (Terminal call_id);
      match terminal with
      | Some _ => Ret a
      | None =>
        _ ← _finish_durably call_id ambiguous route None;
        Throw (ProviderUsageUnknownError "provider_stream_closed_before_finalize_unknown_overage")
      end);
    _ ← ask CloseStream;
    from_result result)
  (λ e, _ ← ended call_id route e; Throw e).
End Gateway.

(** ** [AttemptRunner] *)

Record RetryPolicy := mkPolicy { max_attempts : Z; base_delay_ms : Z }.
Definition policy_ok (p : RetryPolicy) : bool := between 1 (max_attempts p) 2 && between 0 (base_delay_ms p) 60_000.

Record AttemptTemplate := mkTemplate {
  tm_request_id : UUID;
  tm_purpose : Purpose;
  tm_household_id : UUID;
  tm_subject_id : option UUID;
  tm_session_id : UUID;
  tm_turn_id : UUID;
  tm_provider : string;
  tm_model : string;
  tm_request_commitment : Commitment;
  tm_max_input_bytes : Z;
  tm_max_input_units : Z;
  tm_input_bytes : Z;
  tm_input_units : Z;
  tm_maximum_sensitivity : string;
  tm_month_key : string;
  tm_category : Category;
  tm_usage_ceiling : UsageUnits;
}.
Definition template_ok (t : AttemptTemplate) : bool :=
  bool_decide (category_of (tm_purpose t) = tm_category t) &&
  bool_decide (usage_category (tm_usage_ceiling t) = tm_category t) &&
  between 0 (tm_input_bytes t) (tm_max_input_bytes t) && between 0 (tm_input_units t) (tm_max_input_units t).

Definition _MAX_ATTEMPTS_BY_PURPOSE (p : Purpose) : Z := match p with cloud_stt => 1 | _ => 2 end.
Definition _retryable (status_code : Z) : bool :=
  existsb (Z.eqb status_code) [408; 409; 429; 500; 502; 503; 504].

(** [terminalized] is not kept: no path closes an attempt a second time. *)
Record _AttemptState := mkAttempt {
  as_route : RouteAuthorization;
  as_consumption : RouteConsumption;
  as_tracked : bool;
}.

Definition binding_of (t : AttemptTemplate) (attempt_id : UUID) : RouteBinding :=
  mkBound (tm_request_id t) attempt_id (tm_purpose t) (tm_household_id t) (tm_subject_id t) (tm_session_id t)
    (tm_turn_id t) (tm_provider t) (tm_model t).
Definition route_of (t : AttemptTemplate) (attempt_id reservation_id authorization_id : UUID) (expires_at : Z) :
    RouteAuthorization :=
  mkRoute authorization_id (binding_of t attempt_id) (tm_request_commitment t) (tm_max_input_bytes t)
    (tm_max_input_units t) reservation_id (tm_maximum_sensitivity t) expires_at.
Definition consumption_of (t : AttemptTemplate) (attempt_id : UUID) (consumed_at : Z) : RouteConsumption :=
  mkConsumption (binding_of t attempt_id) (tm_request_commitment t) (tm_input_bytes t) (tm_input_units t) consumed_at.
Definition reservation_request (t : AttemptTemplate) (attempt_id : UUID) : BudgetReservationRequest :=
  mkRequest (tm_household_id t) (tm_turn_id t) (tm_request_id t) attempt_id (tm_provider t) (tm_model t)
    (tm_category t) (tm_usage_ceiling t) (tm_month_key t).

Definition outcome_text (o : BudgetOutcome) : string :=
  match o with
  | allow => "allow" | allow_soft_warning => "allow_soft_warning" | deny_hard_limit => "deny_hard_limit"
  | deny_unknown_price => "deny_unknown_price" | deny_cloud_egress_frozen => "deny_cloud_egress_frozen"
  end%string.

Inductive Terminalized := released_unsent | settled_after_unsent | settled_at_once.
#[export] Instance Terminalized_eq_dec : EqDecision Terminalized.
Proof. solve_decision. Defined.

Section Runner.
Context {Response : Type} `{BS : BudgetServices} `{CS : CallServices}.
Context (catalog : PriceCatalog) (hard soft expiry : Z).
#[local] Abbreviation task := (prog (call Response) attempt_exn).

Definition reservation_of (s : _AttemptState) : UUID := ra_budget_reservation_id (as_route s).
Definition attempt_of (s : _AttemptState) : UUID := bn_attempt_id (ra_binding (as_route s)).

(** [_shield_terminal]: the operation runs to its end; a cancellation is raised afterwards. *)
Definition _shield_terminal (operation : task unit) : task unit :=
  r ← try operation;
  interrupted ← ask Interrupted;
  match r with
  | Raise e => Throw e
  | Ok _ => throw_if interrupted (Py CancelledError)
  end.

Definition _complete (s : _AttemptState) : task unit :=
  if as_tracked s
  then ask (Coordinator (complete_reservation (bn_turn_id (ra_binding (as_route s))) (reservation_of s) (attempt_of s)))
  else Ret tt.

Definition settle_terminal (s : _AttemptState) : task unit :=
  now ← ask Now;
  _ ← ask (Budget (settle hard (reservation_of s) (attempt_of s) now));
  _complete s.
Definition _settle (s : _AttemptState) : task unit := _shield_terminal (settle_terminal s).

Definition release_terminal (s : _AttemptState) : task unit :=
  now ← ask Now;
  _ ← ask (Budget (release_unsent (reservation_of s) (attempt_of s)
         (mkProof (reservation_of s) (attempt_of s) never_sent) now));
  _complete s.
Definition _release_or_settle (s : _AttemptState) : task Terminalized :=
  r ← try (_shield_terminal (release_terminal s));
  match r with
  | Ok _ => Ret released_unsent
  | Raise e => if is_permission e then _ ← _settle s; Ret settled_after_unsent else Throw e
  end.

Definition _handle_not_sent (s : _AttemptState) (reservation_id attempt_id : UUID) : task unit :=
  if negb (reservation_id =? reservation_of s) || negb (attempt_id =? attempt_of s)
  then _ ← _settle s; Throw (Py (PermissionError "provider_unsent_scope_mismatch"))
  else _ ← _release_or_settle s; Ret tt.

Definition _terminalize_transient (s : _AttemptState) (disposition : Disposition) : task Terminalized :=
  if bool_decide (disposition = never_sent) then _release_or_settle s
  else _ ← _settle s; Ret settled_at_once.

Definition _delay (policy : RetryPolicy) (attempt_index : nat) : task unit :=
  if base_delay_ms policy =? 0 then Ret tt else ask (Sleep (base_delay_ms policy * 2 ^ Z.of_nat attempt_index)).

(** The route and consumption of a tracked reservation. *)
Definition authorized (t : AttemptTemplate) (attempt_id reservation_id : UUID) : task _AttemptState :=
  route ← ask (Authorize reservation_id (binding_of t attempt_id));
  now ← ask Now;
  Ret (mkAttempt (route_of t attempt_id reservation_id route.1 route.2) (consumption_of t attempt_id now) true).

Definition _prepare_attempt (t : AttemptTemplate) : task _AttemptState :=
  attempt_id ← ask Fresh;
  reservation_id ← ask Fresh;
  now ← ask Now;
  reservation ← ask (Budget (reserve catalog hard soft expiry (reservation_request t attempt_id) reservation_id now));
  _ ← throw_if (negb (allowed (br_outcome reservation))) (Py (PermissionError (outcome_text (br_outcome reservation))));
  let fallback tracked e :=
    authorization_id ← ask Fresh;
    now ← ask Now;
    _ ← _release_or_settle (mkAttempt
          (route_of t attempt_id (br_reservation_id reservation) authorization_id (br_expires_at reservation))
          (consumption_of t attempt_id now) tracked);
    Throw e in
  tracked ← try (ask (Coordinator (track_reservation (tm_turn_id t) (br_reservation_id reservation) attempt_id)));
  match tracked with
  | Raise e => fallback false e
  | Ok _ => catch (authorized t attempt_id (br_reservation_id reservation)) (fallback true)
  end.

Definition _validate_policy (t : AttemptTemplate) (policy : RetryPolicy) : task unit :=
  throw_if (_MAX_ATTEMPTS_BY_PURPOSE (tm_purpose t) <? max_attempts policy)
    (Py (ValueError "retry_policy_exceeds_purpose_ceiling")).

(** [run], with the reservations and attempts it made beside the result. *)
Fixpoint run_attempts {R} (remaining : nat) (index : nat) (t : AttemptTemplate) (policy : RetryPolicy)
    (invoke : RouteAuthorization → RouteConsumption → task R) (made : list (UUID * UUID)) :
    task (R * list (UUID * UUID)) :=
  match remaining with
  | O => Throw (runtime "retry policy exhausted")
  | S remaining =>
    s ← _prepare_attempt t;
    let made := made ++ [(reservation_of s, attempt_of s)] in
    r ← try (invoke (as_route s) (as_consumption s));
    match r with
    | Ok result => _ ← _settle s; Ret (result, made)
    | Raise (ProviderNotSentCancellation reservation_id attempt_id) =>
      _ ← _handle_not_sent s reservation_id attempt_id; Throw (Py CancelledError)
    | Raise (ProviderNotSentError reservation_id attempt_id cause) =>
      _ ← _handle_not_sent s reservation_id attempt_id; Throw (Py cause)
    | Raise (TransientProviderError status disposition as e) =>
      terminal ← _terminalize_transient s disposition;
      if bool_decide (disposition = never_sent) && bool_decide (terminal = released_unsent) && _retryable status &&
         negb (bool_decide (remaining = O))
      then _ ← _delay policy index; run_attempts remaining (S index) t policy invoke made
      else Throw e
    | Raise e => _ ← _release_or_settle s; Throw e
    end
  end.

Definition run {R} (t : AttemptTemplate) (policy : RetryPolicy)
    (invoke : RouteAuthorization → RouteConsumption → task R) : task (R * list (UUID * UUID)) :=
  _ ← _validate_policy t policy;
  run_attempts (Z.to_nat (max_attempts policy)) 0 t policy invoke [].

(** *** [stream] *)

(** What a step of the inner loop leads to: the next chunk, another attempt, or the end. *)
Inductive stream_step := NextOne (first_payload_sent : bool) (expected_sequence : Z) | Retry | Finished.

(** The provider's asynchronous generator: its creation, its next chunk and its closing. *)
Record Speech := mkSpeech {
  sp_invoke : RouteAuthorization → RouteConsumption → task unit;
  sp_anext : task SpeechChunk;
  sp_aclose : task unit;
}.

(** [await self._release_or_settle(...)] and raise. *)
Definition close_and_raise {A} (s : _AttemptState) (e : attempt_exn) : task A := _ ← _release_or_settle s; Throw e.
Definition invalid (msg : string) : attempt_exn := Py (ValueError msg).

(** The terminal chunk: nothing may follow it, and the attempt is settled before it is handed on. *)
Definition last_chunk (speech : Speech) (s : _AttemptState) (first_payload_sent : bool) (chunk : SpeechChunk) :
    task stream_step :=
  if negb (bool_decide (sc_pcm chunk = [])) || negb first_payload_sent then
    _ ← sp_aclose speech; close_and_raise s (invalid "invalid terminal speech chunk")
  else
    extra ← try (sp_anext speech);
    match extra with
    | Ok _ => _ ← sp_aclose speech; close_and_raise s (runtime "provider_stream_extra_after_terminal")
    | Raise StopAsyncIteration =>
      _ ← _settle s;
      r ← try (ask (Yield chunk));
      _ ← sp_aclose speech;
      match r with Ok _ => Ret Finished | Raise e => Throw e end
    | Raise e => Throw e
    end.

Definition payload_chunk (speech : Speech) (s : _AttemptState) (expected_sequence : Z) (chunk : SpeechChunk) :
    task stream_step :=
  if bool_decide (sc_pcm chunk = []) then close_and_raise s (invalid "empty nonterminal speech chunk")
  else
    r ← try (ask (Yield chunk));
    match r with
    | Ok _ => Ret (NextOne true (expected_sequence + 1))
    | Raise (Py CancelledError as e) | Raise (ProviderNotSentCancellation _ _ as e) | Raise (GeneratorExit as e) =>
      _ ← sp_aclose speech; close_and_raise s e
    | Raise e => Throw e
    end.

Definition chunk_step (speech : Speech) (t : AttemptTemplate) (policy : RetryPolicy) (remaining index : nat)
    (s : _AttemptState) (first_payload_sent : bool) (expected_sequence : Z) : task stream_step :=
  r ← try (sp_anext speech);
  match r with
  | Raise StopAsyncIteration =>
    _ ← sp_aclose speech; close_and_raise s (runtime "provider_stream_missing_terminal_chunk")
  | Raise (ProviderNotSentCancellation reservation_id attempt_id) =>
    _ ← _handle_not_sent s reservation_id attempt_id; Throw (Py CancelledError)
  | Raise (ProviderNotSentError reservation_id attempt_id cause) =>
    _ ← _handle_not_sent s reservation_id attempt_id; Throw (Py cause)
  | Raise (TransientProviderError status disposition as e) =>
    terminal ← _terminalize_transient s disposition;
    if negb first_payload_sent && bool_decide (disposition = never_sent) &&
       bool_decide (terminal = released_unsent) && _retryable status && negb (bool_decide (remaining = O))
    then _ ← sp_aclose speech; _ ← _delay policy index; Ret Retry
    else Throw e
  | Raise e => close_and_raise s e
  | Ok chunk =>
    if negb (sc_request_id chunk =? tm_request_id t) || negb (sc_sequence chunk =? expected_sequence)
    then close_and_raise s (invalid "speech chunk sequence mismatch")
    else if sc_final chunk then last_chunk speech s first_payload_sent chunk
    else payload_chunk speech s expected_sequence chunk
  end.

(** The inner [while True], for at most [chunks] chunks: whether to try again. *)
Fixpoint stream_chunks (chunks : nat) (speech : Speech) (t : AttemptTemplate) (policy : RetryPolicy)
    (remaining index : nat) (s : _AttemptState) (first_payload_sent : bool) (expected_sequence : Z) : task bool :=
  match chunks with
  | O => Halt
  | S chunks =>
    step ← chunk_step speech t policy remaining index s first_payload_sent expected_sequence;
    match step with
    | NextOne first expected => stream_chunks chunks speech t policy remaining index s first expected
    | Retry => Ret true
    | Finished => Ret false
    end
  end.

Fixpoint stream_attempts (remaining index chunks : nat) (t : AttemptTemplate) (policy : RetryPolicy) (speech : Speech)
    (made : list (UUID * UUID)) : task (list (UUID * UUID)) :=
  match remaining with
  | O => Throw (runtime "retry policy exhausted")
  | S remaining =>
    s ← _prepare_attempt t;
    let made := made ++ [(reservation_of s, attempt_of s)] in
    opened ← try (sp_invoke speech (as_route s) (as_consumption s));
    match opened with
    | Raise (ProviderNotSentCancellation reservation_id attempt_id) =>
      _ ← _handle_not_sent s reservation_id attempt_id; Throw (Py CancelledError)
    | Raise (ProviderNotSentError reservation_id attempt_id cause) =>
      _ ← _handle_not_sent s reservation_id attempt_id; Throw (Py cause)
    | Raise e => close_and_raise s e
    | Ok _ =>
      again ← stream_chunks chunks speech t policy remaining index s false 0;
      if (again : bool) then stream_attempts remaining (S index) chunks t policy speech made else Ret made
    end
  end.

Definition stream (chunks : nat) (t : AttemptTemplate) (policy : RetryPolicy) (speech : Speech) :
    task (list (UUID * UUID)) :=
  _ ← _validate_policy t policy;
  stream_attempts (Z.to_nat (max_attempts policy)) 0 chunks t policy speech [].
End Runner.
