(* ===== verification/AttemptSafety.v ===== *)
(** * What attempts cost and deliver

    Any number of attempts, budget operations and coordinator steps run interleaved, with failing
    services, providers and consumers and cancellations at every await.  No request goes to a
    provider that the budget does not already count; a run that returns has closed what it opened;
    a consumer gets a numbered stream. *)

From S2P Require Import Prelude PyFloat PttFraming Turns BudgetPricing BudgetLedger BudgetGuard ProviderCalls BudgetReconciler BudgetSafety BudgetTheorems TurnBudget Tasks Attempts.

Lemma wp_in_uow {A} (m : M BudgetDB budget_exn A) (Q : A → BudgetDB → Prop) db :
  wp m Q (λ _ _, True) db → wp (in_uow m) Q (λ _ _, True) db.
Proof. unfold wp, in_uow. by destruct (m db) as [[?|?] ?]. Qed.

Section Rely.
Context {Response : Type} `{BS : BudgetServices} `{CS : CallServices}.
Context (catalog : PriceCatalog) (hard soft expiry : Z).
#[local] Abbreviation task := (prog (call Response) attempt_exn).

(** The reservation of a request that may have left: it is counted, and its call says so. *)
Definition counted (p : UUID * UUID) (db : BudgetDB) : Prop :=
  (∃ r, reservations db !! p.1 = Some r ∧ rv_attempt_id r = p.2 ∧ (rv_state r = sent ∨ rv_state r = settled)) ∧
  (∃ call_id c, calls db !! call_id = Some c ∧ cl_reservation_id c = p.1 ∧ cl_attempt_id c = p.2 ∧
     on_wire (cl_phase c) = true).

Lemma counted_mono p db db' : evolves db db' → counted p db → counted p db'.
Proof.
  intros He [(r & Hr & Ha & Hs) (id & c & Hc & Hcr & Hca & Hw)]. split.
  - destruct (ev_rows _ _ He _ _ Hr) as (r' & Hr' & E). exists r'. split; [done|]. split; [by rewrite (re_attempt _ _ E)|].
    destruct Hs as [Hs|Hs]; [by apply (re_sent _ _ E)|]. rewrite (re_terminal _ _ E) by (by rewrite Hs). by right.
  - destruct (ev_calls _ _ He _ _ Hc) as (c' & Hc' & E1 & E2 & _ & E3). exists id, c'. split_and!; [done|congruence..|auto].
Qed.

Record inv (w : World) : Prop := {
  inv_budget : budget_ok hard (w_budget w);
  inv_requests : ∀ p, p ∈ w_requests w → counted p (w_budget w);
}.
Record later (w w' : World) : Prop := {
  later_budget : evolves (w_budget w) (w_budget w');
  later_requests : w_requests w ⊆ w_requests w';
}.
#[export] Instance att_later_preorder : PreOrder later.
Proof. split; [by constructor|]. intros ? ? ? [] []. constructor; by etrans. Qed.

#[local] Abbreviation orderly := (ordered inv later).
#[local] Abbreviation returns := (ending (X := attempt_exn) inv).
#[local] Abbreviation meets p Q w := (holds (E := Env Response) orderly p Q w).

(** A step that makes no request. *)
Lemma step_budget w db t m :
  inv w → good hard (w_budget w) db → let w' := mkWorld db t m (w_requests w) in inv w' ∧ later w w'.
Proof.
  intros [Hb Hr] [Hok He]. split; constructor; cbn; try done. intros p Hp. by eapply counted_mono, Hr.
Qed.
Lemma step_same w t m : inv w → let w' := mkWorld (w_budget w) t m (w_requests w) in inv w' ∧ later w w'.
Proof. intros Hi. apply step_budget; [done|]. apply good_refl, Hi. Qed.

(** What a call may do without more being known. *)
Definition safe_call (c : call Response) : Prop :=
  match c with
  | Budget m => safe hard m
  | Network _ _ => False
  | _ => True
  end.

Lemma orderly_safe (c : call Response) e w : safe_call c → orderly w (perform_call c e w).2.
Proof.
  intros Hc Hi. destruct c as [A m|m| | | | | | | | | | | | | | |]; try (by destruct w; apply step_same);
    try (by split); try done; cbn.
  - unfold durable. specialize (Hc _ (inv_budget _ Hi)). unfold wp in Hc.
    pose proof (good_refl hard _ (inv_budget _ Hi)).
    destruct (en_fault e) as [[[] x]|], (m (w_budget w)) as [[a|x'] db]; by apply step_budget.
  - destruct (m (w_turns w)) as [[?|?] ?]; by apply step_same.
Qed.

Lemma meets_safe (c : call Response) (Q : answer c → World → Prop) w :
  safe_call c → inv w → (∀ a w1, inv w1 → later w w1 → Q a w1) → meets (ask c) (returns Q) w.
Proof.
  intros Hc Hi HQ. apply holds_await. intros w1 e Hw1. pose proof (orderly_safe c e w1 Hc) as Hs. split; [done|].
  destruct (Hw1 Hi) as [Hi1 Hl1]. destruct (Hs Hi1) as [Hi2 Hl2]. destruct (perform_call c e w1).1; [|done].
  split; [done|]. apply HQ; [done|by etrans].
Qed.

Lemma meets_budget {A} (m : M BudgetDB budget_exn A) (Q : A → BudgetDB → Prop) w :
  safe hard m → inv w →
  (∀ w1, inv w1 → later w w1 → wp m Q (λ _ _, True) (w_budget w1)) →
  meets (ask (Budget m)) (returns (λ a w', Q a (w_budget w'))) w.
Proof.
  intros Hm Hi HQ. apply holds_await. intros w1 e Hw1. pose proof (orderly_safe (Budget m) e w1 Hm) as Hs. split; [done|].
  destruct (Hw1 Hi) as [Hi1 Hl1]. destruct (Hs Hi1) as [Hi2 _]. specialize (HQ w1 Hi1 Hl1). revert Hi2. cbn.
  unfold durable, wp in *. destruct (en_fault e) as [[after x]|]; [done|].
  by destruct (m (w_budget w1)) as [[a|x] db].
Qed.

(** *** The gateway *)

Definition pair_of (route : RouteAuthorization) : UUID * UUID :=
  (ra_budget_reservation_id route, bn_attempt_id (ra_binding route)).

(** The call that was claimed for a route. *)
Definition bound_call (call_id : UUID) (route : RouteAuthorization) (db : BudgetDB) : Prop :=
  ∃ c, calls db !! call_id = Some c ∧ (cl_reservation_id c, cl_attempt_id c) = pair_of route.
Lemma bound_call_mono call_id route db db' : evolves db db' → bound_call call_id route db → bound_call call_id route db'.
Proof.
  intros He (c & Hc & Hp). destruct (ev_calls _ _ He _ _ Hc) as (c' & Hc' & E1 & E2 & _). exists c'. by rewrite E1, E2.
Qed.

Lemma begin_bound route consumption receipt call_id now db :
  wp (begin route consumption receipt call_id now) (λ id db', bound_call id route db') (λ _ _, True) db.
Proof.
  assert (wp (claim route consumption receipt call_id now) (λ _ db', bound_call call_id route db') (λ _ _, True) db) as Hc.
  { unfold claim. cbn zeta. wp_step.
    eapply (wp_mono _ (λ _ _, True) _ (λ _ _, True)); [|intros [] db1 _|done].
    { destruct (bn_purpose _), receipt; wp_steps; done. }
    wp_step. eapply (wp_mono _ (λ _ _, True) _ (λ _ _, True)); [|intros n db2 _|done].
    { unfold update_reservation. wp_steps; done. }
    wp_step. wp_step; [|done]. unfold insert_call. wp_step. wp_step. wp_step. wp_step; [|done]. wp_steps.
    eexists. cbn. rewrite lookup_insert_eq. done. }
  unfold begin. wp_step. wp_step; [|done]. wp_step. unfold wp, try_except, in_uow in *.
  destruct (claim route consumption receipt call_id now db) as [[?|x] ?]; [done|].
  by destruct x as [[] | | |].
Qed.

Lemma mark_network_counted route call_id db :
  bound_call call_id route db →
  wp (mark_network_invocation_starting call_id) (λ _ db', counted (pair_of route) db') (λ _ _, True) db.
Proof.
  intros (c & Hc & Hp). apply wp_in_uow. wp_step. wp_step. rewrite Hc. wp_step. wp_step; [|done]. wp_step.
  eapply wp_mono; [apply wp_update_reservation with (Q := λ n d, n = 1 → calls d = calls db ∧
    ∃ r, reservations d !! cl_reservation_id c = Some r ∧ rv_attempt_id r = cl_attempt_id c ∧ rv_state r = sent); [|done]| |done].
  { intros r Hr Ha Hg _ _. cbn. bool_props. split; [done|]. eexists. rewrite lookup_insert_eq. done. }
  intros n d Hd. wp_step. wp_step; [|done]. bool_props. destruct Hd as (Hcalls & r & Hr & Ha & Hs); [done|]. subst.
  wp_step. unfold update_call. wp_step. wp_step. rewrite Hcalls, Hc. destruct (_ && _) eqn:Hg; wp_steps; try done.
  rewrite <- Hp. split.
  - exists r. cbn. by split_and!; [| |left].
  - exists call_id. eexists. cbn. by rewrite lookup_insert_eq.
Qed.

Lemma asked {B} (c : call Response) (k : answer c → task B) (Q : B → World → Prop) w :
  safe_call c → inv w → (∀ a w1, inv w1 → later w w1 → meets (k a) (returns Q) w1) → meets (ask c ≫= k) (returns Q) w.
Proof.
  intros Hc Hi Hk. eapply (meets_bind inv later _ _ (λ _ w1, later w w1)); [done| |].
  - by apply meets_safe.
  - intros a w1 Hi1 Hl1 _. by apply Hk.
Qed.

Lemma meets_try {A} (p : task A) (Q : A → World → Prop) w :
  inv w → meets p (returns Q) w →
  meets (try p) (returns (λ r w', match r with Ok a => Q a w' | Raise _ => True end)) w.
Proof.
  intros Hi Hp. apply (meets_catch inv later); [done| |by intros; split].
  eapply (meets_bind inv later); [done|exact Hp|]. by intros a w1 Hi1 _ Ha; split.
Qed.

(** Programs of which only the invariant is wanted. *)
#[local] Abbreviation proper p w := (meets p (returns (λ _ _, True)) w).

Lemma proper_of {A} (p : task A) (Q : A → World → Prop) w : meets p (returns Q) w → proper p w.
Proof. apply (meets_mono inv later). intros [a|e] w1 _; [|done]. by intros [Hi _]. Qed.
Lemma proper_ask (c : call Response) w : safe_call c → inv w → proper (ask c) w.
Proof. intros Hc Hi. by apply meets_safe. Qed.
Lemma proper_bind {A B} (p : task A) (k : A → task B) w :
  inv w → proper p w → (∀ a w1, inv w1 → proper (k a) w1) → proper (p ≫= k) w.
Proof. intros Hi Hp Hk. eapply (meets_bind inv later); [done|exact Hp|]. intros a w1 Hi1 _ _. by apply Hk. Qed.
Lemma proper_catch {A} (p : task A) h w :
  inv w → proper p w → (∀ e w1, inv w1 → proper (h e) w1) → proper (catch p h) w.
Proof. intros Hi Hp Hh. apply (meets_catch inv later); [done..|]. intros e w1 Hi1 _. by apply Hh. Qed.
Lemma proper_try {A} (p : task A) w : inv w → proper p w → proper (try p) w.
Proof. intros Hi Hp. by eapply proper_of, (meets_try _ (λ _ _, True)). Qed.

Ltac proper_step :=
  lazymatch goal with
  | |- holds _ (Ret _) _ _ => by split
  | |- holds _ (Throw _) _ _ => exact I
  | |- holds _ (_ ≫= _) _ _ => apply proper_bind; [done| |intros]
  | |- holds _ (catch _ _) _ _ => apply proper_catch; [done| |intros]
  | |- holds _ (try _) _ _ => apply proper_try; [done|]
  | |- holds _ (throw_if ?b _) _ _ => destruct b; [exact I|by split]
  | |- holds _ (from_result ?r) _ _ => destruct r; [by split|exact I]
  | |- holds _ (ask _) _ _ => apply proper_ask; [try exact I|done]
  | |- holds _ (match ?x with _ => _ end) _ _ => destruct x
  end.
Ltac proper_steps := repeat (proper_step; cbn [negb]).

Lemma finish_attempts_spec n b call_id outcome route receipt w :
  inv w → proper (finish_attempts n b call_id outcome route receipt) w.
Proof.
  revert b w. induction n as [|n IH]; intros b w Hi; cbn [finish_attempts]; [done|].
  proper_steps; [apply safe_finish|by apply IH].
Qed.

Lemma finish_durably_spec call_id outcome route receipt w :
  inv w → proper (_finish_durably call_id outcome route receipt) w.
Proof. intros Hi. unfold _finish_durably. proper_steps. by apply finish_attempts_spec. Qed.

Lemma claim_stages_spec route consumption receipt w :
  inv w → meets (claim_stages route consumption receipt) (returns (λ id w', bound_call id route (w_budget w'))) w.
Proof.
  intros Hi. apply (asked (Consume _ _)); [done..|]. intros _ w1 Hi1 _.
  apply (asked Fresh); [done..|]. intros fresh w2 Hi2 _. apply (asked Now); [done..|]. intros now w3 Hi3 _.
  eapply (meets_bind inv later _ _ (λ id w', bound_call id route (w_budget w'))); [done| |].
  { apply (meets_budget (begin route consumption receipt fresh now) (λ id db, bound_call id route db));
      [apply safe_begin|done|]. intros w4 _ _. apply begin_bound. }
  intros id w4 Hi4 _ Hb. apply (asked Now); [done..|]. intros now' w5 Hi5 Hl5.
  apply (asked (Budget _)); [apply safe_mark_sent|done|]. intros _ w6 Hi6 Hl6. split; [done|].
  eapply bound_call_mono; [|exact Hb]. apply later_budget. by etrans.
Qed.

Lemma claim_spec route consumption receipt w :
  inv w → meets (_claim route consumption receipt) (returns (λ x w', bound_call x.1 route (w_budget w'))) w.
Proof.
  intros Hi. eapply (meets_bind inv later); [done|apply (meets_catch inv later); [done|by apply claim_stages_spec|done]|].
  intros id w1 Hi1 _ Hb. eapply (meets_bind inv later _ _ (λ _ w', bound_call id route (w_budget w'))); [done| |].
  - apply (meets_catch inv later); [done| |].
    + apply meets_safe; [|done|]. { intros db Hok. unfold require_accounting_context. cbn zeta.
        wp_step. wp_step. destruct (reservations db !! _); [|by apply good_refl]. wp_steps; by apply good_refl. }
      intros a w2 _ Hl2. eapply bound_call_mono, Hb. by apply later_budget.
    + intros e w2 Hi2 _. eapply (meets_bind inv later); [done|by apply finish_attempts_spec|done].
  - intros accounting w2 Hi2 _ Hb2. by split.
Qed.

(** The request itself: the budget counts it already. *)
Lemma network_spec route w :
  inv w → counted (pair_of route) (w_budget w) →
  proper (ask (Network (ra_budget_reservation_id route) (bn_attempt_id (ra_binding route)))) w.
Proof.
  intros Hi Hc. apply holds_await. intros w1 e Hw1. destruct (Hw1 Hi) as [Hi1 Hl1].
  pose proof (counted_mono _ _ _ (later_budget _ _ Hl1) Hc) as Hc1.
  assert (inv (perform_call (Network (ra_budget_reservation_id route) (bn_attempt_id (ra_binding route))) e w1).2 ∧
    later w1 (perform_call (Network (ra_budget_reservation_id route) (bn_attempt_id (ra_binding route))) e w1).2) as [Hi2 Hl2].
  { split; constructor; cbn; [apply Hi1| |done|by intros p Hp; right].
    intros p [->|Hp]%elem_of_cons; [done|by apply Hi1]. }
  split; [by intros _|]. destruct (perform_call _ e w1).1; by split.
Qed.

Lemma observed_spec call_id route response w : inv w → proper (observed call_id route response) w.
Proof. intros Hi. unfold observed. proper_steps. by apply finish_durably_spec. Qed.
Lemma finish_success_spec call_id route accounting observation w :
  inv w → proper (_finish_success call_id route accounting observation) w.
Proof. intros Hi. unfold _finish_success, attested. proper_steps; by apply finish_durably_spec. Qed.
Lemma ended_spec call_id route e w : inv w → proper (ended call_id route e) w.
Proof. intros Hi. unfold ended. proper_steps. by apply finish_durably_spec. Qed.
Lemma finalize_spec call_id route accounting response w :
  inv w → proper (finalize call_id route accounting response) w.
Proof. intros Hi. unfold finalize. proper_steps; [by apply observed_spec|by apply finish_success_spec]. Qed.

(** The request of a claimed call. *)
Lemma started_spec {A} call_id route (k : Response → task A) w :
  inv w → bound_call call_id route (w_budget w) → (∀ response w1, inv w1 → proper (k response) w1) →
  proper (_ ← ask (Budget (mark_network_invocation_starting call_id));
          response ← ask (Network (ra_budget_reservation_id route) (bn_attempt_id (ra_binding route)));
          k response) w.
Proof.
  intros Hi Hb Hk. eapply (meets_bind inv later); [done| |].
  { apply (meets_budget (mark_network_invocation_starting call_id) (λ _ db, counted (pair_of route) db));
      [apply safe_mark_network|done|].
    intros w1 _ Hl1. apply mark_network_counted. eapply bound_call_mono, Hb. by apply later_budget. }
  intros [] w1 Hi1 _ Hc. apply proper_bind; [done|by apply network_spec|done].
Qed.

Lemma send_spec route consumption receipt w : inv w → proper (send route consumption receipt) w.
Proof.
  intros Hi. eapply (meets_bind inv later); [done|by apply claim_spec|].
  intros [call_id accounting] w1 Hi1 _ Hb. apply proper_catch; [done| |].
  - apply started_spec; [done..|]. intros value w2 Hi2. proper_steps; [by apply observed_spec|by apply finish_success_spec].
  - intros e w2 Hi2. proper_steps. by apply ended_spec.
Qed.

Lemma open_stream_spec {A} route consumption receipt (body : Response → task ProviderUsageReceipt → task A) w :
  inv w → (∀ response p w1, inv w1 → (∀ w2, inv w2 → proper p w2) → proper (body response p) w1) →
  proper (open_stream route consumption receipt body) w.
Proof.
  intros Hi Hbody. eapply (meets_bind inv later); [done|by apply claim_spec|].
  intros [call_id accounting] w1 Hi1 _ Hb. apply proper_catch; [done| |].
  - apply started_spec; [done..|]. intros value w2 Hi2. proper_steps; [|by apply finish_durably_spec].
    apply Hbody; [done|]. intros w3 Hi3. by apply finalize_spec.
  - intros e w2 Hi2. proper_steps. by apply ended_spec.
Qed.

(** *** The runner *)

(** The reservation of an attempt is in this state. *)
Definition in_state (state : ReservationState) (db : BudgetDB) (p : UUID * UUID) : Prop :=
  ∃ r, reservations db !! p.1 = Some r ∧ rv_attempt_id r = p.2 ∧ rv_state r = state.
Lemma in_state_mono state db db' p : terminal state = true → evolves db db' → in_state state db p → in_state state db' p.
Proof.
  intros Ht He (r & Hr & Ha & Hs). destruct (ev_rows _ _ He _ _ Hr) as (r' & Hr' & E).
  exists r'. rewrite (re_terminal _ _ E) in * by (by rewrite Hs). done.
Qed.

Lemma settle_settles id attempt now db :
  budget_ok hard db → wp (settle hard id attempt now) (λ _ db', in_state settled db' (id, attempt)) (λ _ _, True) db.
Proof.
  intros Hok. pose proof (settle_locked_spec hard id attempt now db Hok) as Hs.
  unfold wp, settle, try_except, in_uow in *. destruct (_settle_locked hard id attempt now db) as [[x|e] db'].
  - destruct Hs as (_ & r & _ & Ha & _ & Hr & _). eexists. rewrite Hr, lookup_insert_eq. split_and!; [done|exact Ha|done].
  - destruct (quarantine_reason e); [|done]. unfold mbind, M_bind.
    by destruct (_freeze_evidence_quarantine _ _ _ _ _) as [[?|?] ?].
Qed.
Lemma release_releases id attempt proof now db :
  wp (release_unsent id attempt proof now) (λ _ db', in_state released db' (id, attempt)) (λ _ _, True) db.
Proof.
  unfold release_unsent. wp_step. wp_step; [|done]. apply wp_in_uow.
  eapply wp_mono; [apply release_locked_spec| |done]. intros [] db' (r & _ & Ha & Hr). eexists. rewrite Hr, lookup_insert_eq.
  by split_and!.
Qed.

#[local] Abbreviation pair s := (reservation_of s, attempt_of s).
#[local] Abbreviation left_in state p := (λ w, in_state state (w_budget w) p).

Lemma left_in_later state p w w' : terminal state = true → later w w' → left_in state p w → left_in state p w'.
Proof. intros Ht Hl. apply in_state_mono; [done|by apply later_budget]. Qed.

Lemma shield_spec (p : task unit) state x w :
  terminal state = true → inv w → meets p (returns (λ _, left_in state x)) w →
  meets (_shield_terminal p) (returns (λ _, left_in state x)) w.
Proof.
  intros Ht Hi Hp. eapply (meets_bind inv later); [done|by apply meets_try|].
  intros r w1 Hi1 _ Hr. apply (asked Interrupted); [done..|]. intros interrupted w2 Hi2 Hl2.
  destruct r as [[]|e]; [|done]. destruct (interrupted : bool); [done|]. split; [done|]. by eapply left_in_later.
Qed.

Lemma completed_spec s state x w : terminal state = true → inv w → left_in state x w →
  meets (_complete s) (returns (λ _, left_in state x)) w.
Proof.
  intros Ht Hi Hx. unfold _complete. destruct (as_tracked s); [|by split].
  apply meets_safe; [done..|]. intros a w1 _ Hl. by eapply left_in_later.
Qed.

Lemma settle_spec s w : inv w → meets (_settle hard s) (returns (λ _, left_in settled (pair s))) w.
Proof.
  intros Hi. apply shield_spec; [done..|]. apply (asked Now); [done..|]. intros now w1 Hi1 _.
  eapply (meets_bind inv later); [done| |].
  - apply (meets_budget (settle hard (reservation_of s) (attempt_of s) now) (λ _ db, in_state settled db (pair s)));
      [apply safe_settle|done|]. intros w2 Hi2 _. apply settle_settles, Hi2.
  - intros ? w2 Hi2 _ Hs. by apply completed_spec.
Qed.

Lemma release_or_settle_spec s w : inv w →
  meets (_release_or_settle hard s) (returns (λ t w', t = released_unsent → left_in released (pair s) w')) w.
Proof.
  intros Hi. eapply (meets_bind inv later); [done| |].
  - apply (meets_try _ (λ _, left_in released (pair s))); [done|]. apply shield_spec; [done..|]. apply (asked Now); [done..|]. intros now w1 Hi1 _.
    eapply (meets_bind inv later); [done| |].
    + apply (meets_budget (release_unsent (reservation_of s) (attempt_of s) _ now)
        (λ _ db, in_state released db (pair s))); [apply safe_release_unsent|done|]. intros w2 Hi2 _. apply release_releases.
    + intros ? w2 Hi2 _ Hs. by apply completed_spec.
  - intros [[]|e] w1 Hi1 _ Hr; [by split|]. destruct (is_permission e); [|done].
    eapply (meets_bind inv later); [done|by apply settle_spec|]. intros ? w2 Hi2 _ _. by split.
Qed.

Lemma proper_settle s w : inv w → proper (_settle hard s) w.
Proof. intros Hi. by eapply proper_of, settle_spec. Qed.
Lemma proper_release s w : inv w → proper (_release_or_settle hard s) w.
Proof. intros Hi. by eapply proper_of, release_or_settle_spec. Qed.
Ltac closing_steps := repeat first [proper_step | by apply proper_settle | by apply proper_release].

Lemma handle_not_sent_spec s reservation_id attempt_id w :
  inv w → proper (_handle_not_sent hard s reservation_id attempt_id) w.
Proof. intros Hi. unfold _handle_not_sent. closing_steps. Qed.

Lemma terminalize_spec s disposition w : inv w →
  meets (_terminalize_transient hard s disposition) (returns (λ t w', t = released_unsent → left_in released (pair s) w')) w.
Proof.
  intros Hi. unfold _terminalize_transient. destruct (bool_decide _); [by apply release_or_settle_spec|].
  eapply (meets_bind inv later); [done|by apply settle_spec|]. intros ? w1 Hi1 _ _. by split.
Qed.

Lemma prepare_spec t w : inv w → proper (_prepare_attempt catalog hard soft expiry t) w.
Proof. intros Hi. unfold _prepare_attempt, authorized. cbn zeta. closing_steps. apply safe_reserve. Qed.
Lemma delay_spec policy index w : inv w → proper (_delay policy index) w.
Proof. intros Hi. unfold _delay. closing_steps. Qed.
#[local] Hint Resolve handle_not_sent_spec prepare_spec delay_spec proper_settle proper_release : core.

(** One attempt was paid for; those before it were given back. *)
Definition paid_once (bound : nat) (made : list (UUID * UUID)) (db : BudgetDB) : Prop :=
  ∃ earlier final, made = earlier ++ [final] ∧ (length made ≤ bound)%nat ∧
    Forall (in_state released db) earlier ∧ in_state settled db final.

Lemma released_later made w w' :
  later w w' → Forall (in_state released (w_budget w)) made → Forall (in_state released (w_budget w')) made.
Proof. intros Hl Hm. eapply Forall_impl; [exact Hm|]. intros p. by apply left_in_later. Qed.
Lemma paid_last n made final w :
  Forall (in_state released (w_budget w)) made → left_in settled final w →
  paid_once (length made + S n) (made ++ [final]) (w_budget w).
Proof. intros Hm Hf. exists made, final. split_and!; [done|rewrite length_app; cbn; lia|done..]. Qed.
Lemma paid_later {A} n (made : list (UUID * UUID)) final (proj : A → list (UUID * UUID)) (p : task A) w :
  meets p (returns (λ r w', paid_once (length (made ++ [final]) + n) (proj r) (w_budget w'))) w →
  meets p (returns (λ r w', paid_once (length made + S n) (proj r) (w_budget w'))) w.
Proof. rewrite length_app. cbn. by rewrite <- Nat.add_assoc. Qed.

Lemma run_attempts_spec {R} n index t policy (invoke : RouteAuthorization → RouteConsumption → task R) made w :
  (∀ route consumption w1, inv w1 → proper (invoke route consumption) w1) →
  inv w → Forall (in_state released (w_budget w)) made →
  meets (run_attempts catalog hard soft expiry n index t policy invoke made)
    (returns (λ r w', paid_once (length made + n) r.2 (w_budget w'))) w.
Proof.
  intros Hinvoke. revert index made w. induction n as [|n IH]; intros index made w Hi Hmade; cbn [run_attempts]; [done|].
  eapply (meets_bind inv later); [done|by apply prepare_spec|]. intros s w1 Hi1 Hl1 _. cbn zeta.
  eapply (meets_bind inv later); [done|by apply proper_try, Hinvoke|]. intros r w2 Hi2 Hl2 _.
  assert (Forall (in_state released (w_budget w2)) made) as Hmade2 by (eapply released_later, Hmade; by etrans).
  destruct r as [result|e].
  - eapply (meets_bind inv later); [done|by apply settle_spec|]. intros ? w3 Hi3 Hl3 Hs. split; [done|].
    apply paid_last; [by eapply released_later|done].
  - assert (∀ p : task unit, proper p w2 → ∀ e', meets (p ≫= λ _, Throw e') (returns (λ (r : R * _) w',
      paid_once (length made + S n) r.2 (w_budget w'))) w2) as Hraise.
    { intros p Hp e'. eapply (meets_bind inv later); [done|exact Hp|done]. }
    destruct e as [x|id attempt cause|id attempt|status disposition|msg| |]; try (by apply Hraise; auto);
      try (by eapply (meets_bind inv later); [done|by apply proper_release|]).
    eapply (meets_bind inv later); [done|by apply terminalize_spec|]. intros terminal w3 Hi3 Hl3 Ht.
    destruct (_ && _) eqn:Hretry; [|done]. bool_props.
    eapply (meets_bind inv later); [done|by apply delay_spec|]. intros ? w4 Hi4 Hl4 _.
    apply (paid_later n made (pair s) snd). apply IH; [done|]. apply Forall_app. split.
    + by do 2 (eapply released_later; [done|]).
    + apply Forall_singleton. eapply left_in_later; [done|exact Hl4|auto].
Qed.

(** *** Streams *)

Definition proper_speech (speech : Speech) : Prop :=
  (∀ route consumption w, inv w → proper (sp_invoke speech route consumption) w) ∧
  (∀ w, inv w → proper (sp_anext speech) w) ∧ (∀ w, inv w → proper (sp_aclose speech) w).

Section Streams.
Context (speech : Speech) (Hspeech : proper_speech speech).

Definition step_left (s : _AttemptState) (step : stream_step) : World → Prop :=
  match step with
  | NextOne _ _ => λ _, True
  | Retry => left_in released (pair s)
  | Finished => left_in settled (pair s)
  end.

Lemma close_and_raise_spec {A} s e (Q : A → World → Prop) w : inv w → meets (close_and_raise hard s e) (returns Q) w.
Proof. intros Hi. eapply (meets_bind inv later); [done|by apply proper_release|done]. Qed.
Lemma aclosed_spec {A} s e (Q : A → World → Prop) w :
  inv w → meets (_ ← sp_aclose speech; close_and_raise hard s e) (returns Q) w.
Proof. intros Hi. eapply (meets_bind inv later); [done|by apply Hspeech|]. intros ? w1 Hi1 _ _. by apply close_and_raise_spec. Qed.
Lemma raise_after {A B} (p : task B) e (Q : A → World → Prop) w :
  inv w → proper p w → meets (p ≫= λ _, Throw e) (returns Q) w.
Proof. intros Hi Hp. eapply (meets_bind inv later); [done|exact Hp|done]. Qed.
#[local] Hint Resolve close_and_raise_spec aclosed_spec raise_after : core.

Lemma last_chunk_spec s first chunk w :
  inv w → meets (last_chunk hard speech s first chunk) (returns (step_left s)) w.
Proof.
  intros Hi. unfold last_chunk. destruct (_ || _); [by apply aclosed_spec|].
  eapply (meets_bind inv later); [done|by apply proper_try, Hspeech|]. intros extra w1 Hi1 _ _.
  destruct extra as [?|[]]; [by apply aclosed_spec|try exact I..].
  eapply (meets_bind inv later); [done|by apply settle_spec|]. intros ? w2 Hi2 _ Hs.
  eapply (meets_bind inv later); [done|by apply proper_try, proper_ask|]. intros r w3 Hi3 Hl3 _.
  eapply (meets_bind inv later); [done|by apply Hspeech|]. intros ? w4 Hi4 Hl4 _.
  destruct r; [|done]. split; [done|]. eapply left_in_later; [done| |exact Hs]. by etrans.
Qed.

Lemma payload_chunk_spec s expected chunk w :
  inv w → meets (payload_chunk hard speech s expected chunk) (returns (step_left s)) w.
Proof.
  intros Hi. unfold payload_chunk. destruct (bool_decide _); [by apply close_and_raise_spec|].
  eapply (meets_bind inv later); [done|by apply proper_try, proper_ask|]. intros r w1 Hi1 _ _.
  destruct r as [?|[[]| | | | | |]]; try exact I; try (by apply aclosed_spec). by split.
Qed.

Lemma chunk_step_spec t policy remaining index s first expected w :
  inv w → meets (chunk_step hard speech t policy remaining index s first expected) (returns (step_left s)) w.
Proof.
  intros Hi. unfold chunk_step. eapply (meets_bind inv later); [done|by apply proper_try, Hspeech|].
  intros r w1 Hi1 _ _. destruct r as [chunk|e].
  - destruct (_ || _); [by apply close_and_raise_spec|].
    destruct (sc_final chunk); [by apply last_chunk_spec|by apply payload_chunk_spec].
  - destruct e as [x|id attempt cause|id attempt|status disposition|msg| |];
      try (by apply close_and_raise_spec); try (by apply aclosed_spec); try (by apply raise_after; auto).
    eapply (meets_bind inv later); [done|by apply terminalize_spec|]. intros terminal w2 Hi2 _ Ht.
    destruct (_ && _) eqn:Hretry; [|done]. bool_props.
    eapply (meets_bind inv later); [done|by apply Hspeech|]. intros ? w3 Hi3 Hl3 _.
    eapply (meets_bind inv later); [done|by apply delay_spec|]. intros ? w4 Hi4 Hl4 _.
    split; [done|]. apply (left_in_later _ _ w2); [done|by etrans|auto].
Qed.

Lemma stream_chunks_spec chunks t policy remaining index s first expected w :
  inv w → meets (stream_chunks hard chunks speech t policy remaining index s first expected)
    (returns (λ again, left_in (if again : bool then released else settled) (pair s))) w.
Proof.
  revert first expected w. induction chunks as [|chunks IH]; intros first expected w Hi; cbn [stream_chunks]; [done|].
  eapply (meets_bind inv later); [done|by apply chunk_step_spec|]. intros step w1 Hi1 _ Hs.
  destruct step; [by apply IH|by split..].
Qed.

Lemma stream_attempts_spec n index chunks t policy made w :
  inv w → Forall (in_state released (w_budget w)) made →
  meets (stream_attempts catalog hard soft expiry n index chunks t policy speech made)
    (returns (λ r w', paid_once (length made + n) r (w_budget w'))) w.
Proof.
  revert index made w. induction n as [|n IH]; intros index made w Hi Hmade; cbn [stream_attempts]; [done|].
  eapply (meets_bind inv later); [done|by apply prepare_spec|]. intros s w1 Hi1 Hl1 _. cbn zeta.
  eapply (meets_bind inv later); [done|by apply proper_try, Hspeech|]. intros r w2 Hi2 Hl2 _.
  assert (Forall (in_state released (w_budget w2)) made) as Hmade2 by (eapply released_later, Hmade; by etrans).
  destruct r as [?|[]]; try (by apply close_and_raise_spec); try (by apply raise_after; auto).
  eapply (meets_bind inv later); [done|by apply stream_chunks_spec|]. intros [] w3 Hi3 Hl3 Hs.
  - apply (paid_later n made (pair s) id). apply IH; [done|]. apply Forall_app.
    split; [by eapply released_later|by apply Forall_singleton].
  - split; [done|]. apply paid_last; [by eapply released_later|done].
Qed.
End Streams.
End Rely.

(** ** Jobs of one process *)

Section Jobs.
Context {Response : Type} `{BS : BudgetServices} `{CS : CallServices}.
Context (catalog : PriceCatalog) (hard soft expiry : Z).
#[local] Abbreviation task := (prog (call Response) attempt_exn).

(** A call through the gateway with its attempts, a speech stream with its attempts, the lease a
    speech provider holds while it is read, an operation of any budget service and a method of the
    coordinator. *)
Inductive work :=
| Run (t : AttemptTemplate) (policy : RetryPolicy) (redaction_receipt_id : option UUID)
| Stream (chunks : nat) (t : AttemptTemplate) (policy : RetryPolicy)
| Lease (route : RouteAuthorization) (consumption : RouteConsumption) (redaction_receipt_id : option UUID) (reads : nat)
| Operate (o : operation)
| Coordinate (m : M coordinator exn unit).

(** The provider's generator, as the environment answers it. *)
Definition provider_speech : Speech (Response := Response) :=
  mkSpeech (λ _ _, ask Adapt) (ask NextChunk) (ask CloseStream).

(** An adapter refuses some requests itself and may translate what the gateway raises. *)
Definition adapted {A} (p : task A) : task A :=
  _ ← ask Adapt;
  catch p (λ e, _ ← ask Adapt; Throw e).

Fixpoint read (reads : nat) : task unit :=
  match reads with O => Ret tt | S reads => _ ← ask NextChunk; read reads end.

(** What a job returns: the attempts it made. *)
Definition activity (j : work) : task (list (UUID * UUID)) :=
  match j with
  | Run t policy receipt =>
    r ← run catalog hard soft expiry t policy 
           (λ route consumption, adapted (send route consumption receipt)); Ret r.2
  | Stream chunks t policy => stream catalog hard soft expiry chunks t policy provider_speech
  | Lease route consumption receipt reads =>
    adapted (open_stream route consumption receipt (λ _ finalize, _ ← read reads; _ ← finalize; Ret []))
  | Operate o => _ ← ask (Budget (λ db, (Ok tt, perform catalog hard soft expiry o db))); Ret []
  | Coordinate m => _ ← ask (Coordinator m); Ret []
  end.

Definition run_works (works : list work) (schedule : list (nat * Env Response)) (w : World) :
    list (task (list (UUID * UUID))) * World :=
  loop_run schedule (map activity works) w.

(** A process starts on the store that earlier ones left; no request of its own is under way. *)
Definition first_world (ops : list operation) (turns : coordinator) : World :=
  mkWorld (reach catalog hard soft expiry ops) turns ∅ [].

Definition activity_post (j : work) (made : list (UUID * UUID)) (w : World) : Prop :=
  match j with
  | Run _ policy _ | Stream _ _ policy => paid_once (Z.to_nat (max_attempts policy)) made (w_budget w)
  | _ => True
  end.

#[local] Abbreviation returns := (ending (X := attempt_exn) (inv hard)).
#[local] Abbreviation meets p Q w := (holds (E := Env Response) (ordered (inv hard) later) p Q w).

Lemma read_spec n w : inv hard w → meets (read n) (returns (λ _ _, True)) w.
Proof.
  revert w. induction n as [|n IH]; intros w Hi; cbn [read]; [done|]. apply proper_bind; [done|by apply proper_ask|].
  intros _ w1 Hi1. by apply IH.
Qed.

Lemma adapted_spec {A} (p : task A) w :
  inv hard w → (∀ w1, inv hard w1 → meets p (returns (λ _ _, True)) w1) → meets (adapted p) (returns (λ _ _, True)) w.
Proof.
  intros Hi Hp. apply proper_bind; [done|by apply proper_ask|]. intros _ w1 Hi1. apply proper_catch; [done|by apply Hp|].
  intros e w2 Hi2. apply proper_bind; [done|by apply proper_ask|done].
Qed.

(** The policy of a job that makes attempts. *)
Definition policy_of (j : work) : option RetryPolicy :=
  match j with Run _ policy _ | Stream _ _ policy => Some policy | _ => None end.

Lemma activity_spec j w : inv hard w → meets (activity j) (returns (activity_post j)) w.
Proof.
  intros Hi. destruct j as [t policy receipt|chunks t policy|route consumption receipt reads|o|m]; cbn [activity].
  - eapply (meets_bind (inv hard) later _ _ (λ r w', paid_once _ r.2 (w_budget w'))); [done| |by split].
    apply (meets_throw_if (inv hard)). intros _. apply (run_attempts_spec catalog hard soft expiry _ _ t policy _ []); [|done|done].
    intros. apply adapted_spec; [done|]. intros. by apply send_spec.
  - apply (meets_throw_if (inv hard)). intros _. apply (stream_attempts_spec catalog hard soft expiry provider_speech); [|done|done].
    split_and!; intros; by apply proper_ask.
  - apply adapted_spec; [done|]. clear w Hi. intros w Hi. apply open_stream_spec; [done|]. intros response p w1 Hi1 Hp. apply proper_bind; [done|by apply read_spec|].
    intros _ w2 Hi2. apply proper_bind; [done|by apply Hp|]. by split.
  - apply proper_bind; [done| |by split]. apply proper_ask; [|done]. intros db Hok. by apply perform_good.
  - apply proper_bind; [done|by apply proper_ask|by split].
Qed.
Lemma activity_post_lasts j : lasting_in later (activity_post j).
Proof.
  intros made w w' Hl. destruct j; try done; intros (earlier & final & -> & Hn & He & Hf); exists earlier, final;
    (split_and!; [done..|by eapply released_later|by eapply left_in_later]).
Qed.

Lemma first_inv ops turns : 0 ≤ hard → inv hard (first_world ops turns).
Proof. intros Hh. constructor; [by apply reach_ok|]. by intros p []%elem_of_nil. Qed.

Lemma works_spec works schedule ops turns :
  0 ≤ hard →
  let r := run_works works schedule (first_world ops turns) in
  inv hard r.2 ∧ ∀ i j made, works !! i = Some j → r.1 !! i = Some (Ret made) → activity_post j made r.2.
Proof.
  intros Hh. pose proof (first_inv ops turns Hh) as Hi.
  destruct (pool_ends (inv hard) later activity activity_post works schedule (first_world ops turns)) as (Hi' & _ & Hp);
    [done|by intros; apply activity_spec|apply activity_post_lasts|done].
Qed.

(** What was counted was not given back. *)
Lemma counted_not_released p db : counted p db → in_state released db p → False.
Proof. intros [(r & Hr & _ & Hs) _] (r' & Hr' & _ & Hs'). simplify_eq. destruct Hs; congruence. Qed.
End Jobs.

(** C6: a request that leaves the house is counted first.  In any interleaving of calls with
    their attempts, speech streams, budget operations and coordinator steps, whatever fails or
    is cancelled, a request that went to a provider belongs to a reservation that is marked sent
    or settled, never to one that was released, and its call was announced in the store. *)
Theorem requests_counted {Response} `{BS : BudgetServices} `{CS : CallServices} catalog hard soft expiry
    works (schedule : list (nat * Env Response)) ops turns p :
  0 ≤ hard →
  let w := (run_works catalog hard soft expiry works schedule (first_world catalog hard soft expiry ops turns)).2 in
  p ∈ w_requests w → counted p (w_budget w) ∧ ¬ in_state released (w_budget w) p.
Proof.
  intros Hh w Hp. destruct (works_spec catalog hard soft expiry works schedule ops turns Hh) as [Hi _].
  pose proof (inv_requests _ _ Hi p Hp) as Hc. split; [done|]. intros Hs. by eapply counted_not_released.
Qed.

(** C21: one success, one payment.  A run or a speech stream that has returned made at least one
    attempt and no more than its policy allows; the last one is settled, and all before it were
    released and made no request. *)
Theorem returned_paid_once {Response} `{BS : BudgetServices} `{CS : CallServices} catalog hard soft expiry
    works (schedule : list (nat * Env Response)) ops turns i j policy made :
  0 ≤ hard → works !! i = Some j → policy_of j = Some policy →
  let r := run_works catalog hard soft expiry works schedule (first_world catalog hard soft expiry ops turns) in
  r.1 !! i = Some (Ret made) →
  ∃ earlier final, made = earlier ++ [final] ∧ len made ≤ max_attempts policy ∧
    in_state settled (w_budget r.2) final ∧
    ∀ p, p ∈ earlier → in_state released (w_budget r.2) p ∧ p ∉ w_requests r.2.
Proof.
  intros Hh Hj Hpolicy r Hr. destruct (works_spec catalog hard soft expiry works schedule ops turns Hh) as [Hi Hp].
  assert (paid_once (Z.to_nat (max_attempts policy)) made (w_budget r.2)) as (earlier & final & -> & Hn & He & Hf).
  { specialize (Hp i j made Hj Hr). by destruct j; simplify_eq/=. }
  exists earlier, final. split_and!; [done|rewrite length_app in Hn; cbn in Hn; unfold len; rewrite length_app; cbn; lia|done|]. intros p Hin. rewrite Forall_forall in He.
  split; [by apply He|]. intros Hreq. by eapply counted_not_released, He; [apply Hi|].
Qed.

(** ** A sample: an attempt that is refused before it is sent, and its retry *)

#[local] Existing Instance sample_services.
#[local] Existing Instance sample_call_services.

Definition sample_template : AttemptTemplate :=
  mkTemplate 10 cloud_reasoning 1 (Some 40) 3 2 "openai" "gpt" sample_commitment 1000 1000 500 500 "internal"
    "2026-07" llm sample_usage.
Definition sample_policy : RetryPolicy := mkPolicy 2 100.
Definition sample_answer (fresh : UUID) (raises : option attempt_exn) : Env unit :=
  mkEnv unit 500 fresh (30, 1000) (Some tt) (mkObservation (Some (LlmUsageUnits 100 50)) "resp-1" exact)
    (mkUsageReceipt fresh fresh 10 fresh 30 "openai" "gpt" llm provider_reported_exact (LlmUsageUnits 100 50) sample_commitment 300)
    (mkChunk 10 0 [] true) false None raises.
Definition sample_works : list work :=
  [Operate (OpSetting (RouteKey 30) (Some (OtherValue "{}"))); Run sample_template sample_policy (Some 50)].
Definition sample_turns : coordinator := step (EStart 2) sample_coordinator.
Definition sample_schedule : list (nat * Env unit) :=
  (0%nat, sample_answer 1 None) ::
  replicate 13 (1%nat, sample_answer 1 (Some (TransientProviderError 503 never_sent))) ++
  replicate 40 (1%nat, sample_answer 2 None).
Definition sample_run : list (prog (call unit) attempt_exn (list (UUID * UUID))) * World :=
  run_works sample_catalog 100000 5000 900 sample_works sample_schedule
    (first_world sample_catalog 100000 5000 900 [] sample_turns).

Lemma sample_run_returns : sample_run.1 !! 1%nat = Some (Ret [(1, 1); (2, 2)]).
Proof. by vm_compute. Qed.

Lemma requests_counted_witness :
  (2, 2) ∈ w_requests sample_run.2 ∧ counted (2, 2) (w_budget sample_run.2) ∧
  ¬ in_state released (w_budget sample_run.2) (2, 2).
Proof.
  assert ((2, 2) ∈ w_requests sample_run.2) as Hp by (apply (bool_decide_unpack _); by vm_compute).
  split; [exact Hp|]. apply (requests_counted sample_catalog 100000 5000 900 sample_works sample_schedule [] sample_turns (2, 2));
    [lia|exact Hp].
Defined.

Lemma returned_paid_once_witness :
  ∃ earlier final, [(1, 1); (2, 2)] = earlier ++ [final] ∧ len [(1, 1); (2, 2)] ≤ 2 ∧
    in_state settled (w_budget sample_run.2) final ∧
    ∀ p, p ∈ earlier → in_state released (w_budget sample_run.2) p ∧ p ∉ w_requests sample_run.2.
Proof.
  apply (returned_paid_once sample_catalog 100000 5000 900 sample_works sample_schedule [] sample_turns 1
    (Run sample_template sample_policy (Some 50)) sample_policy [(1, 1); (2, 2)]); [lia|reflexivity..|].
  exact sample_run_returns.
Defined.

(** ** Two ends of an attempt that the runner does not handle *)

Definition chunk_answer (sequence : Z) (pcm : list byte) (final : bool) (raises : option attempt_exn) : Env unit :=
  mkEnv unit 500 1 (30, 1000) (Some tt) (mkObservation None "resp-1" exact) sample_receipt
    (mkChunk 10 sequence pcm final) false None raises.
Definition late_works : list work := [Stream 5 sample_template sample_policy].
Definition late_schedule : list (nat * Env unit) :=
  replicate 9 (0%nat, chunk_answer 0 [Byte.x01] false None) ++ replicate 2 (0%nat, chunk_answer 1 [] true None) ++
  replicate 20 (0%nat, chunk_answer 1 [] true (Some (Py OSError))).
Definition late_run : list (prog (call unit) attempt_exn (list (UUID * UUID))) * World :=
  run_works sample_catalog 100000 5000 900 late_works late_schedule
    (first_world sample_catalog 100000 5000 900 [] sample_turns).

(** The provider fails between its last chunk and the end of its stream: the error is passed on
    with the reservation open and tracked. *)
Example late_error_leaves_reservation :
  late_run.1 !! 0%nat = Some (Throw (Py OSError)) ∧ rv_state <$> reservations (w_budget late_run.2) !! 1 = Some reserved ∧
  (1, 1) ∈ tracked_attempts 2 (w_turns late_run.2).
Proof. split_and!; [by vm_compute..|]. apply (bool_decide_unpack _). by vm_compute. Qed.

Definition stale_works : list work :=
  [Run sample_template sample_policy (Some 50); Coordinate (λ c, (Ok tt, step (ECancel 2 "stop" Created None) c))].
Definition stale_schedule : list (nat * Env unit) :=
  replicate 7 (0%nat, sample_answer 1 None) ++ [(1%nat, sample_answer 1 None)] ++
  replicate 20 (0%nat, sample_answer 1 (Some (Py CancelledError))).
Definition stale_run : list (prog (call unit) attempt_exn (list (UUID * UUID))) * World :=
  run_works sample_catalog 100000 5000 900 stale_works stale_schedule
    (first_world sample_catalog 100000 5000 900 [] sample_turns).

(** A run is cancelled together with its turn: its reservation is released, and what the caller
    gets is not the cancellation. *)
Example cancelled_run_raises_stale_turn :
  stale_run.1 !! 0%nat = Some (Throw (Py (RuntimeError "stale turn"))) ∧
  rv_state <$> reservations (w_budget stale_run.2) !! 1 = Some released.
Proof. split; by vm_compute. Qed.
