(* ===== verification/SpeechStream.v ===== *)
(** * What the consumer of a speech stream gets

    [AttemptRunner.stream] hands chunks of a provider on to its consumer, over several attempts.
    The chunks are followed over every behaviour of the services, the provider and the consumer:
    each awaited call may answer or raise anything. *)

From S2P Require Import Prelude PyFloat PttFraming Turns BudgetPricing BudgetLedger BudgetGuard ProviderCalls BudgetReconciler BudgetSafety BudgetTheorems Tasks Attempts AttemptSafety.

Section Delivery.
Context {Response : Type}.
#[local] Abbreviation task := (prog (call Response) attempt_exn).

(** The chunk a call hands on. *)
Definition handed_on (c : call Response) : list SpeechChunk :=
  match c with Yield chunk => [chunk] | _ => [] end.

(** [p] may hand on the chunks [l] and come to [q]. *)
Inductive delivers {A} : task A → list SpeechChunk → task A → Prop :=
| delivers_here p : delivers p [] p
| delivers_call c k r l q : delivers (k r) l q → delivers (Await c k) (handed_on c ++ l) q.

(** After [l], what is handed on always satisfies [I], and [Q] at the end. *)
Fixpoint ensures {A} (I : list SpeechChunk → Prop) (Q : result attempt_exn A → list SpeechChunk → Prop)
    (p : task A) (l : list SpeechChunk) : Prop :=
  I l ∧ match p with
        | Ret a => Q (Ok a) l
        | Throw e => Q (Raise e) l
        | Halt => True
        | Await c k => ∀ r, ensures I Q (k r) (l ++ handed_on c)
        end.

Lemma ensures_now {A} I Q (p : task A) l : ensures I Q p l → I l.
Proof. by destruct p; intros []. Qed.
Lemma ensures_delivers {A} I Q (p : task A) l l' q :
  ensures I Q p l → delivers p l' q → ensures I Q q (l ++ l').
Proof.
  intros Hp Hd. revert l Hp. induction Hd as [p|c k r l' q Hd IH]; intros l Hp; [by rewrite app_nil_r|].
  rewrite app_assoc. apply IH, Hp.
Qed.

Lemma ensures_mono {A} (I I' : list SpeechChunk → Prop) (Q Q' : result attempt_exn A → list SpeechChunk → Prop) p l :
  (∀ l', I l' → I' l') → (∀ r l', Q r l' → Q' r l') → ensures I Q p l → ensures I' Q' p l.
Proof.
  intros HI HQ. revert l. induction p as [a|e| |c k IH]; intros l [Hl Hp]; (split; [by apply HI|]); auto.
Qed.
Lemma ensures_bind {A B} I (p : task A) (k : A → task B) Q l :
  ensures I (λ r l', match r with Ok a => ensures I Q (k a) l' | Raise e => I l' → Q (Raise e) l' end) p l →
  ensures I Q (p ≫= k) l.
Proof.
  revert l. induction p as [a|e| |c k' IH]; intros l [Hl Hp]; [done|by split; auto|done|].
  split; [done|]. intros r. apply IH, Hp.
Qed.
Lemma ensures_catch {A} I (p : task A) h Q l :
  ensures I (λ r l', match r with Ok a => I l' → Q (Ok a) l' | Raise e => ensures I Q (h e) l' end) p l →
  ensures I Q (catch p h) l.
Proof.
  revert l. induction p as [a|e| |c k' IH]; intros l [Hl Hp]; [by split; auto|done|done|].
  split; [done|]. intros r. apply IH, Hp.
Qed.

(** Programs that hand nothing on. *)
Definition mute {A} (p : task A) : Prop := ∀ l, ensures (λ l', l' = l) (λ _ l', l' = l) p l.

Lemma mute_ret {A} (a : A) : mute (Ret a).
Proof. by split. Qed.
Lemma mute_throw {A} e : mute (Throw e : task A).
Proof. by split. Qed.
Lemma mute_ask c : handed_on c = [] → mute (ask c).
Proof. intros Hc l. split; [done|]. rewrite Hc, app_nil_r. by intros [a|e]; split. Qed.
Lemma mute_bind {A B} (p : task A) (k : A → task B) : mute p → (∀ a, mute (k a)) → mute (p ≫= k).
Proof.
  intros Hp Hk l. apply ensures_bind. eapply (ensures_mono (λ l', l' = l) _ (λ _ l', l' = l)); [done| |apply Hp]. intros [a|e] l' ->; [apply Hk|done].
Qed.
Lemma mute_catch {A} (p : task A) h : mute p → (∀ e, mute (h e)) → mute (catch p h).
Proof.
  intros Hp Hk l. apply ensures_catch. eapply (ensures_mono (λ l', l' = l) _ (λ _ l', l' = l)); [done| |apply Hp]. intros [a|e] l' ->; [done|apply Hk].
Qed.

(** A silent program before others. *)
Lemma ensures_after {A B} (p : task A) (k : A → task B) (I : list SpeechChunk → Prop) Q l :
  mute p → I l → (∀ a, ensures I Q (k a) l) → (∀ e, Q (Raise e) l) → ensures I Q (p ≫= k) l.
Proof.
  intros Hp Hl Hk HQ. apply ensures_bind. eapply (ensures_mono (λ l', l' = l) _ (λ _ l', l' = l)); [| |apply Hp].
  - by intros l' ->.
  - intros [a|e] l' ->; [apply Hk|auto].
Qed.
Lemma ensures_try {A B} (p : task A) (k : result attempt_exn A → task B) (I : list SpeechChunk → Prop) Q l :
  mute p → I l → (∀ r, ensures I Q (k r) l) → (∀ e, Q (Raise e) l) → ensures I Q (try p ≫= k) l.
Proof.
  intros Hp. apply ensures_after. apply mute_catch; [|intros; apply mute_ret].
  apply mute_bind; [done|]. intros. apply mute_ret.
Qed.
End Delivery.

Ltac mute_step :=
  lazymatch goal with
  | |- mute (Ret _) => apply mute_ret
  | |- mute (Throw _) => apply mute_throw
  | |- mute (_ ≫= _) => apply mute_bind; [|intros ?]
  | |- mute (catch _ _) => apply mute_catch; [|intros ?]
  | |- mute (try _) => unfold try
  | |- mute (ask ?c) => apply (mute_ask c); reflexivity
  | |- mute (throw_if ?b _) => destruct b; [apply mute_throw|apply mute_ret]
  | |- mute (match ?x with _ => _ end) => destruct x
  end.
Ltac mute_steps := repeat mute_step.

(** ** The stream *)

(** Chunks of one request, numbered from 0, none of them empty and none the last. *)
Definition payloads (t : AttemptTemplate) (l : list SpeechChunk) : Prop :=
  ∀ i chunk, l !! i = Some chunk →
    sc_request_id chunk = tm_request_id t ∧ sc_sequence chunk = Z.of_nat i ∧ sc_final chunk = false ∧ sc_pcm chunk ≠ [].
(** Some payload, and the empty chunk that ends it. *)
Definition whole_speech (t : AttemptTemplate) (l : list SpeechChunk) : Prop :=
  ∃ l0, l = l0 ++ [mkChunk (tm_request_id t) (len l0) [] true] ∧ l0 ≠ [] ∧ payloads t l0.

Lemma payloads_nil t : payloads t [].
Proof. by intros i chunk Hi. Qed.
Lemma payloads_snoc t l chunk :
  payloads t l → sc_request_id chunk = tm_request_id t → sc_sequence chunk = len l → sc_final chunk = false →
  sc_pcm chunk ≠ [] → payloads t (l ++ [chunk]).
Proof.
  intros Hl Hr Hs Hf Hp i c. destruct (decide (i = length l)) as [->|Hne].
  - rewrite list_lookup_middle by done. by intros [= <-].
  - intros Hc. apply (Hl i c). assert (i < length l)%nat by (apply lookup_lt_Some in Hc; rewrite length_app in Hc; cbn in Hc; lia).
    by rewrite lookup_app_l in Hc.
Qed.

Section Stream.
Context {Response : Type} `{BS : BudgetServices} `{CS : CallServices}.
Context (catalog : PriceCatalog) (hard soft expiry : Z) (t : AttemptTemplate) (policy : RetryPolicy).
#[local] Abbreviation task := (prog (call Response) attempt_exn).
Context (speech : Speech (Response := Response)).

(** The provider itself hands nothing to the consumer. *)
Record mute_speech : Prop := {
  mute_invoke : ∀ route consumption, mute (sp_invoke speech route consumption);
  mute_anext : mute (sp_anext speech);
  mute_aclose : mute (sp_aclose speech);
}.
Context (Hspeech : mute_speech).

Lemma mute_settle s : mute (_settle (Response := Response) hard s).
Proof. unfold _settle, _shield_terminal, settle_terminal, _complete. mute_steps. Qed.
Lemma mute_release s : mute (_release_or_settle (Response := Response) hard s).
Proof.
  unfold _release_or_settle, _shield_terminal, release_terminal, _complete. mute_steps. all: apply mute_settle.
Qed.
Lemma mute_not_sent s reservation_id attempt_id : mute (_handle_not_sent (Response := Response) hard s reservation_id attempt_id).
Proof. unfold _handle_not_sent. mute_steps; [apply mute_settle|apply mute_release]. Qed.
Lemma mute_transient s disposition : mute (_terminalize_transient (Response := Response) hard s disposition).
Proof. unfold _terminalize_transient. mute_steps; [apply mute_release|apply mute_settle]. Qed.
Lemma mute_delay index : mute (_delay (Response := Response) policy index).
Proof. unfold _delay. mute_steps. Qed.
Lemma mute_prepare : mute (_prepare_attempt (Response := Response) catalog hard soft expiry t).
Proof. unfold _prepare_attempt, authorized. cbn zeta. mute_steps; apply mute_release. Qed.
#[local] Hint Resolve mute_settle mute_release mute_not_sent mute_transient mute_delay mute_prepare
  mute_invoke mute_anext mute_aclose : core.

(** Where the inner loop stands, and what a step of it leaves. *)
Definition reading (first : bool) (expected : Z) (l : list SpeechChunk) : Prop :=
  payloads t l ∧ expected = len l ∧ (first = true → l ≠ []) ∧ (first = false → l = []).
Definition step_post (r : result attempt_exn stream_step) (l : list SpeechChunk) : Prop :=
  match r with
  | Ok (NextOne first expected) => reading first expected l
  | Ok Retry => l = []
  | Ok Finished => whole_speech t l
  | Raise _ => True
  end.
#[local] Abbreviation good_prefix := (λ l, payloads t l ∨ whole_speech t l).
#[local] Abbreviation gives Q p l := (ensures (Response := Response) good_prefix Q p l).

Lemma gives_throw {A} e (Q : result attempt_exn A → list SpeechChunk → Prop) l :
  good_prefix l → Q (Raise e) l → gives Q (Throw e) l.
Proof. by split. Qed.
Lemma gives_closing {A} s e (Q : result attempt_exn A → list SpeechChunk → Prop) l :
  good_prefix l → (∀ e, Q (Raise e) l) → gives Q (close_and_raise hard s e) l.
Proof. intros Hl HQ. apply ensures_after; auto. intros _. by apply gives_throw. Qed.
Lemma gives_closed {A} s e (Q : result attempt_exn A → list SpeechChunk → Prop) l :
  good_prefix l → (∀ e, Q (Raise e) l) → gives Q (_ ← sp_aclose speech; close_and_raise hard s e) l.
Proof. intros Hl HQ. apply ensures_after; auto. intros _. by apply gives_closing. Qed.
Lemma gives_raised {A B} (p : task A) e (Q : result attempt_exn B → list SpeechChunk → Prop) l :
  mute p → good_prefix l → (∀ e, Q (Raise e) l) → gives Q (p ≫= λ _, Throw e) l.
Proof. intros Hp Hl HQ. apply ensures_after; auto. intros _. by apply gives_throw. Qed.

(** Handing a chunk on. *)
Lemma gives_yield {B} chunk (k : result attempt_exn unit → task B) Q l :
  good_prefix l → good_prefix (l ++ [chunk]) → (∀ r, gives Q (k r) (l ++ [chunk])) → gives Q (try (ask (Yield chunk)) ≫= k) l.
Proof. intros Hl Hl' Hk. split; [done|]. by intros [[]|e]; apply Hk. Qed.

Lemma last_chunk_gives s first expected chunk l :
  reading first expected l → sc_request_id chunk = tm_request_id t → sc_sequence chunk = expected → sc_final chunk = true →
  gives step_post (last_chunk hard speech s first chunk) l.
Proof.
  intros (Hl & He & Hfirst & _) Hr Hs Hf. assert (good_prefix l) as Hgood by auto. unfold last_chunk.
  destruct (_ || _) eqn:Hb; [by apply gives_closed|]. bool_props.
  assert (whole_speech t (l ++ [chunk])) as Hw.
  { exists l. split_and!; [|auto|done]. destruct chunk; cbn in *; by subst. }
  apply ensures_try; [auto|done| |done]. intros [x|e]; [by apply gives_closed|].
  destruct e; try (by apply gives_throw). apply ensures_after; [auto|done| |done]. intros _.
  apply gives_yield; [done|by right|]. intros r. apply ensures_after; [auto|by right| |done].
  intros _. destruct r; (split; [by right|done]).
Qed.

Lemma payload_chunk_gives s first expected chunk l :
  reading first expected l → sc_request_id chunk = tm_request_id t → sc_sequence chunk = expected → sc_final chunk = false →
  gives step_post (payload_chunk hard speech s expected chunk) l.
Proof.
  intros (Hl & -> & _) Hr Hs Hf. assert (good_prefix l) as Hgood by auto. unfold payload_chunk.
  destruct (bool_decide _) eqn:Hb; [by apply gives_closing|]. bool_props.
  assert (payloads t (l ++ [chunk])) as Hw by by apply payloads_snoc.
  assert (good_prefix (l ++ [chunk])) as Hgood' by auto. apply gives_yield; [done..|]. intros [x|e].
  - split; [by left|]. split_and!; [done|unfold len; rewrite length_app; cbn; lia|by intros _ [_ ?]%app_nil|done].
  - destruct e as [[]| | | | | |]; first [by apply gives_closed|by apply gives_throw].
Qed.

Lemma chunk_step_gives remaining index s first expected l :
  reading first expected l → gives step_post (chunk_step hard speech t policy remaining index s first expected) l.
Proof.
  intros Hread. pose proof Hread as (Hl & He & _ & Hnone). assert (good_prefix l) as Hgood by auto. unfold chunk_step.
  apply ensures_try; [auto|done| |done]. intros [chunk|e].
  - destruct (_ || _) eqn:Hb; [by apply gives_closing|]. bool_props.
    destruct (sc_final chunk) eqn:Hf; [by eapply last_chunk_gives|by eapply payload_chunk_gives].
  - destruct e; try (by apply gives_closing); try (by apply gives_closed); try (by apply gives_raised).
    apply ensures_after; [auto|done| |done]. intros terminal. destruct (_ && _) eqn:Hb; [|by apply gives_throw].
    bool_props. apply ensures_after; [auto|done| |done]. intros _. apply ensures_after; [auto|done| |done]. intros _.
    split; [done|]. by apply Hnone.
Qed.

Lemma stream_chunks_gives chunks remaining index s first expected l :
  reading first expected l →
  gives (λ r l', match r with Ok true => l' = [] | Ok false => whole_speech t l' | Raise _ => True end)
    (stream_chunks hard chunks speech t policy remaining index s first expected) l.
Proof.
  revert first expected l. induction chunks as [|chunks IH]; intros first expected l Hread; cbn [stream_chunks].
  { split; [left; apply Hread|done]. }
  apply ensures_bind. eapply (ensures_mono good_prefix good_prefix step_post); [done| |by apply chunk_step_gives]. intros [step|e] l'; [|done].
  destruct step; cbn; [apply IH|intros ->; split; [left; apply payloads_nil|done]|intros; split; [by right|done]].
Qed.

Lemma stream_attempts_gives n index chunks made :
  gives (λ r l', match r with Ok _ => whole_speech t l' | Raise _ => True end)
    (stream_attempts catalog hard soft expiry n index chunks t policy speech made) [].
Proof.
  assert (good_prefix []) as Hnil by (left; apply payloads_nil).
  revert index made. induction n as [|n IH]; intros index made; cbn [stream_attempts]; [by apply gives_throw|].
  apply ensures_after; [auto|done| |done]. intros s. cbn zeta. apply ensures_try; [auto|done| |done].
  intros [x|e]; [|destruct e; by first [apply gives_closing|apply gives_raised]].
  apply ensures_bind. eapply (ensures_mono good_prefix good_prefix); [done| |apply (stream_chunks_gives _ _ _ _ false 0)].
  - intros [[]|e] l'; [by intros ->|by split; [right|]|done].
  - split_and!; [apply payloads_nil|done..].
Qed.
End Stream.

(** C22: what a consumer hears.  Whatever the services, the provider and the consumer do, and
    however many attempts are made, the chunks handed on are those of one request, numbered
    from 0 without a gap, each with a payload; only the last may be the empty final chunk, which
    is handed on at most once and never first.  A stream that ends normally ends with it. *)
Theorem stream_numbered {Response} `{BS : BudgetServices} `{CS : CallServices} catalog hard soft expiry chunks t policy
    (speech : Speech (Response := Response)) l q :
  mute_speech speech → delivers (stream catalog hard soft expiry chunks t policy speech) l q →
  (payloads t l ∨ whole_speech t l) ∧ ∀ made, q = Ret made → whole_speech t l.
Proof.
  intros Hspeech Hd.
  assert (ensures (λ l, payloads t l ∨ whole_speech t l)
    (λ r l', match r with Ok _ => whole_speech t l' | Raise _ => True end)
    (stream catalog hard soft expiry chunks t policy speech) []) as Hs.
  { unfold stream, _validate_policy. destruct (_ <? _); [by split; [left; apply payloads_nil|]|].
    by apply stream_attempts_gives. }
  pose proof (ensures_delivers _ _ _ _ _ _ Hs Hd) as Hq. split; [by apply ensures_now in Hq|].
  intros made ->. apply Hq.
Qed.

(** ** A sample: two chunks and the end of the stream *)

#[local] Existing Instance sample_services.
#[local] Existing Instance sample_call_services.

(** One program alone, with what it hands on. *)
Fixpoint heard {Response A} (es : list (Env Response)) (p : prog (call Response) attempt_exn A) (w : World) :
    list SpeechChunk * prog (call Response) attempt_exn A :=
  match es, p with
  | e :: es, Await c k => let '(r, w') := perform_call c e w in let '(l, q) := heard es (k r) w' in (handed_on c ++ l, q)
  | _, _ => ([], p)
  end.
Lemma heard_delivers {Response A} es (p : prog (call Response) attempt_exn A) w : delivers p (heard es p w).1 (heard es p w).2.
Proof.
  revert p w. induction es as [|e es IH]; intros p w; [constructor|]. destruct p as [a|x| |c k]; try constructor.
  cbn. destruct (perform_call c e w) as [r w']. specialize (IH (k r) w'). destruct (heard es (k r) w'). by apply (delivers_call c k r).
Qed.

(** A provider that makes its whole request when it is opened. *)
Definition sample_speech : Speech (Response := unit) :=
  mkSpeech (λ route consumption, _ ← send route consumption (Some 50); Ret tt) (ask NextChunk) (ask CloseStream).

Definition speech_answer (chunk : SpeechChunk) (raises : option attempt_exn) : Env unit :=
  mkEnv unit 500 1 (30, 1000) (Some tt) (mkObservation (Some (LlmUsageUnits 100 50)) "resp-1" exact)
    (mkUsageReceipt 1 1 10 1 30 "openai" "gpt" llm provider_reported_exact (LlmUsageUnits 100 50) sample_commitment 300)
    chunk false None raises.
Definition sample_chunk (sequence : Z) : SpeechChunk := mkChunk 10 sequence [Byte.x01; Byte.x02] false.
Definition final_chunk : SpeechChunk := mkChunk 10 2 [] true.
Definition speech_answers : list (Env unit) :=
  replicate 25 (speech_answer (sample_chunk 0) None) ++ replicate 2 (speech_answer (sample_chunk 1) None) ++
  [speech_answer final_chunk None; speech_answer final_chunk (Some StopAsyncIteration)] ++
  replicate 10 (speech_answer final_chunk None).
Definition sample_heard : list SpeechChunk * prog (call unit) attempt_exn (list (UUID * UUID)) :=
  heard speech_answers (stream sample_catalog 100000 5000 900 5 sample_template sample_policy sample_speech)
    (first_world sample_catalog 100000 5000 900 [OpSetting (RouteKey 30) (Some (OtherValue "{}"))] sample_turns).

Lemma sample_mute : mute_speech sample_speech.
Proof.
  split; [intros route consumption; cbn [sample_speech sp_invoke]|by apply mute_ask..].
  unfold send, _claim, claim_stages, observed, _finish_success, attested, ended, _finish_durably. cbn [finish_attempts].
  mute_steps.
Qed.

Lemma stream_numbered_witness :
  sample_heard.1 = [sample_chunk 0; sample_chunk 1; final_chunk] ∧
  (payloads sample_template sample_heard.1 ∨ whole_speech sample_template sample_heard.1) ∧
  ∀ made, sample_heard.2 = Ret made → whole_speech sample_template sample_heard.1.
Proof.
  split; [vm_compute; reflexivity|].
  exact (stream_numbered sample_catalog 100000 5000 900 5 sample_template sample_policy sample_speech
    sample_heard.1 sample_heard.2 sample_mute (heard_delivers _ _ _)).
Defined.
