(* ===== verification/EdgeRuntime.v ===== *)
(** * EdgeRuntime: who controls the robot, and when the link to the core may open

    [ControllerGuard] of [apps/edge/.../safety/controller_guard.py] asks which processes control
    the robot and makes it safe unless the expected one is alone; [ManagedEdgeRuntime] of
    [apps/edge/.../runtime.py] opens the link only behind its gates and always cleans up.  What
    the event loop does (which tasks can be created, when they end, who is cancelled) is an input
    of a call; a task creation that raises something other than an Exception is left out, and so
    is the set that keeps background tasks alive. *)

From Stdlib Require Import QArith_base.
From S2P Require Import Prelude Turns.
#[local] Open Scope Z_scope.

(** A Python string by its code points. *)
Definition text : Type := list Z.

(** [except ValueError] catches it. *)
Definition is_value_error (e : exn) : bool :=
  match e with
  | ValueError _ | ContractParseError _ | JSONDecodeError | UnicodeDecodeError | UnicodeEncodeError | ValidationError => true
  | _ => false
  end.

(** [tuple(dict.fromkeys(l))]. *)
Definition fromkeys (l : list string) : list string := reverse (remove_dups (reverse l)).

(** ** The guard *)

(** [cg_started] records the tasks that were created. *)
Record ControllerGuard := mkGuard {
  cg_expected : text;
  cg_error_safe_latched : bool;
  cg_last_receipt : SafetyReceipt;
  cg_last_failure_codes : list string;
  cg_last_caller_cancellations : nat;
  cg_task_factory_failure_points : list string;
  cg_process_restart_required : bool;
  cg_started : list string;
}.

Definition make_guard (expected : text) (operation_timeout : Q) : result exn ControllerGuard :=
  _ ← reject_if (bool_decide (expected = [])) (ValueError "controller expected identity invalid");
  _ ← reject_if (Qle_bool operation_timeout 0) (ValueError "controller operation timeout invalid");
  Ok (mkGuard expected false (mkReceipt None false false false) [] 0 [] false []).

Definition latch_error_safe (g : ControllerGuard) : ControllerGuard :=
  mkGuard (cg_expected g) true (cg_last_receipt g) (cg_last_failure_codes g) (cg_last_caller_cancellations g)
    (cg_task_factory_failure_points g) (cg_process_restart_required g) (cg_started g).
Definition require_restart (g : ControllerGuard) : ControllerGuard :=
  mkGuard (cg_expected g) (cg_error_safe_latched g) (cg_last_receipt g) (cg_last_failure_codes g) (cg_last_caller_cancellations g)
    (cg_task_factory_failure_points g) true (cg_started g).
Definition set_receipt (r : SafetyReceipt) (g : ControllerGuard) : ControllerGuard :=
  mkGuard (cg_expected g) (cg_error_safe_latched g) r (cg_last_failure_codes g) (cg_last_caller_cancellations g)
    (cg_task_factory_failure_points g) (cg_process_restart_required g) (cg_started g).
Definition set_failures (codes : list string) (g : ControllerGuard) : ControllerGuard :=
  mkGuard (cg_expected g) (cg_error_safe_latched g) (cg_last_receipt g) codes (cg_last_caller_cancellations g)
    (cg_task_factory_failure_points g) (cg_process_restart_required g) (cg_started g).
Definition set_cancellations (n : nat) (g : ControllerGuard) : ControllerGuard :=
  mkGuard (cg_expected g) (cg_error_safe_latched g) (cg_last_receipt g) (cg_last_failure_codes g) n
    (cg_task_factory_failure_points g) (cg_process_restart_required g) (cg_started g).
Definition failed_at (name : string) (g : ControllerGuard) : ControllerGuard :=
  mkGuard (cg_expected g) (cg_error_safe_latched g) (cg_last_receipt g) (cg_last_failure_codes g) (cg_last_caller_cancellations g)
    (fromkeys (cg_task_factory_failure_points g ++ [name])) (cg_process_restart_required g) (cg_started g).
Definition created (name : string) (g : ControllerGuard) : ControllerGuard :=
  mkGuard (cg_expected g) (cg_error_safe_latched g) (cg_last_receipt g) (cg_last_failure_codes g) (cg_last_caller_cancellations g)
    (cg_task_factory_failure_points g) (cg_process_restart_required g) (cg_started g ++ [name]).

#[local] Abbreviation G := (M ControllerGuard exn).

(** How the creation of a task went: at once, at the second try, or not at all. *)
Inductive creation := Made | MadeAgain | Refused.

Definition guard_spawn (name : string) (out : creation) : G unit :=
  match out with
  | Made => modify (created name)
  | MadeAgain => _ ← modify (failed_at name); modify (created name)
  | Refused => _ ← modify (failed_at name); raise (TaskFactoryUnavailable (name +:+ ":factory_unavailable"))
  end.

Definition _strict_controller_ids (value : option (gset text)) : option (gset text) :=
  match value with
  | None => None
  | Some ids =>
    if between 1 (Z.of_nat (size ids)) 32 &&
       forallb (λ id : text, between 1 (len id) 128 && forallb (λ c, (32 <=? c) && negb (c =? 127)) id) (elements ids)
    then Some ids else None
  end.

(** What an awaited, shielded task that was cancelled brings to the one that waits: the deadline,
    a cancellation of the waiter itself (with its count and whether the task has ended), the end
    of the task, or the exception the task raised. *)
Inductive wake := Expired | Interrupted (cancelling : nat) (task_done : bool) | Ended | Failed (e : exn).

(** [_cancel_and_observe_preserving_cancellation]; the deadline comes when nothing else does. *)
Fixpoint _cancel_and_observe_preserving (wakes : list wake) (observed_cancelling caller_cancellations : nat) :
    result exn (bool * nat) :=
  match wakes with
  | [] | Expired :: _ | Failed (TimeoutError _) :: _ => Ok (false, caller_cancellations)
  | Ended :: _ => Ok (true, caller_cancellations)
  | Failed e :: _ => Raise e
  | Interrupted current task_done :: wakes =>
    let caller_cancellations := (caller_cancellations + (current - observed_cancelling))%nat in
    if task_done then Ok (true, caller_cancellations)
    else _cancel_and_observe_preserving wakes (current `max` observed_cancelling)%nat caller_cancellations
  end.

(** How the inventory task ends: with a result in time, or the time or the caller's patience ends. *)
Inductive inventory :=
| Answered (answer : result exn (option (gset text)))
| Late (wakes : list wake)
| CallerCancelled (wakes : list wake).
(** How a safety operation ends; [OpLate]: not in time, and whether its cancellation was observed. *)
Inductive operation_end := OpDone | OpRaised (e : exn) | OpLate (observed : bool).

Record poll_env := mkPoll {
  pe_create : string → creation;
  pe_inventory : inventory;
  pe_operation : string → operation_end;
  pe_cancelling : nat → nat;
  pe_shield_cancellations : nat;
}.

Definition invalid_inventory : string := "controller_inventory:invalid".

(** The first part of [poll]: the failure code, the controllers, the caller's cancellations. *)
Definition read_inventory (e : poll_env) : G (option string * gset text * nat) := λ g,
  let observe wakes := _cancel_and_observe_preserving wakes (pe_cancelling e 1) 0 in
  let settle code observed (cancellations : nat) g :=
    (Ok (Some code, ∅, cancellations), if (observed : bool) then g else require_restart g) in
  match guard_spawn "controller-inventory" (pe_create e "controller-inventory") g with
  | (Raise _, g) => (Ok (Some "controller_inventory:factory_unavailable"%string, ∅, 0%nat), require_restart g)
  | (Ok _, g) =>
    match pe_inventory e with
    | Answered (Ok value) =>
      match _strict_controller_ids value with
      | Some active => (Ok (None, active, 0%nat), g)
      | None => (Ok (Some invalid_inventory, ∅, 0%nat), g)
      end
    | Answered (Raise x) =>
      (Ok (Some (if is_value_error x then invalid_inventory else "controller_inventory:" +:+ exn_name x), ∅, 0%nat), g)
    | Late wakes =>
      match observe wakes with
      | Raise x => (Raise x, g)
      | Ok (observed, O) => settle "controller_inventory:timeout"%string observed 0%nat g
      | Ok (observed, extra) => settle "controller_inventory:timeout"%string observed (extra `max` pe_cancelling e 2)%nat g
      end
    | CallerCancelled wakes =>
      match observe wakes with
      | Raise x => (Raise x, g)
      | Ok (observed, extra) =>
        settle "controller_inventory:caller_cancelled"%string observed (((1 `max` pe_cancelling e 0) + extra) `max` pe_cancelling e 2)%nat g
      end
    end
  end.

Definition safety_operations : list string := ["close_media"; "stop_playback"; "stop_motion"; "error_safe"].

(** The tasks of the operations that could be created, and the codes of the others. *)
Fixpoint spawn_operations (create : string → creation) (names : list string) (g : ControllerGuard) :
    list string * list string * ControllerGuard :=
  match names with
  | [] => ([], [], g)
  | name :: names =>
    match guard_spawn name (create name) g with
    | (Ok _, g) =>
      let '(operations, failures, g) := spawn_operations create names g in (name :: operations, failures, g)
    | (Raise _, g) =>
      let '(operations, failures, g) := spawn_operations create names (require_restart g) in
      (operations, (name +:+ ":factory_unavailable") :: failures, g)
    end
  end.

Definition operation_failure (ends : string → operation_end) (name : string) : option string :=
  match ends name with
  | OpDone => None
  | OpRaised x => Some (name +:+ ":" +:+ exn_name x)
  | OpLate _ => Some (name +:+ ":timeout")
  end.

Definition _close_all_error_safe (create : string → creation) (ends : string → operation_end) (g : ControllerGuard) : ControllerGuard :=
  let '(operations, failures, g) := spawn_operations create safety_operations (latch_error_safe g) in
  let ok name := bool_decide (name ∈ operations) && match ends name with OpDone => true | _ => false end in
  let stuck name := match ends name with OpLate false => true | _ => false end in
  let g := if existsb stuck operations then require_restart g else g in
  set_failures (failures ++ omap (operation_failure ends) operations)
    (set_receipt (mkReceipt None (ok "stop_playback" && ok "error_safe") (ok "stop_motion" && ok "error_safe")
                    (ok "close_media" && ok "error_safe"))%string g).

(** The cancellations of the caller while it waits for the barrier. *)
Fixpoint shielded (e : poll_env) (n k cancellations : nat) : nat :=
  match n with
  | O => cancellations
  | S n => shielded e n (S k) ((cancellations + 1) `max` pe_cancelling e k)%nat
  end.

Definition poll (e : poll_env) : G bool := λ g,
  if cg_process_restart_required g then
    (Ok false, latch_error_safe (set_failures (fromkeys (cg_last_failure_codes g ++ ["controller_process_restart_required"%string])) g))
  else
    match read_inventory e g with
    | (Raise x, g) => (Raise x, g)
    | (Ok (failure, active, cancellations), g) =>
      if bool_decide (active = {[cg_expected g]}) then (Ok true, g)
      else
        let verdict n g : result exn bool * ControllerGuard :=
          (if bool_decide (n = O) then Ok false else Raise CancelledError, set_cancellations n g) in
        match guard_spawn "competing-controller-safety" (pe_create e "competing-controller-safety") (latch_error_safe g) with
        | (Raise _, g) =>
          verdict cancellations (set_failures (option_list failure ++ ["competing_controller_safety:factory_unavailable"%string])
            (require_restart g))
        | (Ok _, g) =>
          let g := _close_all_error_safe (pe_create e) (pe_operation e) g in
          verdict (shielded e (pe_shield_cancellations e) 3 cancellations) (set_failures (option_list failure ++ cg_last_failure_codes g) g)
        end
    end.

(** ** The managed runtime *)

(** What the runtime did, in order. *)
Inductive edge_call := CallGate (name : string) | CallPoll | CallStartupSafety | CallWss | CallCleanup.
#[export] Instance edge_call_eq_dec : EqDecision edge_call.
Proof. solve_decision. Defined.

(** [ed_latched] records the calls of [latch_disconnect_degraded]. *)
Record edge := mkEdge {
  ed_guard : ControllerGuard;
  ed_calls : list edge_call;
  ed_latched : list (list string * bool);
}.
Definition did (c : edge_call) (s : edge) : edge := mkEdge (ed_guard s) (ed_calls s ++ [c]) (ed_latched s).
Definition latch_disconnect_degraded (codes : list string) (restart_required : bool) (s : edge) : edge :=
  mkEdge (ed_guard s) (ed_calls s) (ed_latched s ++ [(codes, restart_required)]).

#[local] Abbreviation R := (M edge exn).

(** How the wait for the cleanup task goes on: a time-out of the wait, a cancellation of the
    runtime (with the count of them); then the task has ended or the deadline is over.  Past the
    deadline the task is cancelled and observed, and that wait may be cancelled too. *)
Inductive cleanup_wake := WaitTimedOut | WaitCancelled (cancelling : nat).

(** What the services answer; a safety receipt that is [None] is another object. *)
Record run_env := mkRun {
  rn_gate : string → result exn unit;
  rn_poll : poll_env;
  rn_startup : result exn (option SafetyReceipt);
  rn_startup_restart : bool;
  rn_wss : result exn unit;
  rn_cleanup_create : creation;
  rn_cleanup_wakes : list cleanup_wake;
  rn_cleanup_end : option (result exn (option SafetyReceipt));
  rn_cleanup_restart : bool;
  rn_abandon_cancelled : bool;
}.

Definition gates : list string := ["active_release_gate"; "firewall_baseline"; "boot_gate"; "commissioning_gate"; "secure_time_gate"].

Fixpoint call_gates (e : run_env) (names : list string) : R unit :=
  match names with
  | [] => mret tt
  | name :: names => _ ← modify (did (CallGate name)); _ ← lift (rn_gate e name); call_gates e names
  end.

Definition _safety_receipt_failure_code (receipt : option SafetyReceipt) (prefix : string) : option string :=
  match receipt with
  | None => Some (prefix +:+ "_contract_mismatch")
  | Some r => if playback_stopped r && motion_stopped r && buffers_cleared r then None else Some (prefix +:+ "_incomplete")
  end.

Definition _controller_failure_code (g : ControllerGuard) (controller_ready : bool) : option string :=
  if cg_process_restart_required g then Some "managed_edge_controller_restart_required"%string
  else if cg_error_safe_latched g then Some "managed_edge_controller_error_safe"%string
  else if negb controller_ready then Some "competing_controller_fail_safe"%string
  else None.

Definition run_poll (e : poll_env) : R bool := λ s,
  let '(r, g) := poll e (ed_guard s) in (r, mkEdge g (ed_calls s ++ [CallPoll]) (ed_latched s)).

(** The body of the [try]. *)
Definition run_guarded (e : run_env) : R unit :=
  _ ← call_gates e gates;
  controller_ready ← run_poll (rn_poll e);
  g ← gets ed_guard;
  match _controller_failure_code g controller_ready with
  | Some code => _ ← modify (latch_disconnect_degraded [code] true); raise (PermissionError code)
  | None =>
    _ ← modify (did CallStartupSafety);
    receipt ← lift (rn_startup e);
    let failure := match _safety_receipt_failure_code receipt "managed_edge_startup_safety" with
                   | None => if rn_startup_restart e then Some "managed_edge_startup_safety_restart_required"%string else None
                   | code => code
                   end in
    match failure with
    | Some code => _ ← modify (latch_disconnect_degraded [code] (rn_startup_restart e)); raise (PermissionError code)
    | None => _ ← modify (did CallWss); lift (rn_wss e)
    end
  end.

Definition count_cleanup (wakes : list cleanup_wake) : nat :=
  foldl (λ n w, match w with WaitTimedOut => n | WaitCancelled cancelling => (n + 1) `max` cancelling end)%nat 0%nat wakes.

Definition _complete_cleanup_barrier (e : run_env) : R nat :=
  match rn_cleanup_create e with
  | Refused => raise (TaskFactoryUnavailable "managed-edge-cleanup:factory_unavailable")
  | _ =>
    _ ← modify (did CallCleanup);
    match rn_cleanup_end e with
    | None => (* [_cancel_and_observe], where the runtime itself may be cancelled *)
      raise (if rn_abandon_cancelled e then CancelledError else TimeoutError "managed_edge_cleanup_timeout")
    | Some ended =>
      receipt ← lift ended;
      let failure := match _safety_receipt_failure_code receipt "managed_edge_cleanup_safety" with
                     | None => if rn_cleanup_restart e then Some "managed_edge_cleanup_restart_required"%string else None
                     | code => code
                     end in
      match failure with
      | Some code => _ ← modify (latch_disconnect_degraded [code] true); raise (RuntimeError code)
      | None => mret (count_cleanup (rn_cleanup_wakes e))
      end
    end
  end.

(** [ManagedEdgeRuntime.run]. *)
Definition run (e : run_env) : R unit := λ s,
  let '(primary, s) := run_guarded e s in
  let '(cleanup, s) := _complete_cleanup_barrier e s in
  let s := match cleanup with
           | Ok _ => s
           | Raise x => latch_disconnect_degraded ["managed_edge_cleanup:" +:+ exn_name x] true s
           end in
  let s := latch_disconnect_degraded ["managed_edge_runtime_exited"%string] false s in
  let cancelled := match cleanup with Ok n => negb (bool_decide (n = O)) | Raise _ => false end in
  (match primary with
   | Raise CancelledError => Raise CancelledError
   | Raise x => if cancelled then Raise CancelledError else Raise x
   | Ok _ => if cancelled then Raise CancelledError
             else match cleanup with Ok _ => Ok tt | Raise _ => Raise (RuntimeError "managed_edge_cleanup_failed") end
   end, s).

(** ** A polled guard *)

(** The receipt claims a stop only for operations that ran and returned. *)
Definition honest (e : poll_env) (r : SafetyReceipt) : Prop :=
  let ran name := pe_create e name ≠ Refused ∧ pe_operation e name = OpDone in
  (playback_stopped r = true → ran "stop_playback" ∧ ran "error_safe")%string ∧
  (motion_stopped r = true → ran "stop_motion" ∧ ran "error_safe")%string ∧
  (buffers_cleared r = true → ran "close_media" ∧ ran "error_safe")%string.

(** An exception the cancelled inventory task raised reached the guard. *)
Definition escaping (e : poll_env) (x : exn) : Prop :=
  ∃ wakes, (pe_inventory e = Late wakes ∨ pe_inventory e = CallerCancelled wakes) ∧ Failed x ∈ wakes.

Lemma observe_failed wakes observed n x : _cancel_and_observe_preserving wakes observed n = Raise x → Failed x ∈ wakes.
Proof.
  revert observed n. induction wakes as [|w wakes IH]; intros observed n; cbn; [done|].
  destruct w as [|current [|]| |y]; cbn; try done.
  - intros H%IH. by right.
  - destruct y; try done; intros [= <-]; by left.
Qed.

(** Creating a task changes what is known of tasks alone. *)
Definition same_but_tasks (g g' : ControllerGuard) : Prop :=
  cg_expected g' = cg_expected g ∧ cg_error_safe_latched g' = cg_error_safe_latched g ∧ cg_last_receipt g' = cg_last_receipt g.
Lemma guard_spawn_run name out g :
  match guard_spawn name out g with
  | (Ok _, g') => out ≠ Refused ∧ same_but_tasks g g' ∧ cg_process_restart_required g' = cg_process_restart_required g ∧
                  cg_started g' = cg_started g ++ [name]
  | (Raise _, g') => out = Refused ∧ same_but_tasks g g' ∧ cg_process_restart_required g' = cg_process_restart_required g ∧
                     cg_started g' = cg_started g
  end.
Proof. by destruct out. Qed.

Lemma spawn_operations_run create names g :
  let '(operations, _, g') := spawn_operations create names g in
  same_but_tasks g g' ∧ (∀ name, name ∈ operations → create name ≠ Refused) ∧
  (cg_process_restart_required g = true → cg_process_restart_required g' = true) ∧
  (cg_process_restart_required g' = true ∨ cg_started g' = cg_started g ++ names).
Proof.
  revert g. induction names as [|name names IH]; intros g; cbn.
  - split_and!; [done|set_solver|done|by rewrite app_nil_r; right].
  - pose proof (guard_spawn_run name (create name) g) as Hs. destruct (guard_spawn name (create name) g) as [[[]|x] g1].
    + destruct Hs as (Hout & (He & Hl & Hr) & Hq & Hst). specialize (IH g1).
      destruct (spawn_operations create names g1) as [[ops fs] g2]. destruct IH as ((He2 & Hl2 & Hr2) & Hops & Hq2 & Hst2).
      split_and!; [split_and!; congruence| |intros; apply Hq2; congruence|].
      * intros n [->|Hin]%elem_of_cons; [done|by apply Hops].
      * destruct Hst2 as [?|Hst2]; [by left|right]. by rewrite Hst2, Hst, <- app_assoc.
    + destruct Hs as (Hout & (He & Hl & Hr) & Hq & Hst). specialize (IH (require_restart g1)).
      destruct (spawn_operations create names (require_restart g1)) as [[ops fs] g2]. destruct IH as ((He2 & Hl2 & Hr2) & Hops & Hq2 & _).
      split_and!; [split_and!; cbn in *; congruence|done|intros; by apply Hq2|left; by apply Hq2].
Qed.

Lemma close_all_run create ends g e :
  pe_create e = create → pe_operation e = ends →
  let g' := _close_all_error_safe create ends g in
  cg_error_safe_latched g' = true ∧ honest e (cg_last_receipt g') ∧
  (cg_process_restart_required g = true → cg_process_restart_required g' = true) ∧
  (cg_process_restart_required g' = true ∨ cg_started g' = cg_started g ++ safety_operations).
Proof.
  intros <- <-. unfold _close_all_error_safe. pose proof (spawn_operations_run (pe_create e) safety_operations (latch_error_safe g)) as Hs.
  destruct (spawn_operations _ _ _) as [[ops fs] g1]. destruct Hs as ((_ & Hl & _) & Hops & Hq & Hst). cbn -[safety_operations] in *.
  assert (∀ name, bool_decide (name ∈ ops) && match pe_operation e name with OpDone => true | _ => false end = true →
            pe_create e name ≠ Refused ∧ pe_operation e name = OpDone) as Hran.
  { intros name [Hin Hend]%andb_true_iff. apply bool_decide_eq_true in Hin. split; [by apply Hops|by destruct (pe_operation e name)]. }
  destruct (existsb _ ops); cbn -[safety_operations]; (split_and!; [done| |tauto|tauto]); unfold honest; cbn;
    (split_and!; intros [H1 H2]%andb_true_iff; split; by apply Hran).
Qed.

Lemma strict_singleton value ids : _strict_controller_ids value = Some ids → value = Some ids.
Proof. unfold _strict_controller_ids. destruct value as [v|]; [|done]. by destruct (_ && _); intros [= <-]. Qed.

(** The inventory in itself. *)
Lemma read_inventory_run e g :
  match read_inventory e g with
  | (Ok (failure, active, n), g') =>
    same_but_tasks g g' ∧ (cg_process_restart_required g' = true ∨ cg_process_restart_required g' = cg_process_restart_required g ∧
      cg_started g' = cg_started g ++ ["controller-inventory"%string]) ∧
    (active = ∅ ∨ pe_create e "controller-inventory" ≠ Refused ∧ pe_inventory e = Answered (Ok (Some active)) ∧
       _strict_controller_ids (Some active) = Some active ∧ failure = None ∧ n = O ∧ cg_process_restart_required g' = cg_process_restart_required g)
  | (Raise x, g') => same_but_tasks g g' ∧ escaping e x
  end.
Proof.
  unfold read_inventory. pose proof (guard_spawn_run "controller-inventory" (pe_create e "controller-inventory") g) as Hs.
  destruct (guard_spawn _ _ g) as [[[]|x] g1]; destruct Hs as (Hout & Hsame & Hq & Hst); [|by split_and!; auto].
  destruct (pe_inventory e) as [[value|x]|wakes|wakes] eqn:Hi.
  - destruct (_strict_controller_ids value) as [active|] eqn:Hv; [|by split_and!; auto].
    pose proof (strict_singleton _ _ Hv) as ->. split_and!; auto 10.
  - split_and!; auto.
  - destruct (_cancel_and_observe_preserving _ _ _) as [[[] [|n]]|x] eqn:Ho; cbn; [by split_and!; auto..|].
    split; [done|]. exists wakes. split; [by left|by eapply observe_failed].
  - destruct (_cancel_and_observe_preserving _ _ _) as [[[] n]|x] eqn:Ho; cbn; [by split_and!; auto..|].
    split; [done|]. exists wakes. split; [by right|by eapply observe_failed].
Qed.

(** The robot was made safe: the refusal is latched, the four safety operations were started or a
    restart is required, and the receipt is honest or none was made. *)
Definition made_safe (e : poll_env) (g g' : ControllerGuard) : Prop :=
  cg_error_safe_latched g' = true ∧
  (cg_process_restart_required g' = true ∨
   cg_started g' = cg_started g ++ ["controller-inventory"; "competing-controller-safety"]%string ++ safety_operations) ∧
  (honest e (cg_last_receipt g') ∨ cg_process_restart_required g' = true ∧ cg_last_receipt g' = cg_last_receipt g).

(** The expected controller, and nothing else, was reported in time. *)
Definition alone (e : poll_env) (g : ControllerGuard) : Prop :=
  cg_process_restart_required g = false ∧ pe_create e "controller-inventory" ≠ Refused ∧
  pe_inventory e = Answered (Ok (Some {[cg_expected g]})) ∧
  _strict_controller_ids (Some {[cg_expected g]}) = Some {[cg_expected g]}.

Lemma poll_alone e g : alone e g → (poll e g).1 = Ok true ∧ same_but_tasks g (poll e g).2 ∧
  cg_process_restart_required (poll e g).2 = false.
Proof.
  intros (Hq & Hc & Hi & Hv). unfold poll, read_inventory. rewrite Hq. cbn -[_strict_controller_ids].
  pose proof (guard_spawn_run "controller-inventory" (pe_create e "controller-inventory") g) as Hs.
  destruct (guard_spawn _ _ g) as [[[]|x] g1]; destruct Hs as (Hout & Hsame & Hq1 & Hst); [|done].
  rewrite Hi, Hv. destruct Hsame as (He & Hl & Hr). rewrite He, bool_decide_true by done. cbn. split_and!; [done| |congruence]. done.
Qed.

Lemma poll_not_alone e g : ¬ alone e g →
  (poll e g).1 ≠ Ok true ∧
  (made_safe e g (poll e g).2 ∨ ∃ x, (poll e g).1 = Raise x ∧ escaping e x ∧ same_but_tasks g (poll e g).2).
Proof.
  intros Hno. unfold poll. destruct (cg_process_restart_required g) eqn:Hq; [by split; [|left; unfold made_safe; cbn; rewrite Hq; auto]|].
  pose proof (read_inventory_run e g) as Hr. destruct (read_inventory e g) as [[[[failure active] n]|x] g1];
    [|destruct Hr as [Hsame Hx]; split; [done|right; by exists x]].
  destruct Hr as ((He & Hl & Hrec) & Hst & Hact).
  rewrite bool_decide_false by (rewrite He; intros ->; destruct Hact as [Hemp|(Hc & Hi & Hv & _)]; [set_solver|by destruct Hno]).
  cbn zeta. pose proof (guard_spawn_run "competing-controller-safety" (pe_create e "competing-controller-safety") (latch_error_safe g1)) as Hs.
  destruct (guard_spawn _ _ (latch_error_safe g1)) as [[[]|x] g2]; destruct Hs as (Hout & (He2 & Hl2 & Hr2) & Hq2 & Hst2); cbn in Hl2, Hr2, Hq2, Hst2.
  - pose proof (close_all_run (pe_create e) (pe_operation e) g2 e eq_refl eq_refl) as (Hlat & Hhon & Hmon & Hops).
    split; [by case_bool_decide|left]. unfold made_safe. cbn -[safety_operations]. split_and!; [done| |by left].
    destruct Hops as [?|Hops]; [by left|]. destruct Hst as [Hrq|[_ Hst]]; [left; apply Hmon; congruence|right].
    rewrite Hops, Hst2, Hst. by rewrite <- !app_assoc.
  - split; [by case_bool_decide|left]. unfold made_safe. cbn. split_and!; [done|by left|]. right. split; [done|congruence].
Qed.

#[export] Instance alone_dec e g : Decision (alone e g).
Proof.
  destruct (cg_process_restart_required g) eqn:Hq; [right; intros (H & _); congruence|].
  destruct (pe_create e "controller-inventory") eqn:Hc; [| |right; intros (_ & H & _); by rewrite Hc in H].
  all: destruct (pe_inventory e) as [[[ids|]|]| |] eqn:Hi; try (right; intros (_ & _ & H & _); congruence).
  all: destruct (decide (ids = {[cg_expected g]})) as [->|Hne]; [|right; intros (_ & _ & H & _); congruence].
  all: destruct (decide (_strict_controller_ids (Some {[cg_expected g]}) = Some {[cg_expected g]})) as [Hv|Hv];
    [left; unfold alone; rewrite Hc; split_and!; done|right; intros (_ & _ & _ & H); by apply Hv].
Defined.

(** C18: The controller guard says yes exactly when the expected controller alone was reported in
    time and no restart is required, and then latches nothing.  In every other case it latches the
    error-safe state, starts all four safety operations or requires a restart for good, and its
    receipt claims a stop only for operations that returned - except when the inventory, cancelled
    for being late, raises: that exception leaves [poll], and nothing was latched or stopped. *)
Theorem controller_poll_safe e g :
  let '(r, g') := poll e g in
  (r = Ok true ↔ alone e g) ∧
  (r = Ok true → same_but_tasks g g' ∧ cg_process_restart_required g' = false) ∧
  (r ≠ Ok true → made_safe e g g' ∨ ∃ x, r = Raise x ∧ escaping e x ∧ same_but_tasks g g') ∧
  (cg_process_restart_required g = true → r = Ok false ∧ cg_process_restart_required g' = true).
Proof.
  pose proof (poll_alone e g) as Hyes. pose proof (poll_not_alone e g) as Hno.
  assert (cg_process_restart_required g = true → (poll e g).1 = Ok false ∧ cg_process_restart_required (poll e g).2 = true) as Hre
    by (intros Hq; unfold poll; rewrite Hq; done).
  destruct (poll e g) as [r g']. cbn in *. destruct (decide (alone e g)) as [Ha|Ha].
  - destruct (Hyes Ha) as (-> & Hsame & Hq). split_and!; try done. 
  - destruct (Hno Ha) as [Hr Hsafe]. split_and!; try done.
Qed.

(** The exception is real: an inventory that is late and answers its cancellation with an error. *)
Example late_inventory_escapes :
  let g := mkGuard [114] false (mkReceipt None false false false) [] 0 [] false [] in
  let e := mkPoll (λ _, Made) (Late [Failed OSError]) (λ _, OpDone) (λ _, 0%nat) 0 in
  (poll e g).1 = Raise OSError ∧ cg_error_safe_latched (poll e g).2 = false ∧ cg_started (poll e g).2 = ["controller-inventory"%string].
Proof. done. Qed.

(** ** A run of the runtime *)

Definition all_stopped (r : SafetyReceipt) : Prop := playback_stopped r = true ∧ motion_stopped r = true ∧ buffers_cleared r = true.
Lemma no_receipt_failure receipt prefix : _safety_receipt_failure_code receipt prefix = None → ∃ r, receipt = Some r ∧ all_stopped r.
Proof.
  unfold _safety_receipt_failure_code. destruct receipt as [r|]; [|done]. destruct (_ && _ && _) eqn:Hr; [|done]. intros _.
  bool_props. by exists r.
Qed.

Lemma call_gates_run e names s :
  wp (call_gates e names) (λ _ s', (∀ name, name ∈ names → rn_gate e name = Ok tt) ∧
      ed_guard s' = ed_guard s ∧ ed_calls s' = ed_calls s ++ map CallGate names)
    (λ _ s', ∃ done, ed_calls s' = ed_calls s ++ map CallGate done) s.
Proof.
  revert s. induction names as [|name names IH]; intros s; cbn [call_gates].
  - apply wp_ret. split_and!; [set_solver|done|by rewrite app_nil_r].
  - apply wp_bind, wp_modify, wp_bind, wp_lift; [intros [] Hg|intros x _; by exists [name]].
    eapply wp_mono; [apply IH| |].
    + intros _ s' (Hall & Hgu & Hc). cbn in *. split_and!; [|done|by rewrite Hc, <- app_assoc].
      intros n [->|Hin]%elem_of_cons; auto.
    + intros _ s' [done Hc]. exists (name :: done). cbn in *. by rewrite Hc, <- app_assoc.
Qed.

(** What the link was opened behind. *)
Definition cleared (e : run_env) (g : ControllerGuard) : Prop :=
  (∀ name, name ∈ gates → rn_gate e name = Ok tt) ∧ alone (rn_poll e) g ∧ cg_error_safe_latched g = false ∧
  ∃ r, rn_startup e = Ok (Some r) ∧ all_stopped r ∧ rn_startup_restart e = false.

Lemma run_guarded_run e g :
  let s := mkEdge g [] [] in
  let opened s' := cleared e g ∧ ed_calls s' = map CallGate gates ++ [CallPoll; CallStartupSafety; CallWss] in
  wp (run_guarded e) (λ _ s', opened s' ∧ rn_wss e = Ok tt) (λ _ s', CallWss ∈ ed_calls s' → opened s') s.
Proof.
  intros s opened. unfold run_guarded. apply wp_bind. eapply wp_mono; [apply (call_gates_run e gates s)| |].
  2:{ intros _ s' [done Hc] Hin. rewrite Hc in Hin. cbn in Hin. by apply list_elem_of_fmap in Hin as (? & ? & _). }
  intros _ s1 (Hgates & Hgu & Hc1). apply wp_bind. unfold wp at 1, run_poll. rewrite Hgu. change (ed_guard s) with g.
  pose proof (poll_alone (rn_poll e) g) as Hyes. pose proof (poll_not_alone (rn_poll e) g) as Hno.
  assert (CallWss ∉ ed_calls s1 ++ [CallPoll]) as Hnot1 by (rewrite Hc1; cbn; set_solver).
  destruct (poll (rn_poll e) g) as [[ready|x] g2]; [|by cbn; intros ?%Hnot1]. cbn in Hyes, Hno. cbn beta iota.
  apply wp_bind, wp_gets. cbn [ed_guard]. unfold _controller_failure_code.
  destruct (cg_process_restart_required g2); [wp_steps; by cbn; intros ?%Hnot1|]. destruct (cg_error_safe_latched g2) eqn:Hl; [wp_steps; by cbn; intros ?%Hnot1|].
  destruct ready; cbn [negb]; cbv iota; [|wp_steps; by cbn; intros ?%Hnot1]. destruct (decide (alone (rn_poll e) g)) as [Ha|Ha]; [|by destruct (Hno Ha)].
  destruct (Hyes Ha) as (_ & (_ & Hlat & _) & _). rewrite Hl in Hlat.
  apply wp_bind, wp_modify, wp_bind, wp_lift; [intros receipt Hst|intros x _; cbn; rewrite Hc1; cbn; set_solver].
  destruct (_safety_receipt_failure_code receipt _) eqn:Hf; [wp_steps; cbn; rewrite Hc1; cbn; set_solver|].
  destruct (rn_startup_restart e) eqn:Hre; [wp_steps; cbn; rewrite Hc1; cbn; set_solver|].
  apply no_receipt_failure in Hf as (r & -> & Hr). apply wp_bind, wp_modify.
  assert (opened (did CallWss (did CallStartupSafety (mkEdge g2 (ed_calls s1 ++ [CallPoll]) (ed_latched s1))))) as Hop.
  { split; [|cbn; by rewrite Hc1]. split_and!; [done|done|done|]. by exists r. }
  apply wp_lift; [by intros []|done].
Qed.

Lemma cleanup_run e s :
  wp (_complete_cleanup_barrier e)
    (λ n s', n = count_cleanup (rn_cleanup_wakes e) ∧ rn_cleanup_restart e = false ∧
       (∃ r, rn_cleanup_end e = Some (Ok (Some r)) ∧ all_stopped r) ∧ ed_guard s' = ed_guard s ∧ ed_calls s' = ed_calls s ++ [CallCleanup])
    (λ _ s', ed_guard s' = ed_guard s ∧ ed_calls s' = ed_calls s ++ (if rn_cleanup_create e is Refused then [] else [CallCleanup])) s.
Proof.
  unfold _complete_cleanup_barrier. destruct (rn_cleanup_create e); [| |by apply wp_raise; rewrite app_nil_r].
  all: apply wp_bind, wp_modify; destruct (rn_cleanup_end e) as [ended|]; [|by apply wp_raise].
  all: apply wp_bind, wp_lift; [intros receipt ->|done].
  all: destruct (_safety_receipt_failure_code receipt _) eqn:Hf; [by wp_steps|].
  all: apply no_receipt_failure in Hf as (r & -> & Hr); destruct (rn_cleanup_restart e); [by wp_steps|].
  all: apply wp_ret; split_and!; [done|done|by exists r|done|done].
Qed.

(** C11: The link to the core opens only after the five gates passed in their order, the controller
    guard found the expected controller alone with nothing latched, and the startup stop of
    playback, motion and media was confirmed in full.  However the run ends, the last thing it does
    is to start the cleanup, unless no task can be created, and it reports its exit last; and it
    returns only when the link ended normally and the cleanup was confirmed and not cancelled. *)
Theorem edge_link_guarded e g :
  let '(r, s) := run e (mkEdge g [] []) in
  (CallWss ∈ ed_calls s → cleared e g ∧
     (map CallGate gates ++ [CallPoll; CallStartupSafety; CallWss]) `prefix_of` ed_calls s) ∧
  (rn_cleanup_create e ≠ Refused → last (ed_calls s) = Some CallCleanup) ∧
  last (ed_latched s) = Some (["managed_edge_runtime_exited"%string], false) ∧
  (r = Ok tt → CallWss ∈ ed_calls s ∧ rn_wss e = Ok tt ∧ rn_cleanup_restart e = false ∧
     (∃ c, rn_cleanup_end e = Some (Ok (Some c)) ∧ all_stopped c) ∧ count_cleanup (rn_cleanup_wakes e) = O).
Proof.
  unfold run. pose proof (run_guarded_run e g) as Hg. unfold wp at 1 in Hg. cbn zeta in Hg. cbn -[run_guarded _complete_cleanup_barrier].
  destruct (run_guarded e (mkEdge g [] [])) as [primary s1]. pose proof (cleanup_run e s1) as Hc. unfold wp at 1 in Hc.
  destruct (_complete_cleanup_barrier e s1) as [cleanup s2].
  set (opened := cleared e g ∧ ed_calls s1 = map CallGate gates ++ [CallPoll; CallStartupSafety; CallWss]) in Hg.
  assert (CallWss ∈ ed_calls s1 → opened) as Hop by (destruct primary; [intros _; apply Hg|done]).
  assert (∃ more, ed_calls s2 = ed_calls s1 ++ more ∧ (CallWss ∉ more) ∧ (rn_cleanup_create e ≠ Refused → more = [CallCleanup])) as (more & Hcalls & Hmore & Hlast).
  { destruct cleanup; [destruct Hc as (_ & _ & _ & _ & Hc)|destruct Hc as (_ & Hc)]; eexists; (split_and!; [exact Hc| |]);
      [set_solver|done|by destruct (rn_cleanup_create e); set_solver|by destruct (rn_cleanup_create e)]. }
  assert (∀ s3, ed_calls s3 = ed_calls s2 → (CallWss ∈ ed_calls s3 → cleared e g ∧
     (map CallGate gates ++ [CallPoll; CallStartupSafety; CallWss]) `prefix_of` ed_calls s3) ∧
     (rn_cleanup_create e ≠ Refused → last (ed_calls s3) = Some CallCleanup)) as Hall.
  { intros s3 ->. rewrite Hcalls. split; [|intros ->%Hlast; by rewrite last_snoc].
    intros [Hin|Hin]%elem_of_app; [|done]. destruct (Hop Hin) as [Hcl Heq]. split; [done|]. rewrite Heq. by eexists. }
  split_and!; [apply Hall; by destruct cleanup|apply Hall; by destruct cleanup|by cbn; rewrite last_snoc|].
  intros Hr. destruct primary as [[]|x]; [|by destruct x, cleanup as [[]|]]. destruct cleanup as [n|x]; [|done].
  destruct Hc as (-> & Hre & Hend & _). destruct (decide (count_cleanup (rn_cleanup_wakes e) = O)) as [Hz|Hz]; [|by rewrite bool_decide_false in Hr].
  split_and!; [|apply Hg|done|done|done]. cbn. rewrite Hcalls. destruct Hg as [[_ Heq] _]. rewrite Heq. set_solver.
Qed.
