(* ===== verification/Identity.v ===== *)
(** * Identity: the household's subjects and what they allow, as stored

    The rows of migrations 0002 and 0003 the identity services share, with their
    state in one record, and the binding of an authenticated action to its parameters
    ([services/actions/parameter_binding.py], [domain/profile.py]).  The state also holds the
    budget's tables, whose settings keep the route authorizations that depend on consent, and
    the revocation queue.  Time stamps are microseconds, which order as the stored texts do.
    [created_at] and [updated_at] of a subject, encrypted templates and audit drafts are left
    out. *)

From S2P Require Import Prelude PttFraming BudgetPricing BudgetLedger BudgetGuard Outbox.

(** ** Rows *)

Inductive ProfileClass := owner | adult | k2 | n1 | guest.
#[export] Instance ProfileClass_eq_dec : EqDecision ProfileClass.
Proof. solve_decision. Defined.
Definition is_child (c : ProfileClass) : bool := match c with k2 | n1 => true | _ => false end.

Inductive ConsentPurpose :=
| FACE | VOICE | PERSONALIZATION | CLOUD_STT | CLOUD_REASONING | CLOUD_TTS | WEB_SEARCH | CHILD_DURABLE_MEMORY.
#[export] Instance ConsentPurpose_eq_dec : EqDecision ConsentPurpose.
Proof. solve_decision. Defined.

(** The purpose of a cloud route as a consent purpose. *)
Definition consent_purpose (p : Purpose) : ConsentPurpose :=
  match p with cloud_stt => CLOUD_STT | cloud_reasoning => CLOUD_REASONING | cloud_tts => CLOUD_TTS end.

Record Profile := mkProfile {
  pf_household_id : UUID;
  pf_guardian_id : option UUID;
  pf_guardian_generation : Z;
  pf_profile_class : ProfileClass;
  pf_encrypted_display_label : list byte;
  pf_encrypted_persona_traits : option (list byte);
  pf_current_consent_receipt_ids : list UUID;
  pf_active : bool;
  pf_authority_generation : Z;
  pf_version : Z;
  pf_next_reenrollment_reminder_at : option Z;
  pf_revoked_at : option Z;
}.

Record ConsentReceipt := mkConsent {
  cr_household_id : UUID;
  cr_subject_id : UUID;
  cr_actor_id : UUID;
  cr_guardian_id : option UUID;
  cr_guardian_generation : option Z;
  cr_purpose : ConsentPurpose;
  cr_granted : bool;
  cr_policy_version : string;
  cr_disclosure_version : string;
  cr_commitment_key_id : string;
  cr_receipt_hmac : list byte;
  cr_created_at : Z;
  cr_expires_at : option Z;
}.

Record SessionRow := mkSession {
  ss_household_id : UUID;
  ss_state : string;
  ss_speaker_subject_id : option UUID;
  ss_last_activity_at : Z;
  ss_closed_at : option Z;
}.

Inductive GuestChallengeState := challenge_open | challenge_accepted | challenge_denied.
#[export] Instance GuestChallengeState_eq_dec : EqDecision GuestChallengeState.
Proof. solve_decision. Defined.

Record GuestDisclosureChallenge := mkChallenge {
  ch_household_id : UUID;
  ch_session_id : UUID;
  ch_purpose : Purpose;
  ch_disclosure_version : string;
  ch_state : GuestChallengeState;
  ch_issued_at : Z;
  ch_expires_at : Z;
  ch_consumed_at : option Z;
  ch_presentation_receipt_id : UUID;
  ch_commitment_key_id : string;
  ch_challenge_hmac : list byte;
}.

Record GuestSessionConsentReceipt := mkGuestConsent {
  gr_household_id : UUID;
  gr_session_id : UUID;
  gr_challenge_id : UUID;
  gr_presentation_receipt_id : UUID;
  gr_purpose : Purpose;
  gr_disclosure_version : string;
  gr_granted : bool;
  gr_issued_at : Z;
  gr_expires_at : Z;
  gr_revoked_at : option Z;
  gr_commitment_key_id : string;
  gr_receipt_hmac : list byte;
}.

(** [event_receipts]: what the robot reported to have presented. *)
Record EventReceipt := mkEvent {
  er_household_id : UUID;
  er_correlation_id : UUID;
  er_disclosure : option (Purpose * string);
  er_decision : string;
  er_occurred_at : Z;
}.

Inductive Modality := face | voice.
#[export] Instance Modality_eq_dec : EqDecision Modality.
Proof. solve_decision. Defined.
(** [Modality.consent_purpose]. *)
Definition modality_purpose (m : Modality) : ConsentPurpose := match m with face => FACE | voice => VOICE end.

Inductive EnrollmentState := en_requested | en_capturing | en_calibrating | en_approved | en_cancelled | en_expired.
#[export] Instance EnrollmentState_eq_dec : EqDecision EnrollmentState.
Proof. solve_decision. Defined.

(** [enrollment_sessions], with the column of migration 0003. *)
Record EnrollmentRow := mkEnrollment {
  en_subject_id : UUID;
  en_modality : Modality;
  en_state : EnrollmentState;
  en_auth_receipt_id : UUID;
  en_consent_receipt_id : UUID;
  en_reenrollment_days : Z;
  en_created_at : Z;
  en_expires_at : Z;
  en_synthetic_template_id : option UUID;
  en_closed_at : option Z;
}.

(** [biometric_templates] without the encrypted template. *)
Record TemplateRow := mkTemplate {
  tp_enrollment_session_id : option UUID;
  tp_subject_id : UUID;
  tp_modality : Modality;
  tp_model_version : string;
  tp_consent_receipt_id : UUID;
  tp_created_at : Z;
  tp_expires_at : option Z;
  tp_revoked_at : option Z;
}.

(** [current_owner_authority], by household. *)
Record OwnerAuthority := mkOwner {
  ow_subject_id : UUID;
  ow_owner_generation : Z;
}.

(** [idempotency_receipts], by operation, scope and key; [id] columns are not kept. *)
Inductive Operation := provider_route_authorize | provider_route_consume | other_operation (name : string).
#[export] Instance Operation_eq_dec : EqDecision Operation.
Proof. solve_decision. Defined.

Record IdentityDB := mkIdentityDB {
  subjects : gmap UUID Profile;
  owners : gmap UUID OwnerAuthority;
  consent_receipts : gmap UUID ConsentReceipt;
  sessions : gmap UUID SessionRow;
  challenges : gmap UUID GuestDisclosureChallenge;
  guest_consents : gmap UUID GuestSessionConsentReceipt;
  events : gmap UUID EventReceipt;
  enrollments : gmap UUID EnrollmentRow;
  templates : gmap UUID TemplateRow;
  revocation_outbox : gmap UUID OutboxRow;
  revocation_effects : gmap UUID EffectRow;
  idempotency : list (Operation * UUID * UUID);
  id_budget : BudgetDB;
}.

Definition set_subjects x (db : IdentityDB) :=
  mkIdentityDB x (owners db) (consent_receipts db) (sessions db) (challenges db) (guest_consents db) (events db)
    (enrollments db) (templates db) (revocation_outbox db) (revocation_effects db) (idempotency db) (id_budget db).
Definition set_owners x (db : IdentityDB) :=
  mkIdentityDB (subjects db) x (consent_receipts db) (sessions db) (challenges db) (guest_consents db) (events db)
    (enrollments db) (templates db) (revocation_outbox db) (revocation_effects db) (idempotency db) (id_budget db).
Definition set_consents x (db : IdentityDB) :=
  mkIdentityDB (subjects db) (owners db) x (sessions db) (challenges db) (guest_consents db) (events db)
    (enrollments db) (templates db) (revocation_outbox db) (revocation_effects db) (idempotency db) (id_budget db).
Definition set_sessions x (db : IdentityDB) :=
  mkIdentityDB (subjects db) (owners db) (consent_receipts db) x (challenges db) (guest_consents db) (events db)
    (enrollments db) (templates db) (revocation_outbox db) (revocation_effects db) (idempotency db) (id_budget db).
Definition set_challenges x (db : IdentityDB) :=
  mkIdentityDB (subjects db) (owners db) (consent_receipts db) (sessions db) x (guest_consents db) (events db)
    (enrollments db) (templates db) (revocation_outbox db) (revocation_effects db) (idempotency db) (id_budget db).
Definition set_guest_consents x (db : IdentityDB) :=
  mkIdentityDB (subjects db) (owners db) (consent_receipts db) (sessions db) (challenges db) x (events db)
    (enrollments db) (templates db) (revocation_outbox db) (revocation_effects db) (idempotency db) (id_budget db).
Definition set_enrollments x (db : IdentityDB) :=
  mkIdentityDB (subjects db) (owners db) (consent_receipts db) (sessions db) (challenges db) (guest_consents db)
    (events db) x (templates db) (revocation_outbox db) (revocation_effects db) (idempotency db) (id_budget db).
Definition set_templates x (db : IdentityDB) :=
  mkIdentityDB (subjects db) (owners db) (consent_receipts db) (sessions db) (challenges db) (guest_consents db)
    (events db) (enrollments db) x (revocation_outbox db) (revocation_effects db) (idempotency db) (id_budget db).
Definition set_revocation_outbox x (db : IdentityDB) :=
  mkIdentityDB (subjects db) (owners db) (consent_receipts db) (sessions db) (challenges db) (guest_consents db)
    (events db) (enrollments db) (templates db) x (revocation_effects db) (idempotency db) (id_budget db).
Definition set_revocation_effects x (db : IdentityDB) :=
  mkIdentityDB (subjects db) (owners db) (consent_receipts db) (sessions db) (challenges db) (guest_consents db)
    (events db) (enrollments db) (templates db) (revocation_outbox db) x (idempotency db) (id_budget db).
Definition set_idempotency x (db : IdentityDB) :=
  mkIdentityDB (subjects db) (owners db) (consent_receipts db) (sessions db) (challenges db) (guest_consents db)
    (events db) (enrollments db) (templates db) (revocation_outbox db) (revocation_effects db) x (id_budget db).
Definition set_budget x (db : IdentityDB) :=
  mkIdentityDB (subjects db) (owners db) (consent_receipts db) (sessions db) (challenges db) (guest_consents db)
    (events db) (enrollments db) (templates db) (revocation_outbox db) (revocation_effects db) (idempotency db) x.

#[local] Abbreviation I := (M IdentityDB exn).

(** What the revocation queue's statements do in a unit of work of this database. *)
Definition in_revocations {A} (m : M RevocationDB exn A) : I A := λ db,
  let '(r, q) := m (mkRevocationDB (dom (subjects db)) (revocation_outbox db) (revocation_effects db)) in
  (r, set_revocation_effects (effects q) (set_revocation_outbox (outbox q) db)).

(** [UPDATE ... WHERE], and how many rows it changed. *)
Definition update_where {A} (guard : A → bool) (f : A → A) (rows : gmap UUID A) : gmap UUID A :=
  (λ x, if guard x then f x else x) <$> rows.

Definition consent_denied (msg : string) : exn := ConsentDenied msg.
Definition permission (msg : string) : exn := PermissionError msg.

(** ** Actions and who authenticated them *)

Record ActionBinding := mkBinding {
  ab_household_id : UUID;
  ab_proposal_id : UUID;
  ab_turn_id : UUID;
  ab_idempotency_key : UUID;
  ab_action_name : string;
  ab_resource_type : string;
  ab_resource_id : option UUID;
  ab_parameter_commitment : Commitment;
  ab_policy_version : string;
  ab_session_id : UUID;
  ab_subject_id : option UUID;
}.
#[export] Instance ActionBinding_eq_dec : EqDecision ActionBinding.
Proof. unfold EqDecision. solve_decision. Defined.

Inductive AssuranceSource := guest_source | identity_source | explicit_confirmation | pin | passkey | recovery.
#[export] Instance AssuranceSource_eq_dec : EqDecision AssuranceSource.
Proof. solve_decision. Defined.

(** The assurance level is the one of its source. *)
Record AuthContext := mkAuth {
  au_grant_id : option UUID;
  au_subject_id : option UUID;
  au_binding : ActionBinding;
  au_assurance_source : AssuranceSource;
  au_consumed_at : Z;
}.

(** The validator of [AuthContext]. *)
Definition auth_ok (a : AuthContext) : bool :=
  bool_decide (au_subject_id a = ab_subject_id (au_binding a)) &&
  match au_assurance_source a with
  | guest_source => bool_decide (au_subject_id a = None) && bool_decide (au_grant_id a = None)
  | identity_source => is_set (au_subject_id a) && bool_decide (au_grant_id a = None)
  | _ => is_set (au_subject_id a) && is_set (au_grant_id a)
  end.

(** ** Parameters of actions *)

Record PersonaTraits := mkTraits {
  pt_context : string;
  pt_tone : string;
  pt_depth : string;
  pt_learning_level : string;
}.
#[export] Instance PersonaTraits_eq_dec : EqDecision PersonaTraits.
Proof. unfold EqDecision. solve_decision. Defined.

Definition profile_class_text (c : ProfileClass) : string :=
  match c with owner => "owner" | adult => "adult" | k2 => "k2" | n1 => "n1" | guest => "guest" end%string.
Definition modality_text (m : Modality) : string := match m with face => "face" | voice => "voice" end%string.
Definition consent_purpose_text (p : ConsentPurpose) : string :=
  match p with
  | FACE => "face" | VOICE => "voice" | PERSONALIZATION => "personalization" | CLOUD_STT => "cloud_stt"
  | CLOUD_REASONING => "cloud_reasoning" | CLOUD_TTS => "cloud_tts" | WEB_SEARCH => "web_search"
  | CHILD_DURABLE_MEMORY => "child_durable_memory_v1"
  end%string.

(** A JSON value of the parameters. *)
Inductive parameter := PId (id : UUID) | PText (text : string) | PInt (i : Z) | PBool (b : bool) | PTraits (t : PersonaTraits) | PNull.
Definition nullable {A} (f : A → parameter) (x : option A) : parameter := match x with Some a => f a | None => PNull end.

(** The key of the verifier and the commitment it computes over canonical parameters. *)
Class ParameterServices := {
  parameter_key_id : string;
  commit_parameters : list (string * parameter) → string;
}.

Section Bindings.
Context `{PS : ParameterServices}.

(** [ActionParameterBindingVerifier.require]. *)
Definition require_parameters (b : ActionBinding) (action_name resource_type : string) (resource_id actor_id : option UUID)
    (parameters : list (string * parameter)) : result exn unit :=
  _ ← reject_if (negb (bool_decide (ab_action_name b = action_name)) || negb (bool_decide (ab_resource_type b = resource_type)) ||
                 negb (bool_decide (ab_resource_id b = resource_id)) || negb (bool_decide (ab_subject_id b = actor_id)))
        (permission "action_binding_scope_mismatch");
  _ ← reject_if (negb (bool_decide (cm_key_id (ab_parameter_commitment b) = parameter_key_id)))
        (permission "action_parameter_key_mismatch");
  reject_if (negb (bool_decide (cm_value_b64 (ab_parameter_commitment b) = commit_parameters parameters)))
    (permission "action_parameter_commitment_mismatch").
End Bindings.

(** [ActionBindingVerifier.require_exact]. *)
Definition require_exact (stored supplied : ActionBinding) : result exn unit :=
  reject_if (negb (bool_decide (stored = supplied))) (permission "action_binding_mismatch").

(** ** Profiles *)

(** The validators of [Profile]. *)
Definition profile_ok (p : Profile) : bool :=
  negb (bool_decide (pf_profile_class p = guest)) &&
  Bool.eqb (is_child (pf_profile_class p)) (is_set (pf_guardian_id p)) &&
  (0 <=? pf_guardian_generation p) &&
  Bool.eqb (is_child (pf_profile_class p)) (1 <=? pf_guardian_generation p) &&
  between 28 (len (pf_encrypted_display_label p)) 1024 &&
  match pf_encrypted_persona_traits p with Some traits => between 28 (len traits) 4096 | None => true end &&
  bool_decide (NoDup (pf_current_consent_receipt_ids p)) && (len (pf_current_consent_receipt_ids p) <=? 8) &&
  (1 <=? pf_authority_generation p) && (1 <=? pf_version p).

(** [SqlProfileRepository.get], [get_scoped] and [get_optional_scoped]. *)
Definition get_profile (subject_id : UUID) : I Profile :=
  row ← gets (λ db, subjects db !! subject_id);
  match (row : option Profile) with
  | None => raise KeyError
  | Some p => _ ← raise_if (negb (profile_ok p)) ValidationError; mret p
  end.
Definition get_scoped (household_id subject_id : UUID) : I Profile :=
  p ← get_profile subject_id;
  _ ← raise_if (negb (pf_household_id p =? household_id)) KeyError;
  mret p.
Definition get_optional_scoped (household_id subject_id : UUID) : I (option Profile) :=
  row ← gets (λ db, subjects db !! subject_id);
  match (row : option Profile) with
  | Some p =>
    if pf_household_id p =? household_id then _ ← raise_if (negb (profile_ok p)) ValidationError; mret (Some p)
    else mret None
  | None => mret None
  end.

Definition active (p : Profile) : bool := pf_active p && bool_decide (pf_revoked_at p = None).

(** [require_current_owner_guardian_generation]. *)
Definition require_current_owner_guardian_generation (household_id guardian_id : UUID) : I Z :=
  db ← gets (λ db, db);
  match owners db !! household_id, subjects db !! guardian_id with
  | Some o, Some p =>
    if (ow_subject_id o =? guardian_id) && (pf_household_id p =? household_id) && bool_decide (pf_profile_class p = owner) &&
       active p && (ow_owner_generation o =? pf_authority_generation p)
    then mret (ow_owner_generation o) else raise (permission "current_owner_guardian_required")
  | _, _ => raise (permission "current_owner_guardian_required")
  end.

(** [SqlSessionIdentityRepository.invalidate_identity_subject]. *)
Definition invalidate_identity_subject (subject_id : UUID) (now : Z) : I unit :=
  modify (λ db, set_sessions (update_where
    (λ s, bool_decide (ss_speaker_subject_id s = Some subject_id) && bool_decide (ss_closed_at s = None))
    (λ s, mkSession (ss_household_id s) (ss_state s) None now (ss_closed_at s)) (sessions db)) db).
