(* ===== verification/Consent.v ===== *)
(** * Consent: who agreed to what, and whether it still holds

    [services/identity/consent.py] and [services/providers/consent_guard.py], with the statements
    of [adapters/sqlcipher/identity_repositories.py]: the consents of subjects, granted and
    revoked under a fresh passkey, and those of guests for one session. *)

From S2P Require Import Prelude PttFraming BudgetPricing BudgetLedger BudgetGuard Outbox Identity.

#[local] Abbreviation I := (M IdentityDB exn).

(** ** Repositories *)

(** [ORDER BY ... DESC LIMIT 1]: the row before which no other comes. *)
Fixpoint newest {A} (older : UUID * A → UUID * A → bool) (l : list (UUID * A)) : option (UUID * A) :=
  match l with
  | [] => None
  | x :: l => match newest older l with Some y => if older x y then Some y else Some x | None => Some x end
  end.

Definition consents_of (subject_id : UUID) (purpose : ConsentPurpose) (db : IdentityDB) : list (UUID * ConsentReceipt) :=
  filter (λ p, cr_subject_id p.2 = subject_id ∧ cr_purpose p.2 = purpose) (map_to_list (consent_receipts db)).
Definition latest (subject_id : UUID) (purpose : ConsentPurpose) (db : IdentityDB) : option (UUID * ConsentReceipt) :=
  newest (λ x y, cr_created_at x.2 <? cr_created_at y.2) (consents_of subject_id purpose db).

Definition text_within (lo hi : Z) (s : string) : bool := between lo (Z.of_nat (String.length s)) hi.

(** The CHECK constraints of [consent_receipts]. *)
Definition consent_check (r : ConsentReceipt) : bool :=
  (negb (bool_decide (cr_purpose r = WEB_SEARCH)) ||
   (cr_actor_id r =? cr_subject_id r) && bool_decide (cr_guardian_id r = None) && bool_decide (cr_guardian_generation r = None)) &&
  (negb (bool_decide (cr_purpose r = CHILD_DURABLE_MEMORY)) ||
   bool_decide (cr_guardian_id r = Some (cr_actor_id r)) && bool_decide (is_Some (cr_expires_at r))) &&
  match cr_guardian_id r, cr_guardian_generation r with
  | None, None => true
  | Some _, Some generation => 1 <=? generation
  | _, _ => false
  end &&
  text_within 1 64 (cr_policy_version r) && text_within 1 64 (cr_disclosure_version r) &&
  text_within 1 128 (cr_commitment_key_id r) && (len (cr_receipt_hmac r) =? 32).

(** [_insert_consent_receipt]: the primary key, the unique columns, the foreign keys. *)
Definition _insert_consent_receipt (id : UUID) (r : ConsentReceipt) : I unit :=
  db ← gets (λ db, db);
  _ ← raise_if (bool_decide (is_Some (consent_receipts db !! id)) ||
                existsb (λ p, (cr_household_id p.2 =? cr_household_id r) && (cr_subject_id p.2 =? cr_subject_id r) &&
                              bool_decide (cr_purpose p.2 = cr_purpose r) && (cr_created_at p.2 =? cr_created_at r))
                  (map_to_list (consent_receipts db)) ||
                negb (bool_decide (is_Some (subjects db !! cr_subject_id r))) ||
                negb (bool_decide (is_Some (subjects db !! cr_actor_id r))) ||
                match cr_guardian_id r with Some g => negb (bool_decide (is_Some (subjects db !! g))) | None => false end ||
                negb (consent_check r)) IntegrityError;
  modify (λ db, set_consents (<[id := r]> (consent_receipts db)) db).

Definition corrupt_pointer : exn := RuntimeError "current_consent_pointer_corrupt".

(** [_receipt_ids_excluding_subject_purpose]. *)
Fixpoint excluding_subject_purpose (current_ids : list UUID) (subject_id : UUID) (purpose : ConsentPurpose)
    (db : IdentityDB) : result exn (list UUID) :=
  match current_ids with
  | [] => Ok []
  | id :: rest =>
    match consent_receipts db !! id with
    | None => Raise corrupt_pointer
    | Some r =>
      kept ← excluding_subject_purpose rest subject_id purpose db;
      Ok (if (cr_subject_id r =? subject_id) && bool_decide (cr_purpose r = purpose) then kept else id :: kept)
    end
  end.

Definition set_pointers (ids : list UUID) (p : Profile) : Profile :=
  mkProfile (pf_household_id p) (pf_guardian_id p) (pf_guardian_generation p) (pf_profile_class p) (pf_encrypted_display_label p)
    (pf_encrypted_persona_traits p) ids (pf_active p) (pf_authority_generation p) (pf_version p)
    (pf_next_reenrollment_reminder_at p) (pf_revoked_at p).

Definition _append_consent_receipt_replacing_current (id : UUID) (r : ConsentReceipt)
    (expected_latest_receipt_id : option UUID) : I unit :=
  current ← gets (latest (cr_subject_id r) (cr_purpose r));
  _ ← raise_if (negb (bool_decide (fst <$> current = expected_latest_receipt_id))) (consent_denied "consent_state_changed");
  row ← gets (λ db, subjects db !! cr_subject_id r);
  match (row : option Profile) with
  | Some p =>
    _ ← raise_if (negb ((pf_household_id p =? cr_household_id r) && pf_active p && bool_decide (pf_revoked_at p = None)))
          (consent_denied "current_active_subject_required");
    let current_ids := pf_current_consent_receipt_ids p in
    _ ← match (current : option (UUID * ConsentReceipt)) with
        | Some (latest_id, latest) =>
          raise_if (negb (Bool.eqb (cr_granted latest) (bool_decide (latest_id ∈ current_ids)))) corrupt_pointer
        | None => mret tt
        end;
    db ← gets (λ db, db);
    next_ids ← lift (excluding_subject_purpose current_ids (cr_subject_id r) (cr_purpose r) db);
    _ ← raise_if (cr_granted r && (8 <=? len (next_ids : list UUID))) (RuntimeError "current_consent_pointer_full");
    let next_ids := if cr_granted r then next_ids ++ [id] else next_ids in
    _ ← _insert_consent_receipt id r;
    modify (λ db, set_subjects (<[cr_subject_id r := set_pointers next_ids p]> (subjects db)) db)
  | None => raise (consent_denied "current_active_subject_required")
  end.

(** ** Commands and their authentication *)

(** [GrantConsent] and [RevokeConsent]; the latter always names the receipt it revokes. *)
Record ConsentCommand := mkConsentCommand {
  cc_subject_id : UUID;
  cc_actor_id : UUID;
  cc_purpose : ConsentPurpose;
  cc_expected_latest_receipt_id : option UUID;
  cc_guardian_generation : option Z;
  cc_action_binding : ActionBinding;
  cc_policy_version : string;
  cc_disclosure_version : string;
}.

(** The fields under a receipt's HMAC. *)
Definition receipt_fields (r : ConsentReceipt) :
    UUID * UUID * ConsentPurpose * UUID * option UUID * option Z * bool * string * string * Z * option Z :=
  (cr_household_id r, cr_subject_id r, cr_purpose r, cr_actor_id r, cr_guardian_id r, cr_guardian_generation r,
   cr_granted r, cr_policy_version r, cr_disclosure_version r, cr_created_at r, cr_expires_at r).
Definition challenge_fields (id : UUID) (c : GuestDisclosureChallenge) : UUID * UUID * UUID * Purpose * string * UUID * Z * Z :=
  (id, ch_household_id c, ch_session_id c, ch_purpose c, ch_disclosure_version c, ch_presentation_receipt_id c,
   ch_issued_at c, ch_expires_at c).
Definition guest_fields (r : GuestSessionConsentReceipt) :
    UUID * UUID * UUID * UUID * Purpose * string * bool * Z * Z * option Z :=
  (gr_household_id r, gr_session_id r, gr_challenge_id r, gr_presentation_receipt_id r, gr_purpose r,
   gr_disclosure_version r, gr_granted r, gr_issued_at r, gr_expires_at r, gr_revoked_at r).

(** What is signed, with the purpose of the signature. *)
Inductive signable :=
| SubjectConsent (fields : UUID * UUID * ConsentPurpose * UUID * option UUID * option Z * bool * string * string * Z * option Z)
| GuestChallenge (fields : UUID * UUID * UUID * Purpose * string * UUID * Z * Z)
| GuestConsent (fields : UUID * UUID * UUID * UUID * Purpose * string * bool * Z * Z * option Z).

(** [HmacReceiptSigner]. *)
Class ConsentServices := {
  sign_fields : signable → string * list byte;
  verify_fields : string → signable → list byte → bool;
}.

Section Consents.
Context `{PS : ParameterServices} `{CN : ConsentServices}.

(** [consent_parameters]. *)
Definition consent_parameters (c : ConsentCommand) : list (string * parameter) :=
  [("disclosure_version", PText (cc_disclosure_version c));
   ("expected_latest_receipt_id", nullable PId (cc_expected_latest_receipt_id c));
   ("guardian_generation", nullable PInt (cc_guardian_generation c));
   ("policy_version", PText (cc_policy_version c));
   ("purpose", PText (consent_purpose_text (cc_purpose c)));
   ("subject_id", PId (cc_subject_id c))]%string.

Definition _require_action_binding (c : ConsentCommand) (action_name : string) : I unit :=
  match require_parameters (cc_action_binding c) action_name "consent" (Some (cc_subject_id c)) (Some (cc_actor_id c))
          (consent_parameters c) with
  | Ok _ => mret tt
  | Raise _ => raise (consent_denied "consent_action_binding_mismatch")
  end.

Definition _require_passkey (c : ConsentCommand) (auth : AuthContext) (now : Z) : I unit :=
  _ ← raise_if (negb (bool_decide (au_assurance_source auth = passkey))) (consent_denied "subject_bound_passkey_required");
  _ ← raise_if (negb (bool_decide (au_binding auth = cc_action_binding c))) (consent_denied "subject_bound_passkey_required");
  let age := now - au_consumed_at auth in
  _ ← raise_if ((age <? 0) || (120_000_000 <? age)) (consent_denied "fresh_passkey_required");
  raise_if (negb (bool_decide (au_subject_id auth = Some (cc_actor_id c)))) (consent_denied "authenticated_actor_mismatch").

Definition _require_subject_authority (c : ConsentCommand) (subject : Profile) : I unit :=
  let child := is_child (pf_profile_class subject) in
  _ ← raise_if (negb (active subject)) (consent_denied "current_active_subject_required");
  _ ← raise_if (negb (pf_household_id subject =? ab_household_id (cc_action_binding c))) (consent_denied "consent_household_mismatch");
  _ ← raise_if (bool_decide (cc_purpose c = WEB_SEARCH) && (child || negb (cc_actor_id c =? cc_subject_id c)))
        (consent_denied "web_search_adult_self_consent_required");
  _ ← raise_if (bool_decide (cc_purpose c = CHILD_DURABLE_MEMORY) && negb child)
        (consent_denied "child_durable_memory_guardian_consent_required");
  if child then
    raise_if (negb (bool_decide (pf_guardian_id subject = Some (cc_actor_id c))) ||
              negb (bool_decide (cc_guardian_generation c = Some (pf_guardian_generation subject))))
      (consent_denied "current_primary_guardian_required")
  else
    raise_if (negb (cc_actor_id c =? cc_subject_id c) || bool_decide (is_Some (cc_guardian_generation c)))
      (consent_denied "adult_self_consent_required").

Definition _receipt_timestamp_after (current : option (UUID * ConsentReceipt)) (candidate : Z) : Z :=
  match current with
  | Some (_, r) => if cr_created_at r <? candidate then candidate else cr_created_at r + 1
  | None => candidate
  end.

(** A receipt with its signature. *)
Definition signed (r : ConsentReceipt) : ConsentReceipt :=
  let '(key_id, hmac) := sign_fields (SubjectConsent (receipt_fields r)) in
  mkConsent (cr_household_id r) (cr_subject_id r) (cr_actor_id r) (cr_guardian_id r) (cr_guardian_generation r) (cr_purpose r)
    (cr_granted r) (cr_policy_version r) (cr_disclosure_version r) key_id hmac (cr_created_at r) (cr_expires_at r).

(** ** [ConsentService] *)

Definition guardian_of (c : ConsentCommand) (subject : Profile) : option UUID :=
  if is_child (pf_profile_class subject) then Some (cc_actor_id c) else None.
Definition guardian_generation_of (c : ConsentCommand) (subject : Profile) : option Z :=
  if is_child (pf_profile_class subject) then cc_guardian_generation c else None.

(** [fresh] is the uuid4 of the receipt, [audit] what the ledger answers. *)
Definition _grant_in_active_uow (c : ConsentCommand) (fresh : UUID) (now : Z) (audit : result exn unit) : I (UUID * ConsentReceipt) :=
  subject ← get_profile (cc_subject_id c);
  _ ← _require_subject_authority c subject;
  current ← gets (latest (cc_subject_id c) (cc_purpose c));
  _ ← raise_if (negb (bool_decide (fst <$> current = cc_expected_latest_receipt_id c))) (consent_denied "consent_state_changed");
  let now := _receipt_timestamp_after current now in
  let r := signed (mkConsent (pf_household_id subject) (cc_subject_id c) (cc_actor_id c) (guardian_of c subject)
             (guardian_generation_of c subject) (cc_purpose c) true (cc_policy_version c) (cc_disclosure_version c) "" [] now
             (if bool_decide (cc_purpose c = CHILD_DURABLE_MEMORY) then Some (now + 365 * 86_400_000_000) else None)) in
  _ ← _append_consent_receipt_replacing_current fresh r (fst <$> current);
  _ ← lift audit;
  mret (fresh, r).

Definition grant (c : ConsentCommand) (auth : AuthContext) (passkey_now : Z) (fresh : UUID) (now : Z) (audit : result exn unit) :
    I (UUID * ConsentReceipt) :=
  _ ← _require_action_binding c "consent.grant";
  _ ← _require_passkey c auth passkey_now;
  unit_of_work (_grant_in_active_uow c fresh now audit).

(** A granted receipt that is not yet or no longer in force. *)
Definition in_force (r : ConsentReceipt) (now : Z) : bool :=
  cr_granted r && (cr_created_at r <=? now) &&
  match cr_expires_at r with Some expires_at => now <? expires_at | None => true end.

(** [cascade] is what the revocation of the receipt undoes in the same unit of work. *)
Definition _revoke_in_active_uow (c : ConsentCommand) (fresh : UUID) (now : Z) (audit : result exn unit)
    (cascade : ConsentReceipt → Z → I unit) : I (UUID * ConsentReceipt) :=
  subject ← get_profile (cc_subject_id c);
  _ ← _require_subject_authority c subject;
  found ← gets (latest (cc_subject_id c) (cc_purpose c));
  let now := _receipt_timestamp_after found now in
  match (found : option (UUID * ConsentReceipt)) with
  | None => raise (consent_denied "current_consent_required")
  | Some (current_id, current) =>
    _ ← raise_if (negb (in_force current now)) (consent_denied "current_consent_required");
    _ ← raise_if (negb (bool_decide (cc_expected_latest_receipt_id c = Some current_id)) ||
                  negb (bool_decide (cr_policy_version current = cc_policy_version c)) ||
                  negb (bool_decide (cr_disclosure_version current = cc_disclosure_version c)))
          (consent_denied "consent_state_changed");
    _ ← raise_if (negb (cr_actor_id current =? cc_actor_id c) && negb (bool_decide (cr_guardian_id current = Some (cc_actor_id c))))
          (consent_denied "consent_revoker_mismatch");
    let r := signed (mkConsent (cr_household_id current) (cr_subject_id current) (cc_actor_id c) (guardian_of c subject)
               (guardian_generation_of c subject) (cr_purpose current) false (cr_policy_version current)
               (cr_disclosure_version current) "" [] now (Some now)) in
    _ ← _append_consent_receipt_replacing_current fresh r (Some current_id);
    _ ← cascade r now;
    _ ← lift audit;
    mret (fresh, r)
  end.

Definition revoke (c : ConsentCommand) (auth : AuthContext) (passkey_now : Z) (fresh : UUID) (now : Z) (audit : result exn unit)
    (cascade : ConsentReceipt → Z → I unit) : I (UUID * ConsentReceipt) :=
  _ ← _require_action_binding c "consent.revoke";
  _ ← _require_passkey c auth passkey_now;
  unit_of_work (_revoke_in_active_uow c fresh now audit cascade).

Definition require_current_in_uow (subject_id : UUID) (purpose : ConsentPurpose) (now : Z) : I (UUID * ConsentReceipt) :=
  subject ← get_profile subject_id;
  let child := is_child (pf_profile_class subject) in
  let guardian r := bool_decide (cr_guardian_id r = pf_guardian_id subject) &&
                    bool_decide (cr_guardian_generation r = Some (pf_guardian_generation subject)) in
  let self r := (cr_actor_id r =? subject_id) && bool_decide (cr_guardian_id r = None) &&
                bool_decide (cr_guardian_generation r = None) in
  _ ← raise_if (negb (active subject)) (consent_denied "current_active_subject_required");
  _ ← raise_if (bool_decide (purpose = WEB_SEARCH) && child) (consent_denied "web_search_adult_self_consent_required");
  _ ← raise_if (bool_decide (purpose = CHILD_DURABLE_MEMORY) && negb child)
        (consent_denied "child_durable_memory_guardian_consent_required");
  found ← gets (latest subject_id purpose);
  match (found : option (UUID * ConsentReceipt)) with
  | None => raise (consent_denied "current_consent_required")
  | Some (id, r) =>
    _ ← raise_if (negb (in_force r now)) (consent_denied "current_consent_required");
    let verified := mkConsent (pf_household_id subject) subject_id (cr_actor_id r) (cr_guardian_id r) (cr_guardian_generation r) purpose
                      (cr_granted r) (cr_policy_version r) (cr_disclosure_version r) "" [] (cr_created_at r) (cr_expires_at r) in
    _ ← raise_if (negb (cr_household_id r =? pf_household_id subject) ||
                  negb (verify_fields (cr_commitment_key_id r) (SubjectConsent (receipt_fields verified)) (cr_receipt_hmac r)))
          (consent_denied "consent_receipt_hmac_invalid");
    _ ← raise_if (negb child && negb (self r))
          (consent_denied (if bool_decide (purpose = WEB_SEARCH) then "web_search_adult_self_receipt_required"
                           else "adult_self_consent_receipt_required"));
    _ ← raise_if (bool_decide (purpose = WEB_SEARCH) && negb (self r)) (consent_denied "web_search_adult_self_receipt_required");
    _ ← raise_if (bool_decide (purpose = CHILD_DURABLE_MEMORY) &&
                  negb (bool_decide (Some (cr_actor_id r) = pf_guardian_id subject) && guardian r))
          (consent_denied "current_primary_guardian_consent_required");
    _ ← raise_if (child && negb (guardian r)) (consent_denied "current_primary_guardian_consent_required");
    mret (id, r)
  end.

Definition require_current_hmac_valid (household_id subject_id : UUID) (purpose : ConsentPurpose) (now : Z) : I (UUID * ConsentReceipt) :=
  found ← require_current_in_uow subject_id purpose now;
  _ ← raise_if (negb (cr_household_id found.2 =? household_id)) (consent_denied "consent_household_mismatch");
  mret found.

Definition is_current (subject_id : UUID) (purpose : ConsentPurpose) (now : Z) : I bool := λ db,
  match require_current_in_uow subject_id purpose now db with
  | (Ok _, db') => (Ok true, db')
  | (Raise (ConsentDenied _), db') => (Ok false, db')
  | (Raise e, db') => (Raise e, db')
  end.

Definition verify_receipt (r : ConsentReceipt) : result exn unit :=
  let guarded := is_set (cr_guardian_id r) || is_set (cr_guardian_generation r) in
  _ ← reject_if (negb (verify_fields (cr_commitment_key_id r) (SubjectConsent (receipt_fields r)) (cr_receipt_hmac r)))
        (consent_denied "consent_receipt_hmac_invalid");
  _ ← reject_if (bool_decide (cr_purpose r = WEB_SEARCH) && (negb (cr_actor_id r =? cr_subject_id r) || guarded))
        (consent_denied "web_search_adult_self_receipt_required");
  _ ← reject_if (negb (cr_actor_id r =? cr_subject_id r) && negb guarded) (consent_denied "adult_self_consent_receipt_required");
  reject_if guarded (consent_denied "current_primary_guardian_receipt_state_required").

(** ** Guests: consent for one session *)

Definition _GUEST_SESSION_SECONDS : Z := 30 * 60.

(** [SqlSessionIdentityRepository.require_active]: when the session ends. *)
Definition require_active (household_id session_id : UUID) (now : Z) : I Z :=
  row ← gets (λ db, sessions db !! session_id);
  match (row : option SessionRow) with
  | Some s =>
    let expires_at := ss_last_activity_at s + _GUEST_SESSION_SECONDS * 1_000_000 in
    _ ← raise_if (negb (ss_household_id s =? household_id) || bool_decide (is_Some (ss_closed_at s)) || (expires_at <=? now))
          (consent_denied "active_guest_session_required");
    mret expires_at
  | None => raise (consent_denied "active_guest_session_required")
  end.

Definition require_exact_guest_disclosure (presentation_receipt_id household_id session_id : UUID) (purpose : Purpose)
    (disclosure_version : string) (now : Z) : I unit :=
  row ← gets (λ db, events db !! presentation_receipt_id);
  match (row : option EventReceipt) with
  | Some e =>
    raise_if (negb (er_household_id e =? household_id) || negb (er_correlation_id e =? session_id) ||
              negb (bool_decide (er_disclosure e = Some (purpose, disclosure_version))) ||
              negb (bool_decide (er_decision e = "accepted"%string)) || (now <? er_occurred_at e))
      (consent_denied "guest_disclosure_presentation_mismatch")
  | None => raise (consent_denied "guest_disclosure_presentation_mismatch")
  end.

Definition insert_challenge (id : UUID) (c : GuestDisclosureChallenge) : I unit :=
  db ← gets (λ db, db);
  _ ← raise_if (bool_decide (is_Some (challenges db !! id)) ||
                existsb (λ p, (ch_presentation_receipt_id p.2 =? ch_presentation_receipt_id c) ||
                              ((ch_household_id p.2 =? ch_household_id c) && (ch_session_id p.2 =? ch_session_id c) &&
                               bool_decide (ch_purpose p.2 = ch_purpose c) &&
                               bool_decide (ch_disclosure_version p.2 = ch_disclosure_version c) &&
                               (ch_issued_at p.2 =? ch_issued_at c))) (map_to_list (challenges db)) ||
                negb (ch_issued_at c <? ch_expires_at c) || negb (text_within 1 64 (ch_disclosure_version c)) ||
                negb (text_within 1 128 (ch_commitment_key_id c)) || negb (len (ch_challenge_hmac c) =? 32)) IntegrityError;
  modify (λ db, set_challenges (<[id := c]> (challenges db)) db).

(** No challenge has the [started_audit] and [denied_audit] that issuing and declining one ask
    for, so neither is audited. *)
Definition issue_challenge (household_id session_id : UUID) (purpose : Purpose) (disclosure_version : string)
    (presentation_receipt_id : UUID) (now : Z) (challenge_id : UUID) : I unit :=
  unit_of_work (
    session_expires_at ← require_active household_id session_id now;
    _ ← require_exact_guest_disclosure presentation_receipt_id household_id session_id purpose disclosure_version now;
    let unsigned := mkChallenge household_id session_id purpose disclosure_version challenge_open now
                      (Z.min session_expires_at (now + 120_000_000)) None presentation_receipt_id "" [] in
    let '(key_id, hmac) := sign_fields (GuestChallenge (challenge_fields challenge_id unsigned)) in
    insert_challenge challenge_id (mkChallenge household_id session_id purpose disclosure_version challenge_open now
      (Z.min session_expires_at (now + 120_000_000)) None presentation_receipt_id key_id hmac)).

Definition no_open_challenge : exn := consent_denied "active_guest_disclosure_challenge_required".

(** [SqlGuestDisclosureChallengeRepository._consume]. *)
Definition _consume (challenge_id : UUID) (state : GuestChallengeState) (now : Z) : I unit :=
  row ← gets (λ db, challenges db !! challenge_id);
  match (row : option GuestDisclosureChallenge) with
  | Some c =>
    _ ← raise_if (negb (bool_decide (ch_state c = challenge_open))) no_open_challenge;
    modify (λ db, set_challenges (<[challenge_id := mkChallenge (ch_household_id c) (ch_session_id c) (ch_purpose c)
      (ch_disclosure_version c) state (ch_issued_at c) (ch_expires_at c) (Some now) (ch_presentation_receipt_id c)
      (ch_commitment_key_id c) (ch_challenge_hmac c)]> (challenges db)) db)
  | None => raise no_open_challenge
  end.

(** [SqlGuestSessionConsentRepository.append] with a signature. *)
Definition append_guest_consent (id : UUID) (unsigned : GuestSessionConsentReceipt) : I unit :=
  let '(key_id, hmac) := sign_fields (GuestConsent (guest_fields unsigned)) in
  let r := mkGuestConsent (gr_household_id unsigned) (gr_session_id unsigned) (gr_challenge_id unsigned)
             (gr_presentation_receipt_id unsigned) (gr_purpose unsigned) (gr_disclosure_version unsigned) (gr_granted unsigned)
             (gr_issued_at unsigned) (gr_expires_at unsigned) (gr_revoked_at unsigned) key_id hmac in
  db ← gets (λ db, db);
  _ ← raise_if (bool_decide (is_Some (guest_consents db !! id)) ||
                existsb (λ p, ((gr_household_id p.2 =? gr_household_id r) && (gr_session_id p.2 =? gr_session_id r) &&
                               bool_decide (gr_purpose p.2 = gr_purpose r) && (gr_issued_at p.2 =? gr_issued_at r)) ||
                              (gr_granted p.2 && gr_granted r && (gr_challenge_id p.2 =? gr_challenge_id r)))
                  (map_to_list (guest_consents db)) ||
                negb (gr_issued_at r <? gr_expires_at r) ||
                match gr_revoked_at r with Some revoked_at => revoked_at <? gr_issued_at r | None => false end ||
                negb (text_within 1 64 (gr_disclosure_version r)) || negb (text_within 1 128 key_id) || negb (len hmac =? 32))
        IntegrityError;
  modify (λ db, set_guest_consents (<[id := r]> (guest_consents db)) db).

(** [accept_challenge]; a refusal is committed before it is raised. *)
Definition accept_challenge (challenge_id : UUID) (response : string) (now : Z) (fresh : UUID) (audit : result exn unit) : I unit :=
  accepted ← unit_of_work (
    row ← gets (λ db, challenges db !! challenge_id);
    match (row : option GuestDisclosureChallenge) with
    | None => raise no_open_challenge
    | Some c =>
      _ ← raise_if (negb (bool_decide (ch_state c = challenge_open)) || (now <? ch_issued_at c) || (ch_expires_at c <=? now))
            no_open_challenge;
      _ ← raise_if (negb (verify_fields (ch_commitment_key_id c) (GuestChallenge (challenge_fields challenge_id c)) (ch_challenge_hmac c)))
            no_open_challenge;
      if negb (bool_decide (response ∈ ["yes"; "haan"; "हाँ"]%string)) then
        _ ← _consume challenge_id challenge_denied now;
        mret false
      else
        session_expires_at ← require_active (ch_household_id c) (ch_session_id c) now;
        _ ← raise_if (session_expires_at <? ch_expires_at c) no_open_challenge;
        _ ← _consume challenge_id challenge_accepted now;
        _ ← append_guest_consent fresh (mkGuestConsent (ch_household_id c) (ch_session_id c) challenge_id
              (ch_presentation_receipt_id c) (ch_purpose c) (ch_disclosure_version c) true now session_expires_at None "" []);
        _ ← lift audit;
        mret true
    end);
  raise_if (negb accepted) (consent_denied "guest_disclosure_declined").

Definition guest_consents_of (household_id session_id : UUID) (purpose : Purpose) (db : IdentityDB) :
    list (UUID * GuestSessionConsentReceipt) :=
  filter (λ p, gr_household_id p.2 = household_id ∧ gr_session_id p.2 = session_id ∧ gr_purpose p.2 = purpose)
    (map_to_list (guest_consents db)).
Definition latest_guest (household_id session_id : UUID) (purpose : Purpose) (db : IdentityDB) :
    option (UUID * GuestSessionConsentReceipt) :=
  newest (λ x y, (gr_issued_at x.2 <? gr_issued_at y.2) || ((gr_issued_at x.2 =? gr_issued_at y.2) && (x.1 <? y.1)))
    (guest_consents_of household_id session_id purpose db).

Definition guest_in_force (r : GuestSessionConsentReceipt) (now : Z) : bool :=
  gr_granted r && bool_decide (gr_revoked_at r = None) && (gr_issued_at r <=? now) && (now <? gr_expires_at r).

(** [GuestSessionConsentService.revoke]. *)
Definition revoke_guest (household_id session_id : UUID) (purpose : Purpose) (now : Z) (fresh : UUID) (audit : result exn unit) :
    I unit :=
  unit_of_work (
    found ← gets (latest_guest household_id session_id purpose);
    match (found : option (UUID * GuestSessionConsentReceipt)) with
    | None => raise (consent_denied "current_guest_session_consent_required")
    | Some (_, current) =>
      _ ← raise_if (negb (guest_in_force current now)) (consent_denied "current_guest_session_consent_required");
      _ ← append_guest_consent fresh (mkGuestConsent household_id session_id (gr_challenge_id current)
            (gr_presentation_receipt_id current) purpose (gr_disclosure_version current) false now (gr_expires_at current)
            (Some now) "" []);
      lift audit
    end).

(** [GuestSessionConsentService.require_current]. *)
Definition require_current_guest (household_id session_id : UUID) (purpose : Purpose) (now : Z) : I (UUID * GuestSessionConsentReceipt) :=
  session_expires_at ← require_active household_id session_id now;
  found ← gets (latest_guest household_id session_id purpose);
  match (found : option (UUID * GuestSessionConsentReceipt)) with
  | None => raise (consent_denied "current_guest_session_consent_required")
  | Some (id, r) =>
    _ ← raise_if (negb (guest_in_force r now) || (session_expires_at <? gr_expires_at r))
          (consent_denied "current_guest_session_consent_required");
    let checked := mkGuestConsent household_id session_id (gr_challenge_id r) (gr_presentation_receipt_id r) purpose
                     (gr_disclosure_version r) (gr_granted r) (gr_issued_at r) (gr_expires_at r) (gr_revoked_at r) "" [] in
    _ ← raise_if (negb (verify_fields (gr_commitment_key_id r) (GuestConsent (guest_fields checked)) (gr_receipt_hmac r)))
          (consent_denied "guest_consent_receipt_hmac_invalid");
    mret (id, r)
  end.

(** ** [ConsentEvidenceService]: the receipts a request will name *)

Record ConsentEvidence := mkEvidence {
  cv_receipt_id : UUID;
  cv_household_id : UUID;
  cv_subject_id : option UUID;
  cv_session_id : option UUID;
  cv_purpose : string;
  cv_expires_at : option Z;
}.

(** [ConsentPurpose(purpose)] and [_guest_purpose]. *)
Definition purpose_of_text (text : string) : I ConsentPurpose :=
  match List.find (λ p, bool_decide (consent_purpose_text p = text))
          [FACE; VOICE; PERSONALIZATION; CLOUD_STT; CLOUD_REASONING; CLOUD_TTS; WEB_SEARCH; CHILD_DURABLE_MEMORY] with
  | Some p => mret p
  | None => raise (ValueError "not a valid ConsentPurpose")
  end.
Definition _guest_purpose (text : string) : I Purpose :=
  match List.find (λ p, bool_decide (purpose_text p = text)) [cloud_stt; cloud_reasoning; cloud_tts] with
  | Some p => mret p
  | None => raise (permission ("guest_session_consent_required:" ++ text))
  end.

Fixpoint require_evidence (household_id : UUID) (subject_id : option UUID) (session_id : UUID) (purposes : list string) (now : Z) :
    I (list ConsentEvidence) :=
  match purposes with
  | [] => mret []
  | purpose :: purposes =>
    evidence ← match subject_id with
               | None =>
                 guest_purpose ← _guest_purpose purpose;
                 found ← require_current_guest household_id session_id guest_purpose now;
                 mret (mkEvidence found.1 household_id None (Some session_id) purpose (Some (gr_expires_at found.2)))
               | Some id =>
                 subject_purpose ← purpose_of_text purpose;
                 found ← require_current_hmac_valid household_id id subject_purpose now;
                 mret (mkEvidence found.1 household_id (Some id) None purpose (cr_expires_at found.2))
               end;
    rest ← require_evidence household_id subject_id session_id purposes now;
    mret (evidence :: rest)
  end.

(** ** [ConsentHmacVerifier]: the consent a route names is the one in force *)

Definition _require_subject_exact_in_uow (household_id subject_id : UUID) (purpose : Purpose) (receipt_ids : list UUID) (now : Z) :
    I unit :=
  let refused := permission ("consent_required:" ++ purpose_text purpose) in
  match receipt_ids with
  | [receipt_id] =>
    db ← gets (λ db, db);
    match (require_current_in_uow subject_id (consent_purpose purpose) now db).1 with
    | Ok (id, r) => raise_if (negb (cr_household_id r =? household_id) || negb (id =? receipt_id)) refused
    | Raise (ConsentDenied _) | Raise (ValueError _) | Raise ValidationError => raise refused
    | Raise e => raise e
    end
  | _ => raise refused
  end.

Definition _require_guest_exact_in_uow (household_id session_id : UUID) (purpose : Purpose) (receipt_ids : list UUID) (now : Z) :
    I unit :=
  let refused := permission ("guest_session_consent_required:" ++ purpose_text purpose) in
  match receipt_ids with
  | [receipt_id] =>
    db ← gets (λ db, db);
    match (require_active household_id session_id now db).1, latest_guest household_id session_id purpose db with
    | Ok session_expires_at, Some (id, r) =>
      _ ← raise_if (negb (id =? receipt_id) || negb (gr_household_id r =? household_id) || negb (gr_session_id r =? session_id) ||
                    negb (bool_decide (gr_purpose r = purpose)) || negb (guest_in_force r now) ||
                    (session_expires_at <? gr_expires_at r)) refused;
      raise_if (negb (verify_fields (gr_commitment_key_id r) (GuestConsent (guest_fields r)) (gr_receipt_hmac r))) refused
    | _, _ => raise refused
    end
  | _ => raise refused
  end.

Definition require_exact_in_uow (household_id : UUID) (subject_id : option UUID) (session_id : UUID) (purpose : Purpose)
    (receipt_ids : list UUID) (now : Z) : I unit :=
  match subject_id with
  | None => _require_guest_exact_in_uow household_id session_id purpose receipt_ids now
  | Some subject_id => _require_subject_exact_in_uow household_id subject_id purpose receipt_ids now
  end.
End Consents.
