(* ===== verification/Routes.v ===== *)
(** * Routes: single-use authorizations of cloud requests

    [services/providers/route_authorization.py]: a route is authorized for an attempt when the
    subject, the consent, the privacy receipt, the provider review, the session and the budget
    reservation allow it, and consumed once, when they still do.  Revoking a consent deletes the
    routes that were authorized under it and not used, in the same unit of work
    ([SqlProviderRouteAuthorityRevocation] of [services/identity/subject_revocation.py]).  Ids
    order as the stored texts of their settings' keys do. *)

From stdpp Require Import sorting.
From S2P Require Import Prelude PttFraming BudgetPricing BudgetLedger BudgetGuard ProviderCalls Outbox Identity Consent.

(** ** Data *)

Record RouteAuthorizationRequest := mkRouteRequest {
  rr_binding : RouteBinding;
  rr_request_commitment : Commitment;
  rr_max_input_bytes : Z;
  rr_max_input_units : Z;
  rr_privacy_receipt_id : UUID;
  rr_consent_receipt_ids : list UUID;
  rr_budget_reservation_id : UUID;
  rr_maximum_sensitivity : string;
}.

(** [RouteAuthorizationEnvelopeV1] with the fields of its route; [ev_qwen_activation] is the
    canonical form of an activation. *)
Record Envelope := mkEnvelope {
  ev_route : RouteAuthorization;
  ev_privacy_receipt_id : UUID;
  ev_consent_receipt_ids : list UUID;
  ev_subject_authority_generation : option Z;
  ev_qwen_activation : option string;
}.
#[export] Instance RouteAuthorization_eq_dec : EqDecision RouteAuthorization.
Proof. solve_decision. Defined.
#[export] Instance Envelope_eq_dec : EqDecision Envelope.
Proof. solve_decision. Defined.

(** [bindings_match_route]. *)
Definition envelope_ok (e : Envelope) : bool :=
  let b := ra_binding (ev_route e) in
  Bool.eqb (bool_decide (bn_subject_id b = None)) (bool_decide (ev_subject_authority_generation e = None)) &&
  Bool.eqb (bool_decide (bn_provider b = "qwen"%string)) (bool_decide (is_Some (ev_qwen_activation e))) &&
  (negb (bool_decide (is_Some (ev_qwen_activation e))) || bool_decide (bn_model b = "qwen3.7-plus"%string)) &&
  match ev_subject_authority_generation e with Some generation => 1 <=? generation | None => true end.

Record PrivacyReceiptBindingV1 := mkPrivacy {
  pv_receipt_id : UUID;
  pv_turn_id : UUID;
  pv_expires_at : Z;
}.

(** Canonical JSON, and the subject authority, which is injected. *)
Class RouteServices := {
  canonical_envelope : Envelope → string;
  _parse_persisted_route_envelope : string → option Envelope;
  json_route_subject_id : string → option UUID;
  json_route_purpose : string → option Purpose;
  _parse_privacy_receipt : string → option PrivacyReceiptBindingV1;
  uuid_text : UUID → string;
  subject_authority : IdentityDB → UUID → UUID → option Z → result exn Z;
}.

(** Reading back a canonical form gives what was written, if anything: a text longer than
    [_ROUTE_ENVELOPE_MAX_BYTES] is written but not read.  SQLite reads the same fields. *)
Class RouteLaws `{RouteServices} := {
  parse_canonical : ∀ e e', _parse_persisted_route_envelope (canonical_envelope e) = Some e' → e' = e;
  parsed_fields : ∀ raw e, _parse_persisted_route_envelope raw = Some e →
    json_route_subject_id raw = bn_subject_id (ra_binding (ev_route e)) ∧
    json_route_purpose raw = Some (bn_purpose (ra_binding (ev_route e)));
}.

#[local] Abbreviation I := (M IdentityDB exn).

Definition _ROUTE_TTL : Z := 30_000_000.
Definition _REVOCATION_SCAN_BATCH_SIZE : nat := 128.

(** ** Statements *)

Definition route_settings (db : IdentityDB) : gmap SettingKey SettingValue := settings (id_budget db).
Definition with_settings (f : gmap SettingKey SettingValue → gmap SettingKey SettingValue) (db : IdentityDB) : IdentityDB :=
  let b := id_budget db in set_budget (mkBudgetDB (reservations b) (calls b) (ledger b) (f (settings b))) db.

(** [_select_text_setting]; the values of other keys are not texts of this module. *)
Definition _select_text_setting (key : SettingKey) : I (option string) :=
  db ← gets (λ db, db);
  match route_settings db !! key with
  | None => mret None
  | Some (OtherValue json) => mret (Some json)
  | Some _ => raise (permission "route_authorization_corrupt")
  end.

Definition _idempotency_exists (operation : Operation) (household_id key : UUID) (db : IdentityDB) : bool :=
  bool_decide ((operation, household_id, key) ∈ idempotency db).
Definition count_consumptions (authorization_id : UUID) (db : IdentityDB) : Z :=
  len (filter (λ x, x.1.1 = provider_route_consume ∧ x.2 = authorization_id) (idempotency db)).
(** The receipts are unique by operation, scope and key; without the scope there may be several. *)
Definition _consumption_exists_any_scope (authorization_id : UUID) (db : IdentityDB) : result exn bool :=
  let value := count_consumptions authorization_id db in
  if negb ((value =? 0) || (value =? 1)) then Raise (RuntimeError "invalid route consumption state") else Ok (value =? 1).

(** [INSERT INTO idempotency_receipts], unique by operation, scope and key. *)
Definition insert_idempotency (operation : Operation) (household_id key : UUID) : I unit :=
  db ← gets (λ db, db);
  _ ← raise_if (_idempotency_exists operation household_id key db) IntegrityError;
  modify (λ db, set_idempotency ((operation, household_id, key) :: idempotency db) db).

Section Routes.
Context `{BS : BudgetServices} `{PS : ParameterServices} `{CN : ConsentServices} `{RT : RouteServices}.

(** ** [SqlRoutePrerequisites] *)

Definition invalidated (what : string) : exn := permission ("route_invalidated:" ++ what).

Definition require_current_subject_authority (household_id : UUID) (subject_id : option UUID) (expected : option Z) : I (option Z) :=
  match subject_id with
  | None => _ ← raise_if (bool_decide (is_Some expected)) (invalidated "subject_authority"); mret None
  | Some subject_id =>
    db ← gets (λ db, db);
    match subject_authority db household_id subject_id expected with
    | Raise CancelledError => raise CancelledError
    | Raise _ => raise (invalidated "subject_authority")
    | Ok generation =>
      _ ← raise_if ((generation <? 1) || match expected with Some x => negb (generation =? x) | None => false end)
            (invalidated "subject_authority");
      mret (Some generation)
    end
  end.

Definition require_current_consent (household_id : UUID) (subject_id : option UUID) (session_id : UUID) (purpose : Purpose)
    (receipt_ids : list UUID) (now : Z) : I unit :=
  db ← gets (λ db, db);
  match (require_exact_in_uow household_id subject_id session_id purpose receipt_ids now db).1 with
  | Ok _ => mret tt
  | Raise (PermissionError msg) =>
    if String.prefix "consent_required:" msg || String.prefix "guest_session_consent_required:" msg
    then raise (permission msg) else raise (invalidated "consent")
  | Raise CancelledError => raise CancelledError
  | Raise _ => raise (invalidated "consent")
  end.

Definition _require_privacy_receipt_in_transaction (receipt_id turn_id : UUID) (now : Z) : I unit :=
  raw ← _select_text_setting (OtherKey ("privacy.receipt." ++ uuid_text receipt_id));
  match (raw : option string) with
  | None => raise (invalidated "privacy")
  | Some raw =>
    match _parse_privacy_receipt raw with
    | None => raise (invalidated "privacy")
    | Some p => raise_if (negb (pv_receipt_id p =? receipt_id) || negb (pv_turn_id p =? turn_id) || (pv_expires_at p <=? now))
                  (invalidated "privacy")
    end
  end.

Definition require_review (provider model : string) (purpose : Purpose) (now : Z) : I unit :=
  match require_current_review provider model (purpose_text purpose) now with
  | Ok _ => mret tt
  | Raise e =>
    match raised e with
    | PermissionError _ | PermissionSubclass _ _ => raise (invalidated "provider_review")
    | e => raise e
    end
  end.

Definition require_provider_review (provider model : string) (purpose : Purpose) (now : Z) : I unit :=
  if bool_decide (provider = "qwen"%string) then raise (invalidated "qwen_activation")
  else require_review provider model purpose now.

Definition require_provider_activation (provider : string) : I (option string) :=
  _ ← raise_if (negb (bool_decide (provider = "openai"%string))) (invalidated "qwen_activation");
  mret None.

Definition _usage_input_units (usage : UsageUnits) : option Z :=
  match usage with
  | LlmUsageUnits input_tokens _ => Some input_tokens
  | SttUsageUnits audio_millis => Some audio_millis
  | TtsUsageUnits characters => Some characters
  | WebSearchUsageUnits _ _ _ => None
  end.

(** The columns of the SELECT, and the usage ceiling of the binding. *)
Definition reservation_matches (b : RouteBinding) (max_input_units : Z) (now : Z) (r : Reservation) : bool :=
  (rv_request_id r =? bn_request_id b) && (rv_attempt_id r =? bn_attempt_id b) &&
  bool_decide (rv_provider r = bn_provider b) && bool_decide (rv_model r = bn_model b) &&
  bool_decide (rv_category r = category_of (bn_purpose b)) && allowed (rv_outcome r) &&
  bool_decide (rv_state r = reserved) && bool_decide (rv_phase r = not_claimed) && (rv_ordering_version r =? 1) &&
  (0 <? rv_reserved r) && bool_decide (is_Some (rv_pricing r)) && bool_decide (rv_charged r = None) &&
  bool_decide (rv_settled_at r = None) && (now <? rv_expires_at r) &&
  bool_decide (usage_category (rv_usage_ceiling r) = category_of (bn_purpose b)) &&
  bool_decide (_usage_input_units (rv_usage_ceiling r) = Some max_input_units).
Definition _require_budget_reservation_in_transaction (reservation_id : UUID) (b : RouteBinding) (max_input_units now : Z) : I unit :=
  db ← gets (λ db, db);
  match reservations (id_budget db) !! reservation_id with
  | Some r => raise_if (negb (reservation_matches b max_input_units now r)) (invalidated "budget_reservation")
  | None => raise (invalidated "budget_reservation")
  end.

Definition _require_active_session_in_transaction (b : RouteBinding) : I unit :=
  db ← gets (λ db, db);
  match sessions db !! bn_session_id b with
  | Some s => raise_if (negb ((ss_household_id s =? bn_household_id b) && bool_decide (ss_state s = "active"%string) &&
                              bool_decide (ss_closed_at s = None) && bool_decide (ss_speaker_subject_id s = bn_subject_id b)))
                (invalidated "turn")
  | None => raise (invalidated "turn")
  end.

Definition _require_runtime_state (e : Envelope) (now : Z) : I unit :=
  let route := ev_route e in
  let b := ra_binding route in
  _ ← _require_active_session_in_transaction b;
  _ ← _require_privacy_receipt_in_transaction (ev_privacy_receipt_id e) (bn_turn_id b) now;
  _ ← raise_if (bool_decide (bn_provider b = "qwen"%string) || bool_decide (is_Some (ev_qwen_activation e))) (invalidated "qwen_activation");
  _ ← require_review (bn_provider b) (bn_model b) (bn_purpose b) now;
  _require_budget_reservation_in_transaction (ra_budget_reservation_id route) b (ra_max_input_units route) now.

(** ** [RouteAuthorizationService] *)

Definition authorization_from_request (r : RouteAuthorizationRequest) (authorization_id : UUID) (expires_at : Z) : RouteAuthorization :=
  mkRoute authorization_id (rr_binding r) (rr_request_commitment r) (rr_max_input_bytes r) (rr_max_input_units r)
    (rr_budget_reservation_id r) (rr_maximum_sensitivity r) expires_at.

Definition backwards : exn := RuntimeError "route authorization clock moved backwards".
Definition expired : exn := permission "route_authorization_expired".

(** [persist_authorization]: the clock is read before and after the last checks. *)
Definition persist_authorization (e : Envelope) (now writer_now persisted_at : Z) : I unit :=
  let route := ev_route e in
  let b := ra_binding route in
  _ ← raise_if (writer_now <? now) backwards;
  _ ← raise_if (ra_expires_at route <=? writer_now) expired;
  _ ← _require_runtime_state e writer_now;
  _ ← raise_if (persisted_at <? writer_now) backwards;
  _ ← raise_if (ra_expires_at route <=? persisted_at) expired;
  db ← gets (λ db, db);
  _ ← raise_if (bool_decide (is_Some (route_settings db !! RouteKey (ra_authorization_id route)))) IntegrityError;
  _ ← modify (with_settings (<[RouteKey (ra_authorization_id route) := OtherValue (canonical_envelope e)]>));
  insert_idempotency provider_route_authorize (bn_household_id b) (bn_attempt_id b).

(** [clock] gives the readings of the consent verifier, the privacy, review and budget checks
    and of the service itself, in this order. *)
Definition authorize (r : RouteAuthorizationRequest) (authorization_id : UUID) (clock : nat → Z) : I RouteAuthorization :=
  let b := rr_binding r in
  unit_of_work (
    db ← gets (λ db, db);
    _ ← raise_if (_idempotency_exists provider_route_authorize (bn_household_id b) (bn_attempt_id b) db)
          (permission "route_authorization_already_issued");
    generation ← require_current_subject_authority (bn_household_id b) (bn_subject_id b) None;
    _ ← require_current_consent (bn_household_id b) (bn_subject_id b) (bn_session_id b) (bn_purpose b) (rr_consent_receipt_ids r) (clock 0%nat);
    _ ← _require_privacy_receipt_in_transaction (rr_privacy_receipt_id r) (bn_turn_id b) (clock 1%nat);
    _ ← require_provider_review (bn_provider b) (bn_model b) (bn_purpose b) (clock 2%nat);
    activation ← require_provider_activation (bn_provider b);
    _ ← _require_budget_reservation_in_transaction (rr_budget_reservation_id r) b (rr_max_input_units r) (clock 3%nat);
    let now := clock 4%nat in
    let route := authorization_from_request r authorization_id (now + _ROUTE_TTL) in
    let e := mkEnvelope route (rr_privacy_receipt_id r) (rr_consent_receipt_ids r) generation activation in
    _ ← raise_if (negb (envelope_ok e)) ValidationError;
    _ ← persist_authorization e now (clock 5%nat) (clock 6%nat);
    mret route).

Definition verified (route : RouteAuthorization) (consumption : RouteConsumption) (now : Z) : I unit :=
  match verify_route_consumption route consumption now with Ok _ => mret tt | Raise e => raise (raised e) end.

Definition persist_consumption (e : Envelope) (consumption : RouteConsumption) (final_now writer_now receipt_now : Z) : I unit :=
  let route := ev_route e in
  _ ← raise_if (writer_now <? final_now) backwards;
  _ ← verified route consumption writer_now;
  _ ← _require_runtime_state e writer_now;
  _ ← raise_if (receipt_now <? writer_now) backwards;
  _ ← verified route consumption receipt_now;
  insert_idempotency provider_route_consume (bn_household_id (ra_binding route)) (ra_authorization_id route).

Definition consume (authorization_id : UUID) (consumption : RouteConsumption) (clock : nat → Z) : I unit :=
  unit_of_work (
    raw ← _select_text_setting (RouteKey authorization_id);
    match (raw : option string) with
    | None => raise (permission "route_authorization_unknown")
    | Some raw =>
      match _parse_persisted_route_envelope raw with
      | None => raise (permission "route_authorization_corrupt")
      | Some e =>
        let route := ev_route e in
        let b := ra_binding route in
        _ ← raise_if (negb (ra_authorization_id route =? authorization_id)) (permission "route_authorization_corrupt");
        db ← gets (λ db, db);
        _ ← raise_if (_idempotency_exists provider_route_consume (bn_household_id b) (ra_authorization_id route) db)
              (permission "route_authorization_consumed");
        _ ← verified route consumption (clock 0%nat);
        _ ← require_current_subject_authority (bn_household_id b) (bn_subject_id b) (ev_subject_authority_generation e);
        _ ← require_current_consent (bn_household_id b) (bn_subject_id b) (bn_session_id b) (bn_purpose b)
              (ev_consent_receipt_ids e) (clock 1%nat);
        _ ← verified route consumption (clock 2%nat);
        persist_consumption e consumption (clock 2%nat) (clock 3%nat) (clock 4%nat)
      end
    end).

(** ** Revocation *)

(** The rows of the SELECT: the texts SQLite sees this subject and purpose in. *)
Definition route_row (subject_id : UUID) (purpose : Purpose) (p : SettingKey * SettingValue) : option (UUID * string) :=
  match p with
  | (RouteKey id, OtherValue raw) =>
    if bool_decide (json_route_subject_id raw = Some subject_id) && bool_decide (json_route_purpose raw = Some purpose)
    then Some (id, raw) else None
  | _ => None
  end.
Definition key_le (p q : UUID * string) : Prop := p.1 ≤ q.1.
#[export] Instance key_le_dec p q : Decision (key_le p q).
Proof. unfold key_le. apply _. Defined.
Definition route_rows (subject_id : UUID) (purpose : Purpose) (db : IdentityDB) : list (UUID * string) :=
  merge_sort key_le (omap (route_row subject_id purpose) (map_to_list (route_settings db))).

Definition delete_route (id : UUID) : I unit :=
  db ← gets (λ db, db);
  _ ← raise_if (negb (bool_decide (is_Some (route_settings db !! RouteKey id))))
        (RuntimeError "route authorization revocation lost ownership");
  modify (with_settings (delete (RouteKey id))).

(** A row that is not the envelope of its key goes, unless the key was consumed. *)
Definition invalidate_foreign (id : UUID) : I (list UUID) :=
  db ← gets (λ db, db);
  consumed ← lift (_consumption_exists_any_scope id db);
  if consumed : bool then mret [] else _ ← delete_route id; mret [id].

Definition invalidate_own (subject_id : UUID) (purpose : Purpose) (id : UUID) (e : Envelope) : I (list UUID) :=
  let route := ev_route e in
  let b := ra_binding route in
  db ← gets (λ db, db);
  if negb (bool_decide (bn_subject_id b = Some subject_id)) || negb (bool_decide (bn_purpose b = purpose)) then mret []
  else if _idempotency_exists provider_route_consume (bn_household_id b) (ra_authorization_id route) db then mret []
  else _ ← delete_route id; mret [ra_authorization_id route].

(** The loop body of [invalidate_batch]. *)
Definition invalidate_row (subject_id : UUID) (purpose : Purpose) (row : UUID * string) : I (list UUID) :=
  let '(id, raw) := row in
  match _parse_persisted_route_envelope raw with
  | None => invalidate_foreign id
  | Some e => if negb (ra_authorization_id (ev_route e) =? id) then invalidate_foreign id
              else invalidate_own subject_id purpose id e
  end.

Fixpoint invalidate_each (step : UUID * string → I (list UUID)) (rows : list (UUID * string)) : I (list UUID) :=
  match rows with
  | [] => mret []
  | row :: rows => ids ← step row; rest ← invalidate_each step rows; mret (ids ++ rest)
  end.

Definition after (cursor : option UUID) (p : UUID * string) : bool :=
  match cursor with Some id => id <? p.1 | None => true end.

(** [invalidate_batch]: the next cursor, the revoked ids and the number of rows. *)
Definition invalidate_batch (subject_id : UUID) (purpose : Purpose) (cursor : option UUID) : I (option UUID * list UUID * nat) :=
  db ← gets (λ db, db);
  let rows := take _REVOCATION_SCAN_BATCH_SIZE (filter (λ p, after cursor p = true) (route_rows subject_id purpose db)) in
  ids ← invalidate_each (invalidate_row subject_id purpose) rows;
  mret (match last rows with Some (id, _) => Some id | None => cursor end, ids, length rows).

(** The [while True], for at most [batches] batches. *)
Fixpoint invalidate_batches (batches : nat) (subject_id : UUID) (purpose : Purpose) (cursor : option UUID) (revoked : list UUID) :
    I (list UUID) :=
  match batches with
  | O => raise (RuntimeError "unfinished")
  | S batches =>
    r ← invalidate_batch subject_id purpose cursor;
    let '(cursor, ids, scanned) := r in
    if bool_decide (scanned < _REVOCATION_SCAN_BATCH_SIZE)%nat then mret (revoked ++ ids)
    else invalidate_batches batches subject_id purpose cursor (revoked ++ ids)
  end.

Definition invalidate_subject_purpose_in_uow (subject_id : UUID) (purpose : Purpose) : I (list UUID) :=
  db ← gets (λ db, db);
  invalidate_batches (S (length (route_rows subject_id purpose db))) subject_id purpose None [].

(** [SqlProviderRouteAuthorityRevocation]: all rows at once, and without the test of the key. *)
Definition invalidate_row_at_once (subject_id : UUID) (purpose : Purpose) (row : UUID * string) : I (list UUID) :=
  let '(id, raw) := row in
  match _parse_persisted_route_envelope raw with
  | None => invalidate_foreign id
  | Some e => invalidate_own subject_id purpose id e
  end.
Definition invalidate_at_once (subject_id : UUID) (purpose : Purpose) : I (list UUID) :=
  db ← gets (λ db, db);
  invalidate_each (invalidate_row_at_once subject_id purpose) (route_rows subject_id purpose db).
End Routes.
