(* ===== verification/Profiles.v ===== *)
(** * Profiles: the members of a household and the end of their authority

    [services/identity/profiles.py] and [services/identity/current_owner.py] over the rows of
    [Identity]; the handlers a revoked profile runs through in its unit of work
    ([services/identity/subject_revocation.py]) and those of a revoked consent
    ([ConsentRevocationCascade] of [services/identity/consent.py] and
    [services/identity/revocation_handlers.py]), as [bootstrap/container.py] wires them.
    [audit k] is what the audit ledger answers to the k-th draft of an operation. *)

From stdpp Require Import sorting pretty.
From S2P Require Import Prelude PttFraming BudgetPricing BudgetLedger BudgetGuard ProviderCalls Outbox Identity Consent Routes.

#[local] Abbreviation I := (M IdentityDB exn).

(** ** Data *)

Record CreateProfile := mkCreateProfile {
  cp_household_id : UUID;
  cp_subject_id : UUID;
  cp_profile_class : ProfileClass;
  cp_guardian_id : option UUID;
  cp_display_label : string;
  cp_action_binding : ActionBinding;
}.
Record RevokeProfile := mkRevokeProfile {
  rp_subject_id : UUID;
  rp_expected_version : Z;
  rp_action_binding : ActionBinding;
}.
Record UpdatePersonaTraits := mkUpdatePersona {
  up_subject_id : UUID;
  up_actor_id : UUID;
  up_target_profile_class : ProfileClass;
  up_traits : option PersonaTraits;
  up_expected_version : Z;
  up_guardian_generation : option Z;
  up_action_binding : ActionBinding;
}.

Record ProfileProjection := mkProjection {
  pj_subject_id : option UUID;
  pj_profile_class : ProfileClass;
  pj_may_retrieve_private_memory : bool;
}.
Definition GUEST_PROJECTION : ProfileProjection := mkProjection None guest false.
(** A persona's role is the class it is for. *)
Definition GUEST_PERSONA_PROJECTION : ProfileClass * PersonaTraits := (guest, mkTraits "general" "neutral" "brief" "none").
Definition _DEFAULT_PERSONA (c : ProfileClass) : PersonaTraits :=
  if is_child c then mkTraits "early_learning" "warm" "brief" (profile_class_text c) else mkTraits "general" "neutral" "standard" "none".

Definition profile_create_parameters (c : CreateProfile) : list (string * parameter) :=
  [("display_label", PText (cp_display_label c)); ("guardian_generation", PInt (if is_set (cp_guardian_id c) then 1 else 0));
   ("guardian_id", nullable PId (cp_guardian_id c)); ("household_id", PId (cp_household_id c));
   ("profile_class", PText (profile_class_text (cp_profile_class c))); ("subject_id", PId (cp_subject_id c))]%string.
Definition profile_persona_parameters (c : UpdatePersonaTraits) : list (string * parameter) :=
  [("clear_persona_traits", PBool (negb (is_set (up_traits c)))); ("expected_version", PInt (up_expected_version c));
   ("guardian_generation", nullable PInt (up_guardian_generation c)); ("persona_traits", nullable PTraits (up_traits c));
   ("subject_id", PId (up_subject_id c)); ("target_profile_class", PText (profile_class_text (up_target_profile_class c)))]%string.
Definition profile_revoke_parameters (c : RevokeProfile) : list (string * parameter) :=
  [("expected_version", PInt (rp_expected_version c)); ("subject_id", PId (rp_subject_id c))]%string.

(** [ProfileCryptoPort], and [CapabilityStagePort]: whether a family's tables are absent. *)
Class ProfileServices := {
  seal_display_label : UUID → UUID → Z → string → list byte;
  seal_traits : UUID → UUID → Z → PersonaTraits → list byte;
  open_traits : UUID → UUID → Z → list byte → result exn PersonaTraits;
  require_schema_and_facade_absent_in_uow : string → string → result exn unit;
}.

(** ** Statements *)

(** [SqlProfileRepository.insert]: the primary key, the foreign key and the CHECKs. *)
Definition insert_profile (id : UUID) (p : Profile) : I unit :=
  db ← gets (λ db, db);
  _ ← raise_if (is_set (subjects db !! id) ||
                match pf_guardian_id p with Some g => negb ((g =? id) || is_set (subjects db !! g)) | None => false end ||
                negb (negb (pf_active p) || bool_decide (pf_revoked_at p = None)) ||
                negb (is_child (pf_profile_class p) || (pf_guardian_generation p =? 0)) ||
                (bool_decide (pf_profile_class p = owner) && pf_active p &&
                 existsb (λ q : UUID * Profile, (pf_household_id q.2 =? pf_household_id p) &&
                                 bool_decide (pf_profile_class q.2 = owner) && pf_active q.2) (map_to_list (subjects db))))
        IntegrityError;
  modify (λ db, set_subjects (<[id := p]> (subjects db)) db).

Definition stale_profile_version : exn := RuntimeError "stale_profile_version".

(** [UPDATE subjects SET ... WHERE id=? AND ... RETURNING *]. *)
Definition update_profile (id : UUID) (guard : Profile → bool) (f : Profile → Profile) : I Profile :=
  row ← gets (λ db, subjects db !! id);
  match (row : option Profile) with
  | Some p =>
    if guard p then
      _ ← modify (λ db, set_subjects (<[id := f p]> (subjects db)) db);
      _ ← raise_if (negb (profile_ok (f p))) ValidationError;
      mret (f p)
    else raise stale_profile_version
  | None => raise stale_profile_version
  end.

Definition update_persona_expected_version (id : UUID) (expected_version : Z) (traits : option (list byte)) : I Profile :=
  update_profile id (λ p, (pf_version p =? expected_version) && pf_active p) (λ p,
    mkProfile (pf_household_id p) (pf_guardian_id p) (pf_guardian_generation p) (pf_profile_class p) (pf_encrypted_display_label p)
      traits (pf_current_consent_receipt_ids p) (pf_active p) (pf_authority_generation p) (pf_version p + 1)
      (pf_next_reenrollment_reminder_at p) (pf_revoked_at p)).
Definition revoke_and_advance_authority_generation_expected_version (id : UUID) (expected_version current_generation now : Z) :
    I Profile :=
  update_profile id (λ p, (pf_version p =? expected_version) && (pf_authority_generation p =? current_generation) && active p) (λ p,
    mkProfile (pf_household_id p) (pf_guardian_id p) (pf_guardian_generation p) (pf_profile_class p) (pf_encrypted_display_label p)
      (pf_encrypted_persona_traits p) (pf_current_consent_receipt_ids p) false (pf_authority_generation p + 1) (pf_version p + 1)
      (pf_next_reenrollment_reminder_at p) (Some now)).

(** [SqlConsentReceiptRepository.revoke_subject_authorities_in_uow]. *)
Definition revoke_subject_consents (subject_id : UUID) (now : Z) : I unit :=
  modify (λ db, set_consents (update_where
    (λ r, (cr_subject_id r =? subject_id) && cr_granted r &&
          match cr_expires_at r with Some expires_at => now <? expires_at | None => true end)
    (λ r, mkConsent (cr_household_id r) (cr_subject_id r) (cr_actor_id r) (cr_guardian_id r) (cr_guardian_generation r) (cr_purpose r)
            (cr_granted r) (cr_policy_version r) (cr_disclosure_version r) (cr_commitment_key_id r) (cr_receipt_hmac r)
            (cr_created_at r) (Some now)) (consent_receipts db)) db).

(** The enrollments of a subject, of one modality or of all, that are not closed yet. *)
Definition pending_enrollment (subject_id : UUID) (modality : option Modality) (e : EnrollmentRow) : bool :=
  (en_subject_id e =? subject_id) && match modality with Some m => bool_decide (en_modality e = m) | None => true end &&
  bool_decide (en_closed_at e = None) && bool_decide (en_state e ∈ [en_requested; en_capturing; en_calibrating]).
Definition with_state (state : EnrollmentState) (closed_at : option Z) (e : EnrollmentRow) : EnrollmentRow :=
  mkEnrollment (en_subject_id e) (en_modality e) state (en_auth_receipt_id e) (en_consent_receipt_id e) (en_reenrollment_days e)
    (en_created_at e) (en_expires_at e) (en_synthetic_template_id e) closed_at.
Definition cancel_enrollments (subject_id : UUID) (modality : option Modality) (now : Z) : I unit :=
  modify (λ db, set_enrollments (update_where (pending_enrollment subject_id modality) (with_state en_cancelled (Some now))
    (enrollments db)) db).

(** [_revoke_subject_modality]: the templates it revoked, by id. *)
Definition live_template (subject_id : UUID) (modality : option Modality) (t : TemplateRow) : bool :=
  (tp_subject_id t =? subject_id) && match modality with Some m => bool_decide (tp_modality t = m) | None => true end &&
  bool_decide (tp_revoked_at t = None).
Definition revoked_template (now : Z) (t : TemplateRow) : TemplateRow :=
  mkTemplate (tp_enrollment_session_id t) (tp_subject_id t) (tp_modality t) (tp_model_version t) (tp_consent_receipt_id t) (tp_created_at t)
    (Some match tp_expires_at t with Some expires_at => if now <? expires_at then now else expires_at | None => now end) (Some now).
Definition _revoke_subject_modality (subject_id : UUID) (modality : option Modality) (now : Z) : I (list UUID) :=
  db ← gets (λ db, db);
  _ ← modify (λ db, set_templates (update_where (live_template subject_id modality) (revoked_template now) (templates db)) db);
  mret (merge_sort Z.le (filter (λ p, live_template subject_id modality p.2 = true) (map_to_list (templates db))).*1).

Section Profiles.
Context `{BS : BudgetServices} `{PS : ParameterServices} `{CN : ConsentServices} `{RT : RouteServices} `{PR : ProfileServices}.

(** ** Cascades *)

(** [BiometricConsentRevocationHandler.apply_in_uow]. *)
Fixpoint audit_each {A} (drafts : list A) (k : nat) (audit : nat → result exn unit) : I unit :=
  match drafts with
  | [] => mret tt
  | _ :: drafts => _ ← lift (audit k); audit_each drafts (S k) audit
  end.
Definition revoke_biometric_consent (subject_id : UUID) (modality : Modality) (now : Z) (audit : nat → result exn unit) : I nat :=
  _ ← cancel_enrollments subject_id (Some modality) now;
  revoked ← _revoke_subject_modality subject_id (Some modality) now;
  _ ← invalidate_identity_subject subject_id now;
  _ ← audit_each revoked 0 audit;
  mret (length revoked).

(** [ConsentRevocationCascade.apply_in_uow] with the handlers of the container; the event is
    audited last. *)
Definition revoke_consent_cascade (audit : nat → result exn unit) (r : ConsentReceipt) (now : Z) : I unit :=
  let routes purpose := _ ← invalidate_at_once (cr_subject_id r) purpose; mret 0%nat in
  drafts ← match cr_purpose r with
           | FACE => revoke_biometric_consent (cr_subject_id r) face now audit
           | VOICE => revoke_biometric_consent (cr_subject_id r) voice now audit
           | CLOUD_STT => routes cloud_stt
           | CLOUD_REASONING => routes cloud_reasoning
           | CLOUD_TTS => routes cloud_tts
           | PERSONALIZATION | WEB_SEARCH | CHILD_DURABLE_MEMORY => mret 0%nat
           end;
  lift (audit (drafts : nat)).

(** [SubjectAuthorityRevocationCascade.apply_in_uow], the families in their order. *)
Definition revoke_subject_cascade (subject_id : UUID) (current revoked : Profile) (now : Z) (event_id : UUID) : I unit :=
  _ ← raise_if (negb (pf_authority_generation revoked =? pf_authority_generation current + 1))
        (RuntimeError "subject_authority_generation_not_advanced");
  _ ← invalidate_identity_subject subject_id now;
  _ ← revoke_subject_consents subject_id now;
  _ ← cancel_enrollments subject_id None now;
  _ ← _revoke_subject_modality subject_id None now;
  _ ← invalidate_at_once subject_id cloud_stt;
  _ ← invalidate_at_once subject_id cloud_reasoning;
  _ ← invalidate_at_once subject_id cloud_tts;
  _ ← lift (require_schema_and_facade_absent_in_uow "search_capabilities" "search_0001_experimental_search");
  _ ← lift (require_schema_and_facade_absent_in_uow "action_authorities" "0003_authentication");
  _ ← lift (require_schema_and_facade_absent_in_uow "memory_authorities" "0004_memory");
  _ ← in_revocations (enqueue_in_uow event_id
        ("subject-revoked:" ++ uuid_text subject_id ++ ":" ++ pretty (pf_authority_generation revoked)) subject_id
        (pf_authority_generation revoked) now);
  mret tt.

(** ** [ProfileService] *)

Definition require_fresh_passkey (auth : AuthContext) (binding : ActionBinding) (now : Z) : result exn unit :=
  _ ← reject_if (negb (bool_decide (au_assurance_source auth = passkey))) (permission "passkey_binding_required");
  _ ← require_exact (au_binding auth) binding;
  let age := now - au_consumed_at auth in
  reject_if ((age <? 0) || (120_000_000 <? age)) (permission "fresh_passkey_required").

(** The owner's generation, or a PermissionError of the caller's. *)
Definition owner_or (msg : string) (household_id guardian_id : UUID) : I Z := λ db,
  match require_current_owner_guardian_generation household_id guardian_id db with
  | (Raise (PermissionError _), db') => (Raise (permission msg), db')
  | answer => answer
  end.

Definition _guardian_generation_for_create (c : CreateProfile) (actor_id : UUID) : I Z :=
  match cp_profile_class c with
  | owner | adult =>
    _ ← raise_if (is_set (cp_guardian_id c)) (permission "adult_profile_guardian_forbidden");
    _ ← owner_or "current_owner_authority_required" (cp_household_id c) actor_id;
    mret 0
  | k2 | n1 =>
    _ ← raise_if (negb (bool_decide (cp_guardian_id c = Some actor_id))) (permission "current_owner_guardian_required");
    require_current_owner_guardian_generation (cp_household_id c) actor_id
  | guest => raise (permission "ordinary_profile_create_owner_forbidden")
  end.

Definition create (c : CreateProfile) (auth : AuthContext) (now : Z) (audit : nat → result exn unit) : I Profile :=
  unit_of_work (
    _ ← raise_if (negb (bool_decide (cp_profile_class c ∈ [adult; k2; n1]))) (permission "ordinary_profile_create_owner_forbidden");
    _ ← lift (require_fresh_passkey auth (cp_action_binding c) now);
    _ ← lift (require_parameters (cp_action_binding c) "profile.create" "profile" (Some (cp_subject_id c)) (au_subject_id auth)
                (profile_create_parameters c));
    _ ← raise_if (negb (ab_household_id (cp_action_binding c) =? cp_household_id c)) (permission "profile_create_household_mismatch");
    match au_subject_id auth with
    | None => raise (permission "current_owner_authority_required")
    | Some actor_id =>
      guardian_generation ← _guardian_generation_for_create c actor_id;
      let p := mkProfile (cp_household_id c) (cp_guardian_id c) guardian_generation (cp_profile_class c)
                 (seal_display_label (cp_household_id c) (cp_subject_id c) 1 (cp_display_label c)) None [] true 1 1 None None in
      _ ← raise_if (negb (profile_ok p)) ValidationError;
      _ ← insert_profile (cp_subject_id c) p;
      _ ← lift (audit 0%nat);
      mret p
    end).

Definition get_projection (household_id : UUID) (subject_id : option UUID) : I ProfileProjection :=
  match subject_id with
  | None => mret GUEST_PROJECTION
  | Some id =>
    p ← get_optional_scoped household_id id;
    mret match (p : option Profile) with
         | Some p => if active p then mkProjection (Some id) (pf_profile_class p) false else GUEST_PROJECTION
         | None => GUEST_PROJECTION
         end
  end.

Definition current_policy_class_in_uow (household_id : UUID) (subject_id : option UUID) : I ProfileClass :=
  match subject_id with
  | None => mret guest
  | Some id =>
    p ← get_optional_scoped household_id id;
    mret match (p : option Profile) with Some p => if active p then pf_profile_class p else guest | None => guest end
  end.

Definition require_current_active_in_uow (household_id subject_id : UUID) : I Profile :=
  p ← get_scoped household_id subject_id;
  _ ← raise_if (negb (active p)) (permission "current_active_subject_required");
  mret p.

Definition _require_valid_traits (c : ProfileClass) (t : PersonaTraits) : I unit :=
  match c with
  | owner | adult => raise_if (negb (bool_decide (pt_learning_level t = "none"%string))) (permission "adult_persona_learning_level_invalid")
  | _ => raise_if (negb (bool_decide (pt_context t = "early_learning"%string) && bool_decide (pt_tone t ∈ ["neutral"; "warm"]%string) &&
                         bool_decide (pt_depth t ∈ ["brief"; "standard"]%string) && bool_decide (pt_learning_level t = profile_class_text c)))
           (permission "child_persona_traits_invalid")
  end.

(** The traits a persona shows: the stored ones only under a consent in force. *)
Definition get_persona_projection (household_id : UUID) (subject_id : option UUID) (now : Z) : I (ProfileClass * PersonaTraits) :=
  match subject_id with
  | None => mret GUEST_PERSONA_PROJECTION
  | Some id =>
    found ← get_optional_scoped household_id id;
    match (found : option Profile) with
    | Some p =>
      if active p then
        db ← gets (λ db, db);
        traits ← match (require_current_in_uow id PERSONALIZATION now db).1 with
                 | Raise (ConsentDenied _) => mret (_DEFAULT_PERSONA (pf_profile_class p))
                 | Raise e => raise e
                 | Ok _ =>
                   match pf_encrypted_persona_traits p with
                   | None => mret (_DEFAULT_PERSONA (pf_profile_class p))
                   | Some sealed => lift (open_traits (pf_household_id p) id (pf_version p) sealed)
                   end
                 end;
        _ ← _require_valid_traits (pf_profile_class p) traits;
        mret (pf_profile_class p, traits)
      else mret GUEST_PERSONA_PROJECTION
    | None => mret GUEST_PERSONA_PROJECTION
    end
  end.

Definition _require_persona_authority (p : Profile) (c : UpdatePersonaTraits) : I unit :=
  match pf_profile_class p with
  | owner | adult => raise_if (negb (up_actor_id c =? up_subject_id c) || is_set (up_guardian_generation c))
                       (permission "profile_persona_subject_authority_required")
  | k2 | n1 => raise_if (negb (bool_decide (pf_guardian_id p = Some (up_actor_id c))) ||
                         negb (bool_decide (Some (pf_guardian_generation p) = up_guardian_generation c)))
                 (permission "profile_persona_guardian_authority_required")
  | guest => raise (permission "profile_persona_subject_authority_required")
  end.

Definition update_persona_traits (c : UpdatePersonaTraits) (auth : AuthContext) (now : Z) (audit : nat → result exn unit) : I Profile :=
  unit_of_work (
    _ ← lift (require_parameters (up_action_binding c) "profile.edit" "profile" (Some (up_subject_id c)) (Some (up_actor_id c))
                (profile_persona_parameters c));
    _ ← lift (require_fresh_passkey auth (up_action_binding c) now);
    _ ← raise_if (negb (bool_decide (au_subject_id auth = Some (up_actor_id c)))) (permission "authenticated_actor_mismatch");
    p ← get_profile (up_subject_id c);
    _ ← raise_if (negb (pf_household_id p =? ab_household_id (up_action_binding c))) (permission "profile_persona_household_mismatch");
    _ ← raise_if (negb (bool_decide (pf_profile_class p = up_target_profile_class c))) (permission "profile_persona_target_class_changed");
    _ ← _require_persona_authority p c;
    sealed ← match up_traits c with
             | Some t =>
               _ ← require_current_in_uow (up_subject_id c) PERSONALIZATION now;
               _ ← _require_valid_traits (pf_profile_class p) t;
               mret (Some (seal_traits (pf_household_id p) (up_subject_id c) (up_expected_version c + 1) t))
             | None => mret None
             end;
    updated ← update_persona_expected_version (up_subject_id c) (up_expected_version c) sealed;
    _ ← lift (audit 0%nat);
    mret updated).

Definition _require_revoke_authority (subject_id : UUID) (p : Profile) (actor_id : UUID) : I unit :=
  match pf_profile_class p with
  | owner | adult =>
    if actor_id =? subject_id then mret tt
    else _ ← owner_or "profile_revoke_authority_required" (pf_household_id p) actor_id; mret tt
  | k2 | n1 =>
    _ ← raise_if (negb (bool_decide (pf_guardian_id p = Some actor_id))) (permission "profile_revoke_authority_required");
    generation ← owner_or "profile_revoke_authority_required" (pf_household_id p) actor_id;
    raise_if (negb (generation =? pf_guardian_generation p)) (permission "profile_revoke_authority_required")
  | guest => raise (permission "profile_revoke_authority_required")
  end.

(** [revoke]; [event_id] is the uuid4 of the queued event. *)
Definition revoke_profile (c : RevokeProfile) (auth : AuthContext) (now : Z) (event_id : UUID) (audit : nat → result exn unit) :
    I Profile :=
  unit_of_work (
    _ ← lift (require_fresh_passkey auth (rp_action_binding c) now);
    _ ← lift (require_parameters (rp_action_binding c) "profile.revoke" "profile" (Some (rp_subject_id c)) (au_subject_id auth)
                (profile_revoke_parameters c));
    current ← get_profile (rp_subject_id c);
    _ ← raise_if (negb (pf_household_id current =? ab_household_id (rp_action_binding c))) (permission "profile_revoke_household_mismatch");
    _ ← raise_if (negb (active current)) (permission "current_active_subject_required");
    _ ← raise_if (bool_decide (pf_profile_class current = owner)) (permission "current_owner_replacement_transaction_required");
    match au_subject_id auth with
    | None => raise (permission "profile_revoke_authority_required")
    | Some actor_id =>
      _ ← _require_revoke_authority (rp_subject_id c) current actor_id;
      revoked ← revoke_and_advance_authority_generation_expected_version (rp_subject_id c) (rp_expected_version c)
                  (pf_authority_generation current) now;
      _ ← revoke_subject_cascade (rp_subject_id c) current revoked now event_id;
      _ ← lift (audit 0%nat);
      mret revoked
    end).

(** ** [CurrentOwnerAuthorityRepository] *)

Definition require_exact_owner (household_id subject_id : UUID) (owner_generation profile_version : Z) : I unit :=
  db ← gets (λ db, db);
  match owners db !! household_id, subjects db !! subject_id with
  | Some o, Some p =>
    raise_if (negb ((ow_subject_id o =? subject_id) && (pf_household_id p =? household_id) &&
                    (ow_owner_generation o =? owner_generation) && (pf_version p =? profile_version) && active p &&
                    bool_decide (pf_profile_class p = owner))) (permission "current_owner_authority_required")
  | _, _ => raise (permission "current_owner_authority_required")
  end.

Definition install_in_uow (household_id subject_id : UUID) (owner_generation : Z) : I unit :=
  db ← gets (λ db, db);
  match subjects db !! subject_id with
  | None => raise (permission "current_owner_authority_required")
  | Some p =>
    _ ← raise_if (negb ((pf_household_id p =? household_id) && bool_decide (pf_profile_class p = owner) && active p))
          (permission "current_owner_authority_required");
    _ ← match owners db !! household_id with
        | Some o => raise_if (owner_generation <=? ow_owner_generation o) (permission "current_owner_generation_not_monotonic")
        | None => mret tt
        end;
    _ ← raise_if ((owner_generation <? 1) ||
                  existsb (λ q : UUID * OwnerAuthority, negb (q.1 =? household_id) && (ow_subject_id q.2 =? subject_id))
                    (map_to_list (owners db))) IntegrityError;
    modify (λ db, set_owners (<[household_id := mkOwner subject_id owner_generation]> (owners db)) db)
  end.
End Profiles.
