(* ===== verification/Enrollment.v ===== *)
(** * Enrollment: from a request to an approved biometric template

    [services/identity/enrollment.py] over [SqlEnrollmentRepository] and
    [SqlBiometricTemplateRepository]: a session is requested under a fresh passkey of the owner
    and a consent in force, captured, calibrated and approved, unless it is cancelled.  A
    template of a child expires after a year.  The session a method returns is the row with its
    subject; the hard expiry of the template, which only audits read, is left out. *)

From stdpp Require Import sorting.
From S2P Require Import Prelude PttFraming BudgetPricing BudgetLedger BudgetGuard ProviderCalls Outbox Identity Consent Routes Profiles.

#[local] Abbreviation I := (M IdentityDB exn).

Definition _ENROLLMENT_SESSION_TTL : Z := 30 * 60_000_000.
Definition _CHILD_BIOMETRIC_HARD_EXPIRY : Z := 365 * 86_400_000_000.

Record RequestEnrollment := mkRequestEnrollment {
  re_subject_id : UUID;
  re_modality : Modality;
  re_expected_profile_version : Z;
  re_expected_consent_receipt_id : UUID;
  re_action_binding : ActionBinding;
  re_reenrollment_days : Z;
}.
Record CancelEnrollment := mkCancelEnrollment {
  ce_subject_id : UUID;
  ce_enrollment_id : UUID;
  ce_action_binding : ActionBinding;
}.

Definition enrollment_request_parameters (c : RequestEnrollment) : list (string * parameter) :=
  [("expected_consent_receipt_id", PId (re_expected_consent_receipt_id c));
   ("expected_profile_version", PInt (re_expected_profile_version c)); ("modality", PText (modality_text (re_modality c)));
   ("reenrollment_days", PInt (re_reenrollment_days c)); ("subject_id", PId (re_subject_id c))]%string.
Definition enrollment_cancel_parameters (c : CancelEnrollment) : list (string * parameter) :=
  [("enrollment_id", PId (ce_enrollment_id c)); ("subject_id", PId (ce_subject_id c))]%string.

Definition enrollment_denied (msg : string) : exn := RuntimeError msg.

(** ** [SqlEnrollmentRepository] *)

(** A row and the subject it joins. *)
Definition EnrollmentSession : Type := EnrollmentRow * Profile.
Definition _select_enrollment (id : UUID) (db : IdentityDB) : option EnrollmentSession :=
  e ← enrollments db !! id; p ← subjects db !! en_subject_id e; Some (e, p).

(** [_select_enrollment] and [_enrollment_from_row] after a write, or the lost row. *)
Definition returned (id : UUID) (lost : string) : I EnrollmentSession :=
  row ← gets (_select_enrollment id);
  match (row : option EnrollmentSession) with Some s => mret s | None => raise (RuntimeError lost) end.
Definition put_enrollment (id : UUID) (e : EnrollmentRow) : I unit :=
  modify (λ db, set_enrollments (<[id := e]> (enrollments db)) db).

Definition create_enrollment (c : RequestEnrollment) (auth : AuthContext) (consent_receipt_id : UUID) (now expires_at : Z)
    (synthetic_template_id enrollment_id : UUID) : I unit :=
  match au_grant_id auth with
  | None => raise (RuntimeError "enrollment_auth_receipt_required")
  | Some grant_id =>
    db ← gets (λ db, db);
    _ ← raise_if (is_set (enrollments db !! enrollment_id) || negb (is_set (subjects db !! re_subject_id c)) ||
                  negb (is_set (consent_receipts db !! consent_receipt_id)) || negb (between 30 (re_reenrollment_days c) 365) ||
                  existsb (λ p : UUID * EnrollmentRow, bool_decide (en_synthetic_template_id p.2 = Some synthetic_template_id))
                    (map_to_list (enrollments db))) IntegrityError;
    put_enrollment enrollment_id (mkEnrollment (re_subject_id c) (re_modality c) en_requested grant_id consent_receipt_id
      (re_reenrollment_days c) now expires_at (Some synthetic_template_id) None)
  end.

Definition require_for_update (enrollment_id : UUID) : I EnrollmentSession :=
  row ← gets (_select_enrollment enrollment_id);
  match (row : option EnrollmentSession) with Some s => mret s | None => raise KeyError end.

Definition _transition_state (id : UUID) (from_state to_state : EnrollmentState) (lost : string) : I EnrollmentSession :=
  row ← gets (_select_enrollment id);
  match (row : option EnrollmentSession) with
  | None => raise (RuntimeError lost)
  | Some (e, _) =>
    _ ← raise_if (is_set (en_closed_at e) || negb (bool_decide (en_state e = from_state))) (RuntimeError lost);
    _ ← raise_if (negb (is_set (en_synthetic_template_id e))) (RuntimeError "enrollment_expected_template_required");
    _ ← put_enrollment id (with_state to_state (en_closed_at e) e);
    returned id lost
  end.
Definition begin_capture (id : UUID) : I EnrollmentSession :=
  _transition_state id en_requested en_capturing "enrollment_capture_transition_lost_ownership".
Definition mark_calibrating (id : UUID) : I EnrollmentSession :=
  _transition_state id en_capturing en_calibrating "enrollment_calibration_transition_lost_ownership".

Definition cancel_pending (id : UUID) (now : Z) : I EnrollmentSession :=
  let lost := "enrollment_cancel_lost_ownership"%string in
  row ← gets (λ db, enrollments db !! id);
  match (row : option EnrollmentRow) with
  | None => raise (RuntimeError lost)
  | Some e =>
    _ ← raise_if (negb (pending_enrollment (en_subject_id e) None e)) (RuntimeError lost);
    _ ← put_enrollment id (with_state en_cancelled (Some now) e);
    returned id lost
  end.

(** The template of a session, not expired and not revoked. *)
Definition linkable (enrollment_id : UUID) (e : EnrollmentRow) (t : TemplateRow) : bool :=
  bool_decide (tp_enrollment_session_id t = Some enrollment_id) && (tp_subject_id t =? en_subject_id e) &&
  bool_decide (tp_modality t = en_modality e) && (tp_consent_receipt_id t =? en_consent_receipt_id e) &&
  bool_decide (tp_expires_at t = None) && bool_decide (tp_revoked_at t = None).

Definition set_reminder (reminder : option Z) (p : Profile) : Profile :=
  mkProfile (pf_household_id p) (pf_guardian_id p) (pf_guardian_generation p) (pf_profile_class p) (pf_encrypted_display_label p)
    (pf_encrypted_persona_traits p) (pf_current_consent_receipt_ids p) (pf_active p) (pf_authority_generation p) (pf_version p)
    reminder (pf_revoked_at p).
Definition expiring (expires_at : option Z) (t : TemplateRow) : TemplateRow :=
  mkTemplate (tp_enrollment_session_id t) (tp_subject_id t) (tp_modality t) (tp_model_version t) (tp_consent_receipt_id t) (tp_created_at t)
    expires_at (tp_revoked_at t).

(** [_approve]: the row, the reminder of a child and the link of the template. *)
Definition approve (id : UUID) (template_ids : list UUID) (reminder_at hard_expires_at : option Z) (now : Z) : I EnrollmentSession :=
  let lost := RuntimeError "enrollment_approval_lost_ownership" in
  row ← gets (_select_enrollment id);
  match (row : option EnrollmentSession) with
  | None => raise lost
  | Some (e, p) =>
    _ ← raise_if (negb (bool_decide (en_state e = en_calibrating))) lost;
    match en_synthetic_template_id e with
    | None => raise lost
    | Some expected =>
      _ ← raise_if (negb (bool_decide (template_ids = [expected]))) lost;
      template ← gets (λ db, templates db !! expected);
      match (template : option TemplateRow) with
      | None => raise lost
      | Some t =>
        _ ← raise_if (negb (linkable id e t)) lost;
        _ ← raise_if (is_set (en_closed_at e)) lost;
        _ ← put_enrollment id (with_state en_approved (Some now) e);
        _ ← match reminder_at with
            | Some _ =>
              _ ← raise_if (negb (is_child (pf_profile_class p) && active p))
                    (RuntimeError "child_reenrollment_profile_update_lost_ownership");
              modify (λ db, set_subjects (<[en_subject_id e := set_reminder reminder_at p]> (subjects db)) db)
            | None => mret tt
            end;
        _ ← modify (λ db, set_templates (<[expected := expiring hard_expires_at t]> (templates db)) db);
        returned id "enrollment_approval_lost_ownership"
      end
    end
  end.

(** ** [SqlBiometricTemplateRepository] *)

Definition template_mismatch : exn := RuntimeError "biometric_template_scope_mismatch".
Definition require_ready_for_approval (template_ids : list UUID) (enrollment_id expected household_id : UUID) (e : EnrollmentRow) : I unit :=
  _ ← raise_if (negb (bool_decide (template_ids = [expected]))) template_mismatch;
  db ← gets (λ db, db);
  match (t ← templates db !! expected; p ← subjects db !! tp_subject_id t; Some (t, p)) with
  | None => raise KeyError
  | Some (t, p) => raise_if (negb (pf_household_id p =? household_id) || negb (linkable enrollment_id e t)) template_mismatch
  end.

(** The child templates past their expiry, by expiry and id. *)
Definition expiry_le (p q : UUID * Z) : Prop := p.2 < q.2 ∨ (p.2 = q.2 ∧ p.1 ≤ q.1).
#[export] Instance expiry_le_dec p q : Decision (expiry_le p q).
Proof. unfold expiry_le. apply _. Defined.
Definition due_template (household_id : UUID) (now : Z) (db : IdentityDB) (p : UUID * TemplateRow) : option (UUID * Z) :=
  match subjects db !! tp_subject_id p.2, tp_expires_at p.2 with
  | Some s, Some expires_at =>
    if (pf_household_id s =? household_id) && active s && is_child (pf_profile_class s) &&
       bool_decide (tp_revoked_at p.2 = None) && (expires_at <=? now) then Some (p.1, expires_at) else None
  | _, _ => None
  end.
Definition list_child_templates_past_hard_expiry (household_id : UUID) (now : Z) (db : IdentityDB) : list (UUID * UUID) :=
  omap (λ p, t ← templates db !! p.1; Some (p.1, tp_subject_id t))
    (merge_sort expiry_le (omap (due_template household_id now db) (map_to_list (templates db)))).

Definition disable_biometric_identity (subject_id : UUID) : I unit :=
  modify (λ db, match subjects db !! subject_id with
                | Some p => if is_child (pf_profile_class p)
                            then set_subjects (<[subject_id := set_reminder None p]> (subjects db)) db else db
                | None => db
                end).
Definition expire_template (template_id : UUID) (now : Z) : I unit :=
  modify (λ db, match templates db !! template_id with
                | Some t => if bool_decide (tp_revoked_at t = None)
                            then set_templates (<[template_id := revoked_template now t]> (templates db)) db else db
                | None => db
                end).

(** ** [EnrollmentService] *)

Section Enrollments.
Context `{PS : ParameterServices} `{CN : ConsentServices}.

Definition not_owner : exn := enrollment_denied "fresh_owner_passkey_required".
Definition _require_fresh_owner_passkey (auth : AuthContext) (binding : ActionBinding) (now : Z) : I unit :=
  _ ← raise_if (negb (bool_decide (au_assurance_source auth = passkey)) || negb (is_set (au_subject_id auth))) not_owner;
  _ ← raise_if (negb (is_ok (require_exact (au_binding auth) binding))) not_owner;
  let age := now - au_consumed_at auth in
  raise_if ((age <? 0) || (120_000_000 <? age)) not_owner.
Definition _require_authorization (auth : AuthContext) (binding : ActionBinding) (action_name : string) (resource_id : UUID)
    (parameters : list (string * parameter)) (now : Z) : I unit :=
  _ ← _require_fresh_owner_passkey auth binding now;
  raise_if (negb (is_ok (require_parameters binding action_name "identity" (Some resource_id) (au_subject_id auth) parameters)))
    (enrollment_denied "enrollment_parameter_binding_mismatch").

Definition require_owner (household_id : UUID) (auth : AuthContext) : I unit :=
  match au_subject_id auth with
  | None => raise not_owner
  | Some id => λ db, match require_current_owner_guardian_generation household_id id db with
                     | (Ok _, db') => (Ok tt, db')
                     | (Raise _, db') => (Raise not_owner, db')
                     end
  end.

(** The consent in force, its absence an [EnrollmentDenied]. *)
Definition current_consent (subject_id : UUID) (modality : Modality) (now : Z) : I (UUID * ConsentReceipt) := λ db,
  match require_current_in_uow subject_id (modality_purpose modality) now db with
  | (Raise (ConsentDenied _), db') => (Raise (enrollment_denied "enrollment_consent_state_changed"), db')
  | answer => answer
  end.

(** [get_scoped], a missing subject an [EnrollmentDenied]. *)
Definition profile_changed : exn := enrollment_denied "enrollment_profile_state_changed".
Definition enrolling_profile (household_id subject_id : UUID) : I Profile := λ db,
  match get_scoped household_id subject_id db with
  | (Raise KeyError, db') => (Raise profile_changed, db')
  | answer => answer
  end.

Definition _request_in_active_uow (c : RequestEnrollment) (auth : AuthContext) (now : Z) (synthetic_template_id enrollment_id : UUID)
    (audit : result exn unit) : I unit :=
  let household_id := ab_household_id (re_action_binding c) in
  _ ← require_owner household_id auth;
  p ← enrolling_profile household_id (re_subject_id c);
  _ ← raise_if (negb (active p) || negb (pf_version p =? re_expected_profile_version c)) profile_changed;
  found ← current_consent (re_subject_id c) (re_modality c) now;
  let '(consent_id, consent) := found in
  _ ← raise_if (negb (cr_household_id consent =? pf_household_id p) || negb (consent_id =? re_expected_consent_receipt_id c))
        (enrollment_denied "enrollment_consent_state_changed");
  _ ← create_enrollment c auth consent_id now (now + _ENROLLMENT_SESSION_TTL) synthetic_template_id enrollment_id;
  lift audit.

Definition request_enrollment (c : RequestEnrollment) (auth : AuthContext) (passkey_now now : Z) (synthetic_template_id enrollment_id : UUID)
    (audit : result exn unit) : I unit :=
  _ ← _require_authorization auth (re_action_binding c) "identity.enroll" (re_subject_id c) (enrollment_request_parameters c) passkey_now;
  unit_of_work (_request_in_active_uow c auth now synthetic_template_id enrollment_id audit).

Definition cancel_enrollment (c : CancelEnrollment) (auth : AuthContext) (passkey_now now : Z) (audit : result exn unit) :
    I EnrollmentSession :=
  unit_of_work (
    _ ← _require_authorization auth (ce_action_binding c) "identity.enrollment.cancel" (ce_enrollment_id c)
          (enrollment_cancel_parameters c) passkey_now;
    _ ← require_owner (ab_household_id (ce_action_binding c)) auth;
    found ← require_for_update (ce_enrollment_id c);
    let '(e, p) := (found : EnrollmentSession) in
    _ ← raise_if (negb (en_subject_id e =? ce_subject_id c) || negb (pf_household_id p =? ab_household_id (ce_action_binding c)))
          (enrollment_denied "enrollment_scope_mismatch");
    cancelled ← cancel_pending (ce_enrollment_id c) now;
    _ ← lift audit;
    mret cancelled).

Definition complete_enrollment (id : UUID) (template_ids : list UUID) (consent_id : UUID) (consent : ConsentReceipt) (now : Z)
    (audit : result exn unit) : I EnrollmentSession :=
  let denied msg := enrollment_denied msg in
  unit_of_work (
    _ ← raise_if (bool_decide (template_ids = [])) (denied "enrollment_template_required");
    found ← require_for_update id;
    let '(e, p) := (found : EnrollmentSession) in
    _ ← raise_if (negb (bool_decide (en_state e = en_calibrating))) (denied "enrollment_state_mismatch");
    _ ← raise_if (en_expires_at e <=? now) (denied "enrollment_session_expired");
    match en_synthetic_template_id e with
    | None => raise (denied "enrollment_template_scope_mismatch")
    | Some expected =>
      _ ← raise_if (negb (bool_decide (template_ids = [expected]))) (denied "enrollment_template_scope_mismatch");
      _ ← raise_if (negb (en_consent_receipt_id e =? consent_id) || negb (cr_subject_id consent =? en_subject_id e) ||
                    negb (bool_decide (cr_purpose consent = modality_purpose (en_modality e))))
            (denied "enrollment_consent_scope_mismatch");
      current ← current_consent (en_subject_id e) (en_modality e) now;
      let '(current_id, current) := (current : UUID * ConsentReceipt) in
      _ ← raise_if (negb (current_id =? en_consent_receipt_id e) || negb (cr_household_id current =? pf_household_id p))
            (denied "enrollment_consent_state_changed");
      db ← gets (λ db, db);
      _ ← raise_if (negb (is_ok (require_ready_for_approval template_ids id expected (pf_household_id p) e db).1))
            (denied "enrollment_template_scope_mismatch");
      let child := is_child (pf_profile_class p) in
      approved ← approve id template_ids (if child then Some (now + en_reenrollment_days e * 86_400_000_000) else None)
                   (if child then Some (now + _CHILD_BIOMETRIC_HARD_EXPIRY) else None) now;
      _ ← lift audit;
      mret approved
    end).

Fixpoint expire_each (due : list (UUID * UUID)) (now : Z) : I unit :=
  match due with
  | [] => mret tt
  | (template_id, subject_id) :: due =>
    _ ← disable_biometric_identity subject_id; _ ← expire_template template_id now; expire_each due now
  end.
Definition expire_due_child_templates (household_id : UUID) (now : Z) (audit : result exn unit) : I (list UUID) :=
  unit_of_work (
    due ← gets (list_child_templates_past_hard_expiry household_id now);
    _ ← expire_each due now;
    _ ← if bool_decide (due = []) then mret tt else lift audit;
    mret (reverse (remove_dups (reverse due.*2)))).

(** [list_children_due_for_reenrollment_reminder]: by reminder and id. *)
Definition due_reminder (household_id : UUID) (now : Z) (p : UUID * Profile) : option (UUID * Z) :=
  match pf_next_reenrollment_reminder_at p.2 with
  | Some reminder => if (pf_household_id p.2 =? household_id) && active p.2 && is_child (pf_profile_class p.2) && (reminder <=? now)
                     then Some (p.1, reminder) else None
  | None => None
  end.
Definition reminders_due (household_id : UUID) (now : Z) : I (list UUID) :=
  db ← gets (λ db, db);
  let due := (merge_sort expiry_le (omap (due_reminder household_id now) (map_to_list (subjects db)))).*1 in
  _ ← raise_if (existsb (λ id, match subjects db !! id with Some p => negb (profile_ok p) | None => false end) due) ValidationError;
  mret due.
End Enrollments.
