(* ===== verification/IdentityRuns.v ===== *)
(** * Runs of the identity services

    Any sequence of the operations of [Consent], [Routes], [Profiles] and [Enrollment], and what
    none of them undoes: a receipt keeps its purpose and answer, a revoked profile or template
    and an ended enrollment stay as they are, a consumed route stays consumed. *)

From stdpp Require Import sorting.
From S2P Require Import Prelude PttFraming BudgetPricing BudgetLedger BudgetGuard ProviderCalls Outbox Identity Consent Routes Profiles Enrollment.

#[local] Abbreviation I := (M IdentityDB exn).

(** ** What lasts *)

Definition receipt_key (r : ConsentReceipt) : UUID * UUID * ConsentPurpose * bool * Z :=
  (cr_household_id r, cr_subject_id r, cr_purpose r, cr_granted r, cr_created_at r).

(** Nothing moves a session that was closed or has a final state. *)
Definition ended (e : EnrollmentRow) : Prop :=
  is_Some (en_closed_at e) ∨ en_state e ∈ [en_approved; en_cancelled; en_expired].

Section Runs.
Context `{BS : BudgetServices} `{PS : ParameterServices} `{CN : ConsentServices} `{RT : RouteServices} `{PR : ProfileServices}.

Definition consumed_route (id : UUID) (db : IdentityDB) : Prop :=
  ∃ raw e, route_settings db !! RouteKey id = Some (OtherValue raw) ∧ _parse_persisted_route_envelope raw = Some e ∧
    ra_authorization_id (ev_route e) = id ∧
    (provider_route_consume, bn_household_id (ra_binding (ev_route e)), id) ∈ idempotency db.

(** The stored text of a route that was authorized. *)
Definition issued (id : UUID) (v : SettingValue) : Prop :=
  ∃ e, v = OtherValue (canonical_envelope e) ∧ envelope_ok e = true ∧ ra_authorization_id (ev_route e) = id.

Record id_evolves (db db' : IdentityDB) : Prop := {
  ie_subjects : ∀ id p, subjects db !! id = Some p → ∃ p', subjects db' !! id = Some p' ∧
    (active p = false → active p' = false);
  ie_consents : ∀ id r, consent_receipts db !! id = Some r → ∃ r', consent_receipts db' !! id = Some r' ∧ receipt_key r' = receipt_key r;
  ie_enrollments : ∀ id e, enrollments db !! id = Some e → ∃ e', enrollments db' !! id = Some e' ∧
    en_subject_id e' = en_subject_id e ∧ en_modality e' = en_modality e ∧ (ended e → e' = e);
  ie_templates : ∀ id t, templates db !! id = Some t → is_Some (tp_revoked_at t) → templates db' !! id = Some t;
  ie_idempotency : idempotency db ⊆ idempotency db';
  ie_routes : ∀ id, consumed_route id db → route_settings db' !! RouteKey id = route_settings db !! RouteKey id;
  ie_issued : ∀ id v, route_settings db' !! RouteKey id = Some v → route_settings db !! RouteKey id = Some v ∨ issued id v;
  ie_consumptions : ∀ id, count_consumptions id db' = count_consumptions id db ∨
    count_consumptions id db' = count_consumptions id db + 1 ∧ ¬ consumed_route id db ∧ consumed_route id db';
}.

Lemma consumed_route_kept id db db' : id_evolves db db' → consumed_route id db → consumed_route id db'.
Proof.
  intros H Hc. pose proof (ie_routes _ _ H _ Hc) as Hr. destruct Hc as (raw & e & Hraw & Hp & Ha & Hi).
  exists raw, e. split_and!; [congruence|done..|]. by apply (ie_idempotency _ _ H).
Qed.

#[export] Instance id_evolves_preorder : PreOrder id_evolves.
Proof.
  split.
  - intros db. constructor; eauto 8.
  - intros db1 db2 db3 H1 H2. constructor.
    + intros id p Hp. destruct (ie_subjects _ _ H1 _ _ Hp) as (p2 & Hp2 & ?).
      destruct (ie_subjects _ _ H2 _ _ Hp2) as (p3 & ? & ?). eauto 8.
    + intros id r Hr. destruct (ie_consents _ _ H1 _ _ Hr) as (r2 & Hr2 & ?).
      destruct (ie_consents _ _ H2 _ _ Hr2) as (r3 & ? & ?). exists r3. split; congruence.
    + intros id e He. destruct (ie_enrollments _ _ H1 _ _ He) as (e2 & He2 & ? & ? & Hk).
      destruct (ie_enrollments _ _ H2 _ _ He2) as (e3 & ? & ? & ? & Hk'). exists e3. split_and!; [done|congruence..|].
      intros Hend. assert (e2 = e) as -> by auto. by apply Hk'.
    + intros id t Ht Hr. apply (ie_templates _ _ H2); [|done]. by apply (ie_templates _ _ H1).
    + etrans; [apply H1|apply H2].
    + intros id Hc. rewrite (ie_routes _ _ H2), (ie_routes _ _ H1); [done..|]. by eapply consumed_route_kept.
    + intros id v Hv. destruct (ie_issued _ _ H2 _ _ Hv) as [Hv2|]; [|by right]. by apply (ie_issued _ _ H1).
    + intros id. destruct (ie_consumptions _ _ H1 id) as [E1|(E1 & Hn & Hc)], (ie_consumptions _ _ H2 id) as [E2|(E2 & Hn' & Hc')].
      * left. congruence.
      * right. split_and!; [lia| |done]. intros Hc. apply Hn'. by eapply consumed_route_kept.
      * right. split_and!; [lia|done|]. by eapply consumed_route_kept.
      * done.
Qed.

(** ** Programs whose every outcome only evolves the state *)

Definition steady {A} (m : I A) : Prop := ∀ db, wp m (λ _, id_evolves db) (λ _, id_evolves db) db.

Lemma steady_ret {A} (a : A) : steady (mret a).
Proof. intros db. apply wp_ret. reflexivity. Qed.
Lemma steady_raise {A} e : steady (A := A) (raise e).
Proof. intros db. apply wp_raise. reflexivity. Qed.
Lemma steady_raise_if c e : steady (raise_if c e).
Proof. intros db. apply wp_raise_if; intros; reflexivity. Qed.
Lemma steady_gets {A} (f : IdentityDB → A) : steady (gets f).
Proof. intros db. apply wp_gets. reflexivity. Qed.
Lemma steady_lift {A} (r : result exn A) : steady (lift r).
Proof. intros db. apply wp_lift; intros; reflexivity. Qed.
Lemma steady_modify f : (∀ db, id_evolves db (f db)) → steady (modify f).
Proof. intros Hf db. by apply wp_modify. Qed.
Lemma steady_bind {A B} (m : I A) (k : A → I B) : steady m → (∀ a, steady (k a)) → steady (m ≫= k).
Proof.
  intros Hm Hk db. apply wp_bind. eapply wp_mono; [apply Hm| |done]. intros a db1 H1.
  eapply wp_mono; [apply Hk|..]; intros ? db2 H2; (etrans; [exact H1|exact H2]).
Qed.
Lemma steady_guard {A} c e (k : unit → I A) : (c = false → steady (k tt)) → steady (raise_if c e ≫= k).
Proof.
  intros Hk. destruct c; [|by apply Hk]. intros db. apply wp_bind, wp_raise. reflexivity.
Qed.
Lemma steady_uow {A} (m : I A) : steady m → steady (unit_of_work m).
Proof.
  intros Hm db. specialize (Hm db). unfold wp, unit_of_work in *. destruct (m db) as [[?|?] ?]; [done|reflexivity].
Qed.
(** A program that is only run for its answer. *)
Lemma steady_answer {A} (m : I A) (f : result exn A → result exn A) :
  steady m → steady (λ db, let '(r, db') := m db in (f r, db')).
Proof. intros Hm db. specialize (Hm db). unfold wp in *. destruct (m db) as [[?|?] ?]; by destruct (f _). Qed.
End Runs.

Create HintDb steady discriminated.
#[export] Hint Resolve steady_ret steady_raise steady_raise_if steady_gets steady_lift steady_uow : steady.

Ltac steady_step :=
  lazymatch goal with
  | |- steady (_ ≫= _) => apply steady_bind; [|intros]
  | |- steady (match ?x with _ => _ end) => destruct x
  | |- steady _ => solve [eauto with steady] || (apply steady_uow)
  end.
Ltac steady_steps := repeat (intros; cbn beta iota zeta; steady_step).

(** ** One table at a time *)

Section Steps.
Context `{BS : BudgetServices} `{PS : ParameterServices} `{CN : ConsentServices} `{RT : RouteServices} `{PR : ProfileServices}.

(** The tables whose rows nothing here lasts of. *)
Lemma evolve_sessions x db : id_evolves db (set_sessions x db).
Proof. constructor; eauto 8. Qed.
Lemma evolve_owners x db : id_evolves db (set_owners x db).
Proof. constructor; eauto 8. Qed.
Lemma evolve_challenges x db : id_evolves db (set_challenges x db).
Proof. constructor; eauto 8. Qed.
Lemma evolve_guest_consents x db : id_evolves db (set_guest_consents x db).
Proof. constructor; eauto 8. Qed.
Lemma evolve_queue x y db : id_evolves db (set_revocation_effects y (set_revocation_outbox x db)).
Proof. constructor; eauto 8. Qed.

Lemma evolve_subject id p' db :
  (∀ p, subjects db !! id = Some p → active p = false → active p' = false) →
  id_evolves db (set_subjects (<[id := p']> (subjects db)) db).
Proof.
  intros H. constructor; eauto 8. intros i p Hp. cbn. destruct (decide (i = id)) as [->|].
  - rewrite lookup_insert_eq. exists p'. split; [done|by apply H].
  - rewrite lookup_insert_ne by done. eauto.
Qed.
Lemma evolve_enrollment id e' db :
  (∀ e, enrollments db !! id = Some e → en_subject_id e' = en_subject_id e ∧ en_modality e' = en_modality e ∧ ¬ ended e) →
  id_evolves db (set_enrollments (<[id := e']> (enrollments db)) db).
Proof.
  intros H. constructor; eauto 8. intros i e He. cbn. destruct (decide (i = id)) as [->|].
  - rewrite lookup_insert_eq. destruct (H _ He) as (? & ? & ?). exists e'. by split_and!.
  - rewrite lookup_insert_ne by done. eauto 8.
Qed.
Lemma evolve_template id t' db :
  (∀ t, templates db !! id = Some t → tp_revoked_at t = None) →
  id_evolves db (set_templates (<[id := t']> (templates db)) db).
Proof.
  intros H. constructor; eauto 8. intros i t Ht Hr. cbn. destruct (decide (i = id)) as [->|].
  - rewrite (H _ Ht) in Hr. by destruct Hr.
  - by rewrite lookup_insert_ne.
Qed.
Lemma evolve_consent id r db :
  consent_receipts db !! id = None → id_evolves db (set_consents (<[id := r]> (consent_receipts db)) db).
Proof.
  intros H. constructor; eauto 8. intros i r' Hr. cbn. rewrite lookup_insert_ne by congruence. eauto.
Qed.
Lemma count_cons x id db :
  count_consumptions id (set_idempotency (x :: idempotency db) db) =
    count_consumptions id db + if decide (x.1.1 = provider_route_consume ∧ x.2 = id) then 1 else 0.
Proof. unfold count_consumptions, set_idempotency, len. cbn [idempotency]. rewrite filter_cons. case_decide; cbn [length]; lia. Qed.
Lemma evolve_idempotency x db :
  x.1.1 ≠ provider_route_consume → id_evolves db (set_idempotency (x :: idempotency db) db).
Proof.
  intros Hx. constructor; eauto 8; [cbn; set_solver|]. intros id. left. rewrite count_cons, decide_False by naive_solver. lia.
Qed.
(** The route's own consumption. *)
Lemma evolve_consumption id raw e db :
  route_settings db !! RouteKey id = Some (OtherValue raw) → _parse_persisted_route_envelope raw = Some e →
  ra_authorization_id (ev_route e) = id →
  (provider_route_consume, bn_household_id (ra_binding (ev_route e)), id) ∉ idempotency db →
  id_evolves db (set_idempotency ((provider_route_consume, bn_household_id (ra_binding (ev_route e)), id) :: idempotency db) db).
Proof.
  intros Hraw He Ha Hn. constructor; eauto 8; [cbn; set_solver|]. intros i. rewrite count_cons. cbn [fst snd].
  destruct (decide (i = id)) as [->|]; [right|left; rewrite decide_False by naive_solver; lia].
  rewrite decide_True by done. split_and!; [done| |].
  - intros (raw' & e' & Hraw' & He' & _ & Hin). by simplify_eq.
  - exists raw, e. split_and!; [done..|]. cbn. left.
Qed.
Lemma evolve_budget b db :
  (∀ id, consumed_route id db → settings b !! RouteKey id = route_settings db !! RouteKey id) →
  (∀ id v, settings b !! RouteKey id = Some v → route_settings db !! RouteKey id = Some v ∨ issued id v) → id_evolves db (set_budget b db).
Proof. intros H1 H2. constructor; eauto 8. Qed.

(** ** Statements *)

Lemma insert_consent_spec id r db :
  wp (_insert_consent_receipt id r)
    (λ _ db', db' = set_consents (<[id := r]> (consent_receipts db)) db ∧ consent_receipts db !! id = None)
    (λ _ db', db' = db) db.
Proof.
  unfold _insert_consent_receipt. wp_steps; [|done]. bool_props. split; [done|]. by apply eq_None_not_Some.
Qed.
Lemma active_set_pointers ids p : active (set_pointers ids p) = active p.
Proof. done. Qed.
Lemma steady_append_consent id r expected : steady (_append_consent_receipt_replacing_current id r expected).
Proof.
  intros db. unfold _append_consent_receipt_replacing_current. cbn zeta.
  wp_steps; try reflexivity; (eapply wp_mono; [apply insert_consent_spec|..]); try (by intros ? ? ->).
  all: intros _ db1 [-> Hnone]; wp_steps; (etrans; [by apply evolve_consent|]); apply evolve_subject; cbn; intros q Hq; by simplify_eq.
Qed.

Lemma steady_read {A} (m : I A) : (∀ db, (m db).2 = db) → steady m.
Proof. intros H db. unfold wp. specialize (H db). destruct (m db) as [[?|?] db']; cbn in H; subst; reflexivity. Qed.
Lemma get_profile_read id db : (get_profile id db).2 = db.
Proof. unfold get_profile, mbind, M_bind, gets. destruct (subjects db !! id) as [p|]; [|done]. cbn. by destruct (profile_ok p). Qed.
Lemma steady_get_profile id : steady (get_profile id).
Proof. apply steady_read, get_profile_read. Qed.
Lemma steady_require_authority c p : steady (_require_subject_authority c p).
Proof. unfold _require_subject_authority. steady_steps. Qed.
#[local] Hint Resolve steady_get_profile steady_require_authority steady_append_consent : steady.

Lemma steady_require_current s p now : steady (require_current_in_uow s p now).
Proof. unfold require_current_in_uow. steady_steps. Qed.
Lemma steady_grant c auth passkey_now fresh now audit : steady (grant c auth passkey_now fresh now audit).
Proof. unfold grant, _require_action_binding, _require_passkey, _grant_in_active_uow. steady_steps. Qed.
Lemma steady_revoke c auth passkey_now fresh now audit cascade :
  (∀ r now, steady (cascade r now)) → steady (revoke c auth passkey_now fresh now audit cascade).
Proof. intros H. unfold revoke, _require_action_binding, _require_passkey, _revoke_in_active_uow. steady_steps. Qed.

(** Guests. *)
Lemma steady_require_active h s now : steady (require_active h s now).
Proof. unfold require_active. steady_steps. Qed.
Lemma steady_disclosure a b c d e now : steady (require_exact_guest_disclosure a b c d e now).
Proof. unfold require_exact_guest_disclosure. steady_steps. Qed.
Lemma steady_insert_challenge id c : steady (insert_challenge id c).
Proof. unfold insert_challenge. steady_steps. apply steady_modify. intros. apply evolve_challenges. Qed.
Lemma steady_consume_challenge id st now : steady (_consume id st now).
Proof. unfold _consume. steady_steps. apply steady_modify. intros. apply evolve_challenges. Qed.
Lemma steady_append_guest id r : steady (append_guest_consent id r).
Proof. unfold append_guest_consent. steady_steps. apply steady_modify. intros. apply evolve_guest_consents. Qed.
#[local] Hint Resolve steady_require_active steady_disclosure steady_insert_challenge steady_consume_challenge steady_append_guest : steady.
Lemma steady_issue h s p d pr now id : steady (issue_challenge h s p d pr now id).
Proof. unfold issue_challenge. steady_steps. Qed.
Lemma steady_accept id response now fresh audit : steady (accept_challenge id response now fresh audit).
Proof. unfold accept_challenge. steady_steps. Qed.
Lemma steady_revoke_guest h s p now fresh audit : steady (revoke_guest h s p now fresh audit).
Proof. unfold revoke_guest. steady_steps. Qed.

(** ** Updates of many rows *)

Lemma update_where_lookup {A} (guard : A → bool) f (rows : gmap UUID A) id x :
  rows !! id = Some x → update_where guard f rows !! id = Some (if guard x then f x else x).
Proof. intros H. unfold update_where. by rewrite lookup_fmap, H. Qed.

Lemma pending_not_ended subject modality e : pending_enrollment subject modality e = true → ¬ ended e.
Proof.
  unfold pending_enrollment. intros H [[? Hc]|Hc]; bool_props; [congruence|].
  repeat match goal with K : en_state e ∈ _ |- _ => apply list_elem_of_In in K; cbn in K end. naive_solver congruence.
Qed.
Lemma steady_cancel_enrollments subject modality now : steady (cancel_enrollments subject modality now).
Proof.
  apply steady_modify. intros db. constructor; eauto 8. intros id e He. cbn. rewrite (update_where_lookup _ _ _ _ _ He).
  eexists. split; [done|]. destruct (pending_enrollment subject modality e) eqn:Hp; [|done].
  split_and!; [done..|]. by intros ?%(pending_not_ended _ _ _ Hp).
Qed.
Lemma steady_revoke_templates subject modality now : steady (_revoke_subject_modality subject modality now).
Proof.
  unfold _revoke_subject_modality. steady_steps. apply steady_modify. intros db. constructor; eauto 8.
  intros id t Ht [x Hx]. cbn. rewrite (update_where_lookup _ _ _ _ _ Ht). unfold live_template.
  rewrite (bool_decide_false (tp_revoked_at t = None)) by congruence. by rewrite andb_false_r.
Qed.
Lemma steady_revoke_consents subject now : steady (revoke_subject_consents subject now).
Proof.
  apply steady_modify. intros db. constructor; eauto 8. intros id r Hr. cbn. rewrite (update_where_lookup _ _ _ _ _ Hr).
  eexists. split; [done|]. by destruct (_ && _).
Qed.
Lemma steady_invalidate_sessions subject now : steady (invalidate_identity_subject subject now).
Proof. apply steady_modify. intros. apply evolve_sessions. Qed.
Lemma steady_audit_each {A} (drafts : list A) k audit : steady (audit_each drafts k audit).
Proof. revert k. induction drafts; intros k; cbn [audit_each]; steady_steps; eauto. Qed.
Lemma steady_queue {A} (m : M RevocationDB exn A) : steady (in_revocations m).
Proof. intros db. unfold wp, in_revocations. destruct (m _) as [[?|?] q]; apply evolve_queue. Qed.
#[local] Hint Resolve steady_cancel_enrollments steady_revoke_templates steady_revoke_consents steady_invalidate_sessions
  steady_audit_each steady_queue steady_require_current : steady.

(** ** Routes *)

Lemma steady_insert_idempotency op h key : op ≠ provider_route_consume → steady (insert_idempotency op h key).
Proof. intros Hop. unfold insert_idempotency. steady_steps. apply steady_modify. intros. by apply evolve_idempotency. Qed.

(** The rows a revocation read are still what they were, or gone. *)
Definition still (rows : list (UUID * string)) (db : IdentityDB) : Prop :=
  ∀ id raw, (id, raw) ∈ rows →
    route_settings db !! RouteKey id = None ∨ route_settings db !! RouteKey id = Some (OtherValue raw).

Lemma delete_route_spec id db :
  wp (delete_route id) (λ _ db', db' = with_settings (delete (RouteKey id)) db ∧ is_Some (route_settings db !! RouteKey id))
    (λ _ db', db' = db) db.
Proof. unfold delete_route. wp_steps; [|done]. bool_props. done. Qed.
Lemma evolve_delete id db : ¬ consumed_route id db → id_evolves db (with_settings (delete (RouteKey id)) db).
Proof.
  intros H. apply evolve_budget; cbn.
  - intros i Hi. destruct (decide (i = id)) as [->|]; [done|]. by rewrite lookup_delete_ne by congruence.
  - intros i v [_ Hv]%lookup_delete_Some. by left.
Qed.
Lemma still_delete rows id db : still rows db → still rows (with_settings (delete (RouteKey id)) db).
Proof.
  intros H i raw Hi. cbn. destruct (decide (i = id)) as [->|].
  - left. by rewrite lookup_delete_eq.
  - unfold route_settings. cbn. rewrite lookup_delete_ne by congruence. by apply H.
Qed.

Definition still_steady rows (db : IdentityDB) {A} (m : I A) : Prop :=
  wp m (λ _ db', id_evolves db db' ∧ still rows db') (λ _, id_evolves db) db.
Lemma still_steady_delete {A} rows id (a : A) db :
  still rows db → ¬ consumed_route id db → still_steady rows db (_ ← delete_route id; mret a).
Proof.
  intros Hs Hc. apply wp_bind. eapply wp_mono; [apply delete_route_spec|..].
  - intros _ db' [-> _]. apply wp_ret. split; [by apply evolve_delete|by apply still_delete].
  - intros _ ? ->. reflexivity.
Qed.
Lemma still_foreign rows id raw db :
  still rows db → (id, raw) ∈ rows →
  (∀ e, _parse_persisted_route_envelope raw = Some e → ra_authorization_id (ev_route e) ≠ id) →
  still_steady rows db (invalidate_foreign id).
Proof.
  intros Hs Hin He. unfold invalidate_foreign, still_steady. wp_step. wp_step. cbn beta.
  wp_step. apply wp_lift; [intros consumed _|done]. destruct consumed; [by apply wp_ret|]. apply still_steady_delete; [done|].
  intros (raw' & e & Hr & Hp & Ha & _). destruct (Hs _ _ Hin) as [Hn|Hn]; [congruence|].
  rewrite Hn in Hr. simplify_eq. by apply (He e).
Qed.
Lemma still_own rows subject purpose id raw e db :
  still rows db → (id, raw) ∈ rows → _parse_persisted_route_envelope raw = Some e →
  still_steady rows db (invalidate_own subject purpose id e).
Proof.
  intros Hs Hin He. unfold invalidate_own, still_steady. cbn zeta. wp_step. wp_step. cbn beta.
  destruct (negb _ || negb _); [by apply wp_ret|]. destruct (_idempotency_exists _ _ _ _) eqn:Hi; [by apply wp_ret|].
  apply still_steady_delete; [done|]. intros (raw' & e' & Hr & Hp & Ha & Hc).
  destruct (Hs _ _ Hin) as [Hn|Hn]; [congruence|]. rewrite Hn in Hr. simplify_eq.
  unfold _idempotency_exists in Hi. by bool_props.
Qed.
Lemma still_each rows step todo db :
  (∀ row db, row ∈ rows → still rows db → still_steady rows db (step row)) → todo ⊆ rows → still rows db →
  still_steady rows db (invalidate_each step todo).
Proof.
  intros Hstep. revert db. induction todo as [|row todo IH]; intros db Hsub Hs; cbn [invalidate_each]; [by apply wp_ret|].
  apply wp_bind. eapply wp_mono; [apply Hstep; [set_solver|done]| |done]. intros ids db1 [H1 Hs1].
  apply wp_bind. eapply wp_mono; [apply IH; [set_solver|done]|..].
  - intros rest db2 [H2 Hs2]. apply wp_ret. split; [|done]. by etrans.
  - intros e db2 H2. etrans; [exact H1|exact H2].
Qed.
Lemma still_start subject purpose db : still (route_rows subject purpose db) db.
Proof.
  intros id raw Hin. right. unfold route_rows in Hin. rewrite merge_sort_Permutation in Hin.
  apply list_elem_of_omap in Hin as ([k v] & Hk & Hr). apply elem_of_map_to_list in Hk.
  unfold route_row in Hr. destruct k, v; try done. destruct (_ && _); [|done]. by simplify_eq.
Qed.

Lemma steady_at_once subject purpose : steady (invalidate_at_once subject purpose).
Proof.
  intros db. unfold invalidate_at_once. wp_step. wp_step. eapply wp_mono; [apply (still_each (route_rows subject purpose db))|..].
  - intros [id raw] db1 Hin Hs. unfold invalidate_row_at_once. destruct (_parse_persisted_route_envelope raw) eqn:He.
    + by eapply still_own.
    + eapply still_foreign; [done..|]. congruence.
  - done.
  - apply still_start.
  - by intros ? ? [].
  - done.
Qed.

Lemma elem_take {A} n (l : list A) x : x ∈ take n l → x ∈ l.
Proof. intros. rewrite <- (take_drop n l). apply elem_of_app. by left. Qed.
Lemma steady_batch subject purpose cursor : steady (invalidate_batch subject purpose cursor).
Proof.
  intros db. unfold invalidate_batch. wp_step. wp_step. cbn beta zeta. wp_step.
  eapply wp_mono; [apply (still_each (route_rows subject purpose db))|..].
  - intros [id raw] db1 Hin Hs. unfold invalidate_row. destruct (_parse_persisted_route_envelope raw) eqn:He.
    + destruct (ra_authorization_id (ev_route e) =? id) eqn:Ha; cbn [negb]; [by eapply still_own|].
      eapply still_foreign; [done..|]. intros e' He'. simplify_eq. by apply Z.eqb_neq.
    + eapply still_foreign; [done..|]. congruence.
  - intros x Hx. apply elem_take in Hx. by apply list_elem_of_filter in Hx as [_ ?].
  - apply still_start.
  - intros ? ? []. by apply wp_ret.
  - done.
Qed.
Lemma steady_batches n subject purpose cursor revoked : steady (invalidate_batches n subject purpose cursor revoked).
Proof.
  revert cursor revoked. induction n as [|n IH]; intros cursor revoked; cbn [invalidate_batches]; [apply steady_raise|].
  apply steady_bind; [apply steady_batch|]. intros [[c ids] scanned]. destruct (bool_decide _); [apply steady_ret|apply IH].
Qed.
Lemma steady_invalidate subject purpose : steady (invalidate_subject_purpose_in_uow subject purpose).
Proof. unfold invalidate_subject_purpose_in_uow. apply steady_bind; [apply steady_gets|]. intros. apply steady_batches. Qed.

Lemma steady_text_setting key : steady (_select_text_setting key).
Proof. unfold _select_text_setting. steady_steps. Qed.
#[local] Hint Resolve steady_text_setting : steady.
Lemma steady_subject_authority h s expected : steady (require_current_subject_authority h s expected).
Proof. unfold require_current_subject_authority. steady_steps. Qed.
Lemma steady_current_consent h s session p ids now : steady (require_current_consent h s session p ids now).
Proof. unfold require_current_consent. steady_steps. Qed.
Lemma steady_privacy id turn now : steady (_require_privacy_receipt_in_transaction id turn now).
Proof. unfold _require_privacy_receipt_in_transaction. steady_steps. Qed.
Lemma steady_review provider model p now : steady (require_review provider model p now).
Proof. unfold require_review. steady_steps. Qed.
#[local] Hint Resolve steady_subject_authority steady_current_consent steady_privacy steady_review : steady.
Lemma steady_provider_review provider model p now : steady (require_provider_review provider model p now).
Proof. unfold require_provider_review. steady_steps. Qed.
Lemma steady_budget_reservation id b units now : steady (_require_budget_reservation_in_transaction id b units now).
Proof. unfold _require_budget_reservation_in_transaction. steady_steps. Qed.
Lemma steady_active_session b : steady (_require_active_session_in_transaction b).
Proof. unfold _require_active_session_in_transaction. steady_steps. Qed.
#[local] Hint Resolve steady_provider_review steady_budget_reservation steady_active_session : steady.
Lemma steady_runtime_state e now : steady (_require_runtime_state e now).
Proof. unfold _require_runtime_state. steady_steps. Qed.
Lemma steady_verified route consumption now : steady (verified route consumption now).
Proof. unfold verified. steady_steps. Qed.
#[local] Hint Resolve steady_runtime_state steady_verified : steady.

Lemma steady_persist_authorization e now writer_now persisted_at :
  envelope_ok e = true → steady (persist_authorization e now writer_now persisted_at).
Proof.
  intros Hok. unfold persist_authorization. do 5 (apply steady_bind; [steady_steps|intros _]). intros db. wp_steps; [|reflexivity].
  bool_props. assert (id_evolves db (with_settings (<[RouteKey (ra_authorization_id (ev_route e)) := OtherValue (canonical_envelope e)]>) db)) as Hev.
  { apply evolve_budget; cbn.
    - intros i (raw & env & Hr & _). rewrite lookup_insert_ne; [done|]. intros [= Hi].
      match goal with K : ¬ is_Some _ |- _ => apply K end. rewrite Hi, Hr. eauto.
    - intros i v [[[= <-] <-]|[_ Hv]]%lookup_insert_Some; [right; by exists e|by left]. }
  eapply wp_mono; [by apply steady_insert_idempotency|..]; intros ? db1 H1; (etrans; [exact Hev|exact H1]).
Qed.
Lemma steady_authorize r id clock : steady (authorize r id clock).
Proof.
  unfold authorize, require_provider_activation. cbn zeta. apply steady_uow. do 8 (apply steady_bind; [steady_steps|intros]).
  apply steady_guard. intros Hok. apply steady_bind; [|steady_steps]. apply steady_persist_authorization. by bool_props.
Qed.
(** The checks of a consumption only read. *)
Lemma wp_verified route consumption now (Q : unit → IdentityDB → Prop) db :
  (verify_route_consumption route consumption now = Ok tt → Q tt db) → wp (verified route consumption now) Q (λ _ _, True) db.
Proof. intros HQ. unfold verified. destruct (verify_route_consumption _ _ _) as [[]|]; wp_steps; auto. Qed.
Lemma wp_subject_authority h s expected (Q : option Z → IdentityDB → Prop) db :
  (∀ a, Q a db) → wp (require_current_subject_authority h s expected) Q (λ _ _, True) db.
Proof. intros HQ. unfold require_current_subject_authority. wp_steps; auto. Qed.
Lemma wp_current_consent h s session p ids now (Q : unit → IdentityDB → Prop) db :
  ((require_exact_in_uow h s session p ids now db).1 = Ok tt → Q tt db) →
  wp (require_current_consent h s session p ids now) Q (λ _ _, True) db.
Proof.
  intros HQ. unfold require_current_consent. wp_step. wp_step. cbn beta.
  destruct (require_exact_in_uow h s session p ids now db).1 as [[]|x]; [apply wp_ret; auto|]. destruct x; try done. by destruct (_ || _).
Qed.
Lemma wp_runtime_state e now (Q : unit → IdentityDB → Prop) db :
  (∀ s r, sessions db !! bn_session_id (ra_binding (ev_route e)) = Some s → ss_state s = "active"%string → ss_closed_at s = None →
     ss_speaker_subject_id s = bn_subject_id (ra_binding (ev_route e)) →
     reservations (id_budget db) !! ra_budget_reservation_id (ev_route e) = Some r →
     reservation_matches (ra_binding (ev_route e)) (ra_max_input_units (ev_route e)) now r = true → Q tt db) →
  wp (_require_runtime_state e now) Q (λ _ _, True) db.
Proof.
  intros HQ. unfold _require_runtime_state. cbn zeta. wp_step. unfold _require_active_session_in_transaction. wp_step. wp_step. cbn beta.
  destruct (sessions db !! _) as [s|] eqn:Hs; [|done]. wp_step; [|done]. bool_props.
  wp_step. eapply (wp_mono _ (λ _ db', db' = db) _ (λ _ _, True)); [|intros _ ? ->|done].
  { unfold _require_privacy_receipt_in_transaction, _select_text_setting. wp_step. wp_step. wp_step. cbn beta. repeat wp_step; done. }
  wp_step. wp_step; [|done]. wp_step. eapply (wp_mono _ (λ _ db', db' = db) _ (λ _ _, True)); [|intros _ ? ->|done].
  { unfold require_review. wp_steps; done. }
  unfold _require_budget_reservation_in_transaction. wp_step. wp_step. cbn beta.
  destruct (reservations _ !! _) as [r|] eqn:Hr; [|done]. wp_step; [|done]. bool_props. by eapply HQ.
Qed.

Lemma uow_steady {A} (m : I A) db : wp m (λ _, id_evolves db) (λ _ _, True) db → wp (unit_of_work m) (λ _, id_evolves db) (λ _, id_evolves db) db.
Proof. unfold wp, unit_of_work. by destruct (m db) as [[?|?] ?]. Qed.
Lemma steady_consume id consumption clock : steady (consume id consumption clock).
Proof.
  intros db. apply uow_steady. unfold consume. wp_step. unfold _select_text_setting. wp_step. wp_step. cbn beta.
  destruct (route_settings db !! RouteKey id) as [[| | |raw]|] eqn:Hraw; [done..| |by wp_steps]. apply wp_ret.
  destruct (_parse_persisted_route_envelope raw) as [e|] eqn:He; [|done]. cbn zeta.
  wp_step. wp_step; [|done]. wp_step. wp_step. cbn beta. wp_step. wp_step; [|done]. bool_props.
  wp_step. apply wp_verified. intros _. wp_step. apply wp_subject_authority. intros _. wp_step. apply wp_current_consent. intros _.
  wp_step. apply wp_verified. intros _. unfold persist_consumption. cbn zeta. wp_step. wp_step; [|done].
  wp_step. apply wp_verified. intros _. wp_step. apply wp_runtime_state. intros s r _ _ _ _ _ _.
  wp_step. wp_step; [|done]. wp_step. apply wp_verified. intros _. unfold insert_idempotency, _idempotency_exists. wp_steps; [|done].
  bool_props. subst id. by eapply evolve_consumption.
Qed.
#[local] Hint Resolve steady_at_once : steady.

(** ** Profiles *)

Lemma steady_biometric subject modality now audit : steady (revoke_biometric_consent subject modality now audit).
Proof. unfold revoke_biometric_consent. steady_steps. Qed.
#[local] Hint Resolve steady_biometric : steady.
Lemma steady_consent_cascade audit r now : steady (revoke_consent_cascade audit r now).
Proof. unfold revoke_consent_cascade. steady_steps. Qed.
Lemma steady_subject_cascade subject current revoked now event : steady (revoke_subject_cascade subject current revoked now event).
Proof. unfold revoke_subject_cascade. steady_steps. Qed.

Lemma steady_update_profile id guard f : (∀ p, active p = false → active (f p) = false) → steady (update_profile id guard f).
Proof.
  intros Hf db. unfold update_profile. wp_steps; try reflexivity; apply evolve_subject; intros; simplify_eq; auto.
Qed.
Lemma steady_update_persona id version traits : steady (update_persona_expected_version id version traits).
Proof. by apply steady_update_profile. Qed.
Lemma steady_advance id version generation now : steady (revoke_and_advance_authority_generation_expected_version id version generation now).
Proof. by apply steady_update_profile. Qed.
Lemma steady_insert_profile id p : steady (insert_profile id p).
Proof.
  intros db. unfold insert_profile. wp_steps; [|reflexivity]. bool_props. apply evolve_subject. intros q Hq.
  match goal with K : is_set (subjects db !! id) = false |- _ => by rewrite Hq in K end.
Qed.
Lemma steady_owner_generation h g : steady (require_current_owner_guardian_generation h g).
Proof. unfold require_current_owner_guardian_generation. steady_steps. Qed.
Lemma steady_owner_or msg h g : steady (owner_or msg h g).
Proof.
  intros db. pose proof (steady_owner_generation h g db) as Hs. unfold owner_or, wp in *.
  destruct (require_current_owner_guardian_generation h g db) as [[?|[]] ?]; done.
Qed.
#[local] Hint Resolve steady_subject_cascade steady_update_persona steady_advance steady_insert_profile steady_owner_generation
  steady_owner_or : steady.
Lemma steady_create c auth now audit : steady (create c auth now audit).
Proof. unfold create, _guardian_generation_for_create. steady_steps. Qed.
Lemma steady_update_traits c auth now audit : steady (update_persona_traits c auth now audit).
Proof. unfold update_persona_traits, _require_persona_authority, _require_valid_traits. steady_steps. Qed.
Lemma steady_revoke_profile c auth now event audit : steady (revoke_profile c auth now event audit).
Proof. unfold revoke_profile, _require_revoke_authority. steady_steps. Qed.
Lemma steady_install h s generation : steady (install_in_uow h s generation).
Proof. unfold install_in_uow. steady_steps. apply steady_modify. intros. apply evolve_owners. Qed.

(** ** Enrollment *)

Lemma steady_returned id lost : steady (returned id lost).
Proof. unfold returned. steady_steps. Qed.
Lemma steady_for_update id : steady (require_for_update id).
Proof. unfold require_for_update. steady_steps. Qed.
#[local] Hint Resolve steady_returned steady_for_update : steady.
Lemma steady_create_enrollment c auth consent now expires template id : steady (create_enrollment c auth consent now expires template id).
Proof.
  intros db. unfold create_enrollment, put_enrollment. wp_steps; try reflexivity. bool_props. apply evolve_enrollment. intros e He.
  match goal with K : is_set (enrollments db !! id) = false |- _ => by rewrite He in K end.
Qed.
(** Moving a session that has not ended. *)
Lemma steady_put_enrollment id st closed lost e db :
  enrollments db !! id = Some e → ¬ ended e →
  wp (_ ← put_enrollment id (with_state st closed e); returned id lost) (λ _, id_evolves db) (λ _, id_evolves db) db.
Proof.
  intros He Hn. apply wp_bind, wp_modify. eapply wp_mono; [apply steady_returned|..]; intros ? db1 H1; (etrans; [|exact H1]);
    apply evolve_enrollment; intros; simplify_eq; done.
Qed.
Lemma select_enrollment_row id db e p : _select_enrollment id db = Some (e, p) → enrollments db !! id = Some e ∧ subjects db !! en_subject_id e = Some p.
Proof.
  unfold _select_enrollment. destruct (enrollments db !! id) as [e'|]; [|done]. cbn.
  destruct (subjects db !! en_subject_id e') as [p'|] eqn:Hp; [|done]. cbn. intros [= <- <-]. done.
Qed.
Lemma not_ended_open e : en_closed_at e = None → en_state e ∈ [en_requested; en_capturing; en_calibrating] → ¬ ended e.
Proof.
  intros Hc Hs [[? Hx]|Hx]; [congruence|].
  apply list_elem_of_In in Hs, Hx; cbn in Hs, Hx. naive_solver congruence.
Qed.
Lemma steady_transition id from to lost :
  from ∈ [en_requested; en_capturing; en_calibrating] → steady (_transition_state id from to lost).
Proof.
  intros Hf db. unfold _transition_state. wp_step. wp_step. cbn beta. destruct (_select_enrollment id db) as [[e p]|] eqn:Hs; [|by apply wp_raise].
  apply select_enrollment_row in Hs as [He _]. wp_step. wp_step; [|reflexivity]. wp_step. wp_step; [|reflexivity].
  bool_props. apply steady_put_enrollment; [done|]. apply not_ended_open; [by destruct (en_closed_at e)|congruence].
Qed.
Lemma steady_begin_capture id : steady (begin_capture id).
Proof. apply steady_transition. set_solver. Qed.
Lemma steady_mark_calibrating id : steady (mark_calibrating id).
Proof. apply steady_transition. set_solver. Qed.
Lemma steady_cancel_pending id now : steady (cancel_pending id now).
Proof.
  intros db. unfold cancel_pending. cbn zeta. wp_step. wp_step. cbn beta. destruct (enrollments db !! id) as [e|] eqn:He; [|by apply wp_raise].
  wp_step. wp_step; [|reflexivity]. bool_props. apply steady_put_enrollment; [done|]. by eapply pending_not_ended.
Qed.
Lemma steady_approve id ids reminder expiry now : steady (approve id ids reminder expiry now).
Proof.
  intros db. unfold approve. cbn zeta. wp_step. wp_step. cbn beta. destruct (_select_enrollment id db) as [[e p]|] eqn:Hs; [|by apply wp_raise].
  apply select_enrollment_row in Hs as [He Hp]. wp_step. wp_step; [|reflexivity]. destruct (en_synthetic_template_id e) as [expected|]; [|by apply wp_raise].
  wp_step. wp_step; [|reflexivity]. wp_step. wp_step. cbn beta. destruct (templates db !! expected) as [t|] eqn:Ht; [|by apply wp_raise].
  wp_step. wp_step; [|reflexivity]. wp_step. wp_step; [|reflexivity]. wp_step. apply wp_modify. cbn beta. bool_props.
  set (db1 := set_enrollments _ db). assert (id_evolves db db1) as Hev1.
  { apply evolve_enrollment. intros e' He'. assert (e' = e) as -> by congruence. split_and!; [done..|].
    apply not_ended_open; [by destruct (en_closed_at e)|].
    match goal with K : en_state _ = en_calibrating |- _ => rewrite K end. set_solver. }
  assert (∀ S, id_evolves db (set_subjects S db1) →
    wp (_ ← modify (λ db, set_templates (<[expected := expiring expiry t]> (templates db)) db);
        returned id "enrollment_approval_lost_ownership") (λ _, id_evolves db) (λ _, id_evolves db) (set_subjects S db1)) as Hlink.
  { intros S HS. apply wp_bind, wp_modify. eapply wp_mono; [apply steady_returned|..]; intros ? db2 Hev2;
      (etrans; [exact HS|]); (etrans; [|exact Hev2]); apply evolve_template; cbn; intros t' Ht'; simplify_eq;
      match goal with K : linkable _ _ _ = true |- _ => unfold linkable in K; by bool_props end. }
  wp_step. destruct reminder as [reminder|].
  - wp_step. wp_step; [|done]. apply wp_modify. cbn beta. apply Hlink. etrans; [exact Hev1|]. apply evolve_subject. cbn. intros q Hq. by simplify_eq.
  - apply wp_ret. assert (db1 = set_subjects (subjects db1) db1) as Heta by done. rewrite Heta. apply Hlink. by rewrite <- Heta.
Qed.
Lemma steady_disable id : steady (disable_biometric_identity id).
Proof.
  apply steady_modify. intros db. destruct (subjects db !! id) as [p|] eqn:Hp; [|reflexivity]. destruct (is_child _); [|reflexivity].
  apply evolve_subject. intros q Hq. by simplify_eq.
Qed.
Lemma steady_expire id now : steady (expire_template id now).
Proof.
  apply steady_modify. intros db. destruct (templates db !! id) as [t|] eqn:Ht; [|reflexivity].
  case_bool_decide; [|reflexivity]. apply evolve_template. intros q Hq. by simplify_eq.
Qed.
#[local] Hint Resolve steady_create_enrollment steady_begin_capture steady_mark_calibrating steady_cancel_pending steady_approve
  steady_disable steady_expire : steady.
Lemma steady_owner_required h auth : steady (require_owner h auth).
Proof.
  intros db. unfold require_owner. destruct (au_subject_id auth) as [id|]; [|by apply wp_raise].
  pose proof (steady_owner_generation h id db) as Hs. unfold wp in *.
  by destruct (require_current_owner_guardian_generation h id db) as [[?|?] ?].
Qed.
Lemma steady_consent_of s m now : steady (current_consent s m now).
Proof.
  intros db. pose proof (steady_require_current s (modality_purpose m) now db) as Hs. unfold current_consent, wp in *.
  destruct (require_current_in_uow s (modality_purpose m) now db) as [[?|[]] ?]; done.
Qed.
Lemma steady_authorization auth b action id ps now : steady (_require_authorization auth b action id ps now).
Proof. unfold _require_authorization, _require_fresh_owner_passkey. steady_steps. Qed.
Lemma steady_get_scoped h s : steady (get_scoped h s).
Proof. unfold get_scoped. steady_steps. Qed.
Lemma steady_enrolling_profile h s : steady (enrolling_profile h s).
Proof.
  intros db. pose proof (steady_get_scoped h s db) as Hs. unfold enrolling_profile, wp in *.
  destruct (get_scoped h s db) as [[?|[]] ?]; done.
Qed.
#[local] Hint Resolve steady_owner_required steady_consent_of steady_authorization steady_enrolling_profile : steady.
Lemma steady_request c auth passkey_now now template id audit : steady (request_enrollment c auth passkey_now now template id audit).
Proof. unfold request_enrollment, _request_in_active_uow. steady_steps. Qed.
Lemma steady_cancel c auth passkey_now now audit : steady (cancel_enrollment c auth passkey_now now audit).
Proof. unfold cancel_enrollment. steady_steps. Qed.
Lemma steady_complete id ids consent_id consent now audit : steady (complete_enrollment id ids consent_id consent now audit).
Proof. unfold complete_enrollment. steady_steps. Qed.
Lemma steady_expire_each due now : steady (expire_each due now).
Proof. induction due as [|[? ?] due IH]; cbn [expire_each]; steady_steps. Qed.
#[local] Hint Resolve steady_expire_each : steady.
Lemma steady_expire_due h now audit : steady (expire_due_child_templates h now audit).
Proof. unfold expire_due_child_templates. steady_steps. Qed.
End Steps.

(** ** Operations *)

Section Operations.
Context `{BS : BudgetServices} `{PS : ParameterServices} `{CN : ConsentServices} `{RT : RouteServices} `{PR : ProfileServices}.

(** [ConsentService.revoke] with the cascade of the container. *)
Definition revoke_consent (c : ConsentCommand) (auth : AuthContext) (passkey_now : Z) (fresh : UUID) (now : Z)
    (audit : nat → result exn unit) (last : result exn unit) : I (UUID * ConsentReceipt) :=
  revoke c auth passkey_now fresh now last (revoke_consent_cascade audit).

Definition is_route (k : SettingKey) : bool := match k with RouteKey _ => true | _ => false end.

(** One operation with its clock readings, fresh ids and the answers of the audit ledger.  The
    last ones are other services: the owner's profile is set up, sessions, events, templates and
    the revocation queue are written, and the budget's tables and settings, but for the routes,
    become anything. *)
Inductive identity_op :=
| OpGrant (c : ConsentCommand) (auth : AuthContext) (passkey_now : Z) (fresh : UUID) (now : Z) (audit : result exn unit)
| OpRevokeConsent (c : ConsentCommand) (auth : AuthContext) (passkey_now : Z) (fresh : UUID) (now : Z) (audit : nat → result exn unit)
    (last : result exn unit)
| OpIssueChallenge (household_id session_id : UUID) (purpose : Purpose) (disclosure_version : string) (presentation_receipt_id : UUID)
    (now : Z) (id : UUID)
| OpAcceptChallenge (id : UUID) (response : string) (now : Z) (fresh : UUID) (audit : result exn unit)
| OpRevokeGuest (household_id session_id : UUID) (purpose : Purpose) (now : Z) (fresh : UUID) (audit : result exn unit)
| OpAuthorize (r : RouteAuthorizationRequest) (id : UUID) (clock : nat → Z)
| OpConsume (id : UUID) (consumption : RouteConsumption) (clock : nat → Z)
| OpInvalidate (subject_id : UUID) (purpose : Purpose)
| OpCreateProfile (c : CreateProfile) (auth : AuthContext) (now : Z) (audit : nat → result exn unit)
| OpUpdatePersona (c : UpdatePersonaTraits) (auth : AuthContext) (now : Z) (audit : nat → result exn unit)
| OpRevokeProfile (c : RevokeProfile) (auth : AuthContext) (now : Z) (event_id : UUID) (audit : nat → result exn unit)
| OpInstallOwner (household_id subject_id : UUID) (generation : Z)
| OpRequestEnrollment (c : RequestEnrollment) (auth : AuthContext) (passkey_now now : Z) (template_id id : UUID) (audit : result exn unit)
| OpBeginCapture (id : UUID)
| OpMarkCalibrating (id : UUID)
| OpCancelEnrollment (c : CancelEnrollment) (auth : AuthContext) (passkey_now now : Z) (audit : result exn unit)
| OpCompleteEnrollment (id : UUID) (template_ids : list UUID) (consent_id : UUID) (consent : ConsentReceipt) (now : Z) (audit : result exn unit)
| OpExpireTemplates (household_id : UUID) (now : Z) (audit : result exn unit)
| OpProvisionOwner (id : UUID) (p : Profile)
| OpSessions (rows : gmap UUID SessionRow)
| OpEvents (rows : gmap UUID EventReceipt)
| OpTemplates (rows : gmap UUID TemplateRow)
| OpQueue (outbox : gmap UUID OutboxRow) (effects : gmap UUID EffectRow)
| OpReceipt (name : string) (household_id key : UUID)
| OpBudget (b : BudgetDB).

(** Commissioning installs a household's first owner outside these services; what it inserts is
    taken to be an owner's profile that passes the model's validators and has no consent yet. *)
Definition provision_owner (id : UUID) (p : Profile) : I unit :=
  unit_of_work (
    _ ← raise_if (negb (bool_decide (pf_profile_class p = owner) && bool_decide (pf_current_consent_receipt_ids p = []) && profile_ok p))
          ValidationError;
    insert_profile id p).

Definition rewrite_budget (b : BudgetDB) (db : IdentityDB) : IdentityDB :=
  set_budget (mkBudgetDB (reservations b) (calls b) (ledger b)
    (filter (λ p, is_route p.1 = false) (settings b) ∪ filter (λ p, is_route p.1 = true) (route_settings db))) db.

Definition identity_perform (o : identity_op) (db : IdentityDB) : IdentityDB :=
  match o with
  | OpGrant c auth passkey_now fresh now audit => (grant c auth passkey_now fresh now audit db).2
  | OpRevokeConsent c auth passkey_now fresh now audit last => (revoke_consent c auth passkey_now fresh now audit last db).2
  | OpIssueChallenge h s p d r now id => (issue_challenge h s p d r now id db).2
  | OpAcceptChallenge id response now fresh audit => (accept_challenge id response now fresh audit db).2
  | OpRevokeGuest h s p now fresh audit => (revoke_guest h s p now fresh audit db).2
  | OpAuthorize r id clock => (authorize r id clock db).2
  | OpConsume id consumption clock => (consume id consumption clock db).2
  | OpInvalidate s p => (unit_of_work (invalidate_subject_purpose_in_uow s p) db).2
  | OpCreateProfile c auth now audit => (create c auth now audit db).2
  | OpUpdatePersona c auth now audit => (update_persona_traits c auth now audit db).2
  | OpRevokeProfile c auth now event_id audit => (revoke_profile c auth now event_id audit db).2
  | OpInstallOwner h s generation => (unit_of_work (install_in_uow h s generation) db).2
  | OpRequestEnrollment c auth passkey_now now template_id id audit => (request_enrollment c auth passkey_now now template_id id audit db).2
  | OpBeginCapture id => (unit_of_work (begin_capture id) db).2
  | OpMarkCalibrating id => (unit_of_work (mark_calibrating id) db).2
  | OpCancelEnrollment c auth passkey_now now audit => (cancel_enrollment c auth passkey_now now audit db).2
  | OpCompleteEnrollment id ids consent_id consent now audit => (complete_enrollment id ids consent_id consent now audit db).2
  | OpExpireTemplates h now audit => (expire_due_child_templates h now audit db).2
  | OpProvisionOwner id p => (provision_owner id p db).2
  | OpSessions rows => set_sessions rows db
  | OpEvents rows => mkIdentityDB (subjects db) (owners db) (consent_receipts db) (sessions db) (challenges db) (guest_consents db) rows
      (enrollments db) (templates db) (revocation_outbox db) (revocation_effects db) (idempotency db) (id_budget db)
  | OpTemplates rows => set_templates (templates db ∪ rows) db
  | OpQueue outbox effects => set_revocation_effects effects (set_revocation_outbox outbox db)
  | OpReceipt name h key => set_idempotency ((other_operation name, h, key) :: idempotency db) db
  | OpBudget b => rewrite_budget b db
  end.
(** A new installation. *)
Definition empty_identity : IdentityDB := mkIdentityDB ∅ ∅ ∅ ∅ ∅ ∅ ∅ ∅ ∅ ∅ ∅ [] empty_budget.
Definition identity_run (ops : list identity_op) (db : IdentityDB) : IdentityDB := foldl (flip identity_perform) db ops.

Lemma steady_done {A} (m : I A) db : steady m → id_evolves db (m db).2.
Proof. intros H. specialize (H db). unfold wp in H. by destruct (m db) as [[?|?] ?]. Qed.

Lemma rewrite_budget_route b db id : route_settings (rewrite_budget b db) !! RouteKey id = route_settings db !! RouteKey id.
Proof.
  unfold route_settings at 1. cbn. rewrite lookup_union_r; [|apply map_lookup_filter_None; right; by intros ? _].
  destruct (route_settings db !! RouteKey id) as [v|] eqn:Hv.
  - by apply map_lookup_filter_Some.
  - apply map_lookup_filter_None. by left.
Qed.

Lemma perform_evolves o db : id_evolves db (identity_perform o db).
Proof.
  destruct o; cbn [identity_perform]; try (apply steady_done).
  - apply steady_grant.
  - apply steady_revoke. intros. apply steady_consent_cascade.
  - apply steady_issue.
  - apply steady_accept.
  - apply steady_revoke_guest.
  - apply steady_authorize.
  - apply steady_consume.
  - apply steady_uow, steady_invalidate.
  - apply steady_create.
  - apply steady_update_traits.
  - apply steady_revoke_profile.
  - apply steady_uow, steady_install.
  - apply steady_request.
  - apply steady_uow, steady_begin_capture.
  - apply steady_uow, steady_mark_calibrating.
  - apply steady_cancel.
  - apply steady_complete.
  - apply steady_expire_due.
  - apply steady_uow, steady_bind; [apply steady_raise_if|]. intros. apply steady_insert_profile.
  - apply evolve_sessions.
  - constructor; eauto 8.
  - constructor; eauto 8. intros id t Ht Hr. cbn. by apply lookup_union_Some_l.
  - apply evolve_queue.
  - by apply evolve_idempotency.
  - apply evolve_budget; intros id.
    + intros _. apply rewrite_budget_route.
    + intros v Hv. left. by rewrite <- (rewrite_budget_route b).
Qed.
Lemma run_evolves ops db : id_evolves db (identity_run ops db).
Proof.
  revert db. induction ops as [|o ops IH]; intros db; cbn; [reflexivity|]. etrans; [apply perform_evolves|apply IH].
Qed.
End Operations.
