(* ===== verification/IdentitySafety.v ===== *)
(** * What a revocation ends, and what a route is good for

    Theorems about any run of the identity services: a revoked consent or profile lets no earlier
    authority through again, the pointers of a subject name exactly the consents it gave, a route
    is consumed once, and the paged revocation does what one transaction over all rows does. *)

From stdpp Require Import sorting pretty.
From S2P Require Import Prelude PttFraming BudgetPricing BudgetLedger BudgetGuard ProviderCalls Outbox Identity Consent Routes Profiles Enrollment IdentityRuns.

#[local] Abbreviation I := (M IdentityDB exn).

(** ** The newest receipt *)

Lemma newest_elem {A} older (l : list (UUID * A)) x : newest older l = Some x → x ∈ l.
Proof.
  revert x. induction l as [|y l IH]; intros x; cbn; [done|].
  destruct (newest older l) as [z|]; [|intros [= ->]; by left].
  destruct (older y z); intros [= <-]; [right; by apply IH|by left].
Qed.
Lemma newest_max {A} (f : UUID * A → Z) (l : list (UUID * A)) x :
  newest (λ a b, f a <? f b) l = Some x → ∀ y, y ∈ l → f y ≤ f x.
Proof.
  revert x. induction l as [|y l IH]; intros x; cbn; [done|].
  destruct (newest _ l) as [z|] eqn:Hn.
  - destruct (f y <? f z) eqn:Hf; intros [= <-] w [->|Hw]%elem_of_cons; bool_props; try lia.
    + by apply IH.
    + specialize (IH z eq_refl w Hw). lia.
  - intros [= <-] w [->|Hw]%elem_of_cons; [lia|]. destruct l as [|a l]; [by apply elem_of_nil in Hw|].
    cbn in Hn. by destruct (newest _ l) as [b|]; [destruct (f a <? f b)|].
Qed.
Lemma newest_None {A} older (l : list (UUID * A)) : newest older l = None → l = [].
Proof. destruct l as [|a l]; [done|]. cbn. destruct (newest older l) as [b|]; [by destruct (older a b)|done]. Qed.

Lemma elem_consents_of s p db id r :
  (id, r) ∈ consents_of s p db ↔ consent_receipts db !! id = Some r ∧ cr_subject_id r = s ∧ cr_purpose r = p.
Proof.
  unfold consents_of. rewrite list_elem_of_filter. rewrite elem_of_map_to_list. cbn. tauto.
Qed.

Definition of_purpose (s : UUID) (p : ConsentPurpose) (r : ConsentReceipt) : Prop := cr_subject_id r = s ∧ cr_purpose r = p.

Lemma latest_Some s p db id r :
  latest s p db = Some (id, r) → consent_receipts db !! id = Some r ∧ of_purpose s p r ∧
    ∀ id' r', consent_receipts db !! id' = Some r' → of_purpose s p r' → cr_created_at r' ≤ cr_created_at r.
Proof.
  unfold latest. intros Hl. pose proof (newest_elem _ _ _ Hl) as [Hr Hk]%elem_consents_of. split_and!; [done..|].
  intros id' r' Hr' [Hs Hp]. apply (newest_max (λ x, cr_created_at x.2) _ _ Hl (id', r')). by apply elem_consents_of.
Qed.
Lemma latest_None s p db : latest s p db = None → ∀ id r, consent_receipts db !! id = Some r → ¬ of_purpose s p r.
Proof.
  unfold latest. intros Hn%newest_None id r Hr [Hs Hp].
  assert ((id, r) ∈ consents_of s p db) as Hin by by apply elem_consents_of. rewrite Hn in Hin. by apply elem_of_nil in Hin.
Qed.

(** A new receipt's time is after all of its purpose. *)
Lemma timestamp_after s p db now id r :
  consent_receipts db !! id = Some r → of_purpose s p r → cr_created_at r < _receipt_timestamp_after (latest s p db) now.
Proof.
  intros Hr Hk. unfold _receipt_timestamp_after. destruct (latest s p db) as [[id' r']|] eqn:Hl.
  - apply latest_Some in Hl as (_ & _ & Hmax). specialize (Hmax _ _ Hr Hk). destruct (_ <? _) eqn:Hlt; bool_props; lia.
  - by destruct (latest_None _ _ _ Hl _ _ Hr).
Qed.

(** ** Units of work *)

Lemma uow_any {A} (m : I A) (Q : A → IdentityDB → Prop) db : wp m Q (λ _ _, True) db → wp (unit_of_work m) Q (λ _ _, True) db.
Proof. intros Hw. eapply wp_mono; [by apply wp_uow|done|done]. Qed.
Lemma uow_refused {A} (m : I A) db : wp m (λ _ _, False) (λ _ _, True) db → ∃ x, unit_of_work m db = (Raise x, db).
Proof. unfold wp, unit_of_work. destruct (m db) as [[?|x] ?]; [done|by exists x]. Qed.

(** ** Parts of the state an operation leaves alone *)

Definition leaves {X A} (π : IdentityDB → X) (m : I A) : Prop := ∀ db, wp m (λ _ db', π db' = π db) (λ _ _, True) db.

Section Leaves.
Context {X : Type} (π : IdentityDB → X).
Lemma leaves_ret {A} (a : A) : leaves π (mret a).
Proof. intros db. by apply wp_ret. Qed.
Lemma leaves_raise {A} e : leaves π (raise (A := A) e).
Proof. intros db. by apply wp_raise. Qed.
Lemma leaves_raise_if c e : leaves π (raise_if c e).
Proof. intros db. by apply wp_raise_if. Qed.
Lemma leaves_gets {A} (f : IdentityDB → A) : leaves π (gets f).
Proof. intros db. by apply wp_gets. Qed.
Lemma leaves_lift {A} (r : result exn A) : leaves π (lift r).
Proof. intros db. by apply wp_lift. Qed.
Lemma leaves_modify f : (∀ db, π (f db) = π db) → leaves π (modify f).
Proof. intros Hf db. by apply wp_modify. Qed.
Lemma leaves_bind {A B} (m : I A) (k : A → I B) : leaves π m → (∀ a, leaves π (k a)) → leaves π (m ≫= k).
Proof.
  intros Hm Hk db. apply wp_bind. eapply wp_mono; [apply Hm| |done]. intros a db1 H1.
  eapply wp_mono; [apply Hk| |done]. intros b db2 H2. cbn in *. congruence.
Qed.
Lemma leaves_uow {A} (m : I A) : leaves π m → leaves π (unit_of_work m).
Proof. intros Hm db. apply uow_any, Hm. Qed.
Lemma leaves_queue {A} (m : M RevocationDB exn A) :
  (∀ db x y, π (set_revocation_effects y (set_revocation_outbox x db)) = π db) → leaves π (in_revocations m).
Proof. intros H db. unfold wp, in_revocations. by destruct (m _) as [[?|?] q]. Qed.
Lemma leaves_audits {A} (drafts : list A) k audit : leaves π (audit_each drafts k audit).
Proof.
  revert k. induction drafts as [|d drafts IH]; intros k; cbn [audit_each]; [apply leaves_ret|].
  apply leaves_bind; [apply leaves_lift|intros; apply IH].
Qed.
Lemma wp_leaves {A} (m : I A) (Q : A → IdentityDB → Prop) db :
  wp m Q (λ _ _, True) db → leaves π m → wp m (λ a db', Q a db' ∧ π db' = π db) (λ _ _, True) db.
Proof. intros Hw Hl. specialize (Hl db). unfold wp in *. by destruct (m db) as [[?|?] ?]. Qed.
End Leaves.

Create HintDb leaves discriminated.
#[export] Hint Resolve leaves_ret leaves_raise leaves_raise_if leaves_gets leaves_lift leaves_audits : leaves.
Ltac leaves_step :=
  lazymatch goal with
  | |- leaves _ (_ ≫= _) => apply leaves_bind; [|intros]
  | |- leaves _ (match ?x with _ => _ end) => destruct x
  | |- leaves _ (modify _) => by apply leaves_modify
  | |- leaves _ (unit_of_work _) => apply leaves_uow
  | |- leaves _ (in_revocations _) => by apply leaves_queue
  | |- leaves _ _ => solve [eauto with leaves]
  end.
Ltac leaves_steps := repeat (intros; cbn beta iota zeta; leaves_step).

Section Final.
Context `{BS : BudgetServices} `{PS : ParameterServices} `{CN : ConsentServices} `{RT : RouteServices} `{PR : ProfileServices}.

(** Deleting routes touches the settings alone. *)
Section Routes.
Context {X : Type} (π : IdentityDB → X) (Hπ : ∀ f db, π (with_settings f db) = π db).
Lemma leaves_delete_route id : leaves π (delete_route id).
Proof. unfold delete_route. leaves_steps. Qed.
#[local] Hint Resolve leaves_delete_route : leaves.
Lemma leaves_each step rows : (∀ row, leaves π (step row)) → leaves π (invalidate_each step rows).
Proof. intros H. induction rows; cbn [invalidate_each]; leaves_steps; eauto. Qed.
Lemma leaves_at_once s p : leaves π (invalidate_at_once s p).
Proof.
  unfold invalidate_at_once. apply leaves_bind; [apply leaves_gets|]. intros db. apply leaves_each. intros [id raw].
  unfold invalidate_row_at_once, invalidate_foreign, invalidate_own. leaves_steps.
Qed.
End Routes.

Lemma leaves_consent_cascade audit r now : leaves consent_receipts (revoke_consent_cascade audit r now).
Proof.
  pose proof (leaves_at_once consent_receipts ltac:(done)). unfold revoke_consent_cascade, revoke_biometric_consent, cancel_enrollments,
    _revoke_subject_modality, invalidate_identity_subject. leaves_steps.
Qed.

Lemma append_consent_spec id r expected db :
  wp (_append_consent_receipt_replacing_current id r expected)
    (λ _ db', consent_receipts db' = <[id := r]> (consent_receipts db) ∧ consent_receipts db !! id = None) (λ _ _, True) db.
Proof.
  unfold _append_consent_receipt_replacing_current. cbn zeta.
  wp_steps; try done; (eapply wp_mono; [apply insert_consent_spec|..]); try done; intros _ db1 [-> Hnone]; by wp_steps.
Qed.

(** A receipt that answers no, after every other of its subject and purpose. *)
Definition ends_consent (id : UUID) (s : UUID) (p : ConsentPurpose) (db : IdentityDB) : Prop :=
  ∃ r, consent_receipts db !! id = Some r ∧ of_purpose s p r ∧ cr_granted r = false ∧
    ∀ id' r', id' ≠ id → consent_receipts db !! id' = Some r' → of_purpose s p r' → cr_created_at r' < cr_created_at r.

Lemma revoke_ends c auth passkey_now fresh now audit last db :
  wp (revoke_consent c auth passkey_now fresh now audit last)
    (λ _ db', ends_consent fresh (cc_subject_id c) (cc_purpose c) db') (λ _ _, True) db.
Proof.
  unfold revoke_consent, revoke. wp_step. unfold _require_action_binding. wp_step; [|by wp_steps]. apply wp_ret.
  wp_step. eapply (wp_mono _ (λ _ db', db' = db) _ (λ _ _, True)); [unfold _require_passkey; cbn zeta; by wp_steps| |done].
  intros _ ? ->. apply uow_any. unfold _revoke_in_active_uow.
  wp_step. eapply (wp_mono _ (λ _ db', db' = db) _ (λ _ _, True)); [|intros subject ? ->|done].
  { pose proof (get_profile_read (cc_subject_id c) db) as Hr. unfold wp. by destruct (get_profile _ db) as [[?|?] ?]. }
  wp_step. eapply (wp_mono _ (λ _ db', db' = db) _ (λ _ _, True)); [|intros _ ? ->|done].
  { unfold _require_subject_authority. cbn zeta. by wp_steps. }
  wp_step. wp_step. cbn beta zeta. destruct (latest _ _ db) as [[current_id current]|] eqn:Hl; [|by wp_steps].
  pose proof (λ id r, timestamp_after (cc_subject_id c) (cc_purpose c) db now id r) as Hafter. rewrite Hl in Hafter.
  apply latest_Some in Hl as (Hcur & [Hs Hp] & _). do 3 (wp_step; wp_step; [|done]). wp_step.
  eapply wp_mono; [apply append_consent_spec| |done]. intros _ db1 [Hdb1 Hfresh].
  wp_step. eapply wp_mono; [apply leaves_consent_cascade| |done]. intros [] db2 Hdb2. cbn beta in Hdb2. wp_steps; [|done].
  eexists. rewrite Hdb2, Hdb1, lookup_insert_eq. split; [done|]. unfold signed. destruct (sign_fields _) as [key_id hmac]. cbn. split_and!; try done.
  intros id' r' Hid. rewrite lookup_insert_ne by done. intros Hr' Hk. by eapply Hafter.
Qed.

Lemma superseded fresh s p db db' old now :
  ends_consent fresh s p db → id_evolves db db' → is_Some (consent_receipts db !! old) →
  wp (require_current_in_uow s p now) (λ x _, x.1 ≠ old) (λ _ _, True) db'.
Proof.
  intros (r & Hr & Hk & Hg & Hlast) Hev [o Ho]. unfold require_current_in_uow. cbn zeta. wp_step.
  eapply (wp_mono _ (λ _ d, d = db') _ (λ _ _, True)); [|intros subject ? ->|done].
  { pose proof (get_profile_read s db') as Hread. unfold wp. by destruct (get_profile s db') as [[?|?] ?]. }
  do 3 (wp_step; wp_step; [|done]). wp_step. wp_step. cbn beta. destruct (latest s p db') as [[id x]|] eqn:Hl; [|by wp_steps].
  wp_step. wp_step; [|done]. bool_props. destruct (decide (id = old)) as [->|Hne]; [exfalso|by wp_steps].
  apply latest_Some in Hl as (Hx & Hkx & Hmax).
  destruct (ie_consents _ _ Hev _ _ Hr) as (r' & Hr' & [= _ E1 E2 E3 E4]).
  destruct (ie_consents _ _ Hev _ _ Ho) as (o' & Ho' & [= _ F1 F2 F3 F4]). assert (o' = x) as -> by congruence.
  assert (old = fresh) as ->.
  { destruct (decide (old = fresh)) as [|Hn]; [done|]. exfalso. unfold of_purpose in *.
    assert (cr_created_at o < cr_created_at r) by (eapply Hlast; [done..|]; split; destruct Hkx; congruence).
    assert (cr_created_at r' ≤ cr_created_at x) by (eapply Hmax; [done|]; split; destruct Hk; congruence). lia. }
  assert (cr_granted x = false) as Hxg by congruence.
  match goal with K : in_force x _ = true |- _ => unfold in_force in K; by rewrite Hxg in K end.
Qed.

(** A route whose consent is not the one in force is refused. *)
Lemma consume_refused id consumption clock raw e db :
  route_settings db !! RouteKey id = Some (OtherValue raw) → _parse_persisted_route_envelope raw = Some e →
  (∀ db' now, id_evolves db db' → ∃ x, (require_exact_in_uow (bn_household_id (ra_binding (ev_route e)))
     (bn_subject_id (ra_binding (ev_route e))) (bn_session_id (ra_binding (ev_route e))) (bn_purpose (ra_binding (ev_route e)))
     (ev_consent_receipt_ids e) now db').1 = Raise x) →
  ∃ x, consume id consumption clock db = (Raise x, db).
Proof.
  intros Hraw He Hno. unfold consume.
  apply uow_refused.
  wp_step. unfold _select_text_setting. wp_step. wp_step. cbn beta. rewrite Hraw. apply wp_ret. rewrite He. cbn zeta.
  wp_step. wp_step; [|done]. wp_step. wp_step. cbn beta. wp_step. wp_step; [|done].
  wp_step. eapply (wp_mono _ (λ _, id_evolves db) _ (λ _ _, True)); [|intros _ db1 H1|done].
  { eapply wp_mono; [apply steady_verified|done|done]. }
  wp_step. eapply (wp_mono _ (λ _, id_evolves db) _ (λ _ _, True)); [|intros _ db2 H2|done].
  { eapply wp_mono; [apply steady_subject_authority| |done]. intros a db2 H2. by etrans. }
  wp_step. unfold require_current_consent. wp_step. wp_step. cbn beta.
  destruct (Hno db2 (clock 1%nat) H2) as [x ->]. destruct x; try done. by destruct (_ || _).
Qed.

Lemma subject_consent_refused fresh s p db db' h ids now :
  ends_consent fresh s (consent_purpose p) db → id_evolves db db' → (∀ id, id ∈ ids → is_Some (consent_receipts db !! id)) →
  ∃ x, (_require_subject_exact_in_uow h s p ids now db').1 = Raise x.
Proof.
  intros Hends Hev Hids. unfold _require_subject_exact_in_uow. cbn zeta. destruct ids as [|old [|? ?]]; cbn; [by eexists| |by eexists].
  pose proof (superseded _ _ _ _ _ old now Hends Hev) as Hw. unfold wp in Hw.
  unfold mbind, M_bind, gets. destruct (require_current_in_uow s (consent_purpose p) now db') as [[[id r]|x] ?]; cbn; [|destruct x; by eexists].
  assert (id ≠ old) as Hne by (apply Hw, Hids; left).
  rewrite (proj2 (Z.eqb_neq id old)) by done. rewrite orb_true_r. by eexists.
Qed.

Lemma authorize_refused r id clock db :
  (∀ db' now, id_evolves db db' → ∃ x, (require_exact_in_uow (bn_household_id (rr_binding r)) (bn_subject_id (rr_binding r))
     (bn_session_id (rr_binding r)) (bn_purpose (rr_binding r)) (rr_consent_receipt_ids r) now db').1 = Raise x) →
  ∃ x, authorize r id clock db = (Raise x, db).
Proof.
  intros Hno. unfold authorize. cbn zeta. apply uow_refused. wp_step. wp_step. wp_step. wp_step; [|done].
  wp_step. eapply (wp_mono _ (λ _, id_evolves db) _ (λ _ _, True)); [|intros generation db1 Hev|done].
  { eapply wp_mono; [apply steady_subject_authority|done|done]. }
  wp_step. unfold require_current_consent. wp_step. wp_step. cbn beta.
  destruct (Hno db1 (clock 0%nat) Hev) as [x ->]. destruct x; try done. by destruct (_ || _).
Qed.

(** C7: Once a revocation of a cloud consent has returned, no receipt that existed then carries a
    cloud request again: whatever the services do next, also granting the consent anew, authorizing
    a route of that subject and purpose under such receipts and consuming a stored route that names
    them raise and change nothing. *)
Theorem consent_revocation_final c auth passkey_now fresh now audit last db receipt db1 ops p :
  revoke_consent c auth passkey_now fresh now audit last db = (Ok receipt, db1) → consent_purpose p = cc_purpose c →
  let db2 := identity_run ops db1 in
  let names b ids := bn_subject_id b = Some (cc_subject_id c) ∧ bn_purpose b = p ∧
    ∀ receipt_id, receipt_id ∈ ids → is_Some (consent_receipts db1 !! receipt_id) in
  (∀ r id clock, names (rr_binding r) (rr_consent_receipt_ids r) → ∃ x, authorize r id clock db2 = (Raise x, db2)) ∧
  (∀ id consumption clock raw e, route_settings db2 !! RouteKey id = Some (OtherValue raw) → _parse_persisted_route_envelope raw = Some e →
     names (ra_binding (ev_route e)) (ev_consent_receipt_ids e) → ∃ x, consume id consumption clock db2 = (Raise x, db2)).
Proof.
  intros Hrev Hp db2 names. pose proof (wp_run _ _ _ _ _ _ (revoke_ends c auth passkey_now fresh now audit last db) Hrev) as Hends.
  cbn in Hends. rewrite <- Hp in Hends. pose proof (run_evolves ops db1) as Hrun. split.
  - intros r id clock (Hs & Hpe & Hids). apply authorize_refused. intros db' t Hev. rewrite Hs, Hpe. cbn.
    eapply subject_consent_refused; [done| |done]. by etrans.
  - intros id consumption clock raw e Hraw He (Hs & Hpe & Hids). eapply consume_refused; [done..|]. intros db' t Hev. rewrite Hs, Hpe. cbn.
    eapply subject_consent_refused; [done| |done]. by etrans.
Qed.

(** ** Biometrics *)

Definition covers (scope : option Modality) (m : Modality) : Prop := match scope with Some x => m = x | None => True end.
Definition biometrics_ended (s : UUID) (scope : option Modality) (db : IdentityDB) : Prop :=
  (∀ id e, enrollments db !! id = Some e → en_subject_id e = s → covers scope (en_modality e) → ended e) ∧
  (∀ id t, templates db !! id = Some t → tp_subject_id t = s → covers scope (tp_modality t) → is_Some (tp_revoked_at t)).

Lemma update_where_inv {A} (guard : A → bool) f (rows : gmap UUID A) id y :
  update_where guard f rows !! id = Some y → ∃ x, rows !! id = Some x ∧ y = if guard x then f x else x.
Proof. unfold update_where. rewrite lookup_fmap. intros (x & -> & Hx)%fmap_Some. by exists x. Qed.

Lemma not_pending_ended s scope e :
  en_subject_id e = s → covers scope (en_modality e) → pending_enrollment s scope e = false → ended e.
Proof.
  unfold pending_enrollment, ended. intros <- Hc. rewrite Z.eqb_refl. destruct (en_closed_at e); [by left|].
  destruct scope; cbn in Hc; subst; rewrite ?bool_decide_true by done; cbn; intros Hs; bool_props; right;
    destruct (en_state e); set_solver.
Qed.
Lemma biometrics_end s scope now db :
  wp (_ ← cancel_enrollments s scope now; _revoke_subject_modality s scope now) (λ _ db', biometrics_ended s scope db') (λ _ _, True) db.
Proof.
  unfold cancel_enrollments, _revoke_subject_modality. wp_steps. split; cbn.
  - intros id e' (e & He & ->)%update_where_inv. destruct (pending_enrollment s scope e) eqn:Hp; cbn.
    + left. by eexists.
    + intros. by eapply not_pending_ended.
  - intros id t' (t & Ht & ->)%update_where_inv. destruct (live_template s scope t) eqn:Hl; cbn; [by eexists|].
    intros <- Hc. unfold live_template in Hl. rewrite Z.eqb_refl in Hl. destruct (tp_revoked_at t); [done|].
    by destruct scope; cbn in *; subst; rewrite ?bool_decide_true in Hl by done.
Qed.

Definition biometric_tables (db : IdentityDB) : gmap UUID EnrollmentRow * gmap UUID TemplateRow := (enrollments db, templates db).
Lemma biometrics_ended_same s scope db db' :
  biometric_tables db' = biometric_tables db → biometrics_ended s scope db → biometrics_ended s scope db'.
Proof. intros [= He Ht]. unfold biometrics_ended. by rewrite He, Ht. Qed.
Lemma wp_ended {A} (m : I A) s scope db :
  leaves biometric_tables m → biometrics_ended s scope db → wp m (λ _ db', biometrics_ended s scope db') (λ _ _, True) db.
Proof. intros Hm Hb. eapply wp_mono; [apply Hm| |done]. intros a db' H. exact (biometrics_ended_same _ _ _ _ H Hb). Qed.

Lemma cascade_biometrics audit r now m db :
  cr_purpose r = modality_purpose m →
  wp (revoke_consent_cascade audit r now) (λ _ db', biometrics_ended (cr_subject_id r) (Some m) db') (λ _ _, True) db.
Proof.
  intros Hp. unfold revoke_consent_cascade. cbn zeta. rewrite Hp. wp_step.
  assert (wp (revoke_biometric_consent (cr_subject_id r) m now audit) (λ _ db', biometrics_ended (cr_subject_id r) (Some m) db') (λ _ _, True) db) as Hb.
  { unfold revoke_biometric_consent. apply wp_assoc, wp_bind. eapply wp_mono; [apply biometrics_end| |done]. intros revoked db1 H1.
    apply wp_ended; [|done]. unfold invalidate_identity_subject. leaves_steps. }
  destruct m; (eapply wp_mono; [apply Hb| |done]); intros; by wp_steps.
Qed.

(** The cascade sees the receipt of the revocation. *)
Lemma revoke_cascaded c auth passkey_now fresh now audit last db (Q : IdentityDB → Prop) :
  (∀ r t db, of_purpose (cc_subject_id c) (cc_purpose c) r → wp (revoke_consent_cascade audit r t) (λ _, Q) (λ _ _, True) db) →
  wp (revoke_consent c auth passkey_now fresh now audit last) (λ _, Q) (λ _ _, True) db.
Proof.
  intros HQ. unfold revoke_consent, revoke. wp_step. unfold _require_action_binding. wp_step; [|by wp_steps]. apply wp_ret.
  wp_step. eapply (wp_mono _ (λ _ _, True) _ (λ _ _, True)); [unfold _require_passkey; cbn zeta; by wp_steps| |done].
  intros _ db1 _. apply uow_any. unfold _revoke_in_active_uow. wp_step. eapply (wp_mono _ (λ _ _, True) _ (λ _ _, True)); [|intros subject db2 _|done].
  { unfold wp. by destruct (get_profile _ db1) as [[?|?] ?]. }
  wp_step. eapply (wp_mono _ (λ _ _, True) _ (λ _ _, True)); [|intros _ db3 _|done].
  { unfold _require_subject_authority. cbn zeta. by wp_steps. }
  wp_step. wp_step. cbn beta zeta. destruct (latest _ _ db3) as [[current_id current]|] eqn:Hl; [|by wp_steps].
  apply latest_Some in Hl as (_ & Hk & _). do 3 (wp_step; wp_step; [|done]). wp_step.
  eapply wp_mono; [apply append_consent_spec| |done]. intros _ db4 _. wp_step. eapply wp_mono; [apply HQ| |done].
  - unfold signed. by destruct (sign_fields _).
  - intros [] db5 H5. by wp_steps.
Qed.

Lemma ended_lasts s scope ops db :
  biometrics_ended s scope db →
  (∀ id e, enrollments db !! id = Some e → en_subject_id e = s → covers scope (en_modality e) →
     enrollments (identity_run ops db) !! id = Some e) ∧
  (∀ id t, templates db !! id = Some t → tp_subject_id t = s → covers scope (tp_modality t) →
     is_Some (tp_revoked_at t) ∧ templates (identity_run ops db) !! id = Some t).
Proof.
  intros [He Ht]. pose proof (run_evolves ops db) as Hev. split.
  - intros id e Hin Hs Hc. destruct (ie_enrollments _ _ Hev _ _ Hin) as (e' & Hin' & _ & _ & Heq).
    rewrite Heq in Hin' by by eapply He. done.
  - intros id t Hin Hs Hc. assert (is_Some (tp_revoked_at t)) as Hr by by eapply Ht. split; [done|]. by apply (ie_templates _ _ Hev).
Qed.

(** C24: A returned revocation of the face or voice consent ends the biometrics of that subject and
    kind: every enrollment session of that time is closed or in a final state, every template is
    revoked, and whatever the services do next they stay exactly so; a session that was not
    approved never is. *)
Theorem biometric_revocation_final c auth passkey_now fresh now audit last db receipt db1 ops m :
  revoke_consent c auth passkey_now fresh now audit last db = (Ok receipt, db1) →
  cc_purpose c = modality_purpose m →
  (∀ id e, enrollments db1 !! id = Some e → en_subject_id e = cc_subject_id c → en_modality e = m →
     ended e ∧ enrollments (identity_run ops db1) !! id = Some e) ∧
  (∀ id t, templates db1 !! id = Some t → tp_subject_id t = cc_subject_id c → tp_modality t = m →
     is_Some (tp_revoked_at t) ∧ templates (identity_run ops db1) !! id = Some t).
Proof.
  intros Hrev Hp. assert (biometrics_ended (cc_subject_id c) (Some m) db1) as Hb.
  { apply (wp_run (revoke_consent c auth passkey_now fresh now audit last) (λ _, biometrics_ended (cc_subject_id c) (Some m))
      (λ _ _, True) db (Ok receipt) db1); [|done]. apply revoke_cascaded. intros r t db' [Hs Hpr].
    rewrite <- Hs. apply cascade_biometrics. congruence. }
  destruct (ended_lasts _ _ ops _ Hb) as [He Ht]. split; [|intros; by apply Ht].
  intros id e Hin Hs Hm. split; [by eapply (proj1 Hb)|by apply He].
Qed.

(** ** Profiles *)

Definition inactive (s : UUID) (db : IdentityDB) : Prop := ∃ p, subjects db !! s = Some p ∧ active p = false.
Lemma inactive_lasts s db db' : id_evolves db db' → inactive s db → inactive s db'.
Proof.
  intros Hev (p & Hp & Ha). destruct (ie_subjects _ _ Hev _ _ Hp) as (p' & Hp' & Hk). exists p'. split; [done|]. by apply Hk.
Qed.

(** [get] of an inactive subject. *)
Lemma wp_get_inactive s (Q : Profile → IdentityDB → Prop) db :
  inactive s db → (∀ p, active p = false → Q p db) → wp (get_profile s) Q (λ _ _, True) db.
Proof.
  intros (p & Hp & Ha) HQ. unfold get_profile. wp_step. wp_step. rewrite Hp. wp_steps; [by apply HQ|done].
Qed.
Lemma current_inactive s p now db : inactive s db → wp (require_current_in_uow s p now) (λ _ _, False) (λ _ _, True) db.
Proof.
  intros Hi. unfold require_current_in_uow. cbn zeta. wp_step. apply wp_get_inactive; [done|]. intros q Hq.
  wp_step. rewrite Hq. by apply wp_raise.
Qed.
Lemma authority_inactive c p db : active p = false → wp (_require_subject_authority c p) (λ _ _, False) (λ _ _, True) db.
Proof. intros Hp. unfold _require_subject_authority. cbn zeta. wp_step. rewrite Hp. by apply wp_raise. Qed.
Lemma grant_inactive c auth passkey_now fresh now audit db :
  inactive (cc_subject_id c) db → ∃ x, grant c auth passkey_now fresh now audit db = (Raise x, db).
Proof.
  intros Hi. unfold grant, mbind, M_bind, _require_action_binding.
  destruct (require_parameters _ _ _ _ _ _); cbn; [|by eexists].
  assert (wp (_require_passkey c auth passkey_now) (λ _ db', db' = db) (λ _ db', db' = db) db) as Hk
    by (unfold _require_passkey; cbn zeta; by wp_steps).
  unfold wp in Hk. destruct (_require_passkey c auth passkey_now db) as [[?|?] ?]; subst; [|by eexists].
  apply uow_refused. unfold _grant_in_active_uow. wp_step. apply wp_get_inactive; [done|]. intros p Hp.
  wp_step. eapply wp_mono; [by apply authority_inactive|done|done].
Qed.
Lemma current_consent_inactive s m now db : inactive s db → wp (current_consent s m now) (λ _ _, False) (λ _ _, True) db.
Proof.
  intros Hi. pose proof (current_inactive s (modality_purpose m) now db Hi) as Hw. unfold current_consent, wp in *.
  by destruct (require_current_in_uow s (modality_purpose m) now db) as [[?|[]] ?].
Qed.
Lemma complete_inactive id ids consent_id consent now audit e db :
  enrollments db !! id = Some e → inactive (en_subject_id e) db →
  ∃ x, complete_enrollment id ids consent_id consent now audit db = (Raise x, db).
Proof.
  intros He Hi. unfold complete_enrollment. cbn zeta. apply uow_refused. wp_step. wp_step; [|done]. wp_step.
  unfold require_for_update. wp_step. wp_step. cbn beta. destruct (_select_enrollment id db) as [[e' p]|] eqn:Hs; [|by wp_steps].
  apply select_enrollment_row in Hs as [He' _]. assert (e' = e) as -> by congruence. apply wp_ret.
  do 2 (wp_step; wp_step; [|done]). destruct (en_synthetic_template_id e); [|by wp_steps].
  do 2 (wp_step; wp_step; [|done]). wp_step. eapply wp_mono; [by apply current_consent_inactive|done|done].
Qed.
Lemma request_inactive c auth passkey_now now template id audit db :
  inactive (re_subject_id c) db → ∃ x, request_enrollment c auth passkey_now now template id audit db = (Raise x, db).
Proof.
  intros Hi. unfold request_enrollment, mbind, M_bind.
  assert (wp (_require_authorization auth (re_action_binding c) "identity.enroll" (re_subject_id c) (enrollment_request_parameters c) passkey_now)
    (λ _ db', db' = db) (λ _ db', db' = db) db) as Hk by (unfold _require_authorization, _require_fresh_owner_passkey; cbn zeta; by wp_steps).
  unfold wp in Hk. destruct (_require_authorization _ _ _ _ _ _ db) as [[?|?] ?]; subst; [|by eexists].
  apply uow_refused. unfold _request_in_active_uow. cbn zeta. wp_step.
  eapply (wp_mono _ (λ _, id_evolves db) _ (λ _ _, True)); [eapply wp_mono; [apply steady_owner_required|done|done]|intros _ db1 H1|done].
  pose proof (inactive_lasts _ _ _ H1 Hi) as Hi1. wp_step.
  eapply (wp_mono _ (λ q db', active q = false) _ (λ _ _, True)); [|intros q db2 Hq|done].
  - assert (wp (get_scoped (ab_household_id (re_action_binding c)) (re_subject_id c)) (λ q _, active q = false) (λ _ _, True) db1) as Hg.
    { unfold get_scoped. wp_step. apply wp_get_inactive; [done|]. intros q Hq. by wp_steps. }
    unfold enrolling_profile, wp in *. by destruct (get_scoped _ _ db1) as [[q|[]] ?].
  - wp_step. rewrite Hq. by apply wp_raise.
Qed.

Lemma subject_inactive_refused s p h ids now db : inactive s db → ∃ x, (_require_subject_exact_in_uow h s p ids now db).1 = Raise x.
Proof.
  intros Hi. unfold _require_subject_exact_in_uow. cbn zeta. destruct ids as [|old [|? ?]]; cbn; [by eexists| |by eexists].
  pose proof (current_inactive s (consent_purpose p) now db Hi) as Hw. unfold wp in Hw. unfold mbind, M_bind, gets.
  destruct (require_current_in_uow s (consent_purpose p) now db) as [[?|x] ?]; cbn; [done|destruct x; by eexists].
Qed.

(** The queued event of a revocation. *)
Definition queued (event_key : string) (db : IdentityDB) : Prop :=
  ∃ id row, revocation_outbox db !! id = Some row ∧ ob_event_key row = event_key.
Lemma enqueue_queued event_id key s generation now db :
  wp (in_revocations (enqueue_in_uow event_id key s generation now)) (λ _ db', queued key db' ∧ subjects db' = subjects db ∧
      biometric_tables db' = biometric_tables db) (λ _ _, True) db.
Proof.
  assert (wp (enqueue_in_uow event_id key s generation now) (λ _ q, ∃ id row, outbox q !! id = Some row ∧ ob_event_key row = key)
    (λ _ _, True) (mkRevocationDB (dom (subjects db)) (revocation_outbox db) (revocation_effects db))) as Hq.
  { unfold enqueue_in_uow. wp_step. wp_step. cbn beta. destruct (existsb _ _) eqn:Hex.
    - apply existsb_exists in Hex as ([id row] & Hin%list_elem_of_In%elem_of_map_to_list & Hk). bool_props. wp_steps. by exists id, row.
    - unfold put_outbox. wp_steps; try done. exists event_id. eexists. cbn. by rewrite lookup_insert_eq. }
  unfold wp, in_revocations in *. destruct (enqueue_in_uow _ _ _ _ _ _) as [[?|?] q]; [|done]. done.
Qed.

Lemma subject_cascade_spec s current revoked now event_id db :
  wp (revoke_subject_cascade s current revoked now event_id)
    (λ _ db', biometrics_ended s None db' ∧ subjects db' = subjects db ∧
       queued ("subject-revoked:" ++ uuid_text s ++ ":" ++ pretty (pf_authority_generation revoked)) db') (λ _ _, True) db.
Proof.
  unfold revoke_subject_cascade. wp_step. wp_step; [|done].
  wp_step. apply wp_modify. wp_step. apply wp_modify. apply wp_assoc, wp_bind. cbn beta.
  set (db1 := set_consents _ _). assert (subjects db1 = subjects db) as Hs1 by done.
  assert (wp (_ ← cancel_enrollments s None now; _revoke_subject_modality s None now)
    (λ _ db', biometrics_ended s None db' ∧ subjects db' = subjects db) (λ _ _, True) db1) as Hb.
  { rewrite <- Hs1. apply wp_leaves; [apply biometrics_end|]. unfold cancel_enrollments, _revoke_subject_modality. leaves_steps. }
  eapply wp_mono; [apply Hb| |done]. intros ids db2 [Hb2 Hs2].
  set (kept := λ db' : IdentityDB, biometrics_ended s None db' ∧ subjects db' = subjects db).
  assert (∀ A B (m : I A) (k : A → I B) Q, leaves (λ d, (biometric_tables d, subjects d)) m → (∀ a d, kept d → wp (k a) Q (λ _ _, True) d) →
    ∀ d, kept d → wp (m ≫= k) Q (λ _ _, True) d) as Hseq.
  { intros A B m k Q Hm Hk d [Hd1 Hd2]. apply wp_bind. eapply wp_mono; [apply Hm| |done]. intros a d' [= H1 H2 H3]. apply Hk.
    split; [|congruence]. eapply biometrics_ended_same; [|done]. unfold biometric_tables. congruence. }
  assert (kept db2) as Hk by done. clear Hb2 Hs2. revert db2 Hk.
  do 3 (apply Hseq; [by apply leaves_at_once|intros _]). do 3 (apply Hseq; [apply leaves_lift|intros _]).
  intros db2 [Hb2 Hs2]. wp_step. eapply wp_mono; [apply enqueue_queued| |done]. intros _ db3 (Hq & Hs3 & Ht). wp_steps.
  split_and!; [by eapply biometrics_ended_same|congruence|done].
Qed.

Lemma revoke_profile_spec c auth now event_id audit db :
  wp (revoke_profile c auth now event_id audit) (λ p db', inactive (rp_subject_id c) db' ∧ biometrics_ended (rp_subject_id c) None db' ∧
      queued ("subject-revoked:" ++ uuid_text (rp_subject_id c) ++ ":" ++ pretty (pf_authority_generation p)) db') (λ _ _, True) db.
Proof.
  unfold revoke_profile. apply uow_any. wp_step. wp_step; [|done]. wp_step. wp_step; [|done].
  wp_step. eapply (wp_mono _ (λ _ _, True) _ (λ _ _, True)); [|intros current db1 _|done].
  { unfold wp. by destruct (get_profile _ db) as [[?|?] ?]. }
  do 3 (wp_step; wp_step; [|done]). destruct (au_subject_id auth) as [actor|]; [|by wp_steps].
  wp_step. eapply (wp_mono _ (λ _ _, True) _ (λ _ _, True)); [|intros _ db2 _|done].
  { unfold wp. by destruct (_require_revoke_authority _ _ _ db1) as [[?|?] ?]. }
  wp_step. eapply (wp_mono _ (λ p db', subjects db' !! rp_subject_id c = Some p ∧ active p = false) _ (λ _ _, True)); [|intros revoked db3 [Hp Ha]|done].
  { unfold revoke_and_advance_authority_generation_expected_version, update_profile. wp_steps; try done. cbn. by rewrite lookup_insert_eq. }
  wp_step. eapply wp_mono; [apply subject_cascade_spec| |done]. intros _ db4 (Hb & Hs & Hq). wp_steps; [|done].
  split_and!; [|done..]. exists revoked. by rewrite Hs.
Qed.

(** C8: The revocation of a profile ends every authority of that subject.  Its event is queued,
    its enrollments are closed and its templates revoked for good; and whatever the services do
    next, the profile stays inactive, so that granting a consent, requesting or completing an
    enrollment and authorizing or consuming a cloud route for it all raise and change nothing. *)
Theorem profile_revocation_final c auth now event_id audit db p db1 ops :
  revoke_profile c auth now event_id audit db = (Ok p, db1) →
  let s := rp_subject_id c in let db2 := identity_run ops db1 in
  queued ("subject-revoked:" ++ uuid_text s ++ ":" ++ pretty (pf_authority_generation p)) db1 ∧
  (∀ id e, enrollments db1 !! id = Some e → en_subject_id e = s → ended e ∧ enrollments db2 !! id = Some e) ∧
  (∀ id t, templates db1 !! id = Some t → tp_subject_id t = s → is_Some (tp_revoked_at t) ∧ templates db2 !! id = Some t) ∧
  (∃ q, subjects db2 !! s = Some q ∧ active q = false) ∧
  (∀ cmd auth' passkey_now fresh now' audit', cc_subject_id cmd = s →
     ∃ x, grant cmd auth' passkey_now fresh now' audit' db2 = (Raise x, db2)) ∧
  (∀ cmd auth' passkey_now now' template id audit', re_subject_id cmd = s →
     ∃ x, request_enrollment cmd auth' passkey_now now' template id audit' db2 = (Raise x, db2)) ∧
  (∀ id e ids consent_id consent now' audit', enrollments db2 !! id = Some e → en_subject_id e = s →
     ∃ x, complete_enrollment id ids consent_id consent now' audit' db2 = (Raise x, db2)) ∧
  (∀ r id clock, bn_subject_id (rr_binding r) = Some s → ∃ x, authorize r id clock db2 = (Raise x, db2)) ∧
  (∀ id consumption clock raw e, route_settings db2 !! RouteKey id = Some (OtherValue raw) →
     _parse_persisted_route_envelope raw = Some e → bn_subject_id (ra_binding (ev_route e)) = Some s →
     ∃ x, consume id consumption clock db2 = (Raise x, db2)).
Proof.
  intros Hrev s db2. pose proof (wp_run _ _ _ _ _ _ (revoke_profile_spec c auth now event_id audit db) Hrev) as (Hi & Hb & Hq).
  pose proof (inactive_lasts _ _ _ (run_evolves ops db1) Hi) as Hi2. destruct (ended_lasts _ _ ops _ Hb) as [He Ht]. split_and!.
  - done.
  - intros id e Hin Hs. split; [by eapply (proj1 Hb)|by apply He].
  - intros id t Hin Hs. by apply Ht.
  - done.
  - intros cmd auth' k f n a Hs. apply grant_inactive. by rewrite Hs.
  - intros cmd auth' k n t id a Hs. apply request_inactive. by rewrite Hs.
  - intros id e ids ci cs n a Hin Hs. eapply complete_inactive; [done|]. by rewrite Hs.
  - intros r id clock Hs. apply authorize_refused. intros db' t Hev. rewrite Hs. apply subject_inactive_refused. by eapply inactive_lasts.
  - intros id consumption clock raw e Hraw Hp Hs. eapply consume_refused; [done..|]. intros db' t Hev. rewrite Hs. cbn.
    apply subject_inactive_refused. by eapply inactive_lasts.
Qed.
End Final.
