(* ===== verification/RouteSafety.v ===== *)
(** * Routes are consumed once, and revoked alike in pages and at once

    The paged revocation equals a single pass of its own loop body on every store.  The cascade's
    one-pass revocation differs from it only on a route stored under another id than its own; no
    run of the services stores such a route, nor one consumed twice, so on what they have written
    the two agree. *)

From stdpp Require Import sorting.
From S2P Require Import Prelude PttFraming BudgetPricing BudgetLedger BudgetGuard ProviderCalls Outbox Identity Consent Routes Profiles Enrollment IdentityRuns IdentitySafety.

#[local] Abbreviation I := (M IdentityDB exn).

Section Consumption.
Context `{BS : BudgetServices} `{PS : ParameterServices} `{CN : ConsentServices} `{RT : RouteServices} `{PR : ProfileServices}.

(** What a consumption was checked against: the route as it was authorized, the session, the
    consent and the reservation it was authorized for. *)
Definition entitled (id : UUID) (consumption : RouteConsumption) (clock : nat → Z) (e : Envelope) (db : IdentityDB) : Prop :=
  let route := ev_route e in let b := ra_binding route in
  (∃ raw, route_settings db !! RouteKey id = Some (OtherValue raw) ∧ _parse_persisted_route_envelope raw = Some e) ∧
  ra_authorization_id route = id ∧
  verify_route_consumption route consumption (clock 4%nat) = Ok tt ∧
  (require_exact_in_uow (bn_household_id b) (bn_subject_id b) (bn_session_id b) (bn_purpose b) (ev_consent_receipt_ids e) (clock 1%nat) db).1 = Ok tt ∧
  (∃ s, sessions db !! bn_session_id b = Some s ∧ ss_state s = "active"%string ∧ ss_closed_at s = None ∧ ss_speaker_subject_id s = bn_subject_id b) ∧
  (∃ r, reservations (id_budget db) !! ra_budget_reservation_id route = Some r ∧
     reservation_matches b (ra_max_input_units route) (clock 3%nat) r = true).

Lemma route_consume_spec id consumption clock db :
  wp (consume id consumption clock) (λ _ db', (∃ e, entitled id consumption clock e db) ∧ consumed_route id db') (λ _ _, True) db.
Proof.
  unfold consume. apply uow_any. wp_step. unfold _select_text_setting. wp_step. wp_step. cbn beta.
  destruct (route_settings db !! RouteKey id) as [[| | |raw]|] eqn:Hraw; [done..| |by wp_steps]. apply wp_ret.
  destruct (_parse_persisted_route_envelope raw) as [e|] eqn:He; [|done]. cbn zeta.
  wp_step. wp_step; [|done]. wp_step. wp_step. cbn beta. wp_step. wp_step; [|done]. bool_props.
  wp_step. apply wp_verified. intros _. wp_step. apply wp_subject_authority. intros _. wp_step. apply wp_current_consent. intros Hconsent.
  wp_step. apply wp_verified. intros _. unfold persist_consumption. cbn zeta. wp_step. wp_step; [|done].
  wp_step. apply wp_verified. intros _. wp_step. apply wp_runtime_state. intros s r Hs Ha Hc Hsp Hr Hm.
  wp_step. wp_step; [|done]. wp_step. apply wp_verified. intros Hv. unfold insert_idempotency. wp_steps; [|done].
  split; [exists e; split_and!; try done; eauto 8|]. exists raw, e. split_and!; try done. cbn. subst id. left.
Qed.

Lemma consumed_refused id consumption clock db : consumed_route id db → ∃ x, consume id consumption clock db = (Raise x, db).
Proof.
  intros (raw & e & Hraw & He & Ha & Hin). unfold consume. apply uow_refused. wp_step. unfold _select_text_setting. wp_step. wp_step. cbn beta.
  rewrite Hraw. apply wp_ret. rewrite He. cbn zeta. wp_step. wp_step; [|done]. wp_step. wp_step. cbn beta. wp_step.
  unfold _idempotency_exists. rewrite Ha, bool_decide_true by done. by apply wp_raise.
Qed.

(** C9: A cloud route is consumed at most once and only by the request it was authorized for: a
    consumption that returns matched the stored route, was not expired, had the consent in force
    that the route names, the session still active with that speaker and an unclaimed reservation;
    and whatever the services do next, consuming the route again raises and changes nothing. *)
Theorem route_consumed_once id consumption clock db db1 ops consumption' clock' :
  consume id consumption clock db = (Ok tt, db1) →
  (∃ e, entitled id consumption clock e db) ∧
  ∃ x, consume id consumption' clock' (identity_run ops db1) = (Raise x, identity_run ops db1).
Proof.
  intros Hc. pose proof (wp_run _ _ _ _ _ _ (route_consume_spec id consumption clock db) Hc) as [He Hd]. split; [done|].
  apply consumed_refused. eapply consumed_route_kept; [apply run_evolves|done].
Qed.
End Consumption.

(** ** Revocation in pages *)

Lemma StronglySorted_filter {A} (R : relation A) (P : A → Prop) `{∀ x, Decision (P x)} (l : list A) :
  StronglySorted R l → StronglySorted R (filter P l).
Proof.
  induction 1 as [|x l Hl IH Hx]; [constructor|]. rewrite filter_cons. case_decide; [|done]. constructor; [done|].
  apply Forall_forall. intros y [_ Hy]%list_elem_of_filter. by eapply Forall_forall.
Qed.
#[local] Instance key_le_trans : Transitive key_le.
Proof. unfold key_le. intros ???. lia. Qed.
#[local] Instance key_le_total : Total key_le.
Proof. unfold key_le. intros ??. lia. Qed.

Section Pages.
Context `{RT : RouteServices} (s : UUID) (p : Purpose).

(** The stored routes are keyed by their own ids, and SQLite reads the fields that parsing does. *)
Definition own_routes (db : IdentityDB) : Prop :=
  ∀ id raw e, route_settings db !! RouteKey id = Some (OtherValue raw) → _parse_persisted_route_envelope raw = Some e →
    ra_authorization_id (ev_route e) = id ∧ json_route_subject_id raw = bn_subject_id (ra_binding (ev_route e)) ∧
    json_route_purpose raw = Some (bn_purpose (ra_binding (ev_route e))).

(** Only stored routes were consumed, each once. *)
Definition consumed_soundly (db : IdentityDB) : Prop :=
  ∀ id, count_consumptions id db = 0 ∨ count_consumptions id db = 1 ∧ consumed_route id db.

Definition stored (row : UUID * string) (db : IdentityDB) : Prop := route_settings db !! RouteKey row.1 = Some (OtherValue row.2).

Lemma elem_route_rows row db :
  row ∈ route_rows s p db ↔ stored row db ∧ json_route_subject_id row.2 = Some s ∧ json_route_purpose row.2 = Some p.
Proof.
  unfold route_rows, stored. rewrite merge_sort_Permutation, list_elem_of_omap. split.
  - intros ([k v] & Hk%elem_of_map_to_list & Hr). unfold route_row in Hr. destruct k, v; try done.
    destruct (_ && _) eqn:Hb; [|done]. bool_props. by simplify_eq.
  - intros (Hst & Hs & Hp). exists (RouteKey row.1, OtherValue row.2). rewrite elem_of_map_to_list. split; [done|]. cbn.
    rewrite !bool_decide_true by done. cbn. by destruct row.
Qed.
Lemma route_rows_NoDup db : NoDup (route_rows s p db).
Proof.
  unfold route_rows. rewrite merge_sort_Permutation. apply NoDup_omap_strong; [|apply NoDup_map_to_list].
  intros [k v] [k' v'] z _ _. unfold route_row. destruct k, v; try done; destruct k', v'; try done. repeat case_match; naive_solver.
Qed.
Lemma route_rows_keys db : NoDup (route_rows s p db).*1.
Proof.
  apply NoDup_fmap_2_strong; [|apply route_rows_NoDup]. intros [id raw] [id' raw'] [H1 _]%elem_route_rows [H2 _]%elem_route_rows.
  unfold stored in *. cbn in *. intros ->. congruence.
Qed.
Lemma route_rows_sorted db : StronglySorted key_le (route_rows s p db).
Proof. apply StronglySorted_merge_sort; apply _. Qed.

#[local] Abbreviation beyond c l := (filter (λ row, after c row = true) l).

(** A page depends on the rows after the cursor only. *)
Lemma rows_after c db db' :
  (∀ row, after c row = true → route_settings db' !! RouteKey row.1 = route_settings db !! RouteKey row.1) →
  beyond c (route_rows s p db') = beyond c (route_rows s p db).
Proof.
  intros Heq. assert (∀ row, after c row = true → stored row db' ↔ stored row db) as Hst.
  { intros row Hr. unfold stored. by rewrite Heq. }
  apply (StronglySorted_unique_strong key_le).
  - intros [id raw] [id' raw'] [Ha [H1 _]%elem_route_rows]%list_elem_of_filter [Ha' [H2 _]%elem_route_rows]%list_elem_of_filter Hle Hle'.
    unfold key_le in *. cbn in *. assert (id = id') as -> by lia. rewrite Hst in H1 by done. unfold stored in *. cbn in *. congruence.
  - apply StronglySorted_filter, route_rows_sorted.
  - apply StronglySorted_filter, route_rows_sorted.
  - apply NoDup_Permutation; [apply NoDup_filter, route_rows_NoDup..|]. intros row.
    rewrite !list_elem_of_filter, !elem_route_rows. specialize (Hst row). tauto.
Qed.

(** *** Paging is one pass *)

(** Deleting a row touches its own key alone. *)
Lemma delete_route_touches id d r d' id' :
  delete_route id d = (r, d') → id' ≠ id → route_settings d' !! RouteKey id' = route_settings d !! RouteKey id'.
Proof.
  intros H Hne. pose proof (wp_run _ _ _ _ _ _ (delete_route_spec id d) H) as Hw. destruct r.
  - destruct Hw as [-> _]. unfold route_settings. cbn. rewrite lookup_delete_ne; [done|congruence].
  - by subst.
Qed.
Definition touches (step : UUID * string → I (list UUID)) : Prop :=
  ∀ row d r d' id, step row d = (r, d') → id ≠ row.1 → route_settings d' !! RouteKey id = route_settings d !! RouteKey id.
Lemma deleting_touches {A} id (a : A) d r d' id' :
  (_ ← delete_route id; mret a) d = (r, d') → id' ≠ id → route_settings d' !! RouteKey id' = route_settings d !! RouteKey id'.
Proof.
  unfold mbind, M_bind. destruct (delete_route id d) as [[[]|x] d1] eqn:Hd; intros [= <- <-]; by eapply delete_route_touches.
Qed.
Lemma foreign_touches id d r d' id' :
  invalidate_foreign id d = (r, d') → id' ≠ id → route_settings d' !! RouteKey id' = route_settings d !! RouteKey id'.
Proof.
  unfold invalidate_foreign, gets, lift. unfold mbind at 1 2, M_bind at 1 2.
  destruct (_consumption_exists_any_scope id d) as [[]|x]; [by intros [= <- <-]|by apply deleting_touches|by intros [= <- <-]].
Qed.
Lemma row_touches : touches (invalidate_row s p).
Proof.
  intros [id raw] d r d' id'. unfold invalidate_row. cbn [fst]. destruct (_parse_persisted_route_envelope raw) as [e|]; [|apply foreign_touches].
  destruct (negb _); [apply foreign_touches|]. unfold invalidate_own, gets. cbn zeta. unfold mbind at 1, M_bind at 1.
  destruct (_ || _); [by intros [= <- <-]|]. destruct (_idempotency_exists _ _ _ _); [by intros [= <- <-]|]. apply deleting_touches.
Qed.
Lemma each_touches step rows d r d' id :
  touches step → invalidate_each step rows d = (r, d') → id ∉ rows.*1 →
  route_settings d' !! RouteKey id = route_settings d !! RouteKey id.
Proof.
  intros Hstep. revert d r. induction rows as [|row rows IH]; intros d r; cbn [invalidate_each].
  { by intros [= <- <-]. }
  unfold mbind, M_bind. destruct (step row d) as [[ids|x] d1] eqn:H1.
  - destruct (invalidate_each step rows d1) as [[rest|x] d2] eqn:H2; intros [= <- <-] [Hne Hin]%not_elem_of_cons;
      (etrans; [by eapply IH|by eapply Hstep]).
  - intros [= <- <-] [Hne _]%not_elem_of_cons. by eapply Hstep.
Qed.
Lemma each_app step t u d :
  invalidate_each step (t ++ u) d =
    match invalidate_each step t d with
    | (Ok ids, d1) => match invalidate_each step u d1 with (Ok rest, d2) => (Ok (ids ++ rest), d2) | (Raise x, d2) => (Raise x, d2) end
    | (Raise x, d1) => (Raise x, d1)
    end.
Proof.
  revert d. induction t as [|row t IH]; intros d; cbn [app invalidate_each].
  { unfold mret, M_ret. by destruct (invalidate_each step u d) as [[?|?] ?]. }
  unfold mbind, M_bind. destruct (step row d) as [[ids|x] d1]; [|done]. rewrite IH.
  destruct (invalidate_each step t d1) as [[rest|x] d2]; [|done]. unfold mret, M_ret.
  destruct (invalidate_each step u d2) as [[more|x] d3]; [|done]. by rewrite app_assoc.
Qed.

(** A page's last key splits the rows. *)
Lemma filter_filter_imp {A} (P Q : A → Prop) `{∀ x, Decision (P x), ∀ x, Decision (Q x)} (l : list A) :
  (∀ x, P x → Q x) → filter P (filter Q l) = filter P l.
Proof.
  intros Hi. induction l as [|x l IH]; [done|]. rewrite !filter_cons. destruct (decide (Q x)) as [Hq|Hq].
  - rewrite filter_cons, IH. done.
  - rewrite decide_False by auto. apply IH.
Qed.
Lemma beyond_last c l t u id raw :
  StronglySorted key_le l → NoDup l.*1 → beyond c l = t ++ u → last t = Some (id, raw) →
  beyond (Some id) l = u ∧ (∀ row, row ∈ t → after (Some id) row = false) ∧ after c (id, raw) = true.
Proof.
  intros Hsort Hnd Hb [t' ->]%last_Some. assert (after c (id, raw) = true) as Hid.
  { assert ((id, raw) ∈ beyond c l) as [? _]%list_elem_of_filter by (rewrite Hb; set_solver). done. }
  pose proof (StronglySorted_filter key_le (λ row, after c row = true) l Hsort) as Hs. rewrite Hb in Hs.
  assert (NoDup (beyond c l).*1) as Hnd' by (eapply sublist_NoDup; [exact Hnd|apply fmap_sublist, sublist_filter]).
  rewrite Hb, fmap_app, fmap_app in Hnd'. apply NoDup_app in Hnd' as (_ & Hdis & _).
  assert (∀ row : UUID * string, row ∈ t' ++ [(id, raw)] → row.1 ≤ id) as Hle.
  { intros row [Hin|Hin]%elem_of_app.
    - apply StronglySorted_app_1_l in Hs. by apply (StronglySorted_app_1_elem_of _ _ _ row (id, raw) Hs Hin); left.
    - apply list_elem_of_singleton in Hin as ->. cbn. lia. }
  assert (∀ row : UUID * string, row ∈ u → id < row.1) as Hlt.
  { intros row Hin. assert (id ≤ row.1) by (apply (StronglySorted_app_1_elem_of _ _ _ (id, raw) row Hs); set_solver).
    assert (row.1 ≠ id); [|lia]. intros Heq. apply (Hdis id); [set_solver|]. rewrite <- Heq. by apply list_elem_of_fmap_2. }
  split_and!; [|intros row Hin; apply Z.ltb_ge; by apply Hle|done].
  rewrite <- (filter_filter_imp _ (λ row, after c row = true)).
  - rewrite Hb, filter_app. rewrite filter_none.
    + cbn. apply filter_all. apply Forall_forall. intros row Hin. apply Z.ltb_lt. by apply Hlt.
    + apply Forall_forall. intros row Hin. cbn. specialize (Hle row Hin). destruct (id <? row.1) eqn:Hx; [exfalso; bool_props; lia|done].
  - intros row. destruct c as [k|]; [|done]. cbn in *. bool_props. intros. bool_props. apply Z.ltb_lt. lia.
Qed.

Lemma batches_run d n c acc :
  (length (beyond c (route_rows s p d)) < n)%nat →
  invalidate_batches n s p c acc d =
    match invalidate_each (invalidate_row s p) (beyond c (route_rows s p d)) d with
    | (Ok ids, d') => (Ok (acc ++ ids), d')
    | (Raise x, d') => (Raise x, d')
    end.
Proof.
  revert d c acc. induction n as [|n IH]; intros d c acc Hlen; [lia|].
  set (rows := route_rows s p d) in *. set (t := take _REVOCATION_SCAN_BATCH_SIZE (beyond c rows)).
  set (u := drop _REVOCATION_SCAN_BATCH_SIZE (beyond c rows)).
  assert (beyond c rows = t ++ u) as Hb by (symmetry; apply take_drop).
  cbn [invalidate_batches]. unfold invalidate_batch. unfold mbind, M_bind, gets. cbn beta iota zeta. fold rows. fold t.
  rewrite Hb, each_app. destruct (invalidate_each (invalidate_row s p) t d) as [[ids|x] d1] eqn:Ht; [|done].
  unfold mret at 1, M_ret at 1. cbn beta iota zeta. case_bool_decide as Hshort.
  - assert (u = []) as ->.
    { apply nil_length_inv. subst t u. rewrite length_take in Hshort. rewrite length_drop. lia. }
    cbn. by rewrite app_nil_r.
  - destruct (last t) as [[id raw]|] eqn:Hl.
    2: { apply last_None in Hl. rewrite Hl in Hshort. cbn in Hshort. unfold _REVOCATION_SCAN_BATCH_SIZE in Hshort. lia. }
    destruct (beyond_last _ _ _ _ _ _ (route_rows_sorted d) (route_rows_keys d) Hb Hl) as (Hnext & Hold & Hid). fold rows in Hnext.
    assert (beyond (Some id) (route_rows s p d1) = u) as Hpage.
    { rewrite <- Hnext. apply rows_after. intros row Hr. eapply each_touches; [apply row_touches|exact Ht|].
      intros (row' & Heq & Hin)%list_elem_of_fmap. apply Hold in Hin. cbn in Hr, Hin. rewrite <- Heq in Hin. by rewrite Hr in Hin. }
    rewrite IH, Hpage.
    + destruct (invalidate_each (invalidate_row s p) u d1) as [[more|x] d2]; [|done]. by rewrite app_assoc.
    + rewrite Hpage. rewrite Hb, length_app in Hlen. unfold _REVOCATION_SCAN_BATCH_SIZE in Hshort. lia.
Qed.

(** Pages of 128 with a cursor, or one pass: the same answer and the same state, for any store. *)
Lemma paged_one_pass db :
  invalidate_subject_purpose_in_uow s p db = invalidate_each (invalidate_row s p) (route_rows s p db) db.
Proof.
  assert (beyond None (route_rows s p db) = route_rows s p db) as Hall by (apply filter_all, Forall_forall; done).
  unfold invalidate_subject_purpose_in_uow, gets. unfold mbind at 1, M_bind at 1.
  rewrite (batches_run db (S (length (route_rows s p db))) None []); rewrite Hall; [|lia].
  by destruct (invalidate_each _ _ _) as [[?|?] ?].
Qed.

(** *** What one pass does to a sound store *)

(** Which rows a revocation deletes. *)
Definition goes (db : IdentityDB) (row : UUID * string) : bool :=
  match _parse_persisted_route_envelope row.2 with
  | None => count_consumptions row.1 db =? 0
  | Some e => negb (_idempotency_exists provider_route_consume (bn_household_id (ra_binding (ev_route e))) (ra_authorization_id (ev_route e)) db)
  end.
Definition gone (db : IdentityDB) (rows : list (UUID * string)) : list UUID := (filter (λ row, goes db row = true) rows).*1.
Fixpoint drop_routes (ids : list UUID) (db : IdentityDB) : IdentityDB :=
  match ids with [] => db | id :: ids => drop_routes ids (with_settings (delete (RouteKey id)) db) end.

Lemma drop_idempotency ids db : idempotency (drop_routes ids db) = idempotency db.
Proof. revert db. induction ids as [|id ids IH]; intros db; [done|]. cbn. by rewrite IH. Qed.
Lemma drop_lookup ids id db :
  route_settings (drop_routes ids db) !! RouteKey id = if bool_decide (id ∈ ids) then None else route_settings db !! RouteKey id.
Proof.
  revert db. induction ids as [|i ids IH]; intros db; [done|]. cbn. rewrite IH. unfold route_settings at 1. cbn.
  case_bool_decide as Hin; case_bool_decide as Hin'; try set_solver.
  - apply elem_of_cons in Hin' as [->|]; [|done]. by rewrite lookup_delete_eq.
  - rewrite lookup_delete_ne; [done|]. intros [= ->]. apply Hin'. left.
Qed.
Definition revokes (db : IdentityDB) (step : UUID * string → I (list UUID)) : Prop :=
  ∀ row d, row ∈ route_rows s p db → stored row d → idempotency d = idempotency db →
    step row d = if goes db row then (Ok [row.1], with_settings (delete (RouteKey row.1)) d) else (Ok [], d).

Lemma goes_same db d row : idempotency d = idempotency db → goes d row = goes db row.
Proof. intros H. unfold goes, count_consumptions, _idempotency_exists. by rewrite H. Qed.
Lemma delete_route_run {A} id raw (a : A) d : route_settings d !! RouteKey id = Some (OtherValue raw) →
  (_ ← delete_route id; mret a) d = (Ok a, with_settings (delete (RouteKey id)) d).
Proof. intros H. unfold delete_route, mbind, M_bind, gets, modify, raise_if. rewrite H. by rewrite bool_decide_true by done. Qed.

Lemma foreign_run db id raw d : consumed_soundly db → idempotency d = idempotency db → stored (id, raw) d → _parse_persisted_route_envelope raw = None →
  invalidate_foreign id d = if goes db (id, raw) then (Ok [id], with_settings (delete (RouteKey id)) d) else (Ok [], d).
Proof.
  intros Hc Hi Hst Hp. rewrite <- (goes_same db d) by done. unfold goes, invalidate_foreign. cbn [fst snd]. rewrite Hp.
  unfold gets, lift. unfold mbind at 1 2, M_bind at 1 2. unfold _consumption_exists_any_scope.
  assert (count_consumptions id d = count_consumptions id db) as -> by (unfold count_consumptions; by rewrite Hi).
  destruct (Hc id) as [-> |[-> _]]; cbn; [by eapply delete_route_run|done].
Qed.
Lemma own_run db id raw e d : own_routes db → (id, raw) ∈ route_rows s p db → idempotency d = idempotency db → stored (id, raw) d →
  _parse_persisted_route_envelope raw = Some e →
  invalidate_own s p id e d = if goes db (id, raw) then (Ok [id], with_settings (delete (RouteKey id)) d) else (Ok [], d).
Proof.
  intros Hsound (Hdb & Hs & Hpu)%elem_route_rows Hi Hst Hp. destruct (Hsound _ _ _ Hdb Hp) as (Ha & Hs' & Hp').
  cbn [fst snd] in *. rewrite <- (goes_same db d) by done. unfold goes, invalidate_own. cbn [fst snd]. rewrite Hp. cbn zeta.
  unfold gets at 1. unfold mbind at 1, M_bind at 1. rewrite !bool_decide_true by congruence. cbn [negb orb].
  destruct (_idempotency_exists _ _ _ d); [done|]. cbn [negb]. rewrite Ha. by eapply delete_route_run.
Qed.
Lemma revokes_row db : own_routes db → consumed_soundly db → revokes db (invalidate_row s p).
Proof.
  intros Hsound Hcs [id raw] d Hin Hst Hi. unfold invalidate_row. destruct (_parse_persisted_route_envelope raw) as [e|] eqn:Hp.
  - pose proof Hin as [Hdb _]%elem_route_rows. destruct (Hsound _ _ _ Hdb Hp) as (-> & _). cbn [fst]. rewrite Z.eqb_refl. by eapply own_run.
  - by apply foreign_run.
Qed.
Lemma revokes_row_at_once db : own_routes db → consumed_soundly db → revokes db (invalidate_row_at_once s p).
Proof.
  intros Hsound Hcs [id raw] d Hin Hst Hi. unfold invalidate_row_at_once. destruct (_parse_persisted_route_envelope raw) as [e|] eqn:Hp.
  - by eapply own_run.
  - by apply foreign_run.
Qed.
Lemma each_run db step rows d :
  revokes db step → rows ⊆ route_rows s p db → NoDup rows.*1 → (∀ row, row ∈ rows → stored row d) → idempotency d = idempotency db →
  invalidate_each step rows d = (Ok (gone db rows), drop_routes (gone db rows) d).
Proof.
  intros Hstep. revert d. induction rows as [|row rows IH]; intros d Hsub Hnd Hst Hi; [done|].
  apply NoDup_cons in Hnd as [Hrow Hnd]. cbn [invalidate_each]. unfold mbind, M_bind.
  rewrite Hstep by (first [apply Hsub; left|apply Hst; left|done]). unfold gone. rewrite filter_cons.
  destruct (goes db row) eqn:Hg; [rewrite decide_True by done|rewrite decide_False by done]; cbn [fst snd].
  - rewrite IH; [done|set_solver|done| |done]. intros row' Hin. unfold stored, route_settings. cbn. rewrite lookup_delete_ne.
    + apply Hst. by right.
    + intros [= Heq]. apply Hrow. rewrite Heq. by apply list_elem_of_fmap_2.
  - rewrite IH; [done|set_solver|done| |done]. intros row' Hin. apply Hst. by right.
Qed.

(** What is left after a revocation was consumed. *)
Lemma left_consumed db id raw e :
  own_routes db → route_settings (drop_routes (gone db (route_rows s p db)) db) !! RouteKey id = Some (OtherValue raw) →
  _parse_persisted_route_envelope raw = Some e → bn_subject_id (ra_binding (ev_route e)) = Some s → bn_purpose (ra_binding (ev_route e)) = p →
  consumed_route id (drop_routes (gone db (route_rows s p db)) db).
Proof.
  intros Hsound Hraw He Hs Hp. exists raw, e. rewrite drop_idempotency. pose proof Hraw as Hlook.
  rewrite drop_lookup in Hlook. case_bool_decide as Hgone; [done|]. destruct (Hsound _ _ _ Hlook He) as (Ha & Hjs & Hjp).
  split_and!; [done..|]. assert ((id, raw) ∈ route_rows s p db) as Hin.
  { apply elem_route_rows. split_and!; cbn; [done|congruence|congruence]. }
  destruct (goes db (id, raw)) eqn:Hg.
  - destruct Hgone. unfold gone. apply (list_elem_of_fmap_2 fst _ (id, raw)). by apply list_elem_of_filter.
  - unfold goes in Hg. cbn in Hg. rewrite He in Hg. unfold _idempotency_exists in Hg. bool_props. by rewrite Ha in Hg.
Qed.

(** What a revocation does to a sound store, in pages or at once. *)
Lemma sound_revocation db :
  own_routes db → consumed_soundly db →
  let db' := drop_routes (gone db (route_rows s p db)) db in
  invalidate_subject_purpose_in_uow s p db = (Ok (gone db (route_rows s p db)), db') ∧
  invalidate_at_once s p db = (Ok (gone db (route_rows s p db)), db').
Proof.
  intros Hsound Hcs db'. split.
  - rewrite paged_one_pass. apply each_run; [by apply revokes_row|done|apply route_rows_keys| |done]. by intros row [? _]%elem_route_rows.
  - unfold invalidate_at_once, gets. unfold mbind at 1, M_bind at 1.
    apply each_run; [by apply revokes_row_at_once|done|apply route_rows_keys| |done]. by intros row [? _]%elem_route_rows.
Qed.
End Pages.

(** ** Stores that the services wrote *)

Section Sound.
Context `{BS : BudgetServices} `{PS : ParameterServices} `{CN : ConsentServices} `{RT : RouteServices} `{PR : ProfileServices}.
Context `{RL : !RouteLaws}.

Lemma run_own_routes ops : own_routes (identity_run ops empty_identity).
Proof.
  intros id raw e Hraw He. destruct (ie_issued _ _ (run_evolves ops empty_identity) _ _ Hraw) as [[=]|(e' & [= ->] & _ & Ha)].
  destruct (parsed_fields _ _ He) as [Hs Hp]. by rewrite (parse_canonical _ _ He) in *.
Qed.
Lemma run_consumed_soundly ops : consumed_soundly (identity_run ops empty_identity).
Proof.
  intros id. destruct (ie_consumptions _ _ (run_evolves ops empty_identity) id) as [->|(-> & _ & Hc)]; [by left|by right].
Qed.

(** C26: Revoking the routes of a subject and purpose in pages of 128.  On any store whatever the
    paged loop finishes and does what a single pass of its loop body over all the rows does, answer,
    errors and state.  On every store that the services themselves can have written, starting from
    a new installation, it succeeds and does exactly what the cascade's own one-pass revocation
    does, though that one does not compare a route's key with its id: the same ids and the same
    state; and every readable route of that subject and purpose that is still stored was consumed. *)
Theorem invalidate_paged_at_once s p :
  (∀ db, invalidate_subject_purpose_in_uow s p db = invalidate_each (invalidate_row s p) (route_rows s p db) db) ∧
  ∀ ops, let db := identity_run ops empty_identity in
    ∃ ids db', invalidate_subject_purpose_in_uow s p db = (Ok ids, db') ∧ invalidate_at_once s p db = (Ok ids, db') ∧
    ∀ id raw e, route_settings db' !! RouteKey id = Some (OtherValue raw) → _parse_persisted_route_envelope raw = Some e →
      bn_subject_id (ra_binding (ev_route e)) = Some s → bn_purpose (ra_binding (ev_route e)) = p → consumed_route id db'.
Proof.
  split; [apply paged_one_pass|]. intros ops db.
  destruct (sound_revocation s p db (run_own_routes ops) (run_consumed_soundly ops)) as [Hpaged Honce].
  exists (gone db (route_rows s p db)), (drop_routes (gone db (route_rows s p db)) db). split_and!; [done..|].
  intros. eapply left_consumed; [apply run_own_routes|done..].
Qed.
End Sound.
