(* ===== verification/ConsentPointers.v ===== *)
(** * The consents a subject points to are the ones it gave

    A subject's row lists the receipts of its current consents.  In every run from an empty
    database the list names, for each purpose whose latest receipt grants, exactly that receipt;
    so the checks of [_append_consent_receipt_replacing_current] for a corrupt or full list never
    fail. *)

From stdpp Require Import sorting.
From S2P Require Import Prelude PttFraming BudgetPricing BudgetLedger BudgetGuard ProviderCalls Outbox Identity Consent Routes Profiles Enrollment IdentityRuns IdentitySafety.

#[local] Abbreviation I := (M IdentityDB exn).

(** ** The invariant *)

(** A receipt that no other of its subject and purpose came after. *)
Definition newest_of (s : UUID) (id : UUID) (r : ConsentReceipt) (db : IdentityDB) : Prop :=
  consent_receipts db !! id = Some r ∧ cr_subject_id r = s ∧
  ∀ id' r', consent_receipts db !! id' = Some r' → of_purpose s (cr_purpose r) r' → cr_created_at r' ≤ cr_created_at r.

Record pointers_ok (db : IdentityDB) : Prop := {
  po_known : ∀ id r, consent_receipts db !! id = Some r → is_Some (subjects db !! cr_subject_id r);
  po_times : ∀ id id' r r', consent_receipts db !! id = Some r → consent_receipts db !! id' = Some r' →
    of_purpose (cr_subject_id r) (cr_purpose r) r' → cr_created_at r = cr_created_at r' → id = id';
  po_ids : ∀ s p, subjects db !! s = Some p → NoDup (pf_current_consent_receipt_ids p) ∧
    ∀ id, id ∈ pf_current_consent_receipt_ids p ↔ ∃ r, newest_of s id r db ∧ cr_granted r = true;
  po_profiles : ∀ s p, subjects db !! s = Some p → profile_ok p = true;
}.

Lemma newest_latest s id r db : pointers_ok db → newest_of s id r db ↔ latest s (cr_purpose r) db = Some (id, r).
Proof.
  intros Hok. split.
  - intros (Hr & Hs & Hmax). destruct (latest s (cr_purpose r) db) as [[id' r']|] eqn:Hl.
    + apply latest_Some in Hl as (Hr' & Hk & Hmax'). assert (id = id') as <-.
      { apply (po_times _ Hok id id' r r'); [done..|by rewrite Hs|]. specialize (Hmax _ _ Hr' Hk).
        assert (cr_created_at r ≤ cr_created_at r') by (by eapply Hmax'). lia. }
      congruence.
    + by destruct (latest_None _ _ _ Hl _ _ Hr).
  - intros (Hr & [Hs _] & Hmax)%latest_Some. done.
Qed.

(** A purpose has one current consent, so there are at most eight. *)
Definition purpose_at (db : IdentityDB) (id : UUID) : option ConsentPurpose := cr_purpose <$> consent_receipts db !! id.
Definition all_purposes : list ConsentPurpose :=
  [FACE; VOICE; PERSONALIZATION; CLOUD_STT; CLOUD_REASONING; CLOUD_TTS; WEB_SEARCH; CHILD_DURABLE_MEMORY].

Lemma pointers_by_purpose db s ids :
  pointers_ok db → NoDup ids → (∀ id, id ∈ ids → ∃ r, newest_of s id r db) → NoDup (omap (purpose_at db) ids) ∧ length (omap (purpose_at db) ids) = length ids.
Proof.
  intros Hok Hnd Hids. split.
  - assert (∀ x y z, x ∈ ids → y ∈ ids → purpose_at db x = Some z → purpose_at db y = Some z → x = y) as Hinj.
    { intros x y z Hx Hy. unfold purpose_at. destruct (Hids x Hx) as (r & Hn & Hs & Hmax), (Hids y Hy) as (r' & Hn' & Hs' & Hmax').
      rewrite Hn, Hn'. cbn. intros [= <-] [= Hp]. assert (cr_created_at r' ≤ cr_created_at r) by (by eapply Hmax).
      assert (cr_created_at r ≤ cr_created_at r') by (by eapply Hmax'). eapply po_times; [done..|by split; congruence|lia]. }
    by apply NoDup_omap_strong.
  - clear Hnd. induction ids as [|x ids IH]; [done|]. cbn. destruct (Hids x) as (r & Hn & _); [left|]. unfold purpose_at at 1. rewrite Hn. cbn.
    f_equal. apply IH. intros. apply Hids. by right.
Qed.
Lemma pointers_at_most db s ids n (allowed : list ConsentPurpose) :
  pointers_ok db → NoDup ids → (∀ id, id ∈ ids → ∃ r, newest_of s id r db ∧ cr_purpose r ∈ allowed) → length allowed = n → (length ids ≤ n)%nat.
Proof.
  intros Hok Hnd Hids <-. destruct (pointers_by_purpose db s ids) as [Hnd' Hlen]; [done..|naive_solver|].
  rewrite <- Hlen. apply submseteq_length, NoDup_submseteq; [done|]. intros x (id & Hin & Hx)%list_elem_of_omap.
  destruct (Hids id Hin) as (r & (Hr & _) & Hp). unfold purpose_at in Hx. rewrite Hr in Hx. by injection Hx as <-.
Qed.
Lemma elem_all_purposes p : p ∈ all_purposes.
Proof. destruct p; unfold all_purposes; set_solver. Qed.

(** ** Appending a receipt *)

Definition off_purpose (db : IdentityDB) (s : UUID) (p : ConsentPurpose) (id : UUID) : bool :=
  match consent_receipts db !! id with
  | Some r => negb ((cr_subject_id r =? s) && bool_decide (cr_purpose r = p))
  | None => true
  end.
Lemma excluding_filter db s p ids :
  (∀ id, id ∈ ids → is_Some (consent_receipts db !! id)) →
  excluding_subject_purpose ids s p db = Ok (filter (λ id, off_purpose db s p id = true) ids).
Proof.
  induction ids as [|id ids IH]; intros Hids; [done|]. cbn [excluding_subject_purpose]. destruct (Hids id) as [r Hr]; [left|].
  rewrite Hr, IH by (intros; apply Hids; by right). cbn [mbind result_bind].
  assert (off_purpose db s p id = negb ((cr_subject_id r =? s) && bool_decide (cr_purpose r = p))) as Ho by (unfold off_purpose; by rewrite Hr).
  rewrite filter_cons. destruct (_ && _); [rewrite decide_False by (by rewrite Ho)|rewrite decide_True by done]; done.
Qed.

(** The pointers of a subject without those of one purpose. *)
Lemma pointers_off db s p pr :
  pointers_ok db → subjects db !! s = Some pr →
  excluding_subject_purpose (pf_current_consent_receipt_ids pr) s p db =
    Ok (filter (λ id, off_purpose db s p id = true) (pf_current_consent_receipt_ids pr)) ∧
  (length (filter (λ id, off_purpose db s p id = true) (pf_current_consent_receipt_ids pr)) < 8)%nat.
Proof.
  intros Hok Hs. destruct (po_ids _ Hok _ _ Hs) as [Hnd Hids]. split.
  - apply excluding_filter. intros id (r & (Hr & _) & _)%Hids. eauto.
  - apply Nat.lt_succ_r, (pointers_at_most db s _ 7 (filter (λ x, x ≠ p) all_purposes)).
    + done.
    + by apply NoDup_filter.
    + intros id [Hoff (r & Hn & _)%Hids]%list_elem_of_filter. exists r. split; [done|]. apply list_elem_of_filter.
      split; [|apply elem_all_purposes]. destruct Hn as (Hr & Hsub & _). unfold off_purpose in Hoff. rewrite Hr, Hsub, Z.eqb_refl in Hoff.
      cbn in Hoff. by bool_props.
    + by destruct p.
Qed.

(** The state after a receipt was appended. *)
Definition appended (id : UUID) (r : ConsentReceipt) (pr : Profile) (db : IdentityDB) : IdentityDB :=
  let kept := filter (λ i, off_purpose db (cr_subject_id r) (cr_purpose r) i = true) (pf_current_consent_receipt_ids pr) in
  set_subjects (<[cr_subject_id r := set_pointers (if cr_granted r then kept ++ [id] else kept) pr]> (subjects db))
    (set_consents (<[id := r]> (consent_receipts db)) db).

Lemma profile_ok_pointers ids p : profile_ok p = true → NoDup ids → (length ids ≤ 8)%nat → profile_ok (set_pointers ids p) = true.
Proof.
  intros Hp Hnd Hlen. unfold profile_ok in *. rewrite !andb_true_iff in *. cbn. destruct_and!. split_and!; try done.
  - by apply bool_decide_eq_true.
  - apply Z.leb_le. unfold len. lia.
Qed.

Section Append.
Context (id : UUID) (r : ConsentReceipt) (pr : Profile) (db : IdentityDB).
Context (Hok : pointers_ok db) (Hpr : subjects db !! cr_subject_id r = Some pr) (Hfresh : consent_receipts db !! id = None).
Context (Hlast : ∀ id' r', consent_receipts db !! id' = Some r' → of_purpose (cr_subject_id r) (cr_purpose r) r' → cr_created_at r' < cr_created_at r).

Lemma appended_lookup id' r' : consent_receipts (appended id r pr db) !! id' = Some r' ↔ (id' = id ∧ r' = r) ∨ consent_receipts db !! id' = Some r'.
Proof.
  cbn. rewrite lookup_insert_Some. split; [naive_solver|]. intros [[-> ->]|Hr]; [by left|]. right. split; [congruence|done].
Qed.
Lemma appended_newest_self : newest_of (cr_subject_id r) id r (appended id r pr db).
Proof.
  split_and!; [apply appended_lookup; by left|done|]. intros id' r' [[-> ->]|Hr']%appended_lookup Hk; [lia|]. specialize (Hlast _ _ Hr' Hk). lia.
Qed.
Lemma appended_newest s i x :
  newest_of s i x (appended id r pr db) ↔
  (i = id ∧ x = r ∧ s = cr_subject_id r) ∨ (newest_of s i x db ∧ ¬ of_purpose s (cr_purpose x) r).
Proof.
  split.
  - intros (Hx & Hs & Hmax). apply appended_lookup in Hx as [[-> ->]|Hx]; [by left|]. right. split.
    + split_and!; [done..|]. intros i' x' Hx' Hk. apply (Hmax i'); [|done]. apply appended_lookup. by right.
    + intros Hk. assert (cr_created_at r ≤ cr_created_at x) by (apply (Hmax id); [apply appended_lookup; by left|done]).
      destruct Hk as [Hk1 Hk2]. specialize (Hlast _ _ Hx). assert (of_purpose (cr_subject_id r) (cr_purpose r) x) as Hk by (split; congruence).
      specialize (Hlast Hk). lia.
  - intros [(-> & -> & ->)|[(Hx & Hs & Hmax) Hn]]; [apply appended_newest_self|]. split_and!; [apply appended_lookup; by right|done|].
    intros i' x' [[-> ->]|Hx']%appended_lookup Hk; [done|]. by eapply Hmax.
Qed.

Lemma appended_ids i :
  i ∈ (let kept := filter (λ i, off_purpose db (cr_subject_id r) (cr_purpose r) i = true) (pf_current_consent_receipt_ids pr) in
       if cr_granted r then kept ++ [id] else kept) ↔
  ∃ x, newest_of (cr_subject_id r) i x (appended id r pr db) ∧ cr_granted x = true.
Proof.
  destruct (po_ids _ Hok _ _ Hpr) as [_ Hids].
  assert (i ∈ filter (λ i, off_purpose db (cr_subject_id r) (cr_purpose r) i = true) (pf_current_consent_receipt_ids pr) ↔
    ∃ x, newest_of (cr_subject_id r) i x db ∧ ¬ of_purpose (cr_subject_id r) (cr_purpose x) r ∧ cr_granted x = true) as Hkept.
  { rewrite list_elem_of_filter, Hids. unfold off_purpose, of_purpose. split.
    - intros [Hoff (x & Hn & Hg)]. exists x. split_and!; [done| |done]. destruct Hn as (Hx & Hs & _). rewrite Hx, Hs, Z.eqb_refl in Hoff. cbn in Hoff.
      bool_props. naive_solver.
    - intros (x & Hn & Hk & Hg). split; [|by exists x]. destruct Hn as (Hx & Hs & _). rewrite Hx, Hs, Z.eqb_refl. cbn.
      rewrite bool_decide_false; [done|]. naive_solver. }
  cbn zeta. setoid_rewrite appended_newest. destruct (cr_granted r) eqn:Hg.
  - rewrite elem_of_app, Hkept, list_elem_of_singleton. naive_solver.
  - rewrite Hkept. naive_solver congruence.
Qed.

Lemma appended_ok : pointers_ok (appended id r pr db).
Proof.
  destruct (po_ids _ Hok _ _ Hpr) as [Hnd Hids]. destruct (pointers_off db _ (cr_purpose r) pr Hok Hpr) as [_ Hlen].
  assert (id ∉ pf_current_consent_receipt_ids pr) as Hnew by (intros (x & (Hx & _) & _)%Hids; congruence).
  set (kept := filter _ _) in Hlen. set (ids := if cr_granted r then kept ++ [id] else kept).
  assert (NoDup ids ∧ (length ids ≤ 8)%nat) as [Hnd' Hlen'].
  { assert (NoDup kept) by by apply NoDup_filter. subst ids. destruct (cr_granted r); [|split; [done|lia]]. split.
    - apply NoDup_app. split_and!; [done| |by apply NoDup_singleton]. intros i [_ Hi]%list_elem_of_filter ->%list_elem_of_singleton. done.
    - rewrite length_app. cbn. lia. }
  constructor.
  - intros i x [[-> ->]|Hx]%appended_lookup; cbn.
    + rewrite lookup_insert_eq. eauto.
    + destruct (decide (cr_subject_id x = cr_subject_id r)) as [->|Hne]; [rewrite lookup_insert_eq; eauto|].
      rewrite lookup_insert_ne by done. by eapply po_known.
  - intros i i' x x' [[-> ->]|Hx]%appended_lookup [[-> ->]|Hx']%appended_lookup Hk Hc; [done|..].
    + specialize (Hlast _ _ Hx' Hk). lia.
    + destruct Hk. assert (of_purpose (cr_subject_id r) (cr_purpose r) x) as Hk by (split; congruence). specialize (Hlast _ _ Hx Hk). lia.
    + by eapply po_times.
  - intros s q Hq. cbn in Hq. apply lookup_insert_Some in Hq as [[<- <-]|[Hne Hq]].
    + split; [done|]. apply appended_ids.
    + destruct (po_ids _ Hok _ _ Hq) as [Hnq Hiq]. split; [done|]. intros i. rewrite Hiq. setoid_rewrite appended_newest. unfold of_purpose. naive_solver.
  - intros s q Hq. cbn in Hq. apply lookup_insert_Some in Hq as [[<- <-]|[Hne Hq]]; [|by eapply po_profiles].
    apply profile_ok_pointers; [by eapply po_profiles|done..].
Qed.
End Append.

Definition full_pointer : exn := RuntimeError "current_consent_pointer_full".

(** On a sound state the append does its work or refuses, and never finds the pointers broken. *)
Lemma append_run id r expected db :
  pointers_ok db →
  wp (_append_consent_receipt_replacing_current id r expected)
    (λ _ db', ∃ pr, subjects db !! cr_subject_id r = Some pr ∧ consent_receipts db !! id = None ∧ db' = appended id r pr db)
    (λ e _, e ≠ corrupt_pointer ∧ e ≠ full_pointer) db.
Proof.
  intros Hok. unfold _append_consent_receipt_replacing_current. cbn zeta. wp_step. wp_step. wp_step. wp_step; [|done].
  wp_step. wp_step. cbn beta. destruct (subjects db !! cr_subject_id r) as [pr|] eqn:Hpr; [|by apply wp_raise].
  destruct (pointers_off db _ (cr_purpose r) pr Hok Hpr) as [Hex Hlen]. wp_step. wp_step; [|done].
  wp_step. eapply (wp_mono _ (λ _ db', db' = db) _ (λ _ _, False)); [|intros _ ? ->|done].
  { destruct (latest _ _ db) as [[i x]|] eqn:Hl; [|by apply wp_ret]. assert (cr_purpose x = cr_purpose r) as Hp by by apply latest_Some in Hl as (_ & [_ ?] & _).
    rewrite <- Hp in Hl. apply (newest_latest _ _ _ _ Hok) in Hl. destruct (po_ids _ Hok _ _ Hpr) as [_ Hids].
    rewrite (bool_decide_ext _ (cr_granted x = true)); [|rewrite Hids; split; [|eauto]].
    - destruct (cr_granted x); by apply wp_ret.
    - intros (y & (Hy & _) & Hg). destruct Hl as (Hx & _). congruence. }
  wp_step. wp_step. cbn beta. wp_step. rewrite Hex. apply wp_lift; [intros ? [= <-]|done].
  wp_step. wp_step; [|exfalso; bool_props; unfold len in *; lia]. wp_step. unfold _insert_consent_receipt. wp_step. wp_step. wp_step. wp_step; [|done].
  bool_props. apply wp_modify. cbn beta. apply wp_modify. exists pr. split_and!; [done| |done]. by apply eq_None_not_Some.
Qed.

(** ** Every operation keeps the invariant *)

Definition kept {A} (m : I A) : Prop := ∀ db, pointers_ok db → wp m (λ _, pointers_ok) (λ _ _, True) db.
Definition profile_tables (db : IdentityDB) : gmap UUID Profile * gmap UUID ConsentReceipt := (subjects db, consent_receipts db).

Lemma pointers_ok_same db db' : profile_tables db' = profile_tables db → pointers_ok db → pointers_ok db'.
Proof.
  intros [= Hs Hc] [H1 H2 H3 H4]. unfold newest_of in *. constructor; unfold newest_of; rewrite ?Hs, ?Hc; done.
Qed.
Lemma kept_leaves {A} (m : I A) : leaves profile_tables m → kept m.
Proof. intros Hm db Hok. eapply wp_mono; [apply Hm| |done]. intros a db' H. exact (pointers_ok_same _ _ H Hok). Qed.
Lemma kept_bind {A B} (m : I A) (k : A → I B) : kept m → (∀ a, kept (k a)) → kept (m ≫= k).
Proof. intros Hm Hk db Hok. apply wp_bind. eapply wp_mono; [by apply Hm| |done]. intros a db1 H1. by apply Hk. Qed.
Lemma kept_uow {A} (m : I A) : kept m → kept (unit_of_work m).
Proof. intros Hm db Hok. by apply uow_any, Hm. Qed.

(** A raise leaves the state as it was. *)
Definition rolls_back {A} (m : I A) : Prop := ∀ db, wp m (λ _ _, True) (λ _ db', db' = db) db.
Lemma rolls_back_uow {A} (m : I A) : rolls_back (unit_of_work m).
Proof. intros db. unfold wp, unit_of_work. by destruct (m db) as [[?|?] ?]. Qed.
Lemma rolls_back_after {A B} (m : I A) (k : A → I B) : (∀ db, (m db).2 = db) → (∀ a, rolls_back (k a)) → rolls_back (m ≫= k).
Proof.
  intros Hm Hk db. apply wp_bind. specialize (Hm db). unfold wp at 1. destruct (m db) as [[a|e] db1]; cbn in Hm; subst; [apply Hk|done].
Qed.
Lemma kept_done {A} (m : I A) db : kept m → rolls_back m → pointers_ok db → pointers_ok (m db).2.
Proof. intros Hm Hr Hok. specialize (Hm db Hok). specialize (Hr db). unfold wp in *. destruct (m db) as [[?|?] ?]; cbn; by subst. Qed.

Section Kept.
Context `{BS : BudgetServices} `{PS : ParameterServices} `{CN : ConsentServices} `{RT : RouteServices} `{PR : ProfileServices}.

(** *** What only reads *)

Lemma leaves_read {X A} (π : IdentityDB → X) (m : I A) : (∀ db, (m db).2 = db) → leaves π m.
Proof. intros Hm db. specialize (Hm db). unfold wp. destruct (m db) as [[?|?] ?]; cbn in Hm; by subst. Qed.
Lemma read_bind {A B} (m : I A) (k : A → I B) : (∀ db, (m db).2 = db) → (∀ a db, (k a db).2 = db) → ∀ db, ((m ≫= k) db).2 = db.
Proof. intros Hm Hk db. unfold mbind, M_bind. specialize (Hm db). destruct (m db) as [[?|?] ?]; cbn in *; subst; [apply Hk|done]. Qed.
Lemma read_raise_if c (e : exn) (db : IdentityDB) : (raise_if c e db).2 = db.
Proof. by destruct c. Qed.
Ltac read_steps :=
  repeat (intros; cbn beta iota zeta;
    lazymatch goal with
    | |- ((_ ≫= _) _).2 = _ => apply read_bind
    | |- (raise_if _ _ _).2 = _ => apply read_raise_if
    | |- (match ?x with _ => _ end _).2 = _ => destruct x
    | |- (get_profile _ _).2 = _ => apply get_profile_read
    | |- _ => reflexivity
    end).

Lemma binding_read c action db : (_require_action_binding c action db).2 = db.
Proof. unfold _require_action_binding. read_steps. Qed.
Lemma passkey_read c auth now db : (_require_passkey c auth now db).2 = db.
Proof. unfold _require_passkey. read_steps. Qed.
Lemma authority_read c p db : (_require_subject_authority c p db).2 = db.
Proof. unfold _require_subject_authority. read_steps. Qed.
Lemma current_read s p now db : (require_current_in_uow s p now db).2 = db.
Proof. unfold require_current_in_uow. read_steps. Qed.
Lemma owner_generation_read h g db : (require_current_owner_guardian_generation h g db).2 = db.
Proof. unfold require_current_owner_guardian_generation. read_steps. Qed.
Lemma owner_or_read msg h g db : (owner_or msg h g db).2 = db.
Proof.
  unfold owner_or. pose proof (owner_generation_read h g db) as H. by destruct (require_current_owner_guardian_generation h g db) as [[?|[]] ?].
Qed.
Lemma require_owner_read h auth db : (require_owner h auth db).2 = db.
Proof.
  unfold require_owner. destruct (au_subject_id auth) as [id|]; [|done]. pose proof (owner_generation_read h id db) as H.
  by destruct (require_current_owner_guardian_generation h id db) as [[?|?] ?].
Qed.
Lemma consent_of_read s m now db : (current_consent s m now db).2 = db.
Proof.
  unfold current_consent. pose proof (current_read s (modality_purpose m) now db) as H.
  by destruct (require_current_in_uow s (modality_purpose m) now db) as [[?|[]] ?].
Qed.
Lemma get_scoped_read h s db : (get_scoped h s db).2 = db.
Proof. unfold get_scoped. read_steps. Qed.
Lemma enrolling_read h s db : (enrolling_profile h s db).2 = db.
Proof. unfold enrolling_profile. pose proof (get_scoped_read h s db) as H. by destruct (get_scoped h s db) as [[?|[]] ?]. Qed.
Lemma authorization_read auth b action id ps now db : (_require_authorization auth b action id ps now db).2 = db.
Proof. unfold _require_authorization, _require_fresh_owner_passkey. read_steps. Qed.

#[local] Hint Resolve leaves_read get_profile_read current_read owner_generation_read owner_or_read require_owner_read consent_of_read
  enrolling_read authorization_read authority_read : leaves.

(** *** What writes other tables *)

Lemma leaves_paged s p : leaves profile_tables (invalidate_subject_purpose_in_uow s p).
Proof.
  assert (∀ id, leaves profile_tables (delete_route id)) as Hd by (intros; by apply leaves_delete_route).
  unfold invalidate_subject_purpose_in_uow. apply leaves_bind; [apply leaves_gets|]. intros db. generalize (S (length (route_rows s p db))) as n.
  generalize (@None UUID) (@nil UUID). intros c acc n. revert c acc. induction n as [|n IH]; intros c acc; cbn [invalidate_batches]; [apply leaves_raise|].
  apply leaves_bind.
  - unfold invalidate_batch. leaves_steps. apply leaves_each. intros [id raw]. unfold invalidate_row, invalidate_foreign, invalidate_own. leaves_steps.
  - intros [[c' ids] k]. destruct (bool_decide _); [apply leaves_ret|apply IH].
Qed.
Lemma leaves_guests :
  (∀ h s p d r now id, leaves profile_tables (issue_challenge h s p d r now id)) ∧
  (∀ id response now fresh audit, leaves profile_tables (accept_challenge id response now fresh audit)) ∧
  (∀ h s p now fresh audit, leaves profile_tables (revoke_guest h s p now fresh audit)).
Proof.
  unfold issue_challenge, accept_challenge, revoke_guest, require_active, require_exact_guest_disclosure, insert_challenge, _consume, append_guest_consent.
  split_and!; leaves_steps.
Qed.

Lemma leaves_routes :
  (∀ r id clock, leaves profile_tables (authorize r id clock)) ∧ (∀ id consumption clock, leaves profile_tables (consume id consumption clock)).
Proof.
  unfold authorize, consume, persist_authorization, persist_consumption, require_provider_activation, require_provider_review,
    _require_runtime_state, _require_active_session_in_transaction, _require_privacy_receipt_in_transaction, require_review,
    _require_budget_reservation_in_transaction, require_current_subject_authority, require_current_consent, verified, insert_idempotency,
    _select_text_setting.
  split; leaves_steps.
Qed.

Lemma leaves_enrollments :
  (∀ c auth k now t id audit, leaves profile_tables (request_enrollment c auth k now t id audit)) ∧
  (∀ id, leaves profile_tables (begin_capture id)) ∧ (∀ id, leaves profile_tables (mark_calibrating id)) ∧
  (∀ c auth k now audit, leaves profile_tables (cancel_enrollment c auth k now audit)) ∧
  (∀ h s generation, leaves profile_tables (install_in_uow h s generation)).
Proof.
  unfold request_enrollment, _request_in_active_uow, create_enrollment, begin_capture, mark_calibrating, _transition_state, cancel_enrollment,
    cancel_pending, require_for_update, put_enrollment, returned, install_in_uow.
  split_and!; leaves_steps.
Qed.

(** *** What writes subjects or receipts *)

(** A profile changed in what the pointers do not depend on. *)
Lemma pointers_ok_profile s p' db :
  pointers_ok db → profile_ok p' = true →
  (∀ p, subjects db !! s = Some p → pf_current_consent_receipt_ids p' = pf_current_consent_receipt_ids p) →
  (subjects db !! s = None → pf_current_consent_receipt_ids p' = []) →
  pointers_ok (set_subjects (<[s := p']> (subjects db)) db).
Proof.
  intros Hok Hp Hsame Hnew. constructor; cbn.
  - intros id r Hr. destruct (po_known _ Hok _ _ Hr) as [q Hq]. destruct (decide (cr_subject_id r = s)) as [->|].
    + rewrite lookup_insert_eq. eauto.
    + rewrite lookup_insert_ne by done. eauto.
  - apply Hok.
  - intros s' q [[<- <-]|[_ Hq]]%lookup_insert_Some; [|by apply (po_ids _ Hok)]. destruct (subjects db !! s) as [p|] eqn:Hs.
    + rewrite (Hsame p) by done. by apply (po_ids _ Hok).
    + rewrite Hnew by done. split; [constructor|]. intros id. split; [by intros ?%elem_of_nil|].
      intros (r & (Hr & Hsub & _) & _). destruct (po_known _ Hok _ _ Hr) as [q Hq]. congruence.
  - intros s' q [[<- <-]|[_ Hq]]%lookup_insert_Some; [done|by eapply po_profiles].
Qed.
Lemma kept_insert_profile id p : profile_ok p = true → pf_current_consent_receipt_ids p = [] → kept (insert_profile id p).
Proof.
  intros Hp Hids db Hok. unfold insert_profile. wp_steps; [|done]. bool_props. apply pointers_ok_profile; try done.
  intros q Hq. match goal with K : is_set (subjects db !! id) = false |- _ => by rewrite Hq in K end.
Qed.
Lemma kept_update_profile id guard f :
  (∀ p, pf_current_consent_receipt_ids (f p) = pf_current_consent_receipt_ids p) → kept (update_profile id guard f).
Proof.
  intros Hf db Hok. unfold update_profile. wp_steps; try done. bool_props. apply pointers_ok_profile; [done..| |congruence].
  intros q Hq. by simplify_eq.
Qed.
Lemma pointers_ok_reminder s p reminder db :
  subjects db !! s = Some p → pointers_ok db → pointers_ok (set_subjects (<[s := set_reminder reminder p]> (subjects db)) db).
Proof.
  intros Hp Hok. apply pointers_ok_profile; [done|exact (po_profiles _ Hok _ _ Hp)| |congruence]. intros q Hq. by simplify_eq.
Qed.
Lemma kept_disable id : kept (disable_biometric_identity id).
Proof.
  intros db Hok. apply wp_modify. destruct (subjects db !! id) as [p|] eqn:Hp; [|done]. destruct (is_child _); [|done].
  by apply pointers_ok_reminder.
Qed.
Lemma kept_revoke_consents s now : kept (revoke_subject_consents s now).
Proof.
  intros db Hok. apply wp_modify. set (db' := set_consents _ db).
  assert (∀ id r', consent_receipts db' !! id = Some r' → ∃ r, consent_receipts db !! id = Some r ∧ receipt_key r' = receipt_key r) as Hback.
  { intros id r' (r & Hr & ->)%update_where_inv. exists r. split; [done|]. by destruct (_ && _). }
  assert (∀ id r, consent_receipts db !! id = Some r → ∃ r', consent_receipts db' !! id = Some r' ∧ receipt_key r' = receipt_key r) as Hforth.
  { intros id r Hr. cbn. rewrite (update_where_lookup _ _ _ _ _ Hr). eexists. split; [done|]. by destruct (_ && _). }
  assert (∀ s id, (∃ r, newest_of s id r db' ∧ cr_granted r = true) ↔ ∃ r, newest_of s id r db ∧ cr_granted r = true) as Hnewest.
  { intros t id. unfold newest_of, of_purpose. split; intros (r & (Hr & Hs & Hmax) & Hg).
    - destruct (Hback _ _ Hr) as (x & Hx & [= _ E1 E2 E3 E4]). exists x. split_and!; [done|congruence| |congruence]. intros id' y Hy [Hy1 Hy2].
      destruct (Hforth _ _ Hy) as (z & Hz & [= _ F1 F2 F3 F4]). rewrite <- E4, <- F4. apply (Hmax id'); [done|]. split; congruence.
    - destruct (Hforth _ _ Hr) as (x & Hx & [= _ E1 E2 E3 E4]). exists x. split_and!; [done|congruence| |congruence]. intros id' y Hy [Hy1 Hy2].
      destruct (Hback _ _ Hy) as (z & Hz & [= _ F1 F2 F3 F4]). rewrite E4, F4. apply (Hmax id'); [done|]. split; congruence. }
  constructor.
  - intros id r' (r & Hr & [= _ E1 E2 E3 E4])%Hback. rewrite E1. by apply (po_known _ Hok _ _ Hr).
  - intros id id' r r' (x & Hx & [= _ E1 E2 E3 E4])%Hback (y & Hy & [= _ F1 F2 F3 F4])%Hback [Hk1 Hk2] Hc.
    apply (po_times _ Hok id id' x y); [done..|split; congruence|congruence].
  - intros t p Hp. destruct (po_ids _ Hok t p Hp) as [Hnd Hids]. split; [done|]. intros id. by rewrite Hnewest.
  - intros t p Hp. by apply (po_profiles _ Hok t).
Qed.

(** A receipt stamped after all of its purpose. *)
Lemma kept_append id r expected db :
  pointers_ok db →
  (∀ id' r', consent_receipts db !! id' = Some r' → of_purpose (cr_subject_id r) (cr_purpose r) r' → cr_created_at r' < cr_created_at r) →
  wp (_append_consent_receipt_replacing_current id r expected) (λ _, pointers_ok) (λ _ _, True) db.
Proof.
  intros Hok Hlast. eapply wp_mono; [by apply append_run| |done]. intros _ db' (pr & Hpr & Hfresh & ->). by apply appended_ok.
Qed.
Lemma wp_read {A} (m : I A) (Q : A → IdentityDB → Prop) db : (m db).2 = db → (∀ a, Q a db) → wp m Q (λ _ _, True) db.
Proof. intros Hm HQ. unfold wp. destruct (m db) as [[?|?] ?]; cbn in Hm; subst; auto. Qed.
Lemma kept_grant c auth k fresh now audit : kept (grant c auth k fresh now audit).
Proof.
  intros db Hok. unfold grant. wp_step. apply wp_read; [apply binding_read|intros _]. wp_step. apply wp_read; [apply passkey_read|intros _].
  apply uow_any. unfold _grant_in_active_uow. wp_step. apply wp_read; [apply get_profile_read|intros subject].
  wp_step. apply wp_read; [apply authority_read|intros _]. wp_step. wp_step. wp_step. wp_step; [|done]. cbn zeta. wp_step.
  eapply wp_mono; [apply kept_append| |done]; [done| |].
  - intros id' r' Hr'. unfold signed. destruct (sign_fields _). cbn. intros Hk. by eapply timestamp_after.
  - intros [] db1 H1. by wp_steps.
Qed.
Lemma kept_revoke c auth k fresh now audit last : kept (revoke_consent c auth k fresh now audit last).
Proof.
  intros db Hok. unfold revoke_consent, revoke. wp_step. apply wp_read; [apply binding_read|intros _]. wp_step. apply wp_read; [apply passkey_read|intros _].
  apply uow_any. unfold _revoke_in_active_uow. wp_step. apply wp_read; [apply get_profile_read|intros subject].
  wp_step. apply wp_read; [apply authority_read|intros _]. wp_step. wp_step. cbn beta zeta.
  destruct (latest _ _ db) as [[current_id current]|] eqn:Hl; [|done]. do 3 (wp_step; wp_step; [|done]). wp_step.
  eapply wp_mono; [apply kept_append| |done]; [done| |].
  - intros id' r' Hr'. rewrite <- Hl. apply latest_Some in Hl as (_ & [Hs Hp] & _). unfold signed. destruct (sign_fields _). cbn. rewrite Hs, Hp.
    intros Hk. by eapply timestamp_after.
  - intros [] db1 Hok1. wp_step. eapply (wp_mono _ (λ _, pointers_ok) _ (λ _ _, True)); [|intros [] db2 Hok2; by wp_steps|done].
    apply kept_leaves; [|done]. pose proof (leaves_at_once profile_tables ltac:(done)). unfold revoke_consent_cascade, revoke_biometric_consent,
      cancel_enrollments, _revoke_subject_modality, invalidate_identity_subject. leaves_steps.
Qed.

Ltac kept_steps :=
  repeat (intros; cbn beta iota zeta;
    lazymatch goal with
    | |- kept (unit_of_work _) => apply kept_uow
    | |- kept (_ ≫= _) => apply kept_bind; [|intros]
    | |- kept (match ?x with _ => _ end) => destruct x eqn:?
    | |- kept _ => solve [auto] || (apply kept_leaves; unfold _require_valid_traits, _require_persona_authority, _require_revoke_authority,
        _guardian_generation_for_create; by leaves_steps)
    end).

Lemma kept_create c auth now audit : kept (create c auth now audit).
Proof.
  unfold create. apply kept_uow. do 4 (apply kept_bind; [apply kept_leaves; leaves_steps|intros _]).
  destruct (au_subject_id auth) as [actor|]; [|apply kept_leaves; leaves_steps]. apply kept_bind; [kept_steps|intros generation]. cbn zeta.
  intros db Hok. wp_step. wp_step; [|done]. bool_props. wp_step. eapply wp_mono; [by apply kept_insert_profile| |done].
  intros [] db1 Hok1. by wp_steps.
Qed.
Lemma kept_update_traits c auth now audit : kept (update_persona_traits c auth now audit).
Proof. assert (∀ id version traits, kept (update_persona_expected_version id version traits)) by (intros; by apply kept_update_profile).
  unfold update_persona_traits. kept_steps.
Qed.
Lemma kept_subject_cascade s current revoked now event_id : kept (revoke_subject_cascade s current revoked now event_id).
Proof.
  pose proof kept_revoke_consents. pose proof (leaves_at_once profile_tables ltac:(done)).
  unfold revoke_subject_cascade, invalidate_identity_subject, cancel_enrollments, _revoke_subject_modality. kept_steps.
Qed.
Lemma kept_revoke_profile c auth now event_id audit : kept (revoke_profile c auth now event_id audit).
Proof.
  assert (∀ id version generation t, kept (revoke_and_advance_authority_generation_expected_version id version generation t)) by (intros; by apply kept_update_profile).
  pose proof kept_subject_cascade. unfold revoke_profile. kept_steps.
Qed.
Lemma kept_approve id ids reminder expiry now : kept (approve id ids reminder expiry now).
Proof.
  intros db Hok. unfold approve. cbn zeta. wp_step. wp_step. cbn beta. destruct (_select_enrollment id db) as [[e p]|] eqn:Hs; [|done].
  apply select_enrollment_row in Hs as [_ Hp]. wp_step. wp_step; [|done]. destruct (en_synthetic_template_id e) as [u|]; [|done].
  wp_step. wp_step; [|done]. wp_step. wp_step. cbn beta. destruct (templates db !! _) as [t|]; [|done].
  do 2 (wp_step; wp_step; [|done]). wp_step. apply wp_modify. set (db1 := set_enrollments _ db).
  assert (pointers_ok db1) as Hok1 by exact (pointers_ok_same db db1 eq_refl Hok).
  wp_step. eapply (wp_mono _ (λ _, pointers_ok) _ (λ _ _, True)); [|intros [] db2 Hok2|done].
  - destruct reminder; [|by apply wp_ret]. wp_step. wp_step; [|done]. apply wp_modify. by apply pointers_ok_reminder.
  - revert db2 Hok2. change (kept (_ ← modify (λ db, set_templates (<[u := expiring expiry t]> (templates db)) db);
      returned id "enrollment_approval_lost_ownership")). apply kept_leaves. unfold returned. leaves_steps.
Qed.
Lemma kept_complete id ids consent_id consent now audit : kept (complete_enrollment id ids consent_id consent now audit).
Proof. pose proof kept_approve. unfold complete_enrollment, require_for_update. kept_steps. Qed.
Lemma kept_expire_due h now audit : kept (expire_due_child_templates h now audit).
Proof.
  assert (∀ due, kept (expire_each due now)) as Heach.
  { induction due as [|[t s] due IH]; cbn [expire_each]; [apply kept_leaves, leaves_ret|]. apply kept_bind; [apply kept_disable|intros _].
    apply kept_bind; [|intros _; apply IH]. apply kept_leaves, leaves_modify. intros db. destruct (templates db !! t) as [x|]; [|done].
    by case_bool_decide. }
  unfold expire_due_child_templates. kept_steps.
Qed.
End Kept.

(** ** Runs from an empty database *)

Section Theorems.
Context `{BS : BudgetServices} `{PS : ParameterServices} `{CN : ConsentServices} `{RT : RouteServices} `{PR : ProfileServices}.

Lemma empty_pointers : pointers_ok empty_identity.
Proof. constructor; cbn; intros *; rewrite lookup_empty; by intros [=]. Qed.

(** A declined challenge raises after its commit. *)
Lemma accept_pointers id response now fresh audit db : pointers_ok db → pointers_ok (accept_challenge id response now fresh audit db).2.
Proof.
  intros Hok. unfold accept_challenge. match goal with |- pointers_ok ((?m ≫= _) db).2 => assert (pointers_ok (m db).2) as Hm end.
  - apply kept_done; [|apply rolls_back_uow|done]. apply kept_leaves.
    unfold _consume, append_guest_consent, require_active. leaves_steps.
  - unfold mbind, M_bind. destruct (unit_of_work _ db) as [[a|e] db1]; cbn in Hm; [|done]. by rewrite read_raise_if.
Qed.

Lemma perform_pointers o db : pointers_ok db → pointers_ok (identity_perform o db).
Proof.
  destruct leaves_guests as (? & _ & ?), leaves_routes as [? ?], leaves_enrollments as (? & ? & ? & ? & ?). pose proof leaves_paged.
  assert (∀ A B (m : I A) (k : A → I B), (∀ db, (m db).2 = db) → (∀ a, rolls_back (k a)) → rolls_back (m ≫= k)) as Hafter
    by (intros; by apply rolls_back_after).
  destruct o; cbn [identity_perform]; intros Hok;
    lazymatch goal with
    | |- pointers_ok (accept_challenge _ _ _ _ _ _).2 => by apply accept_pointers
    | |- pointers_ok (_).2 => apply kept_done; [| |done]
    | |- _ => by apply (pointers_ok_same db)
    end; try apply rolls_back_uow; try (by apply kept_leaves); try (by apply kept_leaves, leaves_uow).
  - apply kept_grant.
  - unfold grant. apply Hafter; [apply binding_read|intros _]. apply Hafter; [apply passkey_read|intros _]. apply rolls_back_uow.
  - apply kept_revoke.
  - unfold revoke_consent, revoke. apply Hafter; [apply binding_read|intros _]. apply Hafter; [apply passkey_read|intros _]. apply rolls_back_uow.
  - apply kept_create.
  - apply kept_update_traits.
  - apply kept_revoke_profile.
  - unfold request_enrollment. apply Hafter; [apply authorization_read|intros _]. apply rolls_back_uow.
  - apply kept_complete.
  - apply kept_expire_due.
  - unfold provision_owner. apply kept_uow. intros db' Hok'. wp_step. wp_step; [|done]. bool_props. by apply kept_insert_profile.
Qed.
Lemma run_pointers ops db : pointers_ok db → pointers_ok (identity_run ops db).
Proof. revert db. induction ops as [|o ops IH]; intros db Hok; [done|]. cbn. by apply IH, perform_pointers. Qed.

(** C23: In every run from an empty database the consents a subject points to are exactly the
    latest receipts of its purposes that grant; so appending a receipt never finds the pointers
    corrupt or full. *)
Theorem consent_pointers_exact ops :
  let db := identity_run ops empty_identity in
  (∀ s p, subjects db !! s = Some p →
     ∀ id, id ∈ pf_current_consent_receipt_ids p ↔ ∃ purpose r, latest s purpose db = Some (id, r) ∧ cr_granted r = true) ∧
  (∀ id r expected e db', _append_consent_receipt_replacing_current id r expected db = (Raise e, db') → e ≠ corrupt_pointer ∧ e ≠ full_pointer).
Proof.
  intros db. assert (pointers_ok db) as Hok by apply run_pointers, empty_pointers. split.
  - intros s p Hp id. rewrite (proj2 (po_ids _ Hok _ _ Hp)). split.
    + intros (r & Hn & Hg). exists (cr_purpose r), r. by rewrite <- newest_latest.
    + intros (purpose & r & Hl & Hg). assert (cr_purpose r = purpose) as <- by by apply latest_Some in Hl as (_ & [_ ?] & _).
      exists r. by rewrite newest_latest.
  - intros id r expected e db' Hrun. exact (wp_run _ _ _ _ _ _ (append_run id r expected db Hok) Hrun).
Qed.

(** C25: Every profile stored in a run from an empty database passes the validators of [Profile],
    whatever wrote it; reading a profile never raises a validation error. *)
Theorem profiles_well_formed ops s :
  let db := identity_run ops empty_identity in
  match subjects db !! s with
  | Some p => profile_ok p = true ∧ get_profile s db = (Ok p, db)
  | None => get_profile s db = (Raise KeyError, db)
  end.
Proof.
  intros db. assert (pointers_ok db) as Hok by apply run_pointers, empty_pointers. unfold get_profile, gets, mbind, M_bind.
  destruct (subjects db !! s) as [p|] eqn:Hp; [|done]. pose proof (po_profiles _ Hok _ _ Hp) as Hpo. by rewrite Hpo.
Qed.
End Theorems.
