(* ===== verification/ConsentCheck.v ===== *)
(** * ConsentCheck: what a request names is what its route is checked against

    A request gets its consent receipts from [ConsentEvidenceService] and its route checks them
    with [ConsentHmacVerifier] ([services/providers/consent_guard.py]); the two read the same
    tables in two ways and agree. *)

From S2P Require Import Prelude PttFraming BudgetPricing BudgetLedger BudgetGuard Outbox Identity Consent Routes Profiles Enrollment IdentityRuns IdentitySafety ConsentPointers.

Section Check.
Context `{CN : ConsentServices}.

Lemma purpose_text_subject p db : purpose_of_text (purpose_text p) db = (Ok (consent_purpose p), db).
Proof. by destruct p. Qed.
Lemma purpose_text_guest p db : _guest_purpose (purpose_text p) db = (Ok p, db).
Proof. by destruct p. Qed.
Lemma active_read h session now db : (require_active h session now db).2 = db.
Proof. unfold require_active, gets, raise_if, mbind, M_bind. destruct (sessions db !! session); [|done]. by destruct (_ || _). Qed.
Lemma latest_guest_fields h session p db id r :
  latest_guest h session p db = Some (id, r) → gr_household_id r = h ∧ gr_session_id r = session ∧ gr_purpose r = p.
Proof.
  unfold latest_guest. intros Hl. apply newest_elem in Hl. unfold guest_consents_of in Hl. by apply list_elem_of_filter in Hl as [Hl _].
Qed.

Lemma evidence_subject h s session p now db e :
  require_evidence h (Some s) session [purpose_text p] now db = (Ok [e], db) ↔
  ∃ r, (require_current_in_uow s (consent_purpose p) now db).1 = Ok (cv_receipt_id e, r) ∧ cr_household_id r = h ∧
       e = mkEvidence (cv_receipt_id e) h (Some s) None (purpose_text p) (cr_expires_at r).
Proof.
  cbn [require_evidence]. unfold mbind, M_bind. rewrite purpose_text_subject. unfold require_current_hmac_valid, mbind, M_bind.
  pose proof (current_read s (consent_purpose p) now db) as Hread.
  destruct (require_current_in_uow s (consent_purpose p) now db) as [[[id r]|x] db1]; cbn in Hread |- *; subst db1.
  - destruct (Z.eqb_spec (cr_household_id r) h) as [Hh|Hh]; cbn.
    + split; [intros [= <-]; by exists r|]. intros (r' & [= -> ->] & _ & ->). done.
    + split; [done|]. by intros (r' & [= _ <-] & ? & _).
  - split; [done|]. by intros (r & ? & _).
Qed.

Lemma evidence_guest h session p now db e :
  require_evidence h None session [purpose_text p] now db = (Ok [e], db) ↔
  ∃ r expires_at, (require_active h session now db).1 = Ok expires_at ∧ latest_guest h session p db = Some (cv_receipt_id e, r) ∧
    guest_in_force r now = true ∧ gr_expires_at r ≤ expires_at ∧
    verify_fields (gr_commitment_key_id r) (GuestConsent (guest_fields r)) (gr_receipt_hmac r) = true ∧
    e = mkEvidence (cv_receipt_id e) h None (Some session) (purpose_text p) (Some (gr_expires_at r)).
Proof.
  cbn [require_evidence]. unfold mbind, M_bind. rewrite purpose_text_guest. unfold require_current_guest, gets, mbind, M_bind.
  pose proof (active_read h session now db) as Hread.
  destruct (require_active h session now db) as [[expires_at|x] db1]; cbn in Hread |- *; subst db1; [|split; [done|by intros (? & ? & ? & _)]].
  destruct (latest_guest h session p db) as [[id r]|] eqn:Hl; [|split; [done|by intros (? & ? & _ & ? & _)]].
  pose proof (latest_guest_fields _ _ _ _ _ _ Hl) as (<- & <- & <-). cbn.
  change (guest_fields (mkGuestConsent _ _ _ _ _ _ _ _ _ _ _ _)) with (guest_fields r).
  destruct (guest_in_force r now) eqn:Hf; cbn; [|split; [done|intros (? & ? & _ & [= <- <-] & ? & _); congruence]].
  destruct (Z.ltb_spec expires_at (gr_expires_at r)); cbn; [split; [done|intros (? & ? & [= <-] & [= <- <-] & _ & ? & _); lia]|].
  destruct (verify_fields _ _ _) eqn:Hv; cbn; [|split; [done|intros (? & ? & _ & [= <- <-] & _ & _ & ? & _); congruence]].
  split; [intros [= <-]; by exists r, expires_at|]. intros (? & ? & _ & [= -> <-] & _ & _ & _ & ->). done.
Qed.

(** The route check of a subject or a guest accepts exactly one list of receipts: the one receipt
    that the evidence service hands out for this purpose at this time. *)
Theorem evidence_exact h s session p ids now db :
  (require_exact_in_uow h s session p ids now db).1 = Ok tt ↔
  ∃ e, require_evidence h s session [purpose_text p] now db = (Ok [e], db) ∧ ids = [cv_receipt_id e].
Proof.
  destruct s as [s|]; cbn [require_exact_in_uow].
  - setoid_rewrite evidence_subject. unfold _require_subject_exact_in_uow, gets, mbind, M_bind.
    destruct ids as [|id [|]]; [by split; [|intros (? & _ & [=])]| |by split; [|intros (? & _ & [=])]].
    destruct (require_current_in_uow s (consent_purpose p) now db) as [[[id' r]|x] db1] eqn:Hcur; cbn.
    + destruct (Z.eqb_spec (cr_household_id r) h) as [Hh|Hh]; cbn.
      * destruct (Z.eqb_spec id' id) as [<-|Hne]; cbn.
        -- split; [|done]. intros _. by exists (mkEvidence id' h (Some s) None (purpose_text p) (cr_expires_at r)); split; [exists r|].
        -- split; [done|]. intros (e & (r' & [= ? _] & _) & [= ?]). congruence.
      * split; [done|]. by intros (e & (r' & [= _ <-] & ? & _) & _).
    + split; [by destruct x|]. by intros (e & (r & ? & _) & _).
  - setoid_rewrite evidence_guest. unfold _require_guest_exact_in_uow, gets, mbind, M_bind.
    destruct ids as [|id [|]]; [by split; [|intros (? & _ & [=])]| |by split; [|intros (? & _ & [=])]].
    destruct (require_active h session now db) as [[expires_at|x] db1]; cbn; [|split; [done|by intros (e & (? & ? & ? & _) & _)]].
    destruct (latest_guest h session p db) as [[id' r]|] eqn:Hl; [|split; [done|by intros (e & (? & ? & _ & ? & _) & _)]].
    pose proof (latest_guest_fields _ _ _ _ _ _ Hl) as (<- & <- & <-). rewrite !Z.eqb_refl, bool_decide_true by done. cbn.
    destruct (Z.eqb_spec id' id) as [<-|Hne]; cbn; [|split; [done|intros (e & (? & ? & _ & [= ? _] & _) & [= ?]); congruence]].
    destruct (guest_in_force r now) eqn:Hf; cbn; [|split; [done|intros (e & (? & ? & _ & [= _ <-] & ? & _) & _); congruence]].
    destruct (Z.ltb_spec expires_at (gr_expires_at r)); cbn; [split; [done|intros (e & (? & ? & [= <-] & [= _ <-] & _ & ? & _) & _); lia]|].
    destruct (verify_fields _ _ _) eqn:Hv; cbn; [|split; [done|intros (e & (? & ? & _ & [= _ <-] & _ & _ & ? & _) & _); congruence]].
    split; [|done]. intros _. exists (mkEvidence id' (gr_household_id r) None (Some (gr_session_id r)) (purpose_text (gr_purpose r)) (Some (gr_expires_at r))).
    split; [|done]. by exists r, expires_at.
Qed.
End Check.
