(* ===== verification/Household.v ===== *)
(** * A household: the theorems on one concrete run

    An owner is set up, an adult joins and consents to face recognition and cloud speech, an
    enrollment is calibrated, a route is authorized.  The theorems of [IdentitySafety] and
    [RouteSafety] are applied to what happens then. *)

From stdpp Require Import sorting pretty.
From S2P Require Import Prelude PttFraming BudgetPricing BudgetLedger BudgetGuard ProviderCalls Outbox Identity Consent Routes Profiles Enrollment IdentityRuns IdentitySafety RouteSafety ConsentPointers.

Definition house_commitment : Commitment := mkCommitment "key-1" "params".
Definition house_bound : RouteBinding := mkBound 70 71 cloud_stt 1 (Some 11) 5 2 "openai" "whisper".
Definition house_route : RouteAuthorization := mkRoute 30 house_bound house_commitment 1000 500 80 "internal" 30_002_000.
Definition house_envelope : Envelope := mkEnvelope house_route 60 [101] (Some 1) None.

#[local] Instance house_budget_services : BudgetServices := {|
  singapore_month_key := λ _, "2026-07"%string;
  require_current_review := λ _ _ _ _, Ok tt;
  issue_pricing_snapshot := λ _ _, Raise ReservationNotSettleable;
  require_pricing_snapshot := λ _ _, Raise ReservationNotSettleable;
  require_provider_usage_receipt := λ _ _ _ _ _, Raise ReservationNotSettleable;
  canonical_receipt := λ _, ""%string;
  json_turn_id := λ _, None;
|}.
#[local] Instance house_parameters : ParameterServices := {| parameter_key_id := "key-1"; commit_parameters := λ _, "params"%string |}.
#[local] Instance house_signer : ConsentServices :=
  {| sign_fields := λ _, ("receipts"%string, repeat x01 32); verify_fields := λ _ _ _, true |}.
#[local] Instance house_routes : RouteServices := {|
  canonical_envelope := λ e, if bool_decide (e = house_envelope) then "route"%string else "other"%string;
  _parse_persisted_route_envelope := λ raw, if bool_decide (raw = "route"%string) then Some house_envelope else None;
  json_route_subject_id := λ raw, if bool_decide (raw = "route"%string) then Some 11 else None;
  json_route_purpose := λ raw, if bool_decide (raw = "route"%string) then Some cloud_stt else None;
  _parse_privacy_receipt := λ _, Some (mkPrivacy 60 2 40_000_000);
  uuid_text := λ id, pretty id;
  subject_authority := λ _ _ _ _, Ok 1;
|}.
#[local] Instance house_profiles : ProfileServices := {|
  seal_display_label := λ _ _ _ _, repeat x01 28;
  seal_traits := λ _ _ _ _, repeat x01 28;
  open_traits := λ _ _ _ _, Raise ValidationError;
  require_schema_and_facade_absent_in_uow := λ _ _, Ok tt;
|}.

Definition house_binding (action resource : string) (id actor : UUID) : ActionBinding :=
  mkBinding 1 90 91 92 action resource (Some id) house_commitment "phase1-v1" 5 (Some actor).
Definition house_auth (b : ActionBinding) : AuthContext := mkAuth (Some 93) (ab_subject_id b) b passkey 500.
Definition house_audit (_ : nat) : result exn unit := Ok tt.

Definition house_owner : Profile := mkProfile 1 None 0 owner (repeat x01 28) None [] true 1 1 None None.
Definition house_create : CreateProfile := mkCreateProfile 1 11 adult None "Asha" (house_binding "profile.create" "profile" 11 10).
Definition house_consent (action : string) (p : ConsentPurpose) (expected : option UUID) : ConsentCommand :=
  mkConsentCommand 11 11 p expected None (house_binding action "consent" 11 11) "phase1-v1" "phase1-disclosure-v1".
Definition house_enroll : RequestEnrollment := mkRequestEnrollment 11 face 1 100 (house_binding "identity.enroll" "identity" 11 10) 180.
Definition house_template : TemplateRow := mkTemplate (Some 40) 11 face "model-1" 100 1500 None None.
Definition house_reservation : Reservation :=
  mkReservation 70 71 "2026-07" stt "openai" "whisper" allow (SttUsageUnits 500) 1000 None
    (Some (mkColumns (mkSigned "{}" house_commitment) provider_reported_exact freeze_unknown_overage "" "" "" "")) false reserved 1 not_claimed
    1000 40_000_000 None None.
Definition house_budget : BudgetDB :=
  mkBudgetDB {[80 := house_reservation]} ∅ ∅ {[OtherKey "privacy.receipt.60" := OtherValue "privacy"]}.
Definition house_request : RouteAuthorizationRequest :=
  mkRouteRequest house_bound house_commitment 1000 500 60 [101] 80 "internal".
Definition house_clock (k : nat) : Z := 2000 + Z.of_nat k.

Definition house_ops : list identity_op :=
  [OpProvisionOwner 10 house_owner;
   OpInstallOwner 1 10 1;
   OpCreateProfile house_create (house_auth (cp_action_binding house_create)) 1000 house_audit;
   OpGrant (house_consent "consent.grant" FACE None) (house_auth (house_binding "consent.grant" "consent" 11 11)) 1000 100 1000 (Ok tt);
   OpGrant (house_consent "consent.grant" CLOUD_STT None) (house_auth (house_binding "consent.grant" "consent" 11 11)) 1000 101 1000 (Ok tt);
   OpRequestEnrollment house_enroll (house_auth (re_action_binding house_enroll)) 1000 1000 41 40 (Ok tt);
   OpBeginCapture 40; OpTemplates {[41 := house_template]}; OpMarkCalibrating 40;
   OpSessions {[5 := mkSession 1 "active" (Some 11) 1500 None]};
   OpBudget house_budget;
   OpAuthorize house_request 30 (λ k, Z.of_nat k + 1996)].
Definition house : IdentityDB := identity_run house_ops empty_identity.
Definition house_consumption : RouteConsumption := mkConsumption house_bound house_commitment 500 400 2000.

Example house_runs :
  map_to_list (pf_current_consent_receipt_ids <$> subjects house) = [(11, [100; 101]); (10, [])] ∧
  route_settings house !! RouteKey 30 = Some (OtherValue "route") ∧ en_state <$> enrollments house !! 40 = Some en_calibrating ∧
  (complete_enrollment 40 [41] 100 (default (mkConsent 0 0 0 None None FACE false "" "" "" [] 0 None) (consent_receipts house !! 100)) 2000 (Ok tt)
     house).1 ≠ Raise KeyError.
Proof. vm_compute. split_and!; done. Qed.

(** The consent to cloud speech is revoked and granted again: the first receipt stays useless. *)
Definition house_no : ConsentCommand := house_consent "consent.revoke" CLOUD_STT (Some 101).
Definition house_revocation : result exn (UUID * ConsentReceipt) * IdentityDB :=
  revoke_consent house_no (house_auth (cc_action_binding house_no)) 3000 102 3000 house_audit (Ok tt) house.
Definition house_refusal : UUID * ConsentReceipt := (102, mkConsent 1 11 11 None None CLOUD_STT false "phase1-v1" "phase1-disclosure-v1" "receipts" (repeat x01 32) 3000 (Some 3000)).
Definition house_revoked : IdentityDB := Eval vm_compute in house_revocation.2.
Definition house_regrant : identity_op :=
  OpGrant (house_consent "consent.grant" CLOUD_STT (Some 102)) (house_auth (house_binding "consent.grant" "consent" 11 11)) 4000 103 4000 (Ok tt).
Lemma consent_revocation_final_witness :
  ∃ x, authorize house_request 31 house_clock (identity_run [house_regrant] house_revoked) = (Raise x, identity_run [house_regrant] house_revoked).
Proof.
  assert (revoke_consent house_no (house_auth (cc_action_binding house_no)) 3000 102 3000 house_audit (Ok tt) house = (Ok house_refusal, house_revoked)) as Hrev
    by (vm_compute; reflexivity).
  assert (∀ id, id ∈ [101] → is_Some (consent_receipts house_revoked !! id)) as Hids
    by (intros id ->%list_elem_of_singleton; vm_compute; eauto).
  destruct (consent_revocation_final _ _ _ _ _ _ _ _ _ _ [house_regrant] cloud_stt Hrev eq_refl) as [Hauth _].
  apply Hauth. split_and!; [reflexivity|reflexivity|exact Hids].
Defined.
(** After the new grant the new receipt works: the theorem is about the old one. *)
Example house_new_route :
  is_ok (authorize (mkRouteRequest (mkBound 70 72 cloud_stt 1 (Some 11) 5 2 "openai" "whisper") house_commitment 1000 500 60 [103] 80 "internal") 31
    (λ k, 5000) (identity_run [house_regrant; OpBudget (mkBudgetDB {[80 := mkReservation 70 72 "2026-07" stt "openai" "whisper" allow (SttUsageUnits 500) 1000 None
      (rv_pricing house_reservation) false reserved 1 not_claimed 1000 40_000_000 None None]} ∅ ∅ (settings house_budget))] house_revocation.2)).1 = true.
Proof. vm_compute. reflexivity. Qed.

(** The consent to face recognition is revoked while an enrollment is calibrated. *)
Definition house_no_face : ConsentCommand := house_consent "consent.revoke" FACE (Some 100).
Definition house_face_refusal : UUID * ConsentReceipt := (102, mkConsent 1 11 11 None None FACE false "phase1-v1" "phase1-disclosure-v1" "receipts" (repeat x01 32) 3000 (Some 3000)).
Definition house_face_revoked : IdentityDB :=
  Eval vm_compute in (revoke_consent house_no_face (house_auth (cc_action_binding house_no_face)) 3000 102 3000 house_audit (Ok tt) house).2.
Definition house_attempts : list identity_op :=
  [OpCompleteEnrollment 40 [41] 100 (mkConsent 1 11 11 None None FACE true "" "" "" [] 1000 None) 3500 (Ok tt); OpMarkCalibrating 40].
Definition house_cancelled : EnrollmentRow := mkEnrollment 11 face en_cancelled 93 100 180 1000 1_800_001_000 (Some 41) (Some 3000).
Lemma biometric_revocation_final_witness :
  enrollments (identity_run house_attempts house_face_revoked) !! 40 = Some house_cancelled ∧
  templates (identity_run house_attempts house_face_revoked) !! 41 = Some (revoked_template 3000 house_template).
Proof.
  assert (revoke_consent house_no_face (house_auth (cc_action_binding house_no_face)) 3000 102 3000 house_audit (Ok tt) house =
    (Ok house_face_refusal, house_face_revoked)) as Hrev by (vm_compute; reflexivity).
  assert (enrollments house_face_revoked !! 40 = Some house_cancelled) as He by (vm_compute; reflexivity).
  assert (templates house_face_revoked !! 41 = Some (revoked_template 3000 house_template)) as Ht by (vm_compute; reflexivity).
  destruct (biometric_revocation_final _ _ _ _ _ _ _ _ _ _ house_attempts face Hrev eq_refl) as [Hall Htall].
  split; [exact (proj2 (Hall 40 _ He eq_refl eq_refl))|exact (proj2 (Htall 41 _ Ht eq_refl eq_refl))].
Defined.

(** The adult's profile is revoked by the owner. *)
Definition house_leave : RevokeProfile := mkRevokeProfile 11 1 (house_binding "profile.revoke" "profile" 11 10).
Definition house_gone : Profile := mkProfile 1 None 0 adult (repeat x01 28) None [100; 101] false 2 2 None (Some 3000).
Definition house_left : IdentityDB :=
  Eval vm_compute in (revoke_profile house_leave (house_auth (rp_action_binding house_leave)) 3000 200 house_audit house).2.
Definition house_try : ConsentCommand := house_consent "consent.grant" VOICE None.
Lemma profile_revocation_final_witness :
  queued ("subject-revoked:" ++ uuid_text (rp_subject_id house_leave) ++ ":" ++ pretty (pf_authority_generation house_gone))%string house_left ∧
  ∃ x, grant house_try (house_auth (cc_action_binding house_try)) 3500 110 3500 (Ok tt) (identity_run house_attempts house_left) =
    (Raise x, identity_run house_attempts house_left).
Proof.
  assert (revoke_profile house_leave (house_auth (rp_action_binding house_leave)) 3000 200 house_audit house = (Ok house_gone, house_left)) as Hrev
    by (vm_compute; reflexivity).
  destruct (profile_revocation_final _ _ _ _ _ _ _ _ house_attempts Hrev) as (Hq & _ & _ & _ & Hgrant & _).
  split; [exact Hq|apply Hgrant; reflexivity].
Defined.

(** The route is used once. *)
Definition house_used : IdentityDB := Eval vm_compute in (consume 30 house_consumption house_clock house).2.
Definition house_again : list identity_op := [OpInvalidate 11 cloud_stt; OpAuthorize house_request 30 house_clock].
Lemma route_consumed_once_witness :
  (∃ e, entitled 30 house_consumption house_clock e house) ∧
  ∃ x, consume 30 house_consumption house_clock (identity_run house_again house_used) = (Raise x, identity_run house_again house_used).
Proof.
  assert (consume 30 house_consumption house_clock house = (Ok tt, house_used)) as Hused by (vm_compute; reflexivity).
  exact (route_consumed_once _ _ _ _ _ house_again house_consumption house_clock Hused).
Defined.

(** The unused route is revoked, in pages or at once. *)
#[local] Instance house_laws : RouteLaws.
Proof.
  split.
  - intros e e'. cbn -[bool_decide]. destruct (bool_decide (e = house_envelope)) eqn:He; [|by intros [=]].
    apply bool_decide_eq_true in He as ->. intros [= <-]. done.
  - intros raw e. cbn -[bool_decide]. case_bool_decide; [by intros [= <-]|by intros [=]].
Qed.
Definition house_cleared : IdentityDB := Eval vm_compute in (invalidate_at_once 11 cloud_stt house).2.
Lemma invalidate_paged_at_once_witness :
  (invalidate_subject_purpose_in_uow 11 cloud_stt (identity_run house_ops empty_identity)).2 = house_cleared ∧
  route_settings house_cleared !! RouteKey 30 = None.
Proof.
  assert (invalidate_at_once 11 cloud_stt (identity_run house_ops empty_identity) = (Ok [30], house_cleared)) as Hcleared
    by (vm_compute; reflexivity).
  assert (route_settings house_cleared !! RouteKey 30 = None) as Hnone by (vm_compute; reflexivity).
  destruct (proj2 (invalidate_paged_at_once 11 cloud_stt) house_ops) as (ids & db' & Hpaged & Hatonce & _).
  rewrite Hpaged. rewrite Hcleared in Hatonce. injection Hatonce as _ Hdb. split; [symmetry; exact Hdb|exact Hnone].
Defined.

(** The two differ on a store that the services never write: the text of the consumed route 30
    under the key of another route goes in pages and stays in one pass. *)
Definition house_mismatched : IdentityDB := with_settings (<[RouteKey 31 := OtherValue "route"]>) house_used.
Example mismatched_route_differs :
  (invalidate_subject_purpose_in_uow 11 cloud_stt house_mismatched).1 = Ok [31] ∧
  (invalidate_at_once 11 cloud_stt house_mismatched).1 = Ok [].
Proof. by vm_compute. Qed.
